(* ===== verification/_CoqProject ===== *)
-Q . S2P
Prelude.v
Words.v
Isa.v
Field.v
Air.v
AirFacts.v
SmallInverse.v
Operations.v
Compare.v
Bitwise.v
Mul.v
Adapter.v
AdapterFacts.v
Row.v
Readers.v
AluChips.v
AluChipFacts.v
Address.v
MemoryChips.v
MemoryChipFacts.v
MemoryComplete.v
ControlChips.v
ControlChipFacts.v
ControlComplete.v
AluX0.v
ShiftChips.v
ShiftFacts.v
ShiftComplete.v
Padding.v
DivRem.v
DivRemFacts.v
DivRemComplete.v
Bump.v
MemoryArgument.v
SyscallCode.v
Paging.v
Memory.v
Executor.v
ExecutorFacts.v
MemoryFacts.v
Curves.v
CurveFacts.v
Syscalls.v
Unconstrained.v
SyscallFacts.v
SyscallInv.v
CurveCalls.v
Sha256.v
SystemTheorems.v
Tables.v
ByteCounts.v
Machine.v
MachineRun.v
Examples.v
Theorems.v
