(* ===== verification/Prelude.v ===== *)
(** * A verification development for the SP1 zkVM

    SP1 proves executions of RV64IM programs.  A program is run by an executor;
    the run is laid out as a trace, one row per instruction, in tables called
    chips; polynomial constraints over the KoalaBear field and messages on
    buses (state, memory, program, byte lookups) say what a row may hold; a
    cryptographic prover shows that all constraints hold and all buses balance.
    The development models the executor with its memory and system calls, the
    gadgets and chips of the instruction set with their trace generation and
    constraints, and the byte tables with their concurrent counters, and
    proves that they fit together: a satisfied, balanced trace is a run of the
    executor, the rows of an execution satisfy the constraints, and the system
    calls compute what they are named after.

    ** The parts and their files

    - Rust and numbers.  [Prelude]: the error monad [Res] ([Ok] or [Panic]),
      tactics, lemmas on powers of two and bits.  [Words]: casts, wrapping
      arithmetic and limbs ([crates/primitives/src/consts.rs]).  [Field]: the
      field of order 2130706433, its primality and its field laws.
    - Instructions.  [Isa]: [Opcode] and its encodings ([executor/src/opcode.rs]),
      [Instruction] ([instruction.rs]), [Register], and the values of ALU, load,
      store and branch instructions as the executor computes them.
    - Constraints.  [Air]: [eval] of a chip is a list of [Emit]s, assertions
      under guards and sends and receives on buses ([hypercube/src/air]);
      [sats] is satisfaction with byte lookups answered by the byte table;
      [complete l ev] says that [l] is satisfied and looks up exactly the
      events [ev].  [AirFacts]: the calculus of these lists, and the class
      [Rep] that carries field terms back to integers.
    - Gadgets ([core/machine/src/operations]).  [SmallInverse], [Operations]
      (addition, subtraction, most significant bit, comparison of limbs),
      [Compare] (zero test, equality, signed and unsigned comparison),
      [Bitwise], [Mul], [Address].
    - Readers.  [Adapter]: [CPUState], register and memory accesses with their
      timestamps, the R, I, ALU and J type readers, the program lookup and the
      untrusted fetch ([adapter/], [memory/consistency/], [air/memory.rs],
      [air/program.rs], [lib.rs]).  [AdapterFacts], [Row] and [Readers]: the
      messages of a row, what it means that a row executes an instruction
      ([step_row]), and the class [ReaderLaws] that the four readers satisfy
      and against which the chips are verified.
    - Chips.  [AluChips]/[AluChipFacts] (add, sub, addi, addw, subw, mul,
      bitwise, lt), [ShiftChips]/[ShiftFacts]/[ShiftComplete] (sll, sr),
      [AluX0] (ALU instructions with destination x0),
      [DivRem]/[DivRemFacts]/[DivRemComplete],
      [MemoryChips]/[MemoryChipFacts]/[MemoryComplete] (loads and stores),
      [ControlChips]/[ControlChipFacts]/[ControlComplete] (branch, jal, jalr,
      lui and auipc), [Bump] (state and memory bump).  For each chip: its
      columns as a record, its row generation [event_to_row] with the byte
      lookups it records, and [eval].  [Padding]: rows with [is_real = 0].
    - Byte tables.  [Tables]: the preprocessed byte and range tables, their
      multiplicity columns and constraints ([machine/src/bytes],
      [machine/src/range]).  [ByteCounts]: the counters of byte lookups
      ([executor/src/events/byte.rs]), with the calls of concurrent writers as
      interleaved atomic actions on the pool.
    - Executor.  [Executor]: the portable [MinimalExecutor] in supervisor mode
      ([executor/src/minimal/arch/portable/mod.rs]) over any memory with the
      operations [MemoryOps] and any handler of system calls;
      [ExecutorFacts]: loads and stores on bytes, the invariant of a step
      (classes [MemoryLaws], [MemoryInv], contract [handler_ok]), the loop of
      [try_execute_chunk].
    - Memory.  [Paging]: the index and the pages of [executor/src/memory.rs]
      and the finite map they represent.  [Memory]: copy on write, the limit
      on entries with its recorded error, page permissions
      ([minimal/arch/portable/cow.rs]).  [MemoryFacts]: the instances that make
      the limited memory a memory of the executor.
    - System calls.  [SyscallCode]: the codes ([syscall_code.rs]).  [Curves]:
      fields, points, addition, doubling and decompression ([crates/curves]);
      [CurveFacts]: their equations.  [Syscalls]: the handler [ecall_handler]
      ([minimal/ecall.rs]) and the calls it makes ([minimal/hint.rs],
      [write.rs], [precompiles/]), and the start of a program.
      [Unconstrained]: blocks that are undone.  [SyscallFacts], [CurveCalls]:
      the calls on a memory that holds a map ([holds_map]).  [SyscallInv]: the
      handler keeps the invariant of the executor.  [Sha256]: FIPS 180-4 as a
      reference ([Fips]) and its agreement with the two SHA-256 calls.
    - The machine.  [MemoryArgument]: balanced memory messages with increasing
      timestamps are reads and writes of a store; balanced state messages are a
      chain.  [Machine]: [ChipRow], a row of any of the twenty-five chips, and
      the program table ([program/trusted.rs]).  [MachineRun]: from balanced
      buses to a run of [execute_instruction].  [Examples]: a concrete program,
      its trace and padding.
    - The theorems are in [Theorems] (machine, chips, gadgets, executor) and
      [SystemTheorems] (memory and system calls).

    ** What the theorems show

    - Soundness: [machine_sound] for whole traces, [chip_row_sound] for a row,
      [padding_silent] for padding.
    - Completeness: [alu_trace_complete], [load_trace_complete],
      [store_trace_complete], [branch_trace_complete], [jump_trace_complete],
      [shift_x0_trace_complete], [divrem_trace_complete].
    - Byte tables: [byte_tables_exact], [byte_bus_balanced], [byte_bus_sound];
      their counters: [concurrent_counts], [counts_progress],
      [counts_serialization].
    - Gadgets: [mul_operation_correct], [lt_operation_correct],
      [bitwise_operation_correct], [small_inverse_correct], [division_agrees].
    - Executor: [memory_bytes], [store_load_roundtrip], [executor_invariant],
      [chunk_loop_spec]; with its memory and all system calls,
      [reachable_states_typed].
    - Memory: [paged_memory_refines], [paged_memory_iteration],
      [limited_memory_refines], [recorded_error_kept]: finite maps, with
      snapshots and a limit.
    - System calls: [unconstrained_block], [hint_write_roundtrip],
      [uint256_carry], [uint256_mul_mod], [base_field_operation],
      [extension_multiplication], [sha256_block], [weierstrass_group_calls],
      [edwards_decompression].
    - Representations: [word_roundtrip].

    ** Parameters and bounds

    The major opcodes of the [rrs_lib] crate and the segment flags of the [elf]
    crate are the parameters [MajorOpcodes] and [SegmentFlags]; the chips take
    the flags with the public values in [Config].  What the system calls take
    from elsewhere is the record [External]: the flags, the Keccak and Poseidon2
    permutations, the hooks, the curves secp256k1 and Ed25519 of the crates
    [k256] and [curve25519_dalek], the calls for debugging.  The theorems about
    curves ask that the power [d^(p-2)] computed by the code inverts the
    denominator [d] ([inverts]); [prime_inverts] gives this from the primality
    of the modulus, which is not proved for the moduli of 255 bits and more.

    Fuel occurs in [chunk_loop], whose theorem says for every fuel when it
    returns, in [modpow_loop], which gets one more than the logarithm of the
    exponent, so that the exponent is 0 at the end ([modpow_loop_spec]), and in
    [as_chunks], which gets the length of the list ([as_chunks_spec]).

    ** Not modelled

    Global and local memory chips (their messages are hypotheses of the machine
    theorem: canonical records, one per address); the chips of the system
    calls; user mode of the executor, with page-permission checks, traps and
    untrusted instructions; the hooks and the calls of [debug.rs]; the
    replaying VM; the JIT, the provers and verifiers, recursion, the GPU code,
    the SDK and the guest runtime: cryptography, code generation and I/O
    outside the execution layer. *)

From Stdlib Require Import ZArith Lia List Bool.
Import ListNotations.
Open Scope Z_scope.
Open Scope bool_scope.

(** ** Rust results

    A Rust computation returns a value or panics; [Res] is the error monad of
    every fallible definition of the development.  Recoverable errors
    (Rust's [Result]) are values inside [Ok]. *)
Inductive Res (A : Type) : Type :=
| Ok (a : A)
| Panic.
Arguments Ok {A} a.
Arguments Panic {A}.

Definition bind {A B} (m : Res A) (f : A -> Res B) : Res B :=
  match m with Ok a => f a | Panic => Panic end.

Definition assertb (b : bool) : Res unit := if b then Ok tt else Panic.

Definition of_option {A} (o : option A) : Res A :=
  match o with Some a => Ok a | None => Panic end.

Declare Scope rust_scope.
Delimit Scope rust_scope with rust.
Notation "'let*' x ':=' m 'in' f" := (bind m (fun x => f))
  (at level 10, x pattern, m at level 100, f at level 200) : rust_scope.
Notation "'assert!' b ';;' f" := (bind (assertb b) (fun _ => f))
  (at level 10, b at level 99, f at level 200) : rust_scope.
Open Scope rust_scope.

Fixpoint mapM {A B} (f : A -> Res B) (l : list A) : Res (list B) :=
  match l with
  | [] => Ok []
  | x :: l => let* y := f x in let* r := mapM f l in Ok (y :: r)
  end.

(** ** Tactics *)

(** Case analysis on the innermost scrutinee of a [match] or [if]. *)
Ltac case_match_in_goal :=
  match goal with
  | |- context [match ?x with _ => _ end] =>
      lazymatch x with context [match _ with _ => _ end] => fail | _ => destruct x eqn:? end
  end.
Ltac case_match_in H :=
  match type of H with
  | context [match ?x with _ => _ end] =>
      lazymatch x with context [match _ with _ => _ end] => fail | _ => destruct x eqn:? end
  end.

(** Split every conjunction of the context. *)
Ltac split_hyps :=
  repeat match goal with
  | H : _ /\ _ |- _ => destruct H
  | H : exists _, _ |- _ => destruct H
  | H : True |- _ => clear H
  end.

(** Boolean comparisons of [Z] in the context, as propositions. *)
Ltac zbool :=
  repeat match goal with
  | H : (_ =? _) = true |- _ => apply Z.eqb_eq in H
  | H : (_ =? _) = false |- _ => apply Z.eqb_neq in H
  | H : (_ <? _) = true |- _ => apply Z.ltb_lt in H
  | H : (_ <? _) = false |- _ => apply Z.ltb_ge in H
  | H : (_ <=? _) = true |- _ => apply Z.leb_le in H
  | H : (_ <=? _) = false |- _ => apply Z.leb_gt in H
  | H : (_ && _) = true |- _ => apply andb_prop in H; destruct H
  | H : (_ && _) = false |- _ => apply andb_false_iff in H
  | H : (_ || _) = true |- _ => apply orb_prop in H
  | H : (_ || _) = false |- _ => apply orb_false_elim in H; destruct H
  | H : negb _ = true |- _ => apply negb_true_iff in H
  | H : negb _ = false |- _ => apply negb_false_iff in H
  end.

(** Linear arithmetic after the division and remainder of [Z] have been
    replaced by their Euclidean equations. *)
Ltac dlia := Z.to_euclidean_division_equations; lia.

(** The monad's binds in a hypothesis [m = Ok v], undone one by one. *)
Lemma bind_ok {A B} (m : Res A) (f : A -> Res B) (b : B) :
  bind m f = Ok b -> exists a, m = Ok a /\ f a = Ok b.
Proof. destruct m; cbn; intros; [eauto | discriminate]. Qed.

Lemma Ok_inj {A} (x y : A) : Ok x = Ok y -> x = y.
Proof. congruence. Qed.

Lemma assertb_ok (b : bool) (u : unit) : assertb b = Ok u -> b = true.
Proof. destruct b; [reflexivity | discriminate]. Qed.

Lemma of_option_ok {A} (o : option A) (a : A) : of_option o = Ok a -> o = Some a.
Proof. destruct o; cbn; congruence. Qed.

Ltac inv_ok :=
  repeat match goal with
  | H : Ok _ = Ok _ |- _ => injection H as H; try subst
  | H : Panic = Ok _ |- _ => discriminate H
  | H : Ok _ = Panic |- _ => discriminate H
  | H : bind _ _ = Ok _ |- _ =>
      let a := fresh "v" in let E := fresh "E" in
      apply bind_ok in H; destruct H as [a [E H]]
  | H : assertb _ = Ok _ |- _ => apply assertb_ok in H
  | H : of_option _ = Ok _ |- _ => apply of_option_ok in H
  end.

(** ** Powers of two *)

Lemma pow2_pos (n : Z) : 0 <= n -> 0 < 2 ^ n.
Proof. intros; apply Z.pow_pos_nonneg; lia. Qed.

Lemma pow2_split (a b : Z) : 0 <= a -> 0 <= b -> 2 ^ (a + b) = 2 ^ a * 2 ^ b.
Proof. intros; apply Z.pow_add_r; lia. Qed.

(** ** Residues *)

(** Two representatives less than a modulus apart that are congruent are
    equal: the step from a field equation to an integer one. *)
Lemma mod_eq_small (m a b : Z) :
  0 < m -> a mod m = b mod m -> - m < a - b < m -> a = b.
Proof.
  intros Hm He Hb.
  pose proof (Z.div_mod a m ltac:(lia)); pose proof (Z.div_mod b m ltac:(lia)).
  assert (Hk : a - b = m * (a / m - b / m)) by lia.
  assert (a / m - b / m = 0) by nia. lia.
Qed.

Lemma mod_small_eq (m a b : Z) : 0 < m -> 0 <= b < m -> (exists k, a = b + k * m) -> a mod m = b.
Proof. intros Hm Hb [k ->]. rewrite Z_mod_plus_full. apply Z.mod_small; lia. Qed.

Lemma mod_mod_le (x a b : Z) : 0 <= a <= b -> (x mod 2 ^ b) mod 2 ^ a = x mod 2 ^ a.
Proof.
  intros. replace b with (a + (b - a)) by lia. rewrite pow2_split by lia.
  rewrite Z.rem_mul_r by (apply Z.pow_nonzero || apply pow2_pos; lia).
  rewrite (Z.mul_comm (2 ^ a)), Z_mod_plus_full. apply Z.mod_mod. apply Z.pow_nonzero; lia.
Qed.

(** ** Bit operations on bounded integers *)

Lemma testbit_high (x n i : Z) : 0 <= x < 2 ^ n -> n <= i -> Z.testbit x i = false.
Proof.
  intros Hx Hi. destruct (Z.eq_dec x 0) as [-> | Hnz]; [apply Z.bits_0|].
  apply Z.bits_above_log2; [lia|]. apply Z.log2_lt_pow2; [lia|]. apply Z.lt_le_trans with (2 ^ n); [lia|].
  apply Z.pow_le_mono_r; lia.
Qed.

Lemma bits_bound (x n : Z) :
  0 <= n -> 0 <= x -> (forall i, n <= i -> Z.testbit x i = false) -> x < 2 ^ n.
Proof.
  intros Hn Hx Hb. destruct (Z.eq_dec x 0) as [-> | Hnz]; [apply pow2_pos; lia|].
  apply Z.log2_lt_pow2; [lia|]. destruct (Z_lt_le_dec (Z.log2 x) n) as [|Hle]; [assumption|].
  specialize (Hb _ Hle). rewrite Z.bit_log2 in Hb by lia. discriminate.
Qed.

Lemma land_bound (a b n : Z) : 0 <= n -> 0 <= a < 2 ^ n -> 0 <= b < 2 ^ n -> 0 <= Z.land a b < 2 ^ n.
Proof.
  intros. assert (0 <= Z.land a b) by (apply Z.land_nonneg; lia). split; [assumption|].
  apply bits_bound; try lia. intros. rewrite Z.land_spec, (testbit_high a n) by lia. reflexivity.
Qed.

Lemma lor_bound (a b n : Z) : 0 <= n -> 0 <= a < 2 ^ n -> 0 <= b < 2 ^ n -> 0 <= Z.lor a b < 2 ^ n.
Proof.
  intros. assert (0 <= Z.lor a b) by (apply Z.lor_nonneg; lia). split; [assumption|].
  apply bits_bound; try lia. intros. rewrite Z.lor_spec, (testbit_high a n), (testbit_high b n) by lia.
  reflexivity.
Qed.

Lemma lxor_bound (a b n : Z) : 0 <= n -> 0 <= a < 2 ^ n -> 0 <= b < 2 ^ n -> 0 <= Z.lxor a b < 2 ^ n.
Proof.
  intros. assert (0 <= Z.lxor a b) by (apply Z.lxor_nonneg; lia). split; [assumption|].
  apply bits_bound; try lia. intros. rewrite Z.lxor_spec, (testbit_high a n), (testbit_high b n) by lia.
  reflexivity.
Qed.

(** Concatenation of a low part of [n] bits and a high part is a bitwise one:
    each bit operation distributes over it. *)
Lemma testbit_concat (lo hi n i : Z) :
  0 <= n -> 0 <= lo < 2 ^ n -> 0 <= i ->
  Z.testbit (lo + hi * 2 ^ n) i = if i <? n then Z.testbit lo i else Z.testbit hi (i - n).
Proof.
  intros Hn Hlo Hi.
  assert (lo + hi * 2 ^ n = Z.lor lo (Z.shiftl hi n)) as ->.
  { rewrite Z.shiftl_mul_pow2 by lia. rewrite <- Z.add_lor_land.
    assert (Z.land lo (hi * 2 ^ n) = 0) as ->; [|lia].
    apply Z.bits_inj'. intros j Hj. rewrite Z.land_spec, Z.bits_0, <- Z.shiftl_mul_pow2 by lia.
    rewrite Z.shiftl_spec by lia. destruct (Z_lt_le_dec j n).
    - rewrite (Z.testbit_neg_r hi) by lia. apply andb_false_r.
    - rewrite (testbit_high lo n) by lia. reflexivity. }
  rewrite Z.lor_spec, Z.shiftl_spec by lia. destruct (i <? n) eqn:E; zbool.
  - rewrite (Z.testbit_neg_r hi) by lia. apply orb_false_r.
  - rewrite (testbit_high lo n) by lia. reflexivity.
Qed.

Section BitwiseConcat.
Context (op : Z -> Z -> Z) (f : bool -> bool -> bool).
Hypothesis op_spec : forall a b i, Z.testbit (op a b) i = f (Z.testbit a i) (Z.testbit b i).
Hypothesis op_bound :
  forall a b n, 0 <= n -> 0 <= a < 2 ^ n -> 0 <= b < 2 ^ n -> 0 <= op a b < 2 ^ n.

Lemma bitwise_concat (n a b a' b' : Z) :
    0 <= n -> 0 <= a < 2 ^ n -> 0 <= b < 2 ^ n ->
    op (a + a' * 2 ^ n) (b + b' * 2 ^ n) = op a b + op a' b' * 2 ^ n.
  Proof.
    intros Hn Ha Hb. apply Z.bits_inj'. intros i Hi.
    rewrite op_spec, !testbit_concat by (try apply op_bound; lia).
    destruct (i <? n); rewrite op_spec; reflexivity.
  Qed.
End BitwiseConcat.

Lemma land_concat (n a b a' b' : Z) : 0 <= n -> 0 <= a < 2 ^ n -> 0 <= b < 2 ^ n ->
  Z.land (a + a' * 2 ^ n) (b + b' * 2 ^ n) = Z.land a b + Z.land a' b' * 2 ^ n.
Proof. apply (bitwise_concat _ andb Z.land_spec land_bound). Qed.

Lemma lor_concat (n a b a' b' : Z) : 0 <= n -> 0 <= a < 2 ^ n -> 0 <= b < 2 ^ n ->
  Z.lor (a + a' * 2 ^ n) (b + b' * 2 ^ n) = Z.lor a b + Z.lor a' b' * 2 ^ n.
Proof. apply (bitwise_concat _ orb Z.lor_spec lor_bound). Qed.

Lemma lxor_concat (n a b a' b' : Z) : 0 <= n -> 0 <= a < 2 ^ n -> 0 <= b < 2 ^ n ->
  Z.lxor (a + a' * 2 ^ n) (b + b' * 2 ^ n) = Z.lxor a b + Z.lxor a' b' * 2 ^ n.
Proof. apply (bitwise_concat _ xorb Z.lxor_spec lxor_bound). Qed.

(** A shifted number and the bits below it. *)
Lemma lor_shl (x y n : Z) : 0 <= n -> 0 <= y < 2 ^ n -> Z.lor (x * 2 ^ n) y = x * 2 ^ n + y.
Proof.
  intros Hn Hy. pose proof (pow2_pos n Hn).
  replace (x * 2 ^ n) with (0 + x * 2 ^ n) at 1 by lia. replace y with (y + 0 * 2 ^ n) at 1 by lia.
  rewrite lor_concat, Z.lor_0_l, Z.lor_0_r by lia. lia.
Qed.

(** A low mask is a remainder. *)
Lemma land_mask (x n : Z) : 0 <= n -> Z.land x (2 ^ n - 1) = x mod 2 ^ n.
Proof. intros. rewrite <- Z.land_ones by lia. f_equal. rewrite Z.ones_equiv. lia. Qed.

(** ** Lists *)

Lemma combine_app {A B} (l1 l2 : list A) (r1 r2 : list B) :
  length l1 = length r1 -> combine (l1 ++ l2) (r1 ++ r2) = combine l1 r1 ++ combine l2 r2.
Proof.
  revert r1. induction l1 as [|x l1 IH]; intros [|y r1] E; try discriminate; [reflexivity|].
  cbn. rewrite IH; [reflexivity|]. injection E. auto.
Qed.

(** ** Hint databases *)
Create HintDb sp1.
#[export] Hint Resolve pow2_pos land_bound lor_bound lxor_bound : sp1.
