(* ===== verification/Words.v ===== *)
(** * Machine integers and their limb decompositions

    Rust's fixed-width integers as [Z]: an unsigned [w]-bit value is a [Z] in
    [[0, 2^w)], a signed one a [Z] in [[-2^(w-1), 2^(w-1))], and the casts and
    wrapping operations write the wrap-around out.  The second half models the
    16-bit limb decompositions of [crates/primitives/src/consts.rs] and proves
    their round trips. *)

From Stdlib Require Import ZArith Lia List Bool.
From S2P Require Import Prelude.
Import ListNotations.
Open Scope Z_scope.

(** ** Casts *)

(** [x as uW]. *)
Definition as_unsigned (w x : Z) : Z := x mod 2 ^ w.
(** [x as iW]. *)
Definition as_signed (w x : Z) : Z :=
  let y := x mod 2 ^ w in if y <? 2 ^ (w - 1) then y else y - 2 ^ w.

Definition as_u8 (x : Z) : Z := as_unsigned 8 x.
Definition as_u16 (x : Z) : Z := as_unsigned 16 x.
Definition as_u32 (x : Z) : Z := as_unsigned 32 x.
Definition as_u64 (x : Z) : Z := as_unsigned 64 x.
Definition as_u128 (x : Z) : Z := as_unsigned 128 x.
Definition as_i8 (x : Z) : Z := as_signed 8 x.
Definition as_i16 (x : Z) : Z := as_signed 16 x.
Definition as_i32 (x : Z) : Z := as_signed 32 x.
Definition as_i64 (x : Z) : Z := as_signed 64 x.
Definition as_i128 (x : Z) : Z := as_signed 128 x.

Definition U64_MAX : Z := 2 ^ 64 - 1.

(** Values of the machine types. *)
Definition is_u (w x : Z) : Prop := 0 <= x < 2 ^ w.
Definition is_ub (w x : Z) : bool := (0 <=? x) && (x <? 2 ^ w).
Abbreviation is_u8 := (is_u 8).
Abbreviation is_u16 := (is_u 16).
Abbreviation is_u32 := (is_u 32).
Abbreviation is_u64 := (is_u 64).

Lemma is_ub_spec (w x : Z) : is_ub w x = true <-> is_u w x.
Proof. unfold is_ub, is_u. rewrite andb_true_iff, Z.leb_le, Z.ltb_lt. tauto. Qed.

(** ** Wrapping arithmetic on [u64] *)

Definition wrapping_add (a b : Z) : Z := as_u64 (a + b).
Definition wrapping_sub (a b : Z) : Z := as_u64 (a - b).
Definition wrapping_mul (a b : Z) : Z := as_u64 (a * b).

(** [!x] on [u64]. *)
Definition not_u64 (x : Z) : Z := U64_MAX - x.

(** Left shift of a [w]-bit value: the bits shifted out are dropped. *)
Definition shl (w x n : Z) : Z := as_unsigned w (Z.shiftl x n).
(** Right shift; arithmetic on a signed value, logical on an unsigned one. *)
Definition shr (x n : Z) : Z := Z.shiftr x n.

(** [iW::wrapping_div] and [iW::wrapping_rem]: truncated division, with the one
    overflowing quotient [MIN / -1] wrapped. *)
Definition wrapping_div (w a b : Z) : Z := as_signed w (Z.quot a b).
Definition wrapping_rem (w a b : Z) : Z := as_signed w (Z.rem a b).

(** ** Facts *)

Lemma as_unsigned_bound (w x : Z) : 0 <= w -> 0 <= as_unsigned w x < 2 ^ w.
Proof. intros. apply Z.mod_pos_bound. apply pow2_pos; assumption. Qed.

Lemma as_unsigned_id (w x : Z) : 0 <= x < 2 ^ w -> as_unsigned w x = x.
Proof. intros. apply Z.mod_small; assumption. Qed.

Lemma as_unsigned_idem (w x : Z) : as_unsigned w (as_unsigned w x) = as_unsigned w x.
Proof. apply Zmod_mod. Qed.

Lemma half_pow2 (w : Z) : 1 <= w -> 2 * 2 ^ (w - 1) = 2 ^ w.
Proof. intros. rewrite <- Z.pow_succ_r by lia. f_equal; lia. Qed.

Lemma as_signed_bound (w x : Z) : 1 <= w -> - 2 ^ (w - 1) <= as_signed w x < 2 ^ (w - 1).
Proof.
  intros. unfold as_signed. pose proof (half_pow2 w ltac:(lia)).
  pose proof (Z.mod_pos_bound x (2 ^ w) (pow2_pos w ltac:(lia))).
  destruct (Z.ltb_spec (x mod 2 ^ w) (2 ^ (w - 1))); lia.
Qed.

Lemma as_signed_cong (w x : Z) : 0 <= w -> (as_signed w x) mod 2 ^ w = x mod 2 ^ w.
Proof.
  intros. unfold as_signed. pose proof (pow2_pos w ltac:(lia)).
  destruct (_ <? _); [apply Zmod_mod|].
  rewrite Zminus_mod, Z_mod_same_full, Z.sub_0_r, !Zmod_mod. reflexivity.
Qed.

Lemma as_unsigned_signed (w x : Z) : 0 <= w -> as_unsigned w (as_signed w x) = as_unsigned w x.
Proof. apply as_signed_cong. Qed.

Lemma as_signed_mod (w x : Z) : as_signed w (x mod 2 ^ w) = as_signed w x.
Proof. unfold as_signed. rewrite Zmod_mod. reflexivity. Qed.

(** A signed value is its own cast, and is fixed by its residue. *)
Lemma as_signed_id (w x : Z) : 1 <= w -> - 2 ^ (w - 1) <= x < 2 ^ (w - 1) -> as_signed w x = x.
Proof.
  intros Hw Hx. pose proof (half_pow2 w ltac:(lia)).
  apply (mod_eq_small (2 ^ w)); [apply pow2_pos; lia | apply as_signed_cong; lia |].
  pose proof (as_signed_bound w x Hw). lia.
Qed.

Lemma as_signed_eq (w x y : Z) :
  1 <= w -> - 2 ^ (w - 1) <= y < 2 ^ (w - 1) -> x mod 2 ^ w = y mod 2 ^ w -> as_signed w x = y.
Proof.
  intros Hw Hy He. rewrite <- as_signed_mod, He, as_signed_mod. apply as_signed_id; assumption.
Qed.

Lemma as_signed_small (w x : Z) :
  0 <= x < 2 ^ w -> as_signed w x = if x <? 2 ^ (w - 1) then x else x - 2 ^ w.
Proof. intros. unfold as_signed. rewrite Z.mod_small by lia. reflexivity. Qed.

Lemma wrapping_add_bound (a b : Z) : is_u64 (wrapping_add a b).
Proof. apply as_unsigned_bound; lia. Qed.
Lemma wrapping_sub_bound (a b : Z) : is_u64 (wrapping_sub a b).
Proof. apply as_unsigned_bound; lia. Qed.

(** Clearing the low bits of a [u64]. *)
Lemma land_not_mask (x k : Z) : is_u64 x -> 0 <= k <= 64 -> Z.land x (not_u64 (2 ^ k - 1)) = x - x mod 2 ^ k.
Proof.
  intros Hx Hk. unfold is_u in Hx.
  assert (E : not_u64 (2 ^ k - 1) = Z.shiftl (Z.ones (64 - k)) k).
  { rewrite Z.shiftl_mul_pow2, Z.ones_equiv by lia. unfold not_u64, U64_MAX.
    replace (Z.pred (2 ^ (64 - k)) * 2 ^ k) with (2 ^ (64 - k) * 2 ^ k - 2 ^ k) by lia.
    rewrite <- Z.pow_add_r by lia. replace (64 - k + k) with 64 by lia. lia. }
  assert (E2 : x - x mod 2 ^ k = Z.shiftl (Z.shiftr x k) k).
  { rewrite Z.shiftl_mul_pow2, Z.shiftr_div_pow2 by lia. rewrite Z.mod_eq by (apply Z.pow_nonzero; lia). lia. }
  rewrite E, E2. apply Z.bits_inj'. intros n Hn. rewrite Z.land_spec, !Z.shiftl_spec by lia.
  destruct (Z.ltb_spec n k) as [Hlt | Hge].
  - rewrite !(Z.testbit_neg_r _ (n - k)) by lia. apply andb_false_r.
  - rewrite Z.shiftr_spec by lia. replace (n - k + k) with n by lia.
    destruct (Z.ltb_spec n 64) as [H64 | H64].
    + rewrite Z.ones_spec_low by lia. apply andb_true_r.
    + assert (Z.testbit x n = false) as ->; [|reflexivity].
      destruct (Z.eq_dec x 0) as [-> | Hne]; [apply Z.bits_0|].
      apply Z.bits_above_log2; [lia|]. apply Z.lt_le_trans with 64; [|lia]. apply Z.log2_lt_pow2; lia.
Qed.

(** Replacing the [n] bits at position [k] of a [u64]. *)
Definition insert_bits (v k n s : Z) : Z := v mod 2 ^ k + (s + v / 2 ^ k / 2 ^ n * 2 ^ n) * 2 ^ k.

Lemma insert_bits_eq (v k n s : Z) :
  is_u64 v -> 0 <= k -> 0 <= n -> n + k <= 64 ->
  Z.lor (shl 64 (Z.land s (2 ^ n - 1)) k) (Z.land v (not_u64 (shl 64 (2 ^ n - 1) k)))
  = insert_bits v k n (s mod 2 ^ n).
Proof.
  unfold is_u. intros Hv Hk Hn Hnk. unfold insert_bits, shl, as_unsigned. rewrite land_mask by lia.
  pose proof (pow2_pos k Hk). pose proof (pow2_pos n Hn). pose proof (pow2_pos (64 - (n + k)) ltac:(lia)) as H6.
  assert (E64 : 2 ^ 64 = 2 ^ (64 - (n + k)) * 2 ^ n * 2 ^ k)
    by (rewrite <- !Z.pow_add_r by lia; f_equal; lia).
  pose proof (Z.mod_pos_bound s (2 ^ n) ltac:(lia)) as Bs. set (t := s mod 2 ^ n) in *.
  set (lo := v mod 2 ^ k). set (q := v / 2 ^ k). set (mid := q mod 2 ^ n). set (hi := q / 2 ^ n).
  assert (Bl : 0 <= lo < 2 ^ k) by (apply Z.mod_pos_bound; lia).
  assert (Bm : 0 <= mid < 2 ^ n) by (apply Z.mod_pos_bound; lia).
  assert (Eq : q = mid + hi * 2 ^ n) by (unfold mid, hi; pose proof (Z_div_mod_eq_full q (2 ^ n)); lia).
  assert (Ev : v = lo + (mid + hi * 2 ^ n) * 2 ^ k)
    by (rewrite <- Eq; unfold lo, q; pose proof (Z_div_mod_eq_full v (2 ^ k)); lia).
  assert (Bh : 0 <= hi < 2 ^ (64 - (n + k))) .
  { unfold hi, q. rewrite Z.div_div by lia. split; [apply Z.div_pos; nia|]. apply Z.div_lt_upper_bound; nia. }
  rewrite !Z.shiftl_mul_pow2, !Z.mod_small
    by first [lia | rewrite E64; split; [nia|]; apply Z.mul_lt_mono_pos_r; [lia|]; nia].
  assert (En : not_u64 ((2 ^ n - 1) * 2 ^ k) = (2 ^ k - 1) + (0 + (2 ^ (64 - (n + k)) - 1) * 2 ^ n) * 2 ^ k)
    by (unfold not_u64, U64_MAX; rewrite E64; lia).
  rewrite En, Ev, !land_concat, !land_mask, Z.land_0_r by lia.
  rewrite !(Z.mod_small lo), !(Z.mod_small hi) by lia.
  replace (t * 2 ^ k) with (0 + (t + 0 * 2 ^ n) * 2 ^ k) by lia.
  rewrite !lor_concat, Z.lor_0_r, !Z.lor_0_l by lia. lia.
Qed.

Lemma insert_bits_add (v k n s : Z) :
  0 <= k -> 0 <= n -> insert_bits v k n s = v + (s - v / 2 ^ k mod 2 ^ n) * 2 ^ k.
Proof.
  intros Hk Hn. unfold insert_bits. pose proof (Z_div_mod_eq_full v (2 ^ k)).
  pose proof (Z_div_mod_eq_full (v / 2 ^ k) (2 ^ n)). lia.
Qed.

(** ** Limb decompositions ([consts.rs]) *)

(** [u64_to_u16_limbs]: four 16-bit limbs, least significant first. *)
Definition u64_to_u16_limbs (value : Z) : list Z :=
  [as_u16 (Z.land value 0xFFFF); as_u16 (shr value 16); as_u16 (shr value 32); as_u16 (shr value 48)].

(** [u32_to_u16_limbs]. *)
Definition u32_to_u16_limbs (value : Z) : list Z :=
  [as_u16 (Z.land value 0xFFFF); as_u16 (shr value 16)].

(** [split_page_idx]: a page index as limbs of 4, 16 and 16 bits. *)
Definition split_page_idx (page_idx : Z) : list Z :=
  [as_u16 (Z.land page_idx 0xF); as_u16 (Z.land (shr page_idx 4) 0xFFFF);
   as_u16 (Z.land (shr page_idx 20) 0xFFFF)].

(** [u32_to_u64] and [u64_to_u32]. *)
Fixpoint u32_to_u64 (limbs : list Z) : list Z :=
  match limbs with
  | lo :: hi :: rest => Z.lor lo (shl 64 hi 32) :: u32_to_u64 rest
  | _ => []
  end.

Definition u64_to_u32 (limbs : list Z) : list Z :=
  flat_map (fun x => [as_u32 x; as_u32 (shr x 32)]) limbs.

(** The value of a little-endian list of limbs in base [2^w]. *)
Fixpoint le_value (w : Z) (limbs : list Z) : Z :=
  match limbs with
  | [] => 0
  | l :: rest => l + 2 ^ w * le_value w rest
  end.

(** The limb [i] of base [2^16] of a value, as arithmetic. *)
Definition limb16 (x i : Z) : Z := x / 2 ^ (16 * i) mod 2 ^ 16.

Lemma u64_to_u16_limbs_eq (x : Z) :
  u64_to_u16_limbs x = [limb16 x 0; limb16 x 1; limb16 x 2; limb16 x 3].
Proof.
  unfold u64_to_u16_limbs, limb16, shr, as_u16, as_unsigned.
  rewrite !Z.shiftr_div_pow2 by lia.
  change 0xFFFF with (2 ^ 16 - 1) at 1. rewrite land_mask by lia.
  rewrite Zmod_mod. change (2 ^ (16 * 0)) with 1. rewrite Z.div_1_r. reflexivity.
Qed.

Lemma u32_to_u16_limbs_eq (x : Z) : u32_to_u16_limbs x = [limb16 x 0; limb16 x 1].
Proof. pose proof (u64_to_u16_limbs_eq x) as H. injection H as H0 H1 _ _. unfold u32_to_u16_limbs. congruence. Qed.

Lemma limb16_bound (x i : Z) : 0 <= limb16 x i < 2 ^ 16.
Proof. apply Z.mod_pos_bound. lia. Qed.

Lemma limb16_val64 (x : Z) : is_u64 x ->
  x = limb16 x 0 + 2 ^ 16 * limb16 x 1 + 2 ^ 32 * limb16 x 2 + 2 ^ 48 * limb16 x 3.
Proof.
  unfold is_u, limb16. intros. change (16 * 1) with 16. change (16 * 2) with 32.
  change (16 * 3) with 48. change (2 ^ (16 * 0)) with 1. rewrite Z.div_1_r.
  assert (E1 : x / 2 ^ 32 = x / 2 ^ 16 / 2 ^ 16) by (rewrite Z.div_div by lia; f_equal).
  assert (E2 : x / 2 ^ 48 = x / 2 ^ 16 / 2 ^ 16 / 2 ^ 16) by (rewrite !Z.div_div by lia; f_equal).
  rewrite E1, E2. change (2 ^ 64) with (2 ^ 16 * 2 ^ 16 * 2 ^ 16 * 2 ^ 16) in *.
  change (2 ^ 32) with (2 ^ 16 * 2 ^ 16). change (2 ^ 48) with (2 ^ 16 * 2 ^ 16 * 2 ^ 16).
  change (2 ^ 16) with 65536 in *. dlia.
Qed.

Lemma limb16_val32 (x : Z) : is_u32 x -> x = limb16 x 0 + 2 ^ 16 * limb16 x 1.
Proof.
  unfold is_u, limb16. intros.
  change (2 ^ (16 * 1)) with 65536. change (2 ^ (16 * 0)) with 1. change (2 ^ 32) with (65536 * 65536) in *. change (2 ^ 16) with 65536.
  dlia.
Qed.

Lemma limb16_low32 (x : Z) : limb16 x 0 + 2 ^ 16 * limb16 x 1 = x mod 2 ^ 32.
Proof.
  unfold limb16. change (2 ^ (16 * 0)) with 1. change (2 ^ (16 * 1)) with (2 ^ 16).
  rewrite Z.div_1_r. change (2 ^ 32) with (2 ^ 16 * 2 ^ 16). rewrite Z.rem_mul_r by lia. lia.
Qed.

(** ** Bytes *)

(** The [n] low bytes of a value, least significant first ([to_le_bytes]). *)
Fixpoint le_bytes (n : nat) (x : Z) : list Z :=
  match n with O => [] | S n => x mod 2 ^ 8 :: le_bytes n (x / 2 ^ 8) end.
Definition to_le_bytes (x : Z) : list Z := le_bytes 8 x.

Lemma le_bytes_length (n : nat) (x : Z) : length (le_bytes n x) = n.
Proof. revert x. induction n; intros; cbn; auto. Qed.

Lemma le_bytes_app (a b : nat) (x : Z) : le_bytes (a + b) x = le_bytes a x ++ le_bytes b (x / 2 ^ (8 * Z.of_nat a)).
Proof.
  revert x. induction a as [|a IH]; intros x; [cbn [Nat.add]; rewrite Z.mul_0_r, Z.pow_0_r, Z.div_1_r; reflexivity|].
  cbn [Nat.add le_bytes app]. f_equal. rewrite IH. f_equal. f_equal.
  rewrite Z.div_div, <- Z.pow_add_r by lia. f_equal. f_equal. lia.
Qed.

Lemma le_bytes_bound (n : nat) (x : Z) : Forall (fun b => 0 <= b < 2 ^ 8) (le_bytes n x).
Proof. revert x. induction n; intros; constructor; [apply Z.mod_pos_bound; lia | auto]. Qed.

Lemma le_value_bytes (n : nat) (x : Z) : le_value 8 (le_bytes n x) = x mod 2 ^ (8 * Z.of_nat n).
Proof.
  revert x. induction n as [|n IH]; intros x.
  - cbn [le_bytes le_value]. change (2 ^ (8 * Z.of_nat 0)) with 1. rewrite Z.mod_1_r. reflexivity.
  - cbn [le_bytes le_value]. rewrite IH. replace (8 * Z.of_nat (S n)) with (8 + 8 * Z.of_nat n) by lia.
    rewrite pow2_split, Z.rem_mul_r by (try apply pow2_pos; lia). reflexivity.
Qed.

Lemma le_value_bound (w : Z) (l : list Z) :
  0 <= w -> Forall (fun x => 0 <= x < 2 ^ w) l -> 0 <= le_value w l < 2 ^ (w * Z.of_nat (length l)).
Proof.
  intros Hw H. induction H as [|x l Hx _ IH]; cbn [le_value length].
  - rewrite Z.mul_0_r. cbn. lia.
  - replace (w * Z.of_nat (S (length l))) with (w + w * Z.of_nat (length l)) by lia.
    rewrite pow2_split by lia. nia.
Qed.

Lemma le_value_app (w : Z) (l1 l2 : list Z) :
  0 <= w -> le_value w (l1 ++ l2) = le_value w l1 + 2 ^ (w * Z.of_nat (length l1)) * le_value w l2.
Proof.
  intros Hw. induction l1 as [|x l IH]; cbn [app le_value length].
  - rewrite Z.mul_0_r. lia.
  - replace (w * Z.of_nat (S (length l))) with (w + w * Z.of_nat (length l)) by lia.
    rewrite IH, pow2_split by lia. ring.
Qed.

(** A bit operation on little-endian lists, limb by limb. *)
Section BitwiseLimbs.
Context (op : Z -> Z -> Z) (w : Z) (Hw : 0 <= w).
Hypothesis op_concat : forall n a b a' b', 0 <= n -> 0 <= a < 2 ^ n -> 0 <= b < 2 ^ n ->
  op (a + a' * 2 ^ n) (b + b' * 2 ^ n) = op a b + op a' b' * 2 ^ n.
Hypothesis op_zero : op 0 0 = 0.

Lemma le_value_bitwise (l1 l2 : list Z) :
  length l1 = length l2 ->
  Forall (fun x => 0 <= x < 2 ^ w) l1 -> Forall (fun x => 0 <= x < 2 ^ w) l2 ->
  op (le_value w l1) (le_value w l2) = le_value w (map (fun p => op (fst p) (snd p)) (combine l1 l2)).
Proof.
  intros Hlen H1. revert l2 Hlen. induction H1 as [|x l1 Hx _ IH]; intros [|y l2] Hlen H2;
    try discriminate; [exact op_zero|]. inversion H2; subst. cbn [le_value combine map fst snd].
  rewrite !(Z.mul_comm (2 ^ w)), op_concat by assumption. rewrite IH by (auto || (injection Hlen; auto)).
  reflexivity.
Qed.
End BitwiseLimbs.

#[export] Hint Resolve as_unsigned_bound wrapping_add_bound wrapping_sub_bound limb16_bound : sp1.
