(* ===== verification/Isa.v ===== *)
(** * Opcodes, instructions and their value semantics

    Models [opcode.rs], [instruction.rs], [register.rs] and the format
    accessors of [disassembler/rrs.rs] of [crates/core/executor/src], and the
    value computations of the portable minimal executor (the [match] of
    [execute_alu], the branch conditions, [load_value], [store_value]). *)

From Stdlib Require Import ZArith Lia List Bool.
From S2P Require Import Prelude Words.
Import ListNotations.
Open Scope Z_scope.

(** ** Opcodes ([opcode.rs]) *)

Inductive Opcode : Set :=
| ADD | ADDI | SUB | XOR | OR | AND | SLL | SRL | SRA | SLT | SLTU
| MUL | MULH | MULHU | MULHSU | DIV | DIVU | REM | REMU
| ADDW | SUBW | SLLW | SRLW | SRAW | MULW | DIVW | DIVUW | REMW | REMUW
| LB | LH | LW | LBU | LHU | LWU | LD | SB | SH | SW | SD
| BEQ | BNE | BLT | BGE | BLTU | BGEU | JAL | JALR | AUIPC | LUI | ECALL | EBREAK | UNIMP.

Definition all_opcodes : list Opcode :=
  [ADD; ADDI; SUB; XOR; OR; AND; SLL; SRL; SRA; SLT; SLTU; MUL; MULH; MULHU; MULHSU; DIV; DIVU;
   REM; REMU; ADDW; SUBW; SLLW; SRLW; SRAW; MULW; DIVW; DIVUW; REMW; REMUW; LB; LH; LW; LBU; LHU;
   LWU; LD; SB; SH; SW; SD; BEQ; BNE; BLT; BGE; BLTU; BGEU; JAL; JALR; AUIPC; LUI; ECALL; EBREAK;
   UNIMP].

Definition Opcode_eq_dec (x y : Opcode) : {x = y} + {x <> y}.
Proof. decide equality. Defined.

Definition opcode_eqb (x y : Opcode) : bool := if Opcode_eq_dec x y then true else false.

(** The discriminant [opcode as u8]. *)
Definition opcode_num (o : Opcode) : Z :=
  match o with
  | ADD => 0 | ADDI => 1 | SUB => 2 | XOR => 3 | OR => 4 | AND => 5 | SLL => 6 | SRL => 7
  | SRA => 8 | SLT => 9 | SLTU => 10 | MUL => 11 | MULH => 12 | MULHU => 13 | MULHSU => 14
  | DIV => 15 | DIVU => 16 | REM => 17 | REMU => 18 | ADDW => 19 | SUBW => 20 | SLLW => 21
  | SRLW => 22 | SRAW => 23 | MULW => 24 | DIVW => 25 | DIVUW => 26 | REMW => 27 | REMUW => 28
  | LB => 29 | LH => 30 | LW => 31 | LBU => 32 | LHU => 33 | LWU => 34 | LD => 35 | SB => 36
  | SH => 37 | SW => 38 | SD => 39 | BEQ => 40 | BNE => 41 | BLT => 42 | BGE => 43 | BLTU => 44
  | BGEU => 45 | JAL => 46 | JALR => 47 | AUIPC => 48 | LUI => 49 | ECALL => 50 | EBREAK => 51
  | UNIMP => 52
  end.

(** Opcodes of the byte lookup tables. *)
Inductive ByteOpcode : Set := BAND | BOR | BXOR | BU8Range | BLTU8 | BMSB | BRange.

Definition byte_opcode_num (o : ByteOpcode) : Z :=
  match o with
  | BAND => 0 | BOR => 1 | BXOR => 2 | BU8Range => 3 | BLTU8 => 4 | BMSB => 5 | BRange => 6
  end.

Definition funct3 (o : Opcode) : option Z :=
  match o with
  | ADD | SUB | ADDI => Some 0
  | SLL => Some 1 | SLT => Some 2 | SLTU => Some 3 | XOR => Some 4 | SRL | SRA => Some 5
  | OR => Some 6 | AND => Some 7 | ADDW => Some 0 | SUBW => Some 0 | SLLW => Some 1
  | SRLW => Some 5 | SRAW => Some 5 | LWU => Some 6 | LD => Some 3 | SD => Some 3
  | MULW => Some 0 | DIVW => Some 4 | DIVUW => Some 5 | REMW => Some 6 | REMUW => Some 7
  | MUL => Some 0 | MULH => Some 1 | MULHSU => Some 2 | MULHU => Some 3 | DIV => Some 4
  | DIVU => Some 5 | REM => Some 6 | REMU => Some 7
  | LB => Some 0 | LH => Some 1 | LW => Some 2 | LBU => Some 4 | LHU => Some 5
  | SB => Some 0 | SH => Some 1 | SW => Some 2
  | BEQ => Some 0 | BNE => Some 1 | BLT => Some 4 | BGE => Some 5 | BLTU => Some 6 | BGEU => Some 7
  | JALR => Some 0
  | ECALL | EBREAK => Some 0
  | JAL | AUIPC | LUI | UNIMP => None
  end.

Definition funct7 (o : Opcode) : option Z :=
  match o with
  | ADD | SLL | SLT | SLTU | XOR | SRL | OR | AND | ADDW | SLLW | SRLW => Some 0
  | SUB | SRA | SUBW | SRAW => Some 32
  | MUL | MULH | MULHSU | MULHU | DIV | DIVU | REM | REMU | MULW | DIVW | DIVUW | REMW | REMUW =>
      Some 1
  | ECALL | EBREAK => Some 0
  | ADDI | LB | LH | LW | LBU | LHU | SB | SH | SW | BEQ | BNE | BLT | BGE | BLTU | BGEU | JAL
  | JALR | AUIPC | LUI | UNIMP | LWU | LD | SD => None
  end.

Definition funct12 (o : Opcode) : option Z :=
  match o with ECALL => Some 0 | _ => None end.

(** The segment flags of the [elf] crate, and the permissions of a page made
    from them. *)
Record SegmentFlags : Set := mkSegmentFlags { PF_NONE : Z; PF_R : Z; PF_W : Z; PF_X : Z }.

Definition PROT_NONE (f : SegmentFlags) : Z := as_u8 (PF_NONE f).
Definition PROT_READ (f : SegmentFlags) : Z := as_u8 (PF_R f).
Definition PROT_WRITE (f : SegmentFlags) : Z := as_u8 (PF_W f).
Definition PROT_EXEC (f : SegmentFlags) : Z := as_u8 (PF_X f).

(** The major opcodes the encoder takes from [rrs_lib::instruction_formats]. *)
Record MajorOpcodes : Set := mkMajorOpcodes {
  OPCODE_LOAD : Z; OPCODE_OP_IMM : Z; OPCODE_AUIPC : Z; OPCODE_OP_IMM_32 : Z;
  OPCODE_STORE : Z; OPCODE_OP : Z; OPCODE_LUI : Z; OPCODE_OP_32 : Z;
  OPCODE_BRANCH : Z; OPCODE_JALR : Z; OPCODE_JAL : Z; OPCODE_SYSTEM : Z
}.

Section BaseOpcode.
Context (rrs : MajorOpcodes).

Definition base_opcode (o : Opcode) : Res (Z * option Z) :=
  match o with
  | SLL | SRL | SRA | XOR | OR | AND | SLT | SLTU => Ok (OPCODE_OP rrs, Some (OPCODE_OP_IMM rrs))
  | ADD | SUB | MUL | MULH | MULHU | MULHSU | DIV | DIVU | REM | REMU =>
      Ok (OPCODE_OP rrs, Some (OPCODE_OP rrs))
  | ADDI => Ok (OPCODE_OP_IMM rrs, Some (OPCODE_OP_IMM rrs))
  | ECALL => Ok (OPCODE_SYSTEM rrs, None)
  | JALR => Ok (OPCODE_JALR rrs, Some (OPCODE_JALR rrs))
  | LB | LH | LW | LBU | LHU | LWU | LD => Ok (OPCODE_LOAD rrs, Some (OPCODE_LOAD rrs))
  | SB | SH | SW | SD => Ok (OPCODE_STORE rrs, Some (OPCODE_STORE rrs))
  | BEQ | BNE | BLT | BGE | BLTU | BGEU => Ok (OPCODE_BRANCH rrs, Some (OPCODE_BRANCH rrs))
  | AUIPC => Ok (OPCODE_AUIPC rrs, Some (OPCODE_AUIPC rrs))
  | LUI => Ok (OPCODE_LUI rrs, Some (OPCODE_LUI rrs))
  | JAL => Ok (OPCODE_JAL rrs, Some (OPCODE_JAL rrs))
  | ADDW | SLLW | SRLW | SRAW => Ok (OPCODE_OP_32 rrs, Some (OPCODE_OP_IMM_32 rrs))
  | SUBW | MULW | DIVW | DIVUW | REMW | REMUW => Ok (OPCODE_OP_32 rrs, None)
  | _ => Panic
  end.
End BaseOpcode.

Inductive InstructionType : Set :=
| ITypeShamt32 | ITypeShamt | IType | RType | JType | BType | SType | UType | ECALLType.

Definition instruction_type_num (t : InstructionType) : Z :=
  match t with
  | ITypeShamt32 => 1 | ITypeShamt => 2 | IType => 4 | RType => 8 | JType => 16 | BType => 32
  | SType => 64 | UType => 128 | ECALLType => 256
  end.

Definition instruction_type (o : Opcode) : Res (InstructionType * option InstructionType) :=
  match o with
  | SLL | SRL | SRA => Ok (RType, Some ITypeShamt)
  | SLLW | SRLW | SRAW => Ok (RType, Some ITypeShamt32)
  | ADDW | XOR | OR | AND | SLT | SLTU => Ok (RType, Some IType)
  | ADD | SUB | SUBW | MUL | MULH | MULHU | MULHSU | DIV | DIVU | REM | REMU | MULW | DIVW
  | DIVUW | REMW | REMUW => Ok (RType, None)
  | ADDI => Ok (IType, Some IType)
  | ECALL => Ok (ECALLType, None)
  | JALR | LB | LH | LW | LBU | LHU | LWU | LD => Ok (IType, None)
  | SB | SH | SW | SD => Ok (SType, None)
  | BEQ | BNE | BLT | BGE | BLTU | BGEU => Ok (BType, None)
  | AUIPC | LUI => Ok (UType, None)
  | JAL => Ok (JType, None)
  | _ => Panic
  end.

(** ** Instructions ([instruction.rs]) *)

Record Instruction : Set := mkInstruction {
  opcode : Opcode;
  op_a : Z;
  op_b : Z;
  op_c : Z;
  imm_b : bool;
  imm_c : bool
}.

Definition is_alu_instruction (i : Instruction) : bool :=
  match opcode i with
  | ADD | ADDI | SUB | XOR | OR | AND | SLL | SRL | SRA | SLT | SLTU | MUL | MULH | MULHU | MULHSU
  | DIV | DIVU | REM | REMU | ADDW | SUBW | MULW | DIVW | DIVUW | REMW | REMUW | SLLW | SRLW
  | SRAW => true
  | _ => false
  end.

Definition is_ecall_instruction (i : Instruction) : bool :=
  match opcode i with ECALL => true | _ => false end.

Definition is_memory_load_instruction (i : Instruction) : bool :=
  match opcode i with LB | LH | LW | LBU | LHU | LWU | LD => true | _ => false end.

Definition is_memory_store_instruction (i : Instruction) : bool :=
  match opcode i with SB | SH | SW | SD => true | _ => false end.

Definition is_branch_instruction (i : Instruction) : bool :=
  match opcode i with BEQ | BNE | BLT | BGE | BLTU | BGEU => true | _ => false end.

Definition is_jump_instruction (i : Instruction) : bool :=
  match opcode i with JAL | JALR => true | _ => false end.

Definition is_jal_instruction (i : Instruction) : bool :=
  match opcode i with JAL => true | _ => false end.

Definition is_jalr_instruction (i : Instruction) : bool :=
  match opcode i with JALR => true | _ => false end.

Definition is_utype_instruction (i : Instruction) : bool :=
  match opcode i with AUIPC | LUI => true | _ => false end.

Definition is_with_correct_next_pc (i : Instruction) : bool :=
  match opcode i with BEQ | BNE | BLT | BGE | BLTU | BGEU | JAL | JALR => true | _ => false end.

Definition is_divrem_instruction (i : Instruction) : bool :=
  match opcode i with DIV | DIVU | REM | REMU => true | _ => false end.

Definition is_ebreak_instruction (i : Instruction) : bool :=
  match opcode i with EBREAK => true | _ => false end.

Definition is_unimp_instruction (i : Instruction) : bool :=
  match opcode i with UNIMP => true | _ => false end.

(** [validate_sign_extension]: all bits of a [u64] above the given width equal
    the sign bit. *)
Definition validate_sign_extension (value bit_width : Z) : bool :=
  if 64 <=? bit_width then true
  else
    let sign_bit_mask := shl 64 1 (bit_width - 1) in
    let sign_bit := negb (Z.land value sign_bit_mask =? 0) in
    let upper_bits_mask := not_u64 (shl 64 1 bit_width - 1) in
    let upper_bits := Z.land value upper_bits_mask in
    if sign_bit then upper_bits =? upper_bits_mask else upper_bits =? 0.

(** ** Registers ([register.rs]) and instruction formats ([disassembler/rrs.rs]) *)

(** [Register::from_u8]; a register is its index. *)
Definition register_from_u8 (value : Z) : Res Z :=
  if (0 <=? value) && (value <=? 31) then Ok value else Panic.

Definition X5 : Z := 5.
Definition X10 : Z := 10.
Definition X11 : Z := 11.

Definition r_type (i : Instruction) : Res (Z * Z * Z) :=
  let* a := register_from_u8 (op_a i) in
  let* b := register_from_u8 (as_u8 (op_b i)) in
  let* c := register_from_u8 (as_u8 (op_c i)) in Ok (a, b, c).

Definition i_type (i : Instruction) : Res (Z * Z * Z) :=
  let* a := register_from_u8 (op_a i) in
  let* b := register_from_u8 (as_u8 (op_b i)) in Ok (a, b, op_c i).

Definition s_type (i : Instruction) : Res (Z * Z * Z) :=
  let* a := register_from_u8 (op_a i) in
  let* b := register_from_u8 (as_u8 (op_b i)) in Ok (a, b, op_c i).

Definition b_type (i : Instruction) : Res (Z * Z * Z) :=
  let* a := register_from_u8 (op_a i) in
  let* b := register_from_u8 (as_u8 (op_b i)) in Ok (a, b, op_c i).

Definition j_type (i : Instruction) : Res (Z * Z) :=
  let* a := register_from_u8 (op_a i) in Ok (a, op_b i).

Definition u_type (i : Instruction) : Res (Z * Z) :=
  let* a := register_from_u8 (op_a i) in Ok (a, op_b i).

(** ** Value semantics of the portable executor ([minimal/arch/portable/mod.rs]) *)

(** The [match] of [execute_alu]: the value written to [rd]. *)
Definition alu_value (o : Opcode) (b c : Z) : Res Z :=
  match o with
  | ADD | ADDI => Ok (wrapping_add b c)
  | SUB => Ok (wrapping_sub b c)
  | XOR => Ok (Z.lxor b c)
  | OR => Ok (Z.lor b c)
  | AND => Ok (Z.land b c)
  | SLL => Ok (shl 64 b (Z.land c 0x3f))
  | SRL => Ok (shr b (Z.land c 0x3f))
  | SRA => Ok (as_u64 (shr (as_i64 b) (Z.land c 0x3f)))
  | SLT => Ok (if as_i64 b <? as_i64 c then 1 else 0)
  | SLTU => Ok (if b <? c then 1 else 0)
  | MUL => Ok (as_u64 (as_i64 (as_i64 b * as_i64 c)))
  | MULH => Ok (as_u64 (shr (as_i128 (as_i64 b * as_i64 c)) 64))
  | MULHU => Ok (as_u64 (shr (as_u128 (b * c)) 64))
  | MULHSU => Ok (as_u64 (shr (as_i128 (as_i64 b * as_i128 c)) 64))
  | DIV => Ok (if c =? 0 then U64_MAX else as_u64 (wrapping_div 64 (as_i64 b) (as_i64 c)))
  | DIVU => Ok (if c =? 0 then U64_MAX else b / c)
  | REM => Ok (if c =? 0 then b else as_u64 (wrapping_rem 64 (as_i64 b) (as_i64 c)))
  | REMU => Ok (if c =? 0 then b else b mod c)
  | ADDW => Ok (as_u64 (as_i32 (as_i32 b + as_i32 c)))
  | SUBW => Ok (as_u64 (as_i32 (as_i32 b - as_i32 c)))
  | MULW => Ok (as_u64 (as_i32 (as_i32 b * as_i32 c)))
  | DIVW => Ok (if as_i32 c =? 0 then U64_MAX else as_u64 (wrapping_div 32 (as_i32 b) (as_i32 c)))
  | DIVUW => Ok (if as_i32 c =? 0 then U64_MAX else as_u64 (as_i32 (as_u32 b / as_u32 c)))
  | REMW => Ok (if as_i32 c =? 0 then as_u64 (as_i32 b)
                else as_u64 (wrapping_rem 32 (as_i32 b) (as_i32 c)))
  | REMUW => Ok (if as_u32 c =? 0 then as_u64 (as_i32 b)
                 else as_u64 (as_i32 (as_u32 b mod as_u32 c)))
  | SLLW => Ok (as_u64 (as_i32 (as_i64 (Z.shiftl (as_i64 b) (Z.land c 0x1f)))))
  | SRLW => Ok (as_u64 (as_i32 (shr (as_u32 b) (as_u32 (Z.land c 0x1f)))))
  | SRAW => Ok (as_u64 (shr (as_i32 b) (as_u32 (as_i32 (Z.land (as_i64 c) 0x1f)) mod 32)))
  | _ => Panic
  end.

(** The [match] of [execute_branch]. *)
Definition branch_taken (o : Opcode) (a b : Z) : Res bool :=
  match o with
  | BEQ => Ok (a =? b)
  | BNE => Ok (negb (a =? b))
  | BLT => Ok (as_i64 a <? as_i64 b)
  | BGE => Ok (as_i64 b <=? as_i64 a)
  | BLTU => Ok (a <? b)
  | BGEU => Ok (b <=? a)
  | _ => Panic
  end.

(** [sign_extend_imm]: shift left then arithmetically right on [i64]. *)
Definition sign_extend_imm (value bits : Z) : Z :=
  let shift := 64 - bits in
  shr (as_i64 (Z.shiftl (as_i64 value) shift)) shift.

(** The doubleword an address is in. *)
Definition aligned (addr : Z) : Z := Z.land addr (not_u64 7).

Lemma aligned_eq (addr : Z) : is_u64 addr -> aligned addr = addr - addr mod 8.
Proof. intros Ha. apply (land_not_mask addr 3); [exact Ha | lia]. Qed.

Definition is_multiple_of (addr n : Z) : bool := addr mod n =? 0.

Definition load_value (o : Opcode) (addr value : Z) : Res Z :=
  match o with
  | LB => Ok (as_u64 (as_i8 (Z.land (shr value (addr mod 8 * 8)) 0xFF)))
  | LH => assert! (is_multiple_of addr 2) ;;
          Ok (as_u64 (as_i16 (Z.land (shr value ((addr / 2) mod 4 * 16)) 0xFFFF)))
  | LW => assert! (is_multiple_of addr 4) ;;
          Ok (as_u64 (as_i32 (Z.land (shr value ((addr / 4) mod 2 * 32)) 0xFFFFFFFF)))
  | LBU => Ok (as_u8 (Z.land (shr value (addr mod 8 * 8)) 0xFF))
  | LHU => assert! (is_multiple_of addr 2) ;;
           Ok (as_u16 (Z.land (shr value ((addr / 2) mod 4 * 16)) 0xFFFF))
  | LWU => assert! (is_multiple_of addr 4) ;;
           Ok (Z.land (shr value ((addr / 4) mod 2 * 32)) 0xFFFFFFFF)
  | LD => assert! (is_multiple_of addr 8) ;; Ok value
  | _ => Panic
  end.

Definition store_value (o : Opcode) (src addr last_value : Z) : Res Z :=
  match o with
  | SB =>
      let shift := addr mod 8 * 8 in
      Ok (Z.lor (shl 64 (Z.land src 0xFF) shift) (Z.land last_value (not_u64 (shl 64 0xFF shift))))
  | SH => assert! (is_multiple_of addr 2) ;;
      let shift := (addr / 2) mod 4 * 16 in
      Ok (Z.lor (shl 64 (Z.land src 0xFFFF) shift)
                (Z.land last_value (not_u64 (shl 64 0xFFFF shift))))
  | SW => assert! (is_multiple_of addr 4) ;;
      let shift := (addr / 4) mod 2 * 32 in
      Ok (Z.lor (shl 64 (Z.land src 0xFFFFFFFF) shift)
                (Z.land last_value (not_u64 (shl 64 0xFFFFFFFF shift))))
  | SD => assert! (is_multiple_of addr 8) ;; Ok src
  | _ => Panic
  end.
