(* ===== verification/Field.v ===== *)
(** * The KoalaBear field

    SP1's AIRs are evaluated over the prime field of order
    [KOALA_BEAR_ORDER = 2^31 - 2^24 + 1].  The field is the standard library's
    [Zmod]; this file proves the order prime, registers the field with [ring]
    and [field], and provides the passage between field equations and integer
    equations that every soundness argument of the arithmetisation uses: a
    field equation between expressions whose integer values are less than the
    order apart is an equation of integers. *)

From Stdlib Require Import ZArith Lia List Bool Zmod Znumtheory Field.
From S2P Require Import Prelude.
Import ListNotations.
Open Scope Z_scope.

Definition KOALA_BEAR_ORDER : Z := 2130706433.

(** ** Primality, by trial division by the odd numbers up to the square root *)

Fixpoint no_odd_divisor_from (fuel : nat) (d p : Z) : bool :=
  match fuel with
  | O => true
  | S fuel => negb (p mod d =? 0) && no_odd_divisor_from fuel (d + 2) p
  end.

Lemma no_odd_divisor_from_spec (fuel : nat) (d p : Z) :
  no_odd_divisor_from fuel d p = true ->
  forall i, 0 <= i < Z.of_nat fuel -> p mod (d + 2 * i) <> 0.
Proof.
  revert d. induction fuel as [|n IH]; intros d H i Hi; [lia|].
  cbn [no_odd_divisor_from] in H. zbool.
  destruct (Z.eq_dec i 0) as [-> | ]; [replace (d + 2 * 0) with d by lia; assumption|].
  replace (d + 2 * i) with (d + 2 + 2 * (i - 1)) by lia. apply (IH (d + 2)); [assumption|lia].
Qed.

Lemma prime_by_trial (p r : Z) :
  1 < p -> p mod 2 = 1 -> 0 <= r -> p < (2 * r + 3) * (2 * r + 3) ->
  no_odd_divisor_from (Z.to_nat r) 3 p = true -> Z.prime p.
Proof.
  intros Hp Hodd Hr Hsq Hnd. split; [assumption|].
  pose proof (no_odd_divisor_from_spec _ _ _ Hnd) as Hno. rewrite Z2Nat.id in Hno by assumption.
  assert (Hsmall : forall n q, p = q * n -> 1 < n -> n < 2 * r + 3 -> False).
  { intros n q Hq Hn1 Hn2. pose proof (Z_div_mod_eq_full n 2). pose proof (Z.mod_pos_bound n 2).
    assert (n mod 2 = 1).
    { rewrite Hq, Z.mul_mod in Hodd by lia. destruct (Z.eq_dec (n mod 2) 0) as [E|]; [|lia].
      rewrite E, Z.mul_0_r in Hodd. discriminate. }
    apply (Hno ((n - 3) / 2)); replace (3 + 2 * ((n - 3) / 2)) with n by dlia; [dlia|].
    rewrite Hq. apply Z_mod_mult. }
  intros n Hn [q Hq]. assert (1 < q < p) by nia.
  destruct (Z_lt_le_dec n (2 * r + 3)); [eapply (Hsmall n q); lia|].
  apply (Hsmall q n); [lia | lia | nia].
Qed.

Lemma KOALA_BEAR_prime : Z.prime KOALA_BEAR_ORDER.
Proof.
  apply (prime_by_trial _ 23080); unfold KOALA_BEAR_ORDER; try lia.
  - reflexivity.
  - vm_compute. reflexivity.
Qed.

(** ** The field *)

Definition F : Type := Zmod KOALA_BEAR_ORDER.

Declare Scope F_scope.
Delimit Scope F_scope with F.
Bind Scope F_scope with F.

Definition Fof (z : Z) : F := Zmod.of_Z KOALA_BEAR_ORDER z.
Definition Fval (x : F) : Z := Zmod.unsigned x.
Definition Fadd (x y : F) : F := Zmod.add x y.
Definition Fsub (x y : F) : F := Zmod.sub x y.
Definition Fmul (x y : F) : F := Zmod.mul x y.
Definition Fopp (x : F) : F := Zmod.opp x.
Definition Finv (x : F) : F := Zmod.inv x.
Definition Fdiv (x y : F) : F := Zmod.mdiv x y.
Definition F0 : F := Zmod.zero.
Definition F1 : F := Zmod.one.
Definition Feqb (x y : F) : bool := Zmod.eqb x y.

Arguments Fof _ : simpl never.
Arguments Fval _ : simpl never.
Arguments Fadd _ _ : simpl never.
Arguments Fsub _ _ : simpl never.
Arguments Fmul _ _ : simpl never.
Arguments Fopp _ : simpl never.
Arguments Finv _ : simpl never.
Arguments F0 : simpl never.
Arguments F1 : simpl never.

Infix "+" := Fadd : F_scope.
Infix "-" := Fsub : F_scope.
Infix "*" := Fmul : F_scope.
Notation "- x" := (Fopp x) : F_scope.

Lemma F_field_theory : Field_theory.field_theory F0 F1 Fadd Fmul Fsub Fopp Fdiv Finv eq.
Proof. apply Zmod.field_theory, KOALA_BEAR_prime. Qed.

Add Field F_field : F_field_theory.

(** ** Integer values *)

Lemma p_pos : 0 < KOALA_BEAR_ORDER. Proof. reflexivity. Qed.

Lemma Fval_bound (x : F) : 0 <= Fval x < KOALA_BEAR_ORDER.
Proof. apply Zmod.unsigned_pos_bound, p_pos. Qed.

Lemma Fof_val (x : F) : Fof (Fval x) = x.
Proof. apply Zmod.of_Z_unsigned. Qed.

Lemma Fval_of (z : Z) : Fval (Fof z) = z mod KOALA_BEAR_ORDER.
Proof. apply Zmod.unsigned_of_Z. Qed.

Lemma Fval_of_small (z : Z) : 0 <= z < KOALA_BEAR_ORDER -> Fval (Fof z) = z.
Proof. intros. rewrite Fval_of. apply Z.mod_small; assumption. Qed.

Lemma Fval_inj (x y : F) : Fval x = Fval y -> x = y.
Proof. apply Zmod.unsigned_inj. Qed.

Lemma Feqb_eq (x y : F) : Feqb x y = true <-> x = y.
Proof. apply Zmod.eqb_eq. Qed.

Lemma Feq_dec (x y : F) : {x = y} + {x <> y}.
Proof.
  destruct (Feqb x y) eqn:E; [left | right].
  - apply Feqb_eq; assumption.
  - intros ->. assert (Feqb y y = true) by (apply Feqb_eq; reflexivity). congruence.
Defined.

Lemma Fof_add (a b : Z) : (Fof a + Fof b)%F = Fof (a + b).
Proof. symmetry. apply Zmod.of_Z_add. Qed.
Lemma Fof_sub (a b : Z) : (Fof a - Fof b)%F = Fof (a - b).
Proof. symmetry. apply Zmod.of_Z_sub. Qed.
Lemma Fof_mul (a b : Z) : (Fof a * Fof b)%F = Fof (a * b).
Proof. symmetry. apply Zmod.of_Z_mul. Qed.
Lemma Fof_opp (a : Z) : (- Fof a)%F = Fof (- a).
Proof. symmetry. apply Zmod.of_Z_opp. Qed.
Lemma F0_of : F0 = Fof 0. Proof. reflexivity. Qed.
Lemma F1_of : F1 = Fof 1. Proof. reflexivity. Qed.

(** The bridge: congruent representatives less than the order apart. *)
Lemma Fof_inj_small (a b : Z) :
  Fof a = Fof b -> - KOALA_BEAR_ORDER < a - b < KOALA_BEAR_ORDER -> a = b.
Proof.
  intros E Hb. apply (f_equal Fval) in E. rewrite !Fval_of in E.
  exact (mod_eq_small _ _ _ p_pos E Hb).
Qed.

Lemma Fmul_0 (x y : F) : (x * y)%F = F0 -> x = F0 \/ y = F0.
Proof. apply (Zmod.mul_0_iff_prime KOALA_BEAR_prime). Qed.

Lemma F1_neq_0 : F1 <> F0.
Proof. intros E. apply (f_equal Fval) in E. discriminate E. Qed.

Lemma Fof_neq_0 (z : Z) : 0 < z < KOALA_BEAR_ORDER -> Fof z <> F0.
Proof. intros H E. rewrite F0_of in E. apply Fof_inj_small in E; lia. Qed.

Lemma Fsub_eq0 (x y : F) : (x - y)%F = F0 -> x = y.
Proof. intros E. replace x with (x - y + y)%F by ring. rewrite E. ring. Qed.

Lemma Finv_l (x : F) : x <> F0 -> (Finv x * x)%F = F1.
Proof. apply (Zmod.mul_inv_same_l_prime x KOALA_BEAR_prime). Qed.

(** Multiplying by an inverse solves a linear equation. *)
Lemma Fmul_inv_eq (x b y : F) : b <> F0 -> (x * Finv b)%F = y -> x = (y * b)%F.
Proof. intros Hb <-. transitivity (x * (Finv b * b))%F; [rewrite (Finv_l b Hb) | ]; ring. Qed.

Lemma Finv_mul_solve (x b y : F) : b <> F0 -> x = (y * b)%F -> (x * Finv b)%F = y.
Proof. intros Hb ->. transitivity (y * (Finv b * b))%F; [ | rewrite (Finv_l b Hb)]; ring. Qed.

(** Boolean elements. *)
Definition is_bool (x : F) : Prop := x = F0 \/ x = F1.
Definition Fof_bool (b : bool) : F := if b then F1 else F0.

Lemma is_bool_mul (x : F) : (x * (x - F1))%F = F0 <-> is_bool x.
Proof.
  split.
  - intros E. apply Fmul_0 in E as [E | E]; [left; assumption | right]. apply Fsub_eq0; assumption.
  - intros [-> | ->]; ring.
Qed.

Lemma is_bool_val (x : F) : is_bool x -> Fval x = 0 \/ Fval x = 1.
Proof. intros [-> | ->]; [left | right]; reflexivity. Qed.

Lemma Fof_bool_is_bool (b : bool) : is_bool (Fof_bool b).
Proof. destruct b; [right | left]; reflexivity. Qed.

(** ** Turning a field equation into one of integers

    [F_to_Z H] replaces every field variable [x] of the equation [H] by
    [Fof (Fval x)], folds the operations into one [Fof] on each side, and
    concludes the equation of the integer values, whose size condition is left
    to [lia] with the bounds of the context. *)
Ltac F_fold_in H :=
  rewrite ?F0_of, ?F1_of in H; rewrite ?Fof_add, ?Fof_sub, ?Fof_mul, ?Fof_opp in H;
  repeat (progress rewrite ?Fof_add, ?Fof_sub, ?Fof_mul, ?Fof_opp in H).
Ltac F_fold :=
  rewrite ?F0_of, ?F1_of;
  repeat (progress rewrite ?Fof_add, ?Fof_sub, ?Fof_mul, ?Fof_opp).

#[export] Hint Resolve F1_neq_0 Fof_bool_is_bool p_pos : sp1.
