(* ===== verification/Air.v ===== *)
(** * AIR builders, interactions and byte lookups

    An AIR's [eval] is run on one row of field elements, as by
    [DebugConstraintBuilder] ([crates/hypercube/src/debug.rs], where
    [Expr = Var = F]), and its effect on the builder is recorded: the
    assertions it makes and the messages it sends and receives
    ([crates/hypercube/src/air/builder.rs]).  [sats] says that every recorded
    assertion holds and that every byte lookup with a non-zero multiplicity is
    in the byte or the range table ([crates/core/machine/src/bytes], [range]).
    Messages of the other kinds are kept as values for the theorems about
    them. *)

From Stdlib Require Import ZArith Lia List Bool Permutation.
From S2P Require Import Prelude Words Isa Field.
Import ListNotations.
Open Scope Z_scope.

(** ** Interactions ([hypercube/src/lookup/interaction.rs], [air/interaction.rs]) *)

Inductive InteractionKind : Set :=
| KMemory | KProgram | KByte | KState | KSyscall | KGlobal | KShaExtend | KShaCompress | KKeccak
| KGlobalAccumulation | KMemoryGlobalInitControl | KMemoryGlobalFinalizeControl
| KInstructionFetch | KInstructionDecode | KPageProt | KPageProtAccess
| KPageProtGlobalInitControl | KPageProtGlobalFinalizeControl.

Definition kind_num (k : InteractionKind) : Z :=
  match k with
  | KMemory => 1 | KProgram => 2 | KByte => 5 | KState => 7 | KSyscall => 8 | KGlobal => 9
  | KShaExtend => 10 | KShaCompress => 11 | KKeccak => 12 | KGlobalAccumulation => 13
  | KMemoryGlobalInitControl => 14 | KMemoryGlobalFinalizeControl => 15 | KInstructionFetch => 16
  | KInstructionDecode => 17 | KPageProt => 18 | KPageProtAccess => 19
  | KPageProtGlobalInitControl => 20 | KPageProtGlobalFinalizeControl => 21
  end.

Inductive InteractionScope : Set := Global | Local.

Record AirInteraction : Type := mkInteraction {
  values : list F;
  multiplicity : F;
  kind : InteractionKind
}.

(** ** What a builder is told *)

Inductive Assertion : Type :=
| AZero (x : F)
| AOne (x : F)
| AEq (x y : F)
| ABool (x : F).

(** An assertion made through nested [when] sub-builders carries their
    conditions. *)
Inductive Emit : Type :=
| Assert (guards : list F) (a : Assertion)
| Send (m : AirInteraction) (scope : InteractionScope)
| Receive (m : AirInteraction) (scope : InteractionScope).

Definition assert_zero (x : F) : list Emit := [Assert [] (AZero x)].
Definition assert_one (x : F) : list Emit := [Assert [] (AOne x)].
Definition assert_eq (x y : F) : list Emit := [Assert [] (AEq x y)].
Definition assert_bool (x : F) : list Emit := [Assert [] (ABool x)].

(** A sub-builder whose constraints are enforced only when the condition is
    not zero; messages pass through it unconditionally. *)
Definition guard (c : F) (e : Emit) : Emit :=
  match e with Assert gs a => Assert (c :: gs) a | _ => e end.
Definition when (c : F) (l : list Emit) : list Emit := map (guard c) l.
(** [when_not c] is [when_ne c 1]. *)
Definition when_not (c : F) (l : list Emit) : list Emit := when (c - F1)%F l.

Definition assert_all_eq (left right : list F) : list Emit :=
  flat_map (fun p => assert_eq (fst p) (snd p)) (combine left right).
Definition assert_all_zero (l : list F) : list Emit := flat_map assert_zero l.

Definition if_else (condition a b : F) : F := (condition * a + (F1 - condition) * b)%F.

Definition index_array (array index_bitmap : list F) : F :=
  fold_left (fun result p => (result + fst p * snd p)%F) (combine array index_bitmap) F0.

Definition send_byte (opcode a b c mult : F) : list Emit :=
  [Send (mkInteraction [opcode; a; b; c] mult KByte) Local].
Definition receive_byte (opcode a b c mult : F) : list Emit :=
  [Receive (mkInteraction [opcode; a; b; c] mult KByte) Local].

Definition send_state (clk_high clk_low : F) (pc : list F) (mult : F) : list Emit :=
  [Send (mkInteraction (clk_high :: clk_low :: pc) mult KState) Local].
Definition receive_state (clk_high clk_low : F) (pc : list F) (mult : F) : list Emit :=
  [Receive (mkInteraction (clk_high :: clk_low :: pc) mult KState) Local].

Definition byte_op (o : ByteOpcode) : F := Fof (byte_opcode_num o).

(** ** The lookup tables *)

(** The value the byte table holds for a byte opcode ([ByteChip::trace]). *)
Definition byte_table_value (o : ByteOpcode) (b c : Z) : Z :=
  match o with
  | BAND => Z.land b c
  | BOR => Z.lor b c
  | BXOR => Z.lxor b c
  | BU8Range => 0
  | BLTU8 => if b <? c then 1 else 0
  | BMSB => if Z.land b 128 =? 0 then 0 else 1
  | BRange => 0
  end.

(** Whether a byte message [(opcode, a, b, c)] is one that a row of the byte
    table or of the range table receives; [Tables] proves it of the tables the
    chips generate. *)
Definition byte_message_ok (op a b c : Z) : bool :=
  if op =? byte_opcode_num BRange then (b <=? 16) && (a <? 2 ^ b) && (c =? 0)
  else (b <? 256) && (c <? 256) &&
    (if op =? byte_opcode_num BAND then a =? byte_table_value BAND b c
     else if op =? byte_opcode_num BOR then a =? byte_table_value BOR b c
     else if op =? byte_opcode_num BXOR then a =? byte_table_value BXOR b c
     else if op =? byte_opcode_num BU8Range then a =? byte_table_value BU8Range b c
     else if op =? byte_opcode_num BLTU8 then a =? byte_table_value BLTU8 b c
     else if op =? byte_opcode_num BMSB then (a =? byte_table_value BMSB b c) && (c =? 0)
     else false).

Definition byte_lookup_ok (vs : list F) : bool :=
  match vs with
  | [op; a; b; c] => byte_message_ok (Fval op) (Fval a) (Fval b) (Fval c)
  | _ => false
  end.

(** ** Satisfaction *)

Definition holds (a : Assertion) : Prop :=
  match a with
  | AZero x => x = F0
  | AOne x => x = F1
  | AEq x y => x = y
  | ABool x => is_bool x
  end.

Fixpoint guards_on (gs : list F) : Prop :=
  match gs with [] => True | g :: gs => g <> F0 /\ guards_on gs end.

Definition sat (e : Emit) : Prop :=
  match e with
  | Assert gs a => guards_on gs -> holds a
  | Send m _ =>
      match kind m with
      | KByte => multiplicity m <> F0 -> byte_lookup_ok (values m) = true
      | _ => True
      end
  | Receive _ _ => True
  end.

Fixpoint sats (l : list Emit) : Prop :=
  match l with [] => True | e :: l => sat e /\ sats l end.

(** The executable form. *)
Definition holdsb (a : Assertion) : bool :=
  match a with
  | AZero x => Feqb x F0
  | AOne x => Feqb x F1
  | AEq x y => Feqb x y
  | ABool x => Feqb x F0 || Feqb x F1
  end.

Definition satb (e : Emit) : bool :=
  match e with
  | Assert gs a => existsb (fun g => Feqb g F0) gs || holdsb a
  | Send m _ =>
      match kind m with
      | KByte => Feqb (multiplicity m) F0 || byte_lookup_ok (values m)
      | _ => true
      end
  | Receive _ _ => true
  end.

Definition satsb (l : list Emit) : bool := forallb satb l.

(** ** Byte lookup events ([executor/src/events/byte.rs]) *)

Record ByteLookupEvent : Set := mkByteLookupEvent {
  ble_opcode : ByteOpcode;
  ble_a : Z;
  ble_b : Z;
  ble_c : Z
}.

(** A [ByteRecord] is the list of the events added to it. *)
Definition add_u8_range_check (a b : Z) : list ByteLookupEvent := [mkByteLookupEvent BU8Range 0 a b].
Definition add_u16_range_check (a : Z) : list ByteLookupEvent := [mkByteLookupEvent BRange a 16 0].
Definition add_bit_range_check (a b : Z) : list ByteLookupEvent := [mkByteLookupEvent BRange a b 0].

Fixpoint add_u8_range_checks (bytes : list Z) : list ByteLookupEvent :=
  match bytes with
  | a :: b :: rest => add_u8_range_check a b ++ add_u8_range_checks rest
  | [a] => add_u8_range_check a 0
  | [] => []
  end.

Definition add_u16_range_checks (ls : list Z) : list ByteLookupEvent :=
  flat_map add_u16_range_check ls.

(** The message a byte event stands for, as the chips receive it. *)
Definition event_lookup (e : ByteLookupEvent) : list F * F :=
  ([byte_op (ble_opcode e); Fof (ble_a e); Fof (ble_b e); Fof (ble_c e)], F1).

(** The byte messages a row sends, with their multiplicities. *)
Definition byte_lookups (l : list Emit) : list (list F * F) :=
  flat_map (fun e =>
    match e with
    | Send m Local =>
        match kind m with
        | KByte => if Feqb (multiplicity m) F0 then [] else [(values m, multiplicity m)]
        | _ => []
        end
    | _ => []
    end) l.

(** The row satisfies its constraints, and its byte lookups are exactly the
    events recorded for it, as multisets: the lookup argument balances. *)
Definition complete (l : list Emit) (events : list ByteLookupEvent) : Prop :=
  sats l /\ Permutation (byte_lookups l) (map event_lookup events).

(** ** Words of field elements ([hypercube/src/word.rs], [machine/src/air/word.rs]) *)

Record Word (T : Type) : Type := mkWord { limb0 : T; limb1 : T; limb2 : T; limb3 : T }.
Arguments mkWord {T} _ _ _ _.
Arguments limb0 {T} _.
Arguments limb1 {T} _.
Arguments limb2 {T} _.
Arguments limb3 {T} _.

Definition word_list {T} (w : Word T) : list T := [limb0 w; limb1 w; limb2 w; limb3 w].
Definition word_map {T U} (f : T -> U) (w : Word T) : Word U :=
  mkWord (f (limb0 w)) (f (limb1 w)) (f (limb2 w)) (f (limb3 w)).
Definition word_zero : Word F := mkWord F0 F0 F0 F0.
Definition extend_half (x0 x1 : F) : Word F := mkWord (F0 + x0)%F (F0 + x1)%F F0 F0.
Definition extend_var (x : F) : Word F := mkWord (F0 + x)%F F0 F0 F0.

Definition word_from_u64 (value : Z) : Word F :=
  mkWord (Fof (as_u16 (Z.land value 0xFFFF))) (Fof (as_u16 (shr value 16)))
         (Fof (as_u16 (shr value 32))) (Fof (as_u16 (shr value 48))).
Definition word_from_u32 (value : Z) : Word F :=
  mkWord (Fof (as_u16 (Z.land value 0xFFFF))) (Fof (as_u16 (shr value 16))) F0 F0.

(** [to_string().parse::<u16>().unwrap()]. *)
Definition parse_u16 (x : F) : Res Z := if Fval x <? 2 ^ 16 then Ok (Fval x) else Panic.

Definition word_to_u64 (w : Word F) : Res Z :=
  let* low := parse_u16 (limb0 w) in
  let* mid_low := parse_u16 (limb1 w) in
  let* mid_high := parse_u16 (limb2 w) in
  let* high := parse_u16 (limb3 w) in
  Ok (Z.lor (Z.lor (Z.lor (shl 64 high 48) (shl 64 mid_high 32)) (shl 64 mid_low 16)) low).

Definition assert_word_eq (left right : Word F) : list Emit :=
  assert_all_eq (word_list left) (word_list right).
Definition assert_word_zero (w : Word F) : list Emit := flat_map assert_zero (word_list w).
Definition select_word (condition : F) (a b : Word F) : Word F :=
  mkWord (if_else condition (limb0 a) (limb0 b)) (if_else condition (limb1 a) (limb1 b))
         (if_else condition (limb2 a) (limb2 b)) (if_else condition (limb3 a) (limb3 b)).

Fixpoint slice_range_check_u8 (input : list F) (mult : F) : list Emit :=
  match input with
  | x :: y :: rest => send_byte (byte_op BU8Range) F0 x y mult ++ slice_range_check_u8 rest mult
  | [x] => send_byte (byte_op BU8Range) F0 x F0 mult
  | [] => []
  end.

Definition slice_range_check_u16 (input : list F) (mult : F) : list Emit :=
  flat_map (fun limb => send_byte (byte_op BRange) limb (Fof 16) F0 mult) input.

(** The integer a word stands for, and its validity: four 16-bit limbs. *)
Definition word_val (w : Word F) : Z :=
  Fval (limb0 w) + 2 ^ 16 * Fval (limb1 w) + 2 ^ 32 * Fval (limb2 w) + 2 ^ 48 * Fval (limb3 w).
Definition is_u16F (x : F) : Prop := Fval x < 2 ^ 16.
Definition valid_word (w : Word F) : Prop :=
  is_u16F (limb0 w) /\ is_u16F (limb1 w) /\ is_u16F (limb2 w) /\ is_u16F (limb3 w).
