(* ===== verification/AirFacts.v ===== *)
(** * Facts and tactics for reasoning about AIR constraints

    The lemmas every soundness and completeness proof of the operations and
    chips uses: satisfaction of composed constraint lists, what each byte
    lookup says about the integers involved, words and their values, and the
    [Rep] class that computes the integer an expression of the field stands
    for. *)

From Stdlib Require Import ZArith Lia List Bool Permutation.
From S2P Require Import Prelude Words Isa Field Air.
Import ListNotations.
Open Scope Z_scope.

(** ** Composition *)

Lemma sats_app (l1 l2 : list Emit) : sats (l1 ++ l2) <-> sats l1 /\ sats l2.
Proof. induction l1; cbn; tauto. Qed.

Lemma Feqb_refl (x : F) : Feqb x x = true.
Proof. apply Feqb_eq. reflexivity. Qed.

Lemma Feqb_neq (x y : F) : x <> y -> Feqb x y = false.
Proof. intros H. destruct (Feqb x y) eqn:E; [apply Feqb_eq in E; contradiction | reflexivity]. Qed.

Lemma guards_onb (gs : list F) : existsb (fun g => Feqb g F0) gs = false <-> guards_on gs.
Proof.
  induction gs as [|g gs IH]; cbn; [tauto|]. rewrite orb_false_iff, IH.
  destruct (Feqb g F0) eqn:E; [apply Feqb_eq in E; split; [intros [? _]; discriminate | tauto]|].
  assert (g <> F0) by (intros ->; rewrite Feqb_refl in E; discriminate). tauto.
Qed.

Lemma satb_spec (e : Emit) : satb e = true <-> sat e.
Proof.
  destruct e as [gs a | m s | m s]; cbn; [| | tauto].
  - pose proof (guards_onb gs) as Hg.
    assert (Hh : holdsb a = true <-> holds a)
      by (destruct a; cbn; unfold is_bool; rewrite ?orb_true_iff, ?Feqb_eq; tauto).
    rewrite orb_true_iff, Hh. destruct (existsb _ gs); intuition congruence.
  - destruct (kind m); try tauto. rewrite orb_true_iff, Feqb_eq.
    destruct (Feq_dec (multiplicity m) F0); tauto.
Qed.

(** The executable check decides satisfaction. *)
Lemma satsb_spec (l : list Emit) : satsb l = true <-> sats l.
Proof.
  induction l as [|e l IH]; cbn; [tauto|]. rewrite andb_true_iff, satb_spec. tauto.
Qed.

Lemma byte_lookups_app (l1 l2 : list Emit) :
  byte_lookups (l1 ++ l2) = byte_lookups l1 ++ byte_lookups l2.
Proof. apply flat_map_app. Qed.

Lemma complete_app (l1 l2 : list Emit) (e1 e2 : list ByteLookupEvent) :
  complete l1 e1 -> complete l2 e2 -> complete (l1 ++ l2) (e1 ++ e2).
Proof.
  intros [H1 E1] [H2 E2]. split; [apply sats_app; auto|].
  rewrite byte_lookups_app, map_app. apply Permutation_app; assumption.
Qed.

Lemma complete_asserts_app (l1 l2 : list Emit) (e : list ByteLookupEvent) :
  complete l1 [] -> complete l2 e -> complete (l1 ++ l2) e.
Proof. apply (complete_app l1 l2 []). Qed.

Lemma complete_nil_r (l1 l2 : list Emit) (e : list ByteLookupEvent) :
  complete l1 e -> complete l2 [] -> complete (l1 ++ l2) e.
Proof. intros H1 H2. rewrite <- (app_nil_r e). apply complete_app; assumption. Qed.

(** ** Byte lookups as facts about integers *)

Lemma lookup_range (x : F) (bits : Z) :
  0 <= bits <= 16 -> byte_lookup_ok [byte_op BRange; x; Fof bits; F0] = true <-> Fval x < 2 ^ bits.
Proof.
  intros Hb. unfold byte_lookup_ok, byte_op. cbn [byte_opcode_num].
  rewrite !Fval_of_small by (unfold KOALA_BEAR_ORDER; lia). unfold byte_message_ok.
  change (6 =? byte_opcode_num BRange) with true. cbn iota.
  change (Fval F0 =? 0) with true. rewrite andb_true_r, andb_true_iff, Z.leb_le, Z.ltb_lt. lia.
Qed.

Lemma lookup_range16 (x : F) : byte_lookup_ok [byte_op BRange; x; Fof 16; F0] = true <-> is_u16F x.
Proof. apply lookup_range; lia. Qed.

Lemma lookup_u8 (b c : F) :
  byte_lookup_ok [byte_op BU8Range; F0; b; c] = true <-> Fval b < 2 ^ 8 /\ Fval c < 2 ^ 8.
Proof.
  unfold byte_lookup_ok, byte_op, byte_message_ok. change (Fval (Fof (byte_opcode_num BU8Range))) with 3.
  cbn [byte_opcode_num Z.eqb Pos.eqb]. change (Fval F0) with 0. cbn [byte_table_value Z.eqb].
  rewrite andb_true_r, andb_true_iff, !Z.ltb_lt. reflexivity.
Qed.

Section BitLookups.
Context (o : ByteOpcode) (Ho : o = BAND \/ o = BOR \/ o = BXOR).

Lemma lookup_bitwise (a b c : F) :
    byte_lookup_ok [byte_op o; a; b; c] = true <->
    Fval b < 2 ^ 8 /\ Fval c < 2 ^ 8 /\ Fval a = byte_table_value o (Fval b) (Fval c).
  Proof.
    unfold byte_lookup_ok, byte_op, byte_message_ok.
    destruct Ho as [-> | [-> | ->]];
      match goal with |- context [Fval (Fof (byte_opcode_num ?o))] =>
        let n := eval cbv in (byte_opcode_num o) in
        change (Fval (Fof (byte_opcode_num o))) with n end;
      cbn [byte_opcode_num Z.eqb Pos.eqb];
      rewrite !andb_true_iff, !Z.ltb_lt, Z.eqb_eq; tauto.
  Qed.
End BitLookups.

Lemma lookup_ltu (a b c : F) :
  byte_lookup_ok [byte_op BLTU8; a; b; c] = true <->
  Fval b < 2 ^ 8 /\ Fval c < 2 ^ 8 /\ Fval a = (if Fval b <? Fval c then 1 else 0).
Proof.
  unfold byte_lookup_ok, byte_op, byte_message_ok. change (Fval (Fof (byte_opcode_num BLTU8))) with 4.
  cbn [byte_opcode_num Z.eqb Pos.eqb byte_table_value]. rewrite !andb_true_iff, !Z.ltb_lt, Z.eqb_eq. tauto.
Qed.

Lemma lookup_msb (a b : F) :
  byte_lookup_ok [byte_op BMSB; a; b; F0] = true <->
  Fval b < 2 ^ 8 /\ Fval a = (if Fval b <? 128 then 0 else 1).
Proof.
  unfold byte_lookup_ok, byte_op, byte_message_ok. change (Fval (Fof (byte_opcode_num BMSB))) with 5.
  cbn [byte_opcode_num Z.eqb Pos.eqb byte_table_value]. change (Fval F0) with 0.
  cbn [Z.eqb Z.ltb Z.compare]. rewrite !andb_true_iff, !Z.ltb_lt, Z.eqb_eq.
  assert (E : 0 <= Fval b < 256 ->
              (if Z.land (Fval b) 128 =? 0 then 0 else 1) = (if Fval b <? 128 then 0 else 1)).
  { intros Hb.
    assert (Hall : forallb (fun n => let x := Z.of_nat n in
      (if Z.land x 128 =? 0 then 0 else 1) =? (if x <? 128 then 0 else 1)) (seq 0 256) = true)
      by reflexivity.
    rewrite forallb_forall in Hall. specialize (Hall (Z.to_nat (Fval b))).
    rewrite Z2Nat.id in Hall by lia. apply Z.eqb_eq, Hall, in_seq. lia. }
  pose proof (Fval_bound b). split.
  - intros [[Hb _] [Ha _]]. rewrite Ha. split; [assumption | apply E; lia].
  - intros [Hb Ha]. rewrite Ha. repeat split; [assumption | symmetry; apply E; lia].
Qed.

Lemma sats_range16 (l : list F) (mult : F) :
  mult <> F0 -> sats (slice_range_check_u16 l mult) <-> Forall is_u16F l.
Proof.
  intros Hm. induction l as [|x l IH]; [cbn; split; constructor|].
  change (slice_range_check_u16 (x :: l) mult) with
    (send_byte (byte_op BRange) x (Fof 16) F0 mult ++ slice_range_check_u16 l mult).
  rewrite sats_app, IH. cbn [send_byte sats sat kind multiplicity values].
  rewrite lookup_range16. split.
  - intros [[H _] H']. constructor; auto.
  - intros H. apply Forall_cons_iff in H. tauto.
Qed.

Lemma byte_lookups_range16 (l : list Z) :
  byte_lookups (slice_range_check_u16 (map Fof l) F1) = map event_lookup (add_u16_range_checks l).
Proof.
  induction l as [|x l IH]; [reflexivity|].
  change (slice_range_check_u16 (map Fof (x :: l)) F1) with
    (send_byte (byte_op BRange) (Fof x) (Fof 16) F0 F1 ++ slice_range_check_u16 (map Fof l) F1).
  rewrite byte_lookups_app, IH. cbn. rewrite (Feqb_neq F1 F0 F1_neq_0). reflexivity.
Qed.

Lemma complete_range16 (l : list Z) :
  Forall (fun x => 0 <= x < 2 ^ 16) l ->
  complete (slice_range_check_u16 (map Fof l) F1) (add_u16_range_checks l).
Proof.
  intros H. split; [|rewrite byte_lookups_range16; reflexivity]. apply sats_range16; [apply F1_neq_0|].
  apply Forall_map. eapply Forall_impl; [|exact H]. cbn. intros x Hx. unfold is_u16F.
  rewrite Fval_of_small by (unfold KOALA_BEAR_ORDER; lia). lia.
Qed.

(** A [Range] lookup of a canonical value, as an operation sends it and as it
    is recorded. *)
Lemma complete_range (x : F) (z bits : Z) :
  x = Fof z -> 0 <= bits <= 16 -> 0 <= z < 2 ^ bits ->
  complete (send_byte (byte_op BRange) x (Fof bits) F0 F1) [mkByteLookupEvent BRange z bits 0].
Proof.
  intros -> Hb Hz. assert (2 ^ bits <= 2 ^ 16) by (apply Z.pow_le_mono_r; lia). split.
  - cbn [send_byte sats sat kind multiplicity values]. split; [|exact I]. intros _.
    apply lookup_range; [assumption|]. rewrite Fval_of_small; [lia | unfold KOALA_BEAR_ORDER; lia].
  - cbn. rewrite (Feqb_neq F1 F0 F1_neq_0). reflexivity.
Qed.

Lemma complete_perm (l : list Emit) (e e' : list ByteLookupEvent) :
  Permutation e e' -> complete l e -> complete l e'.
Proof. intros Hp [H E]. split; [assumption|]. rewrite E. apply Permutation_map. assumption. Qed.

Lemma complete_asserts (l : list Emit) : sats l -> byte_lookups l = [] -> complete l [].
Proof. intros H E. split; [assumption | rewrite E; reflexivity]. Qed.

(** ** Constraints in another order *)

Lemma sats_Forall (l : list Emit) : sats l <-> Forall sat l.
Proof. induction l as [|e l IH]; cbn; [split; constructor|]. rewrite Forall_cons_iff, IH. tauto. Qed.

Lemma sats_reorder (l l' : list Emit) : Permutation l l' -> sats l -> sats l'.
Proof. rewrite !sats_Forall. apply Permutation_Forall. Qed.

Lemma complete_reorder (l l' : list Emit) (e : list ByteLookupEvent) :
  Permutation l l' -> complete l e -> complete l' e.
Proof.
  intros Hp [Hs Hb]. split; [eapply sats_reorder; eassumption|].
  rewrite <- Hb. apply Permutation_flat_map. symmetry. exact Hp.
Qed.

Lemma sats_flat_map {A} (f : A -> list Emit) (l : list A) :
  sats (flat_map f l) <-> forall x, In x l -> sats (f x).
Proof.
  induction l as [|y l IH]; cbn [flat_map]; [split; [intros _ x [] | intros _; exact I]|].
  rewrite sats_app, IH. split; [intros [H1 H2] x [<- | Hx]; auto | intros H; split; [apply H; left; reflexivity | intros x Hx; apply H; right; exact Hx]].
Qed.

(** ** Conditional constraints *)

Lemma sats_when (c : F) (l : list Emit) : c <> F0 -> sats (when c l) <-> sats l.
Proof.
  intros Hc. induction l as [|e l IH]; cbn; [tauto|]. unfold when in IH. rewrite IH.
  destruct e; cbn; tauto.
Qed.

Lemma sats_when_1 (l : list Emit) : sats (when F1 l) <-> sats l.
Proof. apply sats_when, F1_neq_0. Qed.

Lemma byte_lookups_when (c : F) (l : list Emit) : byte_lookups (when c l) = byte_lookups l.
Proof.
  induction l as [|e l IH]; [reflexivity|]. cbn. unfold when in IH.
  change (byte_lookups (map (guard c) l) = byte_lookups l) in IH. unfold byte_lookups in IH.
  rewrite IH. destruct e; reflexivity.
Qed.

Lemma complete_when_1 (l : list Emit) (e : list ByteLookupEvent) :
  complete l e -> complete (when F1 l) e.
Proof. intros [H E]. split; [apply sats_when_1; assumption | rewrite byte_lookups_when; assumption]. Qed.

Lemma sats_bool (x : F) : sats (assert_bool x) <-> is_bool x.
Proof. cbn. tauto. Qed.

Lemma sats_eq (x y : F) : sats (assert_eq x y) <-> x = y.
Proof. cbn. tauto. Qed.

Lemma sats_zero (x : F) : sats (assert_zero x) <-> x = F0.
Proof. cbn. tauto. Qed.

Lemma sats_when_eq (c x y : F) : sats (when c (assert_eq x y)) <-> (c <> F0 -> x = y).
Proof. cbn. tauto. Qed.

Lemma complete_bool (x : F) : is_bool x -> complete (assert_bool x) [].
Proof. intros H. split; [cbn; auto | reflexivity]. Qed.

Lemma complete_eq (x y : F) : x = y -> complete (assert_eq x y) [].
Proof. intros H. split; [cbn; auto | reflexivity]. Qed.

Lemma complete_zero (x : F) : x = F0 -> complete (assert_zero x) [].
Proof. intros H. split; [cbn; auto | reflexivity]. Qed.

Lemma complete_when_eq (c x y : F) : (c <> F0 -> x = y) -> complete (when c (assert_eq x y)) [].
Proof. intros H. split; [cbn; tauto | reflexivity]. Qed.

Lemma complete_when_zero (c x : F) : (c <> F0 -> x = F0) -> complete (when c (assert_zero x)) [].
Proof. intros H. split; [cbn; tauto | reflexivity]. Qed.

Lemma complete_when_bool (c x : F) : (c <> F0 -> is_bool x) -> complete (when c (assert_bool x)) [].
Proof. intros H. split; [cbn; tauto | reflexivity]. Qed.

Lemma complete_when2_eq (c d x y : F) : (c <> F0 -> d <> F0 -> x = y) -> complete (when c (when d (assert_eq x y))) [].
Proof. intros H. apply complete_asserts; [|reflexivity]. cbn. tauto. Qed.

Lemma complete_when2_zero (c d x : F) : (c <> F0 -> d <> F0 -> x = F0) -> complete (when c (when d (assert_zero x))) [].
Proof. intros H. apply complete_asserts; [|reflexivity]. cbn. tauto. Qed.

Lemma complete_flat_map {A} (f : A -> list Emit) (l : list A) :
  (forall x, In x l -> complete (f x) []) -> complete (flat_map f l) [].
Proof.
  induction l as [|x l IH]; intros H; [apply complete_asserts; [exact I | reflexivity]|]. cbn [flat_map].
  apply complete_asserts_app; [apply H; left; reflexivity | apply IH; intros y Hy; apply H; right; exact Hy].
Qed.

(** ** The integer an expression stands for *)

Class Rep (x : F) (z : Z) : Prop := rep : x = Fof z.
#[export] Typeclasses Opaque Fof Fval Fadd Fsub Fmul Fopp Finv F0 F1.

#[export] Instance Rep_of (z : Z) : Rep (Fof z) z | 0. Proof. reflexivity. Qed.
#[export] Instance Rep_0 : Rep F0 0 | 0. Proof. reflexivity. Qed.
#[export] Instance Rep_1 : Rep F1 1 | 0. Proof. reflexivity. Qed.
#[export] Instance Rep_add (x y : F) (a b : Z) : Rep x a -> Rep y b -> Rep (x + y)%F (a + b) | 1.
Proof. unfold Rep. intros -> ->. apply Fof_add. Qed.
#[export] Instance Rep_sub (x y : F) (a b : Z) : Rep x a -> Rep y b -> Rep (x - y)%F (a - b) | 1.
Proof. unfold Rep. intros -> ->. apply Fof_sub. Qed.
#[export] Instance Rep_mul (x y : F) (a b : Z) : Rep x a -> Rep y b -> Rep (x * y)%F (a * b) | 1.
Proof. unfold Rep. intros -> ->. apply Fof_mul. Qed.
#[export] Instance Rep_opp (x : F) (a : Z) : Rep x a -> Rep (- x)%F (- a) | 1.
Proof. unfold Rep. intros ->. apply Fof_opp. Qed.
#[export] Instance Rep_val (x : F) : Rep x (Fval x) | 10.
Proof. symmetry. apply Fof_val. Qed.

Lemma F_to_Z (x y : F) {a b : Z} {Rx : Rep x a} {Ry : Rep y b} :
  x = y -> - KOALA_BEAR_ORDER < a - b < KOALA_BEAR_ORDER -> a = b.
Proof. unfold Rep in *. subst. apply Fof_inj_small. Qed.

Lemma Fval_rep (x : F) {a : Z} {Rx : Rep x a} : 0 <= a < KOALA_BEAR_ORDER -> Fval x = a.
Proof. unfold Rep in *. subst. apply Fval_of_small. Qed.

Lemma Rep_eq (x y : F) {a b : Z} {Rx : Rep x a} {Ry : Rep y b} : a = b -> x = y.
Proof. unfold Rep in *. intros. subst. reflexivity. Qed.

(** Bounds of every [Fval] in sight, then linear arithmetic. *)
Ltac F_bounds :=
  repeat match goal with
  | |- context [Fval ?x] =>
      lazymatch goal with _ : 0 <= Fval x < KOALA_BEAR_ORDER |- _ => fail | _ => pose proof (Fval_bound x) end
  | _ : context [Fval ?x] |- _ =>
      lazymatch goal with _ : 0 <= Fval x < KOALA_BEAR_ORDER |- _ => fail | _ => pose proof (Fval_bound x) end
  end.
Ltac F_lia := unfold is_u16F, KOALA_BEAR_ORDER in *; F_bounds; unfold KOALA_BEAR_ORDER in *; lia.

(** [to_Z H] turns the field equation [H] into the equation of integers. *)
Ltac to_Z H :=
  lazymatch type of H with
  | ?x = ?y =>
      let H' := fresh "HZ" in
      pose proof (F_to_Z x y H) as H'; clear H; rename H' into H;
      specialize (H ltac:(F_lia))
  end.

(** ** Words *)

Lemma word_from_u64_limbs (x : Z) :
  word_from_u64 x = mkWord (Fof (limb16 x 0)) (Fof (limb16 x 1)) (Fof (limb16 x 2)) (Fof (limb16 x 3)).
Proof.
  pose proof (u64_to_u16_limbs_eq x) as H. unfold u64_to_u16_limbs in H. injection H as H0 H1 H2 H3.
  unfold word_from_u64. congruence.
Qed.

Lemma Fval_limb16 (x i : Z) : Fval (Fof (limb16 x i)) = limb16 x i.
Proof. apply Fval_of_small. pose proof (limb16_bound x i). unfold KOALA_BEAR_ORDER. lia. Qed.

Lemma valid_word_from (x : Z) : valid_word (word_from_u64 x).
Proof.
  rewrite word_from_u64_limbs. repeat split; cbn [limb0 limb1 limb2 limb3]; unfold is_u16F;
    rewrite Fval_limb16; apply limb16_bound.
Qed.

Lemma word_val_from (x : Z) : is_u64 x -> word_val (word_from_u64 x) = x.
Proof.
  intros Hx. rewrite word_from_u64_limbs. unfold word_val. cbn [limb0 limb1 limb2 limb3].
  rewrite !Fval_limb16. symmetry. apply limb16_val64; assumption.
Qed.

Lemma word_val_bound (w : Word F) : valid_word w -> is_u64 (word_val w).
Proof. unfold valid_word, word_val, is_u. intros. split_hyps. F_lia. Qed.

(** Two valid words of the same value are the same word. *)
Lemma word_val_inj (w w' : Word F) : valid_word w -> valid_word w' -> word_val w = word_val w' -> w = w'.
Proof.
  destruct w as [a b c d], w' as [a' b' c' d']. unfold valid_word, word_val.
  cbn [limb0 limb1 limb2 limb3]. intros. split_hyps.
  f_equal; apply Fval_inj; unfold is_u16F in *; F_bounds; unfold KOALA_BEAR_ORDER in *; lia.
Qed.

Lemma word_from_val (w : Word F) : valid_word w -> word_from_u64 (word_val w) = w.
Proof.
  intros H. apply word_val_inj; [apply valid_word_from | assumption |].
  apply word_val_from, word_val_bound; assumption.
Qed.

(** [Word::to_u64] reads back the value of a word of 16-bit limbs. *)
Lemma word_to_u64_valid (w : Word F) : valid_word w -> word_to_u64 w = Ok (word_val w).
Proof.
  intros (H0 & H1 & H2 & H3). unfold is_u16F in *. unfold word_to_u64, parse_u16.
  rewrite !(proj2 (Z.ltb_lt _ _)) by assumption. cbn [bind]. f_equal. unfold word_val, shl, as_unsigned.
  pose proof (Fval_bound (limb0 w)). pose proof (Fval_bound (limb1 w)).
  pose proof (Fval_bound (limb2 w)). pose proof (Fval_bound (limb3 w)).
  rewrite !Z.shiftl_mul_pow2, !Z.mod_small by lia.
  rewrite (lor_shl _ (Fval (limb2 w) * 2 ^ 32) 48) by lia.
  replace (Fval (limb3 w) * 2 ^ 48 + Fval (limb2 w) * 2 ^ 32) with ((Fval (limb3 w) * 2 ^ 16 + Fval (limb2 w)) * 2 ^ 32) by lia.
  rewrite (lor_shl _ (Fval (limb1 w) * 2 ^ 16) 32) by lia.
  replace ((Fval (limb3 w) * 2 ^ 16 + Fval (limb2 w)) * 2 ^ 32 + Fval (limb1 w) * 2 ^ 16)
    with (((Fval (limb3 w) * 2 ^ 16 + Fval (limb2 w)) * 2 ^ 16 + Fval (limb1 w)) * 2 ^ 16) by lia.
  rewrite lor_shl by lia. lia.
Qed.

Lemma word_to_u64_panics (w : Word F) : word_to_u64 w = Panic <-> ~ valid_word w.
Proof.
  split; [intros E V; rewrite (word_to_u64_valid w V) in E; discriminate|].
  intros V. unfold word_to_u64, parse_u16.
  repeat match goal with |- context [if ?b then _ else _] => destruct b eqn:?; cbn [bind]; [|reflexivity] end.
  exfalso. apply V. repeat split; apply Z.ltb_lt; assumption.
Qed.

Lemma valid_word_dec (w : Word F) : valid_word w \/ ~ valid_word w.
Proof. unfold valid_word, is_u16F. lia. Qed.
