(* ===== verification/SmallInverse.v ===== *)
(** * Inverses of small integers by table

    [crates/core/machine/src/operations/small_inverse.rs]: trace generation
    looks the inverse of a small integer up in a table built by the recurrence
    [inv(k) = (p - p / k) * inv(p mod k) mod p].  The table holds the inverse
    modulo the field order at every index from 1, every lookup is the field
    inverse, and only the inverse of zero panics. *)

From Stdlib Require Import ZArith Lia List Bool.
From S2P Require Import Prelude Words Field AirFacts.
Import ListNotations.
Open Scope Z_scope.

Definition SMALL_INVERSE_TABLE_LEN : nat := Z.to_nat (2 ^ 17).

(** [inv[i] = x]. *)
Fixpoint set_nth (l : list Z) (i : nat) (x : Z) : list Z :=
  match l, i with
  | [], _ => []
  | _ :: l, O => x :: l
  | y :: l, S i => y :: set_nth l i x
  end.

(** The loop body at [k]. *)
Definition table_step (inv : list Z) (k : nat) : list Z :=
  let p := KOALA_BEAR_ORDER in
  let kz := Z.of_nat k in
  set_nth inv k (as_u32 ((p - p / kz) * nth (Z.to_nat (p mod kz)) inv 0 mod p)).

(** The table of [len] entries. *)
Definition inverse_table (len : nat) : list Z :=
  fold_left table_step (seq 2 (len - 2)) (set_nth (repeat 0 len) 1 1).

(** The table is built when it is first used. *)
Definition small_inverse_table (_ : unit) : list Z := inverse_table SMALL_INVERSE_TABLE_LEN.

(** [Field::inverse], which panics on zero. *)
Definition field_inverse (x : F) : Res F := if Feqb x F0 then Panic else Ok (Finv x).

Definition small_int_inverse_in (table : list Z) (k : Z) : Res F :=
  let k_f := Fof k in
  match nth_error table (Z.to_nat k) with
  | Some entry =>
      let inv := Fof entry in
      if Feqb (inv * k_f)%F F1 then Ok inv else field_inverse k_f
  | None => field_inverse k_f
  end.

Definition small_int_inverse (k : Z) : Res F := small_int_inverse_in (small_inverse_table tt) k.

Definition u16_difference_inverse (b c : Z) : Res F :=
  if c <=? b then small_int_inverse (b - c)
  else let* x := small_int_inverse (c - b) in Ok (- x)%F.

(** ** The table *)

Lemma set_nth_length (l : list Z) (i : nat) (x : Z) : length (set_nth l i x) = length l.
Proof. revert i. induction l as [|y l IH]; intros [|i]; cbn; auto. Qed.

Lemma nth_set_nth (l : list Z) (i j : nat) (x d : Z) :
  (i < length l)%nat -> nth j (set_nth l i x) d = if (j =? i)%nat then x else nth j l d.
Proof.
  revert i j. induction l as [|y l IH]; intros [|i] [|j] H; cbn in *; try lia; try reflexivity.
  apply IH. lia.
Qed.

Definition table_inv (len n : nat) (t : list Z) : Prop :=
  length t = len /\
  forall k, (1 <= k < n)%nat ->
    0 <= nth k t 0 < KOALA_BEAR_ORDER /\ (nth k t 0 * Z.of_nat k) mod KOALA_BEAR_ORDER = 1.

(** The recurrence: [-(p / k) * inv(p mod k)] times [k] is one modulo [p]. *)
Lemma inverse_recurrence (k i : Z) :
  2 <= k < KOALA_BEAR_ORDER ->
  (i * (KOALA_BEAR_ORDER mod k)) mod KOALA_BEAR_ORDER = 1 ->
  ((KOALA_BEAR_ORDER - KOALA_BEAR_ORDER / k) * i mod KOALA_BEAR_ORDER * k) mod KOALA_BEAR_ORDER = 1.
Proof.
  intros Hk Hi. set (p := KOALA_BEAR_ORDER) in *.
  rewrite Zmult_mod_idemp_l.
  replace ((p - p / k) * i * k) with (i * (p mod k) + (i * k - i) * p)
    by (rewrite (Z.mod_eq p k) by lia; ring).
  rewrite Z_mod_plus_full. assumption.
Qed.

Lemma order_mod_pos (k : Z) : 2 <= k < KOALA_BEAR_ORDER -> 1 <= KOALA_BEAR_ORDER mod k < k.
Proof.
  intros Hk. pose proof (Z.mod_pos_bound KOALA_BEAR_ORDER k ltac:(lia)).
  destruct (Z.eq_dec (KOALA_BEAR_ORDER mod k) 0) as [E|]; [|lia].
  exfalso. apply Z.mod_divide in E; [|lia].
  destruct KOALA_BEAR_prime as [_ Hp]. exact (Hp k ltac:(lia) E).
Qed.

Lemma table_step_inv (len k : nat) (t : list Z) :
  (2 <= k < len)%nat -> Z.of_nat len <= KOALA_BEAR_ORDER ->
  table_inv len k t -> table_inv len (S k) (table_step t k).
Proof.
  intros Hk Hlen [Hl Ht]. unfold table_step. cbv zeta.
  pose proof (order_mod_pos (Z.of_nat k) ltac:(lia)) as Hm.
  destruct (Ht (Z.to_nat (KOALA_BEAR_ORDER mod Z.of_nat k)) ltac:(lia)) as [_ Hi].
  rewrite Z2Nat.id in Hi by lia.
  set (i := nth (Z.to_nat (KOALA_BEAR_ORDER mod Z.of_nat k)) t 0) in *.
  pose proof (inverse_recurrence (Z.of_nat k) i ltac:(lia) Hi) as Hr.
  set (e := (KOALA_BEAR_ORDER - KOALA_BEAR_ORDER / Z.of_nat k) * i mod KOALA_BEAR_ORDER) in *.
  assert (Be : 0 <= e < KOALA_BEAR_ORDER) by apply (Z.mod_pos_bound _ _ p_pos).
  clearbody e. unfold as_u32. rewrite as_unsigned_id by (unfold KOALA_BEAR_ORDER in Be; lia).
  split; [rewrite set_nth_length; assumption|]. intros j Hj.
  rewrite nth_set_nth by lia. destruct (Nat.eqb_spec j k) as [-> | Hjk]; [split; assumption|].
  apply Ht. lia.
Qed.

Lemma inverse_table_inv (len : nat) :
  (2 <= len)%nat -> Z.of_nat len <= KOALA_BEAR_ORDER -> table_inv len len (inverse_table len).
Proof.
  intros Hlen Hp. unfold inverse_table.
  assert (H0 : table_inv len 2 (set_nth (repeat 0 len) 1 1)).
  { split; [rewrite set_nth_length; apply repeat_length|]. intros k Hk. replace k with 1%nat by lia.
    rewrite nth_set_nth by (rewrite repeat_length; lia). cbn [Nat.eqb].
    split; [unfold KOALA_BEAR_ORDER; lia | reflexivity]. }
  assert (G : forall n s t, table_inv len s t -> (2 <= s)%nat -> (s + n <= len)%nat ->
                            table_inv len (s + n) (fold_left table_step (seq s n) t)).
  { induction n as [|n IH]; intros s t Ht Hs Hn; cbn [seq fold_left]; [rewrite Nat.add_0_r; assumption|].
    replace (s + S n)%nat with (S s + n)%nat by lia.
    apply IH; [apply table_step_inv; [lia | assumption | assumption] | lia | lia]. }
  specialize (G (len - 2)%nat 2%nat _ H0 ltac:(lia) ltac:(lia)).
  replace (2 + (len - 2))%nat with len in G by lia. exact G.
Qed.

Lemma small_inverse_table_inv :
  table_inv SMALL_INVERSE_TABLE_LEN SMALL_INVERSE_TABLE_LEN (small_inverse_table tt).
Proof.
  apply inverse_table_inv; unfold SMALL_INVERSE_TABLE_LEN; [lia|].
  rewrite Z2Nat.id by lia. unfold KOALA_BEAR_ORDER. lia.
Qed.

(** ** The lookups *)

Lemma field_inverse_spec (k : Z) : 0 < k < KOALA_BEAR_ORDER -> field_inverse (Fof k) = Ok (Finv (Fof k)).
Proof. intros Hk. unfold field_inverse. rewrite Feqb_neq by (apply Fof_neq_0; assumption). reflexivity. Qed.

Lemma Finv_unique (x y : F) : (y * x)%F = F1 -> y = Finv x.
Proof.
  intros E. assert (Hx : x <> F0) by (intros ->; apply F1_neq_0; rewrite <- E; ring).
  transitivity (y * (Finv x * x))%F; [rewrite Finv_l by assumption; ring|].
  transitivity ((y * x) * Finv x)%F; [ring|]. rewrite E. ring.
Qed.

Lemma small_int_inverse_in_spec (table : list Z) (k : Z) :
  0 < k < KOALA_BEAR_ORDER -> small_int_inverse_in table k = Ok (Finv (Fof k)).
Proof.
  intros Hk. unfold small_int_inverse_in.
  destruct (nth_error table (Z.to_nat k)) as [e|]; [|apply field_inverse_spec; assumption].
  destruct (Feqb (Fof e * Fof k)%F F1) eqn:E; [|apply field_inverse_spec; assumption].
  f_equal. apply Finv_unique, Feqb_eq. assumption.
Qed.

Lemma u16_difference_inverse_spec (b c : Z) :
  is_u16 b -> is_u16 c -> b <> c -> u16_difference_inverse b c = Ok (Finv (Fof b - Fof c)%F).
Proof.
  unfold is_u. intros Hb Hc Hne. unfold u16_difference_inverse, small_int_inverse.
  destruct (Z.leb_spec c b).
  - rewrite small_int_inverse_in_spec by (unfold KOALA_BEAR_ORDER; lia). rewrite Fof_sub. reflexivity.
  - rewrite small_int_inverse_in_spec by (unfold KOALA_BEAR_ORDER; lia). cbn [bind]. f_equal.
    apply Finv_unique.
    assert (Hn : Fof (c - b) <> F0) by (apply Fof_neq_0; unfold KOALA_BEAR_ORDER; lia).
    rewrite <- (Finv_l _ Hn), <- Fof_sub. ring.
Qed.

Lemma small_int_inverse_0 : small_int_inverse 0 = Panic.
Proof.
  unfold small_int_inverse, small_int_inverse_in. replace (Fof 0) with F0 by reflexivity.
  destruct (nth_error _ _) as [e|]; [|reflexivity].
  rewrite Feqb_neq; [reflexivity|]. replace (Fof e * F0)%F with F0 by ring. intros E. symmetry in E. revert E. apply F1_neq_0.
Qed.

Lemma small_inverse_table_spec (k : Z) :
  1 <= k < 2 ^ 17 -> (nth (Z.to_nat k) (small_inverse_table tt) 0 * k) mod KOALA_BEAR_ORDER = 1.
Proof.
  intros Hk. destruct small_inverse_table_inv as [_ H]. unfold SMALL_INVERSE_TABLE_LEN in H.
  destruct (H (Z.to_nat k) ltac:(lia)) as [_ E]. rewrite Z2Nat.id in E by lia. exact E.
Qed.
