(* ===== verification/Operations.v ===== *)
(** * Operation gadgets: addition, subtraction, comparison

    One module per gadget of [crates/core/machine/src/operations]: its columns,
    [populate] (the columns the prover fills in, and the byte events it
    records), [eval] (the constraints on the columns), and the two theorems
    that make the gadget correct.  Soundness: columns that satisfy [eval] hold
    the value the operation computes.  Completeness: the populated columns
    satisfy [eval], and the byte lookups [eval] makes are exactly the events
    [populate] records. *)

From Stdlib Require Import ZArith Lia List Bool.
From S2P Require Import Prelude Words Isa Field Air AirFacts.
Import ListNotations.
Open Scope Z_scope.

Definition base16 : F := Fof (2 ^ 16).

(** ** Carry chains

    The loop of the addition and subtraction gadgets: each limb's carry is
    [(sum_i - value_i + carry) / 2^16], asserted boolean. *)
Fixpoint carry_chain (carry : F) (l : list (F * F)) : list Emit :=
  match l with
  | [] => []
  | (s, v) :: rest =>
      let carry := ((s - v + carry) * Finv base16)%F in
      assert_bool carry ++ carry_chain carry rest
  end.

Definition chain_rep (p : F * F) (q : Z * Z) : Prop :=
  fst p = Fof (fst q) /\ snd p = Fof (snd q) /\
  0 <= fst q <= 2 ^ 17 - 2 /\ 0 <= snd q < 2 ^ 16.

Lemma base16_neq_0 : base16 <> F0.
Proof. apply Fof_neq_0. unfold KOALA_BEAR_ORDER. lia. Qed.

(** One step: the carry is boolean exactly when the limb is right for some
    carry out. *)
Lemma carry_step (z v c : Z) :
  0 <= z <= 2 ^ 17 - 2 -> 0 <= v < 2 ^ 16 -> c = 0 \/ c = 1 ->
  is_bool ((Fof z - Fof v + Fof c) * Finv base16)%F <->
  exists c', (c' = 0 \/ c' = 1) /\ ((Fof z - Fof v + Fof c) * Finv base16)%F = Fof c'
             /\ z + c = v + 2 ^ 16 * c'.
Proof.
  intros Hz Hv Hc. split.
  - intros Hb.
    assert (E : exists c', (c' = 0 \/ c' = 1) /\ ((Fof z - Fof v + Fof c) * Finv base16)%F = Fof c')
      by (destruct Hb as [E | E]; rewrite E; [exists 0 | exists 1]; split; auto).
    destruct E as (c' & Hc' & E). exists c'. split; [assumption|]. split; [assumption|].
    apply Fmul_inv_eq in E; [|apply base16_neq_0]. unfold base16 in E. to_Z E. lia.
  - intros (c' & Hc' & E & _). rewrite E. destruct Hc' as [-> | ->]; [left | right]; reflexivity.
Qed.

(** The chain holds exactly when the limbs of the values are those of the sum,
    up to a multiple of the base to the number of limbs. *)
Lemma carry_chain_iff (l : list (F * F)) (q : list (Z * Z)) (c : Z) :
  Forall2 chain_rep l q -> c = 0 \/ c = 1 ->
  sats (carry_chain (Fof c) l) <->
  exists k, le_value 16 (map fst q) + c
            = le_value 16 (map snd q) + 2 ^ (16 * Z.of_nat (length q)) * k.
Proof.
  intros H. revert c. induction H as [|[s v'] [z v] l q (Hs & Hv & Bz & Bv) _ IH]; intros c Hc.
  { cbn [carry_chain sats map length le_value]. change (2 ^ (16 * Z.of_nat 0)) with 1.
    split; [exists c; lia | tauto]. }
  cbn in Hs, Hv, Bz, Bv. subst. cbn [carry_chain map length le_value fst snd].
  rewrite sats_app. cbn [assert_bool sats sat guards_on holds].
  replace (16 * Z.of_nat (S (length q))) with (16 + 16 * Z.of_nat (length q)) by lia.
  rewrite pow2_split by lia. set (Bn := 2 ^ (16 * Z.of_nat (length q))) in *.
  set (A := le_value 16 (map fst q)) in *. set (B := le_value 16 (map snd q)) in *.
  split.
  - intros [[Hb _] Hrest]. specialize (Hb I).
    apply carry_step in Hb as (c' & Hc' & E & Eq); [|lia..]. rewrite E in Hrest.
    apply (IH c' Hc') in Hrest as [k Hk]. exists k. nia.
  - intros [k Hk].
    assert (Hc1 : exists c', (c' = 0 \/ c' = 1) /\ z + c = v + 2 ^ 16 * c').
    { exists ((z + c - v) / 2 ^ 16).
      assert (Hd : z + c - v = 2 ^ 16 * (B + Bn * k - A)) by lia.
      rewrite Hd, Z.mul_comm, Z.div_mul by lia. split; [|lia]. nia. }
    destruct Hc1 as (c' & Hc' & Eq).
    assert (E : ((Fof z - Fof v + Fof c) * Finv base16)%F = Fof c').
    { apply Finv_mul_solve; [apply base16_neq_0|]. unfold base16. F_fold. f_equal. lia. }
    rewrite E. split; [split; [intros _; destruct Hc' as [-> | ->]; [left | right]; reflexivity | exact I] |].
    apply (IH c' Hc'). exists k. nia.
Qed.

Lemma byte_lookups_chain (c : F) (l : list (F * F)) : byte_lookups (carry_chain c l) = [].
Proof. revert c. induction l as [|[s v] l IH]; intros c; [reflexivity|]. cbn. apply IH. Qed.

(** The lists of limb pairs the gadgets feed to a chain. *)
Definition add_limbs (a b v : list F) : list (F * F) :=
  map (fun p => (fst (fst p) + snd (fst p), snd p)%F) (combine (combine a b) v).
Definition sub_limbs (a b v : list F) : list (F * F) :=
  map (fun p => (fst (fst p) + base16 - F1 - snd (fst p), snd p)%F) (combine (combine a b) v).

(** ** [AddOperation] ([operations/add.rs]) *)
Module AddOperation.
Record Cols : Type := mkCols { value : Word F }.

Definition populate (a_u64 b_u64 : Z) : Cols * list ByteLookupEvent * Z :=
  let expected := wrapping_add a_u64 b_u64 in
  (mkCols (word_from_u64 expected), add_u16_range_checks (u64_to_u16_limbs expected), expected).

Definition eval (a b : Word F) (cols : Cols) (is_real : F) : list Emit :=
  assert_bool is_real ++
  when is_real
    (carry_chain F0 (add_limbs (word_list a) (word_list b) (word_list (value cols)))) ++
  slice_range_check_u16 (word_list (value cols)) is_real.
End AddOperation.

(** ** [SubOperation] ([operations/sub.rs]) *)
Module SubOperation.
Record Cols : Type := mkCols { value : Word F }.

Definition populate (a_u64 b_u64 : Z) : Cols * list ByteLookupEvent * Z :=
  let expected := wrapping_sub a_u64 b_u64 in
  (mkCols (word_from_u64 expected), add_u16_range_checks (u64_to_u16_limbs expected), expected).

Definition eval (a b : Word F) (cols : Cols) (is_real : F) : list Emit :=
  assert_bool is_real ++
  when is_real
    (carry_chain F1 (sub_limbs (word_list a) (word_list b) (word_list (value cols)))) ++
  slice_range_check_u16 (word_list (value cols)) is_real.
End SubOperation.

(** ** Correctness of the 64-bit chains *)

Lemma le_value_word (w : Word F) : le_value 16 (map Fval (word_list w)) = word_val w.
Proof. destruct w as [x y z t]. unfold word_val. cbn [word_list map le_value limb0 limb1 limb2 limb3]. lia. Qed.

Lemma Forall_word (P : F -> Prop) (w : Word F) :
  Forall P (word_list w) <-> P (limb0 w) /\ P (limb1 w) /\ P (limb2 w) /\ P (limb3 w).
Proof.
  unfold word_list. split; [intros H; repeat (apply Forall_cons_iff in H as [? H]); auto|].
  intros (? & ? & ? & ?). repeat constructor; assumption.
Qed.

Lemma valid_word_Forall (w : Word F) : valid_word w <-> Forall is_u16F (word_list w).
Proof. rewrite Forall_word. reflexivity. Qed.

(** The integers of the limb pairs of an addition, and of a subtraction. *)
Definition add_limbsZ (a b v : list F) : list (Z * Z) :=
  map (fun p => (Fval (fst (fst p)) + Fval (snd (fst p)), Fval (snd p))) (combine (combine a b) v).
Definition sub_limbsZ (a b v : list F) : list (Z * Z) :=
  map (fun p => (Fval (fst (fst p)) + 2 ^ 16 - 1 - Fval (snd (fst p)), Fval (snd p)))
      (combine (combine a b) v).

Ltac chain_rep_tac :=
  repeat split; cbn [fst snd];
  [apply (Rep_eq _ _ eq_refl) | apply (Rep_eq _ _ eq_refl) | F_lia | F_lia | F_lia | F_lia].

Lemma add_limbs_rep (a b v : list F) :
  Forall is_u16F a -> Forall is_u16F b -> Forall is_u16F v ->
  Forall2 chain_rep (add_limbs a b v) (add_limbsZ a b v).
Proof.
  intros Ha. revert b v. induction Ha as [|x a Hx _ IH]; intros [|y b] [|z v] Hb Hv;
    try (constructor; fail). inversion Hb; inversion Hv; subst. constructor; [|apply IH; assumption].
  chain_rep_tac.
Qed.

Lemma sub_limbs_rep (a b v : list F) :
  Forall is_u16F a -> Forall is_u16F b -> Forall is_u16F v ->
  Forall2 chain_rep (sub_limbs a b v) (sub_limbsZ a b v).
Proof.
  intros Ha. revert b v. induction Ha as [|x a Hx _ IH]; intros [|y b] [|z v] Hb Hv;
    try (constructor; fail). inversion Hb; inversion Hv; subst. constructor; [|apply IH; assumption].
  unfold base16. chain_rep_tac.
Qed.

Lemma add_chain_iff (a b v : Word F) :
  valid_word a -> valid_word b -> valid_word v ->
  sats (carry_chain F0 (add_limbs (word_list a) (word_list b) (word_list v))) <->
  word_val v = wrapping_add (word_val a) (word_val b).
Proof.
  intros Ha Hb Hv.
  rewrite F0_of, carry_chain_iff by (apply add_limbs_rep + auto; apply valid_word_Forall; assumption).
  pose proof (word_val_bound v Hv) as Bv. unfold is_u in Bv.
  assert (E1 : le_value 16 (map fst (add_limbsZ (word_list a) (word_list b) (word_list v)))
               = word_val a + word_val b)
    by (unfold word_val; cbn [word_list combine add_limbsZ map fst snd le_value]; lia).
  assert (E2 : le_value 16 (map snd (add_limbsZ (word_list a) (word_list b) (word_list v))) = word_val v)
    by apply le_value_word.
  rewrite E1, E2. change (2 ^ (16 * Z.of_nat _)) with (2 ^ 64). unfold wrapping_add, as_u64, as_unsigned.
  split.
  - intros [k Hk]. symmetry. apply mod_small_eq; [lia | lia | exists k; lia].
  - intros ->. exists ((word_val a + word_val b) / 2 ^ 64).
    pose proof (Z_div_mod_eq_full (word_val a + word_val b) (2 ^ 64)). lia.
Qed.

Lemma sub_chain_iff (a b v : Word F) :
  valid_word a -> valid_word b -> valid_word v ->
  sats (carry_chain F1 (sub_limbs (word_list a) (word_list b) (word_list v))) <->
  word_val v = wrapping_sub (word_val a) (word_val b).
Proof.
  intros Ha Hb Hv.
  rewrite F1_of, carry_chain_iff by (apply sub_limbs_rep + auto; apply valid_word_Forall; assumption).
  pose proof (word_val_bound v Hv) as Bv. unfold is_u in Bv.
  assert (E1 : le_value 16 (map fst (sub_limbsZ (word_list a) (word_list b) (word_list v)))
               = word_val a + (2 ^ 64 - 1) - word_val b)
    by (unfold word_val; cbn [word_list combine sub_limbsZ map fst snd le_value]; lia).
  assert (E2 : le_value 16 (map snd (sub_limbsZ (word_list a) (word_list b) (word_list v))) = word_val v)
    by apply le_value_word.
  rewrite E1, E2. change (2 ^ (16 * Z.of_nat _)) with (2 ^ 64). unfold wrapping_sub, as_u64, as_unsigned.
  split.
  - intros [k Hk]. symmetry. apply mod_small_eq; [lia | lia | exists (k - 1); lia].
  - intros ->. exists ((word_val a - word_val b) / 2 ^ 64 + 1).
    pose proof (Z_div_mod_eq_full (word_val a - word_val b) (2 ^ 64)). lia.
Qed.

Lemma word_list_from_u64 (x : Z) : word_list (word_from_u64 x) = map Fof (u64_to_u16_limbs x).
Proof. rewrite word_from_u64_limbs, u64_to_u16_limbs_eq. reflexivity. Qed.

Lemma complete_word_range16 (x : Z) :
  complete (slice_range_check_u16 (word_list (word_from_u64 x)) F1)
           (add_u16_range_checks (u64_to_u16_limbs x)).
Proof.
  rewrite word_list_from_u64. apply complete_range16. rewrite u64_to_u16_limbs_eq.
  repeat constructor; apply limb16_bound.
Qed.

Lemma add_sound (a b : Word F) (cols : AddOperation.Cols) :
  valid_word a -> valid_word b -> sats (AddOperation.eval a b cols F1) ->
  valid_word (AddOperation.value cols) /\
  word_val (AddOperation.value cols) = wrapping_add (word_val a) (word_val b).
Proof.
  intros Ha Hb H. unfold AddOperation.eval in H. rewrite !sats_app, sats_when_1, sats_range16 in H
    by apply F1_neq_0. destruct H as (_ & H & Hv). apply valid_word_Forall in Hv.
  split; [assumption|]. apply add_chain_iff; assumption.
Qed.

Lemma add_complete (a b : Z) :
  is_u64 a -> is_u64 b ->
  let '(cols, events, result) := AddOperation.populate a b in
  complete (AddOperation.eval (word_from_u64 a) (word_from_u64 b) cols F1) events.
Proof.
  intros Ha Hb. cbv beta iota zeta delta [AddOperation.populate AddOperation.eval].
  cbn [AddOperation.value]. apply complete_asserts_app; [apply complete_bool; right; reflexivity|].
  apply complete_asserts_app; [|apply complete_word_range16]. apply complete_when_1.
  apply complete_asserts; [|apply byte_lookups_chain]. apply add_chain_iff; try apply valid_word_from.
  rewrite !word_val_from by (apply wrapping_add_bound || assumption). reflexivity.
Qed.

Lemma sub_sound (a b : Word F) (cols : SubOperation.Cols) :
  valid_word a -> valid_word b -> sats (SubOperation.eval a b cols F1) ->
  valid_word (SubOperation.value cols) /\
  word_val (SubOperation.value cols) = wrapping_sub (word_val a) (word_val b).
Proof.
  intros Ha Hb H. unfold SubOperation.eval in H. rewrite !sats_app, sats_when_1, sats_range16 in H
    by apply F1_neq_0. destruct H as (_ & H & Hv). apply valid_word_Forall in Hv.
  split; [assumption|]. apply sub_chain_iff; assumption.
Qed.

Lemma sub_complete (a b : Z) :
  is_u64 a -> is_u64 b ->
  let '(cols, events, result) := SubOperation.populate a b in
  complete (SubOperation.eval (word_from_u64 a) (word_from_u64 b) cols F1) events.
Proof.
  intros Ha Hb. cbv beta iota zeta delta [SubOperation.populate SubOperation.eval].
  cbn [SubOperation.value]. apply complete_asserts_app; [apply complete_bool; right; reflexivity|].
  apply complete_asserts_app; [|apply complete_word_range16]. apply complete_when_1.
  apply complete_asserts; [|apply byte_lookups_chain]. apply sub_chain_iff; try apply valid_word_from.
  rewrite !word_val_from by (apply wrapping_sub_bound || assumption). reflexivity.
Qed.

(** ** [U16MSBOperation] ([operations/msb.rs]) *)
Module U16MSBOperation.
Record Cols : Type := mkCols { msb : F }.

Definition populate_msb (a_u16 : Z) : Cols * list ByteLookupEvent * Z :=
  let msb := Z.land (shr a_u16 15) 1 in
  let diff := as_u16 (a_u16 * 2) in
  (mkCols (Fof msb), [mkByteLookupEvent BRange diff 16 0], msb).

Definition eval_msb (a : F) (cols : Cols) (is_real : F) : list Emit :=
  assert_bool is_real ++
  assert_bool (msb cols) ++
  let diff := (Fof 2 * a - msb cols * Fof (2 ^ 16))%F in
  send_byte (byte_op BRange) diff (Fof 16) F0 is_real.
End U16MSBOperation.

(** ** [U16CompareOperation] ([operations/u16_compare.rs]) *)
Module U16CompareOperation.
Record Cols : Type := mkCols { bit : F }.

Definition populate (a_u16 b_u16 c_u16 : Z) : Cols * list ByteLookupEvent :=
  let diff := as_u16 (b_u16 - c_u16) in
  (mkCols (Fof a_u16), [mkByteLookupEvent BRange diff 16 0]).

Definition eval_compare_u16 (a b : F) (cols : Cols) (is_real : F) : list Emit :=
  assert_bool is_real ++
  assert_bool (bit cols) ++
  let diff := (a - b + bit cols * Fof (2 ^ 16))%F in
  send_byte (byte_op BRange) diff (Fof 16) F0 is_real.
End U16CompareOperation.

(** ** [AddwOperation] ([operations/addw.rs]) *)
Module AddwOperation.
Record Cols : Type := mkCols { value0 : F; value1 : F; msb : U16MSBOperation.Cols }.

Definition populate (a_u64 b_u64 : Z) : Cols * list ByteLookupEvent :=
  let value := as_u32 (as_u32 a_u64 + as_u32 b_u64) in
  let limbs := u32_to_u16_limbs value in
  let '(m, ev, _) := U16MSBOperation.populate_msb (nth 1 limbs 0) in
  (mkCols (Fof (nth 0 limbs 0)) (Fof (nth 1 limbs 0)) m, add_u16_range_checks limbs ++ ev).

Definition eval (a b : Word F) (cols : Cols) (is_real : F) : list Emit :=
  let value := [value0 cols; value1 cols] in
  assert_bool is_real ++
  when is_real (carry_chain F0 (add_limbs [limb0 a; limb1 a] [limb0 b; limb1 b] value)) ++
  slice_range_check_u16 value is_real ++
  U16MSBOperation.eval_msb (value1 cols) (msb cols) is_real.
End AddwOperation.

(** ** [SubwOperation] ([operations/subw.rs]) *)
Module SubwOperation.
Record Cols : Type := mkCols { value0 : F; value1 : F; msb : U16MSBOperation.Cols }.

Definition populate (a_u64 b_u64 : Z) : Cols * list ByteLookupEvent :=
  let value := as_u64 (as_i32 (as_i32 a_u64 - as_i32 b_u64)) in
  let limbs := u64_to_u16_limbs value in
  let '(m, ev, _) := U16MSBOperation.populate_msb (nth 1 limbs 0) in
  (mkCols (Fof (nth 0 limbs 0)) (Fof (nth 1 limbs 0)) m,
   add_u16_range_checks (firstn 2 limbs) ++ ev).

Definition eval (a b : Word F) (cols : Cols) (is_real : F) : list Emit :=
  let value := [value0 cols; value1 cols] in
  assert_bool is_real ++
  when is_real (carry_chain F1 (sub_limbs [limb0 a; limb1 a] [limb0 b; limb1 b] value)) ++
  slice_range_check_u16 value is_real ++
  U16MSBOperation.eval_msb (value1 cols) (msb cols) is_real.
End SubwOperation.

(** ** Correctness of the single-limb gadgets *)

Lemma msb_sound (a : F) (cols : U16MSBOperation.Cols) :
  is_u16F a -> sats (U16MSBOperation.eval_msb a cols F1) ->
  U16MSBOperation.msb cols = Fof (if Fval a <? 2 ^ 15 then 0 else 1).
Proof.
  destruct cols as [m]. unfold U16MSBOperation.eval_msb. cbn [U16MSBOperation.msb].
  intros Ha (_ & Hb & H & _). specialize (Hb I). specialize (H F1_neq_0). cbn [holds values] in Hb, H.
  apply lookup_range16 in H. unfold is_u16F in *. pose proof (Fval_bound a).
  destruct Hb as [-> | ->].
  - rewrite (Fval_rep _ (a := 2 * Fval a - 0 * 2 ^ 16)) in H by F_lia.
    destruct (Z.ltb_spec (Fval a) (2 ^ 15)); [reflexivity | lia].
  - destruct (Z.ltb_spec (Fval a) (2 ^ 15)); [exfalso | reflexivity].
    assert (E : (Fof 2 * a - F1 * Fof (2 ^ 16))%F = Fof (2 * Fval a - 1 * 2 ^ 16)) by apply rep.
    rewrite E, Fval_of in H.
    replace (2 * Fval a - 1 * 2 ^ 16)
      with ((2 * Fval a - 2 ^ 16 + KOALA_BEAR_ORDER) + (-1) * KOALA_BEAR_ORDER) in H by lia.
    rewrite Z_mod_plus_full, Z.mod_small in H by F_lia. F_lia.
Qed.

Lemma msb_complete (a : Z) :
  is_u16 a ->
  let '(cols, events, _) := U16MSBOperation.populate_msb a in
  complete (U16MSBOperation.eval_msb (Fof a) cols F1) events /\
  U16MSBOperation.msb cols = Fof (if a <? 2 ^ 15 then 0 else 1).
Proof.
  unfold is_u. intros Ha. unfold U16MSBOperation.populate_msb, U16MSBOperation.eval_msb.
  cbn [U16MSBOperation.msb].
  assert (E : Z.land (shr a 15) 1 = if a <? 2 ^ 15 then 0 else 1).
  { change 1 with (2 ^ 1 - 1) at 1. rewrite land_mask by lia. unfold shr.
    rewrite Z.shiftr_div_pow2 by lia. destruct (Z.ltb_spec a (2 ^ 15)); dlia. }
  rewrite E. split; [|reflexivity].
  apply complete_asserts_app; [apply complete_bool; right; reflexivity|].
  apply complete_asserts_app;
    [apply complete_bool; destruct (a <? 2 ^ 15); [left | right]; reflexivity|].
  apply complete_range; [|lia|apply as_unsigned_bound; lia].
  F_fold. f_equal. unfold as_u16, as_unsigned. destruct (Z.ltb_spec a (2 ^ 15)); dlia.
Qed.

Lemma compare_sound (a b : F) (cols : U16CompareOperation.Cols) :
  is_u16F a -> is_u16F b -> sats (U16CompareOperation.eval_compare_u16 a b cols F1) ->
  U16CompareOperation.bit cols = Fof_bool (Fval a <? Fval b).
Proof.
  destruct cols as [m]. unfold U16CompareOperation.eval_compare_u16. cbn [U16CompareOperation.bit].
  intros Ha Hb' (_ & Hb & H & _). specialize (Hb I). specialize (H F1_neq_0). cbn [holds values] in Hb, H.
  apply lookup_range16 in H. unfold is_u16F in *. pose proof (Fval_bound a). pose proof (Fval_bound b).
  destruct Hb as [-> | ->].
  - destruct (Z.ltb_spec (Fval a) (Fval b)); [exfalso | reflexivity].
    assert (E : (a - b + F0 * Fof (2 ^ 16))%F = Fof (Fval a - Fval b + 0 * 2 ^ 16)) by apply rep.
    rewrite E, Fval_of in H.
    replace (Fval a - Fval b + 0 * 2 ^ 16)
      with ((Fval a - Fval b + KOALA_BEAR_ORDER) + (-1) * KOALA_BEAR_ORDER) in H by lia.
    rewrite Z_mod_plus_full, Z.mod_small in H by F_lia. F_lia.
  - rewrite (Fval_rep _ (a := Fval a - Fval b + 1 * 2 ^ 16)) in H by F_lia.
    destruct (Z.ltb_spec (Fval a) (Fval b)); [reflexivity | lia].
Qed.

Lemma compare_complete (b c : Z) :
  is_u16 b -> is_u16 c ->
  let '(cols, events) := U16CompareOperation.populate (if b <? c then 1 else 0) b c in
  complete (U16CompareOperation.eval_compare_u16 (Fof b) (Fof c) cols F1) events.
Proof.
  unfold is_u. intros Hb Hc. unfold U16CompareOperation.populate, U16CompareOperation.eval_compare_u16.
  cbn [U16CompareOperation.bit].
  apply complete_asserts_app; [apply complete_bool; right; reflexivity|].
  apply complete_asserts_app;
    [apply complete_bool; destruct (b <? c); [right | left]; reflexivity|].
  apply complete_range; [|lia|apply as_unsigned_bound; lia].
  F_fold. f_equal. unfold as_u16, as_unsigned. destruct (Z.ltb_spec b c); dlia.
Qed.

(** ** Correctness of the 32-bit gadgets *)

Definition half_val (v0 v1 : F) : Z := Fval v0 + 2 ^ 16 * Fval v1.

Lemma word_val_mod32 (w : Word F) : valid_word w -> word_val w mod 2 ^ 32 = half_val (limb0 w) (limb1 w).
Proof.
  unfold valid_word, word_val, half_val. intros. split_hyps.
  apply mod_small_eq; [lia | F_lia |].
  exists (Fval (limb2 w) + 2 ^ 16 * Fval (limb3 w)). lia.
Qed.

Lemma half_val_bound (v0 v1 : F) : is_u16F v0 -> is_u16F v1 -> is_u32 (half_val v0 v1).
Proof. unfold half_val, is_u. intros. F_lia. Qed.

(** The low half of a 64-bit result of which only the low 32 bits are read. *)
Lemma half_chain_iff (c : Z) (q : list (Z * Z)) (l : list (F * F)) (v0 v1 : F) :
  Forall2 chain_rep l q -> c = 0 \/ c = 1 -> length q = 2%nat ->
  map snd q = [Fval v0; Fval v1] -> is_u16F v0 -> is_u16F v1 ->
  sats (carry_chain (Fof c) l) <->
  half_val v0 v1 = (le_value 16 (map fst q) + c) mod 2 ^ 32.
Proof.
  intros Hl Hc Hlen Hq H0 H1. rewrite carry_chain_iff, Hlen, Hq by eassumption.
  replace (le_value 16 [Fval v0; Fval v1]) with (half_val v0 v1)
    by (unfold half_val; cbn [le_value]; lia).
  change (2 ^ (16 * Z.of_nat 2)) with (2 ^ 32).
  pose proof (half_val_bound v0 v1 H0 H1) as B. unfold is_u in B. split.
  - intros [k Hk]. symmetry. apply mod_small_eq; [lia | lia | exists k; lia].
  - intros ->. exists ((le_value 16 (map fst q) + c) / 2 ^ 32).
    pose proof (Z_div_mod_eq_full (le_value 16 (map fst q) + c) (2 ^ 32)). lia.
Qed.

(** The word [(v0, v1, m * 0xFFFF, m * 0xFFFF)] is the sign extension of the
    half word when [m] is its top bit. *)
Definition sign_extend_half (v0 v1 m : F) : Word F :=
  mkWord v0 v1 (m * Fof 65535)%F (m * Fof 65535)%F.

Lemma sign_extend_half_spec (v0 v1 : F) :
  is_u16F v0 -> is_u16F v1 ->
  let w := sign_extend_half v0 v1 (Fof (if Fval v1 <? 2 ^ 15 then 0 else 1)) in
  valid_word w /\ word_val w = as_u64 (as_i32 (half_val v0 v1)).
Proof.
  intros H0 H1. cbn zeta. unfold sign_extend_half, as_i32, as_u64, as_unsigned.
  rewrite as_signed_small by (apply half_val_bound; assumption).
  unfold valid_word, word_val, half_val. cbn [limb0 limb1 limb2 limb3].
  destruct (Z.ltb_spec (Fval v1) (2 ^ 15)).
  - rewrite (Fval_rep (Fof 0 * Fof 65535)%F (a := 0 * 65535)) by (unfold KOALA_BEAR_ORDER; lia).
    destruct (Z.ltb_spec (Fval v0 + 2 ^ 16 * Fval v1) (2 ^ (32 - 1))); [|F_lia].
    rewrite Z.mod_small by F_lia. repeat split; try assumption; [..|lia];
      unfold is_u16F; rewrite (Fval_rep _ (a := 0 * 65535)) by (unfold KOALA_BEAR_ORDER; lia); lia.
  - rewrite (Fval_rep (Fof 1 * Fof 65535)%F (a := 1 * 65535)) by (unfold KOALA_BEAR_ORDER; lia).
    destruct (Z.ltb_spec (Fval v0 + 2 ^ 16 * Fval v1) (2 ^ (32 - 1))); [F_lia|].
    repeat split; try assumption; try (unfold is_u16F;
      rewrite (Fval_rep _ (a := 1 * 65535)) by (unfold KOALA_BEAR_ORDER; lia); lia).
    symmetry. apply mod_small_eq; [lia | F_lia | exists (-1); lia].
Qed.

Lemma addw_sound (a b : Word F) (cols : AddwOperation.Cols) :
  valid_word a -> valid_word b -> sats (AddwOperation.eval a b cols F1) ->
  let w := sign_extend_half (AddwOperation.value0 cols) (AddwOperation.value1 cols)
             (U16MSBOperation.msb (AddwOperation.msb cols)) in
  valid_word w /\ word_val w = as_u64 (as_i32 (as_i32 (word_val a) + as_i32 (word_val b))).
Proof.
  intros Ha Hb H. unfold AddwOperation.eval in H.
  rewrite !sats_app, sats_when_1, sats_range16 in H by apply F1_neq_0.
  destruct H as (_ & H & Hv & Hm). apply Forall_cons_iff in Hv as [H0 Hv].
  apply Forall_cons_iff in Hv as [H1 _]. apply msb_sound in Hm; [|assumption].
  rewrite F0_of, half_chain_iff in H
    by (try apply add_limbs_rep; try reflexivity; try (left; reflexivity); try assumption;
        repeat constructor; try apply Ha; try apply Hb; assumption).
  cbn [add_limbsZ combine map fst snd le_value] in H.
  cbn zeta. rewrite Hm.
  destruct (sign_extend_half_spec _ _ H0 H1) as [Hw Ew]. split; [exact Hw|]. rewrite Ew.
  f_equal. rewrite H. unfold as_i32. rewrite as_signed_mod.
  pose proof (word_val_mod32 a Ha) as Ma. pose proof (word_val_mod32 b Hb) as Mb. unfold half_val in *.
  apply as_signed_eq; [lia | apply as_signed_bound; lia|].
  rewrite as_signed_cong by lia. rewrite (Zplus_mod (as_signed 32 _)), !as_signed_cong, Ma, Mb by lia.
  f_equal. lia.
Qed.

Lemma subw_sound (a b : Word F) (cols : SubwOperation.Cols) :
  valid_word a -> valid_word b -> sats (SubwOperation.eval a b cols F1) ->
  let w := sign_extend_half (SubwOperation.value0 cols) (SubwOperation.value1 cols)
             (U16MSBOperation.msb (SubwOperation.msb cols)) in
  valid_word w /\ word_val w = as_u64 (as_i32 (as_i32 (word_val a) - as_i32 (word_val b))).
Proof.
  intros Ha Hb H. unfold SubwOperation.eval in H.
  rewrite !sats_app, sats_when_1, sats_range16 in H by apply F1_neq_0.
  destruct H as (_ & H & Hv & Hm). apply Forall_cons_iff in Hv as [H0 Hv].
  apply Forall_cons_iff in Hv as [H1 _]. apply msb_sound in Hm; [|assumption].
  rewrite F1_of, half_chain_iff in H
    by (try apply sub_limbs_rep; try reflexivity; try (right; reflexivity); try assumption;
        repeat constructor; try apply Ha; try apply Hb; assumption).
  cbn [sub_limbsZ combine map fst snd le_value] in H.
  cbn zeta. rewrite Hm.
  destruct (sign_extend_half_spec _ _ H0 H1) as [Hw Ew]. split; [exact Hw|]. rewrite Ew.
  f_equal. rewrite H. unfold as_i32. rewrite as_signed_mod.
  pose proof (word_val_mod32 a Ha) as Ma. pose proof (word_val_mod32 b Hb) as Mb. unfold half_val in *.
  apply as_signed_eq; [lia | apply as_signed_bound; lia|].
  rewrite as_signed_cong by lia. rewrite (Zminus_mod (as_signed 32 _)), !as_signed_cong, Ma, Mb by lia.
  match goal with |- ?x mod _ = ?y mod _ => replace x with (y + 1 * 2 ^ 32) by lia end.
  apply Z_mod_plus_full.
Qed.

Lemma is_u16F_limb (x i : Z) : is_u16F (Fof (limb16 x i)).
Proof. unfold is_u16F. rewrite Fval_limb16. apply limb16_bound. Qed.

(** The part the two 32-bit gadgets share: with the limbs of the result in the
    value columns, the range checks and the sign bit are complete. *)
Lemma half_complete (x : Z) :
  let '(m, ev, _) := U16MSBOperation.populate_msb (limb16 x 1) in
  complete (slice_range_check_u16 [Fof (limb16 x 0); Fof (limb16 x 1)] F1 ++
            U16MSBOperation.eval_msb (Fof (limb16 x 1)) m F1)
           (add_u16_range_checks [limb16 x 0; limb16 x 1] ++ ev).
Proof.
  pose proof (msb_complete (limb16 x 1) (limb16_bound x 1)) as Hm.
  destruct (U16MSBOperation.populate_msb (limb16 x 1)) as [[m ev] r]. destruct Hm as [Hm _].
  apply complete_app; [|exact Hm]. apply (complete_range16 [limb16 x 0; limb16 x 1]).
  repeat constructor; apply limb16_bound.
Qed.

Lemma addw_complete (a b : Z) :
  is_u64 a -> is_u64 b ->
  let '(cols, events) := AddwOperation.populate a b in
  complete (AddwOperation.eval (word_from_u64 a) (word_from_u64 b) cols F1) events.
Proof.
  intros Ha Hb. unfold AddwOperation.populate, AddwOperation.eval. rewrite u32_to_u16_limbs_eq.
  cbn [nth]. set (v := as_u32 (as_u32 a + as_u32 b)). pose proof (half_complete v) as Hh.
  destruct (U16MSBOperation.populate_msb (limb16 v 1)) as [[m ev] r].
  cbn [AddwOperation.value0 AddwOperation.value1 AddwOperation.msb].
  apply complete_asserts_app; [apply complete_bool; right; reflexivity|].
  apply complete_asserts_app; [|exact Hh]. apply complete_when_1.
  apply complete_asserts; [|apply byte_lookups_chain].
  rewrite word_from_u64_limbs, (word_from_u64_limbs b). cbn [limb0 limb1].
  rewrite F0_of. rewrite half_chain_iff;
    [ | apply add_limbs_rep; repeat constructor; apply is_u16F_limb | left; reflexivity | reflexivity
      | reflexivity | apply is_u16F_limb | apply is_u16F_limb ].
  unfold half_val. cbn [add_limbsZ combine map fst snd le_value]. rewrite !Fval_limb16, limb16_low32.
  pose proof (limb16_low32 a). pose proof (limb16_low32 b).
  match goal with |- _ = ?x mod _ => replace x with (a mod 2 ^ 32 + b mod 2 ^ 32) by lia end.
  unfold v, as_u32, as_unsigned. apply Zmod_mod.
Qed.

Lemma subw_complete (a b : Z) :
  is_u64 a -> is_u64 b ->
  let '(cols, events) := SubwOperation.populate a b in
  complete (SubwOperation.eval (word_from_u64 a) (word_from_u64 b) cols F1) events.
Proof.
  intros Ha Hb. unfold SubwOperation.populate, SubwOperation.eval. rewrite u64_to_u16_limbs_eq.
  cbn [nth firstn]. set (v := as_u64 (as_i32 (as_i32 a - as_i32 b))). pose proof (half_complete v) as Hh.
  destruct (U16MSBOperation.populate_msb (limb16 v 1)) as [[m ev] r].
  cbn [SubwOperation.value0 SubwOperation.value1 SubwOperation.msb].
  apply complete_asserts_app; [apply complete_bool; right; reflexivity|].
  apply complete_asserts_app; [|exact Hh]. apply complete_when_1.
  apply complete_asserts; [|apply byte_lookups_chain].
  rewrite word_from_u64_limbs, (word_from_u64_limbs b). cbn [limb0 limb1].
  rewrite F1_of. rewrite half_chain_iff;
    [ | apply sub_limbs_rep; repeat constructor; apply is_u16F_limb | right; reflexivity | reflexivity
      | reflexivity | apply is_u16F_limb | apply is_u16F_limb ].
  unfold half_val. cbn [sub_limbsZ combine map fst snd le_value]. rewrite !Fval_limb16, limb16_low32.
  pose proof (limb16_low32 a). pose proof (limb16_low32 b).
  match goal with |- _ = ?x mod _ => replace x with (a mod 2 ^ 32 - b mod 2 ^ 32 + 1 * 2 ^ 32) by lia end.
  rewrite Z_mod_plus_full. unfold v, as_u64, as_unsigned. rewrite (mod_mod_le _ 32 64) by lia.
  unfold as_i32. rewrite as_signed_cong by lia. rewrite Zminus_mod, !as_signed_cong by lia.
  reflexivity.
Qed.
