(* ===== verification/Compare.v ===== *)
(** * Operation gadgets: zero tests, equality and less-than

    [is_zero.rs], [is_zero_word.rs], [is_equal_word.rs] and [slt.rs] of
    [crates/core/machine/src/operations], in the style of [Operations]. *)

From Stdlib Require Import ZArith Lia List Bool.
From S2P Require Import Prelude Words Isa Field Air AirFacts SmallInverse Operations.
Import ListNotations.
Open Scope Z_scope.

(** ** [IsZeroOperation] *)
Module IsZeroOperation.
Record Cols : Type := mkCols { inverse : F; result : F }.

Definition populate_from_field_element (a : F) : Cols * Z :=
  (if Feqb a F0 then mkCols F0 F1 else mkCols (Finv a) F0, if Feqb a F0 then 1 else 0).

Definition populate (a : Z) : Cols * Z := populate_from_field_element (Fof a).

Definition eval_is_zero (a : F) (cols : Cols) (is_real : F) : list Emit :=
  let is_zero := (F1 - inverse cols * a)%F in
  when is_real (assert_eq is_zero (result cols)) ++
  when is_real (assert_bool (result cols)) ++
  when is_real (when (result cols) (assert_zero a)).
End IsZeroOperation.

(** ** [IsZeroWordOperation] *)
Module IsZeroWordOperation.
Record Cols : Type := mkCols {
  is_zero_limb : Word IsZeroOperation.Cols;
  is_zero_first_half : F;
  is_zero_second_half : F;
  result : F
}.

Definition populate_from_field_element (a : Word F) : Cols * Z :=
  let limb x := IsZeroOperation.populate_from_field_element x in
  let is_zero_limb := word_map (fun x => fst (limb x)) a in
  let is_zero := forallb (fun x => snd (limb x) =? 1) (word_list a) in
  let res x := IsZeroOperation.result x in
  (mkCols is_zero_limb
     (res (limb0 is_zero_limb) * res (limb1 is_zero_limb))%F
     (res (limb2 is_zero_limb) * res (limb3 is_zero_limb))%F
     (Fof_bool is_zero),
   if is_zero then 1 else 0).

Definition populate (a_u64 : Z) : Cols * Z := populate_from_field_element (word_from_u64 a_u64).

Definition eval_zero_word (a : Word F) (cols : Cols) (is_real : F) : list Emit :=
  let l := is_zero_limb cols in
  let res x := IsZeroOperation.result x in
  IsZeroOperation.eval_is_zero (limb0 a) (limb0 l) is_real ++
  IsZeroOperation.eval_is_zero (limb1 a) (limb1 l) is_real ++
  IsZeroOperation.eval_is_zero (limb2 a) (limb2 l) is_real ++
  IsZeroOperation.eval_is_zero (limb3 a) (limb3 l) is_real ++
  assert_bool is_real ++
  assert_bool (result cols) ++
  assert_eq (is_zero_first_half cols) (res (limb0 l) * res (limb1 l))%F ++
  assert_eq (is_zero_second_half cols) (res (limb2 l) * res (limb3 l))%F ++
  when is_real (assert_eq (result cols) (is_zero_first_half cols * is_zero_second_half cols)%F).
End IsZeroWordOperation.

(** ** [IsEqualWordOperation] *)
Module IsEqualWordOperation.
Record Cols : Type := mkCols { is_diff_zero : IsZeroWordOperation.Cols }.

Definition word_sub (a b : Word F) : Word F :=
  mkWord (limb0 a - limb0 b)%F (limb1 a - limb1 b)%F (limb2 a - limb2 b)%F (limb3 a - limb3 b)%F.

Definition populate (a_u64 b_u64 : Z) : Cols * Z :=
  let diff := word_sub (word_from_u64 a_u64) (word_from_u64 b_u64) in
  (mkCols (fst (IsZeroWordOperation.populate_from_field_element diff)),
   if a_u64 =? b_u64 then 1 else 0).

Definition eval_is_equal_word (a b : Word F) (cols : Cols) (is_real : F) : list Emit :=
  assert_bool is_real ++
  IsZeroWordOperation.eval_zero_word (word_sub a b) (is_diff_zero cols) is_real.
End IsEqualWordOperation.

(** ** [LtOperationUnsigned] *)
Module LtOperationUnsigned.
Record Cols : Type := mkCols {
  u16_compare_operation : U16CompareOperation.Cols;
  u16_flags : Word F;
  not_eq_inv : F;
  comparison_limbs : F * F
}.

(** The loop of [populate_unsigned]: the most significant differing limb pair. *)
Fixpoint first_diff (l : list (Z * Z)) (i : nat) : option (nat * Z * Z) :=
  match l with
  | [] => None
  | (b, c) :: rest => if b =? c then first_diff rest (i - 1) else Some (i, b, c)
  end.

Definition flag_at (i j : nat) : F := if (i =? j)%nat then F1 else F0.

Definition populate_unsigned (a_u64 b_u64 c_u64 : Z) : Res (Cols * list ByteLookupEvent) :=
  let a_u16 := nth 0 (u64_to_u16_limbs a_u64) 0 in
  let limbs := rev (combine (u64_to_u16_limbs b_u64) (u64_to_u16_limbs c_u64)) in
  match first_diff limbs 3 with
  | Some (i, b_limb, c_limb) =>
      let* inv := u16_difference_inverse b_limb c_limb in
      let '(cmp, events) := U16CompareOperation.populate a_u16 b_limb c_limb in
      Ok (mkCols cmp (mkWord (flag_at i 0) (flag_at i 1) (flag_at i 2) (flag_at i 3)) inv
            (Fof b_limb, Fof c_limb), events)
  | None =>
      let '(cmp, events) := U16CompareOperation.populate a_u16 0 0 in
      Ok (mkCols cmp (mkWord F0 F0 F0 F0) F0 (F0, F0), events)
  end.

(** The loop of [eval_lt_unsigned] over the limbs, most significant first. *)
Fixpoint compare_loop (is_real visited b_cmp c_cmp : F) (l : list (F * F * F))
  : list Emit * F * F :=
  match l with
  | [] => ([], b_cmp, c_cmp)
  | (b_limb, c_limb, flag) :: rest =>
      let visited := (visited + flag)%F in
      let '(em, bc, cc) :=
        compare_loop is_real visited (b_cmp + b_limb * flag)%F (c_cmp + c_limb * flag)%F rest in
      (when (is_real - visited)%F (assert_eq b_limb c_limb) ++ em, bc, cc)
  end.

Definition eval_lt_unsigned (b c : Word F) (cols : Cols) (is_real : F) : list Emit :=
  let flags := u16_flags cols in
  let sum_flags := (limb0 flags + limb1 flags + limb2 flags + limb3 flags)%F in
  let is_comp_eq := (F1 - sum_flags)%F in
  let '(em, b_comparison_limb, c_comparison_limb) :=
    compare_loop is_real F0 F0 F0
      (rev (combine (combine (word_list b) (word_list c)) (word_list flags))) in
  let '(b_comp_limb, c_comp_limb) := comparison_limbs cols in
  assert_bool is_real ++
  assert_bool (limb0 flags) ++ assert_bool (limb1 flags) ++
  assert_bool (limb2 flags) ++ assert_bool (limb3 flags) ++
  assert_bool sum_flags ++
  em ++
  assert_eq b_comparison_limb b_comp_limb ++
  assert_eq c_comparison_limb c_comp_limb ++
  when_not is_comp_eq (assert_eq (not_eq_inv cols * (b_comp_limb - c_comp_limb))%F is_real) ++
  U16CompareOperation.eval_compare_u16 b_comp_limb c_comp_limb (u16_compare_operation cols) is_real.
End LtOperationUnsigned.

(** ** [LtOperationSigned] *)
Module LtOperationSigned.
Record Cols : Type := mkCols {
  result : LtOperationUnsigned.Cols;
  b_msb : U16MSBOperation.Cols;
  c_msb : U16MSBOperation.Cols
}.

Definition populate_signed (a_u64 b_u64 c_u64 : Z) (is_signed : bool)
  : Res (Cols * list ByteLookupEvent) :=
  let b_comp := u64_to_u16_limbs b_u64 in
  let c_comp := u64_to_u16_limbs c_u64 in
  if is_signed then
    let '(b_msb, ev_b, _) := U16MSBOperation.populate_msb (nth 3 b_comp 0) in
    let '(c_msb, ev_c, _) := U16MSBOperation.populate_msb (nth 3 c_comp 0) in
    let* (r, ev) := LtOperationUnsigned.populate_unsigned a_u64 (Z.lxor b_u64 (shl 64 1 63))
                      (Z.lxor c_u64 (shl 64 1 63)) in
    Ok (mkCols r b_msb c_msb, ev_b ++ ev_c ++ ev)
  else
    let* (r, ev) := LtOperationUnsigned.populate_unsigned a_u64 b_u64 c_u64 in
    Ok (mkCols r (U16MSBOperation.mkCols F0) (U16MSBOperation.mkCols F0), ev).

(** [1 << 63] xored into a word through its sign bit. *)
Definition flip_sign (w : Word F) (is_signed msb : F) : Word F :=
  mkWord (limb0 w) (limb1 w) (limb2 w)
    (limb3 w + is_signed * Fof (2 ^ 15) - Fof (2 ^ 16) * msb)%F.

Definition eval_lt_signed (b c : Word F) (cols : Cols) (is_signed is_real : F) : list Emit :=
  let bm := U16MSBOperation.msb (b_msb cols) in
  let cm := U16MSBOperation.msb (c_msb cols) in
  assert_bool is_signed ++
  assert_bool is_real ++
  when_not is_real (assert_zero is_signed) ++
  U16MSBOperation.eval_msb (limb3 b) (b_msb cols) is_signed ++
  U16MSBOperation.eval_msb (limb3 c) (c_msb cols) is_signed ++
  when_not is_signed (assert_zero bm) ++
  when_not is_signed (assert_zero cm) ++
  LtOperationUnsigned.eval_lt_unsigned (flip_sign b is_signed bm) (flip_sign c is_signed cm)
    (result cols) is_real.
End LtOperationSigned.

(** ** Correctness of the zero tests *)

Lemma is_zero_sound (a : F) (cols : IsZeroOperation.Cols) (is_real : F) :
  is_real <> F0 -> sats (IsZeroOperation.eval_is_zero a cols is_real) ->
  IsZeroOperation.result cols = Fof_bool (Feqb a F0).
Proof.
  intros Hr H. unfold IsZeroOperation.eval_is_zero in H. rewrite !sats_app, !sats_when in H by assumption.
  destruct cols as [inv res]. cbn [IsZeroOperation.inverse IsZeroOperation.result] in *.
  destruct H as ((E & _) & (B & _) & (Z & _)). specialize (E I). specialize (B I).
  cbn in E, B, Z. destruct B as [-> | ->].
  - rewrite Feqb_neq; [reflexivity|]. intros ->. apply F1_neq_0. rewrite <- E. ring.
  - rewrite (Z (conj F1_neq_0 I)), Feqb_refl. reflexivity.
Qed.

Lemma is_zero_complete (a is_real : F) :
  complete (IsZeroOperation.eval_is_zero a (fst (IsZeroOperation.populate_from_field_element a)) is_real) [].
Proof.
  unfold IsZeroOperation.eval_is_zero, IsZeroOperation.populate_from_field_element. cbn [fst].
  destruct (Feqb a F0) eqn:E; cbn [IsZeroOperation.inverse IsZeroOperation.result].
  - apply Feqb_eq in E. subst.
    apply complete_asserts_app; [apply complete_when_eq; intros; ring|].
    apply complete_asserts_app; [apply complete_when_bool; intros; right; reflexivity|].
    split; [cbn; auto | reflexivity].
  - assert (a <> F0) by (intros ->; rewrite Feqb_refl in E; discriminate).
    apply complete_asserts_app; [apply complete_when_eq; intros; rewrite Finv_l by assumption; ring|].
    apply complete_asserts_app; [apply complete_when_bool; intros; left; reflexivity|].
    split; [cbn; tauto | reflexivity].
Qed.

Lemma Fof_bool_mul (x y : bool) : (Fof_bool x * Fof_bool y)%F = Fof_bool (x && y).
Proof. destruct x, y; cbn; ring. Qed.

Definition word_is_zero (a : Word F) : bool := forallb (fun x => Feqb x F0) (word_list a).

Lemma is_zero_word_sound (a : Word F) (cols : IsZeroWordOperation.Cols) (is_real : F) :
  is_real <> F0 -> sats (IsZeroWordOperation.eval_zero_word a cols is_real) ->
  IsZeroWordOperation.result cols = Fof_bool (word_is_zero a).
Proof.
  intros Hr H. unfold IsZeroWordOperation.eval_zero_word in H. rewrite !sats_app in H.
  destruct H as (H0 & H1 & H2 & H3 & _ & _ & (E1 & _) & (E2 & _) & E).
  apply is_zero_sound in H0, H1, H2, H3; try assumption. rewrite sats_when in E by assumption.
  destruct E as [E _]. specialize (E I). specialize (E1 I). specialize (E2 I). cbn in E, E1, E2.
  rewrite E, E1, E2, H0, H1, H2, H3, !Fof_bool_mul. unfold word_is_zero, word_list. cbn [forallb].
  f_equal. rewrite andb_true_r, !andb_assoc. reflexivity.
Qed.

Lemma is_zero_word_complete (a : Word F) :
  complete (IsZeroWordOperation.eval_zero_word a
              (fst (IsZeroWordOperation.populate_from_field_element a)) F1) [].
Proof.
  unfold IsZeroWordOperation.eval_zero_word, IsZeroWordOperation.populate_from_field_element.
  cbn [fst IsZeroWordOperation.is_zero_limb IsZeroWordOperation.is_zero_first_half
       IsZeroWordOperation.is_zero_second_half IsZeroWordOperation.result word_map limb0 limb1 limb2 limb3].
  do 4 (apply complete_asserts_app; [apply is_zero_complete|]).
  apply complete_asserts_app; [apply complete_bool; right; reflexivity|].
  apply complete_asserts_app; [apply complete_bool, Fof_bool_is_bool|].
  do 2 (apply complete_asserts_app; [apply complete_eq; reflexivity|]).
  apply complete_when_eq. intros _. unfold word_list. cbn [forallb].
  unfold IsZeroOperation.populate_from_field_element. cbn [fst snd].
  destruct (Feqb (limb0 a) F0), (Feqb (limb1 a) F0), (Feqb (limb2 a) F0), (Feqb (limb3 a) F0);
    cbn; ring.
Qed.

Lemma word_diff_zero (a b : Word F) :
  valid_word a -> valid_word b ->
  word_is_zero (IsEqualWordOperation.word_sub a b) = (word_val a =? word_val b).
Proof.
  intros Ha Hb. apply eq_true_iff_eq. rewrite Z.eqb_eq. unfold word_is_zero. rewrite forallb_forall.
  split.
  - intros H. f_equal. destruct a as [a0 a1 a2 a3], b as [b0 b1 b2 b3].
    f_equal; apply Fsub_eq0, Feqb_eq, H; cbn; auto.
  - intros E. apply word_val_inj in E; [|assumption..]. subst. intros x Hx.
    apply Feqb_eq. cbn in Hx. destruct Hx as [<- | [<- | [<- | [<- | []]]]]; ring.
Qed.

Lemma is_equal_word_sound (a b : Word F) (cols : IsEqualWordOperation.Cols) (is_real : F) :
  is_real <> F0 -> valid_word a -> valid_word b ->
  sats (IsEqualWordOperation.eval_is_equal_word a b cols is_real) ->
  IsZeroWordOperation.result (IsEqualWordOperation.is_diff_zero cols)
  = Fof_bool (word_val a =? word_val b).
Proof.
  intros Hr Ha Hb H. unfold IsEqualWordOperation.eval_is_equal_word in H. apply sats_app in H as [_ H].
  apply is_zero_word_sound in H; [|assumption]. rewrite H, word_diff_zero by assumption. reflexivity.
Qed.

Lemma is_equal_word_complete (a b : Z) :
  complete (IsEqualWordOperation.eval_is_equal_word (word_from_u64 a) (word_from_u64 b)
              (fst (IsEqualWordOperation.populate a b)) F1) [].
Proof.
  unfold IsEqualWordOperation.eval_is_equal_word, IsEqualWordOperation.populate.
  cbn [fst IsEqualWordOperation.is_diff_zero].
  apply complete_asserts_app; [apply complete_bool; right; reflexivity|].
  apply is_zero_word_complete.
Qed.

(** ** Correctness of the unsigned comparison *)

(** A closed disequality of field elements, by computing both sides. *)
Ltac F_neq_compute :=
  let E := fresh in intros E; apply (f_equal Fval) in E; vm_compute in E; discriminate E.

(** Open the guarded constraints whose guards are closed: keep those that are
    on, drop those that are off. *)
Ltac resolve_guards :=
  repeat match goal with
  | H : (?g <> F0 /\ True) -> _ |- _ =>
      first [ let N := fresh in assert (N : g <> F0) by F_neq_compute;
              specialize (H (conj N I)); clear N
            | clear H ]
  end.

(** Among the flag assignments, only those with at most one flag set remain. *)
Ltac drop_bad_sum H :=
  try (exfalso; destruct H as [H | H]; apply (f_equal Fval) in H; vm_compute in H; discriminate H).

(** The comparison decided by the most significant differing limb. *)
Lemma lt_by_limb (b c : Word F) (bl cl : F) :
  valid_word b -> valid_word c ->
  (bl = limb3 b /\ cl = limb3 c) \/
  (limb3 b = limb3 c /\ bl = limb2 b /\ cl = limb2 c) \/
  (limb3 b = limb3 c /\ limb2 b = limb2 c /\ bl = limb1 b /\ cl = limb1 c) \/
  (limb3 b = limb3 c /\ limb2 b = limb2 c /\ limb1 b = limb1 c /\ bl = limb0 b /\ cl = limb0 c) ->
  bl <> cl ->
  is_u16F bl /\ is_u16F cl /\ (Fval bl <? Fval cl) = (word_val b <? word_val c) /\
  (word_val b =? word_val c) = false.
Proof.
  intros Hb Hc Hcase Hne. destruct b as [b0 b1 b2 b3], c as [c0 c1 c2 c3].
  unfold valid_word, word_val in *. cbn [limb0 limb1 limb2 limb3] in *.
  assert (Hv : Fval bl <> Fval cl) by (intros E; apply Hne, Fval_inj, E).
  destruct Hcase as [H | [H | [H | H]]]; split_hyps; subst; repeat split; try assumption;
    match goal with
    | |- (?x <? ?y) = (?u <? ?v) => destruct (Z.ltb_spec x y), (Z.ltb_spec u v)
    | |- (?x =? ?y) = _ => destruct (Z.eqb_spec x y)
    end;
    try reflexivity; exfalso; F_lia.
Qed.

(** The flags are all off exactly on equal operands. *)
Definition equal_flag (cols : LtOperationUnsigned.Cols) : F :=
  let flags := LtOperationUnsigned.u16_flags cols in
  (F1 - (limb0 flags + limb1 flags + limb2 flags + limb3 flags))%F.

Lemma lt_unsigned_run (b c : Word F) (cols : LtOperationUnsigned.Cols) :
  valid_word b -> valid_word c -> sats (LtOperationUnsigned.eval_lt_unsigned b c cols F1) ->
  U16CompareOperation.bit (LtOperationUnsigned.u16_compare_operation cols)
  = Fof_bool (word_val b <? word_val c) /\
  equal_flag cols = Fof_bool (word_val b =? word_val c).
Proof.
  intros Hb Hc H. destruct cols as [cmp [f0 f1 f2 f3] inv [bl cl]].
  unfold LtOperationUnsigned.eval_lt_unsigned in H.
  cbn [LtOperationUnsigned.u16_compare_operation LtOperationUnsigned.u16_flags
       LtOperationUnsigned.not_eq_inv LtOperationUnsigned.comparison_limbs
       word_list combine rev app LtOperationUnsigned.compare_loop limb0 limb1 limb2 limb3] in *.
  unfold when_not in H. rewrite !sats_app in H.
  destruct H as (_ & (B0 & _) & (B1 & _) & (B2 & _) & (B3 & _) & (Bs & _)
                & ((D3 & _) & (D2 & _) & (D1 & _) & (D0 & _) & _) & (Eb & _) & (Ec & _) & (Ei & _) & Hcmp).
  cbn [guard sat guards_on holds] in *. specialize (B0 I). specialize (B1 I). specialize (B2 I).
  specialize (B3 I). specialize (Bs I). specialize (Eb I). specialize (Ec I).
  destruct B0 as [-> | ->], B1 as [-> | ->], B2 as [-> | ->], B3 as [-> | ->]; drop_bad_sum Bs;
    resolve_guards.
  1: { assert (bl = F0) by (rewrite <- Eb; ring). assert (cl = F0) by (rewrite <- Ec; ring).
       clear Eb Ec. subst bl cl.
       apply compare_sound in Hcmp; [|reflexivity..]. rewrite Hcmp.
       unfold equal_flag, word_val. cbn [LtOperationUnsigned.u16_flags limb0 limb1 limb2 limb3].
       rewrite D0, D1, D2, D3, !Z.ltb_irrefl, Z.eqb_refl. split; [reflexivity | cbn [Fof_bool]; ring]. }
  all: assert (Hne : bl <> cl) by (intros ->; apply F1_neq_0; rewrite <- Ei; ring).
  all: assert (Hl : is_u16F bl /\ is_u16F cl /\ (Fval bl <? Fval cl) = (word_val b <? word_val c) /\
                    (word_val b =? word_val c) = false);
       [ apply lt_by_limb; [assumption | assumption | | assumption]
       | destruct Hl as (? & ? & <- & ->); split;
         [ apply compare_sound; assumption
         | unfold equal_flag; cbn [LtOperationUnsigned.u16_flags limb0 limb1 limb2 limb3 Fof_bool]; ring ] ].
  all: first
    [ left; split; [rewrite <- Eb; ring | rewrite <- Ec; ring]
    | right; left; repeat split; [assumption | rewrite <- Eb; ring | rewrite <- Ec; ring]
    | right; right; left; repeat split; [assumption | assumption | rewrite <- Eb; ring | rewrite <- Ec; ring]
    | right; right; right; repeat split;
      [assumption | assumption | assumption | rewrite <- Eb; ring | rewrite <- Ec; ring] ].
Qed.

Lemma lt_unsigned_sound (b c : Word F) (cols : LtOperationUnsigned.Cols) :
  valid_word b -> valid_word c -> sats (LtOperationUnsigned.eval_lt_unsigned b c cols F1) ->
  U16CompareOperation.bit (LtOperationUnsigned.u16_compare_operation cols)
  = Fof_bool (word_val b <? word_val c).
Proof. intros Hb Hc H. exact (proj1 (lt_unsigned_run b c cols Hb Hc H)). Qed.

(** ** Correctness of the signed comparison *)

Lemma flip_sign_val (w : Word F) :
  valid_word w ->
  let w' := LtOperationSigned.flip_sign w F1 (Fof (if Fval (limb3 w) <? 2 ^ 15 then 0 else 1)) in
  valid_word w' /\ word_val w' = as_i64 (word_val w) + 2 ^ 63.
Proof.
  intros Hw. cbn zeta. pose proof (word_val_bound w Hw) as Bw. unfold is_u in Bw.
  unfold as_i64. rewrite as_signed_small by assumption.
  unfold LtOperationSigned.flip_sign, valid_word, word_val in *. cbn [limb0 limb1 limb2 limb3].
  assert (E : Fval (limb3 w + F1 * Fof (2 ^ 15)
                    - Fof (2 ^ 16) * Fof (if Fval (limb3 w) <? 2 ^ 15 then 0 else 1))%F
              = if Fval (limb3 w) <? 2 ^ 15 then Fval (limb3 w) + 2 ^ 15 else Fval (limb3 w) - 2 ^ 15).
  { split_hyps. destruct (Z.ltb_spec (Fval (limb3 w)) (2 ^ 15)).
    - rewrite (Fval_rep _ (a := Fval (limb3 w) + 1 * 2 ^ 15 - 2 ^ 16 * 0)) by F_lia. lia.
    - rewrite (Fval_rep _ (a := Fval (limb3 w) + 1 * 2 ^ 15 - 2 ^ 16 * 1)) by F_lia. lia. }
  unfold is_u16F. rewrite !E. split_hyps.
  destruct (Z.ltb_spec (Fval (limb3 w)) (2 ^ 15));
    match goal with |- context [if ?x <? ?y then _ else _] => destruct (Z.ltb_spec x y) end; F_lia.
Qed.

Lemma flip_sign_unsigned (w : Word F) : LtOperationSigned.flip_sign w F0 F0 = w.
Proof. destruct w. unfold LtOperationSigned.flip_sign. cbn. f_equal. ring. Qed.

(** The comparison the executor makes. *)
Definition lt_spec (signed : bool) (b c : Z) : bool :=
  if signed then as_i64 b <? as_i64 c else b <? c.

Lemma lt_signed_run (b c : Word F) (cols : LtOperationSigned.Cols) (signed : bool) :
  valid_word b -> valid_word c ->
  sats (LtOperationSigned.eval_lt_signed b c cols (Fof_bool signed) F1) ->
  U16CompareOperation.bit
    (LtOperationUnsigned.u16_compare_operation (LtOperationSigned.result cols))
  = Fof_bool (lt_spec signed (word_val b) (word_val c)) /\
  equal_flag (LtOperationSigned.result cols) = Fof_bool (word_val b =? word_val c).
Proof.
  intros Hb Hc H. unfold LtOperationSigned.eval_lt_signed, when_not in H. rewrite !sats_app in H.
  destruct H as (_ & _ & _ & Mb & Mc & (Zb & _) & (Zc & _) & H).
  cbn [guard sat guards_on holds] in Zb, Zc. destruct signed; cbn [Fof_bool lt_spec] in *.
  - apply msb_sound in Mb, Mc; try apply Hb; try apply Hc. rewrite Mb, Mc in H.
    destruct (flip_sign_val b Hb) as [Vb Eb], (flip_sign_val c Hc) as [Vc Ec].
    apply lt_unsigned_run in H as [-> ->]; [|assumption..]. rewrite Eb, Ec.
    pose proof (word_val_bound b Hb) as Bb. pose proof (word_val_bound c Hc) as Bc. unfold is_u in *.
    split; f_equal; apply eq_true_iff_eq; rewrite ?Z.ltb_lt, ?Z.eqb_eq; [lia|].
    unfold as_i64. rewrite !as_signed_small by assumption.
    destruct (word_val b <? _) eqn:E1, (word_val c <? _) eqn:E2; rewrite ?Z.ltb_lt, ?Z.ltb_ge in *; lia.
  - resolve_guards. rewrite Zb, Zc, !flip_sign_unsigned in H.
    apply lt_unsigned_run; assumption.
Qed.

Lemma lt_signed_sound (b c : Word F) (cols : LtOperationSigned.Cols) (signed : bool) :
  valid_word b -> valid_word c ->
  sats (LtOperationSigned.eval_lt_signed b c cols (Fof_bool signed) F1) ->
  U16CompareOperation.bit
    (LtOperationUnsigned.u16_compare_operation (LtOperationSigned.result cols))
  = Fof_bool (lt_spec signed (word_val b) (word_val c)).
Proof. intros Hb Hc H. exact (proj1 (lt_signed_run b c cols signed Hb Hc H)). Qed.

(** ** Completeness of the comparisons *)

Lemma lxor_sign (x : Z) :
  is_u64 x -> is_u64 (Z.lxor x (shl 64 1 63)) /\ Z.lxor x (shl 64 1 63) = as_i64 x + 2 ^ 63.
Proof.
  unfold is_u. intros Hx. change (shl 64 1 63) with (0 + 1 * 2 ^ 63).
  assert (Hq : x / 2 ^ 63 = 0 \/ x / 2 ^ 63 = 1) by dlia.
  rewrite (Z_div_mod_eq_full x (2 ^ 63)) at 1 2 3.
  rewrite Z.add_comm, (Z.mul_comm (2 ^ 63)).
  pose proof (Z.mod_pos_bound x (2 ^ 63) ltac:(lia)).
  rewrite lxor_concat by lia. rewrite Z.lxor_0_r. unfold as_i64. rewrite as_signed_small by assumption.
  change (64 - 1) with 63.
  destruct Hq as [E | E]; rewrite E; [change (Z.lxor 0 1) with 1 | change (Z.lxor 1 1) with 0];
    destruct (Z.ltb_spec x (2 ^ 63)); dlia.
Qed.

Lemma word_flip_sign (x : Z) :
  is_u64 x ->
  word_from_u64 (Z.lxor x (shl 64 1 63)) =
  LtOperationSigned.flip_sign (word_from_u64 x) F1 (Fof (if limb16 x 3 <? 2 ^ 15 then 0 else 1)).
Proof.
  intros Hx. destruct (lxor_sign x Hx) as [Hu E].
  pose proof (flip_sign_val (word_from_u64 x) (valid_word_from x)) as [Hv Ev].
  rewrite word_from_u64_limbs in Hv at 2. rewrite word_from_u64_limbs in Ev at 2.
  cbn [limb3] in Hv, Ev. rewrite Fval_limb16 in Hv, Ev.
  apply word_val_inj; [apply valid_word_from | assumption |].
  rewrite word_val_from, Ev, word_val_from by assumption. assumption.
Qed.

(** With the flag of the most significant differing limb set, and its inverse
    in place, the row is complete. *)
Lemma Fof_limb_neq (x y i j : Z) :
  limb16 x i <> limb16 y j -> (Fof (limb16 x i) - Fof (limb16 y j))%F <> F0.
Proof.
  intros Hne E. apply Fsub_eq0 in E. apply Hne. pose proof (limb16_bound x i). pose proof (limb16_bound y j).
  apply Fof_inj_small in E; [assumption | unfold KOALA_BEAR_ORDER; lia].
Qed.

Ltac bool_compute := first [right; ring | left; ring].
Ltac guarded_eq :=
  apply complete_when_eq;
  first [ intros _; congruence
        | let N := fresh in intros N; exfalso; apply N; ring
        | intros _; apply Finv_l; assumption ].
Ltac complete_step :=
  rewrite ?app_nil_l;
  first [ assumption
        | apply complete_asserts_app;
          [first [apply complete_bool; bool_compute | guarded_eq | apply complete_eq; ring] |] ].

Definition decided_at (b c : Word F) (k : nat) (bl cl : F) : Prop :=
  (k = 3%nat /\ bl = limb3 b /\ cl = limb3 c) \/
  (k = 2%nat /\ limb3 b = limb3 c /\ bl = limb2 b /\ cl = limb2 c) \/
  (k = 1%nat /\ limb3 b = limb3 c /\ limb2 b = limb2 c /\ bl = limb1 b /\ cl = limb1 c) \/
  (k = 0%nat /\ limb3 b = limb3 c /\ limb2 b = limb2 c /\ limb1 b = limb1 c /\
   bl = limb0 b /\ cl = limb0 c).

Ltac lt_unfold :=
  unfold LtOperationUnsigned.eval_lt_unsigned, when_not;
  cbn [LtOperationUnsigned.u16_compare_operation LtOperationUnsigned.u16_flags
       LtOperationUnsigned.not_eq_inv LtOperationUnsigned.comparison_limbs
       LtOperationUnsigned.flag_at Nat.eqb
       word_list combine rev app LtOperationUnsigned.compare_loop limb0 limb1 limb2 limb3];
  rewrite <- ?app_assoc.

Lemma lt_row_complete (b c : Word F) (k : nat) (bl cl : F) cmp ev :
  decided_at b c k bl cl -> (bl - cl)%F <> F0 ->
  complete (U16CompareOperation.eval_compare_u16 bl cl cmp F1) ev ->
  complete (LtOperationUnsigned.eval_lt_unsigned b c
    (LtOperationUnsigned.mkCols cmp
       (mkWord (LtOperationUnsigned.flag_at k 0) (LtOperationUnsigned.flag_at k 1)
          (LtOperationUnsigned.flag_at k 2) (LtOperationUnsigned.flag_at k 3))
       (Finv (bl - cl)%F) (bl, cl)) F1) ev.
Proof.
  intros Hcase Hf Hcmp. destruct b as [b0 b1 b2 b3], c as [c0 c1 c2 c3].
  unfold decided_at in Hcase. cbn [limb0 limb1 limb2 limb3] in Hcase.
  destruct Hcase as [H' | [H' | [H' | H']]]; split_hyps; subst k bl cl; lt_unfold; repeat complete_step.
Qed.

Lemma lt_row_complete_eq (b : Word F) cmp ev :
  complete (U16CompareOperation.eval_compare_u16 F0 F0 cmp F1) ev ->
  complete (LtOperationUnsigned.eval_lt_unsigned b b
    (LtOperationUnsigned.mkCols cmp (mkWord F0 F0 F0 F0) F0 (F0, F0)) F1) ev.
Proof. intros Hcmp. destruct b as [b0 b1 b2 b3]. lt_unfold. repeat complete_step. Qed.

Ltac decide_limb Wb Wc :=
  unfold decided_at; rewrite Wb, Wc; cbn [limb0 limb1 limb2 limb3];
  repeat match goal with H : limb16 _ _ = limb16 _ _ |- _ => rewrite H; clear H end; tauto.

Lemma msb_bool_off (a : F) (m : U16MSBOperation.Cols) :
  is_bool (U16MSBOperation.msb m) -> complete (U16MSBOperation.eval_msb a m F0) [].
Proof.
  intros Hb. split; [cbn [U16MSBOperation.eval_msb app assert_bool send_byte sats sat guards_on holds kind multiplicity
               U16MSBOperation.msb]; unfold is_bool in *; tauto|].
  cbn. rewrite Feqb_refl. reflexivity.
Qed.

Lemma msb_off_complete (a : F) :
  complete (U16MSBOperation.eval_msb a (U16MSBOperation.mkCols F0) F0) [].
Proof.
  split; [cbn [U16MSBOperation.eval_msb app assert_bool send_byte sats sat guards_on holds kind multiplicity
               U16MSBOperation.msb]; unfold is_bool; tauto|].
  cbn. rewrite Feqb_refl. reflexivity.
Qed.

Lemma lt_unsigned_complete (b c : Z) :
  is_u64 b -> is_u64 c ->
  exists cols events,
    LtOperationUnsigned.populate_unsigned (if b <? c then 1 else 0) b c = Ok (cols, events) /\
    complete (LtOperationUnsigned.eval_lt_unsigned (word_from_u64 b) (word_from_u64 c) cols F1) events.
Proof.
  intros Hb Hc. unfold LtOperationUnsigned.populate_unsigned.
  replace (nth 0 (u64_to_u16_limbs (if b <? c then 1 else 0)) 0) with (if b <? c then 1 else 0)
    by (destruct (b <? c); reflexivity).
  rewrite !u64_to_u16_limbs_eq. cbn [rev combine app LtOperationUnsigned.first_diff].
  pose proof (word_from_u64_limbs b) as Wb. pose proof (word_from_u64_limbs c) as Wc.
  assert (Hgo : forall i k, limb16 b i <> limb16 c i ->
    decided_at (word_from_u64 b) (word_from_u64 c) k (Fof (limb16 b i)) (Fof (limb16 c i)) ->
    exists cols events,
      (let* inv := u16_difference_inverse (limb16 b i) (limb16 c i) in
       let '(cmp, events) :=
         U16CompareOperation.populate (if b <? c then 1 else 0) (limb16 b i) (limb16 c i) in
       Ok (LtOperationUnsigned.mkCols cmp
             (mkWord (LtOperationUnsigned.flag_at k 0) (LtOperationUnsigned.flag_at k 1)
                (LtOperationUnsigned.flag_at k 2) (LtOperationUnsigned.flag_at k 3)) inv
             (Fof (limb16 b i), Fof (limb16 c i)), events)) = Ok (cols, events) /\
      complete (LtOperationUnsigned.eval_lt_unsigned (word_from_u64 b) (word_from_u64 c) cols F1) events).
  { intros i k Hne Hd. rewrite u16_difference_inverse_spec by (apply limb16_bound || assumption).
    cbn [bind]. pose proof (Fof_limb_neq _ _ _ _ Hne) as Hf.
    destruct (lt_by_limb (word_from_u64 b) (word_from_u64 c) (Fof (limb16 b i)) (Fof (limb16 c i)))
      as (_ & _ & Hlt & _); try apply valid_word_from;
      [unfold decided_at in Hd; tauto | intros E; apply Hf; rewrite E; ring |].
    rewrite !Fval_limb16, !word_val_from in Hlt by assumption. rewrite <- Hlt.
    pose proof (compare_complete (limb16 b i) (limb16 c i) (limb16_bound _ _) (limb16_bound _ _)) as Hcmp.
    destruct (U16CompareOperation.populate _ (limb16 b i) (limb16 c i)) as [cmp ev].
    eexists _, _. split; [reflexivity|]. apply lt_row_complete; assumption. }
  destruct (Z.eqb_spec (limb16 b 3) (limb16 c 3)); [|apply (Hgo 3 3%nat); [assumption | decide_limb Wb Wc]].
  destruct (Z.eqb_spec (limb16 b 2) (limb16 c 2)); [|apply (Hgo 2 2%nat); [assumption | decide_limb Wb Wc]].
  destruct (Z.eqb_spec (limb16 b 1) (limb16 c 1)); [|apply (Hgo 1 1%nat); [assumption | decide_limb Wb Wc]].
  destruct (Z.eqb_spec (limb16 b 0) (limb16 c 0)); [|apply (Hgo 0 0%nat); [assumption | decide_limb Wb Wc]].
  pose proof (limb16_val64 b Hb). pose proof (limb16_val64 c Hc). assert (b = c) by lia. subst c.
  rewrite Z.ltb_irrefl.
  pose proof (compare_complete 0 0 ltac:(unfold is_u; lia) ltac:(unfold is_u; lia)) as Hz.
  rewrite Z.ltb_irrefl in Hz.
  destruct (U16CompareOperation.populate 0 0 0) as [cmp ev].
  eexists _, _. split; [reflexivity|]. apply lt_row_complete_eq. exact Hz.
Qed.

Lemma lt_signed_complete (b c : Z) (signed : bool) :
  is_u64 b -> is_u64 c ->
  exists cols events,
    LtOperationSigned.populate_signed (if lt_spec signed b c then 1 else 0) b c signed
      = Ok (cols, events) /\
    complete (LtOperationSigned.eval_lt_signed (word_from_u64 b) (word_from_u64 c) cols
                (Fof_bool signed) F1) events.
Proof.
  intros Hb Hc. unfold LtOperationSigned.populate_signed. destruct signed; cbn [lt_spec Fof_bool].
  - rewrite !u64_to_u16_limbs_eq. cbn [nth].
    pose proof (msb_complete (limb16 b 3) (limb16_bound _ _)) as Mb.
    pose proof (msb_complete (limb16 c 3) (limb16_bound _ _)) as Mc.
    destruct (U16MSBOperation.populate_msb (limb16 b 3)) as [[mb eb] rb], Mb as [Mb Vb].
    destruct (U16MSBOperation.populate_msb (limb16 c 3)) as [[mc ec] rc], Mc as [Mc Vc].
    destruct (lxor_sign b Hb) as [Ub Eb], (lxor_sign c Hc) as [Uc Ec].
    destruct (lt_unsigned_complete _ _ Ub Uc) as (cols & ev & Hp & Hcomp).
    assert (Hlt : (Z.lxor b (shl 64 1 63) <? Z.lxor c (shl 64 1 63)) = (as_i64 b <? as_i64 c))
      by (apply eq_true_iff_eq; rewrite !Z.ltb_lt; lia).
    rewrite Hlt in Hp. rewrite Hp. cbn [bind]. eexists _, _. split; [reflexivity|].
    unfold LtOperationSigned.eval_lt_signed, when_not.
    cbn [LtOperationSigned.b_msb LtOperationSigned.c_msb LtOperationSigned.result].
    rewrite Vb, Vc, <- !word_flip_sign by assumption.
    rewrite (word_from_u64_limbs b) at 1. rewrite (word_from_u64_limbs c) at 1. cbn [limb3].
    do 2 (apply complete_asserts_app; [apply complete_bool; right; reflexivity|]).
    apply complete_asserts_app; [apply complete_when_zero; intros N; exfalso; apply N; ring|].
    apply complete_app; [exact Mb|]. apply complete_app; [exact Mc|].
    do 2 (apply complete_asserts_app; [apply complete_when_zero; intros N; exfalso; apply N; ring|]).
    exact Hcomp.
  - destruct (lt_unsigned_complete b c Hb Hc) as (cols & ev & Hp & Hcomp).
    rewrite Hp. cbn [bind]. eexists _, _. split; [reflexivity|].
    unfold LtOperationSigned.eval_lt_signed, when_not.
    cbn [LtOperationSigned.b_msb LtOperationSigned.c_msb LtOperationSigned.result U16MSBOperation.msb].
    rewrite !flip_sign_unsigned.
    apply complete_asserts_app; [apply complete_bool; left; reflexivity|].
    apply complete_asserts_app; [apply complete_bool; right; reflexivity|].
    apply complete_asserts_app; [apply complete_when_zero; reflexivity|].
    do 2 (apply complete_asserts_app; [apply msb_off_complete|]).
    do 2 (apply complete_asserts_app; [apply complete_when_zero; reflexivity|]).
    exact Hcomp.
Qed.
