(* ===== verification/Bitwise.v ===== *)
(** * Operation gadgets: byte conversion and bitwise operations

    [u16_operation.rs], [bitwise.rs] and [bitwise_u16.rs] of
    [crates/core/machine/src/operations]: a word of 16-bit limbs is split into
    bytes, the byte table checks the operation byte by byte, and the result is
    put together again. *)

From Stdlib Require Import ZArith Lia List Bool Permutation.
From S2P Require Import Prelude Words Isa Field Air AirFacts Operations.
Import ListNotations.
Open Scope Z_scope.

(** ** [U16toU8Operation] *)
Module U16toU8Operation.
Record Cols : Type := mkCols { low_bytes : Word F }.

Definition low_byte (limb : Z) : Z := as_u8 (Z.land limb 0xFF).
Definition high_byte (limb : Z) : Z := as_u8 (Z.land (shr limb 8) 0xFF).

Definition populate_u16_to_u8_unsafe (a_u64 : Z) : Cols :=
  let l := u64_to_u16_limbs a_u64 in
  let f i := Fof (low_byte (nth i l 0)) in
  mkCols (mkWord (f 0%nat) (f 1%nat) (f 2%nat) (f 3%nat)).

Definition populate_u16_to_u8_safe (a_u64 : Z) : Cols * list ByteLookupEvent :=
  (populate_u16_to_u8_unsafe a_u64,
   flat_map (fun l => add_u8_range_check (low_byte l) (high_byte l)) (u64_to_u16_limbs a_u64)).

Definition eval_u16_to_u8_unsafe (u16_values : Word F) (cols : Cols) : list F :=
  let divisor := Finv (Fof (2 ^ 8)) in
  flat_map (fun p => [snd p; ((fst p - snd p) * divisor)%F])
           (combine (word_list u16_values) (word_list (low_bytes cols))).

Definition eval_u16_to_u8_safe (u16_values : Word F) (cols : Cols) (is_real : F)
  : list Emit * list F :=
  let ret := eval_u16_to_u8_unsafe u16_values cols in
  (slice_range_check_u8 ret is_real, ret).
End U16toU8Operation.

(** ** [BitwiseOperation] *)

(** [ByteOpcode::from]. *)
Definition byte_opcode_from (o : Opcode) : Res ByteOpcode :=
  match o with AND => Ok BAND | OR => Ok BOR | XOR => Ok BXOR | _ => Panic end.

Module BitwiseOperation.
Record Cols : Type := mkCols { result : list F }.

Definition populate_bitwise (a_u64 b_u64 c_u64 : Z) (o : Opcode) : Res (Cols * list ByteLookupEvent) :=
  let* bo := byte_opcode_from o in
  let a := to_le_bytes a_u64 in
  Ok (mkCols (map Fof a),
      map (fun p => mkByteLookupEvent bo (fst (fst p)) (snd (fst p)) (snd p))
          (combine (combine a (to_le_bytes b_u64)) (to_le_bytes c_u64))).

Definition eval_bitwise (a b : list F) (cols : Cols) (opcode is_real : F) : list Emit :=
  flat_map (fun p => send_byte opcode (fst (fst p)) (snd (fst p)) (snd p) is_real)
           (combine (combine (result cols) a) b).
End BitwiseOperation.

(** ** [BitwiseU16Operation] *)
Module BitwiseU16Operation.
Record Cols : Type := mkCols {
  b_low_bytes : U16toU8Operation.Cols;
  c_low_bytes : U16toU8Operation.Cols;
  bitwise_operation : BitwiseOperation.Cols
}.

Definition populate_bitwise (a_u64 b_u64 c_u64 : Z) (o : Opcode) : Res (Cols * list ByteLookupEvent) :=
  let* (bit, ev) := BitwiseOperation.populate_bitwise a_u64 b_u64 c_u64 o in
  Ok (mkCols (U16toU8Operation.populate_u16_to_u8_unsafe b_u64)
             (U16toU8Operation.populate_u16_to_u8_unsafe c_u64) bit, ev).

Definition eval_bitwise_u16 (b c : Word F) (cols : Cols) (opcode is_real : F)
  : list Emit * Word F :=
  let b_bytes := U16toU8Operation.eval_u16_to_u8_unsafe b (b_low_bytes cols) in
  let c_bytes := U16toU8Operation.eval_u16_to_u8_unsafe c (c_low_bytes cols) in
  let r i := nth i (BitwiseOperation.result (bitwise_operation cols)) F0 in
  let limb i := (r (2 * i)%nat + r (2 * i + 1)%nat * Fof (2 ^ 8))%F in
  (assert_bool is_real ++
   BitwiseOperation.eval_bitwise b_bytes c_bytes (bitwise_operation cols) opcode is_real,
   mkWord (limb 0%nat) (limb 1%nat) (limb 2%nat) (limb 3%nat)).
End BitwiseU16Operation.

(** ** Bytes of a word *)

Lemma inv256_eq (v low : F) : (v - low)%F = ((v - low) * Finv (Fof (2 ^ 8)) * Fof (2 ^ 8))%F.
Proof. apply Fmul_inv_eq; [apply Fof_neq_0; unfold KOALA_BEAR_ORDER; lia | reflexivity]. Qed.

Definition is_u8F (x : F) : Prop := Fval x < 2 ^ 8.

(** Checked bytes determine the limb they were split from. *)
Lemma limb_split (v low : F) :
  is_u8F low -> is_u8F ((v - low) * Finv (Fof (2 ^ 8)))%F ->
  Fval v = Fval low + 2 ^ 8 * Fval ((v - low) * Finv (Fof (2 ^ 8)))%F.
Proof.
  intros Hl Hh. pose proof (inv256_eq v low) as E.
  set (h := ((v - low) * Finv (Fof (2 ^ 8)))%F) in *. clearbody h.
  assert (E' : v = (low + h * Fof (2 ^ 8))%F) by (rewrite <- E; ring).
  rewrite E' at 1. unfold is_u8F in *. rewrite (Fval_rep _ (a := Fval low + Fval h * 2 ^ 8)) by F_lia. lia.
Qed.

Lemma u16_to_u8_sound (w : Word F) (cols : U16toU8Operation.Cols) :
  Forall is_u8F (U16toU8Operation.eval_u16_to_u8_unsafe w cols) ->
  le_value 8 (map Fval (U16toU8Operation.eval_u16_to_u8_unsafe w cols)) = word_val w.
Proof.
  destruct w as [w0 w1 w2 w3], cols as [[l0 l1 l2 l3]].
  unfold U16toU8Operation.eval_u16_to_u8_unsafe, word_val.
  cbn [U16toU8Operation.low_bytes word_list combine flat_map app fst snd map le_value limb0 limb1 limb2 limb3].
  intros H. repeat (apply Forall_cons_iff in H as [? H]).
  rewrite (limb_split w0 l0), (limb_split w1 l1), (limb_split w2 l2), (limb_split w3 l3) by assumption.
  lia.
Qed.

Lemma sats_u8 (l : list F) (mult : F) :
  mult <> F0 -> sats (slice_range_check_u8 l mult) -> Forall is_u8F l.
Proof.
  intros Hm. revert l. fix IH 1. intros [|x [|y l]].
  - constructor.
  - cbn [slice_range_check_u8 send_byte sats sat kind multiplicity values].
    rewrite lookup_u8. intros [H _]. constructor; [apply H; assumption | constructor].
  - cbn [slice_range_check_u8]. rewrite sats_app.
    cbn [send_byte sats sat kind multiplicity values]. rewrite lookup_u8.
    intros [[H _] H']. specialize (H Hm). constructor; [apply H|]. constructor; [apply H | apply IH, H'].
Qed.

(** The bytes [populate] fills in are those of the value. *)
Lemma low_high_byte (l : Z) :
  is_u16 l ->
  0 <= U16toU8Operation.low_byte l < 2 ^ 8 /\ 0 <= U16toU8Operation.high_byte l < 2 ^ 8 /\
  l = U16toU8Operation.low_byte l + 2 ^ 8 * U16toU8Operation.high_byte l.
Proof.
  unfold is_u. intros Hl. unfold U16toU8Operation.low_byte, U16toU8Operation.high_byte, as_u8, as_unsigned, shr.
  change 0xFF with (2 ^ 8 - 1). rewrite !land_mask, Z.shiftr_div_pow2 by lia. dlia.
Qed.

Lemma split_limb_populate (l : Z) :
  is_u16 l ->
  ((Fof l - Fof (U16toU8Operation.low_byte l)) * Finv (Fof (2 ^ 8)))%F
  = Fof (U16toU8Operation.high_byte l).
Proof.
  intros Hl. destruct (low_high_byte l Hl) as (B1 & B2 & E).
  apply Finv_mul_solve; [apply Fof_neq_0; unfold KOALA_BEAR_ORDER; lia|].
  F_fold. f_equal. lia.
Qed.

Definition limb_bytes (l : Z) : list Z := [U16toU8Operation.low_byte l; U16toU8Operation.high_byte l].

Lemma u16_to_u8_populate (a : Z) :
  U16toU8Operation.eval_u16_to_u8_unsafe (word_from_u64 a) (U16toU8Operation.populate_u16_to_u8_unsafe a)
  = map Fof (flat_map limb_bytes [limb16 a 0; limb16 a 1; limb16 a 2; limb16 a 3]).
Proof.
  rewrite word_from_u64_limbs.
  unfold U16toU8Operation.eval_u16_to_u8_unsafe, U16toU8Operation.populate_u16_to_u8_unsafe.
  rewrite u64_to_u16_limbs_eq.
  cbn [U16toU8Operation.low_bytes word_list combine flat_map app fst snd map nth limb0 limb1 limb2 limb3 limb_bytes].
  rewrite !split_limb_populate by apply limb16_bound. reflexivity.
Qed.

Lemma limb_bytes_le (a : Z) :
  flat_map limb_bytes [limb16 a 0; limb16 a 1; limb16 a 2; limb16 a 3] = to_le_bytes a.
Proof.
  unfold limb_bytes, limb16, to_le_bytes, U16toU8Operation.low_byte, U16toU8Operation.high_byte,
    as_u8, as_unsigned, shr.
  cbn [flat_map app le_bytes]. change 0xFF with (2 ^ 8 - 1).
  rewrite !land_mask, !Z.shiftr_div_pow2, !Zmod_mod by lia.
  change (2 ^ (16 * 0)) with 1. change (2 ^ (16 * 1)) with (2 ^ 16).
  change (2 ^ (16 * 2)) with (2 ^ 32). change (2 ^ (16 * 3)) with (2 ^ 48).
  rewrite Z.div_1_r. rewrite !Z.div_div by lia.
  change (2 ^ 8 * 2 ^ 8) with (2 ^ 16). change (2 ^ 8 * 2 ^ 8 * 2 ^ 8) with (2 ^ 24).
  assert (E : forall x, (x mod 2 ^ 16) mod 2 ^ 8 = x mod 2 ^ 8) by (intros; apply (mod_mod_le _ 8 16); lia).
  assert (E' : forall x, (x mod 2 ^ 16 / 2 ^ 8) mod 2 ^ 8 = (x / 2 ^ 8) mod 2 ^ 8).
  { intros x. change (2 ^ 16) with (2 ^ 8 * 2 ^ 8). rewrite Z.rem_mul_r, (Z.mul_comm (2 ^ 8)) by lia.
    rewrite Z.div_add by lia. rewrite (Z.div_small (x mod 2 ^ 8)) by (apply Z.mod_pos_bound; lia).
    apply Zmod_mod. }
  rewrite !E, !E', !Z.div_div by lia. reflexivity.
Qed.

(** ** The bitwise gadget *)

Definition bit_op (o : ByteOpcode) : Z -> Z -> Z :=
  match o with BAND => Z.land | BOR => Z.lor | _ => Z.lxor end.

Definition is_bit_op (o : ByteOpcode) : Prop := o = BAND \/ o = BOR \/ o = BXOR.

Lemma bit_op_table (o : ByteOpcode) (b c : Z) : is_bit_op o -> byte_table_value o b c = bit_op o b c.
Proof. intros [-> | [-> | ->]]; reflexivity. Qed.

Lemma bit_op_bytes (o : ByteOpcode) (l1 l2 : list Z) :
  length l1 = length l2 ->
  Forall (fun x => 0 <= x < 2 ^ 8) l1 -> Forall (fun x => 0 <= x < 2 ^ 8) l2 ->
  bit_op o (le_value 8 l1) (le_value 8 l2)
  = le_value 8 (map (fun p => bit_op o (fst p) (snd p)) (combine l1 l2)).
Proof.
  intros. destruct o; cbn [bit_op]; apply le_value_bitwise;
    auto using land_concat, lor_concat, lxor_concat; lia.
Qed.

Lemma bit_op_bound (o : ByteOpcode) (a b n : Z) :
  0 <= n -> 0 <= a < 2 ^ n -> 0 <= b < 2 ^ n -> 0 <= bit_op o a b < 2 ^ n.
Proof. intros. destruct o; cbn [bit_op]; auto with sp1. Qed.

(** What the lookups of one byte each say, for the whole list. *)
Lemma bitwise_sound (o : ByteOpcode) (a b r : list F) :
  is_bit_op o -> length r = length a -> length b = length a ->
  sats (BitwiseOperation.eval_bitwise a b (BitwiseOperation.mkCols r) (byte_op o) F1) ->
  Forall is_u8F a /\ Forall is_u8F b /\ Forall is_u8F r /\
  map Fval r = map (fun p => bit_op o (fst p) (snd p)) (combine (map Fval a) (map Fval b)).
Proof.
  intros Ho. unfold BitwiseOperation.eval_bitwise. cbn [BitwiseOperation.result].
  revert b r. induction a as [|x a IH]; intros [|y b] [|z r] Hr Hb H; try discriminate;
    [repeat split; constructor|].
  cbn [combine flat_map fst snd] in H. rewrite sats_app in H. destruct H as [[H _] H'].
  specialize (H F1_neq_0). cbn [values] in H. apply lookup_bitwise in H; [|exact Ho].
  destruct H as (Hx & Hy & Hz). rewrite bit_op_table in Hz by assumption.
  destruct (IH b r) as (Ha' & Hb' & Hr' & E); auto.
  pose proof (Fval_bound x). pose proof (Fval_bound y).
  repeat split; try (constructor; assumption).
  - constructor; [|assumption]. unfold is_u8F. rewrite Hz. apply bit_op_bound; lia.
  - cbn [map combine fst snd]. rewrite Hz, E. reflexivity.
Qed.

Lemma u8F_bytes (l : list F) : Forall is_u8F l -> Forall (fun x => 0 <= x < 2 ^ 8) (map Fval l).
Proof.
  intros H. apply Forall_map. eapply Forall_impl; [|exact H]. cbn. unfold is_u8F. intros x Hx.
  pose proof (Fval_bound x). lia.
Qed.

(** Eight checked bytes put together as a word. *)
Lemma bytes_word (r : list F) :
  length r = 8%nat -> Forall is_u8F r ->
  let limb i := (nth (2 * i) r F0 + nth (2 * i + 1) r F0 * Fof (2 ^ 8))%F in
  let w := mkWord (limb 0%nat) (limb 1%nat) (limb 2%nat) (limb 3%nat) in
  valid_word w /\ word_val w = le_value 8 (map Fval r).
Proof.
  intros Hlen H. do 8 (destruct r as [|? r]; [discriminate|]). destruct r; [|discriminate].
  repeat (apply Forall_cons_iff in H as [? H]). cbn [nth Nat.mul Nat.add map le_value].
  assert (E : forall x y, is_u8F x -> is_u8F y -> Fval (x + y * Fof (2 ^ 8))%F = Fval x + Fval y * 2 ^ 8)
    by (intros x y Hx Hy; unfold is_u8F in *; apply (Fval_rep _ (a := Fval x + Fval y * 2 ^ 8)); F_lia).
  unfold valid_word, word_val, is_u16F. cbn [limb0 limb1 limb2 limb3].
  rewrite !E by assumption. unfold is_u8F in *. split; F_lia.
Qed.

Lemma bitwise_u16_sound (o : ByteOpcode) (b c : Word F) (cols : BitwiseU16Operation.Cols) :
  is_bit_op o ->
  length (BitwiseOperation.result (BitwiseU16Operation.bitwise_operation cols)) = 8%nat ->
  let '(em, w) := BitwiseU16Operation.eval_bitwise_u16 b c cols (byte_op o) F1 in
  sats em -> valid_word w /\ word_val w = bit_op o (word_val b) (word_val c).
Proof.
  intros Ho Hlen. unfold BitwiseU16Operation.eval_bitwise_u16. intros H.
  apply sats_app in H as [_ H]. destruct cols as [bl cl [r]].
  cbn [BitwiseU16Operation.b_low_bytes BitwiseU16Operation.c_low_bytes
       BitwiseU16Operation.bitwise_operation BitwiseOperation.result] in *.
  apply bitwise_sound in H as (Hb & Hc & Hr & E); [|assumption | assumption | reflexivity].
  destruct (bytes_word r Hlen Hr) as [Hv Ev]. split; [exact Hv|]. rewrite Ev, E.
  rewrite <- bit_op_bytes by (reflexivity || (apply u8F_bytes; assumption)).
  rewrite !u16_to_u8_sound by assumption. reflexivity.
Qed.

Lemma bit_op_concat (o : ByteOpcode) (n a b a' b' : Z) :
  0 <= n -> 0 <= a < 2 ^ n -> 0 <= b < 2 ^ n ->
  bit_op o (a + a' * 2 ^ n) (b + b' * 2 ^ n) = bit_op o a b + bit_op o a' b' * 2 ^ n.
Proof. intros. destruct o; cbn [bit_op]; auto using land_concat, lor_concat, lxor_concat. Qed.

Lemma bit_op_le_bytes (o : ByteOpcode) (n : nat) (b c : Z) :
  le_bytes n (bit_op o b c)
  = map (fun p => bit_op o (fst p) (snd p)) (combine (le_bytes n b) (le_bytes n c)).
Proof.
  revert b c. induction n as [|n IH]; intros b c; [reflexivity|]. cbn [le_bytes combine map fst snd].
  assert (E : bit_op o b c = bit_op o (b mod 2 ^ 8) (c mod 2 ^ 8) + bit_op o (b / 2 ^ 8) (c / 2 ^ 8) * 2 ^ 8).
  { rewrite <- bit_op_concat by (try apply Z.mod_pos_bound; lia).
    f_equal; rewrite Z.add_comm, (Z.mul_comm _ (2 ^ 8)); apply Z_div_mod_eq_full. }
  assert (0 <= bit_op o (b mod 2 ^ 8) (c mod 2 ^ 8) < 2 ^ 8)
    by (apply bit_op_bound; try apply Z.mod_pos_bound; lia).
  rewrite E. f_equal; [rewrite Z_mod_plus_full; apply Z.mod_small; assumption|].
  rewrite Z.div_add by lia. rewrite Z.div_small by assumption. cbn [Z.add]. apply IH.
Qed.

(** One byte lookup, as sent and as recorded. *)
Lemma complete_bit_lookup (o : ByteOpcode) (b c : Z) :
  is_bit_op o -> 0 <= b < 2 ^ 8 -> 0 <= c < 2 ^ 8 ->
  complete (send_byte (byte_op o) (Fof (bit_op o b c)) (Fof b) (Fof c) F1)
           [mkByteLookupEvent o (bit_op o b c) b c].
Proof.
  intros Ho Hb Hc. pose proof (bit_op_bound o b c 8 ltac:(lia) Hb Hc). split.
  - cbn [send_byte sats sat kind multiplicity values]. split; [|exact I]. intros _.
    apply lookup_bitwise; [exact Ho|].
    rewrite !Fval_of_small by (unfold KOALA_BEAR_ORDER; lia).
    rewrite bit_op_table by assumption. lia.
  - cbn. rewrite (Feqb_neq F1 F0 F1_neq_0). reflexivity.
Qed.

Lemma bitwise_complete (o : ByteOpcode) (l1 l2 : list Z) :
  is_bit_op o -> length l1 = length l2 ->
  Forall (fun x => 0 <= x < 2 ^ 8) l1 -> Forall (fun x => 0 <= x < 2 ^ 8) l2 ->
  let r := map (fun p => bit_op o (fst p) (snd p)) (combine l1 l2) in
  complete (BitwiseOperation.eval_bitwise (map Fof l1) (map Fof l2)
              (BitwiseOperation.mkCols (map Fof r)) (byte_op o) F1)
           (map (fun p => mkByteLookupEvent o (fst (fst p)) (snd (fst p)) (snd p))
                (combine (combine r l1) l2)).
Proof.
  intros Ho Hlen H1. revert l2 Hlen. induction H1 as [|x l1 Hx _ IH]; intros [|y l2] Hlen H2;
    try discriminate; [apply complete_asserts; [exact I | reflexivity]|].
  inversion H2; subst. unfold BitwiseOperation.eval_bitwise in *. cbn [BitwiseOperation.result] in *.
  cbn [combine map flat_map fst snd].
  apply (complete_app _ _ [_]); [apply complete_bit_lookup; assumption|].
  apply IH; [injection Hlen; auto | assumption].
Qed.

Definition bitwise_opcode (o : Opcode) : ByteOpcode :=
  match o with AND => BAND | OR => BOR | _ => BXOR end.

Lemma byte_opcode_from_bitwise (o : Opcode) :
  o = AND \/ o = OR \/ o = XOR ->
  byte_opcode_from o = Ok (bitwise_opcode o) /\ is_bit_op (bitwise_opcode o).
Proof. unfold is_bit_op. intros [-> | [-> | ->]]; cbn; auto. Qed.

Lemma bitwise_u16_complete (o : Opcode) (b c : Z) :
  o = AND \/ o = OR \/ o = XOR -> is_u64 b -> is_u64 c ->
  exists cols events,
    BitwiseU16Operation.populate_bitwise (bit_op (bitwise_opcode o) b c) b c o = Ok (cols, events) /\
    complete (fst (BitwiseU16Operation.eval_bitwise_u16 (word_from_u64 b) (word_from_u64 c) cols
                     (byte_op (bitwise_opcode o)) F1)) events.
Proof.
  intros Ho Hb Hc. destruct (byte_opcode_from_bitwise o Ho) as [E Hb'].
  unfold BitwiseU16Operation.populate_bitwise, BitwiseOperation.populate_bitwise. rewrite E.
  cbv beta iota zeta delta [bind]. eexists _, _. split; [reflexivity|].
  unfold BitwiseU16Operation.eval_bitwise_u16.
  cbn [fst BitwiseU16Operation.b_low_bytes BitwiseU16Operation.c_low_bytes
       BitwiseU16Operation.bitwise_operation].
  apply complete_asserts_app; [apply complete_bool; right; reflexivity|].
  rewrite !u16_to_u8_populate, !limb_bytes_le. unfold to_le_bytes. rewrite bit_op_le_bytes.
  apply (bitwise_complete (bitwise_opcode o) (le_bytes 8 b) (le_bytes 8 c) Hb');
    [rewrite !le_bytes_length; reflexivity | apply le_bytes_bound | apply le_bytes_bound].
Qed.
