(* ===== verification/Mul.v ===== *)
(** * Operation gadget: multiplication

    [crates/core/machine/src/operations/mul.rs]: the schoolbook product of two
    64-bit words in bytes, sign extended to sixteen bytes for the signed upper
    products, with a carry per byte of the result. *)

From Stdlib Require Import ZArith Lia List Bool Permutation.
From S2P Require Import Prelude Words Isa Field Air AirFacts Operations Compare Bitwise.
Import ListNotations.
Open Scope Z_scope.

(** ** The product loop

    [for i .. for j .. if i + j < 16 { m[i + j] += b[i] * c[j] }] over any
    semiring of entries: the row of [b[i]] is added to the entries of [m] from
    [i] on, as far as [m] goes; the entry [i] is final after row [i]. *)
Section ProductLoop.
Context {T : Type} (add mul : T -> T -> T).

Fixpoint add_row (x : T) (c m : list T) : list T :=
  match c, m with
  | cj :: c, mj :: m => add mj (mul x cj) :: add_row x c m
  | _, m => m
  end.

Fixpoint product_loop (b c m : list T) : list T :=
  match b with
  | [] => m
  | bi :: b =>
      match add_row bi c m with
      | [] => []
      | m0 :: m => m0 :: product_loop b c m
      end
  end.
End ProductLoop.

Definition product_loopZ : list Z -> list Z -> list Z -> list Z := product_loop Z.add Z.mul.
Definition product_loopF : list F -> list F -> list F -> list F := product_loop Fadd Fmul.

(** The carry loop of [populate]: carries and bytes of the product. *)
Fixpoint propagate (cin : Z) (m : list Z) : list Z * list Z :=
  match m with
  | [] => ([], [])
  | x :: m =>
      let t := x + cin in
      let '(cs, ps) := propagate (t / 2 ^ 8) m in
      (t / 2 ^ 8 :: cs, t mod 2 ^ 8 :: ps)
  end.

(** The carry constraints: [product[i] = m[i] + carry[i - 1] - carry[i] * 2^8],
    without a carry in at [i = 0]. *)
Fixpoint carry_eqs (cin : option F) (m carry product : list F) : list Emit :=
  match m, carry, product with
  | x :: m, c :: carry, p :: product =>
      assert_eq p (match cin with
                   | None => x - c * Fof (2 ^ 8)
                   | Some cin => x + cin - c * Fof (2 ^ 8)
                   end)%F ++
      carry_eqs (Some c) m carry product
  | _, _, _ => []
  end.

(** ** [MulOperation] *)
Module MulOperation.
Record Cols : Type := mkCols {
  carry : list F;
  product : list F;
  b_lower_byte : U16toU8Operation.Cols;
  c_lower_byte : U16toU8Operation.Cols;
  b_msb : F;
  c_msb : F;
  product_msb : U16MSBOperation.Cols;
  b_sign_extend : F;
  c_sign_extend : F
}.

Definition get_msb (a : list Z) : Z := Z.land (shr (nth 7 a 0) 7) 1.

Definition populate (b_u64 c_u64 : Z) (is_mulh is_mulhsu is_mulw : bool) : Cols * list ByteLookupEvent :=
  let b_word := to_le_bytes b_u64 in
  let c_word := to_le_bytes c_u64 in
  let mulw_value := as_u64 (as_i32 (as_i32 b_u64 * as_i32 c_u64)) in
  let limbs := u64_to_u16_limbs mulw_value in
  let '(product_msb, ev_msb) :=
    if is_mulw then fst (U16MSBOperation.populate_msb (nth 1 limbs 0))
    else (U16MSBOperation.mkCols F0, []) in
  let '(b_low, ev_b) := U16toU8Operation.populate_u16_to_u8_safe b_u64 in
  let '(c_low, ev_c) := U16toU8Operation.populate_u16_to_u8_safe c_u64 in
  let b_msb := get_msb b_word in
  let c_msb := get_msb c_word in
  let b_ext := (is_mulh || is_mulhsu) && (b_msb =? 1) in
  let c_ext := is_mulh && (c_msb =? 1) in
  let b := if b_ext then b_word ++ repeat 0xff 8 else b_word in
  let c := if c_ext then c_word ++ repeat 0xff 8 else c_word in
  let ev_sign := [mkByteLookupEvent BMSB (get_msb b_word) (nth 7 b_word 0) 0;
                  mkByteLookupEvent BMSB (get_msb c_word) (nth 7 c_word 0) 0] in
  let '(carry, product) := propagate 0 (product_loopZ b c (repeat 0 16)) in
  (mkCols (map Fof carry) (map Fof product) b_low c_low (Fof b_msb) (Fof c_msb) product_msb
     (Fof_bool b_ext) (Fof_bool c_ext),
   ev_msb ++ ev_b ++ ev_c ++ ev_sign ++
   add_u16_range_checks (map as_u16 carry) ++ add_u8_range_checks (map as_u8 product)).

(** The comparison of limb [i] of the result with the product. *)
Definition compare_limb (a_word : Word F) (cols : Cols) (is_word is_lower is_upper : F) (i : nat)
  : list Emit :=
  let a := nth i (word_list a_word) F0 in
  let p j := nth j (product cols) F0 in
  (if (i <? 2)%nat then
     when is_word (assert_eq (p (2 * i)%nat + p (2 * i + 1)%nat * Fof (2 ^ 8))%F a)
   else
     when is_word (assert_eq (U16MSBOperation.msb (product_msb cols) * Fof (2 ^ 16 - 1))%F a)) ++
  when is_lower (assert_eq (p (2 * i)%nat + p (2 * i + 1)%nat * Fof (2 ^ 8))%F a) ++
  when is_upper (assert_eq (p (2 * i + 8)%nat + p (2 * i + 1 + 8)%nat * Fof (2 ^ 8))%F a).

Definition eval (a_word b_word c_word : Word F) (cols : Cols)
    (is_real is_mul is_mulh is_mulw is_mulhu is_mulhsu : F) : list Emit :=
  let '(em_b, b) := U16toU8Operation.eval_u16_to_u8_safe b_word (b_lower_byte cols) is_real in
  let '(em_c, c) := U16toU8Operation.eval_u16_to_u8_safe c_word (c_lower_byte cols) is_real in
  let b_extended := b ++ repeat (b_sign_extend cols * Fof 0xff)%F 8 in
  let c_extended := c ++ repeat (c_sign_extend cols * Fof 0xff)%F 8 in
  let m := product_loopF b_extended c_extended (repeat F0 16) in
  em_b ++ em_c ++
  send_byte (byte_op BMSB) (b_msb cols) (nth 7 b F0) F0 is_real ++
  send_byte (byte_op BMSB) (c_msb cols) (nth 7 c F0) F0 is_real ++
  U16MSBOperation.eval_msb (limb1 a_word) (product_msb cols) is_mulw ++
  assert_eq (b_sign_extend cols) ((is_mulh + is_mulhsu) * b_msb cols)%F ++
  assert_eq (c_sign_extend cols) (is_mulh * c_msb cols)%F ++
  when is_real (carry_eqs None m (carry cols) (product cols)) ++
  flat_map (compare_limb a_word cols is_mulw is_mul (is_mulh + is_mulhu + is_mulhsu)%F) (seq 0 4) ++
  flat_map assert_bool
    [b_msb cols; c_msb cols; b_sign_extend cols; c_sign_extend cols; is_mul; is_mulh; is_mulhu;
     is_mulhsu; is_mulw; (is_mul + is_mulh + is_mulhu + is_mulhsu + is_mulw)%F; is_real] ++
  when (b_sign_extend cols) (assert_eq (b_msb cols) F1) ++
  when (c_sign_extend cols) (assert_eq (c_msb cols) F1) ++
  slice_range_check_u16 (carry cols) is_real ++
  slice_range_check_u8 (product cols) is_real.
End MulOperation.

(** ** The product loop computes the product *)

Lemma add_row_length {T} (add mul : T -> T -> T) (x : T) (c m : list T) :
  length (add_row add mul x c m) = length m.
Proof. revert m. induction c as [|y c IH]; intros [|z m]; cbn; auto. Qed.

Lemma product_loop_length {T} (add mul : T -> T -> T) (b c m : list T) :
  length (product_loop add mul b c m) = length m.
Proof.
  revert m. induction b as [|x b IH]; intros m; [reflexivity|]. cbn.
  pose proof (add_row_length add mul x c m) as E. destruct (add_row add mul x c m); [exact E|].
  cbn in *. rewrite IH. assumption.
Qed.

(** Over the field, the loop is the image of the loop over the integers. *)
Lemma add_row_F (x : Z) (c m : list Z) :
  add_row Fadd Fmul (Fof x) (map Fof c) (map Fof m) = map Fof (add_row Z.add Z.mul x c m).
Proof.
  revert m. induction c as [|y c IH]; intros [|z m]; cbn; try reflexivity.
  rewrite IH, Fof_mul, Fof_add. reflexivity.
Qed.

Lemma product_loop_F (b c m : list Z) :
  product_loopF (map Fof b) (map Fof c) (map Fof m) = map Fof (product_loopZ b c m).
Proof.
  unfold product_loopF, product_loopZ. revert m. induction b as [|x b IH]; intros m; [reflexivity|].
  cbn. rewrite add_row_F. destruct (add_row Z.add Z.mul x c m); cbn; [reflexivity|]. f_equal. apply IH.
Qed.

Lemma add_row_value (x : Z) (c m : list Z) :
  exists k, le_value 8 (add_row Z.add Z.mul x c m)
            = le_value 8 m + x * le_value 8 c + 2 ^ (8 * Z.of_nat (length m)) * k.
Proof.
  revert m. induction c as [|y c IH]; intros [|z m]; cbn [add_row le_value length].
  - exists 0. lia.
  - exists 0. lia.
  - exists (- (x * (y + 2 ^ 8 * le_value 8 c))). change (2 ^ (8 * Z.of_nat 0)) with 1. lia.
  - destruct (IH m) as [k Hk]. exists k. rewrite Hk.
    replace (8 * Z.of_nat (S (length m))) with (8 + 8 * Z.of_nat (length m)) by lia.
    rewrite pow2_split by lia. ring.
Qed.

Lemma product_loop_value (b c m : list Z) :
  exists k, le_value 8 (product_loopZ b c m)
            = le_value 8 m + le_value 8 b * le_value 8 c + 2 ^ (8 * Z.of_nat (length m)) * k.
Proof.
  unfold product_loopZ. revert m. induction b as [|x b IH]; intros m; cbn [product_loop le_value].
  { exists 0. lia. }
  destruct (add_row_value x c m) as [k Hk]. pose proof (add_row_length Z.add Z.mul x c m) as Hl.
  destruct (add_row Z.add Z.mul x c m) as [|m0 mr] eqn:E.
  - destruct m; [|discriminate]. cbn [le_value length] in *. change (2 ^ (8 * Z.of_nat 0)) with 1 in *.
    exists (- ((x + 2 ^ 8 * le_value 8 b) * le_value 8 c)). lia.
  - destruct (IH mr) as [k' Hk']. cbn [le_value length] in *. exists (k + k'). rewrite Hk'.
    rewrite <- Hl in *. replace (8 * Z.of_nat (S (length mr))) with (8 + 8 * Z.of_nat (length mr)) in * by lia.
    rewrite pow2_split in * by lia. nia.
Qed.

(** Each entry is a sum of at most as many byte products as [b] has entries. *)
Lemma add_row_bound (x K : Z) (c m : list Z) :
  0 <= x < 2 ^ 8 -> Forall (fun y => 0 <= y < 2 ^ 8) c -> Forall (fun z => 0 <= z <= K) m ->
  Forall (fun z => 0 <= z <= K + 255 * 255) (add_row Z.add Z.mul x c m).
Proof.
  intros Hx Hc. revert m. induction Hc as [|y c Hy _ IH]; intros m Hm.
  - cbn. destruct m; (eapply Forall_impl; [|exact Hm]); cbn; lia.
  - destruct m as [|z m]; [constructor|]. inversion Hm; subst. cbn. constructor; [nia | auto].
Qed.

Lemma product_loop_bound (b c m : list Z) (K : Z) :
  Forall (fun y => 0 <= y < 2 ^ 8) b -> Forall (fun y => 0 <= y < 2 ^ 8) c ->
  Forall (fun z => 0 <= z <= K) m ->
  Forall (fun z => 0 <= z <= K + Z.of_nat (length b) * (255 * 255)) (product_loopZ b c m).
Proof.
  intros Hb Hc. unfold product_loopZ. revert m K. induction Hb as [|x b Hx _ IH]; intros m K Hm.
  { cbn. eapply Forall_impl; [|exact Hm]. cbn. lia. }
  cbn [product_loop length]. pose proof (add_row_bound x K c m Hx Hc Hm) as Hr.
  destruct (add_row Z.add Z.mul x c m) as [|m0 mr]; [constructor|].
  apply Forall_cons_iff in Hr as [H0 Hr]. constructor; [lia|].
  eapply Forall_impl; [|apply (IH mr _ Hr)]. cbn. lia.
Qed.

(** ** The carries *)

Definition cin_val (cin : option F) : Z := match cin with None => 0 | Some c => Fval c end.

Lemma carry_eqs_sound (m : list Z) (carry product : list F) (cin : option F) :
  Forall (fun x => 0 <= x <= 2 ^ 21) m -> Forall is_u16F carry -> Forall is_u8F product ->
  length carry = length m -> length product = length m -> cin_val cin < 2 ^ 16 ->
  sats (carry_eqs cin (map Fof m) carry product) ->
  exists k, le_value 8 m + cin_val cin
            = le_value 8 (map Fval product) + 2 ^ (8 * Z.of_nat (length m)) * k.
Proof.
  intros Hm. revert carry product cin. induction Hm as [|x m Hx _ IH];
    intros [|c carry] [|p product] cin Hc Hp Lc Lp Hcin H; try discriminate.
  { exists (cin_val cin). cbn [le_value map length]. change (2 ^ (8 * Z.of_nat 0)) with 1. lia. }
  inversion Hc; inversion Hp; subst. cbn [map carry_eqs] in H. apply sats_app in H as [[E _] H].
  specialize (E I). cbn [holds] in E.
  destruct (IH carry product (Some c)) as [k Hk]; auto.
  assert (Ez : Fval p = x + cin_val cin - Fval c * 2 ^ 8)
    by (unfold is_u8F in *; destruct cin as [cin|]; cbn [cin_val] in *; to_Z E; lia).
  exists k. cbn [cin_val] in Hk. cbn [le_value map length].
  replace (8 * Z.of_nat (S (length m))) with (8 + 8 * Z.of_nat (length m)) by lia.
  rewrite pow2_split by lia. rewrite Ez. lia.
Qed.

Lemma propagate_complete (m : list Z) (cin : Z) (cinF : option F) :
  Forall (fun x => 0 <= x <= 2 ^ 21) m -> 0 <= cin < 2 ^ 16 ->
  (cinF = Some (Fof cin) \/ (cinF = None /\ cin = 0)) ->
  let '(cs, ps) := propagate cin m in
  sats (carry_eqs cinF (map Fof m) (map Fof cs) (map Fof ps)) /\
  Forall (fun x => 0 <= x < 2 ^ 16) cs /\ Forall (fun x => 0 <= x < 2 ^ 8) ps /\
  length cs = length m /\ length ps = length m /\
  exists k, le_value 8 m + cin = le_value 8 ps + 2 ^ (8 * Z.of_nat (length m)) * k.
Proof.
  intros Hm. revert cin cinF. induction Hm as [|x m Hx _ IH]; intros cin cinF Hcin HF.
  { repeat split; try constructor. exists cin. cbn [le_value length].
    change (2 ^ (8 * Z.of_nat 0)) with 1. lia. }
  cbn [propagate]. set (t := x + cin).
  assert (Ht : 0 <= t / 2 ^ 8 < 2 ^ 16) by (unfold t; dlia).
  specialize (IH (t / 2 ^ 8) (Some (Fof (t / 2 ^ 8))) Ht (or_introl eq_refl)).
  destruct (propagate (t / 2 ^ 8) m) as [cs ps].
  destruct IH as (Hs & Hcs & Hps & Lc & Lp & k & Hk).
  assert (0 <= t mod 2 ^ 8 < 2 ^ 8) by (apply Z.mod_pos_bound; lia).
  pose proof (Z_div_mod_eq_full t (2 ^ 8)) as Et.
  cbn [map carry_eqs]. rewrite sats_app. repeat split; try constructor; auto; cbn [length]; try lia.
  - intros _. cbn [holds]. destruct HF as [-> | [-> ->]]; F_fold; f_equal; unfold t in *; lia.
  - exists k. cbn [le_value length].
    replace (8 * Z.of_nat (S (length m))) with (8 + 8 * Z.of_nat (length m)) by lia.
    rewrite pow2_split by lia. unfold t in *. nia.
Qed.

Lemma byte_lookups_carry_eqs (cin : option F) (m carry product : list F) :
  byte_lookups (carry_eqs cin m carry product) = [].
Proof.
  revert cin carry product. induction m as [|x m IH]; intros cin [|c carry] [|p product]; try reflexivity.
  cbn. apply IH.
Qed.

(** ** Signs *)

(** The integer the gadget multiplies: the operand, sign extended if asked. *)
Definition operand (signed : bool) (x : Z) : Z := if signed then as_i64 x else x.

(** The extension bytes: sixteen bytes whose value is the operand modulo [2^128]. *)
Lemma extended_value (l : list Z) (ext : bool) (x : Z) (signed : bool) :
  length l = 8%nat -> le_value 8 l = x -> is_u64 x ->
  ext = signed && negb (x <? 2 ^ 63) ->
  exists k, le_value 8 (l ++ repeat (if ext then 255 else 0) 8) = operand signed x + 2 ^ 128 * k.
Proof.
  intros Hl Hv Hx He. unfold is_u in Hx. rewrite le_value_app, Hl, Hv by lia.
  change (2 ^ (8 * Z.of_nat 8)) with (2 ^ 64).
  unfold operand, as_i64. rewrite as_signed_small by assumption. change (64 - 1) with 63.
  destruct ext, signed; cbn [andb negb] in He; try discriminate.
  - destruct (x <? 2 ^ 63); [discriminate|]. exists 1.
    change (le_value 8 (repeat 255 8)) with (2 ^ 64 - 1). lia.
  - destruct (x <? 2 ^ 63); [|discriminate]. exists 0. change (le_value 8 (repeat 0 8)) with 0. lia.
  - exists 0. change (le_value 8 (repeat 0 8)) with 0. lia.
Qed.

Lemma top_byte (l : list Z) (x : Z) :
  length l = 8%nat -> Forall (fun b => 0 <= b < 2 ^ 8) l -> le_value 8 l = x ->
  (nth 7 l 0 <? 128) = (x <? 2 ^ 63).
Proof.
  intros Hl Hb Hv. do 8 (destruct l as [|? l]; [discriminate|]). destruct l; [|discriminate].
  repeat (apply Forall_cons_iff in Hb as [? Hb]). cbn [nth le_value] in *.
  apply eq_true_iff_eq. rewrite !Z.ltb_lt. lia.
Qed.

Lemma map_Fof_Fval (l : list F) : map Fof (map Fval l) = l.
Proof. rewrite map_map. rewrite <- (map_id l) at 2. apply map_ext. apply Fof_val. Qed.

(** The shape of the columns: sixteen carries and product bytes. *)
Definition mul_shape (cols : MulOperation.Cols) : Prop :=
  length (MulOperation.carry cols) = 16%nat /\ length (MulOperation.product cols) = 16%nat.

(** The bytes of an operand after its checks: eight bytes with the value of the
    word, and the top bit in the [msb] column. *)
Lemma operand_bytes (w : Word F) (low : U16toU8Operation.Cols) (msb : F) :
  let bytes := U16toU8Operation.eval_u16_to_u8_unsafe w low in
  sats (slice_range_check_u8 bytes F1) ->
  sats (send_byte (byte_op BMSB) msb (nth 7 bytes F0) F0 F1) ->
  length bytes = 8%nat /\ Forall is_u8F bytes /\ le_value 8 (map Fval bytes) = word_val w /\
  msb = Fof_bool (negb (word_val w <? 2 ^ 63)).
Proof.
  cbn zeta. set (bytes := U16toU8Operation.eval_u16_to_u8_unsafe w low). intros H8 [Hm _].
  apply sats_u8 in H8; [|apply F1_neq_0].
  assert (Hl : length bytes = 8%nat) by reflexivity.
  pose proof (u16_to_u8_sound w low H8) as Hv. fold bytes in Hv.
  repeat split; try assumption. specialize (Hm F1_neq_0). cbn [values] in Hm.
  apply lookup_msb in Hm as [_ Hm].
  rewrite <- (top_byte (map Fval bytes) (word_val w));
    [ | rewrite length_map; assumption | apply u8F_bytes; assumption | assumption].
  change 0 with (Fval F0). rewrite map_nth. apply Fval_inj. rewrite Hm.
  destruct (Fval (nth 7 bytes F0) <? 128); reflexivity.
Qed.

Lemma sign_ext_col (flag : bool) (msb ext : F) (neg : bool) :
  msb = Fof_bool neg -> ext = (Fof_bool flag * msb)%F ->
  (ext * Fof 255)%F = Fof (if flag && neg then 255 else 0).
Proof. intros -> ->. destruct flag, neg; cbn; F_fold; reflexivity. Qed.

Lemma map_Fof_repeat (x : Z) (n : nat) : map Fof (repeat x n) = repeat (Fof x) n.
Proof. apply map_repeat. Qed.

(** Sixteen bytes by sixteen bytes: the carries make the product bytes those of
    the product modulo [2^128]. *)
Lemma product_columns_sound (lb lc : list Z) (carry product : list F) :
  Forall (fun x => 0 <= x < 2 ^ 8) lb -> Forall (fun x => 0 <= x < 2 ^ 8) lc -> length lb = 16%nat ->
  length carry = 16%nat -> length product = 16%nat -> Forall is_u16F carry -> Forall is_u8F product ->
  sats (carry_eqs None (product_loopF (map Fof lb) (map Fof lc) (repeat F0 16)) carry product) ->
  le_value 8 (map Fval product) = (le_value 8 lb * le_value 8 lc) mod 2 ^ 128.
Proof.
  intros Bb Bc Lb Lc Lp R16 R8 H. change (repeat F0 16) with (map Fof (repeat 0 16)) in H.
  rewrite product_loop_F in H.
  assert (Hlen : length (product_loopZ lb lc (repeat 0 16)) = 16%nat)
    by (unfold product_loopZ; rewrite product_loop_length; reflexivity).
  apply carry_eqs_sound in H as [k Hk]; rewrite ?Hlen; try assumption; [| |cbn; lia].
  - destruct (product_loop_value lb lc (repeat 0 16)) as [k' Hk'].
    change (2 ^ (8 * Z.of_nat (length (repeat 0 16)))) with (2 ^ 128) in *.
    change (le_value 8 (repeat 0 16)) with 0 in Hk'. rewrite Hlen in Hk. cbn [cin_val] in Hk.
    pose proof (le_value_bound 8 (map Fval product) ltac:(lia) (u8F_bytes _ R8)) as Bp.
    rewrite length_map, Lp in Bp. change (2 ^ (8 * Z.of_nat 16)) with (2 ^ 128) in *.
    symmetry. apply mod_small_eq; [lia | exact Bp |]. exists (k - k'). lia.
  - eapply Forall_impl; [|apply (product_loop_bound lb lc (repeat 0 16) 0 Bb Bc)].
    + cbn. intros x. rewrite Lb. lia.
    + apply Forall_forall. intros x Hx. apply repeat_spec in Hx. lia.
Qed.

Lemma extended_bytes (bytes : list F) (ext : bool) :
  Forall is_u8F bytes -> length bytes = 8%nat ->
  Forall (fun x => 0 <= x < 2 ^ 8) (map Fval bytes ++ repeat (if ext then 255 else 0) 8) /\
  length (map Fval bytes ++ repeat (if ext then 255 else 0) 8) = 16%nat.
Proof.
  intros H8 Hl. split; [|rewrite length_app, length_map, Hl, repeat_length; reflexivity].
  apply Forall_app. split; [apply u8F_bytes; assumption|].
  apply Forall_forall. intros x Hx. apply repeat_spec in Hx. subst x. destruct ext; lia.
Qed.

(** The product columns hold the 128-bit product of the operands. *)
Lemma mul_product_sound (h su : bool) (is_mul is_mulw is_mulhu : F) (a b c : Word F)
    (cols : MulOperation.Cols) :
  h && su = false -> mul_shape cols -> valid_word b -> valid_word c ->
  sats (MulOperation.eval a b c cols F1 is_mul (Fof_bool h) is_mulw is_mulhu (Fof_bool su)) ->
  Forall is_u8F (MulOperation.product cols) /\
  le_value 8 (map Fval (MulOperation.product cols))
  = (operand (h || su) (word_val b) * operand h (word_val c)) mod 2 ^ 128.
Proof.
  intros Hhs [Lc Lp] Hb Hc H. unfold MulOperation.eval, U16toU8Operation.eval_u16_to_u8_safe in H.
  rewrite !sats_app, sats_when_1 in H.
  destruct H as (Rb & Rc & Mb & Mc & _ & (Eb & _) & (Ec & _) & Hcar & _ & _ & _ & _ & R16 & R8).
  specialize (Eb I). specialize (Ec I). cbn [holds] in Eb, Ec.
  destruct (operand_bytes _ _ _ Rb Mb) as (Lb8 & Fb & Vb & Sb).
  destruct (operand_bytes _ _ _ Rc Mc) as (Lc8 & Fc & Vc & Sc). clear Rb Rc Mb Mc.
  set (bb := U16toU8Operation.eval_u16_to_u8_unsafe b _) in *.
  set (cc := U16toU8Operation.eval_u16_to_u8_unsafe c _) in *. clearbody bb cc.
  apply sats_u8 in R8; [|apply F1_neq_0]. apply sats_range16 in R16; [|apply F1_neq_0].
  split; [assumption|].
  assert (Ef : (Fof_bool h + Fof_bool su)%F = Fof_bool (h || su))
    by (destruct h, su; try discriminate; cbn; ring).
  rewrite Ef in Eb. rewrite (sign_ext_col _ _ _ _ Sb Eb), (sign_ext_col _ _ _ _ Sc Ec) in Hcar.
  rewrite <- (map_Fof_Fval bb), <- (map_Fof_Fval cc), <- !map_Fof_repeat, <- !map_app in Hcar.
  destruct (extended_bytes bb ((h || su) && negb (word_val b <? 2 ^ 63)) Fb Lb8) as [Bb Lb].
  destruct (extended_bytes cc (h && negb (word_val c <? 2 ^ 63)) Fc Lc8) as [Bc _].
  apply product_columns_sound in Hcar; try assumption. rewrite Hcar.
  destruct (extended_value (map Fval bb) ((h || su) && negb (word_val b <? 2 ^ 63)) (word_val b) (h || su))
    as [kb ->]; [rewrite length_map; assumption | assumption | apply word_val_bound; assumption | reflexivity |].
  destruct (extended_value (map Fval cc) (h && negb (word_val c <? 2 ^ 63)) (word_val c) h)
    as [kc ->]; [rewrite length_map; assumption | assumption | apply word_val_bound; assumption | reflexivity |].
  rewrite !(Z.mul_comm (2 ^ 128)). rewrite Zmult_mod, !Z_mod_plus_full, <- Zmult_mod. reflexivity.
Qed.

(** ** The result *)

(** The selector of opcode [o'] on a row of opcode [o]. *)
Definition opF (o o' : Opcode) : F := Fof_bool (opcode_eqb o o').

Definition is_mul_opcode (o : Opcode) : bool :=
  match o with MUL | MULH | MULHU | MULHSU | MULW => true | _ => false end.

Lemma shr_div (x n : Z) : 0 <= n -> shr x n = x / 2 ^ n.
Proof. intros. apply Z.shiftr_div_pow2. assumption. Qed.

(** The upper half of a 128-bit product, read from the signed or the unsigned
    representative. *)
Lemma upper_signed (x : Z) : as_u64 (shr (as_i128 x) 64) = (x mod 2 ^ 128) / 2 ^ 64.
Proof.
  rewrite shr_div by lia. unfold as_i128, as_signed, as_u64, as_unsigned.
  pose proof (Z.mod_pos_bound x (2 ^ 128) ltac:(lia)).
  destruct (_ <? _); [apply Z.mod_small; dlia|].
  replace (x mod 2 ^ 128 - 2 ^ 128) with (x mod 2 ^ 128 + (- 2 ^ 64) * 2 ^ 64) by lia.
  rewrite Z.div_add by lia. replace (- 2 ^ 64) with (-1 * 2 ^ 64) by lia.
  rewrite Z_mod_plus_full. apply Z.mod_small. dlia.
Qed.

Lemma upper_unsigned (x : Z) : as_u64 (shr (as_u128 x) 64) = (x mod 2 ^ 128) / 2 ^ 64.
Proof.
  rewrite shr_div by lia. unfold as_u128, as_u64, as_unsigned.
  pose proof (Z.mod_pos_bound x (2 ^ 128) ltac:(lia)). apply Z.mod_small. dlia.
Qed.

(** Halves of the product bytes, as words. *)
Lemma product_halves (r : list F) :
  length r = 16%nat -> Forall is_u8F r ->
  le_value 8 (map Fval r) = le_value 8 (map Fval (firstn 8 r)) + 2 ^ 64 * le_value 8 (map Fval (skipn 8 r)) /\
  0 <= le_value 8 (map Fval (firstn 8 r)) < 2 ^ 64 /\ 0 <= le_value 8 (map Fval (skipn 8 r)) < 2 ^ 64.
Proof.
  intros Hl H8. rewrite <- (firstn_skipn 8 r) in H8 at 1. apply Forall_app in H8 as [H1 H2].
  assert (L1 : length (map Fval (firstn 8 r)) = 8%nat) by (rewrite length_map, length_firstn, Hl; reflexivity).
  assert (L2 : length (map Fval (skipn 8 r)) = 8%nat) by (rewrite length_map, length_skipn, Hl; reflexivity).
  pose proof (le_value_bound 8 _ ltac:(lia) (u8F_bytes _ H1)) as B1.
  pose proof (le_value_bound 8 _ ltac:(lia) (u8F_bytes _ H2)) as B2. rewrite L1 in B1. rewrite L2 in B2.
  repeat split; try assumption; try apply B1; try apply B2.
  rewrite <- (firstn_skipn 8 r) at 1. rewrite map_app, le_value_app, L1 by lia. reflexivity.
Qed.

(** The word of the limbs [p(off + 2 i) + p(off + 2 i + 1) * 2^8]. *)
Definition bytes_limbs (r : list F) (off : nat) : Word F :=
  let limb i := (nth (2 * i + off) r F0 + nth (2 * i + 1 + off) r F0 * Fof (2 ^ 8))%F in
  mkWord (limb 0%nat) (limb 1%nat) (limb 2%nat) (limb 3%nat).

Lemma bytes_limbs_lower (r : list F) :
  length r = 16%nat -> Forall is_u8F r ->
  valid_word (bytes_limbs r 0) /\ word_val (bytes_limbs r 0) = le_value 8 (map Fval (firstn 8 r)).
Proof.
  intros Hl H8. rewrite <- (firstn_skipn 8 r) in H8 at 1. apply Forall_app in H8 as [H1 _].
  do 16 (destruct r as [|? r]; [discriminate|]). refine (bytes_word _ _ H1). reflexivity.
Qed.

Lemma bytes_limbs_upper (r : list F) :
  length r = 16%nat -> Forall is_u8F r ->
  valid_word (bytes_limbs r 8) /\ word_val (bytes_limbs r 8) = le_value 8 (map Fval (skipn 8 r)).
Proof.
  intros Hl H8. rewrite <- (firstn_skipn 8 r) in H8 at 1. apply Forall_app in H8 as [_ H2].
  do 16 (destruct r as [|? r]; [discriminate|]). destruct r; [|discriminate]. refine (bytes_word _ _ H2). reflexivity.
Qed.

(** What the limb comparisons say for each selector. *)
Lemma compare_limbs_lower (a : Word F) (cols : MulOperation.Cols) (w u : F) :
  sats (flat_map (MulOperation.compare_limb a cols w F1 u) (seq 0 4)) ->
  a = bytes_limbs (MulOperation.product cols) 0.
Proof.
  cbn [seq flat_map]. rewrite !sats_app. unfold MulOperation.compare_limb. rewrite !sats_app, !sats_when_1.
  intros H. destruct a as [a0 a1 a2 a3]. unfold bytes_limbs. cbn [Nat.mul Nat.add word_list nth] in *.
  split_hyps. cbn [assert_eq sats sat guards_on holds limb0 limb1 limb2 limb3 nth word_list] in *.
  split_hyps. f_equal; symmetry; auto.
Qed.

Lemma compare_limbs_upper (a : Word F) (cols : MulOperation.Cols) (w l : F) :
  sats (flat_map (MulOperation.compare_limb a cols w l F1) (seq 0 4)) ->
  a = bytes_limbs (MulOperation.product cols) 8.
Proof.
  cbn [seq flat_map]. rewrite !sats_app. unfold MulOperation.compare_limb. rewrite !sats_app, !sats_when_1.
  intros H. destruct a as [a0 a1 a2 a3]. unfold bytes_limbs. cbn [Nat.mul Nat.add word_list nth] in *.
  split_hyps. cbn [assert_eq sats sat guards_on holds limb0 limb1 limb2 limb3 nth word_list] in *.
  split_hyps. f_equal; symmetry; auto.
Qed.

Lemma compare_limbs_word (a : Word F) (cols : MulOperation.Cols) (l u : F) :
  sats (flat_map (MulOperation.compare_limb a cols F1 l u) (seq 0 4)) ->
  a = sign_extend_half (limb0 (bytes_limbs (MulOperation.product cols) 0))
        (limb1 (bytes_limbs (MulOperation.product cols) 0))
        (U16MSBOperation.msb (MulOperation.product_msb cols)).
Proof.
  cbn [seq flat_map]. rewrite !sats_app. unfold MulOperation.compare_limb.
  cbn [Nat.ltb Nat.leb]. rewrite !sats_app, !sats_when_1.
  intros H. destruct a as [a0 a1 a2 a3]. unfold bytes_limbs, sign_extend_half.
  cbn [Nat.mul Nat.add word_list nth] in *.
  split_hyps. cbn [assert_eq sats sat guards_on holds limb0 limb1 limb2 limb3 nth word_list] in *.
  split_hyps. f_equal; symmetry; auto.
Qed.

(** The parts of [eval] the result depends on. *)
Lemma mul_eval_parts (a b c : Word F) (cols : MulOperation.Cols) (im ih iw ihu ihsu : F) :
  sats (MulOperation.eval a b c cols F1 im ih iw ihu ihsu) ->
  sats (U16MSBOperation.eval_msb (limb1 a) (MulOperation.product_msb cols) iw) /\
  sats (flat_map (MulOperation.compare_limb a cols iw im (ih + ihu + ihsu)%F) (seq 0 4)).
Proof.
  unfold MulOperation.eval, U16toU8Operation.eval_u16_to_u8_safe. rewrite !sats_app. tauto.
Qed.

Lemma Fof_bool_0 : Fof_bool false = F0. Proof. reflexivity. Qed.

Lemma mul_lower_sound (h su : bool) (iw ihu : F) (a b c : Word F) (cols : MulOperation.Cols) :
  h && su = false -> mul_shape cols -> valid_word b -> valid_word c ->
  sats (MulOperation.eval a b c cols F1 F1 (Fof_bool h) iw ihu (Fof_bool su)) ->
  valid_word a /\
  word_val a = (operand (h || su) (word_val b) * operand h (word_val c)) mod 2 ^ 64.
Proof.
  intros Hhs Hsh Hb Hc H. destruct (mul_product_sound h su _ _ _ a b c cols Hhs Hsh Hb Hc H) as [R8 E].
  destruct (mul_eval_parts _ _ _ _ _ _ _ _ _ H) as [_ Hcmp]. apply compare_limbs_lower in Hcmp.
  destruct Hsh as [_ Lp]. destruct (bytes_limbs_lower _ Lp R8) as [Va Ea]. rewrite Hcmp. split; [exact Va|].
  destruct (product_halves _ Lp R8) as (Ep & B1 & _). rewrite Ea.
  rewrite <- (mod_mod_le _ 64 128), <- E, Ep by lia.
  rewrite Z.mul_comm, Z_mod_plus_full. symmetry. apply Z.mod_small. exact B1.
Qed.

Lemma mul_upper_sound (h su : bool) (im iw ihu : F) (a b c : Word F) (cols : MulOperation.Cols) :
  h && su = false -> (Fof_bool h + ihu + Fof_bool su)%F = F1 ->
  mul_shape cols -> valid_word b -> valid_word c ->
  sats (MulOperation.eval a b c cols F1 im (Fof_bool h) iw ihu (Fof_bool su)) ->
  valid_word a /\
  word_val a = ((operand (h || su) (word_val b) * operand h (word_val c)) mod 2 ^ 128) / 2 ^ 64.
Proof.
  intros Hhs Hu Hsh Hb Hc H. destruct (mul_product_sound h su _ _ _ a b c cols Hhs Hsh Hb Hc H) as [R8 E].
  destruct (mul_eval_parts _ _ _ _ _ _ _ _ _ H) as [_ Hcmp]. rewrite Hu in Hcmp.
  apply compare_limbs_upper in Hcmp.
  destruct Hsh as [_ Lp]. destruct (bytes_limbs_upper _ Lp R8) as [Va Ea]. rewrite Hcmp. split; [exact Va|].
  destruct (product_halves _ Lp R8) as (Ep & B1 & _). rewrite Ea, <- E, Ep.
  rewrite Z.mul_comm, Z.div_add, Z.div_small by lia. reflexivity.
Qed.

Lemma mul_word_sound (a b c : Word F) (cols : MulOperation.Cols) :
  mul_shape cols -> valid_word b -> valid_word c ->
  sats (MulOperation.eval a b c cols F1 F0 F0 F1 F0 F0) ->
  valid_word a /\ word_val a = as_u64 (as_i32 (word_val b * word_val c)).
Proof.
  intros Hsh Hb Hc H.
  destruct (mul_product_sound false false F0 F1 F0 a b c cols eq_refl Hsh Hb Hc H) as [R8 E].
  destruct (mul_eval_parts _ _ _ _ _ _ _ _ _ H) as [Hm Hcmp]. apply compare_limbs_word in Hcmp.
  destruct Hsh as [_ Lp]. destruct (bytes_limbs_lower _ Lp R8) as [Va Ea].
  set (w := bytes_limbs (MulOperation.product cols) 0) in *.
  assert (V0 : is_u16F (limb0 w)) by apply Va. assert (V1 : is_u16F (limb1 w)) by apply Va.
  assert (E1 : limb1 a = limb1 w) by (rewrite Hcmp; reflexivity).
  rewrite E1 in Hm. apply msb_sound in Hm; [|assumption]. rewrite Hm in Hcmp.
  destruct (sign_extend_half_spec _ _ V0 V1) as [Vs Es]. rewrite Hcmp. split; [exact Vs|].
  rewrite Es. f_equal. unfold as_i32.
  rewrite <- (word_val_mod32 w Va), as_signed_mod, Ea, <- as_signed_mod, <- (as_signed_mod _ (_ * _)).
  f_equal. destruct (product_halves _ Lp R8) as (Ep & B1 & _).
  cbn [operand orb] in E. rewrite <- (mod_mod_le (_ * _) 32 128), <- E, Ep by lia.
  replace (2 ^ 64) with (2 ^ 32 * 2 ^ 32) by lia.
  rewrite <- Z.mul_assoc, Z.mul_comm, Z_mod_plus_full. reflexivity.
Qed.

(** Signed and unsigned factors give the same low half. *)
Lemma mul_mod64_signed (b c : Z) : (as_i64 b * as_i64 c) mod 2 ^ 64 = (b * c) mod 2 ^ 64.
Proof. rewrite Zmult_mod. unfold as_i64. rewrite !as_signed_cong by lia. symmetry. apply Zmult_mod. Qed.

Lemma mul_mod32_signed (b c : Z) : (as_i32 b * as_i32 c) mod 2 ^ 32 = (b * c) mod 2 ^ 32.
Proof. rewrite Zmult_mod. unfold as_i32. rewrite !as_signed_cong by lia. symmetry. apply Zmult_mod. Qed.

Lemma mul_sound (o : Opcode) (a b c : Word F) (cols : MulOperation.Cols) :
  is_mul_opcode o = true -> mul_shape cols -> valid_word b -> valid_word c ->
  sats (MulOperation.eval a b c cols F1 (opF o MUL) (opF o MULH) (opF o MULW) (opF o MULHU)
          (opF o MULHSU)) ->
  valid_word a /\ alu_value o (word_val b) (word_val c) = Ok (word_val a).
Proof.
  intros Ho Hsh Hb Hc H. destruct o; try discriminate Ho; unfold opF in H; cbn [opcode_eqb] in H.
  - destruct (mul_lower_sound false false _ _ a b c cols eq_refl Hsh Hb Hc H) as [Va ->]. split; [assumption|].
    cbn [alu_value operand orb]. unfold as_u64, as_i64. rewrite as_unsigned_signed by lia.
    unfold as_unsigned. rewrite mul_mod64_signed. reflexivity.
  - destruct (mul_upper_sound true false _ _ F0 a b c cols eq_refl ltac:(cbn; ring) Hsh Hb Hc H) as [Va ->]. split; [assumption|].
    cbn [alu_value operand orb]. rewrite upper_signed. reflexivity.
  - destruct (mul_upper_sound false false _ _ F1 a b c cols eq_refl ltac:(cbn; ring) Hsh Hb Hc H) as [Va ->]. split; [assumption|].
    cbn [alu_value operand orb]. rewrite upper_unsigned. reflexivity.
  - destruct (mul_upper_sound false true _ _ F0 a b c cols eq_refl ltac:(cbn; ring) Hsh Hb Hc H) as [Va ->]. split; [assumption|].
    cbn [alu_value operand orb]. rewrite upper_signed. pose proof (word_val_bound c Hc) as Bc.
    unfold is_u in Bc. unfold as_i128. rewrite (as_signed_id 128) by lia. reflexivity.
  - destruct (mul_word_sound a b c cols Hsh Hb Hc H) as [Va ->]. split; [assumption|].
    cbn [alu_value]. do 2 f_equal. unfold as_i32 at 1 4. rewrite <- as_signed_mod, mul_mod32_signed.
    apply as_signed_mod.
Qed.

(** ** Completeness *)

Lemma complete_u8_pair (x y : Z) :
  0 <= x < 2 ^ 8 -> 0 <= y < 2 ^ 8 ->
  complete (send_byte (byte_op BU8Range) F0 (Fof x) (Fof y) F1) (add_u8_range_check x y).
Proof.
  intros Hx Hy. split.
  - cbn [send_byte sats sat kind multiplicity values]. split; [|exact I]. intros _. apply lookup_u8.
    rewrite !Fval_of_small by (unfold KOALA_BEAR_ORDER; lia). lia.
  - cbn. rewrite (Feqb_neq F1 F0 F1_neq_0). reflexivity.
Qed.

Lemma complete_u8 (l : list Z) :
  Forall (fun x => 0 <= x < 2 ^ 8) l ->
  complete (slice_range_check_u8 (map Fof l) F1) (add_u8_range_checks l).
Proof.
  revert l. fix IH 1. intros [|x [|y l]] H.
  - apply complete_asserts; [exact I | reflexivity].
  - apply (complete_u8_pair x 0); [inversion H; assumption | lia].
  - inversion H as [|? ? Hx H']; subst. inversion H'; subst.
    cbn [map slice_range_check_u8 add_u8_range_checks].
    apply complete_app; [apply complete_u8_pair; assumption | apply IH; assumption].
Qed.

Lemma u8_safe_complete (x : Z) :
  complete (slice_range_check_u8
              (U16toU8Operation.eval_u16_to_u8_unsafe (word_from_u64 x)
                 (U16toU8Operation.populate_u16_to_u8_unsafe x)) F1)
           (snd (U16toU8Operation.populate_u16_to_u8_safe x)).
Proof.
  rewrite u16_to_u8_populate. cbn [U16toU8Operation.populate_u16_to_u8_safe snd].
  assert (E : flat_map (fun l => add_u8_range_check (U16toU8Operation.low_byte l) (U16toU8Operation.high_byte l))
                (u64_to_u16_limbs x)
              = add_u8_range_checks (flat_map limb_bytes [limb16 x 0; limb16 x 1; limb16 x 2; limb16 x 3]))
    by (rewrite u64_to_u16_limbs_eq; reflexivity).
  rewrite E. apply complete_u8. rewrite limb_bytes_le. apply le_bytes_bound.
Qed.

Lemma to_le_bytes_facts (x : Z) :
  is_u64 x ->
  length (to_le_bytes x) = 8%nat /\ Forall (fun b => 0 <= b < 2 ^ 8) (to_le_bytes x) /\
  le_value 8 (to_le_bytes x) = x.
Proof.
  intros Hx. repeat split; [apply le_bytes_bound|]. unfold to_le_bytes. rewrite le_value_bytes.
  apply Z.mod_small. exact Hx.
Qed.

Lemma get_msb_spec (x : Z) :
  is_u64 x -> MulOperation.get_msb (to_le_bytes x) = if x <? 2 ^ 63 then 0 else 1.
Proof.
  intros Hx. destruct (to_le_bytes_facts x Hx) as (Hl & Hb & Hv).
  rewrite <- (top_byte _ _ Hl Hb Hv). unfold MulOperation.get_msb.
  rewrite Forall_forall in Hb. specialize (Hb (nth 7 (to_le_bytes x) 0)).
  assert (Hn : In (nth 7 (to_le_bytes x) 0) (to_le_bytes x)) by (apply nth_In; rewrite Hl; lia).
  specialize (Hb Hn). change 1 with (2 ^ 1 - 1) at 1. rewrite land_mask, shr_div by lia.
  destruct (Z.ltb_spec (nth 7 (to_le_bytes x) 0) 128); dlia.
Qed.

Lemma msb_lookup_complete (x : Z) :
  is_u64 x ->
  complete (send_byte (byte_op BMSB) (Fof (MulOperation.get_msb (to_le_bytes x)))
              (nth 7 (map Fof (to_le_bytes x)) F0) F0 F1)
           [mkByteLookupEvent BMSB (MulOperation.get_msb (to_le_bytes x)) (nth 7 (to_le_bytes x) 0) 0].
Proof.
  intros Hx. destruct (to_le_bytes_facts x Hx) as (Hl & Hb & Hv).
  change F0 with (Fof 0) at 1. rewrite map_nth.
  assert (B7 : 0 <= nth 7 (to_le_bytes x) 0 < 2 ^ 8)
    by (rewrite Forall_forall in Hb; apply Hb, nth_In; rewrite Hl; lia).
  split.
  - cbn [send_byte sats sat kind multiplicity values]. split; [|exact I]. intros _. apply lookup_msb.
    rewrite (Fval_of_small (nth 7 (to_le_bytes x) 0)) by (unfold KOALA_BEAR_ORDER; lia).
    rewrite (top_byte _ _ Hl Hb Hv), get_msb_spec by assumption. split; [lia|].
    destruct (x <? 2 ^ 63); reflexivity.
  - cbn. rewrite (Feqb_neq F1 F0 F1_neq_0). reflexivity.
Qed.

(** Extension with zero bytes does not change the loop. *)
Lemma add_row_zeros (x : Z) (c m : list Z) (n : nat) :
  add_row Z.add Z.mul x (c ++ repeat 0 n) m = add_row Z.add Z.mul x c m.
Proof.
  revert m. induction c as [|y c IH]; intros m; cbn [app].
  - revert m. induction n as [|n IHn]; intros [|z m]; cbn; try reflexivity.
    rewrite Z.mul_0_r, Z.add_0_r. f_equal. rewrite IHn. destruct m; reflexivity.
  - destruct m; cbn; [reflexivity|]. f_equal. apply IH.
Qed.

Lemma product_loop_zeros_l (b c m : list Z) (n : nat) :
  product_loopZ (b ++ repeat 0 n) c m = product_loopZ b c m.
Proof.
  unfold product_loopZ. revert m. induction b as [|x b IH]; intros m; cbn [app].
  - revert m. induction n as [|n IHn]; intros m; [reflexivity|]. cbn [repeat product_loop].
    assert (E : add_row Z.add Z.mul 0 c m = m)
      by (clear; revert m; induction c as [|y c IH]; intros [|z m]; cbn; try reflexivity;
          rewrite Z.add_0_r; f_equal; apply IH).
    rewrite E. destruct m; [reflexivity|]. f_equal. apply IHn.
  - cbn. destruct (add_row _ _ _ _ _); [reflexivity|]. f_equal. apply IH.
Qed.

Lemma product_loop_zeros_r (b c m : list Z) (n : nat) :
  product_loopZ b (c ++ repeat 0 n) m = product_loopZ b c m.
Proof.
  unfold product_loopZ. revert m. induction b as [|x b IH]; intros m; [reflexivity|].
  cbn. rewrite add_row_zeros. destruct (add_row _ _ _ _ _); [reflexivity|]. f_equal. apply IH.
Qed.

Definition ext_list (l : list Z) (ext : bool) : list Z := l ++ repeat (if ext then 255 else 0) 8.

Lemma product_loop_ext (lb lc m : list Z) (eb ec : bool) :
  product_loopZ (if eb then lb ++ repeat 0xff 8 else lb) (if ec then lc ++ repeat 0xff 8 else lc) m
  = product_loopZ (ext_list lb eb) (ext_list lc ec) m.
Proof.
  unfold ext_list. destruct eb, ec; rewrite ?product_loop_zeros_l, ?product_loop_zeros_r; reflexivity.
Qed.

Lemma compare_limbs_complete (a : Word F) (cols : MulOperation.Cols) (iw il iu : F) :
  (iw <> F0 -> a = sign_extend_half (limb0 (bytes_limbs (MulOperation.product cols) 0))
                     (limb1 (bytes_limbs (MulOperation.product cols) 0))
                     (U16MSBOperation.msb (MulOperation.product_msb cols))) ->
  (il <> F0 -> a = bytes_limbs (MulOperation.product cols) 0) ->
  (iu <> F0 -> a = bytes_limbs (MulOperation.product cols) 8) ->
  complete (flat_map (MulOperation.compare_limb a cols iw il iu) (seq 0 4)) [].
Proof.
  intros Hw Hl Hu. apply complete_asserts; [|reflexivity].
  unfold MulOperation.compare_limb, when.
  cbn [seq flat_map Nat.ltb Nat.leb app map guard assert_eq sats sat guards_on holds].
  repeat match goal with |- _ /\ _ => split | |- True => exact I | |- _ -> _ => intros [Hg _] end;
    (rewrite (Hw Hg) + rewrite (Hl Hg) + rewrite (Hu Hg)); reflexivity.
Qed.

Lemma bytes_limbs_lower_mod (r : list F) (x : Z) :
  length r = 16%nat -> Forall is_u8F r -> le_value 8 (map Fval r) = x mod 2 ^ 128 ->
  valid_word (bytes_limbs r 0) /\ word_val (bytes_limbs r 0) = x mod 2 ^ 64.
Proof.
  intros Lp R8 E. destruct (bytes_limbs_lower _ Lp R8) as [Va Ea]. split; [exact Va|].
  destruct (product_halves _ Lp R8) as (Ep & B1 & _).
  rewrite Ea, <- (mod_mod_le _ 64 128), <- E, Ep by lia.
  rewrite Z.mul_comm, Z_mod_plus_full. symmetry. apply Z.mod_small. exact B1.
Qed.

Lemma bytes_limbs_upper_div (r : list F) (x : Z) :
  length r = 16%nat -> Forall is_u8F r -> le_value 8 (map Fval r) = x mod 2 ^ 128 ->
  valid_word (bytes_limbs r 8) /\ word_val (bytes_limbs r 8) = (x mod 2 ^ 128) / 2 ^ 64.
Proof.
  intros Lp R8 E. destruct (bytes_limbs_upper _ Lp R8) as [Va Ea]. split; [exact Va|].
  destruct (product_halves _ Lp R8) as (Ep & B1 & _).
  rewrite Ea, <- E, Ep, Z.mul_comm, Z.div_add, Z.div_small by lia. reflexivity.
Qed.

(** The columns [populate] computes hold the 128-bit product. *)
Lemma propagate_product (lb lc : list Z) (x y : Z) :
  Forall (fun z => 0 <= z < 2 ^ 8) lb -> Forall (fun z => 0 <= z < 2 ^ 8) lc -> length lb = 16%nat ->
  (exists k, le_value 8 lb = x + 2 ^ 128 * k) -> (exists k, le_value 8 lc = y + 2 ^ 128 * k) ->
  let '(cs, ps) := propagate 0 (product_loopZ lb lc (repeat 0 16)) in
  sats (carry_eqs None (map Fof (product_loopZ lb lc (repeat 0 16))) (map Fof cs) (map Fof ps)) /\
  Forall (fun z => 0 <= z < 2 ^ 16) cs /\ Forall (fun z => 0 <= z < 2 ^ 8) ps /\
  length cs = 16%nat /\ length ps = 16%nat /\ le_value 8 ps = (x * y) mod 2 ^ 128.
Proof.
  intros Bb Bc Lb [kb Kb] [kc Kc].
  assert (Hlen : length (product_loopZ lb lc (repeat 0 16)) = 16%nat)
    by (unfold product_loopZ; rewrite product_loop_length; reflexivity).
  assert (Hm : Forall (fun z => 0 <= z <= 2 ^ 21) (product_loopZ lb lc (repeat 0 16))).
  { eapply Forall_impl; [|apply (product_loop_bound lb lc (repeat 0 16) 0 Bb Bc)].
    - cbn. intros z. rewrite Lb. lia.
    - apply Forall_forall. intros z Hz. apply repeat_spec in Hz. lia. }
  pose proof (propagate_complete _ 0 None Hm ltac:(lia) (or_intror (conj eq_refl eq_refl))) as H.
  destruct (propagate 0 _) as [cs ps]. destruct H as (Hs & Hcs & Hps & Lc & Lp & k & Hk).
  repeat split; try assumption; try congruence.
  destruct (product_loop_value lb lc (repeat 0 16)) as [k' Hk'].
  change (2 ^ (8 * Z.of_nat (length (repeat 0 16)))) with (2 ^ 128) in *.
  change (le_value 8 (repeat 0 16)) with 0 in Hk'. rewrite Hlen in *.
  pose proof (le_value_bound 8 ps ltac:(lia) Hps) as Bp. rewrite Lp in Bp.
  change (2 ^ (8 * Z.of_nat 16)) with (2 ^ 128) in *.
  symmetry. apply mod_small_eq; [lia | exact Bp |].
  exists (k - k' - kb * y - x * kc - 2 ^ 128 * kb * kc). rewrite Kb, Kc in Hk'. nia.
Qed.

Lemma map_Fval_Fof (l : list Z) (n : Z) :
  n <= 16 -> Forall (fun z => 0 <= z < 2 ^ n) l -> map Fval (map Fof l) = l.
Proof.
  intros Hn H. rewrite map_map. rewrite <- (map_id l) at 2. apply map_ext_in. intros z Hz.
  rewrite Forall_forall in H. specialize (H z Hz). apply Fval_of_small.
  assert (2 ^ n <= 2 ^ 16) by (apply Z.pow_le_mono_r; lia). unfold KOALA_BEAR_ORDER. lia.
Qed.

Lemma Forall_u8F (l : list Z) : Forall (fun z => 0 <= z < 2 ^ 8) l -> Forall is_u8F (map Fof l).
Proof.
  intros H. apply Forall_map. eapply Forall_impl; [|exact H]. cbn. intros z Hz. unfold is_u8F.
  rewrite Fval_of_small by (unfold KOALA_BEAR_ORDER; lia). lia.
Qed.

(** The sign bit of a word product, as recorded and as constrained. *)
Lemma product_msb_complete (a b c : Z) (w : bool) :
  (w = true -> a = as_u64 (as_i32 (as_i32 b * as_i32 c))) ->
  let '(m, ev) :=
    if w then fst (U16MSBOperation.populate_msb
                     (nth 1 (u64_to_u16_limbs (as_u64 (as_i32 (as_i32 b * as_i32 c)))) 0))
    else (U16MSBOperation.mkCols F0, []) in
  complete (U16MSBOperation.eval_msb (limb1 (word_from_u64 a)) m (Fof_bool w)) ev /\
  (w = true -> U16MSBOperation.msb m = Fof (if limb16 a 1 <? 2 ^ 15 then 0 else 1)).
Proof.
  intros Ha. destruct w; [|split; [apply msb_off_complete | discriminate]].
  rewrite <- Ha, u64_to_u16_limbs_eq, word_from_u64_limbs by reflexivity. cbn [nth limb1].
  pose proof (msb_complete (limb16 a 1) (limb16_bound _ _)) as H.
  destruct (U16MSBOperation.populate_msb (limb16 a 1)) as [[m ev] r]. cbn [fst]. tauto.
Qed.

Lemma word_product_limbs (r : list F) (a b c : Z) :
  length r = 16%nat -> Forall is_u8F r -> le_value 8 (map Fval r) = (b * c) mod 2 ^ 128 ->
  a = as_u64 (as_i32 (as_i32 b * as_i32 c)) ->
  word_from_u64 a = sign_extend_half (limb0 (bytes_limbs r 0)) (limb1 (bytes_limbs r 0))
                      (Fof (if limb16 a 1 <? 2 ^ 15 then 0 else 1)).
Proof.
  intros Lp R8 E Ha. destruct (bytes_limbs_lower_mod r _ Lp R8 E) as [Vw Ew].
  set (w := bytes_limbs r 0) in *. assert (Ba : is_u64 a) by (subst a; apply as_unsigned_bound; lia).
  assert (V0 : is_u16F (limb0 w)) by apply Vw. assert (V1 : is_u16F (limb1 w)) by apply Vw.
  destruct (sign_extend_half_spec _ _ V0 V1) as [Vs Es].
  assert (Eq : word_from_u64 a = sign_extend_half (limb0 w) (limb1 w)
                                   (Fof (if Fval (limb1 w) <? 2 ^ 15 then 0 else 1))).
  { apply word_val_inj; [apply valid_word_from | exact Vs |]. rewrite word_val_from, Es by assumption.
    subst a. f_equal. unfold as_i32 at 1 4. rewrite <- as_signed_mod, mul_mod32_signed.
    rewrite <- (word_val_mod32 w Vw), Ew, (mod_mod_le _ 32 64) by lia. reflexivity. }
  assert (E1 : limb1 w = Fof (limb16 a 1))
    by (transitivity (limb1 (word_from_u64 a)); [rewrite Eq | rewrite word_from_u64_limbs]; reflexivity).
  rewrite Eq, E1, Fval_limb16. reflexivity.
Qed.

(** The order the events are recorded in, against the order of the lookups. *)
Lemma mul_events_perm {A} (m b c s1 s2 x y : list A) :
  Permutation (b ++ c ++ s1 ++ s2 ++ m ++ x ++ y) (m ++ b ++ c ++ (s1 ++ s2) ++ x ++ y).
Proof.
  rewrite !app_assoc. do 2 apply Permutation_app_tail. rewrite <- !app_assoc.
  rewrite (Permutation_app_comm m). rewrite <- !app_assoc. reflexivity.
Qed.

Lemma ext_list_F (x : Z) (ext : bool) :
  U16toU8Operation.eval_u16_to_u8_unsafe (word_from_u64 x) (U16toU8Operation.populate_u16_to_u8_unsafe x)
    ++ repeat (Fof_bool ext * Fof 0xff)%F 8
  = map Fof (ext_list (to_le_bytes x) ext).
Proof.
  rewrite u16_to_u8_populate, limb_bytes_le. unfold ext_list. rewrite map_app, map_Fof_repeat. f_equal.
  destruct ext; reflexivity.
Qed.

Lemma mul_row_complete (a b c : Z) (h su w : bool) (im ihu : F) (eb ec : bool) (cs ps : list Z) pm ev_msb :
  is_u64 b -> is_u64 c ->
  eb = (h || su) && negb (b <? 2 ^ 63) -> ec = h && negb (c <? 2 ^ 63) -> h && su = false ->
  is_bool im -> is_bool ihu -> is_bool (im + Fof_bool h + ihu + Fof_bool su + Fof_bool w)%F ->
  complete (U16MSBOperation.eval_msb (limb1 (word_from_u64 a)) pm (Fof_bool w)) ev_msb ->
  sats (carry_eqs None (map Fof (product_loopZ (ext_list (to_le_bytes b) eb) (ext_list (to_le_bytes c) ec)
                                   (repeat 0 16))) (map Fof cs) (map Fof ps)) ->
  Forall (fun z => 0 <= z < 2 ^ 16) cs -> Forall (fun z => 0 <= z < 2 ^ 8) ps ->
  let cols := MulOperation.mkCols (map Fof cs) (map Fof ps)
    (U16toU8Operation.populate_u16_to_u8_unsafe b) (U16toU8Operation.populate_u16_to_u8_unsafe c)
    (Fof (MulOperation.get_msb (to_le_bytes b))) (Fof (MulOperation.get_msb (to_le_bytes c))) pm
    (Fof_bool eb) (Fof_bool ec) in
  complete (flat_map (MulOperation.compare_limb (word_from_u64 a) cols (Fof_bool w) im
                        (Fof_bool h + ihu + Fof_bool su)%F) (seq 0 4)) [] ->
  complete (MulOperation.eval (word_from_u64 a) (word_from_u64 b) (word_from_u64 c) cols
              F1 im (Fof_bool h) (Fof_bool w) ihu (Fof_bool su))
    (ev_msb ++ snd (U16toU8Operation.populate_u16_to_u8_safe b) ++
     snd (U16toU8Operation.populate_u16_to_u8_safe c) ++
     ([mkByteLookupEvent BMSB (MulOperation.get_msb (to_le_bytes b)) (nth 7 (to_le_bytes b) 0) 0] ++
      [mkByteLookupEvent BMSB (MulOperation.get_msb (to_le_bytes c)) (nth 7 (to_le_bytes c) 0) 0]) ++
     add_u16_range_checks cs ++ add_u8_range_checks ps).
Proof.
  intros Bb Bc Eb Ec Hhs Bm Bhu Bsum Cmsb Hcar Hcs Hps cols Hcmp.
  apply (complete_perm _ _ _ (mul_events_perm _ _ _ _ _ _ _)).
  unfold MulOperation.eval, U16toU8Operation.eval_u16_to_u8_safe, cols.
  cbn [MulOperation.carry MulOperation.product MulOperation.b_lower_byte MulOperation.c_lower_byte
       MulOperation.b_msb MulOperation.c_msb MulOperation.product_msb MulOperation.b_sign_extend
       MulOperation.c_sign_extend].
  apply complete_app; [apply u8_safe_complete|]. apply complete_app; [apply u8_safe_complete|].
  rewrite !ext_list_F. change (repeat F0 16) with (map Fof (repeat 0 16)). rewrite product_loop_F.
  rewrite !u16_to_u8_populate, !limb_bytes_le.
  apply complete_app; [apply msb_lookup_complete; assumption|].
  apply complete_app; [apply msb_lookup_complete; assumption|].
  apply complete_app; [exact Cmsb|].
  apply complete_asserts_app.
  { apply complete_eq. rewrite get_msb_spec by assumption. subst eb. destruct h, su, (b <? 2 ^ 63); try discriminate; cbn; F_fold; reflexivity. }
  apply complete_asserts_app.
  { apply complete_eq. rewrite get_msb_spec by assumption. subst ec. destruct h, (c <? 2 ^ 63); cbn; F_fold; reflexivity. }
  apply complete_asserts_app.
  { apply complete_when_1, complete_asserts; [exact Hcar | apply byte_lookups_carry_eqs]. }
  apply complete_asserts_app; [exact Hcmp|].
  apply complete_asserts_app.
  { apply complete_asserts; [|reflexivity]. rewrite !get_msb_spec by assumption. cbn [flat_map app assert_bool sats sat guards_on holds].
    repeat split; intros _; try assumption; try apply Fof_bool_is_bool;
      try (right; reflexivity);
      match goal with |- is_bool (Fof (if ?x then _ else _)) => destruct x end;
      (right; reflexivity) || (left; reflexivity). }
  apply complete_asserts_app.
  { apply complete_when_eq. intros N. rewrite get_msb_spec by assumption. subst eb. destruct (b <? 2 ^ 63); [|reflexivity].
    rewrite andb_false_r in N. exfalso. apply N. reflexivity. }
  apply complete_asserts_app.
  { apply complete_when_eq. intros N. rewrite get_msb_spec by assumption. subst ec. destruct (c <? 2 ^ 63); [|reflexivity].
    rewrite andb_false_r in N. exfalso. apply N. reflexivity. }
  apply complete_app; [apply complete_range16; assumption | apply complete_u8; assumption].
Qed.

Lemma map_as_unsigned (n : Z) (l : list Z) :
  Forall (fun z => 0 <= z < 2 ^ n) l -> map (as_unsigned n) l = l.
Proof.
  intros H. rewrite <- (map_id l) at 2. apply map_ext_in. intros z Hz.
  rewrite Forall_forall in H. apply as_unsigned_id, H, Hz.
Qed.

Lemma mul_complete_gen (a b c : Z) (h su w : bool) (im ihu : F) :
  is_u64 a -> is_u64 b -> is_u64 c -> h && su = false ->
  is_bool im -> is_bool ihu -> is_bool (im + Fof_bool h + ihu + Fof_bool su + Fof_bool w)%F ->
  (w = true -> h = false /\ su = false /\ a = as_u64 (as_i32 (as_i32 b * as_i32 c))) ->
  (im <> F0 -> a = (operand (h || su) b * operand h c) mod 2 ^ 64) ->
  ((Fof_bool h + ihu + Fof_bool su)%F <> F0 ->
   a = ((operand (h || su) b * operand h c) mod 2 ^ 128) / 2 ^ 64) ->
  let '(cols, events) := MulOperation.populate b c h su w in
  mul_shape cols /\
  complete (MulOperation.eval (word_from_u64 a) (word_from_u64 b) (word_from_u64 c) cols
              F1 im (Fof_bool h) (Fof_bool w) ihu (Fof_bool su)) events.
Proof.
  intros Ba Bb Bc Hhs Bm Bhu Bsum Hw Hm Hu. unfold MulOperation.populate.
  pose proof (product_msb_complete a b c w (fun e => proj2 (proj2 (Hw e)))) as Hmsb.
  destruct (if w then _ else _) as [pm ev_msb]. destruct Hmsb as [Cmsb Vmsb].
  cbn [U16toU8Operation.populate_u16_to_u8_safe].
  destruct (to_le_bytes_facts b Bb) as (Lb & Fb & Vb), (to_le_bytes_facts c Bc) as (Lc & Fc & Vc).
  rewrite product_loop_ext. rewrite !get_msb_spec by assumption.
  assert (Eneg : forall x : Z, ((if x <? 2 ^ 63 then 0 else 1) =? 1) = negb (x <? 2 ^ 63))
    by (intros x; destruct (x <? 2 ^ 63); reflexivity).
  rewrite !Eneg. set (eb := (h || su) && negb (b <? 2 ^ 63)). set (ec := h && negb (c <? 2 ^ 63)).
  destruct (extended_bytes (map Fof (to_le_bytes b)) eb) as [Fbe Lbe];
    [apply Forall_u8F; assumption | rewrite length_map; assumption |].
  destruct (extended_bytes (map Fof (to_le_bytes c)) ec) as [Fce Lce];
    [apply Forall_u8F; assumption | rewrite length_map; assumption |].
  rewrite (map_Fval_Fof _ 8) in Fbe, Lbe by (lia || assumption).
  rewrite (map_Fval_Fof _ 8) in Fce, Lce by (lia || assumption).
  pose proof (propagate_product _ _ _ _ Fbe Fce Lbe
    (extended_value _ eb b (h || su) Lb Vb Bb eq_refl) (extended_value _ ec c h Lc Vc Bc eq_refl)) as Hp.
  fold (ext_list (to_le_bytes b) eb) (ext_list (to_le_bytes c) ec) in Hp.
  destruct (propagate 0 _) as [cs ps]. destruct Hp as (Hcar & Hcs & Hps & Lcs & Lps & Vps).
  split; [split; cbn; rewrite length_map; assumption|].
  rewrite <- !get_msb_spec by assumption.
  assert (E16 : map as_u16 cs = cs) by (apply (map_as_unsigned 16); assumption).
  assert (E8 : map as_u8 ps = ps) by (apply (map_as_unsigned 8); assumption). rewrite E16, E8.
  assert (R8 : Forall is_u8F (map Fof ps)) by (apply Forall_u8F; assumption).
  assert (L16 : length (map Fof ps) = 16%nat) by (rewrite length_map; assumption).
  assert (Vp : le_value 8 (map Fval (map Fof ps)) = (operand (h || su) b * operand h c) mod 2 ^ 128)
    by (rewrite (map_Fval_Fof _ 8) by (lia || assumption); assumption).
  apply mul_row_complete; try assumption; try reflexivity.
  apply compare_limbs_complete; cbn [MulOperation.product MulOperation.product_msb].
  - intros N. destruct w; [|exfalso; apply N; reflexivity]. destruct (Hw eq_refl) as (-> & -> & Ea).
    rewrite Vmsb by reflexivity. apply (word_product_limbs _ a b c); assumption.
  - intros N. destruct (bytes_limbs_lower_mod _ _ L16 R8 Vp) as [Vw Ew].
    apply word_val_inj; [apply valid_word_from | exact Vw |]. rewrite word_val_from, Ew by assumption. auto.
  - intros N. destruct (bytes_limbs_upper_div _ _ L16 R8 Vp) as [Vw Ew].
    apply word_val_inj; [apply valid_word_from | exact Vw |]. rewrite word_val_from, Ew by assumption. auto.
Qed.

(** Evaluate the selectors of closed opcodes. *)
Ltac opcode_compute :=
  repeat match goal with
  | |- context [opcode_eqb ?a ?b] =>
      let v := eval vm_compute in (opcode_eqb a b) in change (opcode_eqb a b) with v
  end.

Definition is_i128 (c : Z) : Prop := as_i128 c = c.
Lemma u64_i128 (c : Z) : is_u64 c -> is_i128 c.
Proof. unfold is_u, is_i128, as_i128. intros. apply as_signed_id; lia. Qed.

Lemma mul_complete (o : Opcode) (b c : Z) :
  is_mul_opcode o = true -> is_u64 b -> is_u64 c ->
  exists a, alu_value o b c = Ok a /\ is_u64 a /\
  let '(cols, events) :=
    MulOperation.populate b c (opcode_eqb o MULH) (opcode_eqb o MULHSU) (opcode_eqb o MULW) in
  mul_shape cols /\
  complete (MulOperation.eval (word_from_u64 a) (word_from_u64 b) (word_from_u64 c) cols F1
              (opF o MUL) (opF o MULH) (opF o MULW) (opF o MULHU) (opF o MULHSU)) events.
Proof.
  intros Ho Bb Bc.
  assert (B0 : is_bool F0) by (left; reflexivity). assert (B1 : is_bool F1) by (right; reflexivity).
  assert (Bi : is_i128 c) by exact (u64_i128 c Bc).
  destruct o; try discriminate Ho; cbn [alu_value];
    (eexists; split; [reflexivity|]; split; [apply as_unsigned_bound; lia|]);
    unfold opF; opcode_compute;
    (apply mul_complete_gen; try assumption; try apply as_unsigned_bound; try lia; try reflexivity;
     try discriminate; auto); cbn [Fof_bool operand orb];
    try (bool_compute || (intros N; exfalso; apply N; ring)); intros _.
  - unfold as_u64, as_i64. rewrite as_unsigned_signed by lia. apply mul_mod64_signed.
  - apply upper_signed.
  - apply upper_unsigned.
  - unfold is_i128 in Bi. rewrite Bi. apply upper_signed.
Qed.
