(* ===== verification/Adapter.v ===== *)
(** * Adapters: the CPU state, register and memory accesses, program reads

    [crates/core/machine/src/adapter] and [air/memory.rs], [air/program.rs],
    [memory/consistency]: the columns and constraints every instruction chip
    shares.  A chip receives the state [(clk, pc)] and sends the next one, sends
    the instruction it executes to the program table, and accesses registers
    through the memory argument, each access sending the previous record and
    receiving the current one.  The theorems: an access's constraints force
    its timestamp to increase, and the state bump chips rewrite a state
    without changing the integers it stands for. *)

From Stdlib Require Import ZArith Lia List Bool Permutation.
From S2P Require Import Prelude Words Isa Field Air AirFacts Operations.
Import ListNotations.
Open Scope Z_scope.

Definition PC_INC : Z := 4.
Definition CLK_INC : Z := 8.

(** ** Memory records ([executor/src/events/memory.rs]) *)

Record MemoryRecord : Set := mkMemoryRecord { mr_timestamp : Z; mr_value : Z }.

Record PageProtRecord : Set := mkPageProtRecord {
  ppr_external_flag : bool;
  ppr_timestamp : Z;
  ppr_page_idx : Z;
  ppr_page_prot : Z
}.

Record MemoryReadRecord : Set := mkMemoryReadRecord {
  rd_value : Z;
  rd_timestamp : Z;
  rd_prev_timestamp : Z;
  rd_prev_page_prot_record : option PageProtRecord
}.

Record MemoryWriteRecord : Set := mkMemoryWriteRecord {
  wr_prev_timestamp : Z;
  wr_prev_page_prot_record : option PageProtRecord;
  wr_prev_value : Z;
  wr_timestamp : Z;
  wr_value : Z
}.

Inductive MemoryRecordEnum : Set :=
| Read (r : MemoryReadRecord)
| Write (r : MemoryWriteRecord).

Definition current_record (r : MemoryRecordEnum) : MemoryRecord :=
  match r with
  | Read r => mkMemoryRecord (rd_timestamp r) (rd_value r)
  | Write r => mkMemoryRecord (wr_timestamp r) (wr_value r)
  end.

Definition previous_record (r : MemoryRecordEnum) : MemoryRecord :=
  match r with
  | Read r => mkMemoryRecord (rd_prev_timestamp r) (rd_value r)
  | Write r => mkMemoryRecord (wr_prev_timestamp r) (wr_prev_value r)
  end.

Inductive MemoryAccessPosition : Set := PUntrustedInstruction | PMemory | PC | PB | PA.

Definition position_num (p : MemoryAccessPosition) : Z :=
  match p with PUntrustedInstruction => 0 | PMemory => 1 | PC => 2 | PB => 3 | PA => 4 end.

(** ** Timestamps ([memory/consistency/columns.rs], [trace.rs]) *)

(** A timestamp is kept as its high bits and its low 24 bits. *)
Definition ts_high (t : Z) : Z := as_u32 (shr t 24).
Definition ts_low (t : Z) : Z := as_u32 (Z.land t 0xFFFFFF).

Module MemoryAccessTimestamp.
Record Cols : Type := mkCols {
  prev_high : F;
  prev_low : F;
  compare_low : F;
  diff_low_limb : F;
  diff_high_limb : F
}.

Definition populate_timestamp (prev_timestamp current_timestamp : Z)
  : Res (Cols * list ByteLookupEvent) :=
  assert! (prev_timestamp <? current_timestamp) ;;
  let prev_high := ts_high prev_timestamp in
  let prev_low := ts_low prev_timestamp in
  let current_high := ts_high current_timestamp in
  let current_low := ts_low current_timestamp in
  let use_low_comparison := prev_high =? current_high in
  let prev_time_value := if use_low_comparison then prev_low else prev_high in
  let current_time_value := if use_low_comparison then current_low else current_high in
  let diff_minus_one := as_u32 (current_time_value - prev_time_value - 1) in
  let diff_low_limb := as_u16 (Z.land diff_minus_one 0xFFFF) in
  let diff_high_limb := as_u8 (shr diff_minus_one 16) in
  Ok (mkCols (Fof prev_high) (Fof prev_low) (Fof_bool use_low_comparison)
             (Fof diff_low_limb) (Fof diff_high_limb),
      add_bit_range_check diff_low_limb 16 ++ add_u8_range_check diff_high_limb 0).

(** [eval_memory_access_timestamp]. *)
Definition eval (mem_access : Cols) (do_check clk_high clk_low : F) : list Emit :=
  let compare_low := compare_low mem_access in
  let prev_high := prev_high mem_access in
  when do_check (assert_bool compare_low) ++
  when do_check (when compare_low (assert_eq clk_high prev_high)) ++
  let prev_comp_value := if_else compare_low (prev_low mem_access) prev_high in
  let current_comp_val := if_else compare_low clk_low clk_high in
  let diff_minus_one := (current_comp_val - prev_comp_value - F1)%F in
  when do_check (assert_eq diff_minus_one
                   (diff_low_limb mem_access + diff_high_limb mem_access * Fof (2 ^ 16))%F) ++
  send_byte (byte_op BRange) (diff_low_limb mem_access) (Fof 16) F0 do_check ++
  send_byte (byte_op BU8Range) F0 (diff_high_limb mem_access) F0 do_check.
End MemoryAccessTimestamp.

Module RegisterAccessTimestamp.
Record Cols : Type := mkCols { prev_low : F; diff_low_limb : F }.

Definition populate_timestamp (prev_timestamp current_timestamp : Z) : Cols * list ByteLookupEvent :=
  let prev_high := ts_high prev_timestamp in
  let prev_low := ts_low prev_timestamp in
  let current_high := ts_high current_timestamp in
  let current_low := ts_low current_timestamp in
  let old_timestamp := if prev_high =? current_high then prev_low else 0 in
  let diff_minus_one := as_u32 (current_low - old_timestamp - 1) in
  let diff_low_limb := as_u16 (Z.land diff_minus_one 0xFFFF) in
  let diff_high_limb := as_u8 (shr diff_minus_one 16) in
  (mkCols (Fof old_timestamp) (Fof diff_low_limb),
   add_bit_range_check diff_low_limb 16 ++ add_u8_range_check diff_high_limb 0).

(** [eval_register_access_timestamp]. *)
Definition eval (reg_access : Cols) (do_check clk : F) : list Emit :=
  let diff_minus_one := (clk - prev_low reg_access - F1)%F in
  let diff_high_limb := ((diff_minus_one - diff_low_limb reg_access) * Finv (Fof (2 ^ 16)))%F in
  send_byte (byte_op BRange) (diff_low_limb reg_access) (Fof 16) F0 do_check ++
  send_byte (byte_op BU8Range) F0 diff_high_limb F0 do_check.
End RegisterAccessTimestamp.

(** ** Accesses ([air/memory.rs]) *)

Definition send_memory (vs : list F) (mult : F) : list Emit :=
  [Send (mkInteraction vs mult KMemory) Local].
Definition receive_memory (vs : list F) (mult : F) : list Emit :=
  [Receive (mkInteraction vs mult KMemory) Local].

Module MemoryAccess.
Record Cols : Type := mkCols {
  prev_value : Word F;
  access_timestamp : MemoryAccessTimestamp.Cols
}.

Definition populate (record : MemoryRecordEnum) : Res (Cols * list ByteLookupEvent) :=
  let prev_record := previous_record record in
  let current_record := current_record record in
  let* r := MemoryAccessTimestamp.populate_timestamp (mr_timestamp prev_record)
              (mr_timestamp current_record) in
  Ok (mkCols (word_from_u64 (mr_value prev_record)) (fst r), snd r).

Definition eval_write (clk_high clk_low : F) (addr : list F) (mem_access : Cols)
    (write_value : Word F) (do_check : F) : list Emit :=
  let ts := access_timestamp mem_access in
  assert_bool do_check ++
  MemoryAccessTimestamp.eval ts do_check clk_high clk_low ++
  send_memory (MemoryAccessTimestamp.prev_high ts :: MemoryAccessTimestamp.prev_low ts ::
               addr ++ word_list (prev_value mem_access)) do_check ++
  receive_memory (clk_high :: clk_low :: addr ++ word_list write_value) do_check.

Definition eval_read (clk_high clk_low : F) (addr : list F) (mem_access : Cols) (do_check : F)
  : list Emit :=
  let ts := access_timestamp mem_access in
  assert_bool do_check ++
  MemoryAccessTimestamp.eval ts do_check clk_high clk_low ++
  send_memory (MemoryAccessTimestamp.prev_high ts :: MemoryAccessTimestamp.prev_low ts ::
               addr ++ word_list (prev_value mem_access)) do_check ++
  receive_memory (clk_high :: clk_low :: addr ++ word_list (prev_value mem_access)) do_check.
End MemoryAccess.

Module RegisterAccess.
Record Cols : Type := mkCols {
  prev_value : Word F;
  access_timestamp : RegisterAccessTimestamp.Cols
}.

Definition populate (record : MemoryRecordEnum) : Cols * list ByteLookupEvent :=
  let prev_record := previous_record record in
  let current_record := current_record record in
  let '(ts, ev) := RegisterAccessTimestamp.populate_timestamp (mr_timestamp prev_record)
                     (mr_timestamp current_record) in
  (mkCols (word_from_u64 (mr_value prev_record)) ts, ev).

Definition eval_write (clk_high clk_low : F) (addr : list F) (reg_access : Cols)
    (write_value : Word F) (do_check : F) : list Emit :=
  let ts := access_timestamp reg_access in
  assert_bool do_check ++
  RegisterAccessTimestamp.eval ts do_check clk_low ++
  send_memory (clk_high :: RegisterAccessTimestamp.prev_low ts ::
               addr ++ word_list (prev_value reg_access)) do_check ++
  receive_memory (clk_high :: clk_low :: addr ++ word_list write_value) do_check.

Definition eval_read (clk_high clk_low : F) (addr : list F) (reg_access : Cols) (do_check : F)
  : list Emit :=
  let ts := access_timestamp reg_access in
  assert_bool do_check ++
  RegisterAccessTimestamp.eval ts do_check clk_low ++
  send_memory (clk_high :: RegisterAccessTimestamp.prev_low ts ::
               addr ++ word_list (prev_value reg_access)) do_check ++
  receive_memory (clk_high :: clk_low :: addr ++ word_list (prev_value reg_access)) do_check.
End RegisterAccess.

(** ** The CPU state ([adapter/state.rs]) *)
Module CPUState.
Record Cols : Type := mkCols {
  clk_high : F;
  clk_16_24 : F;
  clk_0_16 : F;
  pc0 : F;
  pc1 : F;
  pc2 : F
}.

Definition pc (cols : Cols) : list F := [pc0 cols; pc1 cols; pc2 cols].
Definition clk_low (cols : Cols) : F := (clk_0_16 cols + clk_16_24 cols * Fof (2 ^ 16))%F.

Definition populate (clk pc : Z) : Cols * list ByteLookupEvent :=
  let clk_high := as_u32 (shr clk 24) in
  let clk_16_24 := as_u8 (Z.land (shr clk 16) 0xFF) in
  let clk_0_16 := as_u16 (Z.land clk 0xFFFF) in
  (mkCols (Fof clk_high) (Fof clk_16_24) (Fof clk_0_16)
     (Fof (as_u16 (Z.land pc 0xFFFF))) (Fof (as_u16 (Z.land (shr pc 16) 0xFFFF)))
     (Fof (as_u16 (Z.land (shr pc 32) 0xFFFF))),
   add_bit_range_check (as_u16 (clk_0_16 - 1) / 8) 13 ++ add_u8_range_checks [clk_16_24; 0]).

Definition eval (cols : Cols) (next_pc : list F) (clk_increment is_real : F) : list Emit :=
  assert_bool is_real ++
  receive_state (clk_high cols) (clk_low cols) (pc cols) is_real ++
  send_state (clk_high cols) (clk_low cols + clk_increment)%F next_pc is_real ++
  send_byte (byte_op BRange) ((clk_0_16 cols - F1) * Finv (Fof 8))%F (Fof 13) F0 is_real ++
  slice_range_check_u8 [clk_16_24 cols; F0] is_real.
End CPUState.

(** ** Instructions in the program table ([program/instruction.rs], [air/program.rs]) *)
Module InstructionCols.
Record Cols : Type := mkCols {
  opcode : F;
  op_a : F;
  op_b : Word F;
  op_c : Word F;
  op_a_0 : F;
  imm_b : F;
  imm_c : F
}.

Definition populate (instruction : Instruction) : Cols :=
  mkCols (Fof (opcode_num (Isa.opcode instruction))) (Fof (Isa.op_a instruction))
         (word_from_u64 (Isa.op_b instruction)) (word_from_u64 (Isa.op_c instruction))
         (Fof_bool (Isa.op_a instruction =? 0)) (Fof_bool (Isa.imm_b instruction))
         (Fof_bool (Isa.imm_c instruction)).

Definition into_iter (c : Cols) : list F :=
  [opcode c; op_a c] ++ word_list (op_b c) ++ word_list (op_c c) ++ [op_a_0 c; imm_b c; imm_c c].
End InstructionCols.

Definition send_program (pc : list F) (instruction : InstructionCols.Cols) (mult : F) : list Emit :=
  [Send (mkInteraction (pc ++ InstructionCols.into_iter instruction) mult KProgram) Local].
Definition receive_program (pc : list F) (instruction : InstructionCols.Cols) (mult : F) : list Emit :=
  [Receive (mkInteraction (pc ++ InstructionCols.into_iter instruction) mult KProgram) Local].
Definition send_instruction_fetch (pc : list F) (instruction : InstructionCols.Cols)
    (instruction_field_consts clk : list F) (mult : F) : list Emit :=
  [Send (mkInteraction (pc ++ InstructionCols.into_iter instruction ++ instruction_field_consts ++ clk)
           mult KInstructionFetch) Local].

(** ** Trust modes ([machine/src/lib.rs])

    A chip is instantiated at [SupervisorMode], whose adapter columns are
    empty, or at [UserMode], whose adapter column says whether the instruction
    is read from the program table.  [mprotect] is the cargo feature, and
    [is_untrusted_programs_enabled] the public value. *)
Record Config : Type := mkConfig {
  mprotect : bool;
  is_untrusted_programs_enabled : F;
  segment_flags : SegmentFlags
}.

Inductive AdapterCols : Type :=
| SupervisorMode
| UserMode (is_trusted : F).

Definition IS_TRUSTED (m : AdapterCols) : bool :=
  match m with SupervisorMode => true | UserMode _ => false end.

Definition eval_untrusted_program (cfg : Config) (pc : list F) (instruction : InstructionCols.Cols)
    (instruction_field_consts clk : list F) (is_real is_trusted : F) : list Emit :=
  send_instruction_fetch pc instruction instruction_field_consts clk (is_real - is_trusted)%F ++
  let is_untrusted := (is_real - is_trusted)%F in
  assert_bool is_trusted ++
  assert_bool is_untrusted ++
  when is_untrusted (assert_one (is_untrusted_programs_enabled cfg)).

(** The trust part of a chip's [eval]: its constraints, and the multiplicity
    of the program read. *)
Definition eval_trust (cfg : Config) (mode : AdapterCols) (pc : list F)
    (instruction : InstructionCols.Cols) (instruction_field_consts clk : list F) (is_real : F)
  : list Emit * F :=
  let pv := if mprotect cfg
            then assert_eq (is_untrusted_programs_enabled cfg) (Fof_bool (negb (IS_TRUSTED mode)))
            else [] in
  match mode with
  | SupervisorMode => (pv, is_real)
  | UserMode is_trusted =>
      (pv ++ (if mprotect cfg then [] else assert_zero is_real) ++
       eval_untrusted_program cfg pc instruction instruction_field_consts clk is_real is_trusted,
       is_trusted)
  end.

(** ** Page permissions ([air/memory.rs]) *)
Definition send_page_prot (clk_high clk_low : F) (addr : list F) (permissions mult : F) : list Emit :=
  [Send (mkInteraction (clk_high :: clk_low :: addr ++ [permissions]) mult KPageProt) Local].

(** A memory chip in user mode requests the permission of its access. *)
Definition page_prot_request (mode : AdapterCols) (clk_high clk_low : F) (addr : list F) (permissions mult : F)
  : list Emit :=
  match mode with
  | SupervisorMode => []
  | UserMode _ => send_page_prot clk_high clk_low addr permissions mult
  end.

(** ** Readers ([adapter/register]) *)

Record RTypeRecord : Set := mkRTypeRecord {
  rt_op_a : Z; rt_a : MemoryRecordEnum;
  rt_op_b : Z; rt_b : MemoryRecordEnum;
  rt_op_c : Z; rt_c : MemoryRecordEnum;
  rt_is_untrusted : bool
}.

Module RTypeReader.
Record Cols : Type := mkCols {
  op_a : F;
  op_a_memory : RegisterAccess.Cols;
  op_a_0 : F;
  op_b : F;
  op_b_memory : RegisterAccess.Cols;
  op_c : F;
  op_c_memory : RegisterAccess.Cols
}.

Definition prev_a (cols : Cols) : Word F := RegisterAccess.prev_value (op_a_memory cols).
Definition b (cols : Cols) : Word F := RegisterAccess.prev_value (op_b_memory cols).
Definition c (cols : Cols) : Word F := RegisterAccess.prev_value (op_c_memory cols).

Definition populate (record : RTypeRecord) : Cols * list ByteLookupEvent :=
  let '(a_mem, ev_a) := RegisterAccess.populate (rt_a record) in
  let '(b_mem, ev_b) := RegisterAccess.populate (rt_b record) in
  let '(c_mem, ev_c) := RegisterAccess.populate (rt_c record) in
  (mkCols (Fof (rt_op_a record)) a_mem (Fof_bool (rt_op_a record =? 0)) (Fof (rt_op_b record)) b_mem
          (Fof (rt_op_c record)) c_mem,
   ev_a ++ ev_b ++ ev_c).

Definition instruction (cols : Cols) (opcode : F) : InstructionCols.Cols :=
  InstructionCols.mkCols opcode (op_a cols) (extend_var (op_b cols)) (extend_var (op_c cols))
    (op_a_0 cols) F0 F0.

Definition eval (clk_high clk_low : F) (pc : list F) (opcode : F) (op_a_write_value : Word F)
    (cols : Cols) (is_real is_trusted : F) : list Emit :=
  assert_bool is_real ++
  send_program pc (instruction cols opcode) is_trusted ++
  when (op_a_0 cols) (assert_word_eq op_a_write_value word_zero) ++
  RegisterAccess.eval_write clk_high (clk_low + Fof (position_num PA))%F [op_a cols; F0; F0]
    (op_a_memory cols) op_a_write_value is_real ++
  RegisterAccess.eval_read clk_high (clk_low + Fof (position_num PB))%F [op_b cols; F0; F0]
    (op_b_memory cols) is_real ++
  RegisterAccess.eval_read clk_high (clk_low + Fof (position_num PC))%F [op_c cols; F0; F0]
    (op_c_memory cols) is_real.
End RTypeReader.

Record ALUTypeRecord : Set := mkALUTypeRecord {
  at_op_a : Z; at_a : MemoryRecordEnum;
  at_op_b : Z; at_b : MemoryRecordEnum;
  at_op_c : Z; at_c : option MemoryRecordEnum;
  at_is_imm : bool;
  at_is_untrusted : bool
}.

Module ALUTypeReader.
Record Cols : Type := mkCols {
  op_a : F;
  op_a_memory : RegisterAccess.Cols;
  op_a_0 : F;
  op_b : F;
  op_b_memory : RegisterAccess.Cols;
  op_c : Word F;
  op_c_memory : RegisterAccess.Cols;
  imm_c : F
}.

Definition prev_a (cols : Cols) : Word F := RegisterAccess.prev_value (op_a_memory cols).
Definition b (cols : Cols) : Word F := RegisterAccess.prev_value (op_b_memory cols).
Definition c (cols : Cols) : Word F := RegisterAccess.prev_value (op_c_memory cols).

Definition populate (record : ALUTypeRecord) : Cols * list ByteLookupEvent :=
  let '(a_mem, ev_a) := RegisterAccess.populate (at_a record) in
  let '(b_mem, ev_b) := RegisterAccess.populate (at_b record) in
  let op_c := word_from_u64 (at_op_c record) in
  let '(imm_c, c_mem, ev_c) :=
    match at_c record with
    | None => (F1, RegisterAccess.mkCols op_c (RegisterAccessTimestamp.mkCols F0 F0), [])
    | Some r => let '(m, ev) := RegisterAccess.populate r in (F0, m, ev)
    end in
  (mkCols (Fof (at_op_a record)) a_mem (Fof_bool (at_op_a record =? 0)) (Fof (at_op_b record)) b_mem
          op_c c_mem imm_c,
   ev_a ++ ev_b ++ ev_c).

Definition instruction (cols : Cols) (opcode : F) : InstructionCols.Cols :=
  InstructionCols.mkCols opcode (op_a cols) (extend_var (op_b cols)) (op_c cols)
    (op_a_0 cols) F0 (imm_c cols).

Definition eval_alu_reader (clk_high clk_low : F) (pc : list F) (opcode : F)
    (op_a_write_value : Word F) (cols : Cols) (is_real is_trusted : F) : list Emit :=
  assert_bool is_real ++
  when_not is_real (assert_eq (imm_c cols) F0) ++
  send_program pc (instruction cols opcode) is_trusted ++
  when (op_a_0 cols) (assert_word_eq op_a_write_value word_zero) ++
  RegisterAccess.eval_write clk_high (clk_low + Fof (position_num PA))%F [op_a cols; F0; F0]
    (op_a_memory cols) op_a_write_value is_real ++
  RegisterAccess.eval_read clk_high (clk_low + Fof (position_num PB))%F [op_b cols; F0; F0]
    (op_b_memory cols) is_real ++
  RegisterAccess.eval_read clk_high (clk_low + Fof (position_num PC))%F
    [limb0 (op_c cols); F0; F0] (op_c_memory cols) (is_real - imm_c cols)%F ++
  when (imm_c cols) (assert_word_eq (RegisterAccess.prev_value (op_c_memory cols)) (op_c cols)).

Definition eval_op_a_immutable (clk_high clk_low : F) (pc : list F) (opcode : F) (cols : Cols)
    (is_real is_trusted : F) : list Emit :=
  eval_alu_reader clk_high clk_low pc opcode (prev_a cols) cols is_real is_trusted.
End ALUTypeReader.

Record ITypeRecord : Set := mkITypeRecord {
  it_op_a : Z; it_a : MemoryRecordEnum;
  it_op_b : Z; it_b : MemoryRecordEnum;
  it_op_c : Z;
  it_is_untrusted : bool
}.

Module ITypeReader.
Record Cols : Type := mkCols {
  op_a : F;
  op_a_memory : RegisterAccess.Cols;
  op_a_0 : F;
  op_b : F;
  op_b_memory : RegisterAccess.Cols;
  op_c_imm : Word F
}.

Definition prev_a (cols : Cols) : Word F := RegisterAccess.prev_value (op_a_memory cols).
Definition b (cols : Cols) : Word F := RegisterAccess.prev_value (op_b_memory cols).
Definition c (cols : Cols) : Word F := op_c_imm cols.

Definition populate (record : ITypeRecord) : Cols * list ByteLookupEvent :=
  let '(a_mem, ev_a) := RegisterAccess.populate (it_a record) in
  let '(b_mem, ev_b) := RegisterAccess.populate (it_b record) in
  (mkCols (Fof (it_op_a record)) a_mem (Fof_bool (it_op_a record =? 0)) (Fof (it_op_b record)) b_mem
          (word_from_u64 (it_op_c record)),
   ev_a ++ ev_b).

Definition instruction (cols : Cols) (opcode : F) : InstructionCols.Cols :=
  InstructionCols.mkCols opcode (op_a cols) (extend_var (op_b cols)) (op_c_imm cols)
    (op_a_0 cols) F0 F1.

Definition eval (clk_high clk_low : F) (pc : list F) (opcode : F) (op_a_write_value : Word F)
    (cols : Cols) (is_real is_trusted : F) : list Emit :=
  assert_bool is_real ++
  send_program pc (instruction cols opcode) is_trusted ++
  when (op_a_0 cols) (assert_word_eq op_a_write_value word_zero) ++
  RegisterAccess.eval_write clk_high (clk_low + Fof (position_num PA))%F [op_a cols; F0; F0]
    (op_a_memory cols) op_a_write_value is_real ++
  RegisterAccess.eval_read clk_high (clk_low + Fof (position_num PB))%F [op_b cols; F0; F0]
    (op_b_memory cols) is_real.

Definition eval_op_a_immutable (clk_high clk_low : F) (pc : list F) (opcode : F) (cols : Cols)
    (is_real is_trusted : F) : list Emit :=
  eval clk_high clk_low pc opcode (prev_a cols) cols is_real is_trusted.
End ITypeReader.

Record JTypeRecord : Set := mkJTypeRecord {
  jt_op_a : Z; jt_a : MemoryRecordEnum;
  jt_op_b : Z;
  jt_op_c : Z;
  jt_is_untrusted : bool
}.

Module JTypeReader.
Record Cols : Type := mkCols {
  op_a : F;
  op_a_memory : RegisterAccess.Cols;
  op_a_0 : F;
  op_b_imm : Word F;
  op_c_imm : Word F
}.

Definition prev_a (cols : Cols) : Word F := RegisterAccess.prev_value (op_a_memory cols).
Definition b (cols : Cols) : Word F := op_b_imm cols.
Definition c (cols : Cols) : Word F := op_c_imm cols.

Definition populate (record : JTypeRecord) : Cols * list ByteLookupEvent :=
  let '(a_mem, ev_a) := RegisterAccess.populate (jt_a record) in
  (mkCols (Fof (jt_op_a record)) a_mem (Fof_bool (jt_op_a record =? 0)) (word_from_u64 (jt_op_b record))
          (word_from_u64 (jt_op_c record)),
   ev_a).

Definition instruction (cols : Cols) (opcode : F) : InstructionCols.Cols :=
  InstructionCols.mkCols opcode (op_a cols) (op_b_imm cols) (op_c_imm cols) (op_a_0 cols) F1 F1.

Definition eval (clk_high clk_low : F) (pc : list F) (opcode : F) (op_a_write_value : Word F)
    (cols : Cols) (is_real is_trusted : F) : list Emit :=
  assert_bool is_real ++
  send_program pc (instruction cols opcode) is_trusted ++
  when (op_a_0 cols) (assert_word_eq op_a_write_value word_zero) ++
  RegisterAccess.eval_write clk_high (clk_low + Fof (position_num PA))%F [op_a cols; F0; F0]
    (op_a_memory cols) op_a_write_value is_real.
End JTypeReader.
