(* ===== verification/AdapterFacts.v ===== *)
(** * Correctness of the adapters

    Timestamps increase at every access, the CPU state's clock is [1] modulo
    [8] and in range, the populated adapters satisfy their constraints, and
    the memory accesses a reader makes, read off the messages it puts on the
    memory bus. *)

From Stdlib Require Import ZArith Lia List Bool Permutation.
From S2P Require Import Prelude Words Isa Field Air AirFacts Operations Compare Bitwise Mul Adapter.
Import ListNotations.
Open Scope Z_scope.

(** The integer of a timestamp given by its two parts. *)
Definition timestamp (high low : F) : Z := Fval high * 2 ^ 24 + Fval low.

Lemma ts_low_mod (t : Z) : 0 <= t -> ts_low t = t mod 2 ^ 24.
Proof.
  intros Ht. unfold ts_low. change 0xFFFFFF with (2 ^ 24 - 1). rewrite land_mask by lia.
  unfold as_u32, as_unsigned. apply Z.mod_small. dlia.
Qed.

Lemma ts_high_div (t : Z) : 0 <= t < 2 ^ 48 -> ts_high t = t / 2 ^ 24.
Proof.
  intros Ht. unfold ts_high. rewrite shr_div by lia. unfold as_u32, as_unsigned. apply Z.mod_small. dlia.
Qed.

(** ** Soundness of the timestamp comparisons *)

Lemma reg_timestamp_sound (ts : RegisterAccessTimestamp.Cols) (clk : F) :
  sats (RegisterAccessTimestamp.eval ts F1 clk) ->
  Fval (RegisterAccessTimestamp.prev_low ts) < 2 ^ 24 -> Fval clk < 2 ^ 24 ->
  Fval (RegisterAccessTimestamp.prev_low ts) < Fval clk.
Proof.
  destruct ts as [prev low]. unfold RegisterAccessTimestamp.eval. rewrite sats_app.
  cbn [RegisterAccessTimestamp.prev_low RegisterAccessTimestamp.diff_low_limb
       send_byte sats sat kind multiplicity values].
  intros [[Hl _] [Hh _]] Hp Hc. specialize (Hl F1_neq_0). specialize (Hh F1_neq_0).
  apply lookup_range16 in Hl. apply lookup_u8 in Hh as [Hh _].
  remember ((clk - prev - F1 - low) * Finv (Fof (2 ^ 16)))%F as h eqn:E. symmetry in E.
  apply Fmul_inv_eq in E; [|apply Fof_neq_0; unfold KOALA_BEAR_ORDER; lia].
  to_Z E. F_lia.
Qed.

Lemma mem_timestamp_sound (ts : MemoryAccessTimestamp.Cols) (clk_high clk_low : F) :
  sats (MemoryAccessTimestamp.eval ts F1 clk_high clk_low) ->
  Fval (MemoryAccessTimestamp.prev_high ts) < 2 ^ 24 ->
  Fval (MemoryAccessTimestamp.prev_low ts) < 2 ^ 24 ->
  Fval clk_high < 2 ^ 24 -> Fval clk_low < 2 ^ 24 ->
  timestamp (MemoryAccessTimestamp.prev_high ts) (MemoryAccessTimestamp.prev_low ts)
  < timestamp clk_high clk_low.
Proof.
  destruct ts as [ph pl cmp dl dh]. unfold MemoryAccessTimestamp.eval, timestamp.
  rewrite !sats_app, !sats_when_1.
  cbn [MemoryAccessTimestamp.prev_high MemoryAccessTimestamp.prev_low MemoryAccessTimestamp.compare_low
       MemoryAccessTimestamp.diff_low_limb MemoryAccessTimestamp.diff_high_limb
       send_byte assert_bool assert_eq sats sat kind multiplicity values guards_on holds when map guard].
  intros ([Hb _] & [He _] & [Hd _] & [Hl _] & [Hh _]) B1 B2 B3 B4.
  specialize (Hb I). specialize (Hd I). specialize (Hl F1_neq_0). specialize (Hh F1_neq_0).
  apply lookup_range16 in Hl. apply lookup_u8 in Hh as [Hh _].
  unfold if_else in Hd. destruct Hb as [-> | ->].
  - assert (E : (clk_high - ph - F1 = dl + dh * Fof (2 ^ 16))%F) by (rewrite <- Hd; ring).
    to_Z E. F_lia.
  - rewrite (He (conj F1_neq_0 I)) in *.
    assert (E : (clk_low - pl - F1 = dl + dh * Fof (2 ^ 16))%F) by (rewrite <- Hd; ring).
    to_Z E. F_lia.
Qed.

(** ** The CPU state *)

Lemma cpu_state_sound (cols : CPUState.Cols) (next_pc : list F) (inc : F) :
  sats (CPUState.eval cols next_pc inc F1) ->
  Fval (CPUState.clk_low cols) = Fval (CPUState.clk_0_16 cols) + 2 ^ 16 * Fval (CPUState.clk_16_24 cols) /\
  Fval (CPUState.clk_low cols) < 2 ^ 24 /\ Fval (CPUState.clk_low cols) mod 8 = 1.
Proof.
  destruct cols as [ch c1 c0 p0 p1 p2]. unfold CPUState.eval. rewrite !sats_app.
  cbn [CPUState.clk_0_16 CPUState.clk_16_24 CPUState.clk_high slice_range_check_u8 app
       send_byte sats sat kind multiplicity values].
  intros (_ & _ & _ & [Hr _] & [Hu _]). specialize (Hr F1_neq_0). specialize (Hu F1_neq_0).
  apply lookup_range in Hr; [|lia]. apply lookup_u8 in Hu as [Hu _].
  remember ((c0 - F1) * Finv (Fof 8))%F as k eqn:E. symmetry in E.
  apply Fmul_inv_eq in E; [|apply Fof_neq_0; unfold KOALA_BEAR_ORDER; lia].
  assert (E1 : c0 = (Fof 8 * k + F1)%F) by (transitivity (c0 - F1 + F1)%F; [ring | rewrite E; ring]).
  assert (Hc0 : Fval c0 = 8 * Fval k + 1) by (rewrite E1 at 1; apply Fval_rep; [exact _ | F_lia]).
  assert (Hl : Fval (CPUState.clk_low (CPUState.mkCols ch c1 c0 p0 p1 p2)) = Fval c0 + Fval c1 * 2 ^ 16)
    by (unfold CPUState.clk_low; cbn [CPUState.clk_0_16 CPUState.clk_16_24]; apply Fval_rep; [exact _ | F_lia]).
  rewrite Hl. split; [lia|]. split; [F_lia|].
  rewrite Hc0. replace (8 * Fval k + 1 + Fval c1 * 2 ^ 16) with (1 + (Fval k + Fval c1 * 2 ^ 13) * 8) by lia.
  rewrite Z_mod_plus_full. reflexivity.
Qed.

(** ** Completeness *)

Lemma diff_limbs (x : Z) :
  0 <= x < 2 ^ 24 ->
  let d := as_u32 x in
  let low := as_u16 (Z.land d 0xFFFF) in
  let high := as_u8 (shr d 16) in
  x = low + 2 ^ 16 * high /\ 0 <= low < 2 ^ 16 /\ 0 <= high < 2 ^ 8.
Proof.
  intros Hx. cbv zeta. change 0xFFFF with (2 ^ 16 - 1). rewrite land_mask, shr_div by lia.
  unfold as_u8, as_u16, as_u32, as_unsigned.
  rewrite (Z.mod_small x (2 ^ 32)), Z.mod_mod, (Z.mod_small (x / 2 ^ 16)) by dlia. dlia.
Qed.

Lemma complete_limb_lookups (low high : Z) :
  0 <= low < 2 ^ 16 -> 0 <= high < 2 ^ 8 ->
  complete (send_byte (byte_op BRange) (Fof low) (Fof 16) F0 F1 ++
            send_byte (byte_op BU8Range) F0 (Fof high) F0 F1)
           (add_bit_range_check low 16 ++ add_u8_range_check high 0).
Proof.
  intros Hl Hh. apply complete_app; [apply complete_range; [reflexivity | lia | lia]|].
  apply (complete_u8_pair high 0); [assumption | lia].
Qed.

Lemma reg_timestamp_complete (prev cur : Z) :
  0 <= prev < cur -> cur < 2 ^ 48 -> cur mod 2 ^ 24 <> 0 ->
  let '(ts, ev) := RegisterAccessTimestamp.populate_timestamp prev cur in
  complete (RegisterAccessTimestamp.eval ts F1 (Fof (ts_low cur))) ev.
Proof.
  intros Hp Hc Hz. unfold RegisterAccessTimestamp.populate_timestamp, RegisterAccessTimestamp.eval.
  rewrite !ts_high_div, !ts_low_mod by lia. cbv beta iota zeta.
  set (old := if prev / 2 ^ 24 =? cur / 2 ^ 24 then prev mod 2 ^ 24 else 0).
  assert (Hd : 0 <= cur mod 2 ^ 24 - old - 1 < 2 ^ 24)
    by (unfold old; destruct (Z.eqb_spec (prev / 2 ^ 24) (cur / 2 ^ 24)); dlia).
  destruct (diff_limbs _ Hd) as (E & Bl & Bh).
  cbn [RegisterAccessTimestamp.prev_low RegisterAccessTimestamp.diff_low_limb].
  match type of E with _ = ?l + 2 ^ 16 * ?h =>
    set (low := l) in *; set (high := h) in *;
    assert (EF : ((Fof (cur mod 2 ^ 24) - Fof old - F1 - Fof low) * Finv (Fof (2 ^ 16)))%F = Fof high)
  end.
  { apply Finv_mul_solve; [apply Fof_neq_0; unfold KOALA_BEAR_ORDER; lia|]. F_fold. f_equal. lia. }
  rewrite EF. apply complete_limb_lookups; assumption.
Qed.

Lemma mem_timestamp_complete (prev cur : Z) :
  0 <= prev < cur -> cur < 2 ^ 48 ->
  match MemoryAccessTimestamp.populate_timestamp prev cur with
  | Ok (ts, ev) => complete (MemoryAccessTimestamp.eval ts F1 (Fof (ts_high cur)) (Fof (ts_low cur))) ev
  | Panic => False
  end.
Proof.
  intros Hp Hc. unfold MemoryAccessTimestamp.populate_timestamp, MemoryAccessTimestamp.eval.
  destruct (Z.ltb_spec prev cur); [|lia]. cbn [assertb bind].
  rewrite !ts_high_div, !ts_low_mod by lia. cbv beta iota zeta.
  set (same := prev / 2 ^ 24 =? cur / 2 ^ 24).
  assert (Hd : 0 <= (if same then cur mod 2 ^ 24 else cur / 2 ^ 24)
                    - (if same then prev mod 2 ^ 24 else prev / 2 ^ 24) - 1 < 2 ^ 24)
    by (unfold same; destruct (Z.eqb_spec (prev / 2 ^ 24) (cur / 2 ^ 24)); dlia).
  destruct (diff_limbs _ Hd) as (E & Bl & Bh).
  cbn [MemoryAccessTimestamp.prev_high MemoryAccessTimestamp.prev_low MemoryAccessTimestamp.compare_low
       MemoryAccessTimestamp.diff_low_limb MemoryAccessTimestamp.diff_high_limb].
  match type of E with _ = ?l + 2 ^ 16 * ?h => set (low := l) in *; set (high := h) in * end.
  apply complete_asserts_app; [apply complete_when_1 |
    apply complete_asserts_app; [apply complete_when_1 |
    apply complete_asserts_app; [apply complete_when_1 | apply complete_limb_lookups; assumption]]].
  - apply complete_bool. destruct same; [right | left]; reflexivity.
  - apply complete_when_eq. unfold same. destruct (Z.eqb_spec (prev / 2 ^ 24) (cur / 2 ^ 24)) as [e|];
      [intros _; rewrite e; reflexivity | intros C; exfalso; apply C; reflexivity].
  - apply complete_eq. unfold if_else. destruct same; cbn [Fof_bool];
      rewrite ?F1_of, ?F0_of; F_fold; f_equal; lia.
Qed.

Lemma cpu_state_cols (clk pc : Z) :
  0 <= clk < 2 ^ 48 ->
  CPUState.clk_high (fst (CPUState.populate clk pc)) = Fof (ts_high clk) /\
  CPUState.clk_low (fst (CPUState.populate clk pc)) = Fof (ts_low clk).
Proof.
  intros Hc. cbn [CPUState.populate fst CPUState.clk_high]. split; [reflexivity|].
  unfold CPUState.clk_low. cbn [CPUState.clk_0_16 CPUState.clk_16_24]. rewrite ts_low_mod by lia.
  F_fold. f_equal. change 0xFFFF with (2 ^ 16 - 1). change 0xFF with (2 ^ 8 - 1).
  rewrite !land_mask, shr_div by lia. unfold as_u16, as_u8, as_unsigned. rewrite !Z.mod_mod by lia. dlia.
Qed.

Lemma cpu_state_complete (clk pc : Z) (next_pc : list F) (inc : F) :
  0 <= clk < 2 ^ 48 -> clk mod 8 = 1 ->
  let '(cols, ev) := CPUState.populate clk pc in complete (CPUState.eval cols next_pc inc F1) ev.
Proof.
  intros Hc H8. unfold CPUState.populate, CPUState.eval.
  cbn [CPUState.clk_0_16 CPUState.clk_16_24].
  apply complete_asserts_app; [apply complete_bool; right; reflexivity|].
  apply complete_asserts_app; [split; [cbn; auto | reflexivity]|].
  apply complete_asserts_app; [split; [cbn; auto | reflexivity]|].
  set (c0 := as_u16 (Z.land clk 0xFFFF)). set (c1 := as_u8 (Z.land (shr clk 16) 0xFF)).
  assert (H0 : c0 = clk mod 2 ^ 16)
    by (unfold c0; change 0xFFFF with (2 ^ 16 - 1); rewrite land_mask by lia;
        unfold as_u16, as_unsigned; apply Z.mod_mod; lia).
  assert (Hm : (c0 - 1) mod 8 = 0) by (rewrite H0; dlia).
  assert (Hb : 1 <= c0 < 2 ^ 16) by (rewrite H0; dlia).
  assert (E : as_u16 (c0 - 1) = c0 - 1) by (apply Z.mod_small; lia). rewrite E.
  apply complete_app.
  - apply complete_range; [|lia|dlia]. apply Finv_mul_solve; [apply Fof_neq_0; unfold KOALA_BEAR_ORDER; lia|].
    rewrite F1_of. F_fold. f_equal. dlia.
  - apply (complete_u8 [c1; 0]). assert (0 <= c1 < 2 ^ 8) by (apply Z.mod_pos_bound; lia).
    repeat constructor; lia.
Qed.

(** ** Messages on the buses *)

(** The values of the messages of one kind a row sends, and receives. *)
Definition live (k : InteractionKind) (m : AirInteraction) : list (list F) :=
  if (kind_num (kind m) =? kind_num k) && negb (Feqb (multiplicity m) F0) then [values m] else [].
Definition sends (k : InteractionKind) (l : list Emit) : list (list F) :=
  flat_map (fun e => match e with Send m Local => live k m | _ => [] end) l.
Definition receives (k : InteractionKind) (l : list Emit) : list (list F) :=
  flat_map (fun e => match e with Receive m Local => live k m | _ => [] end) l.

Lemma sends_app (k : InteractionKind) (l1 l2 : list Emit) : sends k (l1 ++ l2) = sends k l1 ++ sends k l2.
Proof. apply flat_map_app. Qed.

Lemma receives_app (k : InteractionKind) (l1 l2 : list Emit) :
  receives k (l1 ++ l2) = receives k l1 ++ receives k l2.
Proof. apply flat_map_app. Qed.

(** A record of the memory argument: an address, its timestamp and its value. *)
Record MemMessage : Set := mkMem { mem_ts : Z; mem_addr : Z; mem_val : Z }.

Definition mem_message (vs : list F) : list MemMessage :=
  match vs with
  | [h; l; a0; a1; a2; w0; w1; w2; w3] =>
      [mkMem (timestamp h l) (Fval a0 + 2 ^ 16 * Fval a1 + 2 ^ 32 * Fval a2)
             (word_val (mkWord w0 w1 w2 w3))]
  | _ => []
  end.

(** The accesses of a row: the record each replaces, and the record it leaves. *)
Definition accesses (l : list Emit) : list (MemMessage * MemMessage) :=
  combine (flat_map mem_message (sends KMemory l)) (flat_map mem_message (receives KMemory l)).

(** A part of a row that puts nothing on the bus [k], and one that puts
    messages on no bus but the byte bus, as every operation gadget. *)
Definition silent (k : InteractionKind) (l : list Emit) : Prop := sends k l = [] /\ receives k l = [].
Definition quiet (l : list Emit) : Prop := forall k, k <> KByte -> silent k l.

Lemma silent_app (k : InteractionKind) (l1 l2 : list Emit) :
  silent k l1 -> silent k l2 -> silent k (l1 ++ l2).
Proof. unfold silent. rewrite sends_app, receives_app. intros [-> ->] [-> ->]. split; reflexivity. Qed.

Lemma quiet_app (l1 l2 : list Emit) : quiet l1 -> quiet l2 -> quiet (l1 ++ l2).
Proof. intros H1 H2 k Hk. apply silent_app; auto. Qed.

Lemma sends_when (k : InteractionKind) (c : F) (l : list Emit) :
  sends k (when c l) = sends k l /\ receives k (when c l) = receives k l.
Proof.
  induction l as [|e l [IH1 IH2]]; [split; reflexivity|].
  cbn [when map]. change (map (guard c) l) with (when c l). unfold sends, receives in *. cbn [flat_map].
  rewrite IH1, IH2. destruct e; split; reflexivity.
Qed.

Lemma quiet_when (c : F) (l : list Emit) : quiet l -> quiet (when c l).
Proof. intros H k Hk. unfold silent. destruct (sends_when k c l) as [-> ->]. apply H, Hk. Qed.

Lemma quiet_flat_map {A} (f : A -> list Emit) (l : list A) : (forall x, quiet (f x)) -> quiet (flat_map f l).
Proof. intros H. induction l; [intros k _; split; reflexivity|]. cbn. apply quiet_app; auto. Qed.

Lemma quiet_asserts (l : list Emit) :
  Forall (fun e => match e with Assert _ _ => True | _ => False end) l -> quiet l.
Proof.
  intros H k _. induction H as [|e l He _ [IH1 IH2]]; [split; reflexivity|].
  destruct e; [|contradiction..]. split; [exact IH1 | exact IH2].
Qed.

Lemma quiet_byte (o a b c m : F) : quiet (send_byte o a b c m).
Proof. intros k Hk. destruct k; try (split; reflexivity). contradiction. Qed.

Create HintDb quiet discriminated.
#[export] Hint Constants Opaque : quiet.
#[export] Hint Resolve silent_app quiet_app quiet_when quiet_flat_map quiet_byte : quiet.
#[export] Hint Extern 0 (_ <> KByte) => discriminate : quiet.
#[export] Hint Extern 0 (quiet (assert_bool _)) => apply quiet_asserts; repeat constructor : quiet.
#[export] Hint Extern 0 (quiet (assert_eq _ _)) => apply quiet_asserts; repeat constructor : quiet.
#[export] Hint Extern 0 (quiet (assert_zero _)) => apply quiet_asserts; repeat constructor : quiet.
#[export] Hint Extern 0 (quiet (assert_one _)) => apply quiet_asserts; repeat constructor : quiet.
#[export] Hint Extern 0 (quiet []) => apply quiet_asserts; constructor : quiet.

Lemma quiet_carry_chain (c : F) (l : list (F * F)) : quiet (carry_chain c l).
Proof.
  revert c. induction l as [|[s v] l IH]; intros c; [apply quiet_asserts; constructor|]. cbn [carry_chain].
  auto with quiet.
Qed.

Lemma quiet_range16 (l : list F) (m : F) : quiet (slice_range_check_u16 l m).
Proof. apply quiet_flat_map. intros x. auto with quiet. Qed.

Lemma quiet_range8 (l : list F) (m : F) : quiet (slice_range_check_u8 l m).
Proof.
  revert l. fix IH 1. intros [|x [|y l]]; [apply quiet_asserts; constructor | apply quiet_byte |].
  cbn [slice_range_check_u8]. apply quiet_app; [auto with quiet | apply IH].
Qed.

Lemma quiet_all_eq (l r : list F) : quiet (assert_all_eq l r).
Proof. apply quiet_flat_map. intros x. auto with quiet. Qed.

Lemma quiet_word_eq (l r : Word F) : quiet (assert_word_eq l r).
Proof. apply quiet_all_eq. Qed.

#[export] Hint Resolve quiet_carry_chain quiet_range16 quiet_range8 quiet_all_eq quiet_word_eq : quiet.

Lemma quiet_add (a b : Word F) (cols : AddOperation.Cols) (r : F) : quiet (AddOperation.eval a b cols r).
Proof. unfold AddOperation.eval. auto with quiet. Qed.

Lemma quiet_sub (a b : Word F) (cols : SubOperation.Cols) (r : F) : quiet (SubOperation.eval a b cols r).
Proof. unfold SubOperation.eval. auto with quiet. Qed.

Lemma quiet_msb (a : F) (cols : U16MSBOperation.Cols) (r : F) : quiet (U16MSBOperation.eval_msb a cols r).
Proof. unfold U16MSBOperation.eval_msb. auto with quiet. Qed.

Lemma quiet_compare (a b : F) (cols : U16CompareOperation.Cols) (r : F) :
  quiet (U16CompareOperation.eval_compare_u16 a b cols r).
Proof. unfold U16CompareOperation.eval_compare_u16. auto with quiet. Qed.
#[export] Hint Resolve quiet_add quiet_sub quiet_msb quiet_compare : quiet.

Lemma quiet_addw (a b : Word F) (cols : AddwOperation.Cols) (r : F) : quiet (AddwOperation.eval a b cols r).
Proof. unfold AddwOperation.eval. auto with quiet. Qed.

Lemma quiet_subw (a b : Word F) (cols : SubwOperation.Cols) (r : F) : quiet (SubwOperation.eval a b cols r).
Proof. unfold SubwOperation.eval. auto with quiet. Qed.
#[export] Hint Resolve quiet_addw quiet_subw : quiet.

(** The trust part sends no record and no state. *)
Lemma silent_trust (k : InteractionKind) (cfg : Config) (mode : AdapterCols) (pc : list F)
    (i : InstructionCols.Cols) (consts clk : list F) (is_real : F) :
  k <> KByte -> k <> KInstructionFetch -> silent k (fst (eval_trust cfg mode pc i consts clk is_real)).
Proof.
  intros H1 H2. unfold eval_trust. destruct mode; cbn [fst]; destruct (mprotect cfg);
    try (unfold silent; auto with quiet; fail); unfold eval_untrusted_program;
    destruct k; try contradiction; split; reflexivity.
Qed.

(** ** The accesses of the readers *)

(** The record a register access leaves, and the one it replaces. *)
Definition reg_record (clk_high clk : F) (reg : F) (value : Word F) : MemMessage :=
  mkMem (timestamp clk_high clk) (Fval reg) (word_val value).

Definition reg_access (clk_high clk reg : F) (acc : RegisterAccess.Cols) (value : Word F)
  : MemMessage * MemMessage :=
  (reg_record clk_high (RegisterAccessTimestamp.prev_low (RegisterAccess.access_timestamp acc)) reg
     (RegisterAccess.prev_value acc),
   reg_record clk_high clk reg value).

Lemma mem_message_reg (h l r : F) (w : Word F) :
  mem_message (h :: l :: [r; F0; F0] ++ word_list w) = [reg_record h l r w].
Proof.
  destruct w as [w0 w1 w2 w3]. cbn [app word_list limb0 limb1 limb2 limb3 mem_message].
  unfold reg_record. change (Fval F0) with 0. do 2 f_equal. lia.
Qed.

(** One step of the flow of records through a row. *)
Definition traffic (l : list Emit) : list MemMessage * list MemMessage :=
  (flat_map mem_message (sends KMemory l), flat_map mem_message (receives KMemory l)).

Lemma traffic_quiet (l : list Emit) : silent KMemory l -> traffic l = ([], []).
Proof. unfold silent, traffic. intros [-> ->]. reflexivity. Qed.

Lemma quiet_silent (k : InteractionKind) (l : list Emit) : k <> KByte -> quiet l -> silent k l.
Proof. intros Hk H. apply H, Hk. Qed.
#[export] Hint Resolve quiet_silent : quiet.

Lemma traffic_app (l1 l2 : list Emit) :
  traffic (l1 ++ l2) = (fst (traffic l1) ++ fst (traffic l2), snd (traffic l1) ++ snd (traffic l2)).
Proof. unfold traffic. rewrite sends_app, receives_app, !flat_map_app. reflexivity. Qed.

Lemma traffic_quiet_app (l1 l2 : list Emit) : silent KMemory l1 -> traffic (l1 ++ l2) = traffic l2.
Proof. intros H. rewrite traffic_app, (traffic_quiet _ H). destruct (traffic l2); reflexivity. Qed.

Lemma accesses_traffic (l : list Emit) : accesses l = combine (fst (traffic l)) (snd (traffic l)).
Proof. reflexivity. Qed.

Lemma quiet_reg_timestamp (ts : RegisterAccessTimestamp.Cols) (c clk : F) :
  quiet (RegisterAccessTimestamp.eval ts c clk).
Proof. unfold RegisterAccessTimestamp.eval. auto with quiet. Qed.
#[export] Hint Resolve quiet_reg_timestamp : quiet.

Lemma traffic_messages (vs vs' : list F) (c : F) :
  c <> F0 ->
  traffic (send_memory vs c ++ receive_memory vs' c) = (mem_message vs, mem_message vs').
Proof.
  intros Hc. unfold traffic, sends, receives, send_memory, receive_memory.
  cbn [app flat_map]. unfold live. cbn [kind kind_num Z.eqb Pos.eqb multiplicity values andb].
  rewrite (Feqb_neq c F0 Hc). cbn [negb app flat_map]. rewrite !app_nil_r. reflexivity.
Qed.

Lemma traffic_reg_write (h l r : F) (acc : RegisterAccess.Cols) (w : Word F) (c : F) :
  c <> F0 ->
  traffic (RegisterAccess.eval_write h l [r; F0; F0] acc w c)
  = ([fst (reg_access h l r acc w)], [snd (reg_access h l r acc w)]).
Proof.
  intros Hc. unfold RegisterAccess.eval_write. rewrite !traffic_quiet_app by auto with quiet.
  rewrite traffic_messages, !mem_message_reg by assumption. reflexivity.
Qed.

Lemma traffic_reg_read (h l r : F) (acc : RegisterAccess.Cols) (c : F) :
  c <> F0 ->
  traffic (RegisterAccess.eval_read h l [r; F0; F0] acc c)
  = ([fst (reg_access h l r acc (RegisterAccess.prev_value acc))],
     [snd (reg_access h l r acc (RegisterAccess.prev_value acc))]).
Proof. apply traffic_reg_write. Qed.

Lemma silent_program (k : InteractionKind) (pc : list F) (i : InstructionCols.Cols) (m : F) :
  k <> KProgram -> silent k (send_program pc i m).
Proof. intros Hk. destruct k; try contradiction; split; reflexivity. Qed.
#[export] Hint Resolve silent_program : quiet.
#[export] Hint Extern 0 (_ <> KProgram) => discriminate : quiet.

(** An R-type reader writes [op_a] and reads [op_b] and [op_c]. *)
Lemma r_type_traffic (h l : F) (pc : list F) (o : F) (w : Word F) (cols : RTypeReader.Cols) (t : F) :
  accesses (RTypeReader.eval h l pc o w cols F1 t)
  = [reg_access h (l + Fof 4)%F (RTypeReader.op_a cols) (RTypeReader.op_a_memory cols) w;
     reg_access h (l + Fof 3)%F (RTypeReader.op_b cols) (RTypeReader.op_b_memory cols) (RTypeReader.b cols);
     reg_access h (l + Fof 2)%F (RTypeReader.op_c cols) (RTypeReader.op_c_memory cols) (RTypeReader.c cols)].
Proof.
  unfold RTypeReader.eval. rewrite accesses_traffic, !traffic_quiet_app by auto with quiet.
  rewrite !traffic_app, traffic_reg_write, !traffic_reg_read by apply F1_neq_0. reflexivity.
Qed.
