(* ===== verification/Row.v ===== *)
(** * Rows of the instruction chips

    What a row of an instruction chip does, read off its messages: the state
    it consumes and the one it leaves, the instruction it looks up, and its
    accesses.  [instruction_step] gives the accesses and the next program
    counter of the executor's step for an instruction, and [step_row] states
    that a row is such a step.  A chip is a set of operation gadgets in a frame
    shared by all instruction chips: the CPU state, the trust columns and a
    register reader.  [Reader] is the interface of the readers, [ReaderLaws]
    what they promise, and [frame_run] is what the frame then gives a chip. *)

From Stdlib Require Import ZArith Lia List Bool Permutation.
From S2P Require Import Prelude Words Isa Field Air AirFacts Operations Adapter AdapterFacts.
Import ListNotations.
Open Scope Z_scope.

(** ** Messages as integers *)

Definition pc_val (p0 p1 p2 : F) : Z := Fval p0 + 2 ^ 16 * Fval p1 + 2 ^ 32 * Fval p2.

Definition state_message (vs : list F) : list (Z * Z) :=
  match vs with [h; l; p0; p1; p2] => [(timestamp h l, pc_val p0 p1 p2)] | _ => [] end.

Definition state_in (row : list Emit) : list (Z * Z) := flat_map state_message (receives KState row).
Definition state_out (row : list Emit) : list (Z * Z) := flat_map state_message (sends KState row).

(** The instructions a row looks up, in the program table or, for an
    untrusted program, in the instruction fetch table. *)
Definition instruction_reads (row : list Emit) : list (list F) :=
  sends KProgram row ++ map (firstn 16) (sends KInstructionFetch row).

(** The message of the program table for instruction [i] at [pc]. *)
Definition instruction_message (pc : Z) (i : Instruction) : list F :=
  [Fof (limb16 pc 0); Fof (limb16 pc 1); Fof (limb16 pc 2)]
  ++ InstructionCols.into_iter (InstructionCols.populate i).

(** The offset of a jump is sign-extended, as the disassembler leaves it. *)
Definition jump_offset (i : Instruction) : Prop :=
  match opcode i with
  | JAL => as_u64 (sign_extend_imm (op_b i) 21) = op_b i
  | JALR => as_u64 (sign_extend_imm (op_c i) 12) = op_c i
  | _ => True
  end.

Definition wf_instruction (i : Instruction) : Prop :=
  0 <= op_a i < 32 /\ is_u64 (op_b i) /\ is_u64 (op_c i) /\
  (imm_b i = false -> op_b i < 32) /\ (imm_c i = false -> op_c i < 32) /\ jump_offset i.

(** Records of the memory bus in canonical form: 24-bit clock limbs and a
    word of 16-bit limbs. *)
Definition canonical_mem (vs : list F) : Prop :=
  match vs with
  | [h; l; a0; a1; a2; w0; w1; w2; w3] =>
      Fval h < 2 ^ 24 /\ Fval l < 2 ^ 24 /\ valid_word (mkWord w0 w1 w2 w3)
  | _ => False
  end.
Definition canonical_state (vs : list F) : Prop :=
  match vs with h :: _ => Fval h < 2 ^ 24 | _ => False end.

(** The parts of a record on the bus, before it is known to be canonical. *)
Definition canonical_ts (vs : list F) : Prop :=
  match vs with h :: l :: _ => Fval h < 2 ^ 24 /\ Fval l < 2 ^ 24 | _ => False end.
Definition record_ts (vs : list F) : Z := match vs with h :: l :: _ => timestamp h l | _ => 0 end.
Definition valid_record (vs : list F) : Prop :=
  match vs with [_; _; _; _; _; w0; w1; w2; w3] => valid_word (mkWord w0 w1 w2 w3) | _ => False end.

Lemma canonical_mem_parts (vs : list F) : canonical_mem vs <-> canonical_ts vs /\ valid_record vs.
Proof.
  unfold canonical_mem, canonical_ts, valid_record.
  do 10 (destruct vs as [|? vs]; try tauto).
Qed.

(** An access on the bus: the record it replaces and the one it leaves are at
    one address, the one it leaves has a canonical timestamp, later than the
    timestamp of the other. *)
Record bus_access (p c : list F) : Prop := mkBusAccess {
  ba_lengths : length p = 9%nat /\ length c = 9%nat;
  ba_addr : firstn 3 (skipn 2 p) = firstn 3 (skipn 2 c);
  ba_ts : canonical_ts c;
  ba_later : canonical_ts p -> record_ts p < record_ts c
}.

(** One that leaves the value as it is. *)
Definition bus_read (p c : list F) : Prop := bus_access p c /\ skipn 5 p = skipn 5 c.

Lemma bus_read_valid (p c : list F) : bus_read p c -> valid_record p -> valid_record c.
Proof.
  intros [[[Lp Lc] _ _ _] E].
  do 9 (destruct p as [|? p]; [discriminate Lp|]). destruct p; [|discriminate Lp].
  do 9 (destruct c as [|? c]; [discriminate Lc|]). destruct c; [|discriminate Lc].
  cbn [skipn] in E. assert (E' := E). injection E' as -> -> -> ->. auto.
Qed.

(** Whether a record is a register's: its two top address limbs are zero. *)
Definition is_register (vs : list F) : bool :=
  match vs with _ :: _ :: _ :: a1 :: a2 :: _ => Feqb a1 F0 && Feqb a2 F0 | _ => false end.

(** The order in which the records of a shard are shown canonical: by
    timestamp, a memory record after the registers of the same instruction,
    since a store writes memory before it accesses its source register. *)
Definition record_key (vs : list F) : Z := 2 * record_ts vs + (if is_register vs then 0 else 5).

(** ** The executor's step, on the buses *)

(** The accesses of instruction [i] at clock [clk]: [rd] is written at
    [clk + 4], [rs1] read at [clk + 3], [rs2] read at [clk + 2]. *)
Definition alu_accesses (i : Instruction) (clk ta va tb b tc c a : Z) : list (MemMessage * MemMessage) :=
  (mkMem ta (op_a i) va, mkMem (clk + 4) (op_a i) a) ::
  (if imm_b i then [] else [(mkMem tb (op_b i) b, mkMem (clk + 3) (op_b i) b)]) ++
  (if imm_c i then [] else [(mkMem tc (op_c i) c, mkMem (clk + 2) (op_c i) c)]).

(** The access to memory, at [clk + 1]. *)
Definition memory_access (addr clk tm m v : Z) : MemMessage * MemMessage :=
  (mkMem tm (aligned addr) m, mkMem (clk + 1) (aligned addr) v).

Definition increasing (p : MemMessage * MemMessage) : Prop := mem_ts (fst p) < mem_ts (snd p).

(** What the step leaves in [rd]: [x0] stays zero. *)
Definition rd_value (i : Instruction) (r : Z) : Z := if op_a i =? 0 then 0 else r.

(** The address of a memory instruction is above the registers. *)
Definition memory_address (addr : Z) : Prop := 2 ^ 16 <= addr < 2 ^ 48.

(** The executor's step for instruction [i] at [pc] and [clk]: its accesses,
    and the next program counter. *)
Inductive instruction_step (i : Instruction) (clk pc : Z) : list (MemMessage * MemMessage) -> Z -> Prop :=
| step_alu ta va tb b tc c r :
    (imm_b i = true -> b = op_b i) -> (imm_c i = true -> c = op_c i) ->
    alu_value (opcode i) b c = Ok r ->
    instruction_step i clk pc (alu_accesses i clk ta va tb b tc c (rd_value i r)) (pc + PC_INC)
| step_load ta va tb b tc c tm m r :
    imm_b i = false -> imm_c i = true -> c = op_c i ->
    memory_address (wrapping_add b c) -> load_value (opcode i) (wrapping_add b c) m = Ok r ->
    instruction_step i clk pc
      (memory_access (wrapping_add b c) clk tm m m :: alu_accesses i clk ta va tb b tc c (rd_value i r)) (pc + PC_INC)
| step_store ta va tb b tc c tm m v :
    imm_b i = false -> imm_c i = true -> c = op_c i ->
    memory_address (wrapping_add b c) -> store_value (opcode i) va (wrapping_add b c) m = Ok v ->
    instruction_step i clk pc
      (memory_access (wrapping_add b c) clk tm m v :: alu_accesses i clk ta va tb b tc c va) (pc + PC_INC)
| step_branch ta va tb b tc c taken :
    imm_b i = false -> imm_c i = true -> c = op_c i ->
    branch_taken (opcode i) va b = Ok taken ->
    instruction_step i clk pc (alu_accesses i clk ta va tb b tc c va)
      (if taken then wrapping_add pc c else pc + PC_INC)
| step_jal ta va tb b tc c :
    opcode i = JAL -> imm_b i = true -> imm_c i = true -> b = op_b i ->
    instruction_step i clk pc (alu_accesses i clk ta va tb b tc c (rd_value i (pc + PC_INC))) (wrapping_add pc b)
| step_jalr ta va tb b tc c :
    opcode i = JALR -> imm_b i = false -> imm_c i = true -> c = op_c i ->
    instruction_step i clk pc (alu_accesses i clk ta va tb b tc c (rd_value i (pc + PC_INC)))
      (Z.land (wrapping_add b c) (not_u64 1))
| step_utype ta va tb b tc c r :
    imm_b i = true -> imm_c i = true -> b = op_b i ->
    (opcode i = AUIPC /\ r = wrapping_add pc b \/ opcode i = LUI /\ r = b) ->
    instruction_step i clk pc (alu_accesses i clk ta va tb b tc c (rd_value i r)) (pc + PC_INC).

(** What the buses guarantee of the messages a row consumes: a canonical
    state, canonical records, and an instruction of the program. *)
Definition row_inputs (row : list Emit) (pc : Z) (i : Instruction) : Prop :=
  Forall canonical_state (receives KState row) /\
  Forall canonical_mem (sends KMemory row) /\
  instruction_reads row = [instruction_message pc i] /\
  0 <= pc < 2 ^ 48 /\ wf_instruction i.

(** The row is the executor's step for instruction [i] at [pc], and the
    records it leaves are canonical. *)
Definition executes (row : list Emit) (pc : Z) (i : Instruction) : Prop :=
  (exists clk next_pc,
     state_in row = [(clk, pc)] /\ state_out row = [(clk + CLK_INC, next_pc)] /\
     instruction_step i clk pc (accesses row) next_pc /\ Forall increasing (accesses row)) /\
  Forall canonical_mem (receives KMemory row).

(** The accesses of a row on the bus: reads, and at most one write, which
    depends on records that are shown canonical before it. *)
Definition bus_accesses (row : list Emit) : Prop :=
  exists prs ws reads,
    sends KMemory row = map fst prs /\ receives KMemory row = map snd prs /\ Permutation prs (ws ++ reads) /\
    Forall (fun r => bus_access (fst r) (snd r)) ws /\ Forall (fun r => bus_read (fst r) (snd r)) reads /\
    Forall (fun w => Forall (fun r => record_key (snd r) <= record_key (snd w) + 1) prs) ws.

(** The messages of an instruction row: it receives the state of an aligned
    clock, sends the next one, and looks up the instruction at its program
    counter. *)
Definition step_messages (row : list Emit) : Prop :=
  exists h l p0 p1 p2 n0 n1 n2 rest,
    receives KState row = [[h; l; p0; p1; p2]] /\
    sends KState row = [[h; (l + Fof CLK_INC)%F; n0; n1; n2]] /\
    instruction_reads row = [p0 :: p1 :: p2 :: rest] /\
    Fval l mod 8 = 1 /\ Fval l < 2 ^ 24 /\
    (Forall is_u16F [p0; p1; p2] -> Forall (fun n => Fval n < 2 ^ 17) [n0; n1; n2]) /\
    (Fval h < 2 ^ 24 -> bus_accesses row).

(** What a satisfying row of an instruction chip is: its messages, and the
    executor's step on any inputs the buses can give it. *)
Definition step_row (row : list Emit) : Prop :=
  step_messages row /\ forall pc i, row_inputs row pc i -> executes row pc i.

(** Rows with the same messages on the buses other than the byte bus. *)
Definition same_bus (r r' : list Emit) : Prop :=
  forall k, k <> KByte -> sends k r = sends k r' /\ receives k r = receives k r'.

Lemma same_bus_step (r r' : list Emit) : same_bus r r' -> step_row r -> step_row r'.
Proof.
  intros H. unfold step_row, step_messages, bus_accesses, executes, row_inputs, state_in, state_out, accesses,
    instruction_reads.
  destruct (H KState) as [-> ->]; [discriminate|]. destruct (H KMemory) as [-> ->]; [discriminate|].
  destruct (H KProgram) as [-> _]; [discriminate|]. destruct (H KInstructionFetch) as [-> _]; [discriminate|].
  exact (fun x => x).
Qed.

(** ** The interface of the register readers *)
Class Reader (C : Type) : Type := {
  rd_instruction : C -> F -> InstructionCols.Cols;
  rd_eval : F -> F -> list F -> F -> Word F -> C -> F -> F -> list Emit;
  rd_a : C -> Word F;
  rd_b : C -> Word F;
  rd_c : C -> Word F
}.

Class ReaderLaws (C : Type) `{Reader C} : Prop := {
  rd_silent_state : forall h l pc o w cols r t, silent KState (rd_eval h l pc o w cols r t);
  rd_silent_fetch : forall h l pc o w cols r t, silent KInstructionFetch (rd_eval h l pc o w cols r t);
  rd_program : forall h l pc o w cols r t,
    sends KProgram (rd_eval h l pc o w cols r t)
    = if Feqb t F0 then [] else [pc ++ InstructionCols.into_iter (rd_instruction cols o)];
  rd_x0 : forall h l pc o w cols t i,
    rd_instruction cols o = InstructionCols.populate i -> op_a i = 0 ->
    sats (rd_eval h l pc o w cols F1 t) -> w = word_zero;
  rd_opcode : forall cols o, InstructionCols.opcode (rd_instruction cols o) = o;
  rd_accesses : forall h l pc o w cols t i,
    rd_instruction cols o = InstructionCols.populate i -> wf_instruction i ->
    sats (rd_eval h l pc o w cols F1 t) ->
    Forall canonical_mem (sends KMemory (rd_eval h l pc o w cols F1 t)) ->
    Fval h < 2 ^ 24 -> Fval l + 4 < 2 ^ 24 ->
    (exists ta tb tc,
       accesses (rd_eval h l pc o w cols F1 t)
       = alu_accesses i (timestamp h l) ta (word_val (rd_a cols)) tb (word_val (rd_b cols)) tc (word_val (rd_c cols))
           (word_val w)) /\
    Forall increasing (accesses (rd_eval h l pc o w cols F1 t)) /\
    valid_word (rd_a cols) /\ valid_word (rd_b cols) /\ valid_word (rd_c cols) /\
    (imm_b i = true -> word_val (rd_b cols) = op_b i) /\
    (imm_c i = true -> word_val (rd_c cols) = op_c i) /\
    (valid_word w -> Forall canonical_mem (receives KMemory (rd_eval h l pc o w cols F1 t)));
  rd_records : forall h l pc o w cols t,
    sats (rd_eval h l pc o w cols F1 t) -> Fval h < 2 ^ 24 -> Fval l + 4 < 2 ^ 24 ->
    exists pa ca reads,
      sends KMemory (rd_eval h l pc o w cols F1 t) = pa :: map fst reads /\
      receives KMemory (rd_eval h l pc o w cols F1 t) = ca :: map snd reads /\
      bus_access pa ca /\ record_key ca = 2 * (timestamp h l + 4) /\
      skipn 5 pa = word_list (rd_a cols) /\ skipn 5 ca = word_list w /\
      Forall (fun r => bus_read (fst r) (snd r) /\ record_key (snd r) < 2 * (timestamp h l + 4)) reads
}.

(** ** The frame of an instruction chip *)

(** A part of a row that puts nothing on the state and program buses. *)
Definition stateless (l : list Emit) : Prop :=
  silent KState l /\ silent KProgram l /\ silent KInstructionFetch l.

Lemma quiet_stateless (l : list Emit) : quiet l -> stateless l.
Proof. intros Hq. split; [|split]; apply Hq; discriminate. Qed.

Lemma stateless_app (l1 l2 : list Emit) : stateless l1 -> stateless l2 -> stateless (l1 ++ l2).
Proof. intros (A1 & A2 & A3) (B1 & B2 & B3). split; [|split]; apply silent_app; assumption. Qed.
#[export] Hint Resolve quiet_stateless stateless_app : quiet.

(** The program counter of the next instruction in sequence. *)
Definition pc_inc (state : CPUState.Cols) : list F :=
  [(CPUState.pc0 state + Fof PC_INC)%F; CPUState.pc1 state; CPUState.pc2 state].

Section Frame.
Context {C : Type} `{Reader C} `{!ReaderLaws C}.
Context (cfg : Config) (mode : AdapterCols) (state : CPUState.Cols) (adapter : C).
Context (opcode : F) (consts : list F) (value : Word F) (next_pc : list F).
(** The constraints a chip makes between the trust part and the reader. *)
Context (mid : list Emit).

Definition frame (is_real : F) : list Emit :=
  CPUState.eval state next_pc (Fof CLK_INC) is_real ++
  fst (eval_trust cfg mode (CPUState.pc state) (rd_instruction adapter opcode) consts
         [CPUState.clk_high state; CPUState.clk_low state] is_real) ++
  mid ++
  rd_eval (CPUState.clk_high state) (CPUState.clk_low state) (CPUState.pc state) opcode value adapter is_real
    (snd (eval_trust cfg mode (CPUState.pc state) (rd_instruction adapter opcode) consts
            [CPUState.clk_high state; CPUState.clk_low state] is_real)).

Context (Hmid : stateless mid) (Hmem : silent KMemory mid).

Lemma frame_state :
  receives KState (frame F1)
    = [[CPUState.clk_high state; CPUState.clk_low state; CPUState.pc0 state; CPUState.pc1 state; CPUState.pc2 state]] /\
  sends KState (frame F1)
    = [CPUState.clk_high state :: (CPUState.clk_low state + Fof CLK_INC)%F :: next_pc].
Proof.
  unfold frame. rewrite !sends_app, !receives_app. destruct Hmid as ([-> ->] & _).
  destruct (silent_trust KState cfg mode (CPUState.pc state) (rd_instruction adapter opcode) consts
              [CPUState.clk_high state; CPUState.clk_low state] F1) as [-> ->]; try discriminate.
  match goal with |- context [rd_eval ?h ?l ?p ?o ?w ?c ?r ?t] =>
    destruct (rd_silent_state h l p o w c r t) as [-> ->] end.
  unfold CPUState.eval. rewrite !sends_app, !receives_app, !app_nil_r.
  unfold sends, receives, receive_state, send_state, CPUState.pc. cbn [flat_map app assert_bool].
  unfold live. cbn [kind kind_num Z.eqb Pos.eqb multiplicity values andb].
  rewrite (Feqb_neq F1 F0 F1_neq_0). split; reflexivity.
Qed.

Lemma silent_cpu_state (k : InteractionKind) (cols : CPUState.Cols) (next : list F) (inc r : F) :
  k <> KByte -> k <> KState -> silent k (CPUState.eval cols next inc r).
Proof. intros H1 H2. destruct k; try contradiction; split; reflexivity. Qed.

Lemma into_iter_length (c : InstructionCols.Cols) : length (InstructionCols.into_iter c) = 13%nat.
Proof. reflexivity. Qed.

Lemma into_iter_inj (c c' : InstructionCols.Cols) :
  InstructionCols.into_iter c = InstructionCols.into_iter c' -> c = c'.
Proof.
  destruct c as [o a [b0 b1 b2 b3] [c0 c1 c2 c3] z ib ic],
    c' as [o' a' [b0' b1' b2' b3'] [c0' c1' c2' c3'] z' ib' ic'].
  cbn. intros E. injection E. intros. subst. reflexivity.
Qed.

Lemma pc_val_limbs (x : Z) :
  0 <= x < 2 ^ 48 -> pc_val (Fof (limb16 x 0)) (Fof (limb16 x 1)) (Fof (limb16 x 2)) = x.
Proof.
  intros Hx. unfold pc_val. rewrite !Fval_limb16. unfold limb16.
  change (2 ^ (16 * 0)) with 1. change (2 ^ (16 * 1)) with (2 ^ 16). change (2 ^ (16 * 2)) with (2 ^ 32).
  rewrite Z.div_1_r. dlia.
Qed.

Lemma fetch_user (pc : list F) (i : InstructionCols.Cols) (cs clk : list F) (r t : F) :
  sends KInstructionFetch (fst (eval_trust cfg (UserMode t) pc i cs clk r))
  = if Feqb (r - t)%F F0 then [] else [pc ++ InstructionCols.into_iter i ++ cs ++ clk].
Proof.
  cbn [eval_trust fst]. unfold eval_untrusted_program, send_instruction_fetch.
  destruct (mprotect cfg); unfold sends, live;
    cbn [app flat_map assert_eq assert_zero assert_bool assert_one when map guard kind kind_num Z.eqb Pos.eqb
         multiplicity values andb]; rewrite app_nil_r; destruct (Feqb _ _); reflexivity.
Qed.

Lemma user_trusted (pc : list F) (i : InstructionCols.Cols) (cs clk : list F) (r t : F) :
  sats (fst (eval_trust cfg (UserMode t) pc i cs clk r)) -> is_bool t.
Proof.
  cbn [eval_trust fst]. unfold eval_untrusted_program. rewrite !sats_app. cbn. intuition.
Qed.

Lemma frame_reads :
  sats (frame F1) ->
  instruction_reads (frame F1) = [CPUState.pc state ++ InstructionCols.into_iter (rd_instruction adapter opcode)].
Proof.
  unfold frame, instruction_reads. rewrite !sats_app, !sends_app. destruct Hmid as (_ & [-> _] & [-> _]).
  destruct (silent_cpu_state KProgram state next_pc (Fof CLK_INC) F1) as [-> _]; try discriminate.
  destruct (silent_cpu_state KInstructionFetch state next_pc (Fof CLK_INC) F1) as [-> _]; try discriminate.
  match goal with |- context [rd_eval ?h ?l ?p ?o ?w ?c ?r ?t] =>
    destruct (rd_silent_fetch h l p o w c r t) as [-> _]; rewrite (rd_program h l p o w c r t) end.
  destruct (silent_trust KProgram cfg mode (CPUState.pc state) (rd_instruction adapter opcode) consts
              [CPUState.clk_high state; CPUState.clk_low state] F1) as [-> _]; try discriminate.
  intros (_ & Ht & _). destruct mode as [|t].
  - cbn [eval_trust fst snd]. rewrite (Feqb_neq F1 F0 F1_neq_0). destruct (mprotect cfg); reflexivity.
  - apply user_trusted in Ht. rewrite fetch_user. cbn [eval_trust snd].
    destruct Ht as [-> | ->].
    + replace (F1 - F0)%F with F1 by ring. rewrite Feqb_refl, (Feqb_neq F1 F0 F1_neq_0). reflexivity.
    + replace (F1 - F1)%F with F0 by ring. rewrite Feqb_refl, (Feqb_neq F1 F0 F1_neq_0). reflexivity.
Qed.

(** ** A row: a frame, after the operations of the chip *)
Section Row.
Context (ops : list Emit) (Hops : stateless ops) (Hsat : sats (ops ++ frame F1)).

Abbreviation row := (ops ++ frame F1).
Abbreviation clk := (timestamp (CPUState.clk_high state) (CPUState.clk_low state)).

Lemma row_reads : instruction_reads row = [CPUState.pc state ++ InstructionCols.into_iter (rd_instruction adapter opcode)].
Proof.
  rewrite <- frame_reads by (apply sats_app in Hsat; tauto).
  unfold instruction_reads. rewrite !sends_app. destruct Hops as (_ & [-> _] & [-> _]). reflexivity.
Qed.

Lemma row_states :
  receives KState row
    = [[CPUState.clk_high state; CPUState.clk_low state; CPUState.pc0 state; CPUState.pc1 state; CPUState.pc2 state]] /\
  sends KState row = [CPUState.clk_high state :: (CPUState.clk_low state + Fof CLK_INC)%F :: next_pc].
Proof. rewrite sends_app, receives_app. destruct Hops as ([-> ->] & _). exact frame_state. Qed.

Lemma row_clk : Fval (CPUState.clk_low state) mod 8 = 1 /\ Fval (CPUState.clk_low state) < 2 ^ 24.
Proof.
  apply sats_app in Hsat as [_ Hf]. unfold frame in Hf. rewrite sats_app in Hf. destruct Hf as [Hf _].
  apply cpu_state_sound in Hf as (_ & B & M). auto.
Qed.

Lemma row_reader_sats :
  exists t,
  let reader := rd_eval (CPUState.clk_high state) (CPUState.clk_low state) (CPUState.pc state) opcode value adapter F1 t in
  sats reader /\ sends KMemory row = sends KMemory ops ++ sends KMemory reader /\
  receives KMemory row = receives KMemory ops ++ receives KMemory reader.
Proof.
  exists (snd (eval_trust cfg mode (CPUState.pc state) (rd_instruction adapter opcode) consts
              [CPUState.clk_high state; CPUState.clk_low state] F1)).
  cbv zeta. pose proof Hsat as Hf. unfold frame in *. rewrite !sats_app in Hf. split; [tauto|].
  pose proof (silent_cpu_state KMemory state next_pc (Fof CLK_INC) F1
     ltac:(discriminate) ltac:(discriminate)) as Hs2.
  pose proof (silent_trust KMemory cfg mode (CPUState.pc state) (rd_instruction adapter opcode) consts
              [CPUState.clk_high state; CPUState.clk_low state] F1
     ltac:(discriminate) ltac:(discriminate)) as Hs3.
  rewrite !sends_app, !receives_app. destruct Hs2 as [-> ->], Hs3 as [-> ->], Hmem as [-> ->]. split; reflexivity.
Qed.

(** *** The messages of the row *)

(** The accesses of the operations of the chip, all reads. *)
Lemma row_bus_reads (ms : list (list F * list F)) :
  sends KMemory ops = map fst ms -> receives KMemory ops = map snd ms ->
  (Fval (CPUState.clk_high state) < 2 ^ 24 ->
   Forall (fun r => bus_read (fst r) (snd r) /\ record_key (snd r) <= 2 * (clk + 4) + 1) ms) ->
  Fval (CPUState.clk_high state) < 2 ^ 24 -> bus_accesses row.
Proof.
  intros Es Er Hms Hh. specialize (Hms Hh). destruct row_reader_sats as (t & Hr & Es' & Er'). destruct row_clk as [M B].
  destruct (rd_records _ _ _ _ _ _ _ Hr Hh ltac:(dlia)) as (pa & ca & reads & Rs & Rr & Ha & Hk & _ & _ & Hrd).
  exists (ms ++ (pa, ca) :: reads), [(pa, ca)], (ms ++ reads).
  rewrite Es', Er', Es, Er, Rs, Rr, !map_app. split; [reflexivity|]. split; [reflexivity|].
  split; [cbn [app]; symmetry; apply Permutation_middle|]. split; [auto|]. rewrite !Forall_app. split; [split|].
  - eapply Forall_impl; [|exact Hms]. cbn. tauto.
  - eapply Forall_impl; [|exact Hrd]. cbn. tauto.
  - constructor; [|constructor]. cbn [snd]. rewrite Hk, Forall_app, Forall_cons_iff. split; [|split].
    + eapply Forall_impl; [|exact Hms]. cbn. tauto.
    + cbn [snd]. lia.
    + eapply Forall_impl; [|exact Hrd]. intros r [_ Hlt]. cbn [fst snd] in *. lia.
Qed.

(** One write, of a row that leaves its first register as it is. *)
Lemma row_bus_store (pm cm : list F) :
  value = rd_a adapter -> sends KMemory ops = [pm] -> receives KMemory ops = [cm] ->
  (Fval (CPUState.clk_high state) < 2 ^ 24 -> bus_access pm cm /\ 2 * (clk + 4) <= record_key cm + 1) ->
  Fval (CPUState.clk_high state) < 2 ^ 24 -> bus_accesses row.
Proof.
  intros Ev Es Er Hms Hh. destruct (Hms Hh) as [Hm Hmk]. destruct row_reader_sats as (t & Hr & Es' & Er').
  destruct row_clk as [M B].
  destruct (rd_records _ _ _ _ _ _ _ Hr Hh ltac:(dlia)) as (pa & ca & reads & Rs & Rr & Ha & Hk & Va & Vw & Hrd).
  exists ((pm, cm) :: (pa, ca) :: reads), [(pm, cm)], ((pa, ca) :: reads).
  rewrite Es', Er', Es, Er, Rs, Rr. split; [reflexivity|]. split; [reflexivity|]. split; [reflexivity|].
  split; [auto|]. split; [constructor; [split; [exact Ha | cbn [fst snd]; congruence]|]|].
  - eapply Forall_impl; [|exact Hrd]. cbn. tauto.
  - constructor; [|constructor]. cbn [snd]. constructor; [cbn [snd]; lia|]. constructor; [cbn [snd]; lia|].
    eapply Forall_impl; [|exact Hrd]. intros r [_ Hlt]. cbn [fst snd] in *. lia.
Qed.

Lemma row_messages (n0 n1 n2 : F) :
  next_pc = [n0; n1; n2] ->
  (Forall is_u16F (CPUState.pc state) -> Forall (fun n => Fval n < 2 ^ 17) [n0; n1; n2]) ->
  (Fval (CPUState.clk_high state) < 2 ^ 24 -> bus_accesses row) -> step_messages row.
Proof.
  intros En Hn Hb. destruct row_clk as [M B]. destruct row_states as [Er Es]. rewrite En in Es.
  exists (CPUState.clk_high state), (CPUState.clk_low state), (CPUState.pc0 state), (CPUState.pc1 state),
    (CPUState.pc2 state), n0, n1, n2, (InstructionCols.into_iter (rd_instruction adapter opcode)).
  rewrite row_reads. auto 10.
Qed.

(** *** The row on inputs the buses can give it *)
Context (pc : Z) (i : Instruction) (Hin : row_inputs row pc i).

Lemma row_instruction :
  rd_instruction adapter opcode = InstructionCols.populate i /\
  CPUState.pc0 state = Fof (limb16 pc 0) /\ CPUState.pc1 state = Fof (limb16 pc 1) /\
  CPUState.pc2 state = Fof (limb16 pc 2).
Proof.
  destruct Hin as (_ & _ & Hr & _). rewrite row_reads in Hr.
  unfold CPUState.pc, instruction_message in Hr. cbn [app] in Hr.
  remember (InstructionCols.into_iter (rd_instruction adapter opcode)) as l.
  remember (InstructionCols.into_iter (InstructionCols.populate i)) as l'.
  injection Hr as E0 E1 E2 El. subst. apply into_iter_inj in El. auto.
Qed.

(** What the frame gives the operations of the chip, and what the row is when
    they compute a word. *)
Record frame_run : Prop := mkFrameRun {
  fr_opcode : opcode = Fof (opcode_num (Isa.opcode i));
  fr_instruction : rd_instruction adapter opcode = InstructionCols.populate i;
  fr_pc : CPUState.pc state = [Fof (limb16 pc 0); Fof (limb16 pc 1); Fof (limb16 pc 2)];
  fr_clk : Fval (CPUState.clk_high state) < 2 ^ 24;
  fr_a : valid_word (rd_a adapter);
  fr_b : valid_word (rd_b adapter);
  fr_c : valid_word (rd_c adapter);
  fr_imm_b : imm_b i = true -> word_val (rd_b adapter) = op_b i;
  fr_imm_c : imm_c i = true -> word_val (rd_c adapter) = op_c i;
  fr_x0 : op_a i = 0 -> value = word_zero;
  fr_ops : Forall canonical_mem (sends KMemory ops);
  fr_in : state_in row = [(clk, pc)];
  fr_out : forall n0 n1 n2, next_pc = [n0; n1; n2] -> state_out row = [(clk + CLK_INC, pc_val n0 n1 n2)];
  fr_accesses : exists ta tb tc racc,
    racc = alu_accesses i clk ta (word_val (rd_a adapter)) tb (word_val (rd_b adapter)) tc
             (word_val (rd_c adapter)) (word_val value) /\
    Forall increasing racc /\
    (length (flat_map mem_message (sends KMemory ops)) = length (flat_map mem_message (receives KMemory ops)) ->
     accesses row = accesses ops ++ racc);
  fr_canonical : valid_word value -> Forall canonical_mem (receives KMemory ops) ->
    Forall canonical_mem (receives KMemory row)
}.

Lemma frame_runs : frame_run.
Proof.
  destruct row_reader_sats as (t & Hr & Es & Er). destruct row_instruction as (Ei & E0 & E1 & E2).
  destruct row_states as [Ss Sr]. destruct row_clk as [M B].
  destruct Hin as (Hc & Hm & _ & Hpc & Hw). rewrite Ss in Hc. apply Forall_inv in Hc. cbn in Hc.
  rewrite Es, Forall_app in Hm. destruct Hm as [Hm1 Hm2].
  destruct (rd_accesses _ _ _ _ _ _ _ i Ei Hw Hr Hm2 Hc ltac:(dlia))
    as ((ta & tb & tc & Ea) & Hinc & Va & Vb & Vc & Ib & Ic & Hcan).
  split; try assumption.
  - rewrite <- (rd_opcode adapter opcode), Ei. reflexivity.
  - unfold CPUState.pc. congruence.
  - intros H0. exact (rd_x0 _ _ _ _ _ _ _ i Ei H0 Hr).
  - unfold state_in. rewrite Ss. cbn [flat_map state_message app].
    rewrite E0, E1, E2, pc_val_limbs by assumption. reflexivity.
  - intros n0 n1 n2 En. unfold state_out. rewrite Sr, En. cbn [flat_map state_message app].
    assert (L : Fval (CPUState.clk_low state + Fof CLK_INC) = Fval (CPUState.clk_low state) + 8)
      by (apply Fval_rep; [exact _ | F_lia]).
    unfold timestamp. rewrite L. unfold CLK_INC. do 2 f_equal. lia.
  - exists ta, tb, tc. eexists. split; [reflexivity|]. rewrite <- Ea. split; [exact Hinc|].
    intros El. unfold accesses. rewrite Es, Er, !flat_map_app. apply combine_app, El.
  - intros Vw Ho. rewrite Er, Forall_app. auto.
Qed.
End Row.
End Frame.
Arguments fr_opcode {C _ cfg mode state adapter opcode consts value next_pc mid ops pc i} _.
Arguments fr_instruction {C _ cfg mode state adapter opcode consts value next_pc mid ops pc i} _.
Arguments fr_pc {C _ cfg mode state adapter opcode consts value next_pc mid ops pc i} _.
Arguments fr_clk {C _ cfg mode state adapter opcode consts value next_pc mid ops pc i} _.
Arguments fr_a {C _ cfg mode state adapter opcode consts value next_pc mid ops pc i} _.
Arguments fr_b {C _ cfg mode state adapter opcode consts value next_pc mid ops pc i} _.
Arguments fr_c {C _ cfg mode state adapter opcode consts value next_pc mid ops pc i} _.
Arguments fr_imm_b {C _ cfg mode state adapter opcode consts value next_pc mid ops pc i} _.
Arguments fr_imm_c {C _ cfg mode state adapter opcode consts value next_pc mid ops pc i} _.
Arguments fr_x0 {C _ cfg mode state adapter opcode consts value next_pc mid ops pc i} _.
Arguments fr_ops {C _ cfg mode state adapter opcode consts value next_pc mid ops pc i} _.
Arguments fr_in {C _ cfg mode state adapter opcode consts value next_pc mid ops pc i} _.
Arguments fr_out {C _ cfg mode state adapter opcode consts value next_pc mid ops pc i} _.
Arguments fr_accesses {C _ cfg mode state adapter opcode consts value next_pc mid ops pc i} _.
Arguments fr_canonical {C _ cfg mode state adapter opcode consts value next_pc mid ops pc i} _.

(** The sum of a program counter and the size of an instruction. *)
Lemma pc_inc_val (state : CPUState.Cols) (pc : Z) :
  0 <= pc < 2 ^ 48 -> CPUState.pc state = [Fof (limb16 pc 0); Fof (limb16 pc 1); Fof (limb16 pc 2)] ->
  pc_val (CPUState.pc0 state + Fof PC_INC)%F (CPUState.pc1 state) (CPUState.pc2 state) = pc + PC_INC.
Proof.
  intros Hpc E. unfold CPUState.pc in E. assert (E0 := f_equal (fun l => nth 0 l F0) E).
  assert (E1 := f_equal (fun l => nth 1 l F0) E). assert (E2 := f_equal (fun l => nth 2 l F0) E).
  cbn [nth] in E0, E1, E2. rewrite E0, E1, E2.
  assert (P : Fval (Fof (limb16 pc 0) + Fof PC_INC) = Fval (Fof (limb16 pc 0)) + 4)
    by (pose proof (limb16_bound pc 0); rewrite Fval_limb16; apply Fval_rep; [exact _ | F_lia]).
  unfold pc_val. rewrite P. pose proof (pc_val_limbs pc Hpc) as Ep. unfold pc_val in Ep. unfold PC_INC. lia.
Qed.

Lemma pc_inc_bounds (state : CPUState.Cols) :
  Forall is_u16F (CPUState.pc state) ->
  Forall (fun n => Fval n < 2 ^ 17) [(CPUState.pc0 state + Fof PC_INC)%F; CPUState.pc1 state; CPUState.pc2 state].
Proof.
  unfold CPUState.pc, is_u16F. intros Hp. inversion_clear Hp as [|? ? H0 Hp1]. inversion_clear Hp1 as [|? ? H1 Hp2].
  inversion_clear Hp2 as [|? ? H2 _].
  assert (P : Fval (CPUState.pc0 state + Fof PC_INC) = Fval (CPUState.pc0 state) + 4)
    by (apply Fval_rep; [exact _ | F_lia]).
  repeat constructor; rewrite ?P; lia.
Qed.
