(* ===== verification/Readers.v ===== *)
(** * The register readers satisfy their interface

    [RTypeReader], [ITypeReader], [ALUTypeReader] and [JTypeReader]
    ([adapter/register]) are instances of [Reader], and their constraints give the laws the chips'
    theorems rely on. *)

From Stdlib Require Import ZArith Lia List Bool Permutation.
From S2P Require Import Prelude Words Isa Field Air AirFacts Operations Adapter AdapterFacts Row.
Import ListNotations.
Open Scope Z_scope.

#[export] Instance RType_reader : Reader RTypeReader.Cols := {
  rd_instruction := RTypeReader.instruction;
  rd_eval := RTypeReader.eval;
  rd_a := RTypeReader.prev_a;
  rd_b := RTypeReader.b;
  rd_c := RTypeReader.c
}.

#[export] Instance IType_reader : Reader ITypeReader.Cols := {
  rd_instruction := ITypeReader.instruction;
  rd_eval := ITypeReader.eval;
  rd_a := ITypeReader.prev_a;
  rd_b := ITypeReader.b;
  rd_c := ITypeReader.c
}.

#[export] Instance ALUType_reader : Reader ALUTypeReader.Cols := {
  rd_instruction := ALUTypeReader.instruction;
  rd_eval := ALUTypeReader.eval_alu_reader;
  rd_a := ALUTypeReader.prev_a;
  rd_b := ALUTypeReader.b;
  rd_c := ALUTypeReader.c
}.

#[export] Instance JType_reader : Reader JTypeReader.Cols := {
  rd_instruction := JTypeReader.instruction;
  rd_eval := JTypeReader.eval;
  rd_a := JTypeReader.prev_a;
  rd_b := JTypeReader.b;
  rd_c := JTypeReader.c
}.

(** ** One register access *)

Definition reg_sent (h : F) (r : F) (acc : RegisterAccess.Cols) : list F :=
  h :: RegisterAccessTimestamp.prev_low (RegisterAccess.access_timestamp acc) ::
  [r; F0; F0] ++ word_list (RegisterAccess.prev_value acc).
Definition reg_received (h l r : F) (w : Word F) : list F := h :: l :: [r; F0; F0] ++ word_list w.

Lemma silent_write (k : InteractionKind) (h l : F) (addr : list F) (acc : RegisterAccess.Cols) (w : Word F) (c : F) :
  k <> KByte -> k <> KMemory -> silent k (RegisterAccess.eval_write h l addr acc w c).
Proof. intros H1 H2. destruct k; try contradiction; split; reflexivity. Qed.

Lemma silent_read (k : InteractionKind) (h l : F) (addr : list F) (acc : RegisterAccess.Cols) (c : F) :
  k <> KByte -> k <> KMemory -> silent k (RegisterAccess.eval_read h l addr acc c).
Proof. apply silent_write. Qed.

#[export] Hint Resolve silent_write silent_read : quiet.
#[export] Hint Extern 0 (_ <> KMemory) => discriminate : quiet.

Lemma mem_of_write (h l r : F) (acc : RegisterAccess.Cols) (w : Word F) (c : F) :
  sends KMemory (RegisterAccess.eval_write h l [r; F0; F0] acc w c)
    = (if Feqb c F0 then [] else [reg_sent h r acc]) /\
  receives KMemory (RegisterAccess.eval_write h l [r; F0; F0] acc w c)
    = (if Feqb c F0 then [] else [reg_received h l r w]).
Proof.
  unfold RegisterAccess.eval_write. rewrite !sends_app, !receives_app.
  destruct (quiet_reg_timestamp (RegisterAccess.access_timestamp acc) c l KMemory) as [-> ->]; [discriminate|].
  unfold sends, receives, send_memory, receive_memory, live.
  cbn [flat_map app assert_bool kind kind_num Z.eqb Pos.eqb multiplicity values andb].
  rewrite !app_nil_r. destruct (Feqb c F0); split; reflexivity.
Qed.

Lemma reg_access_sound (h l r : F) (acc : RegisterAccess.Cols) (w : Word F) (k : Z) :
  sats (RegisterAccess.eval_write h (l + Fof k)%F [r; F0; F0] acc w F1) ->
  canonical_mem (reg_sent h r acc) -> Fval h < 2 ^ 24 -> Fval l + 4 < 2 ^ 24 -> 0 <= k <= 4 ->
  (exists t, reg_access h (l + Fof k)%F r acc w
             = (mkMem t (Fval r) (word_val (RegisterAccess.prev_value acc)),
                mkMem (timestamp h l + k) (Fval r) (word_val w))) /\
  increasing (reg_access h (l + Fof k)%F r acc w) /\
  valid_word (RegisterAccess.prev_value acc) /\
  (valid_word w -> canonical_mem (reg_received h (l + Fof k)%F r w)).
Proof.
  intros Hs Hc Hh Hl Hk. unfold RegisterAccess.eval_write in Hs. rewrite !sats_app in Hs.
  destruct Hs as (_ & Hs & _). destruct acc as [pv ts]. cbn [RegisterAccess.access_timestamp] in Hs.
  destruct pv as [w0 w1 w2 w3]. unfold reg_sent in Hc.
  cbn [RegisterAccess.access_timestamp RegisterAccess.prev_value app word_list limb0 limb1 limb2 limb3
       canonical_mem] in Hc.
  destruct Hc as (_ & Hp & Vp).
  assert (L : Fval (l + Fof k) = Fval l + k) by (apply Fval_rep; [exact _ | F_lia]).
  assert (B : Fval (l + Fof k) < 2 ^ 24) by lia.
  pose proof (reg_timestamp_sound ts _ Hs Hp B) as Hinc.
  unfold reg_access, reg_record, increasing, timestamp. cbn [fst snd mem_ts RegisterAccess.access_timestamp
    RegisterAccess.prev_value].
  split; [|split; [lia | split; [exact Vp|]]].
  - eexists. rewrite L, Z.add_assoc. reflexivity.
  - destruct w as [x0 x1 x2 x3]. unfold reg_received. cbn [app word_list limb0 limb1 limb2 limb3 canonical_mem].
    intros Vw. auto.
Qed.

(** The same access on the bus. *)
Lemma reg_bus_access (h l r : F) (acc : RegisterAccess.Cols) (w : Word F) (k : Z) :
  sats (RegisterAccess.eval_write h (l + Fof k)%F [r; F0; F0] acc w F1) ->
  Fval h < 2 ^ 24 -> Fval l + 4 < 2 ^ 24 -> 0 <= k <= 4 ->
  bus_access (reg_sent h r acc) (reg_received h (l + Fof k)%F r w) /\
  record_key (reg_received h (l + Fof k)%F r w) = 2 * (timestamp h l + k).
Proof.
  intros Hs Hh Hl Hk. unfold RegisterAccess.eval_write in Hs. rewrite !sats_app in Hs. destruct Hs as (_ & Hs & _).
  assert (L : Fval (l + Fof k) = Fval l + k) by (apply Fval_rep; [exact _ | F_lia]).
  unfold reg_sent, reg_received. split.
  - split; cbn [app length word_list firstn skipn canonical_ts record_ts]; auto.
    + rewrite L. lia.
    + intros [_ Hp]. unfold timestamp. pose proof (reg_timestamp_sound _ _ Hs Hp ltac:(lia)). lia.
  - unfold record_key. cbn [record_ts is_register app]. rewrite !Feqb_refl. cbn [andb]. unfold timestamp. rewrite L. lia.
Qed.

Lemma reg_bus_read (h l r : F) (acc : RegisterAccess.Cols) (k : Z) :
  sats (RegisterAccess.eval_read h (l + Fof k)%F [r; F0; F0] acc F1) ->
  Fval h < 2 ^ 24 -> Fval l + 4 < 2 ^ 24 -> 0 <= k <= 3 ->
  bus_read (reg_sent h r acc) (reg_received h (l + Fof k)%F r (RegisterAccess.prev_value acc)) /\
  record_key (reg_received h (l + Fof k)%F r (RegisterAccess.prev_value acc)) < 2 * (timestamp h l + 4).
Proof.
  intros Hs Hh Hl Hk. destruct (reg_bus_access h l r acc _ k Hs Hh Hl ltac:(lia)) as [Ha Et].
  rewrite Et. repeat split; try apply Ha; lia.
Qed.

(** ** Operands of the instruction read *)

Lemma word_from_small (x : Z) : 0 <= x < 2 ^ 16 -> word_from_u64 x = mkWord (Fof x) F0 F0 F0.
Proof.
  intros Hx. rewrite word_from_u64_limbs. unfold limb16.
  assert (E : forall n, 0 < n -> x / 2 ^ (16 * n) = 0)
    by (intros n Hn; apply Z.div_small; split; [lia|]; apply Z.lt_le_trans with (2 ^ 16); [lia|];
        apply Z.pow_le_mono_r; lia).
  rewrite (E 1), (E 2), (E 3) by lia. change (2 ^ (16 * 0)) with 1. rewrite Z.div_1_r, Z.mod_small by lia. reflexivity.
Qed.

Lemma extend_var_reg (x : F) (r : Z) :
  extend_var x = word_from_u64 r -> 0 <= r < 32 -> Fval x = r.
Proof.
  intros E Hr. rewrite word_from_small in E by lia. unfold extend_var in E.
  apply (f_equal limb0) in E. cbn [limb0] in E.
  assert (E' : x = Fof r) by (rewrite <- E; ring). rewrite E'. apply Fval_of_small.
  unfold KOALA_BEAR_ORDER. lia.
Qed.

Lemma Fof_bool_inj0 (b : bool) : F0 = Fof_bool b -> b = false.
Proof. destruct b; [intros E; exfalso; apply F1_neq_0; symmetry; exact E | reflexivity]. Qed.

Lemma Fof_bool_inj1 (b : bool) : F1 = Fof_bool b -> b = true.
Proof. destruct b; [reflexivity | intros E; exfalso; apply F1_neq_0; exact E]. Qed.

Lemma Fof_reg (r : Z) : 0 <= r < 32 -> Fval (Fof r) = r.
Proof. intros. apply Fval_of_small. unfold KOALA_BEAR_ORDER. lia. Qed.

(** ** The laws *)

Ltac silent_parts :=
  repeat (apply silent_app; [try (split; reflexivity); auto with quiet|]);
  try (split; reflexivity); auto with quiet.

Ltac program_parts :=
  rewrite !sends_app;
  repeat match goal with
  | |- context [sends KProgram (RegisterAccess.eval_write ?h ?l ?a ?acc ?w ?c)] =>
      rewrite (proj1 (silent_write KProgram h l a acc w c ltac:(discriminate) ltac:(discriminate)))
  | |- context [sends KProgram (RegisterAccess.eval_read ?h ?l ?a ?acc ?c)] =>
      rewrite (proj1 (silent_read KProgram h l a acc c ltac:(discriminate) ltac:(discriminate)))
  end;
  unfold sends, send_program, live;
  cbn [flat_map app assert_bool assert_eq assert_word_eq assert_all_eq word_list combine when when_not map guard
       kind kind_num Z.eqb Pos.eqb multiplicity values andb];
  rewrite ?app_nil_r;
  match goal with |- context [Feqb ?t F0] => destruct (Feqb t F0); reflexivity end.

(** The traffic of a reader is the concatenation of its accesses'. *)
Lemma mem_of_read (h l r : F) (acc : RegisterAccess.Cols) (c : F) :
  sends KMemory (RegisterAccess.eval_read h l [r; F0; F0] acc c)
    = (if Feqb c F0 then [] else [reg_sent h r acc]) /\
  receives KMemory (RegisterAccess.eval_read h l [r; F0; F0] acc c)
    = (if Feqb c F0 then [] else [reg_received h l r (RegisterAccess.prev_value acc)]).
Proof. apply mem_of_write. Qed.

(** The operands the instruction read fixes. *)
Ltac instruction_fields Ei Ea Eb Ec Hib Hic :=
  pose proof (f_equal InstructionCols.op_a Ei) as Ea; pose proof (f_equal InstructionCols.op_b Ei) as Eb;
  pose proof (f_equal InstructionCols.op_c Ei) as Ec; pose proof (f_equal InstructionCols.imm_b Ei) as Hib;
  pose proof (f_equal InstructionCols.imm_c Ei) as Hic; unfold InstructionCols.populate in *;
  cbn [InstructionCols.op_a InstructionCols.op_b InstructionCols.op_c InstructionCols.imm_b
       InstructionCols.imm_c] in *; clear Ei.

Lemma sats_word_eq (a b : Word F) : sats (assert_word_eq a b) -> a = b.
Proof.
  destruct a as [a0 a1 a2 a3], b as [b0 b1 b2 b3]. unfold assert_word_eq, assert_all_eq. cbn.
  intros (E0 & E1 & E2 & E3 & _). f_equal; auto.
Qed.

(** A write to [x0] writes zero. *)
Lemma x0_write (z : F) (w : Word F) (i : Instruction) :
  z = InstructionCols.op_a_0 (InstructionCols.populate i) -> op_a i = 0 ->
  sats (when z (assert_word_eq w word_zero)) -> w = word_zero.
Proof.
  intros E H0 H. cbn [InstructionCols.populate InstructionCols.op_a_0] in E. rewrite H0 in E.
  change (Fof_bool (0 =? 0)) with F1 in E. subst z. apply sats_when_1, sats_word_eq in H. exact H.
Qed.

Lemma r_type_mem (h l : F) (pc : list F) (o : F) (w : Word F) (cols : RTypeReader.Cols) (t : F) :
  sends KMemory (RTypeReader.eval h l pc o w cols F1 t)
    = [reg_sent h (RTypeReader.op_a cols) (RTypeReader.op_a_memory cols);
       reg_sent h (RTypeReader.op_b cols) (RTypeReader.op_b_memory cols);
       reg_sent h (RTypeReader.op_c cols) (RTypeReader.op_c_memory cols)] /\
  receives KMemory (RTypeReader.eval h l pc o w cols F1 t)
    = [reg_received h (l + Fof 4)%F (RTypeReader.op_a cols) w;
       reg_received h (l + Fof 3)%F (RTypeReader.op_b cols) (RTypeReader.b cols);
       reg_received h (l + Fof 2)%F (RTypeReader.op_c cols) (RTypeReader.c cols)].
Proof.
  unfold RTypeReader.eval.
  rewrite !sends_app, !receives_app.
  rewrite !(fun h l r acc w c => proj1 (mem_of_write h l r acc w c)),
    !(fun h l r acc w c => proj2 (mem_of_write h l r acc w c)),
    !(fun h l r acc c => proj1 (mem_of_read h l r acc c)),
    !(fun h l r acc c => proj2 (mem_of_read h l r acc c)), (Feqb_neq F1 F0 F1_neq_0).
  split; reflexivity.
Qed.

#[export] Instance RType_laws : ReaderLaws RTypeReader.Cols.
Proof.
  split.
  - intros. cbn [rd_eval RType_reader]. unfold RTypeReader.eval. silent_parts.
  - intros. cbn [rd_eval RType_reader]. unfold RTypeReader.eval. silent_parts.
  - intros. cbn [rd_eval rd_instruction RType_reader]. unfold RTypeReader.eval. program_parts.
  - intros h l pc o w cols t i Ei H0 Hs. cbn [rd_eval rd_instruction RType_reader] in *.
    unfold RTypeReader.eval in Hs. rewrite !sats_app in Hs. apply (x0_write _ _ i (f_equal InstructionCols.op_a_0 Ei) H0). tauto.
  - reflexivity.
  - intros h l pc o w cols t i Ei (Wa & Wb & Wc & Rb & Rc & _) Hs Hm Hh Hl.
    cbn [rd_eval rd_instruction rd_a rd_b rd_c RType_reader] in *.
    rewrite r_type_traffic, (proj2 (r_type_mem h l pc o w cols t)).
    rewrite (proj1 (r_type_mem h l pc o w cols t)) in Hm.
    unfold RTypeReader.instruction in Ei. instruction_fields Ei Ea Eb Ec Hib Hic.
    apply Fof_bool_inj0 in Hib, Hic. specialize (Rb Hib). specialize (Rc Hic).
    apply extend_var_reg in Eb, Ec; try (unfold is_u in *; lia).
    unfold RTypeReader.eval in Hs. rewrite !sats_app in Hs. destruct Hs as (_ & _ & _ & Sa & Sb & Sc).
    inversion_clear Hm as [|? ? Ca Hm']. inversion_clear Hm' as [|? ? Cb Hm]. inversion_clear Hm as [|? ? Cc _].
    destruct (reg_access_sound h l _ _ w 4 Sa Ca Hh Hl ltac:(lia)) as ((ta & Ta) & Ia & Va & Ka).
    destruct (reg_access_sound h l _ _ _ 3 Sb Cb Hh Hl ltac:(lia)) as ((tb & Tb) & Ib & Vb & Kb).
    destruct (reg_access_sound h l _ _ _ 2 Sc Cc Hh Hl ltac:(lia)) as ((tc & Tc) & Ic & Vc & Kc).
    unfold RTypeReader.prev_a, RTypeReader.b, RTypeReader.c in *. rewrite Hib, Hic in *.
    split; [|split; [auto|split; [auto|split; [auto|split; [auto|split; [discriminate|split; [discriminate|auto]]]]]]].
    rewrite Ta, Tb, Tc, Ea, Eb, Ec, Fof_reg by assumption. unfold alu_accesses. rewrite Hib, Hic.
    repeat eexists.
  - intros h l pc o w cols t Hs Hh Hl. cbn [rd_eval rd_a RType_reader] in *.
    destruct (r_type_mem h l pc o w cols t) as [-> ->].
    unfold RTypeReader.eval in Hs. rewrite !sats_app in Hs. destruct Hs as (_ & _ & _ & Sa & Sb & Sc).
    destruct (reg_bus_access h l _ _ w 4 Sa Hh Hl ltac:(lia)) as [Ba Ta].
    eexists _, _, [(_, _); (_, _)]. split; [reflexivity|]. split; [reflexivity|].
    split; [exact Ba|]. split; [exact Ta|]. split; [reflexivity|]. split; [reflexivity|].
    repeat (apply Forall_cons; [apply reg_bus_read; assumption || lia|]). apply Forall_nil.
Qed.

Lemma i_type_mem (h l : F) (pc : list F) (o : F) (w : Word F) (cols : ITypeReader.Cols) (t : F) :
  sends KMemory (ITypeReader.eval h l pc o w cols F1 t)
    = [reg_sent h (ITypeReader.op_a cols) (ITypeReader.op_a_memory cols);
       reg_sent h (ITypeReader.op_b cols) (ITypeReader.op_b_memory cols)] /\
  receives KMemory (ITypeReader.eval h l pc o w cols F1 t)
    = [reg_received h (l + Fof 4)%F (ITypeReader.op_a cols) w;
       reg_received h (l + Fof 3)%F (ITypeReader.op_b cols) (ITypeReader.b cols)].
Proof.
  unfold ITypeReader.eval. rewrite !sends_app, !receives_app.
  rewrite !(fun h l r acc w c => proj1 (mem_of_write h l r acc w c)),
    !(fun h l r acc w c => proj2 (mem_of_write h l r acc w c)),
    !(fun h l r acc c => proj1 (mem_of_read h l r acc c)),
    !(fun h l r acc c => proj2 (mem_of_read h l r acc c)), (Feqb_neq F1 F0 F1_neq_0).
  split; reflexivity.
Qed.

Lemma mem_sent (h r : F) (acc : RegisterAccess.Cols) :
  mem_message (reg_sent h r acc)
  = [reg_record h (RegisterAccessTimestamp.prev_low (RegisterAccess.access_timestamp acc)) r
       (RegisterAccess.prev_value acc)].
Proof. apply mem_message_reg. Qed.

Lemma mem_received (h l r : F) (w : Word F) : mem_message (reg_received h l r w) = [reg_record h l r w].
Proof. apply mem_message_reg. Qed.

(** The accesses, from the messages. *)
Lemma accesses_of_messages (l : list Emit) (ss rs : list (list F)) :
  sends KMemory l = ss -> receives KMemory l = rs ->
  accesses l = combine (flat_map mem_message ss) (flat_map mem_message rs).
Proof. intros <- <-. reflexivity. Qed.

#[export] Instance IType_laws : ReaderLaws ITypeReader.Cols.
Proof.
  split.
  - intros. cbn [rd_eval IType_reader]. unfold ITypeReader.eval. silent_parts.
  - intros. cbn [rd_eval IType_reader]. unfold ITypeReader.eval. silent_parts.
  - intros. cbn [rd_eval rd_instruction IType_reader]. unfold ITypeReader.eval. program_parts.
  - intros h l pc o w cols t i Ei H0 Hs. cbn [rd_eval rd_instruction IType_reader] in *.
    unfold ITypeReader.eval in Hs. rewrite !sats_app in Hs. apply (x0_write _ _ i (f_equal InstructionCols.op_a_0 Ei) H0). tauto.
  - reflexivity.
  - intros h l pc o w cols t i Ei (Wa & Wb & Wc & Rb & Rc & _) Hs Hm Hh Hl.
    cbn [rd_eval rd_instruction rd_a rd_b rd_c IType_reader] in *.
    destruct (i_type_mem h l pc o w cols t) as [Es Er].
    assert (Eacc := accesses_of_messages _ _ _ Es Er). rewrite Eacc, Er. rewrite Es in Hm.
    cbn [flat_map app]. rewrite !mem_sent, !mem_received. cbn [app combine].
    unfold ITypeReader.instruction in Ei. instruction_fields Ei Ea Eb Ec Hib Hic.
    apply Fof_bool_inj0 in Hib. apply Fof_bool_inj1 in Hic. specialize (Rb Hib).
    apply extend_var_reg in Eb; try (unfold is_u in *; lia).
    unfold ITypeReader.eval in Hs. rewrite !sats_app in Hs. destruct Hs as (_ & _ & _ & Sa & Sb).
    inversion_clear Hm as [|? ? Ca Hm']. inversion_clear Hm' as [|? ? Cb Hm].
    destruct (reg_access_sound h l _ _ w 4 Sa Ca Hh Hl ltac:(lia)) as ((ta & Ta) & Ia & Va & Ka).
    destruct (reg_access_sound h l _ _ _ 3 Sb Cb Hh Hl ltac:(lia)) as ((tb & Tb) & Ib & Vb & Kb).
    unfold ITypeReader.prev_a, ITypeReader.b, ITypeReader.c in *. rewrite Hib in *.
    assert (Vc : valid_word (ITypeReader.op_c_imm cols)) by (rewrite Ec; apply valid_word_from).
    split; [|split; [auto|split; [auto|split; [auto|split; [auto|split; [discriminate|split; [|auto]]]]]]];
      [|intros _; rewrite Ec; apply word_val_from; assumption].
    unfold reg_access in Ta, Tb. rewrite Ta, Tb, Ea, Eb, Fof_reg by assumption.
    unfold alu_accesses. rewrite Hib, Hic. exists ta. repeat eexists. exact 0.
  - intros h l pc o w cols t Hs Hh Hl. cbn [rd_eval rd_a IType_reader] in *.
    destruct (i_type_mem h l pc o w cols t) as [-> ->].
    unfold ITypeReader.eval in Hs. rewrite !sats_app in Hs. destruct Hs as (_ & _ & _ & Sa & Sb).
    destruct (reg_bus_access h l _ _ w 4 Sa Hh Hl ltac:(lia)) as [Ba Ta].
    eexists _, _, [(_, _)]. split; [reflexivity|]. split; [reflexivity|].
    split; [exact Ba|]. split; [exact Ta|]. split; [reflexivity|]. split; [reflexivity|].
    repeat (apply Forall_cons; [apply reg_bus_read; assumption || lia|]). apply Forall_nil.
Qed.

Lemma alu_type_mem (h l : F) (pc : list F) (o : F) (w : Word F) (cols : ALUTypeReader.Cols) (t : F) :
  sends KMemory (ALUTypeReader.eval_alu_reader h l pc o w cols F1 t)
    = [reg_sent h (ALUTypeReader.op_a cols) (ALUTypeReader.op_a_memory cols);
       reg_sent h (ALUTypeReader.op_b cols) (ALUTypeReader.op_b_memory cols)] ++
      (if Feqb (F1 - ALUTypeReader.imm_c cols)%F F0 then []
       else [reg_sent h (limb0 (ALUTypeReader.op_c cols)) (ALUTypeReader.op_c_memory cols)]) /\
  receives KMemory (ALUTypeReader.eval_alu_reader h l pc o w cols F1 t)
    = [reg_received h (l + Fof 4)%F (ALUTypeReader.op_a cols) w;
       reg_received h (l + Fof 3)%F (ALUTypeReader.op_b cols) (ALUTypeReader.b cols)] ++
      (if Feqb (F1 - ALUTypeReader.imm_c cols)%F F0 then []
       else [reg_received h (l + Fof 2)%F (limb0 (ALUTypeReader.op_c cols)) (ALUTypeReader.c cols)]).
Proof.
  unfold ALUTypeReader.eval_alu_reader. rewrite !sends_app, !receives_app.
  rewrite !(fun h l r acc w c => proj1 (mem_of_write h l r acc w c)),
    !(fun h l r acc w c => proj2 (mem_of_write h l r acc w c)),
    !(fun h l r acc c => proj1 (mem_of_read h l r acc c)),
    !(fun h l r acc c => proj2 (mem_of_read h l r acc c)), (Feqb_neq F1 F0 F1_neq_0).
  destruct (Feqb (F1 - ALUTypeReader.imm_c cols)%F F0); split; reflexivity.
Qed.

#[export] Instance ALUType_laws : ReaderLaws ALUTypeReader.Cols.
Proof.
  split.
  - intros. cbn [rd_eval ALUType_reader]. unfold ALUTypeReader.eval_alu_reader. silent_parts.
  - intros. cbn [rd_eval ALUType_reader]. unfold ALUTypeReader.eval_alu_reader. silent_parts.
  - intros. cbn [rd_eval rd_instruction ALUType_reader]. unfold ALUTypeReader.eval_alu_reader. program_parts.
  - intros h l pc o w cols t i Ei H0 Hs. cbn [rd_eval rd_instruction ALUType_reader] in *.
    unfold ALUTypeReader.eval_alu_reader in Hs. rewrite !sats_app in Hs. apply (x0_write _ _ i (f_equal InstructionCols.op_a_0 Ei) H0). tauto.
  - reflexivity.
  - intros h l pc o w cols t i Ei (Wa & Wb & Wc & Rb & Rc & _) Hs Hm Hh Hl.
    cbn [rd_eval rd_instruction rd_a rd_b rd_c ALUType_reader] in *.
    destruct (alu_type_mem h l pc o w cols t) as [Es Er].
    assert (Eacc := accesses_of_messages _ _ _ Es Er). rewrite Eacc, Er. rewrite Es in Hm. clear Eacc Es Er.
    unfold ALUTypeReader.instruction in Ei. instruction_fields Ei Ea Eb Ec Hib Hic.
    apply Fof_bool_inj0 in Hib. specialize (Rb Hib).
    apply extend_var_reg in Eb; try (unfold is_u in *; lia).
    unfold ALUTypeReader.eval_alu_reader in Hs. rewrite !sats_app in Hs.
    destruct Hs as (_ & _ & _ & _ & Sa & Sb & Sc & Si). rewrite Hic in *.
    inversion_clear Hm as [|? ? Ca Hm']. inversion_clear Hm' as [|? ? Cb Hm].
    destruct (reg_access_sound h l _ _ w 4 Sa Ca Hh Hl ltac:(lia)) as ((ta & Ta) & Ia & Va & Ka).
    destruct (reg_access_sound h l _ _ _ 3 Sb Cb Hh Hl ltac:(lia)) as ((tb & Tb) & Ib & Vb & Kb).
    unfold ALUTypeReader.prev_a, ALUTypeReader.b, ALUTypeReader.c, reg_access in *. rewrite Hib in *.
    unfold alu_accesses. rewrite Hib.
    destruct (imm_c i) eqn:Eimm; cbn [Fof_bool] in *.
    + replace (F1 - F1)%F with F0 by ring. rewrite Feqb_refl. apply sats_when_1, sats_word_eq in Si.
      rewrite Si, Ec. cbn [flat_map app]. rewrite !mem_sent, !mem_received. cbn [app combine].
      rewrite Ta, Tb, Ea, Eb, Fof_reg by assumption.
      split; [exists ta; repeat eexists; exact 0|].
      split; [rewrite Ta in Ia; rewrite Tb in Ib; rewrite Eb in Ib; rewrite Ea, Fof_reg in Ia by assumption; auto|].
      split; [auto|]. split; [auto|]. split; [apply valid_word_from|]. split; [discriminate|].
      split; [intros _; apply word_val_from; assumption|].
      rewrite <- Ea. auto.
    + specialize (Rc eq_refl). replace (F1 - F0)%F with F1 in * by ring.
      rewrite (Feqb_neq F1 F0 F1_neq_0) in *. inversion_clear Hm as [|? ? Cc _].
      destruct (reg_access_sound h l _ _ _ 2 Sc Cc Hh Hl ltac:(lia)) as ((tc & Tc) & Ic & Vc & Kc).
      rewrite word_from_small in Ec by (unfold is_u in *; lia).
      assert (Ec0 : Fval (limb0 (ALUTypeReader.op_c cols)) = op_c i)
        by (rewrite Ec; cbn [limb0]; apply Fof_reg; unfold is_u in *; lia).
      cbn [flat_map app]. rewrite !mem_sent, !mem_received. cbn [app combine].
      unfold reg_access in Tc, Ic. rewrite Ta, Tb, Tc in *. rewrite Ea, Eb, Ec0, Fof_reg in * by assumption.
      split; [repeat eexists|]. split; [auto|]. split; [auto|]. split; [auto|]. split; [auto|].
      split; [discriminate|]. split; [discriminate|]. rewrite <- Ea. auto.
  - intros h l pc o w cols t Hs Hh Hl. cbn [rd_eval rd_a ALUType_reader] in *.
    destruct (alu_type_mem h l pc o w cols t) as [-> ->].
    unfold ALUTypeReader.eval_alu_reader in Hs. rewrite !sats_app in Hs.
    destruct Hs as (_ & _ & _ & _ & Sa & Sb & Sc & _).
    destruct (reg_bus_access h l _ _ w 4 Sa Hh Hl ltac:(lia)) as [Ba Ta].
    pose proof (reg_bus_read h l _ _ 3 Sb Hh Hl ltac:(lia)) as Rb.
    destruct (Feqb (F1 - ALUTypeReader.imm_c cols)%F F0) eqn:E.
    + eexists _, _, [(_, _)]. split; [reflexivity|]. split; [reflexivity|]. split; [exact Ba|]. split; [exact Ta|]. split; [reflexivity|]. split; [reflexivity|].
      apply Forall_cons; [exact Rb | apply Forall_nil].
    + assert (E1 : (F1 - ALUTypeReader.imm_c cols)%F = F1).
      { pose proof Sc as Sc'. unfold RegisterAccess.eval_read in Sc'. rewrite !sats_app, sats_bool in Sc'.
        destruct Sc' as [[E0 | E1] _]; [|exact E1]. rewrite E0, Feqb_refl in E. discriminate. }
      rewrite E1 in Sc.
      eexists _, _, [(_, _); (_, _)]. split; [reflexivity|]. split; [reflexivity|]. split; [exact Ba|]. split; [exact Ta|]. split; [reflexivity|]. split; [reflexivity|].
      constructor; [exact Rb|]. constructor; [|constructor]. apply reg_bus_read; assumption || lia.
Qed.

Lemma j_type_mem (h l : F) (pc : list F) (o : F) (w : Word F) (cols : JTypeReader.Cols) (t : F) :
  sends KMemory (JTypeReader.eval h l pc o w cols F1 t)
    = [reg_sent h (JTypeReader.op_a cols) (JTypeReader.op_a_memory cols)] /\
  receives KMemory (JTypeReader.eval h l pc o w cols F1 t)
    = [reg_received h (l + Fof 4)%F (JTypeReader.op_a cols) w].
Proof.
  unfold JTypeReader.eval. rewrite !sends_app, !receives_app.
  rewrite !(fun h l r acc w c => proj1 (mem_of_write h l r acc w c)),
    !(fun h l r acc w c => proj2 (mem_of_write h l r acc w c)), (Feqb_neq F1 F0 F1_neq_0).
  split; reflexivity.
Qed.

#[export] Instance JType_laws : ReaderLaws JTypeReader.Cols.
Proof.
  split.
  - intros. cbn [rd_eval JType_reader]. unfold JTypeReader.eval. silent_parts.
  - intros. cbn [rd_eval JType_reader]. unfold JTypeReader.eval. silent_parts.
  - intros. cbn [rd_eval rd_instruction JType_reader]. unfold JTypeReader.eval. program_parts.
  - intros h l pc o w cols t i Ei H0 Hs. cbn [rd_eval rd_instruction JType_reader] in *.
    unfold JTypeReader.eval in Hs. rewrite !sats_app in Hs. apply (x0_write _ _ i (f_equal InstructionCols.op_a_0 Ei) H0). tauto.
  - reflexivity.
  - intros h l pc o w cols t i Ei (Wa & Wb & Wc & Rb & Rc & _) Hs Hm Hh Hl.
    cbn [rd_eval rd_instruction rd_a rd_b rd_c JType_reader] in *.
    destruct (j_type_mem h l pc o w cols t) as [Es Er].
    assert (Eacc := accesses_of_messages _ _ _ Es Er). rewrite Eacc, Er. rewrite Es in Hm.
    cbn [flat_map app]. rewrite !mem_sent, !mem_received. cbn [app combine].
    unfold JTypeReader.instruction in Ei. instruction_fields Ei Ea Eb Ec Hib Hic.
    apply Fof_bool_inj1 in Hib, Hic.
    unfold JTypeReader.eval in Hs. rewrite !sats_app in Hs. destruct Hs as (_ & _ & _ & Sa).
    apply Forall_inv in Hm. destruct (reg_access_sound h l _ _ w 4 Sa Hm Hh Hl ltac:(lia)) as ((ta & Ta) & Ia & Va & Ka).
    unfold JTypeReader.prev_a, JTypeReader.b, JTypeReader.c in *.
    split; [|split; [auto|split; [auto|split; [rewrite Eb; apply valid_word_from|split; [rewrite Ec; apply valid_word_from|]]]]].
    + unfold reg_access in Ta. rewrite Ta, Ea, Fof_reg by assumption. unfold alu_accesses. rewrite Hib, Hic.
      exists ta, 0, 0. reflexivity.
    + rewrite Eb, Ec, !word_val_from by assumption. auto.
  - intros h l pc o w cols t Hs Hh Hl. cbn [rd_eval rd_a JType_reader] in *.
    destruct (j_type_mem h l pc o w cols t) as [-> ->].
    unfold JTypeReader.eval in Hs. rewrite !sats_app in Hs. destruct Hs as (_ & _ & _ & Sa).
    destruct (reg_bus_access h l _ _ w 4 Sa Hh Hl ltac:(lia)) as [Ba Ta].
    eexists _, _, []. split; [reflexivity|]. split; [reflexivity|].
    split; [exact Ba|]. split; [exact Ta|]. split; [reflexivity|]. split; [reflexivity|]. constructor.
Qed.

(** ** Completeness of the readers *)

(** The record of an access made at position [k] of the instruction at [clk]. *)
Definition access_at (clk k : Z) (r : MemoryRecordEnum) : Prop :=
  mr_timestamp (current_record r) = clk + k /\
  0 <= mr_timestamp (previous_record r) < clk + k.

Definition clk_ok (clk : Z) : Prop := 0 <= clk < 2 ^ 48 /\ clk mod 8 = 1.

Lemma reg_access_complete (clk k : Z) (r : MemoryRecordEnum) (h : F) (addr : list F) (w : Word F) :
  clk_ok clk -> 1 <= k <= 4 -> access_at clk k r ->
  let '(acc, ev) := RegisterAccess.populate r in
  complete (RegisterAccess.eval_write h (Fof (ts_low clk) + Fof k)%F addr acc w F1) ev.
Proof.
  intros [Hc H8] Hk [Et Hp]. unfold RegisterAccess.populate.
  assert (Hc' : clk + k < 2 ^ 48) by (change (2 ^ 48) with (8 * 2 ^ 45) in *; dlia).
  assert (Hl : (clk + k) mod 2 ^ 24 = clk mod 2 ^ 24 + k) by (change (2 ^ 24) with (8 * 2 ^ 21); dlia).
  pose proof (reg_timestamp_complete (mr_timestamp (previous_record r)) (clk + k)) as H.
  rewrite Et. destruct (RegisterAccessTimestamp.populate_timestamp _ _) as [ts ev].
  unfold RegisterAccess.eval_write. cbn [RegisterAccess.access_timestamp RegisterAccess.prev_value].
  apply complete_asserts_app; [apply complete_bool; right; reflexivity|].
  apply complete_nil_r; [|split; [cbn; auto | reflexivity]].
  rewrite !ts_low_mod, Hl in * by lia. rewrite Fof_add. apply H; [lia | lia|].
  pose proof (Z.mod_pos_bound clk (2 ^ 24)). lia.
Qed.

Lemma complete_program (pc : list F) (i : InstructionCols.Cols) (m : F) : complete (send_program pc i m) [].
Proof. split; [cbn; auto | reflexivity]. Qed.

Lemma complete_x0 (rd : Z) (w : Word F) :
  (rd = 0 -> w = word_zero) -> complete (when (Fof_bool (rd =? 0)) (assert_word_eq w word_zero)) [].
Proof.
  intros Hr. apply complete_asserts; [|reflexivity].
  destruct (Z.eqb_spec rd 0) as [E | E]; [rewrite (Hr E); cbn; auto 10|].
  cbn. repeat split; intros [C _]; exfalso; apply C; reflexivity.
Qed.

Lemma r_type_complete (clk : Z) (rec : RTypeRecord) (h : F) (pc : list F) (o : F) (w : Word F) (t : F) :
  clk_ok clk -> (rt_op_a rec = 0 -> w = word_zero) ->
  access_at clk 4 (rt_a rec) -> access_at clk 3 (rt_b rec) -> access_at clk 2 (rt_c rec) ->
  let '(cols, ev) := RTypeReader.populate rec in
  complete (RTypeReader.eval h (Fof (ts_low clk)) pc o w cols F1 t) ev.
Proof.
  intros Hc Ha Aa Ab Ac. unfold RTypeReader.populate.
  pose proof (fun addr w => reg_access_complete clk 4 (rt_a rec) h addr w Hc ltac:(lia) Aa) as Ca.
  pose proof (fun addr w => reg_access_complete clk 3 (rt_b rec) h addr w Hc ltac:(lia) Ab) as Cb.
  pose proof (fun addr w => reg_access_complete clk 2 (rt_c rec) h addr w Hc ltac:(lia) Ac) as Cc.
  destruct (RegisterAccess.populate (rt_a rec)) as [ma ea], (RegisterAccess.populate (rt_b rec)) as [mb eb],
    (RegisterAccess.populate (rt_c rec)) as [mc ec].
  unfold RTypeReader.eval. cbn [RTypeReader.op_a RTypeReader.op_b RTypeReader.op_c RTypeReader.op_a_0
    RTypeReader.op_a_memory RTypeReader.op_b_memory RTypeReader.op_c_memory].
  apply complete_asserts_app; [apply complete_bool; right; reflexivity|].
  apply complete_asserts_app; [apply complete_program|].
  apply complete_asserts_app; [apply complete_x0; assumption|].
  apply complete_app; [apply Ca|]. apply complete_app; [apply Cb | apply Cc].
Qed.

Lemma i_type_complete (clk : Z) (rec : ITypeRecord) (h : F) (pc : list F) (o : F) (w : Word F) (t : F) :
  clk_ok clk -> (it_op_a rec = 0 -> w = word_zero) ->
  access_at clk 4 (it_a rec) -> access_at clk 3 (it_b rec) ->
  let '(cols, ev) := ITypeReader.populate rec in
  complete (ITypeReader.eval h (Fof (ts_low clk)) pc o w cols F1 t) ev.
Proof.
  intros Hc Ha Aa Ab. unfold ITypeReader.populate.
  pose proof (fun addr w => reg_access_complete clk 4 (it_a rec) h addr w Hc ltac:(lia) Aa) as Ca.
  pose proof (fun addr w => reg_access_complete clk 3 (it_b rec) h addr w Hc ltac:(lia) Ab) as Cb.
  destruct (RegisterAccess.populate (it_a rec)) as [ma ea], (RegisterAccess.populate (it_b rec)) as [mb eb].
  unfold ITypeReader.eval. cbn [ITypeReader.op_a ITypeReader.op_b ITypeReader.op_a_0
    ITypeReader.op_a_memory ITypeReader.op_b_memory].
  apply complete_asserts_app; [apply complete_bool; right; reflexivity|].
  apply complete_asserts_app; [apply complete_program|].
  apply complete_asserts_app; [apply complete_x0; assumption|].
  apply complete_app; [apply Ca | apply Cb].
Qed.

Lemma j_type_complete (clk : Z) (rec : JTypeRecord) (h : F) (pc : list F) (o : F) (w : Word F) (t : F) :
  clk_ok clk -> (jt_op_a rec = 0 -> w = word_zero) -> access_at clk 4 (jt_a rec) ->
  let '(cols, ev) := JTypeReader.populate rec in
  complete (JTypeReader.eval h (Fof (ts_low clk)) pc o w cols F1 t) ev.
Proof.
  intros Hc Ha Aa. unfold JTypeReader.populate.
  pose proof (fun addr w => reg_access_complete clk 4 (jt_a rec) h addr w Hc ltac:(lia) Aa) as Ca.
  destruct (RegisterAccess.populate (jt_a rec)) as [ma ea].
  unfold JTypeReader.eval. cbn [JTypeReader.op_a JTypeReader.op_a_0 JTypeReader.op_a_memory].
  apply complete_asserts_app; [apply complete_bool; right; reflexivity|].
  apply complete_asserts_app; [apply complete_program|].
  apply complete_asserts_app; [apply complete_x0; assumption|]. apply Ca.
Qed.

Lemma alu_type_complete (clk : Z) (rec : ALUTypeRecord) (h : F) (pc : list F) (o : F) (w : Word F) (t : F) :
  clk_ok clk -> (at_op_a rec = 0 -> w = word_zero) ->
  access_at clk 4 (at_a rec) -> access_at clk 3 (at_b rec) ->
  match at_c rec with Some r => access_at clk 2 r | None => True end ->
  let '(cols, ev) := ALUTypeReader.populate rec in
  complete (ALUTypeReader.eval_alu_reader h (Fof (ts_low clk)) pc o w cols F1 t) ev.
Proof.
  intros Hc Ha Aa Ab Ac. unfold ALUTypeReader.populate.
  pose proof (fun addr w => reg_access_complete clk 4 (at_a rec) h addr w Hc ltac:(lia) Aa) as Ca.
  pose proof (fun addr w => reg_access_complete clk 3 (at_b rec) h addr w Hc ltac:(lia) Ab) as Cb.
  destruct (RegisterAccess.populate (at_a rec)) as [ma ea], (RegisterAccess.populate (at_b rec)) as [mb eb].
  destruct (at_c rec) as [r|].
  - pose proof (fun addr w => reg_access_complete clk 2 r h addr w Hc ltac:(lia) Ac) as Cc.
    destruct (RegisterAccess.populate r) as [mc ec].
    unfold ALUTypeReader.eval_alu_reader. cbn [ALUTypeReader.op_a ALUTypeReader.op_b ALUTypeReader.op_c
      ALUTypeReader.op_a_0 ALUTypeReader.op_a_memory ALUTypeReader.op_b_memory ALUTypeReader.op_c_memory
      ALUTypeReader.imm_c].
    replace (F1 - F0)%F with F1 by ring.
    apply complete_asserts_app; [apply complete_bool; right; reflexivity|].
    apply complete_asserts_app; [apply complete_when_eq; reflexivity|].
    apply complete_asserts_app; [apply complete_program|].
    apply complete_asserts_app; [apply complete_x0; assumption|].
    apply complete_app; [apply Ca|]. apply complete_app; [apply Cb|].
    apply complete_nil_r; [apply Cc|]. apply complete_asserts; [|reflexivity].
    cbn. repeat split; intros [C _]; exfalso; apply C; reflexivity.
  - unfold ALUTypeReader.eval_alu_reader. cbn [ALUTypeReader.op_a ALUTypeReader.op_b ALUTypeReader.op_c
      ALUTypeReader.op_a_0 ALUTypeReader.op_a_memory ALUTypeReader.op_b_memory ALUTypeReader.op_c_memory
      ALUTypeReader.imm_c RegisterAccess.prev_value].
    replace (F1 - F1)%F with F0 by ring.
    apply complete_asserts_app; [apply complete_bool; right; reflexivity|].
    apply complete_asserts_app; [apply complete_when_eq; intros C; exfalso; apply C; ring|].
    apply complete_asserts_app; [apply complete_program|].
    apply complete_asserts_app; [apply complete_x0; assumption|].
    apply complete_app; [apply Ca|]. rewrite app_nil_r. apply complete_nil_r; [apply Cb|].
    apply complete_asserts_app; [|apply complete_when_1, complete_asserts; [cbn; auto | reflexivity]].
    split; [|cbn; rewrite Feqb_refl; reflexivity]. cbn.
    repeat split; try (intros C; exfalso; apply C; reflexivity). intros _. left. reflexivity.
Qed.
