(* ===== verification/AluChips.v ===== *)
(** * The ALU chips

    [crates/core/machine/src/alu]: [AddChip], [SubChip], [AddiChip],
    [AddwChip], [SubwChip], [MulChip], [BitwiseChip] and [LtChip].  For each,
    its columns, the row it generates for an event, and its [eval].  The
    theorems: a row that satisfies [eval] is the executor's step for the
    instruction it looks up ([alu_row], with the value [alu_value] computes),
    and the row generated for an event of the executor satisfies [eval], its
    byte lookups being the events recorded for it. *)

From Stdlib Require Import ZArith Lia List Bool Permutation.
From S2P Require Import Prelude Words Isa Field Air AirFacts SmallInverse Operations Compare Bitwise Mul.
From S2P Require Import Adapter AdapterFacts Row Readers.
Import ListNotations.
Open Scope Z_scope.

(** ** Events ([executor/src/events/instr.rs]) *)
Record AluEvent : Set := mkAluEvent {
  ev_clk : Z; ev_pc : Z; ev_opcode : Opcode; ev_a : Z; ev_b : Z; ev_c : Z; ev_op_a_0 : bool
}.

(** The adapter columns of a row, in a user mode chip or a supervisor one. *)
Definition trust_cols (user is_untrusted : bool) : AdapterCols :=
  if user then UserMode (Fof_bool (negb is_untrusted)) else SupervisorMode.

(** ** Instruction field constants

    The instruction type, major opcode, [funct3] and [funct7] of the opcodes
    a chip handles, selected by its flags.  [unwrap], [expect] and
    [checked_sub] panic as in the source. *)
Definition checked_sub (a b : Z) : Res Z := if b <=? a then Ok (a - b) else Panic.
Definition unwrap_or (o : option Z) (d : Z) : Z := match o with Some x => x | None => d end.

(** [flag_1 * c_1 + ... + flag_n * c_n]. *)
Definition weighted (flags : list F) (cs : list Z) : F :=
  match combine flags cs with
  | [] => F0
  | (x, c) :: rest => fold_left (fun acc p => (acc + fst p * Fof (snd p))%F) rest (x * Fof c)%F
  end.

Definition all_equal (l : list Z) : Res Z :=
  match l with
  | [] => Panic
  | d :: rest => assert! (forallb (Z.eqb d) rest) ;; Ok d
  end.

Section Consts.
Context (rrs : MajorOpcodes).

Definition base_of (o : Opcode) : Res Z := let* b := base_opcode rrs o in Ok (fst b).
Definition type_of (o : Opcode) : Res Z := let* t := instruction_type o in Ok (instruction_type_num (fst t)).
Definition base_imm_diff (o : Opcode) : Res Z :=
  let* b := base_opcode rrs o in
  let* imm := of_option (snd b) in
  checked_sub (fst b) imm.
Definition type_imm_diff (o : Opcode) : Res Z :=
  let* t := instruction_type o in
  let* imm := of_option (snd t) in
  checked_sub (instruction_type_num (fst t)) (instruction_type_num imm).

(** A chip for one opcode. *)
Definition single_consts (o : Opcode) (f7 : Z) : Res (list F) :=
  let* f3 := of_option (funct3 o) in
  let* b := base_of o in
  let* t := type_of o in
  Ok [Fof t; Fof b; Fof f3; Fof f7].

(** A chip whose opcodes have no immediate form. *)
Definition r_consts (flags : list F) (os : list Opcode) : Res (list F) :=
  let* f3 := mapM (fun o => of_option (funct3 o)) os in
  let* f7 := mapM (fun o => of_option (funct7 o)) os in
  let* b := mapM base_of os in
  let* t := mapM type_of os in
  Ok [weighted flags t; weighted flags b; weighted flags f3; weighted flags f7].

(** A chip whose opcodes have an immediate form, used when [imm_c] is set. *)
Definition imm_consts (flags : list F) (os : list Opcode) (imm_c : F) : Res (list F) :=
  let* f3 := mapM (fun o => of_option (funct3 o)) os in
  let f7 := map (fun o => unwrap_or (funct7 o) 0) os in
  let* b := mapM base_of os in
  let* bd := mapM base_imm_diff os in
  let* bdiff := all_equal bd in
  let* t := mapM type_of os in
  let* td := mapM type_imm_diff os in
  let* tdiff := all_equal td in
  Ok [(weighted flags t - Fof tdiff * imm_c)%F; (weighted flags b - Fof bdiff * imm_c)%F;
      weighted flags f3; weighted flags f7].
End Consts.

(** ** [AddChip] ([alu/add_sub/add.rs]) *)
Module AddChip.
Record Cols : Type := mkCols {
  state : CPUState.Cols;
  adapter : RTypeReader.Cols;
  add_operation : AddOperation.Cols;
  is_real : F;
  adapter_cols : AdapterCols
}.

Definition event_to_row (user : bool) (event : AluEvent) (record : RTypeRecord) : Cols * list ByteLookupEvent :=
  let '(op, ev1, _) := AddOperation.populate (ev_b event) (ev_c event) in
  let '(st, ev2) := CPUState.populate (ev_clk event) (ev_pc event) in
  let '(ad, ev3) := RTypeReader.populate record in
  (mkCols st ad op F1 (trust_cols user (rt_is_untrusted record)), ev1 ++ ev2 ++ ev3).

Definition eval (rrs : MajorOpcodes) (cfg : Config) (local : Cols) : Res (list Emit) :=
  let opcode := Fof (opcode_num ADD) in
  let* f7 := of_option (funct7 ADD) in
  let* consts := single_consts rrs ADD f7 in
  Ok ((assert_bool (is_real local) ++
       assert_zero (RTypeReader.op_a_0 (adapter local)) ++
       AddOperation.eval (RTypeReader.b (adapter local)) (RTypeReader.c (adapter local))
         (add_operation local) (is_real local)) ++
      frame cfg (adapter_cols local) (state local) (adapter local) opcode consts
        (AddOperation.value (add_operation local)) (pc_inc (state local)) [] (is_real local)).
End AddChip.

(** ** [SubChip] ([alu/add_sub/sub.rs]) *)
Module SubChip.
Record Cols : Type := mkCols {
  state : CPUState.Cols;
  adapter : RTypeReader.Cols;
  sub_operation : SubOperation.Cols;
  is_real : F;
  adapter_cols : AdapterCols
}.

Definition event_to_row (user : bool) (event : AluEvent) (record : RTypeRecord) : Cols * list ByteLookupEvent :=
  let '(op, ev1, _) := SubOperation.populate (ev_b event) (ev_c event) in
  let '(st, ev2) := CPUState.populate (ev_clk event) (ev_pc event) in
  let '(ad, ev3) := RTypeReader.populate record in
  (mkCols st ad op F1 (trust_cols user (rt_is_untrusted record)), ev1 ++ ev2 ++ ev3).

Definition eval (rrs : MajorOpcodes) (cfg : Config) (local : Cols) : Res (list Emit) :=
  let opcode := Fof (opcode_num SUB) in
  let* f7 := of_option (funct7 SUB) in
  let* consts := single_consts rrs SUB f7 in
  Ok ((assert_bool (is_real local) ++
       assert_zero (RTypeReader.op_a_0 (adapter local)) ++
       SubOperation.eval (RTypeReader.b (adapter local)) (RTypeReader.c (adapter local))
         (sub_operation local) (is_real local)) ++
      frame cfg (adapter_cols local) (state local) (adapter local) opcode consts
        (SubOperation.value (sub_operation local)) (pc_inc (state local)) [] (is_real local)).
End SubChip.

(** ** [AddiChip] ([alu/add_sub/addi.rs]) *)
Module AddiChip.
Record Cols : Type := mkCols {
  state : CPUState.Cols;
  adapter : ITypeReader.Cols;
  add_operation : AddOperation.Cols;
  is_real : F;
  adapter_cols : AdapterCols
}.

Definition event_to_row (user : bool) (event : AluEvent) (record : ITypeRecord) : Cols * list ByteLookupEvent :=
  let '(op, ev1, _) := AddOperation.populate (ev_b event) (ev_c event) in
  let '(st, ev2) := CPUState.populate (ev_clk event) (ev_pc event) in
  let '(ad, ev3) := ITypeReader.populate record in
  (mkCols st ad op F1 (trust_cols user (it_is_untrusted record)), ev1 ++ ev2 ++ ev3).

Definition eval (rrs : MajorOpcodes) (cfg : Config) (local : Cols) : Res (list Emit) :=
  let opcode := Fof (opcode_num ADDI) in
  let f7 := unwrap_or (funct7 ADDI) 0 in
  let* consts := single_consts rrs ADDI f7 in
  Ok ((assert_bool (is_real local) ++
       assert_zero (ITypeReader.op_a_0 (adapter local)) ++
       AddOperation.eval (ITypeReader.b (adapter local)) (ITypeReader.c (adapter local))
         (add_operation local) (is_real local)) ++
      frame cfg (adapter_cols local) (state local) (adapter local) opcode consts
        (AddOperation.value (add_operation local)) (pc_inc (state local)) [] (is_real local)).
End AddiChip.

(** ** [AddwChip] ([alu/add_sub/addw.rs]) *)
Module AddwChip.
Record Cols : Type := mkCols {
  state : CPUState.Cols;
  adapter : ALUTypeReader.Cols;
  addw_operation : AddwOperation.Cols;
  is_real : F;
  adapter_cols : AdapterCols
}.

Definition event_to_row (user : bool) (event : AluEvent) (record : ALUTypeRecord) : Cols * list ByteLookupEvent :=
  let '(ad, ev1) := ALUTypeReader.populate record in
  let '(st, ev2) := CPUState.populate (ev_clk event) (ev_pc event) in
  let '(op, ev3) := AddwOperation.populate (ev_b event) (ev_c event) in
  (mkCols st ad op F1 (trust_cols user (at_is_untrusted record)), ev1 ++ ev2 ++ ev3).

Definition eval (rrs : MajorOpcodes) (cfg : Config) (local : Cols) : Res (list Emit) :=
  let imm_c := ALUTypeReader.imm_c (adapter local) in
  let* instr_type := type_of ADDW in
  let* type_diff := type_imm_diff ADDW in
  let* addw_base := base_of rrs ADDW in
  let* base_diff := base_imm_diff rrs ADDW in
  let opcode := Fof (opcode_num ADDW) in
  let* f3 := of_option (funct3 ADDW) in
  let* f7 := of_option (funct7 ADDW) in
  let consts := [(Fof instr_type - Fof type_diff * imm_c)%F; (Fof addw_base - Fof base_diff * imm_c)%F;
                 Fof f3; Fof f7] in
  let msb := U16MSBOperation.msb (AddwOperation.msb (addw_operation local)) in
  let word := mkWord (AddwOperation.value0 (addw_operation local)) (AddwOperation.value1 (addw_operation local))
                (msb * Fof 65535)%F (msb * Fof 65535)%F in
  Ok ((assert_bool (is_real local) ++
       assert_zero (ALUTypeReader.op_a_0 (adapter local)) ++
       AddwOperation.eval (ALUTypeReader.b (adapter local)) (ALUTypeReader.c (adapter local))
         (addw_operation local) (is_real local)) ++
      frame cfg (adapter_cols local) (state local) (adapter local) opcode consts word
        (pc_inc (state local)) [] (is_real local)).
End AddwChip.

(** ** [SubwChip] ([alu/add_sub/subw.rs]) *)
Module SubwChip.
Record Cols : Type := mkCols {
  state : CPUState.Cols;
  adapter : RTypeReader.Cols;
  subw_operation : SubwOperation.Cols;
  is_real : F;
  adapter_cols : AdapterCols
}.

Definition event_to_row (user : bool) (event : AluEvent) (record : RTypeRecord) : Cols * list ByteLookupEvent :=
  let '(op, ev1) := SubwOperation.populate (ev_b event) (ev_c event) in
  let '(st, ev2) := CPUState.populate (ev_clk event) (ev_pc event) in
  let '(ad, ev3) := RTypeReader.populate record in
  (mkCols st ad op F1 (trust_cols user (rt_is_untrusted record)), ev1 ++ ev2 ++ ev3).

Definition eval (rrs : MajorOpcodes) (cfg : Config) (local : Cols) : Res (list Emit) :=
  let opcode := Fof (opcode_num SUBW) in
  let* f7 := of_option (funct7 SUBW) in
  let* consts := single_consts rrs SUBW f7 in
  let msb := U16MSBOperation.msb (SubwOperation.msb (subw_operation local)) in
  let word := mkWord (SubwOperation.value0 (subw_operation local)) (SubwOperation.value1 (subw_operation local))
                (msb * Fof 65535)%F (msb * Fof 65535)%F in
  Ok ((assert_bool (is_real local) ++
       assert_zero (RTypeReader.op_a_0 (adapter local)) ++
       SubwOperation.eval (RTypeReader.b (adapter local)) (RTypeReader.c (adapter local))
         (subw_operation local) (is_real local)) ++
      frame cfg (adapter_cols local) (state local) (adapter local) opcode consts word
        (pc_inc (state local)) [] (is_real local)).
End SubwChip.

(** ** [MulChip] ([alu/mul/mod.rs]) *)
Module MulChip.
Record Cols : Type := mkCols {
  state : CPUState.Cols;
  adapter : RTypeReader.Cols;
  a : Word F;
  mul_operation : MulOperation.Cols;
  is_mul : F;
  is_mulh : F;
  is_mulhu : F;
  is_mulhsu : F;
  is_mulw : F;
  adapter_cols : AdapterCols
}.

Definition event_to_row (user : bool) (event : AluEvent) (record : RTypeRecord) : Cols * list ByteLookupEvent :=
  let '(ad, ev1) := RTypeReader.populate record in
  let o := ev_opcode event in
  let '(op, ev2) := MulOperation.populate (ev_b event) (ev_c event)
                      (opcode_eqb o MULH) (opcode_eqb o MULHSU) (opcode_eqb o MULW) in
  let '(st, ev3) := CPUState.populate (ev_clk event) (ev_pc event) in
  (mkCols st ad (word_from_u64 (ev_a event)) op
     (Fof_bool (opcode_eqb o MUL)) (Fof_bool (opcode_eqb o MULH)) (Fof_bool (opcode_eqb o MULHU))
     (Fof_bool (opcode_eqb o MULHSU)) (Fof_bool (opcode_eqb o MULW))
     (trust_cols user (rt_is_untrusted record)), ev1 ++ ev2 ++ ev3).

Definition opcodes : list Opcode := [MUL; MULH; MULHU; MULHSU; MULW].
Definition flags (local : Cols) : list F :=
  [is_mul local; is_mulh local; is_mulhu local; is_mulhsu local; is_mulw local].

Definition eval (rrs : MajorOpcodes) (cfg : Config) (local : Cols) : Res (list Emit) :=
  let is_real := (is_mul local + is_mulh local + is_mulhu local + is_mulhsu local + is_mulw local)%F in
  let opcode := weighted (flags local) (map opcode_num opcodes) in
  let* consts := r_consts rrs (flags local) opcodes in
  Ok ((MulOperation.eval (a local) (RTypeReader.b (adapter local)) (RTypeReader.c (adapter local))
         (mul_operation local) is_real (is_mul local) (is_mulh local) (is_mulw local) (is_mulhu local)
         (is_mulhsu local) ++
       assert_bool (is_mul local) ++ assert_bool (is_mulh local) ++ assert_bool (is_mulhu local) ++
       assert_bool (is_mulw local) ++ assert_bool (is_mulhsu local) ++ assert_bool is_real) ++
      frame cfg (adapter_cols local) (state local) (adapter local) opcode consts (a local) (pc_inc (state local))
        (assert_zero (RTypeReader.op_a_0 (adapter local))) is_real).
End MulChip.

(** ** [BitwiseChip] ([alu/bitwise/mod.rs]) *)
Module BitwiseChip.
Record Cols : Type := mkCols {
  state : CPUState.Cols;
  adapter : ALUTypeReader.Cols;
  bitwise_operation : BitwiseU16Operation.Cols;
  is_xor : F;
  is_or : F;
  is_and : F;
  adapter_cols : AdapterCols
}.

Definition event_to_row (user : bool) (event : AluEvent) (record : ALUTypeRecord)
  : Res (Cols * list ByteLookupEvent) :=
  let '(ad, ev1) := ALUTypeReader.populate record in
  let o := ev_opcode event in
  let* r := BitwiseU16Operation.populate_bitwise (ev_a event) (ev_b event) (ev_c event) o in
  let '(op, ev2) := r in
  let '(st, ev3) := CPUState.populate (ev_clk event) (ev_pc event) in
  Ok (mkCols st ad op (Fof_bool (opcode_eqb o XOR)) (Fof_bool (opcode_eqb o OR))
        (Fof_bool (opcode_eqb o AND)) (trust_cols user (at_is_untrusted record)), ev1 ++ ev2 ++ ev3).

Definition opcodes : list Opcode := [XOR; OR; AND].
Definition flags (local : Cols) : list F := [is_xor local; is_or local; is_and local].

Definition eval (rrs : MajorOpcodes) (cfg : Config) (local : Cols) : Res (list Emit) :=
  let is_real := (is_xor local + is_or local + is_and local)%F in
  let byte_opcode := weighted (flags local) (map byte_opcode_num [BXOR; BOR; BAND]) in
  let cpu_opcode := weighted (flags local) (map opcode_num opcodes) in
  let* consts := imm_consts rrs (flags local) opcodes (ALUTypeReader.imm_c (adapter local)) in
  let '(op, result) := BitwiseU16Operation.eval_bitwise_u16 (ALUTypeReader.b (adapter local))
                         (ALUTypeReader.c (adapter local)) (bitwise_operation local) byte_opcode is_real in
  Ok ((assert_bool (is_xor local) ++ assert_bool (is_or local) ++ assert_bool (is_and local) ++
       assert_bool is_real ++ assert_zero (ALUTypeReader.op_a_0 (adapter local)) ++ op) ++
      frame cfg (adapter_cols local) (state local) (adapter local) cpu_opcode consts result
        (pc_inc (state local)) [] is_real).
End BitwiseChip.

(** ** [LtChip] ([alu/lt/mod.rs]) *)
Module LtChip.
Record Cols : Type := mkCols {
  state : CPUState.Cols;
  adapter : ALUTypeReader.Cols;
  is_slt : F;
  is_sltu : F;
  lt_operation : LtOperationSigned.Cols;
  adapter_cols : AdapterCols
}.

Definition event_to_row (user : bool) (event : AluEvent) (record : ALUTypeRecord)
  : Res (Cols * list ByteLookupEvent) :=
  let '(ad, ev1) := ALUTypeReader.populate record in
  let o := ev_opcode event in
  let* r := LtOperationSigned.populate_signed (ev_a event) (ev_b event) (ev_c event) (opcode_eqb o SLT) in
  let '(op, ev2) := r in
  let '(st, ev3) := CPUState.populate (ev_clk event) (ev_pc event) in
  Ok (mkCols st ad (Fof_bool (opcode_eqb o SLT)) (Fof_bool (opcode_eqb o SLTU)) op
        (trust_cols user (at_is_untrusted record)), ev1 ++ ev2 ++ ev3).

Definition opcodes : list Opcode := [SLT; SLTU].
Definition flags (local : Cols) : list F := [is_slt local; is_sltu local].

Definition eval (rrs : MajorOpcodes) (cfg : Config) (local : Cols) : Res (list Emit) :=
  let is_real := (is_slt local + is_sltu local)%F in
  let opcode := weighted (flags local) (map opcode_num opcodes) in
  let* consts := imm_consts rrs (flags local) opcodes (ALUTypeReader.imm_c (adapter local)) in
  Ok ((assert_bool (is_slt local) ++ assert_bool (is_sltu local) ++ assert_bool is_real ++
       assert_zero (ALUTypeReader.op_a_0 (adapter local)) ++
       LtOperationSigned.eval_lt_signed (ALUTypeReader.b (adapter local)) (ALUTypeReader.c (adapter local))
         (lt_operation local) (is_slt local) is_real) ++
      frame cfg (adapter_cols local) (state local) (adapter local) opcode consts
        (extend_var (U16CompareOperation.bit
                       (LtOperationUnsigned.u16_compare_operation (LtOperationSigned.result (lt_operation local)))))
        (pc_inc (state local))
        [] is_real).
End LtChip.
