(* ===== verification/AluChipFacts.v ===== *)
(** * Correctness of the ALU chips *)

From Stdlib Require Import ZArith Lia List Bool Permutation.
From S2P Require Import Prelude Words Isa Field Air AirFacts SmallInverse Operations Compare Bitwise Mul.
From S2P Require Import Adapter AdapterFacts Row Readers AluChips.
Import ListNotations.
Open Scope Z_scope.

(** ** Selecting an opcode *)

Lemma opcode_num_bound (o : Opcode) : 0 <= opcode_num o < KOALA_BEAR_ORDER.
Proof. destruct o; vm_compute; split; congruence. Qed.

Lemma opcode_num_inj (o o' : Opcode) : opcode_num o = opcode_num o' -> o = o'.
Proof. destruct o, o'; cbn; congruence. Qed.

Lemma opcode_of_F (o o' : Opcode) : Fof (opcode_num o) = Fof (opcode_num o') -> o = o'.
Proof.
  intros E. apply opcode_num_inj, Fof_inj_small; [exact E|].
  pose proof (opcode_num_bound o). pose proof (opcode_num_bound o'). lia.
Qed.

(** Boolean flags: their sum is the number of the flags set. *)
Lemma bool_sum (l : list F) :
  Forall is_bool l ->
  exists z, fold_right Fadd F0 l = Fof z /\ 0 <= z <= Z.of_nat (length l) /\ (z = 0 -> Forall (eq F0) l).
Proof.
  intros H. induction H as [|x l Hx _ (z & E & B & H0)].
  - exists 0. split; [reflexivity|]. cbn. split; [lia | auto].
  - cbn [fold_right length]. rewrite E. destruct Hx as [-> | ->].
    + exists z. rewrite F0_of, Fof_add. split; [f_equal; lia|]. split; [lia|]. auto.
    + exists (1 + z). rewrite F1_of, Fof_add. split; [reflexivity|]. split; [lia|]. lia.
Qed.

Lemma onehot (l : list F) :
  Forall is_bool l -> Z.of_nat (length l) < KOALA_BEAR_ORDER -> fold_right Fadd F0 l = F1 ->
  exists n, (n < length l)%nat /\ forall j, nth j l F0 = if Nat.eqb j n then F1 else F0.
Proof.
  intros H. induction H as [|x l Hx Hl IH]; intros Hn Es.
  - exfalso. apply F1_neq_0. symmetry. exact Es.
  - cbn [fold_right length] in *. destruct Hx as [-> | ->].
    + destruct IH as (n & Bn & Hnth); [lia | rewrite <- Es; ring |].
      exists (S n). split; [lia|]. intros [|j]; [reflexivity | apply Hnth].
    + destruct (bool_sum l Hl) as (z & E & B & H0). rewrite E, F1_of, Fof_add in Es.
      apply Fof_inj_small in Es; [|lia]. specialize (H0 ltac:(lia)).
      exists 0%nat. split; [lia|]. intros [|j]; [reflexivity|]. cbn [nth Nat.eqb].
      destruct (nth_in_or_default j l F0) as [Hi | ->]; [|reflexivity].
      rewrite Forall_forall in H0. symmetry. apply H0, Hi.
Qed.

(** The opcode selected by one-hot flags. *)
Lemma weighted_sum (l : list F) (cs : list Z) :
  weighted l cs = fold_right (fun p acc => (fst p * Fof (snd p) + acc)%F) F0 (combine l cs).
Proof.
  unfold weighted. destruct (combine l cs) as [|[x c] rest]; [reflexivity|]. cbn [fold_right fst snd].
  generalize (x * Fof c)%F as acc. induction rest as [|p rest IH]; intros acc; cbn [fold_left fold_right]; [ring|].
  rewrite IH. ring.
Qed.

Lemma weighted_onehot (l : list F) (os : list Opcode) (n : nat) :
  length l = length os -> (n < length os)%nat -> (forall j, nth j l F0 = if Nat.eqb j n then F1 else F0) ->
  weighted l (map opcode_num os) = Fof (opcode_num (nth n os UNIMP)).
Proof.
  rewrite weighted_sum. revert os n.
  assert (Z0 : forall l os, (forall j, nth j l F0 = F0) ->
    fold_right (fun p acc => (fst p * Fof (snd p) + acc)%F) F0 (combine l (map opcode_num os)) = F0).
  { clear. induction l as [|x l IH]; intros [|o os] H; try reflexivity. cbn [map combine fold_right fst snd].
    rewrite (IH os (fun j => H (S j))). specialize (H 0%nat). cbn [nth] in H. rewrite H. ring. }
  induction l as [|x l IH]; intros [|o os] [|n] Hl Hn Hj; cbn [length] in *; try lia;
    cbn [map combine fold_right fst snd nth].
  - rewrite (Z0 l os) by (intros j; exact (Hj (S j))). specialize (Hj 0%nat). cbn in Hj. rewrite Hj. ring.
  - rewrite (IH os n) by (try lia; intros j; exact (Hj (S j))). specialize (Hj 0%nat). cbn in Hj. rewrite Hj. ring.
Qed.

Lemma selected_opcode (l : list F) (os : list Opcode) (o : Opcode) :
  length l = length os -> Z.of_nat (length l) < KOALA_BEAR_ORDER -> Forall is_bool l -> fold_right Fadd F0 l = F1 ->
  weighted l (map opcode_num os) = Fof (opcode_num o) ->
  exists n, (n < length os)%nat /\ o = nth n os UNIMP /\ forall j, nth j l F0 = if Nat.eqb j n then F1 else F0.
Proof.
  intros Hl Hk Hb Hr Ho. destruct (onehot l Hb Hk Hr) as (n & Bn & Hn). exists n. rewrite <- Hl. split; [exact Bn|].
  rewrite (weighted_onehot l os n Hl ltac:(lia) Hn) in Ho. split; [symmetry; apply opcode_of_F, Ho | exact Hn].
Qed.

(** The flags of a chip: [flags_case H] splits the row on the one that is set. *)
Ltac forall_flags := repeat (apply Forall_cons; [assumption|]); apply Forall_nil.
Ltac flag_values Hn l k :=
  lazymatch l with
  | _ :: ?r =>
      let E := fresh "Ef" in pose proof (Hn k) as E; cbn [nth Nat.eqb] in E; flag_values Hn r (S k)
  | [] => clear Hn
  end.
Ltac flags_split n Bn Hn :=
  tryif (exfalso; lia) then idtac else
  (destruct n as [|n];
   [ clear Bn; match type of Hn with forall j, nth j ?l _ = _ => flag_values Hn l 0%nat end
   | flags_split n Bn Hn ]).
Ltac opcode_case H :=
  let n := fresh "n" in let Bn := fresh "Bn" in let Hn := fresh "Hn" in let Eo := fresh "Eopcode" in
  destruct H as (n & Bn & Eo & Hn); cbn [length] in Bn; flags_split n Bn Hn; cbn [nth] in Eo.
Ltac flags_case H :=
  let n := fresh "n" in let Bn := fresh "Bn" in let Hn := fresh "Hn" in
  destruct H as (n & Bn & Hn); cbn [length] in Bn; flags_split n Bn Hn.

(** ** The gadgets send only byte lookups *)

Lemma quiet_compare_loop (r is_inv bl cl : F) (l : list (F * F * F)) :
  quiet (fst (fst (LtOperationUnsigned.compare_loop r is_inv bl cl l))).
Proof.
  revert is_inv bl cl. induction l as [|[[x y] f] l IH]; intros is_inv bl cl; cbn [LtOperationUnsigned.compare_loop].
  - cbn [fst]. auto with quiet.
  - match goal with |- context [LtOperationUnsigned.compare_loop ?r ?i ?b ?c l] =>
      specialize (IH i b c); destruct (LtOperationUnsigned.compare_loop r i b c l) as [[em u] v] end.
    cbn [fst] in *. unfold when_not. auto with quiet.
Qed.

Lemma quiet_lt_unsigned (b c : Word F) (cols : LtOperationUnsigned.Cols) (r : F) :
  quiet (LtOperationUnsigned.eval_lt_unsigned b c cols r).
Proof.
  unfold LtOperationUnsigned.eval_lt_unsigned.
  match goal with |- context [LtOperationUnsigned.compare_loop ?r ?i ?b ?c ?l] =>
    pose proof (quiet_compare_loop r i b c l) as Hq;
    destruct (LtOperationUnsigned.compare_loop r i b c l) as [[em u] v] end.
  cbn [fst] in Hq. destruct (LtOperationUnsigned.comparison_limbs cols). unfold when_not. auto 20 with quiet.
Qed.
#[export] Hint Resolve quiet_lt_unsigned : quiet.

Lemma quiet_lt_signed (b c : Word F) (cols : LtOperationSigned.Cols) (s r : F) :
  quiet (LtOperationSigned.eval_lt_signed b c cols s r).
Proof. unfold LtOperationSigned.eval_lt_signed, when_not. auto 20 with quiet. Qed.

Lemma quiet_bitwise (b c : Word F) (cols : BitwiseU16Operation.Cols) (o r : F) :
  quiet (fst (BitwiseU16Operation.eval_bitwise_u16 b c cols o r)).
Proof.
  cbn [fst BitwiseU16Operation.eval_bitwise_u16]. unfold BitwiseOperation.eval_bitwise.
  auto with quiet.
Qed.

Lemma quiet_carry_eqs (cin : option F) (m c p : list F) : quiet (carry_eqs cin m c p).
Proof.
  revert cin c p. induction m as [|x m IH]; intros cin [|y c] [|z p]; cbn [carry_eqs]; auto with quiet.
Qed.

Lemma quiet_compare_limb (a : Word F) (cols : MulOperation.Cols) (x y z : F) (i : nat) :
  quiet (MulOperation.compare_limb a cols x y z i).
Proof. unfold MulOperation.compare_limb. destruct (i <? 2)%nat; auto with quiet. Qed.
#[export] Hint Resolve quiet_lt_signed quiet_carry_eqs quiet_compare_limb : quiet.

Lemma quiet_mul (a b c : Word F) (cols : MulOperation.Cols) (r f1 f2 f3 f4 f5 : F) :
  quiet (MulOperation.eval a b c cols r f1 f2 f3 f4 f5).
Proof.
  unfold MulOperation.eval, U16toU8Operation.eval_u16_to_u8_safe.
  repeat (apply quiet_app; [auto 6 with quiet|]). auto with quiet.
Qed.
#[export] Hint Resolve quiet_mul : quiet.

(** ** Soundness *)

(** A register of the row is left as the executor leaves it. *)
Lemma rd_value_word (i : Instruction) (w : Word F) :
  (op_a i = 0 -> w = word_zero) -> rd_value i (word_val w) = word_val w.
Proof.
  intros H0. unfold rd_value. destruct (Z.eqb_spec (op_a i) 0) as [E|]; [|reflexivity]. rewrite (H0 E). reflexivity.
Qed.

(** A row whose operations access no memory. *)
Lemma quiet_step {C : Type} `{ReaderLaws C} (cfg : Config) (mode : AdapterCols) (state : CPUState.Cols)
    (adapter : C) (op : F) (consts : list F) (value : Word F) (n0 n1 n2 : F) (mid ops : list Emit) :
  quiet ops -> quiet mid ->
  sats (ops ++ frame cfg mode state adapter op consts value [n0; n1; n2] mid F1) ->
  (Forall is_u16F (CPUState.pc state) -> Forall (fun n => Fval n < 2 ^ 17) [n0; n1; n2]) ->
  (forall pc i, frame_run cfg mode state adapter op consts value [n0; n1; n2] mid ops pc i -> 0 <= pc < 2 ^ 48 ->
   valid_word value /\
   forall clk ta tb tc,
     instruction_step i clk pc
       (alu_accesses i clk ta (word_val (rd_a adapter)) tb (word_val (rd_b adapter)) tc (word_val (rd_c adapter))
          (word_val value)) (pc_val n0 n1 n2)) ->
  step_row (ops ++ frame cfg mode state adapter op consts value [n0; n1; n2] mid F1).
Proof.
  intros Hq Hm Hs Hn Hop. assert (Hqm := Hq KMemory ltac:(discriminate)). destruct Hqm as [Qs Qr].
  assert (Hmm := Hm KMemory ltac:(discriminate)). split.
  - eapply row_messages; auto with quiet.
    apply (row_bus_reads cfg mode state adapter op consts value [n0; n1; n2] mid Hmm ops Hs []);
      [rewrite Qs; reflexivity | rewrite Qr; reflexivity | constructor].
  - intros pc i Hin. assert (Hpc : 0 <= pc < 2 ^ 48) by (destruct Hin as (_ & _ & _ & Hpc & _); exact Hpc).
    pose proof (frame_runs cfg mode state adapter op consts value [n0; n1; n2] mid (quiet_stateless _ Hm) Hmm ops
                  (quiet_stateless _ Hq) Hs pc i Hin) as Hfr.
    destruct (Hop pc i Hfr Hpc) as [Vw Hstep].
    destruct (fr_accesses Hfr) as (ta & tb & tc & racc & -> & Hinc & Eacc).
    assert (Ea : accesses ops = []) by (unfold accesses; rewrite Qs, Qr; reflexivity).
    rewrite Ea in Eacc. rewrite Qs, Qr in Eacc. specialize (Eacc eq_refl). cbn [app] in Eacc. split.
    + exists (timestamp (CPUState.clk_high state) (CPUState.clk_low state)), (pc_val n0 n1 n2). rewrite Eacc.
      split; [exact (fr_in Hfr)|]. rewrite (fr_out Hfr _ _ _ eq_refl). auto.
    + apply (fr_canonical Hfr Vw). rewrite Qr. constructor.
Qed.

(** One that goes to the next instruction. *)
Lemma sequential_step {C : Type} `{ReaderLaws C} (cfg : Config) (mode : AdapterCols) (state : CPUState.Cols)
    (adapter : C) (op : F) (consts : list F) (value : Word F) (mid ops : list Emit) :
  quiet ops -> quiet mid ->
  sats (ops ++ frame cfg mode state adapter op consts value (pc_inc state) mid F1) ->
  (forall pc i, frame_run cfg mode state adapter op consts value (pc_inc state) mid ops pc i -> 0 <= pc < 2 ^ 48 ->
   valid_word value /\
   forall clk ta tb tc,
     instruction_step i clk pc
       (alu_accesses i clk ta (word_val (rd_a adapter)) tb (word_val (rd_b adapter)) tc (word_val (rd_c adapter))
          (word_val value)) (pc + PC_INC)) ->
  step_row (ops ++ frame cfg mode state adapter op consts value (pc_inc state) mid F1).
Proof.
  intros Hq Hm Hs Hop. apply quiet_step; [assumption.. | apply pc_inc_bounds |]. intros pc i Hfr Hpc.
  rewrite (pc_inc_val state pc Hpc (fr_pc Hfr)). apply Hop; assumption.
Qed.

(** A chip whose gadgets compute, from the operands the reader reads, the
    value it writes, executes the instruction it looks up. *)
Lemma chip_step {C : Type} `{ReaderLaws C} (cfg : Config) (mode : AdapterCols) (state : CPUState.Cols)
    (adapter : C) (op : F) (consts : list F) (value : Word F) (mid ops : list Emit) :
  quiet ops -> quiet mid ->
  sats (ops ++ frame cfg mode state adapter op consts value (pc_inc state) mid F1) ->
  (forall i, valid_word (rd_b adapter) -> valid_word (rd_c adapter) -> op = Fof (opcode_num (opcode i)) -> sats ops ->
   valid_word value /\
   alu_value (opcode i) (word_val (rd_b adapter)) (word_val (rd_c adapter)) = Ok (word_val value)) ->
  step_row (ops ++ frame cfg mode state adapter op consts value (pc_inc state) mid F1).
Proof.
  intros Hq Hm Hs Hop. apply sequential_step; try assumption. intros pc i [Eo _ _ _ _ Vb Vc Ib Ic Hx0 _ _ _ _ _] _.
  destruct (Hop i Vb Vc Eo) as [Va Ea]; [apply sats_app in Hs; tauto|]. split; [exact Va|].
  intros clk ta tb tc. rewrite <- (rd_value_word i value Hx0) at 1. apply step_alu; assumption.
Qed.

(** Decomposes a chip's [eval] into its gadgets and its frame. *)
Ltac chip_row H :=
  repeat match type of H with
  | bind ?m _ = Ok _ => let E := fresh "Ec" in destruct m eqn:E; cbn [bind] in H; [|discriminate]
  end;
  match type of H with Ok ?r = Ok ?r' => assert (r' = r) as -> by congruence end; clear H.

Section Sound.
Context (rrs : MajorOpcodes) (cfg : Config) (row : list Emit) (Hs : sats row).

Lemma add_chip_steps (local : AddChip.Cols) :
  AddChip.eval rrs cfg local = Ok row -> AddChip.is_real local = F1 -> step_row row.
Proof.
  intros E Hr. unfold AddChip.eval in E. chip_row E. rewrite Hr in *.
  apply chip_step; [auto with quiet | auto with quiet | assumption |].
  intros i Vb Vc Eo Ho. apply (opcode_of_F ADD) in Eo. rewrite <- Eo.
  rewrite !sats_app in Ho. destruct Ho as (_ & _ & Ho).
  apply add_sound in Ho as [Va Ea]; [|assumption..]. rewrite Ea. auto.
Qed.

Lemma sub_chip_steps (local : SubChip.Cols) :
  SubChip.eval rrs cfg local = Ok row -> SubChip.is_real local = F1 -> step_row row.
Proof.
  intros E Hr. unfold SubChip.eval in E. chip_row E. rewrite Hr in *.
  apply chip_step; [auto with quiet | auto with quiet | assumption |].
  intros i Vb Vc Eo Ho. apply (opcode_of_F SUB) in Eo. rewrite <- Eo.
  rewrite !sats_app in Ho. destruct Ho as (_ & _ & Ho).
  apply sub_sound in Ho as [Va Ea]; [|assumption..]. rewrite Ea. auto.
Qed.

Lemma addi_chip_steps (local : AddiChip.Cols) :
  AddiChip.eval rrs cfg local = Ok row -> AddiChip.is_real local = F1 -> step_row row.
Proof.
  intros E Hr. unfold AddiChip.eval in E. chip_row E. rewrite Hr in *.
  apply chip_step; [auto with quiet | auto with quiet | assumption |].
  intros i Vb Vc Eo Ho. apply (opcode_of_F ADDI) in Eo. rewrite <- Eo.
  rewrite !sats_app in Ho. destruct Ho as (_ & _ & Ho).
  apply add_sound in Ho as [Va Ea]; [|assumption..]. rewrite Ea. auto.
Qed.

Lemma addw_chip_steps (local : AddwChip.Cols) :
  AddwChip.eval rrs cfg local = Ok row -> AddwChip.is_real local = F1 -> step_row row.
Proof.
  intros E Hr. unfold AddwChip.eval in E. chip_row E. rewrite Hr in *.
  apply chip_step; [auto with quiet | auto with quiet | assumption |].
  intros i Vb Vc Eo Ho. apply (opcode_of_F ADDW) in Eo. rewrite <- Eo.
  rewrite !sats_app in Ho. destruct Ho as (_ & _ & Ho).
  apply addw_sound in Ho as [Va Ea]; [|assumption..]. split; [exact Va|].
  unfold sign_extend_half in Ea. rewrite Ea. reflexivity.
Qed.

Lemma subw_chip_steps (local : SubwChip.Cols) :
  SubwChip.eval rrs cfg local = Ok row -> SubwChip.is_real local = F1 -> step_row row.
Proof.
  intros E Hr. unfold SubwChip.eval in E. chip_row E. rewrite Hr in *.
  apply chip_step; [auto with quiet | auto with quiet | assumption |].
  intros i Vb Vc Eo Ho. apply (opcode_of_F SUBW) in Eo. rewrite <- Eo.
  rewrite !sats_app in Ho. destruct Ho as (_ & _ & Ho).
  apply subw_sound in Ho as [Va Ea]; [|assumption..]. split; [exact Va|].
  unfold sign_extend_half in Ea. rewrite Ea. reflexivity.
Qed.

Lemma mul_chip_steps (local : MulChip.Cols) :
  MulChip.eval rrs cfg local = Ok row -> mul_shape (MulChip.mul_operation local) ->
  fold_right Fadd F0 (MulChip.flags local) = F1 -> step_row row.
Proof.
  intros E Hsh Hr. unfold MulChip.eval in E. chip_row E.
  destruct local as [st ad aw op m1 m2 m3 m4 m5 mode]. unfold MulChip.flags in *.
  cbn [MulChip.state MulChip.adapter MulChip.a MulChip.mul_operation MulChip.is_mul MulChip.is_mulh
       MulChip.is_mulhu MulChip.is_mulhsu MulChip.is_mulw MulChip.adapter_cols fold_right] in *.
  assert (Er : (m1 + m2 + m3 + m4 + m5)%F = F1) by (rewrite <- Hr; ring). rewrite Er in *.
  apply chip_step; [auto 10 with quiet | auto with quiet | assumption |].
  intros i Vb Vc Eo Ho. rewrite !sats_app in Ho. destruct Ho as (Ho & B1 & B2 & B3 & B5 & B4 & _).
  assert (Hf : exists n, (n < length [m1; m2; m3; m4; m5])%nat /\
                 forall j, nth j [m1; m2; m3; m4; m5] F0 = if Nat.eqb j n then F1 else F0).
  { apply onehot; [|cbn; unfold KOALA_BEAR_ORDER; lia | exact Hr]. rewrite sats_bool in *. forall_flags. }
  cbn [rd_b rd_c RType_reader].
  flags_case Hf; subst; unfold weighted in Eo; cbn [MulChip.opcodes map combine fold_left fst snd] in Eo;
    match goal with
    | H : sats (MulOperation.eval _ _ _ _ F1 F1 F0 F0 F0 F0) |- _ =>
        assert (Eo' : Fof (opcode_num MUL) = Fof (opcode_num (opcode i))) by (rewrite <- Eo; ring)
    | H : sats (MulOperation.eval _ _ _ _ F1 F0 F1 F0 F0 F0) |- _ =>
        assert (Eo' : Fof (opcode_num MULH) = Fof (opcode_num (opcode i))) by (rewrite <- Eo; ring)
    | H : sats (MulOperation.eval _ _ _ _ F1 F0 F0 F0 F1 F0) |- _ =>
        assert (Eo' : Fof (opcode_num MULHU) = Fof (opcode_num (opcode i))) by (rewrite <- Eo; ring)
    | H : sats (MulOperation.eval _ _ _ _ F1 F0 F0 F0 F0 F1) |- _ =>
        assert (Eo' : Fof (opcode_num MULHSU) = Fof (opcode_num (opcode i))) by (rewrite <- Eo; ring)
    | H : sats (MulOperation.eval _ _ _ _ F1 F0 F0 F1 F0 F0) |- _ =>
        assert (Eo' : Fof (opcode_num MULW) = Fof (opcode_num (opcode i))) by (rewrite <- Eo; ring)
    end;
    apply opcode_of_F in Eo'; rewrite <- Eo';
    match goal with |- context [alu_value ?o _ _] => apply (mul_sound o) with (cols := op) end;
    (reflexivity || assumption).
Qed.

Lemma bitwise_chip_steps (local : BitwiseChip.Cols) :
  BitwiseChip.eval rrs cfg local = Ok row ->
  length (BitwiseOperation.result (BitwiseU16Operation.bitwise_operation (BitwiseChip.bitwise_operation local))) = 8%nat ->
  fold_right Fadd F0 (BitwiseChip.flags local) = F1 -> step_row row.
Proof.
  intros E Hsh Hr. unfold BitwiseChip.eval in E.
  destruct local as [st ad op m1 m2 m3 mode]. unfold BitwiseChip.flags in *.
  cbn [BitwiseChip.state BitwiseChip.adapter BitwiseChip.bitwise_operation BitwiseChip.is_xor BitwiseChip.is_or
       BitwiseChip.is_and BitwiseChip.adapter_cols fold_right] in *.
  assert (Er : (m1 + m2 + m3)%F = F1) by (rewrite <- Hr; ring). rewrite Er in *.
  match type of E with context [BitwiseU16Operation.eval_bitwise_u16 ?b ?c ?cols ?o ?r] =>
    pose proof (fun bo Hb => bitwise_u16_sound bo b c cols Hb Hsh) as Hsound;
    pose proof (quiet_bitwise b c cols o r) as Hq;
    destruct (BitwiseU16Operation.eval_bitwise_u16 b c cols o r) as [em w] eqn:Ew
  end.
  chip_row E. cbn [fst] in Hq.
  apply chip_step; [auto 10 with quiet | auto with quiet | assumption |].
  intros i Vb Vc Eo Ho. rewrite !sats_app in Ho. destruct Ho as (B1 & B2 & B3 & _ & _ & Ho).
  rewrite sats_bool in *.
  assert (Hf : exists n, (n < length [m1; m2; m3])%nat /\
                 forall j, nth j [m1; m2; m3] F0 = if Nat.eqb j n then F1 else F0).
  { apply onehot; [forall_flags | cbn; unfold KOALA_BEAR_ORDER; lia | exact Hr]. }
  cbn [rd_b rd_c ALUType_reader].
  assert (Hsel : forall o bo, is_bit_op bo ->
    weighted [m1; m2; m3] (map opcode_num BitwiseChip.opcodes) = Fof (opcode_num o) ->
    weighted [m1; m2; m3] (map byte_opcode_num [BXOR; BOR; BAND]) = byte_op bo ->
    alu_value o (word_val (ALUTypeReader.b ad)) (word_val (ALUTypeReader.c ad))
      = Ok (bit_op bo (word_val (ALUTypeReader.b ad)) (word_val (ALUTypeReader.c ad))) ->
    valid_word w /\
    alu_value (opcode i) (word_val (ALUTypeReader.b ad)) (word_val (ALUTypeReader.c ad)) = Ok (word_val w)).
  { intros o bo Hbo Ho' Hb Ha. rewrite Ho' in Eo. apply opcode_of_F in Eo. subst o. rewrite Hb in Ew.
    specialize (Hsound bo Hbo). rewrite Ew in Hsound. destruct (Hsound Ho) as [Vw ->]. auto. }
  flags_case Hf; subst; unfold weighted in Hsel;
    cbn [BitwiseChip.opcodes map combine fold_left fst snd] in Hsel.
  - apply (Hsel XOR BXOR); [unfold is_bit_op; auto | ring | unfold byte_op; ring | reflexivity].
  - apply (Hsel OR BOR); [unfold is_bit_op; auto | ring | unfold byte_op; ring | reflexivity].
  - apply (Hsel AND BAND); [unfold is_bit_op; auto | ring | unfold byte_op; ring | reflexivity].
Qed.

Lemma lt_chip_steps (local : LtChip.Cols) :
  LtChip.eval rrs cfg local = Ok row -> fold_right Fadd F0 (LtChip.flags local) = F1 -> step_row row.
Proof.
  intros E Hr. unfold LtChip.eval in E. chip_row E.
  destruct local as [st ad m1 m2 op mode]. unfold LtChip.flags in *.
  cbn [LtChip.state LtChip.adapter LtChip.is_slt LtChip.is_sltu LtChip.lt_operation LtChip.adapter_cols
       fold_right] in *.
  assert (Er : (m1 + m2)%F = F1) by (rewrite <- Hr; ring). rewrite Er in *.
  apply chip_step; [auto 10 with quiet | auto with quiet | assumption |].
  intros i Vb Vc Eo Ho. rewrite !sats_app in Ho. destruct Ho as (B1 & B2 & _ & _ & Ho).
  rewrite sats_bool in *.
  assert (Hf : exists n, (n < length [m1; m2])%nat /\
                 forall j, nth j [m1; m2] F0 = if Nat.eqb j n then F1 else F0).
  { apply onehot; [forall_flags | cbn; unfold KOALA_BEAR_ORDER; lia | exact Hr]. }
  cbn [rd_b rd_c ALUType_reader] in *.
  assert (Hsel : forall o s, m1 = Fof_bool s ->
    weighted [m1; m2] (map opcode_num LtChip.opcodes) = Fof (opcode_num o) ->
    alu_value o (word_val (ALUTypeReader.b ad)) (word_val (ALUTypeReader.c ad))
      = Ok (if lt_spec s (word_val (ALUTypeReader.b ad)) (word_val (ALUTypeReader.c ad)) then 1 else 0) ->
    let w := extend_var (U16CompareOperation.bit
               (LtOperationUnsigned.u16_compare_operation (LtOperationSigned.result op))) in
    valid_word w /\
    alu_value (opcode i) (word_val (ALUTypeReader.b ad)) (word_val (ALUTypeReader.c ad)) = Ok (word_val w)).
  { intros o s Hs1 Ho' Ha. rewrite Ho' in Eo. apply opcode_of_F in Eo. subst o. rewrite Hs1 in Ho.
    apply lt_signed_sound in Ho; [|assumption..]. rewrite Ho, Ha. cbv zeta.
    destruct (lt_spec _ _ _); vm_compute; repeat split; reflexivity. }
  flags_case Hf; subst; unfold weighted in Hsel;
    cbn [LtChip.opcodes map combine fold_left fst snd] in Hsel.
  - apply (Hsel SLT true); [reflexivity | ring | reflexivity].
  - apply (Hsel SLTU false); [reflexivity | ring | reflexivity].
Qed.
End Sound.

(** ** Completeness *)

(** The configurations a real row occurs in: user mode chips are used when the
    [mprotect] feature and untrusted programs are enabled, supervisor mode
    chips otherwise. *)
Definition cfg_ok (cfg : Config) (user : bool) : Prop :=
  (mprotect cfg = true -> is_untrusted_programs_enabled cfg = Fof_bool user) /\
  (user = true -> mprotect cfg = true).

Lemma trust_complete (cfg : Config) (user untrusted : bool) (pc : list F) (i : InstructionCols.Cols)
    (consts clk : list F) :
  cfg_ok cfg user -> complete (fst (eval_trust cfg (trust_cols user untrusted) pc i consts clk F1)) [].
Proof.
  intros [H1 H2]. apply complete_asserts.
  - destruct user; cbn [trust_cols eval_trust fst IS_TRUSTED negb].
    + rewrite (H2 eq_refl) in *. rewrite (H1 eq_refl). unfold eval_untrusted_program.
      rewrite (H1 eq_refl). destruct untrusted; cbn;
        [replace (F1 - F0)%F with F1 by ring | replace (F1 - F1)%F with F0 by ring];
        unfold is_bool; repeat split; auto.
    + destruct (mprotect cfg) eqn:E; [|exact I]. rewrite (H1 eq_refl). cbn. auto.
  - destruct user; cbn [trust_cols eval_trust fst]; destruct (mprotect cfg); reflexivity.
Qed.

Lemma frame_complete {C : Type} `{ReaderLaws C} (cfg : Config) (user untrusted : bool) (adapter : C)
    (op : F) (consts : list F) (value : Word F) (mid : list Emit) (clk pc : Z) (ev : list ByteLookupEvent) :
  clk_ok clk -> cfg_ok cfg user -> complete mid [] ->
  (forall h p t, complete (rd_eval h (Fof (ts_low clk)) p op value adapter F1 t) ev) ->
  let '(st, ev_st) := CPUState.populate clk pc in
  forall next_pc, complete (frame cfg (trust_cols user untrusted) st adapter op consts value next_pc mid F1) (ev_st ++ ev).
Proof.
  intros Hc Hcfg Hmid Hrd. pose proof (fun np inc => cpu_state_complete clk pc np inc (proj1 Hc) (proj2 Hc)) as Hst.
  destruct (cpu_state_cols clk pc (proj1 Hc)) as [_ El].
  destruct (CPUState.populate clk pc) as [st ev_st]. cbn [fst] in El. intros next_pc. unfold frame. rewrite El.
  apply complete_app; [apply Hst|]. apply complete_asserts_app; [apply trust_complete; assumption|].
  apply complete_asserts_app; [assumption | apply Hrd].
Qed.

(** What an ALU event of the executor satisfies: its clock is aligned, its
    operands are those of the recorded register accesses, and its result is
    the executor's. *)
Record alu_event_ok (event : AluEvent) : Prop := mkEventOk {
  eo_clk : clk_ok (ev_clk event);
  eo_b : is_u64 (ev_b event);
  eo_c : is_u64 (ev_c event);
  eo_a : alu_value (ev_opcode event) (ev_b event) (ev_c event) = Ok (ev_a event)
}.

Definition r_record_ok (event : AluEvent) (rec : RTypeRecord) : Prop :=
  rt_op_a rec <> 0 /\ access_at (ev_clk event) 4 (rt_a rec) /\
  access_at (ev_clk event) 3 (rt_b rec) /\ access_at (ev_clk event) 2 (rt_c rec) /\
  mr_value (previous_record (rt_b rec)) = ev_b event /\
  mr_value (previous_record (rt_c rec)) = ev_c event.

Definition i_record_ok (event : AluEvent) (rec : ITypeRecord) : Prop :=
  it_op_a rec <> 0 /\ access_at (ev_clk event) 4 (it_a rec) /\
  access_at (ev_clk event) 3 (it_b rec) /\
  mr_value (previous_record (it_b rec)) = ev_b event /\ it_op_c rec = ev_c event.

Definition alu_record_ok (event : AluEvent) (rec : ALUTypeRecord) : Prop :=
  at_op_a rec <> 0 /\ access_at (ev_clk event) 4 (at_a rec) /\
  access_at (ev_clk event) 3 (at_b rec) /\ mr_value (previous_record (at_b rec)) = ev_b event /\
  match at_c rec with
  | Some r => access_at (ev_clk event) 2 r /\ mr_value (previous_record r) = ev_c event
  | None => at_op_c rec = ev_c event
  end.

(** [populate] of a reader and the words it reads. *)
Lemma populate_prev_value (r : MemoryRecordEnum) :
  RegisterAccess.prev_value (fst (RegisterAccess.populate r)) = word_from_u64 (mr_value (previous_record r)).
Proof.
  unfold RegisterAccess.populate. destruct (RegisterAccessTimestamp.populate_timestamp _ _). reflexivity.
Qed.

Lemma r_populate_operands (event : AluEvent) (rec : RTypeRecord) :
  r_record_ok event rec ->
  RTypeReader.b (fst (RTypeReader.populate rec)) = word_from_u64 (ev_b event) /\
  RTypeReader.c (fst (RTypeReader.populate rec)) = word_from_u64 (ev_c event) /\
  RTypeReader.op_a_0 (fst (RTypeReader.populate rec)) = F0.
Proof.
  intros (Ha & _ & _ & _ & Eb & Ec). unfold RTypeReader.populate, RTypeReader.b, RTypeReader.c.
  pose proof (populate_prev_value (rt_b rec)) as Pb. pose proof (populate_prev_value (rt_c rec)) as Pc.
  destruct (RegisterAccess.populate (rt_a rec)), (RegisterAccess.populate (rt_b rec)),
    (RegisterAccess.populate (rt_c rec)). cbn in *. rewrite Pb, Pc, Eb, Ec, (proj2 (Z.eqb_neq _ _) Ha). auto.
Qed.

Lemma i_populate_operands (event : AluEvent) (rec : ITypeRecord) :
  i_record_ok event rec ->
  ITypeReader.b (fst (ITypeReader.populate rec)) = word_from_u64 (ev_b event) /\
  ITypeReader.c (fst (ITypeReader.populate rec)) = word_from_u64 (ev_c event) /\
  ITypeReader.op_a_0 (fst (ITypeReader.populate rec)) = F0.
Proof.
  intros (Ha & _ & _ & Eb & Ec). unfold ITypeReader.populate, ITypeReader.b, ITypeReader.c.
  pose proof (populate_prev_value (it_b rec)) as Pb.
  destruct (RegisterAccess.populate (it_a rec)), (RegisterAccess.populate (it_b rec)).
  cbn in *. rewrite Pb, Eb, Ec, (proj2 (Z.eqb_neq _ _) Ha). auto.
Qed.

Lemma alu_populate_operands (event : AluEvent) (rec : ALUTypeRecord) :
  alu_record_ok event rec ->
  ALUTypeReader.b (fst (ALUTypeReader.populate rec)) = word_from_u64 (ev_b event) /\
  ALUTypeReader.c (fst (ALUTypeReader.populate rec)) = word_from_u64 (ev_c event) /\
  ALUTypeReader.op_a_0 (fst (ALUTypeReader.populate rec)) = F0.
Proof.
  intros (Ha & _ & _ & Eb & Ec). unfold ALUTypeReader.populate, ALUTypeReader.b, ALUTypeReader.c.
  pose proof (populate_prev_value (at_b rec)) as Pb.
  destruct (RegisterAccess.populate (at_a rec)), (RegisterAccess.populate (at_b rec)).
  destruct (at_c rec) as [r|].
  - pose proof (populate_prev_value r) as Pc. destruct (RegisterAccess.populate r). cbn in *.
    destruct Ec as [_ Ec]. rewrite Pb, Pc, Eb, Ec, (proj2 (Z.eqb_neq _ _) Ha). auto.
  - cbn in *. rewrite Pb, Eb, Ec, (proj2 (Z.eqb_neq _ _) Ha). auto.
Qed.

(** The major opcodes of [rrs_lib] the immediate forms subtract. *)
Definition rrs_ok (rrs : MajorOpcodes) : Prop :=
  OPCODE_OP_IMM rrs <= OPCODE_OP rrs /\ OPCODE_OP_IMM_32 rrs <= OPCODE_OP_32 rrs.

(** The generated row satisfies the chip, and its byte lookups are the
    recorded events. *)
Definition chip_complete {C : Type} (eval : C -> Res (list Emit)) (r : C * list ByteLookupEvent) : Prop :=
  exists row, eval (fst r) = Ok row /\ complete row (snd r).

Section Complete.
Context (rrs : MajorOpcodes) (cfg : Config) (user : bool) (event : AluEvent).
Context (Hcfg : cfg_ok cfg user) (He : alu_event_ok event) (Hrrs : rrs_ok rrs).

(** The frame around an R-type reader, and around the two others. *)
Lemma r_frame_complete (rec : RTypeRecord) (op : F) (consts : list F) (value : Word F) (mid : list Emit) :
  r_record_ok event rec -> complete mid [] ->
  let '(ad, ev) := RTypeReader.populate rec in
  let '(st, ev_st) := CPUState.populate (ev_clk event) (ev_pc event) in
  complete (frame cfg (trust_cols user (rt_is_untrusted rec)) st ad op consts value (pc_inc st) mid F1) (ev_st ++ ev).
Proof.
  intros (Ha & Aa & Ab & Ac & _) Hmid. destruct He as [Hc _ _ _].
  pose proof (fun h p t => r_type_complete (ev_clk event) rec h p op value t Hc (fun E => False_ind _ (Ha E)) Aa Ab Ac) as Hrd.
  destruct (RTypeReader.populate rec) as [ad ev].
  pose proof (frame_complete cfg user (rt_is_untrusted rec) ad op consts value mid (ev_clk event) (ev_pc event) ev Hc Hcfg) as Hfc.
  destruct (CPUState.populate _ _). apply Hfc; assumption.
Qed.

Lemma i_frame_complete (rec : ITypeRecord) (op : F) (consts : list F) (value : Word F) :
  i_record_ok event rec ->
  let '(ad, ev) := ITypeReader.populate rec in
  let '(st, ev_st) := CPUState.populate (ev_clk event) (ev_pc event) in
  complete (frame cfg (trust_cols user (it_is_untrusted rec)) st ad op consts value (pc_inc st) [] F1) (ev_st ++ ev).
Proof.
  intros (Ha & Aa & Ab & _). destruct He as [Hc _ _ _].
  pose proof (fun h p t => i_type_complete (ev_clk event) rec h p op value t Hc (fun E => False_ind _ (Ha E)) Aa Ab) as Hrd.
  destruct (ITypeReader.populate rec) as [ad ev].
  pose proof (frame_complete cfg user (it_is_untrusted rec) ad op consts value [] (ev_clk event) (ev_pc event) ev Hc Hcfg) as Hfc.
  destruct (CPUState.populate _ _). apply Hfc; try assumption.
  apply complete_asserts; [exact I | reflexivity].
Qed.

Lemma alu_frame_complete (rec : ALUTypeRecord) (op : F) (consts : list F) (value : Word F) :
  alu_record_ok event rec ->
  let '(ad, ev) := ALUTypeReader.populate rec in
  let '(st, ev_st) := CPUState.populate (ev_clk event) (ev_pc event) in
  complete (frame cfg (trust_cols user (at_is_untrusted rec)) st ad op consts value (pc_inc st) [] F1) (ev_st ++ ev).
Proof.
  intros (Ha & Aa & Ab & _ & Ac). destruct He as [Hc _ _ _].
  assert (Ac' : match at_c rec with Some r => access_at (ev_clk event) 2 r | None => True end)
    by (destruct (at_c rec); tauto).
  pose proof (fun h p t => alu_type_complete (ev_clk event) rec h p op value t Hc (fun E => False_ind _ (Ha E)) Aa Ab Ac') as Hrd.
  destruct (ALUTypeReader.populate rec) as [ad ev].
  pose proof (frame_complete cfg user (at_is_untrusted rec) ad op consts value [] (ev_clk event) (ev_pc event) ev Hc Hcfg) as Hfc.
  destruct (CPUState.populate _ _). apply Hfc; try assumption.
  apply complete_asserts; [exact I | reflexivity].
Qed.

Lemma bool_1 : complete (assert_bool F1) [].
Proof. apply complete_bool. right. reflexivity. Qed.

Lemma add_chip_completes (rec : RTypeRecord) :
  r_record_ok event rec -> chip_complete (AddChip.eval rrs cfg) (AddChip.event_to_row user event rec).
Proof.
  intros Hr. pose proof (r_populate_operands event rec Hr) as Hops.
  pose proof (fun op cs v => r_frame_complete rec op cs v [] Hr) as Hf.
  pose proof (add_complete _ _ (eo_b _ He) (eo_c _ He)) as Hop. unfold AddChip.event_to_row.
  destruct (AddOperation.populate _ _) as [[op ev1] r], (RTypeReader.populate rec) as [ad ev3],
    (CPUState.populate _ _) as [st ev2]. cbn [fst] in Hops. destruct Hops as (Eb & Ec & E0).
  eexists. split; [reflexivity|].
  cbn [fst snd AddChip.is_real AddChip.adapter AddChip.add_operation AddChip.state AddChip.adapter_cols].
  rewrite Eb, Ec, E0. apply complete_app; [|apply Hf, complete_asserts; [exact I | reflexivity]].
  apply complete_asserts_app; [apply bool_1|]. apply complete_asserts_app; [apply complete_zero; reflexivity|].
  exact Hop.
Qed.

Lemma sub_chip_completes (rec : RTypeRecord) :
  r_record_ok event rec -> chip_complete (SubChip.eval rrs cfg) (SubChip.event_to_row user event rec).
Proof.
  intros Hr. pose proof (r_populate_operands event rec Hr) as Hops.
  pose proof (fun op cs v => r_frame_complete rec op cs v [] Hr) as Hf.
  pose proof (sub_complete _ _ (eo_b _ He) (eo_c _ He)) as Hop. unfold SubChip.event_to_row.
  destruct (SubOperation.populate _ _) as [[op ev1] r], (RTypeReader.populate rec) as [ad ev3],
    (CPUState.populate _ _) as [st ev2]. cbn [fst] in Hops. destruct Hops as (Eb & Ec & E0).
  eexists. split; [reflexivity|].
  cbn [fst snd SubChip.is_real SubChip.adapter SubChip.sub_operation SubChip.state SubChip.adapter_cols].
  rewrite Eb, Ec, E0. apply complete_app; [|apply Hf, complete_asserts; [exact I | reflexivity]].
  apply complete_asserts_app; [apply bool_1|]. apply complete_asserts_app; [apply complete_zero; reflexivity|].
  exact Hop.
Qed.

Lemma addi_chip_completes (rec : ITypeRecord) :
  i_record_ok event rec -> chip_complete (AddiChip.eval rrs cfg) (AddiChip.event_to_row user event rec).
Proof.
  intros Hr. pose proof (i_populate_operands event rec Hr) as Hops.
  pose proof (fun op cs v => i_frame_complete rec op cs v Hr) as Hf.
  pose proof (add_complete _ _ (eo_b _ He) (eo_c _ He)) as Hop. unfold AddiChip.event_to_row.
  destruct (AddOperation.populate _ _) as [[op ev1] r], (ITypeReader.populate rec) as [ad ev3],
    (CPUState.populate _ _) as [st ev2]. cbn [fst] in Hops. destruct Hops as (Eb & Ec & E0).
  eexists. split; [reflexivity|].
  cbn [fst snd AddiChip.is_real AddiChip.adapter AddiChip.add_operation AddiChip.state AddiChip.adapter_cols].
  rewrite Eb, Ec, E0. apply complete_app; [|apply Hf].
  apply complete_asserts_app; [apply bool_1|]. apply complete_asserts_app; [apply complete_zero; reflexivity|].
  exact Hop.
Qed.

Lemma subw_chip_completes (rec : RTypeRecord) :
  r_record_ok event rec -> chip_complete (SubwChip.eval rrs cfg) (SubwChip.event_to_row user event rec).
Proof.
  intros Hr. pose proof (r_populate_operands event rec Hr) as Hops.
  pose proof (fun op cs v => r_frame_complete rec op cs v [] Hr) as Hf.
  pose proof (subw_complete _ _ (eo_b _ He) (eo_c _ He)) as Hop. unfold SubwChip.event_to_row.
  destruct (SubwOperation.populate _ _) as [op ev1], (RTypeReader.populate rec) as [ad ev3],
    (CPUState.populate _ _) as [st ev2]. cbn [fst] in Hops. destruct Hops as (Eb & Ec & E0).
  eexists. split; [reflexivity|].
  cbn [fst snd SubwChip.is_real SubwChip.adapter SubwChip.subw_operation SubwChip.state SubwChip.adapter_cols].
  rewrite Eb, Ec, E0. apply complete_app; [|apply Hf, complete_asserts; [exact I | reflexivity]].
  apply complete_asserts_app; [apply bool_1|]. apply complete_asserts_app; [apply complete_zero; reflexivity|].
  exact Hop.
Qed.

(** The chips that record the reader's events first. *)
Lemma events_perm (a b c : list ByteLookupEvent) : Permutation (b ++ c ++ a) (a ++ b ++ c).
Proof. rewrite app_assoc. apply Permutation_app_comm. Qed.

Lemma events_perm' (a b c : list ByteLookupEvent) : Permutation (c ++ b ++ a) (a ++ b ++ c).
Proof.
  rewrite (Permutation_app_comm c), <- app_assoc, (Permutation_app_comm b), <- app_assoc.
  apply Permutation_app_head, Permutation_app_comm.
Qed.

Lemma checked_sub_ok (a b : Z) : b <= a -> checked_sub a b = Ok (a - b).
Proof. intros H. unfold checked_sub. rewrite (proj2 (Z.leb_le _ _) H). reflexivity. Qed.

Lemma addw_chip_completes (rec : ALUTypeRecord) :
  alu_record_ok event rec -> chip_complete (AddwChip.eval rrs cfg) (AddwChip.event_to_row user event rec).
Proof.
  intros Hr. pose proof (alu_populate_operands event rec Hr) as Hops.
  pose proof (fun op cs v => alu_frame_complete rec op cs v Hr) as Hf.
  pose proof (addw_complete _ _ (eo_b _ He) (eo_c _ He)) as Hop. unfold AddwChip.event_to_row.
  destruct (AddwOperation.populate _ _) as [op ev1], (ALUTypeReader.populate rec) as [ad ev3],
    (CPUState.populate _ _) as [st ev2]. cbn [fst] in Hops. destruct Hops as (Eb & Ec & E0).
  eexists. split; [unfold AddwChip.eval, base_imm_diff; cbn [base_opcode bind fst snd of_option];
                   rewrite (checked_sub_ok (OPCODE_OP_32 rrs)) by apply Hrrs; reflexivity|].
  cbn [fst snd AddwChip.is_real AddwChip.adapter AddwChip.addw_operation AddwChip.state AddwChip.adapter_cols].
  rewrite Eb, Ec, E0. apply (complete_perm _ (ev1 ++ ev2 ++ ev3)); [apply events_perm'|].
  apply complete_app; [|apply Hf].
  apply complete_asserts_app; [apply bool_1|]. apply complete_asserts_app; [apply complete_zero; reflexivity|].
  exact Hop.
Qed.

Lemma mul_chip_completes (rec : RTypeRecord) :
  is_mul_opcode (ev_opcode event) = true ->
  r_record_ok event rec -> chip_complete (MulChip.eval rrs cfg) (MulChip.event_to_row user event rec).
Proof.
  intros Ho Hr. pose proof (r_populate_operands event rec Hr) as Hops.
  pose proof (fun op cs v => r_frame_complete rec op cs v) as Hf.
  destruct (mul_complete _ _ _ Ho (eo_b _ He) (eo_c _ He)) as (a & Ea & _ & Hop).
  rewrite (eo_a _ He) in Ea. assert (ev_a event = a) as <- by congruence. unfold MulChip.event_to_row.
  destruct (MulOperation.populate _ _ _ _ _) as [op ev1], (RTypeReader.populate rec) as [ad ev3],
    (CPUState.populate _ _) as [st ev2]. cbn [fst] in Hops. destruct Hops as (Eb & Ec & E0), Hop as [_ Hop].
  eexists. split; [reflexivity|].
  cbn [fst snd MulChip.a MulChip.adapter MulChip.mul_operation MulChip.state MulChip.adapter_cols
       MulChip.is_mul MulChip.is_mulh MulChip.is_mulhu MulChip.is_mulhsu MulChip.is_mulw].
  rewrite Eb, Ec, E0. unfold opF in Hop.
  assert (Hone : (Fof_bool (opcode_eqb (ev_opcode event) MUL) + Fof_bool (opcode_eqb (ev_opcode event) MULH) +
    Fof_bool (opcode_eqb (ev_opcode event) MULHU) + Fof_bool (opcode_eqb (ev_opcode event) MULHSU) +
    Fof_bool (opcode_eqb (ev_opcode event) MULW))%F = F1)
    by (destruct (ev_opcode event); try discriminate Ho; opcode_compute; cbn [Fof_bool]; ring).
  rewrite Hone. apply (complete_perm _ (ev1 ++ ev2 ++ ev3)).
  { rewrite (Permutation_app_comm ev3), app_assoc. reflexivity. }
  apply complete_app; [|apply Hf; [exact Hr | apply complete_zero; reflexivity]].
  apply complete_nil_r; [exact Hop|].
  repeat (apply complete_asserts_app; [apply complete_bool, Fof_bool_is_bool|]). apply bool_1.
Qed.

Lemma imm_consts_ok (flags : list F) (os : list Opcode) (imm : F) :
  Forall (fun o => base_opcode rrs o = Ok (OPCODE_OP rrs, Some (OPCODE_OP_IMM rrs)) /\
                   instruction_type o = Ok (RType, Some IType) /\ exists f, funct3 o = Some f) os ->
  os <> [] -> exists cs, imm_consts rrs flags os imm = Ok cs.
Proof.
  intros Hos Hne. unfold imm_consts.
  assert (M : forall {A} (f : Opcode -> Res A) (P : Opcode -> Prop),
    (forall o, P o -> exists y, f o = Ok y) -> Forall P os -> exists ys, mapM f os = Ok ys).
  { intros A f P Hf HP. clear Hne Hos. induction HP as [|o os' Ho _ [ys IH]]; [exists []; reflexivity|].
    destruct (Hf o Ho) as [y Ey]. cbn [mapM]. rewrite Ey, IH. cbn [bind]. eauto. }
  assert (Me : forall (f : Opcode -> Res Z) d, Forall (fun o => f o = Ok d) os ->
    exists ys, mapM f os = Ok ys /\ all_equal ys = Ok d).
  { intros f d Hf.
    assert (E : mapM f os = Ok (repeat d (length os)))
      by (clear Hne Hos M; induction Hf as [|o os' Ho _ IH]; [reflexivity|]; cbn [mapM length repeat];
          rewrite Ho, IH; reflexivity).
    exists (repeat d (length os)). split; [exact E|]. destruct os as [|o os']; [contradiction|].
    cbn [length repeat all_equal]. replace (forallb (Z.eqb d) (repeat d (length os'))) with true; [reflexivity|].
    clear. induction (length os') as [|n IH]; [reflexivity|]. cbn. rewrite Z.eqb_refl. exact IH. }
  assert (M3 : exists ys, mapM (fun o => of_option (funct3 o)) os = Ok ys)
    by (eapply M; [|exact Hos]; intros o (_ & _ & f & ->); eexists; reflexivity).
  assert (Mb : exists ys, mapM (base_of rrs) os = Ok ys)
    by (eapply M; [|exact Hos]; intros o (E & _); unfold base_of; rewrite E; eexists; reflexivity).
  assert (Mt : exists ys, mapM type_of os = Ok ys)
    by (eapply M; [|exact Hos]; intros o (_ & E & _); unfold type_of; rewrite E; eexists; reflexivity).
  destruct M3 as [f3 ->], Mb as [b ->], Mt as [t ->].
  destruct (Me (base_imm_diff rrs) (OPCODE_OP rrs - OPCODE_OP_IMM rrs)) as (bd & -> & Eb).
  { eapply Forall_impl; [|exact Hos]. cbn. intros o (E & _). unfold base_imm_diff. rewrite E. cbn.
    apply checked_sub_ok, Hrrs. }
  destruct (Me type_imm_diff 4) as (td & -> & Et).
  { eapply Forall_impl; [|exact Hos]. cbn. intros o (_ & E & _). unfold type_imm_diff. rewrite E. reflexivity. }
  cbn [bind]. rewrite Eb, Et. cbn [bind]. eauto.
Qed.

Lemma bitwise_chip_completes (rec : ALUTypeRecord) :
  (ev_opcode event = AND \/ ev_opcode event = OR \/ ev_opcode event = XOR) -> alu_record_ok event rec ->
  exists r, BitwiseChip.event_to_row user event rec = Ok r /\ chip_complete (BitwiseChip.eval rrs cfg) r.
Proof.
  intros Ho Hr. pose proof (alu_populate_operands event rec Hr) as Hops.
  pose proof (fun op cs v => alu_frame_complete rec op cs v Hr) as Hf.
  destruct (bitwise_u16_complete _ _ _ Ho (eo_b _ He) (eo_c _ He)) as (op & ev1 & Epop & Hop).
  assert (Ea : ev_a event = bit_op (bitwise_opcode (ev_opcode event)) (ev_b event) (ev_c event)).
  { pose proof (eo_a _ He) as Ea. destruct Ho as [E | [E | E]]; rewrite E in Ea |- *; cbn in Ea |- *; congruence. }
  rewrite <- Ea in Epop. unfold BitwiseChip.event_to_row. rewrite Epop. cbn [bind].
  destruct (ALUTypeReader.populate rec) as [ad ev3], (CPUState.populate _ _) as [st ev2].
  cbn [fst] in Hops. destruct Hops as (Eb & Ec & E0).
  eexists. split; [reflexivity|]. unfold chip_complete, BitwiseChip.eval.
  destruct (imm_consts_ok [Fof_bool (opcode_eqb (ev_opcode event) XOR); Fof_bool (opcode_eqb (ev_opcode event) OR);
      Fof_bool (opcode_eqb (ev_opcode event) AND)] BitwiseChip.opcodes (ALUTypeReader.imm_c ad)) as [cs Ecs];
    [repeat (apply Forall_cons; [repeat split; eexists; reflexivity|]); apply Forall_nil | discriminate |].
  unfold BitwiseChip.flags.
  cbn [fst snd BitwiseChip.adapter BitwiseChip.bitwise_operation BitwiseChip.state BitwiseChip.adapter_cols
       BitwiseChip.is_xor BitwiseChip.is_or BitwiseChip.is_and].
  rewrite Ecs, Eb, Ec, E0. cbn [bind].
  assert (Hone : (Fof_bool (opcode_eqb (ev_opcode event) XOR) + Fof_bool (opcode_eqb (ev_opcode event) OR) +
    Fof_bool (opcode_eqb (ev_opcode event) AND))%F = F1)
    by (destruct Ho as [-> | [-> | ->]]; opcode_compute; cbn [Fof_bool]; ring).
  assert (Hb : weighted [Fof_bool (opcode_eqb (ev_opcode event) XOR); Fof_bool (opcode_eqb (ev_opcode event) OR);
      Fof_bool (opcode_eqb (ev_opcode event) AND)] (map byte_opcode_num [BXOR; BOR; BAND])
      = byte_op (bitwise_opcode (ev_opcode event)))
    by (unfold weighted, byte_op; destruct Ho as [-> | [-> | ->]]; opcode_compute;
        cbn [Fof_bool map combine fold_left fst snd bitwise_opcode]; ring).
  rewrite Hone, Hb. destruct (BitwiseU16Operation.eval_bitwise_u16 _ _ _ _ _) as [em w]. cbn [fst] in Hop.
  eexists. split; [reflexivity|]. apply (complete_perm _ (ev1 ++ ev2 ++ ev3)).
  { rewrite (Permutation_app_comm ev3), app_assoc. reflexivity. }
  apply complete_app; [|apply Hf].
  do 3 (apply complete_asserts_app; [apply complete_bool, Fof_bool_is_bool|]).
  apply complete_asserts_app; [apply bool_1|].
  apply complete_asserts_app; [apply complete_zero; reflexivity | exact Hop].
Qed.

Lemma lt_chip_completes (rec : ALUTypeRecord) :
  (ev_opcode event = SLT \/ ev_opcode event = SLTU) -> alu_record_ok event rec ->
  exists r, LtChip.event_to_row user event rec = Ok r /\ chip_complete (LtChip.eval rrs cfg) r.
Proof.
  intros Ho Hr. pose proof (alu_populate_operands event rec Hr) as Hops.
  pose proof (fun op cs v => alu_frame_complete rec op cs v Hr) as Hf.
  destruct (lt_signed_complete _ _ (opcode_eqb (ev_opcode event) SLT) (eo_b _ He) (eo_c _ He))
    as (op & ev1 & Epop & Hop).
  assert (Ea : ev_a event = if lt_spec (opcode_eqb (ev_opcode event) SLT) (ev_b event) (ev_c event) then 1 else 0).
  { pose proof (eo_a _ He) as Ea. destruct Ho as [E | E]; rewrite E in Ea |- *; opcode_compute; cbn in Ea |- *; congruence. }
  rewrite <- Ea in Epop. unfold LtChip.event_to_row. rewrite Epop. cbn [bind].
  destruct (ALUTypeReader.populate rec) as [ad ev3], (CPUState.populate _ _) as [st ev2].
  cbn [fst] in Hops. destruct Hops as (Eb & Ec & E0).
  eexists. split; [reflexivity|]. unfold chip_complete, LtChip.eval.
  destruct (imm_consts_ok [Fof_bool (opcode_eqb (ev_opcode event) SLT); Fof_bool (opcode_eqb (ev_opcode event) SLTU)]
      LtChip.opcodes (ALUTypeReader.imm_c ad)) as [cs Ecs];
    [repeat (apply Forall_cons; [repeat split; eexists; reflexivity|]); apply Forall_nil | discriminate |].
  unfold LtChip.flags.
  cbn [fst snd LtChip.adapter LtChip.lt_operation LtChip.state LtChip.adapter_cols LtChip.is_slt LtChip.is_sltu].
  rewrite Ecs, Eb, Ec, E0. cbn [bind].
  assert (Hone : (Fof_bool (opcode_eqb (ev_opcode event) SLT) + Fof_bool (opcode_eqb (ev_opcode event) SLTU))%F = F1)
    by (destruct Ho as [-> | ->]; opcode_compute; cbn [Fof_bool]; ring).
  rewrite Hone. eexists. split; [reflexivity|]. apply (complete_perm _ (ev1 ++ ev2 ++ ev3)).
  { rewrite (Permutation_app_comm ev3), app_assoc. reflexivity. }
  apply complete_app; [|apply Hf].
  do 2 (apply complete_asserts_app; [apply complete_bool, Fof_bool_is_bool|]).
  apply complete_asserts_app; [apply bool_1|].
  apply complete_asserts_app; [apply complete_zero; reflexivity | exact Hop].
Qed.
End Complete.
