(* ===== verification/Address.v ===== *)
(** * Memory addresses and memory accesses

    [AddrAddOperation] and [AddressOperation]
    ([crates/core/machine/src/operations]): the address of a memory
    instruction, checked to be above the registers and below [2^48], and the
    address of the doubleword it is in.  Then the memory accesses of
    [air/memory.rs] on the bus: what one access of a memory chip is. *)

From Stdlib Require Import ZArith Lia List Bool.
From S2P Require Import Prelude Words Isa Field Air AirFacts SmallInverse Operations Mul.
From S2P Require Import Adapter AdapterFacts Row Readers.
Import ListNotations.
Open Scope Z_scope.

(** ** [AddrAddOperation] ([operations/addrs_add.rs]) *)
Module AddrAddOperation.
Record Cols : Type := mkCols { value0 : F; value1 : F; value2 : F }.

Definition value (cols : Cols) : list F := [value0 cols; value1 cols; value2 cols].

Definition populate (a_u64 b_u64 : Z) : Res (Cols * list ByteLookupEvent * Z) :=
  let expected := wrapping_add a_u64 b_u64 in
  assert! (shr expected 48 =? 0) ;;
  Ok (mkCols (Fof (as_u16 (Z.land expected 0xFFFF))) (Fof (as_u16 (shr expected 16)))
             (Fof (as_u16 (shr expected 32))),
      add_u16_range_checks (firstn 3 (u64_to_u16_limbs expected)), expected).

Definition eval (a b : Word F) (cols : Cols) (is_real : F) : list Emit :=
  assert_bool is_real ++
  when is_real
    (carry_chain F0 (add_limbs (word_list a) (word_list b) (value cols ++ [F0]))) ++
  slice_range_check_u16 (value cols) is_real.
End AddrAddOperation.

(** ** [AddressOperation] ([operations/address.rs]) *)
Module AddressOperation.
Record Cols : Type := mkCols { addr_operation : AddrAddOperation.Cols; top_two_limb_inv : F }.

Definition populate (b c : Z) : Res (Cols * list ByteLookupEvent * Z) :=
  let memory_addr := wrapping_add b c in
  let addr_limbs := u64_to_u16_limbs memory_addr in
  let* (op, ev, _) := AddrAddOperation.populate b c in
  let* inv := small_int_inverse (nth 1 addr_limbs 0 + nth 2 addr_limbs 0) in
  Ok (mkCols op inv, ev ++ add_bit_range_check (nth 0 addr_limbs 0 / 8) 13, memory_addr).

(** The low limb of the address without its offset in the doubleword. *)
Definition aligned_limb (cols : Cols) (offset_bit0 offset_bit1 offset_bit2 : F) : F :=
  (AddrAddOperation.value0 (addr_operation cols) - Fof 4 * offset_bit2 - Fof 2 * offset_bit1 - offset_bit0)%F.

Definition eval (b c : Word F) (offset_bit0 offset_bit1 offset_bit2 is_real : F) (cols : Cols)
  : list Emit * list F :=
  let addr := addr_operation cols in
  let sum_top_two_limb := (AddrAddOperation.value1 addr + AddrAddOperation.value2 addr)%F in
  (assert_bool is_real ++
   assert_bool offset_bit0 ++
   assert_bool offset_bit1 ++
   assert_bool offset_bit2 ++
   AddrAddOperation.eval b c addr is_real ++
   assert_eq (top_two_limb_inv cols * sum_top_two_limb)%F is_real ++
   send_byte (byte_op BRange)
     (aligned_limb cols offset_bit0 offset_bit1 offset_bit2 * Finv (Fof 8))%F (Fof 13) F0 is_real,
   [aligned_limb cols offset_bit0 offset_bit1 offset_bit2; AddrAddOperation.value1 addr;
    AddrAddOperation.value2 addr]).
End AddressOperation.

(** ** Correctness of the addresses *)

Lemma quiet_addr_add (a b : Word F) (cols : AddrAddOperation.Cols) (r : F) :
  quiet (AddrAddOperation.eval a b cols r).
Proof. unfold AddrAddOperation.eval. auto with quiet. Qed.
#[export] Hint Resolve quiet_addr_add : quiet.

Lemma quiet_address (b c : Word F) (o0 o1 o2 r : F) (cols : AddressOperation.Cols) :
  quiet (fst (AddressOperation.eval b c o0 o1 o2 r cols)).
Proof. cbn [AddressOperation.eval fst]. auto 10 with quiet. Qed.
#[export] Hint Resolve quiet_address : quiet.

Lemma addr_add_sound (a b : Word F) (cols : AddrAddOperation.Cols) :
  valid_word a -> valid_word b -> sats (AddrAddOperation.eval a b cols F1) ->
  Forall is_u16F (AddrAddOperation.value cols) /\
  pc_val (AddrAddOperation.value0 cols) (AddrAddOperation.value1 cols) (AddrAddOperation.value2 cols)
  = wrapping_add (word_val a) (word_val b).
Proof.
  intros Ha Hb H. destruct cols as [v0 v1 v2]. unfold AddrAddOperation.eval in H.
  rewrite !sats_app, sats_when_1, sats_range16 in H by apply F1_neq_0. destruct H as (_ & H & Hv).
  split; [exact Hv|]. unfold AddrAddOperation.value in *.
  cbn [AddrAddOperation.value0 AddrAddOperation.value1 AddrAddOperation.value2 app] in *.
  inversion_clear Hv as [|? ? H0 Hv1]. inversion_clear Hv1 as [|? ? H1 Hv2]. inversion_clear Hv2 as [|? ? H2 _].
  change [v0; v1; v2; F0] with (word_list (mkWord v0 v1 v2 F0)) in H.
  apply add_chain_iff in H; [|assumption..|repeat split; assumption]. rewrite <- H.
  unfold pc_val, word_val. cbn [limb0 limb1 limb2 limb3]. change (Fval F0) with 0. lia.
Qed.

Lemma u16_limbs_of_addr (x : Z) :
  [as_u16 (Z.land x 0xFFFF); as_u16 (shr x 16); as_u16 (shr x 32)] = [limb16 x 0; limb16 x 1; limb16 x 2].
Proof.
  change 0xFFFF with (2 ^ 16 - 1). rewrite land_mask, !shr_div by lia. unfold as_u16, as_unsigned, limb16.
  rewrite Z.mod_mod by lia. change (2 ^ (16 * 0)) with 1. rewrite Z.div_1_r. reflexivity.
Qed.

Lemma addr_add_complete (a b : Z) :
  is_u64 a -> is_u64 b -> wrapping_add a b < 2 ^ 48 ->
  exists cols ev, AddrAddOperation.populate a b = Ok (cols, ev, wrapping_add a b) /\
    cols = AddrAddOperation.mkCols (Fof (limb16 (wrapping_add a b) 0)) (Fof (limb16 (wrapping_add a b) 1))
             (Fof (limb16 (wrapping_add a b) 2)) /\
    complete (AddrAddOperation.eval (word_from_u64 a) (word_from_u64 b) cols F1) ev.
Proof.
  intros Ha Hb Hx. unfold AddrAddOperation.populate. pose proof (wrapping_add_bound a b) as B. unfold is_u in B.
  set (x := wrapping_add a b) in *.
  replace (shr x 48 =? 0) with true by (symmetry; rewrite shr_div by lia; apply Z.eqb_eq, Z.div_small; lia).
  cbn [assertb bind]. pose proof (u16_limbs_of_addr x) as E. injection E as -> -> ->.
  eexists _, _. split; [reflexivity|]. split; [reflexivity|].
  rewrite u64_to_u16_limbs_eq. cbn [firstn].
  unfold AddrAddOperation.eval, AddrAddOperation.value.
  cbn [AddrAddOperation.value0 AddrAddOperation.value1 AddrAddOperation.value2 app].
  apply complete_asserts_app; [apply complete_bool; right; reflexivity|].
  apply complete_asserts_app;
    [|apply (complete_range16 [limb16 x 0; limb16 x 1; limb16 x 2]); repeat constructor; apply limb16_bound].
  apply complete_when_1, complete_asserts; [|apply byte_lookups_chain].
  replace [Fof (limb16 x 0); Fof (limb16 x 1); Fof (limb16 x 2); F0] with (word_list (word_from_u64 x)).
  - apply add_chain_iff; try apply valid_word_from. rewrite !word_val_from by (assumption || apply B). reflexivity.
  - rewrite word_from_u64_limbs. unfold word_list. cbn [limb0 limb1 limb2 limb3]. do 3 f_equal.
    replace (limb16 x 3) with 0; [reflexivity|]. unfold limb16. change (2 ^ (16 * 3)) with (2 ^ 48).
    rewrite Z.div_small by lia. reflexivity.
Qed.

(** The offset bits of an address. *)
Definition offset_of (o0 o1 o2 : F) : Z := 4 * Fval o2 + 2 * Fval o1 + Fval o0.

Lemma aligned_limbs (addr : Z) :
  0 <= addr < 2 ^ 48 ->
  limb16 (aligned addr) 0 = limb16 addr 0 - addr mod 8 /\ limb16 (aligned addr) 1 = limb16 addr 1 /\
  limb16 (aligned addr) 2 = limb16 addr 2.
Proof.
  intros H. rewrite aligned_eq by (unfold is_u; lia). unfold limb16.
  change (2 ^ (16 * 0)) with 1. change (2 ^ (16 * 1)) with (2 ^ 16). change (2 ^ (16 * 2)) with (2 ^ 32).
  rewrite !Z.div_1_r. dlia.
Qed.

Lemma limbs_of_pc_val (v0 v1 v2 : F) :
  is_u16F v0 -> is_u16F v1 -> is_u16F v2 ->
  let x := pc_val v0 v1 v2 in
  0 <= x < 2 ^ 48 /\ limb16 x 0 = Fval v0 /\ limb16 x 1 = Fval v1 /\ limb16 x 2 = Fval v2.
Proof.
  unfold is_u16F, pc_val, limb16. intros H0 H1 H2. cbv zeta.
  pose proof (Fval_bound v0). pose proof (Fval_bound v1). pose proof (Fval_bound v2).
  change (2 ^ (16 * 0)) with 1. change (2 ^ (16 * 1)) with (2 ^ 16). change (2 ^ (16 * 2)) with (2 ^ 32).
  rewrite !Z.div_1_r. dlia.
Qed.

Lemma address_sound (b c : Word F) (o0 o1 o2 : F) (cols : AddressOperation.Cols) :
  valid_word b -> valid_word c -> sats (fst (AddressOperation.eval b c o0 o1 o2 F1 cols)) ->
  let addr := wrapping_add (word_val b) (word_val c) in
  memory_address addr /\ is_bool o0 /\ is_bool o1 /\ is_bool o2 /\ addr mod 8 = offset_of o0 o1 o2 /\
  snd (AddressOperation.eval b c o0 o1 o2 F1 cols)
  = [Fof (limb16 (aligned addr) 0); Fof (limb16 (aligned addr) 1); Fof (limb16 (aligned addr) 2)].
Proof.
  intros Vb Vc H. cbn [AddressOperation.eval fst snd] in *. rewrite !sats_app, !sats_bool, sats_eq in H.
  destruct H as (_ & B0 & B1 & B2 & Ha & Hinv & Hr & _).
  destruct cols as [ao inv]. cbn [AddressOperation.addr_operation AddressOperation.top_two_limb_inv] in *.
  apply addr_add_sound in Ha as [Hv Ea]; [|assumption..].
  destruct ao as [v0 v1 v2]. unfold AddrAddOperation.value, AddressOperation.aligned_limb in *.
  cbn [AddrAddOperation.value0 AddrAddOperation.value1 AddrAddOperation.value2
       AddressOperation.addr_operation] in *.
  inversion_clear Hv as [|? ? U0 Hv1]. inversion_clear Hv1 as [|? ? U1 Hv2]. inversion_clear Hv2 as [|? ? U2 _].
  destruct (limbs_of_pc_val v0 v1 v2 U0 U1 U2) as (Bx & L0 & L1 & L2). rewrite Ea in Bx, L0, L1, L2.
  cbv zeta. set (addr := wrapping_add (word_val b) (word_val c)) in *.
  specialize (Hr F1_neq_0). cbn [values] in Hr. apply lookup_range in Hr; [|lia].
  set (q := ((v0 - Fof 4 * o2 - Fof 2 * o1 - o0) * Finv (Fof 8))%F) in Hr.
  assert (Eq : (v0 - Fof 4 * o2 - Fof 2 * o1 - o0)%F = (q * Fof 8)%F)
    by (apply Fmul_inv_eq; [apply Fof_neq_0; unfold KOALA_BEAR_ORDER; lia | reflexivity]).
  clearbody q.
  assert (Hq : Fval v0 - offset_of o0 o1 o2 = 8 * Fval q /\ 0 <= offset_of o0 o1 o2 < 8).
  { unfold offset_of. pose proof (is_bool_val _ B0). pose proof (is_bool_val _ B1). pose proof (is_bool_val _ B2).
    clear Ea L0 L1 L2 Bx. to_Z Eq. lia. }
  destruct Hq as [Hq Ho].
  assert (Em : addr mod 8 = offset_of o0 o1 o2).
  { rewrite <- L0 in Hq. unfold limb16 in Hq. change (2 ^ (16 * 0)) with 1 in Hq. rewrite Z.div_1_r in Hq. dlia. }
  destruct (aligned_limbs addr Bx) as (A0 & A1 & A2).
  split; [|repeat (split; [assumption|])].
  - split; [|lia]. destruct (Z.le_gt_cases (2 ^ 16) addr) as [|Hlt]; [assumption|exfalso].
    assert (Z1 : v1 = F0) by (apply Fval_inj; rewrite <- L1; unfold limb16; change (Fval F0) with 0;
      change (2 ^ (16 * 1)) with (2 ^ 16); rewrite Z.div_small by lia; reflexivity).
    assert (Z2 : v2 = F0) by (apply Fval_inj; rewrite <- L2; unfold limb16; change (Fval F0) with 0;
      change (2 ^ (16 * 2)) with (2 ^ 32); rewrite Z.div_small by lia; reflexivity).
    apply F1_neq_0. rewrite <- Hinv, Z1, Z2. ring.
  - rewrite A0, A1, A2, L0, L1, L2, !Fof_val, Em, Eq. f_equal. rewrite Hq. apply (Rep_eq _ _). lia.
Qed.

(** The bits of an offset, as the trace generation takes them from an address. *)
Definition addr_bit (addr i : Z) : Z := as_u16 (Z.land (shr addr i) 1).

Lemma addr_bit_eq (addr i : Z) : 0 <= i -> addr_bit addr i = addr / 2 ^ i mod 2.
Proof.
  intros Hi. unfold addr_bit. change 1 with (2 ^ 1 - 1). rewrite land_mask, shr_div by lia.
  unfold as_u16, as_unsigned. apply Z.mod_small. dlia.
Qed.

Lemma addr_bit_bool (addr i : Z) : 0 <= i -> addr_bit addr i = 0 \/ addr_bit addr i = 1.
Proof. intros Hi. rewrite addr_bit_eq by assumption. dlia. Qed.

Lemma offset_bits (addr : Z) :
  0 <= addr -> addr mod 8 = 4 * addr_bit addr 2 + 2 * addr_bit addr 1 + addr_bit addr 0.
Proof.
  intros H. rewrite !addr_bit_eq by lia. change (2 ^ 2) with 4. change (2 ^ 1) with 2. change (2 ^ 0) with 1.
  rewrite Z.div_1_r. dlia.
Qed.

Lemma bit_is_bool (z : Z) : z = 0 \/ z = 1 -> is_bool (Fof z).
Proof. intros [-> | ->]; [left | right]; reflexivity. Qed.

(** Completeness, for offset columns [o0 o1 o2] that hold the offset. *)
Lemma address_complete (b c : Z) (o0 o1 o2 : F) :
  is_u64 b -> is_u64 c -> memory_address (wrapping_add b c) ->
  is_bool o0 -> is_bool o1 -> is_bool o2 -> offset_of o0 o1 o2 = wrapping_add b c mod 8 ->
  exists cols ev, AddressOperation.populate b c = Ok (cols, ev, wrapping_add b c) /\
    complete (fst (AddressOperation.eval (word_from_u64 b) (word_from_u64 c) o0 o1 o2 F1 cols)) ev.
Proof.
  intros Hb Hc [Hlo Hhi] B0 B1 B2 Ho. unfold AddressOperation.populate.
  destruct (addr_add_complete b c Hb Hc Hhi) as (op & ev & -> & Eop & Hop). cbn [bind].
  set (x := wrapping_add b c) in *. rewrite u64_to_u16_limbs_eq. cbn [nth].
  assert (Hs : 0 < limb16 x 1 + limb16 x 2 < KOALA_BEAR_ORDER).
  { pose proof (limb16_bound x 1). pose proof (limb16_bound x 2). split; [|unfold KOALA_BEAR_ORDER; lia].
    unfold limb16 in *. change (2 ^ (16 * 1)) with (2 ^ 16) in *. change (2 ^ (16 * 2)) with (2 ^ 32) in *. dlia. }
  unfold small_int_inverse. rewrite small_int_inverse_in_spec by exact Hs. cbn [bind].
  eexists _, _. split; [reflexivity|]. cbn [AddressOperation.eval fst].
  cbn [AddressOperation.addr_operation AddressOperation.top_two_limb_inv].
  do 4 (apply complete_asserts_app; [apply complete_bool; solve [assumption | right; reflexivity]|]).
  apply complete_app; [exact Hop|]. subst op.
  unfold AddressOperation.aligned_limb.
  cbn [AddressOperation.addr_operation AddrAddOperation.value0 AddrAddOperation.value1 AddrAddOperation.value2].
  apply complete_asserts_app.
  - apply complete_eq. rewrite Fof_add. apply Finv_l, Fof_neq_0, Hs.
  - pose proof (limb16_bound x 0) as L0.
    assert (E0 : limb16 x 0 mod 8 = offset_of o0 o1 o2).
    { rewrite Ho. unfold limb16. change (2 ^ (16 * 0)) with 1. rewrite Z.div_1_r. dlia. }
    apply complete_range; [|lia | dlia].
    apply Finv_mul_solve; [apply Fof_neq_0; unfold KOALA_BEAR_ORDER; lia|].
    apply (Rep_eq _ _). unfold offset_of in E0. dlia.
Qed.

Lemma address_top (b c : Word F) (o0 o1 o2 : F) (cols : AddressOperation.Cols) :
  sats (fst (AddressOperation.eval b c o0 o1 o2 F1 cols)) ->
  (AddrAddOperation.value1 (AddressOperation.addr_operation cols)
   + AddrAddOperation.value2 (AddressOperation.addr_operation cols))%F <> F0.
Proof.
  cbn [AddressOperation.eval fst]. rewrite !sats_app, sats_eq. intros (_ & _ & _ & _ & _ & E & _) H0.
  rewrite H0 in E. apply F1_neq_0. rewrite <- E. ring.
Qed.

(** ** Memory accesses on the bus *)

Definition mem_sent_record (addr : list F) (acc : MemoryAccess.Cols) : list F :=
  MemoryAccessTimestamp.prev_high (MemoryAccess.access_timestamp acc) ::
  MemoryAccessTimestamp.prev_low (MemoryAccess.access_timestamp acc) ::
  addr ++ word_list (MemoryAccess.prev_value acc).
Definition mem_received_record (h l : F) (addr : list F) (w : Word F) : list F :=
  h :: l :: addr ++ word_list w.

Lemma quiet_memory_timestamp (ts : MemoryAccessTimestamp.Cols) (c h l : F) :
  quiet (MemoryAccessTimestamp.eval ts c h l).
Proof. unfold MemoryAccessTimestamp.eval. auto 10 with quiet. Qed.
#[export] Hint Resolve quiet_memory_timestamp : quiet.

Lemma mem_write_messages (h l : F) (addr : list F) (acc : MemoryAccess.Cols) (w : Word F) :
  sends KMemory (MemoryAccess.eval_write h l addr acc w F1) = [mem_sent_record addr acc] /\
  receives KMemory (MemoryAccess.eval_write h l addr acc w F1) = [mem_received_record h l addr w].
Proof.
  unfold MemoryAccess.eval_write. rewrite !sends_app, !receives_app.
  destruct (quiet_memory_timestamp (MemoryAccess.access_timestamp acc) F1 h l KMemory) as [-> ->]; [discriminate|].
  unfold sends, receives, send_memory, receive_memory, live.
  cbn [flat_map app assert_bool kind kind_num Z.eqb Pos.eqb multiplicity values andb].
  rewrite (Feqb_neq F1 F0 F1_neq_0). split; reflexivity.
Qed.

Lemma silent_mem_write (k : InteractionKind) (h l : F) (addr : list F) (acc : MemoryAccess.Cols) (w : Word F) (c : F) :
  k <> KByte -> k <> KMemory -> silent k (MemoryAccess.eval_write h l addr acc w c).
Proof. intros H1 H2. destruct k; try contradiction; split; reflexivity. Qed.

Lemma stateless_mem_write (h l : F) (addr : list F) (acc : MemoryAccess.Cols) (w : Word F) (c : F) :
  stateless (MemoryAccess.eval_write h l addr acc w c).
Proof. repeat split; apply silent_mem_write; discriminate. Qed.
#[export] Hint Resolve stateless_mem_write : quiet.

(** One access, at [clk + 1], to an address whose two top limbs are not both
    zero. *)
Section Access.
Context (h l a0 a1 a2 : F) (acc : MemoryAccess.Cols) (w : Word F).
Context (Hnz : (a1 + a2)%F <> F0) (Hh : Fval h < 2 ^ 24) (Hl : Fval l + 4 < 2 ^ 24).
Context (Hs : sats (MemoryAccess.eval_write h (l + Fof 1)%F [a0; a1; a2] acc w F1)).

Lemma mem_clk : Fval (l + Fof 1) = Fval l + 1.
Proof. apply Fval_rep; [exact _ | F_lia]. Qed.

Lemma mem_not_register (t u : F) (v : Word F) : is_register (t :: u :: [a0; a1; a2] ++ word_list v) = false.
Proof.
  cbn [app is_register]. destruct (Feqb _ F0 && Feqb _ F0) eqn:E; [exfalso | reflexivity].
  apply andb_prop in E as [E1 E2]. apply Feqb_eq in E1, E2. apply Hnz. rewrite E1, E2. ring.
Qed.

Lemma mem_bus_access :
  bus_access (mem_sent_record [a0; a1; a2] acc) (mem_received_record h (l + Fof 1)%F [a0; a1; a2] w) /\
  record_key (mem_received_record h (l + Fof 1)%F [a0; a1; a2] w) = 2 * (timestamp h l + 1) + 5.
Proof.
  pose proof Hs as H. unfold MemoryAccess.eval_write in H. rewrite !sats_app in H. destruct H as (_ & H & _).
  unfold mem_sent_record, mem_received_record. split.
  - split; cbn [app length word_list firstn skipn canonical_ts record_ts]; auto.
    + rewrite mem_clk. lia.
    + intros [Hp1 Hp2]. apply (mem_timestamp_sound _ _ _ H); [assumption.. | rewrite mem_clk; lia].
  - unfold record_key. rewrite mem_not_register. cbn [record_ts]. unfold timestamp. rewrite mem_clk. lia.
Qed.

(** The access as one of the executor, when the limbs are those of the
    doubleword of a memory address. *)
Context (addr : Z) (Haddr : memory_address addr).
Context (Ea : [a0; a1; a2] = [Fof (limb16 (aligned addr) 0); Fof (limb16 (aligned addr) 1); Fof (limb16 (aligned addr) 2)]).

Lemma mem_addr_message (t u : F) (v : Word F) :
  mem_message (t :: u :: [a0; a1; a2] ++ word_list v) = [mkMem (timestamp t u) (aligned addr) (word_val v)].
Proof.
  destruct v as [v0 v1 v2 v3]. rewrite Ea. cbn [app word_list limb0 limb1 limb2 limb3 mem_message].
  assert (B : 0 <= aligned addr < 2 ^ 48)
    by (destruct Haddr; rewrite aligned_eq by (unfold is_u; lia); dlia).
  pose proof (pc_val_limbs (aligned addr) B) as E. unfold pc_val in E. rewrite E. reflexivity.
Qed.

Lemma mem_access_run :
  canonical_mem (mem_sent_record [a0; a1; a2] acc) ->
  (exists tm, accesses (MemoryAccess.eval_write h (l + Fof 1)%F [a0; a1; a2] acc w F1)
     = [memory_access addr (timestamp h l) tm (word_val (MemoryAccess.prev_value acc)) (word_val w)]) /\
  Forall increasing (accesses (MemoryAccess.eval_write h (l + Fof 1)%F [a0; a1; a2] acc w F1)) /\
  valid_word (MemoryAccess.prev_value acc) /\
  (valid_word w -> canonical_mem (mem_received_record h (l + Fof 1)%F [a0; a1; a2] w)).
Proof.
  intros Hc. destruct mem_bus_access as [[_ _ _ Hlater] _]. apply canonical_mem_parts in Hc as [Hts Hv].
  specialize (Hlater Hts). unfold accesses. destruct (mem_write_messages h (l + Fof 1)%F [a0; a1; a2] acc w) as [-> ->].
  cbn [flat_map]. unfold mem_sent_record, mem_received_record in *. rewrite !mem_addr_message. cbn [app combine].
  assert (Ec : timestamp h (l + Fof 1)%F = timestamp h l + 1) by (unfold timestamp; rewrite mem_clk; lia).
  split; [eexists; unfold memory_access; rewrite Ec; reflexivity|].
  split; [constructor; [exact Hlater | constructor]|]. split; [exact Hv|].
  intros Vw. apply canonical_mem_parts. split; [split; [exact Hh | rewrite mem_clk; lia] | exact Vw].
Qed.
End Access.

Lemma mem_access_complete (clk : Z) (r : MemoryRecordEnum) :
  clk_ok clk -> access_at clk 1 r ->
  exists cols ev, MemoryAccess.populate r = Ok (cols, ev) /\
    MemoryAccess.prev_value cols = word_from_u64 (mr_value (previous_record r)) /\
    forall addr w,
      complete (MemoryAccess.eval_write (Fof (ts_high clk)) (Fof (ts_low clk) + Fof 1)%F addr cols w F1) ev.
Proof.
  intros [Hc H8] [Et Hp]. unfold MemoryAccess.populate.
  assert (Hc' : clk + 1 < 2 ^ 48) by (change (2 ^ 48) with (8 * 2 ^ 45) in *; dlia).
  assert (Hl : (clk + 1) mod 2 ^ 24 = clk mod 2 ^ 24 + 1) by (change (2 ^ 24) with (8 * 2 ^ 21); dlia).
  assert (Hh : (clk + 1) / 2 ^ 24 = clk / 2 ^ 24) by (change (2 ^ 24) with (8 * 2 ^ 21); dlia).
  pose proof (mem_timestamp_complete (mr_timestamp (previous_record r)) (clk + 1)) as H.
  rewrite Et. destruct (MemoryAccessTimestamp.populate_timestamp _ _) as [[ts ev]|];
    [|destruct H; lia]. cbn [bind fst snd].
  eexists _, _. split; [reflexivity|]. split; [reflexivity|]. intros addr w.
  unfold MemoryAccess.eval_write. cbn [MemoryAccess.access_timestamp MemoryAccess.prev_value].
  apply complete_asserts_app; [apply complete_bool; right; reflexivity|].
  apply complete_nil_r; [|split; [cbn; auto | reflexivity]].
  rewrite !ts_low_mod, !ts_high_div, Hl, Hh in * by lia. rewrite Fof_add. apply H; lia.
Qed.
