(* ===== verification/MemoryChips.v ===== *)
(** * The memory instruction chips

    [crates/core/machine/src/memory/instructions]: the five load chips and the
    four store chips.  A row computes the address of the access, reads or
    writes the doubleword the address is in at [clk + 1], and relates the limbs
    of that doubleword to the register the instruction names.  In user mode it
    also requests the permission of the page. *)

From Stdlib Require Import ZArith Lia List Bool.
From S2P Require Import Prelude Words Isa Field Air AirFacts SmallInverse Operations.
From S2P Require Import Adapter AdapterFacts Row Readers AluChips Address.
Import ListNotations.
Open Scope Z_scope.

(** ** Events ([executor/src/events/instr.rs], [memory.rs]) *)
Record MemInstrEvent : Set := mkMemInstrEvent {
  me_clk : Z; me_pc : Z; me_opcode : Opcode; me_a : Z; me_b : Z; me_c : Z; me_op_a_0 : bool;
  me_mem_access : MemoryRecordEnum
}.

Definition record_value (r : MemoryRecordEnum) : Z := mr_value (current_record r).
Definition record_prev_value (r : MemoryRecordEnum) : Z := mr_value (previous_record r).

(** [limb.to_le_bytes()]. *)
Definition u16_to_le_bytes (limb : Z) : list Z := le_bytes 2 limb.

(** The instruction field constants of a chip whose opcodes have [funct3] and
    possibly no [funct7]. *)
Definition flag_consts (rrs : MajorOpcodes) (flags : list F) (os : list Opcode) : Res (list F) :=
  let* f3 := mapM (fun o => of_option (funct3 o)) os in
  let f7 := map (fun o => unwrap_or (funct7 o) 0) os in
  let* b := mapM (base_of rrs) os in
  let* t := mapM type_of os in
  Ok [weighted flags t; weighted flags b; weighted flags f3; weighted flags f7].

Definition sum_flags (flags : list F) : F :=
  match flags with [] => F0 | x :: rest => fold_left Fadd rest x end.

(** The selection of the limb an offset points into. *)
Definition select_limb (offset1 offset2 limb : F) (w : Word F) : list Emit :=
  when_not offset1 (when_not offset2 (assert_eq limb (limb0 w))) ++
  when offset1 (when_not offset2 (assert_eq limb (limb1 w))) ++
  when_not offset1 (when offset2 (assert_eq limb (limb2 w))) ++
  when offset1 (when offset2 (assert_eq limb (limb3 w))).

(** ** [LoadByteChip] ([load/load_byte.rs]) *)
Module LoadByteChip.
Record Cols : Type := mkCols {
  state : CPUState.Cols;
  adapter : ITypeReader.Cols;
  address_operation : AddressOperation.Cols;
  memory_access : MemoryAccess.Cols;
  offset_bit0 : F;
  offset_bit1 : F;
  offset_bit2 : F;
  selected_limb : F;
  selected_limb_low_byte : F;
  selected_byte : F;
  msb : F;
  is_lb : F;
  is_lbu : F;
  adapter_cols : AdapterCols
}.

Definition flags (local : Cols) : list F := [is_lb local; is_lbu local].
Definition opcodes : list Opcode := [LB; LBU].

Definition event_to_row (user : bool) (event : MemInstrEvent) (record : ITypeRecord)
  : Res (Cols * list ByteLookupEvent) :=
  let* (acc, ev1) := MemoryAccess.populate (me_mem_access event) in
  let* (addr, ev2, memory_addr) := AddressOperation.populate (me_b event) (me_c event) in
  let bit0 := as_u16 (Z.land memory_addr 1) in
  let bit1 := as_u16 (Z.land (shr memory_addr 1) 1) in
  let bit2 := as_u16 (Z.land (shr memory_addr 2) 1) in
  let limb_number := 2 * bit2 + bit1 in
  let limb := nth (Z.to_nat limb_number) (u64_to_u16_limbs (record_value (me_mem_access event))) 0 in
  let byte := nth (Z.to_nat bit0) (u16_to_le_bytes limb) 0 in
  let is_lb := opcode_eqb (me_opcode event) LB in
  let ev3 := add_u8_range_checks (u16_to_le_bytes limb) in
  let ev4 := if is_lb then [mkByteLookupEvent BMSB (shr byte 7) byte 0] else [] in
  let '(st, ev5) := CPUState.populate (me_clk event) (me_pc event) in
  let '(ad, ev6) := ITypeReader.populate record in
  Ok (mkCols st ad addr acc (Fof bit0) (Fof bit1) (Fof bit2) (Fof limb) (Fof (Z.land limb 0xFF)) (Fof byte)
        (if is_lb then Fof (shr byte 7) else F0) (Fof_bool is_lb) (Fof_bool (negb is_lb))
        (trust_cols user (it_is_untrusted record)),
      ev1 ++ ev2 ++ ev3 ++ ev4 ++ ev5 ++ ev6).

Definition eval (rrs : MajorOpcodes) (cfg : Config) (local : Cols) : Res (list Emit) :=
  let clk_high := CPUState.clk_high (state local) in
  let clk_low := CPUState.clk_low (state local) in
  let opcode := weighted (flags local) (map opcode_num opcodes) in
  let* consts := flag_consts rrs (flags local) opcodes in
  let is_real := sum_flags (flags local) in
  let '(addr_emits, aligned_addr) :=
    AddressOperation.eval (ITypeReader.b (adapter local)) (ITypeReader.c (adapter local))
      (offset_bit0 local) (offset_bit1 local) (offset_bit2 local) is_real (address_operation local) in
  let byte0 := selected_limb_low_byte local in
  let byte1 := ((selected_limb local - byte0) * Finv (Fof (2 ^ 8)))%F in
  let top := (Fof (2 ^ 16 - 1) * msb local)%F in
  let value := mkWord (selected_byte local + Fof (2 ^ 16 - 2 ^ 8) * msb local)%F top top top in
  Ok (((assert_bool (is_lb local) ++ assert_bool (is_lbu local) ++ assert_bool is_real ++
        addr_emits) ++
       MemoryAccess.eval_read clk_high (clk_low + Fof (position_num PMemory))%F aligned_addr
         (memory_access local) is_real ++
       (assert_zero (ITypeReader.op_a_0 (adapter local)) ++
        select_limb (offset_bit1 local) (offset_bit2 local) (selected_limb local)
          (MemoryAccess.prev_value (memory_access local)) ++
        slice_range_check_u8 [byte0; byte1] is_real ++
        assert_eq (selected_byte local) (offset_bit0 local * byte1 + (F1 - offset_bit0 local) * byte0)%F ++
        when (is_lbu local) (assert_zero (msb local)) ++
        send_byte (byte_op BMSB) (msb local) (selected_byte local) F0 (is_lb local))) ++
      frame cfg (adapter_cols local) (state local) (adapter local) opcode consts value (pc_inc (state local))
        (page_prot_request (adapter_cols local) clk_high (clk_low + Fof (position_num PMemory))%F aligned_addr
           (Fof (PROT_READ (segment_flags cfg))) is_real) is_real).
End LoadByteChip.

(** ** [LoadHalfChip] ([load/load_half.rs])

    The trace generation's [debug_assert!] that the address is even is not
    part of a release build. *)
Module LoadHalfChip.
Record Cols : Type := mkCols {
  state : CPUState.Cols;
  adapter : ITypeReader.Cols;
  address_operation : AddressOperation.Cols;
  memory_access : MemoryAccess.Cols;
  offset_bit0 : F;
  offset_bit1 : F;
  selected_half : F;
  msb : U16MSBOperation.Cols;
  is_lh : F;
  is_lhu : F;
  adapter_cols : AdapterCols
}.

Definition flags (local : Cols) : list F := [is_lh local; is_lhu local].
Definition opcodes : list Opcode := [LH; LHU].

Definition event_to_row (user : bool) (event : MemInstrEvent) (record : ITypeRecord)
  : Res (Cols * list ByteLookupEvent) :=
  let* (acc, ev1) := MemoryAccess.populate (me_mem_access event) in
  let* (addr, ev2, memory_addr) := AddressOperation.populate (me_b event) (me_c event) in
  let bit_1 := as_u16 (Z.land (shr memory_addr 1) 1) in
  let bit_2 := as_u16 (Z.land (shr memory_addr 2) 1) in
  let limb_number := 2 * bit_2 + bit_1 in
  let limb := nth (Z.to_nat limb_number) (u64_to_u16_limbs (record_value (me_mem_access event))) 0 in
  let is_lh := opcode_eqb (me_opcode event) LH in
  let '(m, ev3) := if is_lh then fst (U16MSBOperation.populate_msb limb) else (U16MSBOperation.mkCols F0, []) in
  let '(st, ev4) := CPUState.populate (me_clk event) (me_pc event) in
  let '(ad, ev5) := ITypeReader.populate record in
  Ok (mkCols st ad addr acc (Fof bit_1) (Fof bit_2) (Fof limb) m (Fof_bool is_lh) (Fof_bool (negb is_lh))
        (trust_cols user (it_is_untrusted record)),
      ev1 ++ ev2 ++ ev3 ++ ev4 ++ ev5).

Definition eval (rrs : MajorOpcodes) (cfg : Config) (local : Cols) : Res (list Emit) :=
  let clk_high := CPUState.clk_high (state local) in
  let clk_low := CPUState.clk_low (state local) in
  let opcode := weighted (flags local) (map opcode_num opcodes) in
  let* consts := flag_consts rrs (flags local) opcodes in
  let is_real := sum_flags (flags local) in
  let '(addr_emits, aligned_addr) :=
    AddressOperation.eval (ITypeReader.b (adapter local)) (ITypeReader.c (adapter local))
      F0 (offset_bit0 local) (offset_bit1 local) is_real (address_operation local) in
  let top := (Fof (2 ^ 16 - 1) * U16MSBOperation.msb (msb local))%F in
  Ok (((assert_bool (is_lh local) ++ assert_bool (is_lhu local) ++ assert_bool is_real ++
        addr_emits) ++
       MemoryAccess.eval_read clk_high (clk_low + Fof (position_num PMemory))%F aligned_addr
         (memory_access local) is_real ++
       (assert_zero (ITypeReader.op_a_0 (adapter local)) ++
        select_limb (offset_bit0 local) (offset_bit1 local) (selected_half local)
          (MemoryAccess.prev_value (memory_access local)) ++
        when (is_lhu local) (assert_zero (U16MSBOperation.msb (msb local))) ++
        U16MSBOperation.eval_msb (selected_half local) (msb local) (is_lh local))) ++
      frame cfg (adapter_cols local) (state local) (adapter local) opcode consts
        (mkWord (selected_half local) top top top) (pc_inc (state local))
        (page_prot_request (adapter_cols local) clk_high (clk_low + Fof (position_num PMemory))%F aligned_addr
           (Fof (PROT_READ (segment_flags cfg))) is_real) is_real).
End LoadHalfChip.

(** ** [LoadWordChip] ([load/load_word.rs]) *)
Module LoadWordChip.
Record Cols : Type := mkCols {
  state : CPUState.Cols;
  adapter : ITypeReader.Cols;
  address_operation : AddressOperation.Cols;
  memory_access : MemoryAccess.Cols;
  offset_bit : F;
  selected_word0 : F;
  selected_word1 : F;
  msb : U16MSBOperation.Cols;
  is_lw : F;
  is_lwu : F;
  adapter_cols : AdapterCols
}.

Definition flags (local : Cols) : list F := [is_lw local; is_lwu local].
Definition opcodes : list Opcode := [LW; LWU].

Definition event_to_row (user : bool) (event : MemInstrEvent) (record : ITypeRecord)
  : Res (Cols * list ByteLookupEvent) :=
  let* (acc, ev1) := MemoryAccess.populate (me_mem_access event) in
  let* (addr, ev2, memory_addr) := AddressOperation.populate (me_b event) (me_c event) in
  let bit_2 := as_u16 (Z.land (shr memory_addr 2) 1) in
  let limb_number := 2 * bit_2 in
  let limb_0 := nth (Z.to_nat limb_number) (u64_to_u16_limbs (record_value (me_mem_access event))) 0 in
  let limb_1 := nth (Z.to_nat (limb_number + 1)) (u64_to_u16_limbs (record_value (me_mem_access event))) 0 in
  let is_lw := opcode_eqb (me_opcode event) LW in
  let '(m, ev3) := if is_lw then fst (U16MSBOperation.populate_msb limb_1) else (U16MSBOperation.mkCols F0, []) in
  let '(st, ev4) := CPUState.populate (me_clk event) (me_pc event) in
  let '(ad, ev5) := ITypeReader.populate record in
  Ok (mkCols st ad addr acc (Fof bit_2) (Fof limb_0) (Fof limb_1) m (Fof_bool is_lw) (Fof_bool (negb is_lw))
        (trust_cols user (it_is_untrusted record)),
      ev1 ++ ev2 ++ ev3 ++ ev4 ++ ev5).

Definition eval (rrs : MajorOpcodes) (cfg : Config) (local : Cols) : Res (list Emit) :=
  let clk_high := CPUState.clk_high (state local) in
  let clk_low := CPUState.clk_low (state local) in
  let opcode := weighted (flags local) (map opcode_num opcodes) in
  let* consts := flag_consts rrs (flags local) opcodes in
  let is_real := sum_flags (flags local) in
  let '(addr_emits, aligned_addr) :=
    AddressOperation.eval (ITypeReader.b (adapter local)) (ITypeReader.c (adapter local))
      F0 F0 (offset_bit local) is_real (address_operation local) in
  let prev := MemoryAccess.prev_value (memory_access local) in
  let top := (Fof (2 ^ 16 - 1) * U16MSBOperation.msb (msb local))%F in
  Ok (((assert_bool (is_lw local) ++ assert_bool (is_lwu local) ++ assert_bool is_real ++
        addr_emits) ++
       MemoryAccess.eval_read clk_high (clk_low + Fof (position_num PMemory))%F aligned_addr
         (memory_access local) is_real ++
       (assert_zero (ITypeReader.op_a_0 (adapter local)) ++
        when_not (offset_bit local) (assert_eq (selected_word0 local) (limb0 prev)) ++
        when_not (offset_bit local) (assert_eq (selected_word1 local) (limb1 prev)) ++
        when (offset_bit local) (assert_eq (selected_word0 local) (limb2 prev)) ++
        when (offset_bit local) (assert_eq (selected_word1 local) (limb3 prev)) ++
        U16MSBOperation.eval_msb (selected_word1 local) (msb local) (is_lw local) ++
        when_not (is_lw local) (assert_zero (U16MSBOperation.msb (msb local))))) ++
      frame cfg (adapter_cols local) (state local) (adapter local) opcode consts
        (mkWord (selected_word0 local) (selected_word1 local) top top) (pc_inc (state local))
        (page_prot_request (adapter_cols local) clk_high (clk_low + Fof (position_num PMemory))%F aligned_addr
           (Fof (PROT_READ (segment_flags cfg))) is_real) is_real).
End LoadWordChip.

(** ** [LoadDoubleChip] ([load/load_double.rs]) *)
Module LoadDoubleChip.
Record Cols : Type := mkCols {
  state : CPUState.Cols;
  adapter : ITypeReader.Cols;
  address_operation : AddressOperation.Cols;
  memory_access : MemoryAccess.Cols;
  is_real : F;
  adapter_cols : AdapterCols
}.

Definition event_to_row (user : bool) (event : MemInstrEvent) (record : ITypeRecord)
  : Res (Cols * list ByteLookupEvent) :=
  let* (acc, ev1) := MemoryAccess.populate (me_mem_access event) in
  let* (addr, ev2, _) := AddressOperation.populate (me_b event) (me_c event) in
  let '(st, ev3) := CPUState.populate (me_clk event) (me_pc event) in
  let '(ad, ev4) := ITypeReader.populate record in
  Ok (mkCols st ad addr acc F1 (trust_cols user (it_is_untrusted record)), ev1 ++ ev2 ++ ev3 ++ ev4).

Definition eval (rrs : MajorOpcodes) (cfg : Config) (local : Cols) : Res (list Emit) :=
  let clk_high := CPUState.clk_high (state local) in
  let clk_low := CPUState.clk_low (state local) in
  let opcode := Fof (opcode_num LD) in
  let* consts := single_consts rrs LD (unwrap_or (funct7 LD) 0) in
  let '(addr_emits, aligned_addr) :=
    AddressOperation.eval (ITypeReader.b (adapter local)) (ITypeReader.c (adapter local))
      F0 F0 F0 (is_real local) (address_operation local) in
  Ok (((assert_bool (is_real local) ++ addr_emits) ++
       MemoryAccess.eval_read clk_high (clk_low + Fof (position_num PMemory))%F aligned_addr
         (memory_access local) (is_real local) ++
       assert_zero (ITypeReader.op_a_0 (adapter local))) ++
      frame cfg (adapter_cols local) (state local) (adapter local) opcode consts
        (MemoryAccess.prev_value (memory_access local)) (pc_inc (state local))
        (page_prot_request (adapter_cols local) clk_high (clk_low + Fof (position_num PMemory))%F aligned_addr
           (Fof (PROT_READ (segment_flags cfg))) (is_real local)) (is_real local)).
End LoadDoubleChip.

(** ** [LoadX0Chip] ([load/load_x0.rs]): the loads into [x0] *)
Module LoadX0Chip.
Record Cols : Type := mkCols {
  state : CPUState.Cols;
  adapter : ITypeReader.Cols;
  address_operation : AddressOperation.Cols;
  memory_access : MemoryAccess.Cols;
  offset_bit0 : F;
  offset_bit1 : F;
  offset_bit2 : F;
  is_lb : F;
  is_lbu : F;
  is_lh : F;
  is_lhu : F;
  is_lw : F;
  is_lwu : F;
  is_ld : F;
  adapter_cols : AdapterCols
}.

Definition flags (local : Cols) : list F :=
  [is_lb local; is_lbu local; is_lh local; is_lhu local; is_lw local; is_lwu local; is_ld local].
Definition opcodes : list Opcode := [LB; LBU; LH; LHU; LW; LWU; LD].

Definition event_to_row (user : bool) (event : MemInstrEvent) (record : ITypeRecord)
  : Res (Cols * list ByteLookupEvent) :=
  let* (acc, ev1) := MemoryAccess.populate (me_mem_access event) in
  let* (addr, ev2, memory_addr) := AddressOperation.populate (me_b event) (me_c event) in
  let bit0 := as_u16 (Z.land memory_addr 1) in
  let bit1 := as_u16 (Z.land (shr memory_addr 1) 1) in
  let bit2 := as_u16 (Z.land (shr memory_addr 2) 1) in
  let flag o := Fof_bool (opcode_eqb (me_opcode event) o) in
  let '(st, ev3) := CPUState.populate (me_clk event) (me_pc event) in
  let '(ad, ev4) := ITypeReader.populate record in
  Ok (mkCols st ad addr acc (Fof bit0) (Fof bit1) (Fof bit2)
        (flag LB) (flag LBU) (flag LH) (flag LHU) (flag LW) (flag LWU) (flag LD)
        (trust_cols user (it_is_untrusted record)),
      ev1 ++ ev2 ++ ev3 ++ ev4).

Definition eval (rrs : MajorOpcodes) (cfg : Config) (local : Cols) : Res (list Emit) :=
  let clk_high := CPUState.clk_high (state local) in
  let clk_low := CPUState.clk_low (state local) in
  let opcode := weighted (flags local) (map opcode_num opcodes) in
  let* consts := flag_consts rrs (flags local) opcodes in
  let is_real := sum_flags (flags local) in
  let '(addr_emits, aligned_addr) :=
    AddressOperation.eval (ITypeReader.b (adapter local)) (ITypeReader.c (adapter local))
      (offset_bit0 local) (offset_bit1 local) (offset_bit2 local) is_real (address_operation local) in
  Ok (((flat_map assert_bool (flags local) ++ assert_bool is_real ++
        addr_emits ++
        when (is_ld local) (assert_zero (offset_bit2 local)) ++
        when (is_lw local + is_lwu local + is_ld local)%F (assert_zero (offset_bit1 local)) ++
        when (is_lh local + is_lhu local + is_lw local + is_lwu local + is_ld local)%F
          (assert_zero (offset_bit0 local))) ++
       MemoryAccess.eval_read clk_high (clk_low + Fof (position_num PMemory))%F aligned_addr
         (memory_access local) is_real ++
       (when is_real (assert_one (ITypeReader.op_a_0 (adapter local))) ++
        when_not is_real (assert_zero (ITypeReader.op_a_0 (adapter local))))) ++
      (* [ITypeReaderImmutable] *)
      frame cfg (adapter_cols local) (state local) (adapter local) opcode consts
        (ITypeReader.prev_a (adapter local)) (pc_inc (state local))
        (page_prot_request (adapter_cols local) clk_high (clk_low + Fof (position_num PMemory))%F aligned_addr
           (Fof (PROT_READ (segment_flags cfg))) is_real) is_real).
End LoadX0Chip.

(** ** [StoreByteChip] ([store/store_byte.rs]) *)
Module StoreByteChip.
Record Cols : Type := mkCols {
  state : CPUState.Cols;
  adapter : ITypeReader.Cols;
  address_operation : AddressOperation.Cols;
  memory_access : MemoryAccess.Cols;
  offset_bit0 : F;
  offset_bit1 : F;
  offset_bit2 : F;
  mem_limb : F;
  mem_limb_low_byte : F;
  register_low_byte : F;
  increment : F;
  store_value : Word F;
  is_real : F;
  adapter_cols : AdapterCols
}.

Definition event_to_row (user : bool) (event : MemInstrEvent) (record : ITypeRecord)
  : Res (Cols * list ByteLookupEvent) :=
  let* (acc, ev1) := MemoryAccess.populate (me_mem_access event) in
  let* (addr, ev2, memory_addr) := AddressOperation.populate (me_b event) (me_c event) in
  let bit0 := as_u16 (Z.land memory_addr 1) in
  let bit1 := as_u16 (Z.land (shr memory_addr 1) 1) in
  let bit2 := as_u16 (Z.land (shr memory_addr 2) 1) in
  let limb_number := 2 * bit2 + bit1 in
  let limb := nth (Z.to_nat limb_number) (u64_to_u16_limbs (record_prev_value (me_mem_access event))) 0 in
  let limb_a := as_u16 (Z.land (me_a event) (2 ^ 16 - 1)) in
  let ev3 := add_u8_range_checks (u16_to_le_bytes limb) in
  let ev4 := add_u8_range_checks (u16_to_le_bytes limb_a) in
  let mem_limb := Fof limb in
  let mem_limb_low_byte := Fof (Z.land limb 0xFF) in
  let register_low_byte := Fof (Z.land (me_a event) 0xFF) in
  let increment :=
    ((register_low_byte - mem_limb_low_byte) * (F1 - Fof bit0) +
     (Fof (2 ^ 8) * register_low_byte - mem_limb + mem_limb_low_byte) * Fof bit0)%F in
  let '(st, ev5) := CPUState.populate (me_clk event) (me_pc event) in
  let '(ad, ev6) := ITypeReader.populate record in
  Ok (mkCols st ad addr acc (Fof bit0) (Fof bit1) (Fof bit2) mem_limb mem_limb_low_byte register_low_byte increment
        (word_from_u64 (record_value (me_mem_access event))) F1 (trust_cols user (it_is_untrusted record)),
      ev1 ++ ev2 ++ ev3 ++ ev4 ++ ev5 ++ ev6).

Definition eval (rrs : MajorOpcodes) (cfg : Config) (local : Cols) : Res (list Emit) :=
  let clk_high := CPUState.clk_high (state local) in
  let clk_low := CPUState.clk_low (state local) in
  let opcode := Fof (opcode_num SB) in
  let* consts := single_consts rrs SB (unwrap_or (funct7 SB) 0) in
  let '(addr_emits, aligned_addr) :=
    AddressOperation.eval (ITypeReader.b (adapter local)) (ITypeReader.c (adapter local))
      (offset_bit0 local) (offset_bit1 local) (offset_bit2 local) (is_real local) (address_operation local) in
  let prev := MemoryAccess.prev_value (memory_access local) in
  let reg_byte0 := register_low_byte local in
  let reg_byte1 := ((limb0 (ITypeReader.prev_a (adapter local)) - reg_byte0) * Finv (Fof (2 ^ 8)))%F in
  let byte0 := mem_limb_low_byte local in
  let byte1 := ((mem_limb local - byte0) * Finv (Fof (2 ^ 8)))%F in
  let o1 := offset_bit1 local in
  let o2 := offset_bit2 local in
  Ok (((assert_bool (is_real local) ++ addr_emits) ++
       MemoryAccess.eval_write clk_high (clk_low + Fof (position_num PMemory))%F aligned_addr
         (memory_access local) (store_value local) (is_real local) ++
       (select_limb o1 o2 (mem_limb local) prev ++
        slice_range_check_u8 [reg_byte0; reg_byte1] (is_real local) ++
        slice_range_check_u8 [byte0; byte1] (is_real local) ++
        assert_eq (increment local)
          ((register_low_byte local - mem_limb_low_byte local) * (F1 - offset_bit0 local) +
           Fof (2 ^ 8) * (register_low_byte local - byte1) * offset_bit0 local)%F ++
        assert_eq (limb0 (store_value local)) (increment local * (F1 - o1) * (F1 - o2) + limb0 prev)%F ++
        assert_eq (limb1 (store_value local)) (increment local * o1 * (F1 - o2) + limb1 prev)%F ++
        assert_eq (limb2 (store_value local)) (increment local * (F1 - o1) * o2 + limb2 prev)%F ++
        assert_eq (limb3 (store_value local)) (increment local * o1 * o2 + limb3 prev)%F)) ++
      frame cfg (adapter_cols local) (state local) (adapter local) opcode consts
        (ITypeReader.prev_a (adapter local)) (pc_inc (state local))
        (page_prot_request (adapter_cols local) clk_high (clk_low + Fof (position_num PMemory))%F aligned_addr
           (Fof (PROT_WRITE (segment_flags cfg))) (is_real local)) (is_real local)).
End StoreByteChip.

(** ** [StoreHalfChip] ([store/store_half.rs]) *)
Module StoreHalfChip.
Record Cols : Type := mkCols {
  state : CPUState.Cols;
  adapter : ITypeReader.Cols;
  address_operation : AddressOperation.Cols;
  memory_access : MemoryAccess.Cols;
  offset_bit0 : F;
  offset_bit1 : F;
  store_value : Word F;
  is_real : F;
  adapter_cols : AdapterCols
}.

Definition event_to_row (user : bool) (event : MemInstrEvent) (record : ITypeRecord)
  : Res (Cols * list ByteLookupEvent) :=
  let* (acc, ev1) := MemoryAccess.populate (me_mem_access event) in
  let* (addr, ev2, memory_addr) := AddressOperation.populate (me_b event) (me_c event) in
  let bit1 := as_u16 (Z.land (shr memory_addr 1) 1) in
  let bit2 := as_u16 (Z.land (shr memory_addr 2) 1) in
  let '(st, ev3) := CPUState.populate (me_clk event) (me_pc event) in
  let '(ad, ev4) := ITypeReader.populate record in
  Ok (mkCols st ad addr acc (Fof bit1) (Fof bit2) (word_from_u64 (record_value (me_mem_access event))) F1
        (trust_cols user (it_is_untrusted record)),
      ev1 ++ ev2 ++ ev3 ++ ev4).

Definition eval (rrs : MajorOpcodes) (cfg : Config) (local : Cols) : Res (list Emit) :=
  let clk_high := CPUState.clk_high (state local) in
  let clk_low := CPUState.clk_low (state local) in
  let opcode := Fof (opcode_num SH) in
  let* consts := single_consts rrs SH (unwrap_or (funct7 SH) 0) in
  let '(addr_emits, aligned_addr) :=
    AddressOperation.eval (ITypeReader.b (adapter local)) (ITypeReader.c (adapter local))
      F0 (offset_bit0 local) (offset_bit1 local) (is_real local) (address_operation local) in
  let prev := MemoryAccess.prev_value (memory_access local) in
  let store_limb := limb0 (ITypeReader.prev_a (adapter local)) in
  let o0 := offset_bit0 local in
  let o1 := offset_bit1 local in
  Ok (((assert_bool (is_real local) ++ addr_emits) ++
       MemoryAccess.eval_write clk_high (clk_low + Fof (position_num PMemory))%F aligned_addr
         (memory_access local) (store_value local) (is_real local) ++
       (assert_eq (limb0 (store_value local)) (limb0 prev + (store_limb - limb0 prev) * (F1 - o0) * (F1 - o1))%F ++
        assert_eq (limb1 (store_value local)) (limb1 prev + (store_limb - limb1 prev) * o0 * (F1 - o1))%F ++
        assert_eq (limb2 (store_value local)) (limb2 prev + (store_limb - limb2 prev) * (F1 - o0) * o1)%F ++
        assert_eq (limb3 (store_value local)) (limb3 prev + (store_limb - limb3 prev) * o0 * o1)%F)) ++
      frame cfg (adapter_cols local) (state local) (adapter local) opcode consts
        (ITypeReader.prev_a (adapter local)) (pc_inc (state local))
        (page_prot_request (adapter_cols local) clk_high (clk_low + Fof (position_num PMemory))%F aligned_addr
           (Fof (PROT_WRITE (segment_flags cfg))) (is_real local)) (is_real local)).
End StoreHalfChip.

(** ** [StoreWordChip] ([store/store_word.rs]) *)
Module StoreWordChip.
Record Cols : Type := mkCols {
  state : CPUState.Cols;
  adapter : ITypeReader.Cols;
  address_operation : AddressOperation.Cols;
  memory_access : MemoryAccess.Cols;
  offset_bit : F;
  store_value : Word F;
  is_real : F;
  adapter_cols : AdapterCols
}.

Definition event_to_row (user : bool) (event : MemInstrEvent) (record : ITypeRecord)
  : Res (Cols * list ByteLookupEvent) :=
  let* (acc, ev1) := MemoryAccess.populate (me_mem_access event) in
  let* (addr, ev2, memory_addr) := AddressOperation.populate (me_b event) (me_c event) in
  let bit := as_u16 (Z.land (shr memory_addr 2) 1) in
  let '(st, ev3) := CPUState.populate (me_clk event) (me_pc event) in
  let '(ad, ev4) := ITypeReader.populate record in
  Ok (mkCols st ad addr acc (Fof bit) (word_from_u64 (record_value (me_mem_access event))) F1
        (trust_cols user (it_is_untrusted record)),
      ev1 ++ ev2 ++ ev3 ++ ev4).

Definition eval (rrs : MajorOpcodes) (cfg : Config) (local : Cols) : Res (list Emit) :=
  let clk_high := CPUState.clk_high (state local) in
  let clk_low := CPUState.clk_low (state local) in
  let opcode := Fof (opcode_num SW) in
  let* consts := single_consts rrs SW (unwrap_or (funct7 SW) 0) in
  let '(addr_emits, aligned_addr) :=
    AddressOperation.eval (ITypeReader.b (adapter local)) (ITypeReader.c (adapter local))
      F0 F0 (offset_bit local) (is_real local) (address_operation local) in
  let prev := MemoryAccess.prev_value (memory_access local) in
  let store_limb := ITypeReader.prev_a (adapter local) in
  let o := offset_bit local in
  Ok (((assert_bool (is_real local) ++ addr_emits) ++
       MemoryAccess.eval_write clk_high (clk_low + Fof (position_num PMemory))%F aligned_addr
         (memory_access local) (store_value local) (is_real local) ++
       (assert_eq (limb0 (store_value local)) (limb0 prev + (limb0 store_limb - limb0 prev) * (F1 - o))%F ++
        assert_eq (limb1 (store_value local)) (limb1 prev + (limb1 store_limb - limb1 prev) * (F1 - o))%F ++
        assert_eq (limb2 (store_value local)) (limb2 prev + (limb0 store_limb - limb2 prev) * o)%F ++
        assert_eq (limb3 (store_value local)) (limb3 prev + (limb1 store_limb - limb3 prev) * o)%F)) ++
      frame cfg (adapter_cols local) (state local) (adapter local) opcode consts
        (ITypeReader.prev_a (adapter local)) (pc_inc (state local))
        (page_prot_request (adapter_cols local) clk_high (clk_low + Fof (position_num PMemory))%F aligned_addr
           (Fof (PROT_WRITE (segment_flags cfg))) (is_real local)) (is_real local)).
End StoreWordChip.

(** ** [StoreDoubleChip] ([store/store_double.rs]) *)
Module StoreDoubleChip.
Record Cols : Type := mkCols {
  state : CPUState.Cols;
  adapter : ITypeReader.Cols;
  address_operation : AddressOperation.Cols;
  memory_access : MemoryAccess.Cols;
  is_real : F;
  adapter_cols : AdapterCols
}.

Definition event_to_row (user : bool) (event : MemInstrEvent) (record : ITypeRecord)
  : Res (Cols * list ByteLookupEvent) :=
  let* (acc, ev1) := MemoryAccess.populate (me_mem_access event) in
  let* (addr, ev2, _) := AddressOperation.populate (me_b event) (me_c event) in
  let '(st, ev3) := CPUState.populate (me_clk event) (me_pc event) in
  let '(ad, ev4) := ITypeReader.populate record in
  Ok (mkCols st ad addr acc F1 (trust_cols user (it_is_untrusted record)), ev1 ++ ev2 ++ ev3 ++ ev4).

Definition eval (rrs : MajorOpcodes) (cfg : Config) (local : Cols) : Res (list Emit) :=
  let clk_high := CPUState.clk_high (state local) in
  let clk_low := CPUState.clk_low (state local) in
  let opcode := Fof (opcode_num SD) in
  let* consts := single_consts rrs SD (unwrap_or (funct7 SD) 0) in
  let '(addr_emits, aligned_addr) :=
    AddressOperation.eval (ITypeReader.b (adapter local)) (ITypeReader.c (adapter local))
      F0 F0 F0 (is_real local) (address_operation local) in
  Ok (((assert_bool (is_real local) ++ addr_emits) ++
       MemoryAccess.eval_write clk_high (clk_low + Fof (position_num PMemory))%F aligned_addr
         (memory_access local) (ITypeReader.prev_a (adapter local)) (is_real local)) ++
      frame cfg (adapter_cols local) (state local) (adapter local) opcode consts
        (ITypeReader.prev_a (adapter local)) (pc_inc (state local))
        (page_prot_request (adapter_cols local) clk_high (clk_low + Fof (position_num PMemory))%F aligned_addr
           (Fof (PROT_WRITE (segment_flags cfg))) (is_real local)) (is_real local)).
End StoreDoubleChip.
