(* ===== verification/MemoryChipFacts.v ===== *)
(** * Correctness of the memory instruction chips

    A row of a load or a store chip is the executor's step: it reads or writes
    the doubleword of its address, and the register it names gets, or the
    doubleword gets, the value [load_value] or [store_value] computes. *)

From Stdlib Require Import ZArith Lia List Bool Permutation.
From S2P Require Import Prelude Words Isa Field Air AirFacts SmallInverse Operations Mul.
From S2P Require Import Adapter AdapterFacts Row Readers AluChips AluChipFacts Address MemoryChips.
Import ListNotations.
Open Scope Z_scope.

(** ** A row with one memory access *)

Lemma stateless_page_prot (mode : AdapterCols) (h l : F) (addr : list F) (p m : F) :
  stateless (page_prot_request mode h l addr p m) /\ silent KMemory (page_prot_request mode h l addr p m).
Proof. destruct mode; repeat split; reflexivity. Qed.

Lemma complete_page_prot (mode : AdapterCols) (h l : F) (addr : list F) (p m : F) :
  complete (page_prot_request mode h l addr p m) [].
Proof. destruct mode; split; cbn; auto. Qed.

Section MemoryRow.
Context (cfg : Config) (mode : AdapterCols) (state : CPUState.Cols) (adapter : ITypeReader.Cols).
Context (op : F) (consts : list F) (value : Word F) (prot : F).
Context (o0 o1 o2 : F) (aop : AddressOperation.Cols) (acc : MemoryAccess.Cols) (w : Word F).
Context (pre post : list Emit).

Abbreviation h := (CPUState.clk_high state).
Abbreviation l := (CPUState.clk_low state).
Abbreviation address := (AddressOperation.eval (ITypeReader.b adapter) (ITypeReader.c adapter) o0 o1 o2 F1 aop).
Abbreviation access := (MemoryAccess.eval_write h (l + Fof 1)%F (snd address) acc w F1).
Abbreviation mid := (page_prot_request mode h (l + Fof 1)%F (snd address) prot F1).
Abbreviation ops := (pre ++ access ++ post).
Abbreviation row := (ops ++ frame cfg mode state adapter op consts value (pc_inc state) mid F1).
Abbreviation addr := (wrapping_add (word_val (ITypeReader.b adapter)) (word_val (ITypeReader.c adapter))).

Context (Qpre : quiet pre) (Qpost : quiet post) (Hsat : sats row) (Haddr : sats pre -> sats (fst address)).

Lemma memory_ops_messages :
  sends KMemory ops = [mem_sent_record (snd address) acc] /\
  receives KMemory ops = [mem_received_record h (l + Fof 1)%F (snd address) w].
Proof.
  rewrite !sends_app, !receives_app. destruct (Qpre KMemory) as [-> ->]; [discriminate|].
  destruct (Qpost KMemory) as [-> ->]; [discriminate|].
  destruct (mem_write_messages h (l + Fof 1)%F (snd address) acc w) as [-> ->]. split; reflexivity.
Qed.

Lemma memory_ops_stateless : stateless ops.
Proof. auto with quiet. Qed.

Lemma memory_ops_sats : sats (fst address) /\ sats access /\ sats post.
Proof. pose proof Hsat as H. rewrite !sats_app in H. tauto. Qed.

Lemma memory_row_bus :
  Fval h < 2 ^ 24 ->
  bus_access (mem_sent_record (snd address) acc) (mem_received_record h (l + Fof 1)%F (snd address) w) /\
  record_key (mem_received_record h (l + Fof 1)%F (snd address) w) = 2 * (timestamp h l + 1) + 5.
Proof.
  intros Hh. destruct memory_ops_sats as (Ha & Hm & _). pose proof (address_top _ _ _ _ _ _ Ha) as Hnz.
  destruct (row_clk cfg mode state adapter op consts value (pc_inc state) mid ops Hsat) as [M B].
  apply mem_bus_access; [exact Hnz | exact Hh | dlia | exact Hm].
Qed.

(** What a chip has to show of its value and of the doubleword it leaves. *)
Definition memory_steps : Prop :=
  forall pc i,
    frame_run cfg mode state adapter op consts value (pc_inc state) mid ops pc i ->
    sats pre -> sats post ->
    memory_address addr -> addr mod 8 = offset_of o0 o1 o2 -> is_bool o0 -> is_bool o1 -> is_bool o2 ->
    valid_word (MemoryAccess.prev_value acc) -> imm_b i = false -> imm_c i = true ->
    word_val (ITypeReader.c adapter) = op_c i ->
    valid_word value /\ valid_word w /\
    forall clk ta tb tc tm,
      instruction_step i clk pc
        (memory_access addr clk tm (word_val (MemoryAccess.prev_value acc)) (word_val w) ::
         alu_accesses i clk ta (word_val (ITypeReader.prev_a adapter)) tb (word_val (ITypeReader.b adapter)) tc
           (word_val (ITypeReader.c adapter)) (word_val value)) (pc + PC_INC).

Lemma itype_imms (i : Instruction) :
  ITypeReader.instruction adapter op = InstructionCols.populate i -> imm_b i = false /\ imm_c i = true.
Proof.
  intros E. split.
  - apply Fof_bool_inj0. exact (f_equal InstructionCols.imm_b E).
  - apply Fof_bool_inj1. exact (f_equal InstructionCols.imm_c E).
Qed.

Lemma memory_row_step :
  w = MemoryAccess.prev_value acc \/ value = ITypeReader.prev_a adapter -> memory_steps -> step_row row.
Proof.
  intros Hkind Hstep. destruct memory_ops_messages as [Es Er]. destruct memory_ops_sats as (Ha & Hm & Hp).
  destruct (stateless_page_prot mode h (l + Fof 1)%F (snd address) prot F1) as [Smid Mmid].
  pose proof memory_ops_stateless as So. split.
  - eapply row_messages; [assumption.. | reflexivity | apply pc_inc_bounds |].
    destruct Hkind as [Ew | Ev].
    + apply (row_bus_reads cfg mode state adapter op consts value (pc_inc state) mid Mmid ops Hsat
               [(mem_sent_record (snd address) acc, mem_received_record h (l + Fof 1)%F (snd address) w)] Es Er).
      intros Hh. destruct (memory_row_bus Hh) as [Hb Hk]. constructor; [|constructor]. cbn [fst snd].
      rewrite Hk. split; [split; [exact Hb|] | lia]. unfold mem_sent_record, mem_received_record. rewrite Ew. reflexivity.
    + apply (row_bus_store cfg mode state adapter op consts value (pc_inc state) mid Mmid ops Hsat _ _ Ev Es Er).
      intros Hh. destruct (memory_row_bus Hh) as [Hb Hk]. split; [exact Hb | lia].
  - intros pc i Hin. assert (Hpc : 0 <= pc < 2 ^ 48) by (destruct Hin as (_ & _ & _ & Hpc & _); exact Hpc).
    pose proof (frame_runs cfg mode state adapter op consts value (pc_inc state) mid Smid Mmid ops So Hsat pc i Hin) as Hfr.
    destruct (row_clk cfg mode state adapter op consts value (pc_inc state) mid ops Hsat) as [M B].
    assert (B4 : Fval l + 4 < 2 ^ 24) by dlia. pose proof (fr_clk Hfr) as Hh.
    destruct (address_sound _ _ _ _ _ _ (fr_b Hfr) (fr_c Hfr) Ha) as (Hmem & B0 & B1 & B2 & Eo & El).
    pose proof (fr_ops Hfr) as Hc. rewrite Es in Hc. apply Forall_inv in Hc.
    destruct (itype_imms i (fr_instruction Hfr)) as [Ib Ic].
    destruct (mem_access_run h l _ _ _ acc w (address_top _ _ _ _ _ _ Ha) Hh B4 Hm _ Hmem El Hc)
      as ((tm & Em) & Hinc & Vp & Hcan).
    destruct (Hstep pc i Hfr) as (Vv & Vw & Hi); auto.
    { rewrite !sats_app in Hsat. tauto. }
    { exact (fr_imm_c Hfr Ic). }
    assert (Em' : accesses access = [memory_access addr (timestamp h l) tm (word_val (MemoryAccess.prev_value acc)) (word_val w)])
      by exact Em.
    assert (Emsg : forall t u v, mem_message (t :: u :: snd address ++ word_list v)
                     = [mkMem (timestamp t u) (aligned addr) (word_val v)])
      by exact (mem_addr_message _ _ _ _ Hmem El).
    assert (Eacc : accesses ops = accesses access).
    { unfold accesses. rewrite Es, Er. destruct (mem_write_messages h (l + Fof 1)%F (snd address) acc w) as [-> ->].
      reflexivity. }
    destruct (fr_accesses Hfr) as (ta & tb & tc & racc & -> & Hinc2 & Er2).
    rewrite Eacc, Em' in Er2. rewrite Es, Er in Er2. cbn [flat_map] in Er2.
    unfold mem_sent_record, mem_received_record in Er2. rewrite !Emsg in Er2.
    specialize (Er2 eq_refl). cbn [app] in Er2. split.
    + exists (timestamp h l), (pc + PC_INC). rewrite Er2. split; [exact (fr_in Hfr)|].
      rewrite (fr_out Hfr _ _ _ eq_refl), (pc_inc_val state pc Hpc (fr_pc Hfr)). split; [reflexivity|].
      split; [apply Hi|]. rewrite Em in Hinc. constructor; [exact (Forall_inv Hinc) | exact Hinc2].
    + apply (fr_canonical Hfr Vv). rewrite Er. constructor; [exact (Hcan Vw) | constructor].
Qed.
End MemoryRow.

(** ** The parts of a doubleword *)

Lemma word_limbs (w : Word F) :
  valid_word w ->
  limb16 (word_val w) 0 = Fval (limb0 w) /\ limb16 (word_val w) 1 = Fval (limb1 w) /\
  limb16 (word_val w) 2 = Fval (limb2 w) /\ limb16 (word_val w) 3 = Fval (limb3 w).
Proof.
  intros (V0 & V1 & V2 & V3). unfold word_val, limb16, is_u16F in *.
  pose proof (Fval_bound (limb0 w)). pose proof (Fval_bound (limb1 w)). pose proof (Fval_bound (limb2 w)).
  pose proof (Fval_bound (limb3 w)).
  change (2 ^ (16 * 0)) with 1. change (2 ^ (16 * 1)) with (2 ^ 16). change (2 ^ (16 * 2)) with (2 ^ 32).
  change (2 ^ (16 * 3)) with (2 ^ 48). rewrite Z.div_1_r. dlia.
Qed.

Lemma is_bool_cases (P : F -> Prop) (x : F) : is_bool x -> P F0 -> P F1 -> P x.
Proof. intros [-> | ->]; auto. Qed.

Lemma F0m1_neq_0 : (F0 - F1)%F <> F0.
Proof. intros E. apply F1_neq_0. transitivity (F0 - (F0 - F1))%F; [ring | rewrite E; ring]. Qed.

Lemma sats_when_not_0 (l : list Emit) : sats (when_not F0 l) <-> sats l.
Proof. unfold when_not. apply sats_when, F0m1_neq_0. Qed.


Lemma select_limb_sound (o1 o2 x : F) (w : Word F) :
  is_bool o1 -> is_bool o2 -> valid_word w -> sats (select_limb o1 o2 x w) ->
  is_u16F x /\ Fval x = limb16 (word_val w) (2 * Fval o2 + Fval o1).
Proof.
  intros B1 B2 V H. unfold select_limb in H. rewrite !sats_app in H. destruct H as (H0 & H1 & H2 & H3).
  destruct (word_limbs w V) as (L0 & L1 & L2 & L3). destruct V as (V0 & V1 & V2 & V3).
  destruct B1 as [-> | ->], B2 as [-> | ->]; change (Fval F0) with 0; change (Fval F1) with 1; cbn [Z.mul Z.add Pos.mul Pos.add].
  - rewrite !sats_when_not_0, sats_eq in H0. rewrite H0, L0. auto.
  - rewrite sats_when_not_0, sats_when_1, sats_eq in H2. rewrite H2, L2. auto.
  - rewrite sats_when_1, sats_when_not_0, sats_eq in H1. rewrite H1, L1. auto.
  - rewrite !sats_when_1, sats_eq in H3. rewrite H3, L3. auto.
Qed.

Lemma shr_land (v k n : Z) : 0 <= k -> 0 <= n -> Z.land (shr v k) (2 ^ n - 1) = v / 2 ^ k mod 2 ^ n.
Proof. intros Hk Hn. rewrite land_mask, shr_div by assumption. reflexivity. Qed.

Lemma half_of (v k : Z) : 0 <= k -> Z.land (shr v (k * 16)) 0xFFFF = limb16 v k.
Proof.
  intros Hk. change 0xFFFF with (2 ^ 16 - 1). rewrite shr_land by lia. unfold limb16. rewrite Z.mul_comm. reflexivity.
Qed.

Lemma byte_of (v k b : Z) :
  0 <= k -> 0 <= b <= 1 -> Z.land (shr v ((2 * k + b) * 8)) 0xFF = limb16 v k / 2 ^ (8 * b) mod 2 ^ 8.
Proof.
  intros Hk Hb. change 0xFF with (2 ^ 8 - 1). rewrite shr_land by lia. unfold limb16.
  replace ((2 * k + b) * 8) with (16 * k + 8 * b) by lia. rewrite pow2_split by lia.
  pose proof (pow2_pos (16 * k) ltac:(lia)). rewrite <- Z.div_div by (pose proof (pow2_pos (8 * b)); lia).
  set (q := v / 2 ^ (16 * k)). assert (E : b = 0 \/ b = 1) by lia. destruct E as [-> | ->].
  - change (2 ^ (8 * 0)) with 1. rewrite !Z.div_1_r. symmetry. apply mod_mod_le. lia.
  - change (2 ^ (8 * 1)) with (2 ^ 8). dlia.
Qed.

Lemma word_of (v k : Z) :
  0 <= k -> Z.land (shr v (k * 32)) 0xFFFFFFFF = limb16 v (2 * k) + 2 ^ 16 * limb16 v (2 * k + 1).
Proof.
  intros Hk. change 0xFFFFFFFF with (2 ^ 32 - 1). rewrite shr_land by lia. unfold limb16.
  replace (16 * (2 * k + 1)) with (16 * (2 * k) + 16) by lia. replace (k * 32) with (16 * (2 * k)) by lia.
  rewrite pow2_split by lia. pose proof (pow2_pos (16 * (2 * k)) ltac:(lia)). rewrite <- Z.div_div by lia.
  set (q := v / 2 ^ (16 * (2 * k))). dlia.
Qed.

(** The words the load chips write: sign extensions by a top bit [m]. *)
Lemma sign_extend_word (x : F) (k : Z) (m : F) :
  (k = 8 \/ k = 16) -> Fval x < 2 ^ k -> m = Fof (if Fval x <? 2 ^ (k - 1) then 0 else 1) ->
  let top := (Fof (2 ^ 16 - 1) * m)%F in
  let w := mkWord (x + Fof (2 ^ 16 - 2 ^ k) * m)%F top top top in
  valid_word w /\ word_val w = as_u64 (as_signed k (Fval x)).
Proof.
  intros Hk Hx ->. cbv zeta. pose proof (Fval_bound x) as Bx.
  assert (Hk' : 2 ^ k = 2 * 2 ^ (k - 1) /\ 2 ^ k <= 2 ^ 16)
    by (destruct Hk as [-> | ->]; vm_compute; split; congruence).
  unfold valid_word, word_val, is_u16F. cbn [limb0 limb1 limb2 limb3].
  rewrite as_signed_small by lia. unfold as_u64, as_unsigned. destruct (Z.ltb_spec (Fval x) (2 ^ (k - 1))).
  - assert (E : (Fof (2 ^ 16 - 1) * Fof 0)%F = F0) by (rewrite Fof_mul; reflexivity). rewrite E.
    rewrite (Fval_rep (x + Fof (2 ^ 16 - 2 ^ k) * Fof 0)%F (a := Fval x + (2 ^ 16 - 2 ^ k) * 0)) by F_lia.
    change (Fval F0) with 0. rewrite Z.mod_small by lia. lia.
  - assert (E : (Fof (2 ^ 16 - 1) * Fof 1)%F = Fof 65535) by (rewrite Fof_mul; reflexivity). rewrite E.
    rewrite (Fval_rep (x + Fof (2 ^ 16 - 2 ^ k) * Fof 1)%F (a := Fval x + (2 ^ 16 - 2 ^ k) * 1)) by F_lia.
    change (Fval (Fof 65535)) with 65535. repeat split; try lia. symmetry.
    apply mod_small_eq; [lia | lia | exists (-1); lia].
Qed.

Lemma zero_extend_word (x y : F) :
  is_u16F x -> is_u16F y -> let w := mkWord x y F0 F0 in valid_word w /\ word_val w = half_val x y.
Proof.
  intros Hx Hy. cbv zeta. unfold valid_word, word_val, half_val, is_u16F in *. cbn [limb0 limb1 limb2 limb3].
  change (Fval F0) with 0. lia.
Qed.

Lemma sum_flags_fold (l : list F) : sum_flags l = fold_right Fadd F0 l.
Proof.
  destruct l as [|x l]; [reflexivity|]. cbn [sum_flags fold_right]. revert x.
  induction l as [|y l IH]; intros x; cbn [fold_left fold_right]; [ring|]. rewrite IH. ring.
Qed.

Lemma quiet_select_limb (o1 o2 x : F) (w : Word F) : quiet (select_limb o1 o2 x w).
Proof. unfold select_limb, when_not. auto 10 with quiet. Qed.
#[export] Hint Resolve quiet_select_limb : quiet.

(** The step of a load, and of a store. *)
Lemma load_step (i : Instruction) (clk pc ta va tb b tc c tm m : Z) (w : Word F) :
  imm_b i = false -> imm_c i = true -> c = op_c i -> memory_address (wrapping_add b c) ->
  (op_a i = 0 -> w = word_zero) -> load_value (opcode i) (wrapping_add b c) m = Ok (word_val w) ->
  instruction_step i clk pc
    (memory_access (wrapping_add b c) clk tm m m :: alu_accesses i clk ta va tb b tc c (word_val w)) (pc + PC_INC).
Proof. intros Ib Ic Ec Hm H0 Hv. rewrite <- (rd_value_word i w H0). apply step_load; assumption. Qed.

(** Decomposes the [eval] of a memory chip. *)
Ltac memory_chip_row E :=
  match type of E with context [AddressOperation.eval ?b ?c ?o0 ?o1 ?o2 ?r ?a] =>
    rewrite (surjective_pairing (AddressOperation.eval b c o0 o1 o2 r a)) in E end;
  chip_row E;
  change (position_num PMemory) with 1 in *;
  repeat match goal with
  | H : context [MemoryAccess.eval_read ?h ?l ?a ?acc ?r] |- _ =>
      change (MemoryAccess.eval_read h l a acc r)
        with (MemoryAccess.eval_write h l a acc (MemoryAccess.prev_value acc) r) in H
  | |- context [MemoryAccess.eval_read ?h ?l ?a ?acc ?r] =>
      change (MemoryAccess.eval_read h l a acc r)
        with (MemoryAccess.eval_write h l a acc (MemoryAccess.prev_value acc) r)
  end.

Ltac memory_quiet := unfold when_not; auto 12 with quiet.

(** A load chip with two opcodes, a signed and an unsigned one. *)
Lemma two_flags (x y : F) (o1 o2 o : Opcode) :
  is_bool x -> is_bool y -> sum_flags [x; y] = F1 ->
  weighted [x; y] (map opcode_num [o1; o2]) = Fof (opcode_num o) ->
  (x = F1 /\ y = F0 /\ o = o1) \/ (x = F0 /\ y = F1 /\ o = o2).
Proof.
  unfold weighted. cbn [sum_flags fold_left map combine fst snd].
  intros [-> | ->] [-> | ->] E Eo; try (apply (f_equal Fval) in E; vm_compute in E; discriminate E).
  - right. repeat split. apply opcode_of_F. rewrite <- Eo. ring.
  - left. repeat split. apply opcode_of_F. rewrite <- Eo. ring.
Qed.

Lemma addr_parts (a : Z) (o0 o1 o2 : F) :
  memory_address a -> a mod 8 = offset_of o0 o1 o2 -> is_bool o0 -> is_bool o1 -> is_bool o2 ->
  (a / 2) mod 4 = 2 * Fval o2 + Fval o1 /\ a mod 2 = Fval o0 /\ (a / 4) mod 2 = Fval o2 /\
  (o0 = F0 -> o1 = F0 -> a mod 4 = 0).
Proof.
  unfold offset_of. intros [Ha _] Eo B0 B1 B2. apply is_bool_val in B0, B1, B2.
  repeat split; try dlia. intros -> ->. change (Fval F0) with 0 in Eo. dlia.
Qed.

Lemma msb_0 (x : F) (m : U16MSBOperation.Cols) :
  U16MSBOperation.msb m = F0 -> (Fof (2 ^ 16 - 1) * U16MSBOperation.msb m)%F = F0.
Proof. intros ->. ring. Qed.

(** A load into [x0]: the address is aligned for the opcode. *)
Lemma load_x0_value (m a : Z) (o0 o1 o2 : F) :
  memory_address a -> a mod 8 = offset_of o0 o1 o2 -> is_bool o0 -> is_bool o1 -> is_bool o2 ->
  forall (local : LoadX0Chip.Cols) (o : Opcode),
  sats (flat_map assert_bool (LoadX0Chip.flags local)) -> sum_flags (LoadX0Chip.flags local) = F1 ->
  weighted (LoadX0Chip.flags local) (map opcode_num LoadX0Chip.opcodes) = Fof (opcode_num o) ->
  sats (when (LoadX0Chip.is_ld local) (assert_zero o2)) ->
  sats (when (LoadX0Chip.is_lw local + LoadX0Chip.is_lwu local + LoadX0Chip.is_ld local)%F (assert_zero o1)) ->
  sats (when (LoadX0Chip.is_lh local + LoadX0Chip.is_lhu local + LoadX0Chip.is_lw local + LoadX0Chip.is_lwu local
              + LoadX0Chip.is_ld local)%F (assert_zero o0)) ->
  exists r, load_value o a m = Ok r.
Proof.
  intros Ha Eo B0 B1 B2 local o Hfl Hr Eop A2 A1 A0. rewrite sum_flags_fold in Hr.
  destruct (addr_parts a o0 o1 o2 Ha Eo B0 B1 B2) as (_ & P2 & _ & P4).
  assert (Hw : forall c x, sats (when c (assert_zero x)) -> Fval c = 1 -> x = F0).
  { intros c x Hx Ec. apply (proj1 (sats_zero x)), (proj1 (sats_when c _ ltac:(intros ->; discriminate Ec)) Hx). }
  assert (Hf := selected_opcode (LoadX0Chip.flags local) LoadX0Chip.opcodes o eq_refl ltac:(vm_compute; reflexivity)).
  destruct local as [? ? ? ? ? ? ? m1 m2 m3 m4 m5 m6 m7 ?]. unfold LoadX0Chip.flags in *.
  cbn [LoadX0Chip.is_lb LoadX0Chip.is_lbu LoadX0Chip.is_lh LoadX0Chip.is_lhu LoadX0Chip.is_lw LoadX0Chip.is_lwu
       LoadX0Chip.is_ld flat_map app] in *.
  rewrite !sats_app, !sats_bool in Hfl. destruct Hfl as (? & ? & ? & ? & ? & ? & ? & _).
  specialize (Hf ltac:(forall_flags) Hr Eop). unfold LoadX0Chip.opcodes in Hf. clear Hr Eop.
  opcode_case Hf; subst; cbn [load_value]; unfold is_multiple_of; try (eexists; reflexivity);
    (apply Hw in A0; [subst | vm_compute; reflexivity]).
  - rewrite P2. eexists. reflexivity.
  - rewrite P2. eexists. reflexivity.
  - apply Hw in A1; [|vm_compute; reflexivity]. rewrite (P4 eq_refl A1). eexists. reflexivity.
  - apply Hw in A1; [|vm_compute; reflexivity]. rewrite (P4 eq_refl A1). eexists. reflexivity.
  - apply Hw in A1; [|vm_compute; reflexivity]. apply Hw in A2; [|vm_compute; reflexivity].
    subst. rewrite Eo. eexists. reflexivity.
Qed.

(** The two bytes of a limb. *)
Lemma byte_split (x lo : F) :
  is_u16F x -> sats (slice_range_check_u8 [lo; ((x - lo) * Finv (Fof (2 ^ 8)))%F] F1) ->
  Fval lo = Fval x mod 2 ^ 8 /\ Fval ((x - lo) * Finv (Fof (2 ^ 8)))%F = Fval x / 2 ^ 8.
Proof.
  intros Ux [H _]. specialize (H F1_neq_0). cbn [values] in H. apply lookup_u8 in H as [H1 H2].
  remember ((x - lo) * Finv (Fof (2 ^ 8)))%F as hi eqn:E. symmetry in E.
  apply Fmul_inv_eq in E; [|apply Fof_neq_0; unfold KOALA_BEAR_ORDER; lia].
  assert (Ez : Fval x = Fval lo + 2 ^ 8 * Fval hi) by (unfold is_u16F in Ux; to_Z E; lia).
  pose proof (Fval_bound lo). dlia.
Qed.

Section LoadValues.
Context (prev : Word F) (a : Z) (o0 o1 o2 : F) (Vp : valid_word prev) (Ha : memory_address a).
Context (Eo : a mod 8 = offset_of o0 o1 o2) (B0 : is_bool o0) (B1 : is_bool o1) (B2 : is_bool o2).

Lemma load_half_value (f1 f2 x : F) (m : U16MSBOperation.Cols) (o : Opcode) :
  (f1 = F1 /\ f2 = F0 /\ o = LH) \/ (f1 = F0 /\ f2 = F1 /\ o = LHU) -> o0 = F0 ->
  sats (select_limb o1 o2 x prev) -> sats (when f2 (assert_zero (U16MSBOperation.msb m))) ->
  sats (U16MSBOperation.eval_msb x m f1) ->
  let top := (Fof (2 ^ 16 - 1) * U16MSBOperation.msb m)%F in
  valid_word (mkWord x top top top) /\ load_value o a (word_val prev) = Ok (word_val (mkWord x top top top)).
Proof.
  intros Hf E0 Hsel Hlhu Hmsb. cbv zeta. destruct (select_limb_sound _ _ _ _ B1 B2 Vp Hsel) as [Ux Ex].
  destruct (addr_parts _ _ _ _ Ha Eo B0 B1 B2) as (P1 & P2 & _). rewrite E0 in P2. change (Fval F0) with 0 in P2.
  destruct Hf as [(-> & -> & ->) | (-> & -> & ->)]; cbn [load_value]; unfold is_multiple_of;
    rewrite P2, P1, half_of, <- Ex by (apply is_bool_val in B1, B2; lia); cbn [Z.eqb assertb bind].
  - apply msb_sound in Hmsb; [|exact Ux].
    destruct (sign_extend_word x 16 _ (or_intror eq_refl) Ux Hmsb) as [Vw Ew].
    replace (x + Fof (2 ^ 16 - 2 ^ 16) * U16MSBOperation.msb m)%F with x in Vw, Ew
      by (change (Fof (2 ^ 16 - 2 ^ 16)) with F0; ring).
    rewrite Ew. auto.
  - rewrite sats_when_1, sats_zero in Hlhu. rewrite (msb_0 x m Hlhu).
    destruct (zero_extend_word x F0 Ux ltac:(reflexivity)) as [Vw Ew]. split; [exact Vw|]. rewrite Ew.
    unfold half_val, as_u16. change (Fval F0) with 0. rewrite as_unsigned_id by F_lia. f_equal. lia.
Qed.

Lemma load_word_value (f1 f2 x y : F) (m : U16MSBOperation.Cols) (o : Opcode) :
  (f1 = F1 /\ f2 = F0 /\ o = LW) \/ (f1 = F0 /\ f2 = F1 /\ o = LWU) -> o0 = F0 -> o1 = F0 ->
  sats (when_not o2 (assert_eq x (limb0 prev))) -> sats (when_not o2 (assert_eq y (limb1 prev))) ->
  sats (when o2 (assert_eq x (limb2 prev))) -> sats (when o2 (assert_eq y (limb3 prev))) ->
  sats (U16MSBOperation.eval_msb y m f1) -> sats (when_not f1 (assert_zero (U16MSBOperation.msb m))) ->
  let top := (Fof (2 ^ 16 - 1) * U16MSBOperation.msb m)%F in
  valid_word (mkWord x y top top) /\ load_value o a (word_val prev) = Ok (word_val (mkWord x y top top)).
Proof.
  intros Hf E0 E1 H0 H1 H2 H3 Hmsb Hlwu. cbv zeta.
  assert (Hxy : is_u16F x /\ is_u16F y /\
    half_val x y = limb16 (word_val prev) (2 * Fval o2) + 2 ^ 16 * limb16 (word_val prev) (2 * Fval o2 + 1)).
  { destruct (word_limbs prev Vp) as (L0 & L1 & L2 & L3). pose proof Vp as (V0 & V1 & V2 & V3). unfold half_val.
    destruct B2 as [-> | ->].
    - rewrite sats_when_not_0, sats_eq in H0, H1. rewrite H0, H1. change (Fval F0) with 0. cbn [Z.mul Z.add]. rewrite L0, L1. auto.
    - rewrite sats_when_1, sats_eq in H2, H3. rewrite H2, H3. change (2 * Fval F1) with 2. cbn [Z.add Pos.add]. rewrite L2, L3. auto. }
  destruct Hxy as (Ux & Uy & Exy). destruct (addr_parts _ _ _ _ Ha Eo B0 B1 B2) as (_ & _ & P3 & P4).
  specialize (P4 E0 E1).
  destruct Hf as [(-> & -> & ->) | (-> & -> & ->)]; cbn [load_value]; unfold is_multiple_of;
    rewrite P4, P3, word_of, <- Exy by (apply is_bool_val in B2; lia); cbn [Z.eqb assertb bind].
  - apply msb_sound in Hmsb; [|exact Uy]. destruct (sign_extend_half_spec x y Ux Uy) as [Vw Ew].
    unfold sign_extend_half in Vw, Ew. rewrite <- Hmsb in Vw, Ew.
    replace (U16MSBOperation.msb m * Fof 65535)%F with (Fof (2 ^ 16 - 1) * U16MSBOperation.msb m)%F in Vw, Ew
      by (change (2 ^ 16 - 1) with 65535; ring).
    rewrite Ew. auto.
  - rewrite sats_when_not_0, sats_zero in Hlwu. rewrite (msb_0 x m Hlwu).
    destruct (zero_extend_word x y Ux Uy) as [Vw Ew]. rewrite Ew. auto.
Qed.

Lemma load_byte_value (f1 f2 x lo y m : F) (o : Opcode) :
  let hi := ((x - lo) * Finv (Fof (2 ^ 8)))%F in
  (f1 = F1 /\ f2 = F0 /\ o = LB) \/ (f1 = F0 /\ f2 = F1 /\ o = LBU) ->
  sats (select_limb o1 o2 x prev) -> sats (slice_range_check_u8 [lo; hi] F1) ->
  y = (o0 * hi + (F1 - o0) * lo)%F -> sats (when f2 (assert_zero m)) ->
  sats (send_byte (byte_op BMSB) m y F0 f1) ->
  let top := (Fof (2 ^ 16 - 1) * m)%F in
  let w := mkWord (y + Fof (2 ^ 16 - 2 ^ 8) * m)%F top top top in
  valid_word w /\ load_value o a (word_val prev) = Ok (word_val w).
Proof.
  cbv zeta. intros Hf Hsel H8 Ey Hlbu Hmsb. destruct (select_limb_sound _ _ _ _ B1 B2 Vp Hsel) as [Ux Ex].
  destruct (byte_split x lo Ux H8) as [El Eh].
  assert (Hy : Fval y = Z.land (shr (word_val prev) (a mod 8 * 8)) 0xFF).
  { rewrite Eo. unfold offset_of. replace (4 * Fval o2 + 2 * Fval o1 + Fval o0) with (2 * (2 * Fval o2 + Fval o1) + Fval o0) by lia.
    rewrite byte_of, <- Ex by (pose proof (is_bool_val _ B0); pose proof (is_bool_val _ B1); pose proof (is_bool_val _ B2); lia).
    unfold is_u16F in Ux. pose proof (Fval_bound x). destruct B0 as [E0 | E0]; rewrite Ey, E0.
    - replace (F0 * _ + (F1 - F0) * lo)%F with lo by ring. rewrite El. change (2 ^ (8 * Fval F0)) with 1. dlia.
    - match goal with |- Fval ?t = _ => replace t with ((x - lo) * Finv (Fof (2 ^ 8)))%F by ring end.
      rewrite Eh. change (2 ^ (8 * Fval F1)) with (2 ^ 8). dlia. }
  assert (By : Fval y < 2 ^ 8) by (rewrite Hy; change 0xFF with (2 ^ 8 - 1); rewrite land_mask by lia; apply Z.mod_pos_bound; lia).
  destruct Hf as [(-> & -> & ->) | (-> & -> & ->)]; cbn [load_value]; rewrite <- Hy.
  - destruct Hmsb as [Hmsb _]. specialize (Hmsb F1_neq_0). cbn [values] in Hmsb. apply lookup_msb in Hmsb as [_ Em].
    assert (Em' : m = Fof (if Fval y <? 2 ^ (8 - 1) then 0 else 1)) by (rewrite <- (Fof_val m), Em; reflexivity).
    destruct (sign_extend_word y 8 m (or_introl eq_refl) By Em') as [Vw Ew]. rewrite Ew. auto.
  - rewrite sats_when_1, sats_zero in Hlbu. subst m.
    replace (y + Fof (2 ^ 16 - 2 ^ 8) * F0)%F with y by ring. replace (Fof (2 ^ 16 - 1) * F0)%F with F0 by ring.
    destruct (zero_extend_word y F0) as [Vw Ew]; [unfold is_u16F; lia | reflexivity |].
    rewrite Ew. split; [exact Vw|]. unfold half_val, as_u8. change (Fval F0) with 0.
    rewrite as_unsigned_id by (pose proof (Fval_bound y); lia). f_equal. lia.
Qed.
End LoadValues.

(** ** The doubleword a store leaves *)

Definition set_limb (w : Word F) (j : Z) (x : F) : Word F :=
  if j =? 0 then mkWord x (limb1 w) (limb2 w) (limb3 w)
  else if j =? 1 then mkWord (limb0 w) x (limb2 w) (limb3 w)
  else if j =? 2 then mkWord (limb0 w) (limb1 w) x (limb3 w)
  else mkWord (limb0 w) (limb1 w) (limb2 w) x.

Lemma set_limb_spec (w : Word F) (j : Z) (x : F) :
  valid_word w -> is_u16F x -> 0 <= j < 4 ->
  valid_word (set_limb w j x) /\
  word_val (set_limb w j x) = word_val w + (Fval x - limb16 (word_val w) j) * 2 ^ (16 * j).
Proof.
  intros V Ux Hj. destruct (word_limbs w V) as (L0 & L1 & L2 & L3). pose proof V as (V0 & V1 & V2 & V3).
  assert (E : j = 0 \/ j = 1 \/ j = 2 \/ j = 3) by lia.
  destruct E as [-> | [-> | [-> | ->]]]; cbn [set_limb Z.eqb Pos.eqb]; rewrite ?L0, ?L1, ?L2, ?L3;
    (split; [repeat split; assumption|]); unfold word_val; cbn [limb0 limb1 limb2 limb3];
    change (2 ^ (16 * 0)) with 1; change (2 ^ (16 * 1)) with (2 ^ 16); change (2 ^ (16 * 2)) with (2 ^ 32);
    change (2 ^ (16 * 3)) with (2 ^ 48); lia.
Qed.

Lemma word_limbs_ext (w w' : Word F) :
  limb0 w = limb0 w' -> limb1 w = limb1 w' -> limb2 w = limb2 w' -> limb3 w = limb3 w' -> w = w'.
Proof. destruct w, w'. cbn. intros. subst. reflexivity. Qed.

Section StoreValues.
Context (prev src w : Word F) (a : Z) (o0 o1 o2 : F) (Vp : valid_word prev) (Vs : valid_word src) (Ha : memory_address a).
Context (Eo : a mod 8 = offset_of o0 o1 o2) (B0 : is_bool o0) (B1 : is_bool o1) (B2 : is_bool o2).

Lemma src_half : word_val src mod 2 ^ 16 = Fval (limb0 src).
Proof.
  destruct (word_limbs src Vs) as (L0 & _). rewrite <- L0. unfold limb16. change (2 ^ (16 * 0)) with 1.
  rewrite Z.div_1_r. reflexivity.
Qed.

Lemma limb_index : 0 <= 2 * Fval o2 + Fval o1 < 4.
Proof. apply is_bool_val in B1, B2. lia. Qed.

(** A limb replaced by the equations of the chips. *)
Lemma limb_replaced (x : F) (d0 d1 d2 d3 : F) :
  limb0 w = (limb0 prev + d0 * (F1 - o1) * (F1 - o2))%F -> limb1 w = (limb1 prev + d1 * o1 * (F1 - o2))%F ->
  limb2 w = (limb2 prev + d2 * (F1 - o1) * o2)%F -> limb3 w = (limb3 prev + d3 * o1 * o2)%F ->
  (o1 = F0 -> o2 = F0 -> limb0 prev + d0 = x)%F -> (o1 = F1 -> o2 = F0 -> limb1 prev + d1 = x)%F ->
  (o1 = F0 -> o2 = F1 -> limb2 prev + d2 = x)%F -> (o1 = F1 -> o2 = F1 -> limb3 prev + d3 = x)%F ->
  w = set_limb prev (2 * Fval o2 + Fval o1) x.
Proof.
  clear Eo. intros E0 E1 E2 E3 X0 X1 X2 X3.
  destruct B1 as [-> | ->], B2 as [-> | ->]; change (Fval F0) with 0; change (Fval F1) with 1;
    [rewrite <- X0 by reflexivity | rewrite <- X2 by reflexivity | rewrite <- X1 by reflexivity
    | rewrite <- X3 by reflexivity];
    apply word_limbs_ext; cbn [set_limb Z.eqb Pos.eqb Z.mul Z.add Pos.mul Pos.add limb0 limb1 limb2 limb3];
    rewrite ?E0, ?E1, ?E2, ?E3; ring.
Qed.

Lemma store_half_value :
  o0 = F0 -> w = set_limb prev (2 * Fval o2 + Fval o1) (limb0 src) ->
  valid_word w /\ store_value SH (word_val src) a (word_val prev) = Ok (word_val w).
Proof.
  intros E0 Ew. destruct (addr_parts _ _ _ _ Ha Eo B0 B1 B2) as (P1 & P2 & _). rewrite E0 in P2.
  change (Fval F0) with 0 in P2. pose proof limb_index as Hj.
  destruct (set_limb_spec prev (2 * Fval o2 + Fval o1) (limb0 src) Vp (proj1 Vs) Hj) as [Vw Hv].
  rewrite <- Ew in Vw, Hv. split; [exact Vw|]. cbn [store_value]. unfold is_multiple_of. rewrite P2, P1.
  cbn [Z.eqb assertb bind]. change 0xFFFF with (2 ^ 16 - 1).
  rewrite insert_bits_eq, insert_bits_add, src_half by (try apply word_val_bound; try assumption; lia).
  rewrite Hv. unfold limb16. do 2 f_equal. rewrite (Z.mul_comm _ 16). reflexivity.
Qed.

Lemma store_byte_value (x lo : F) :
  is_u16F x -> Fval x = limb16 (word_val prev) (2 * Fval o2 + Fval o1) ->
  sats (slice_range_check_u8 [lo; ((limb0 src - lo) * Finv (Fof (2 ^ 8)))%F] F1) ->
  forall mlo, sats (slice_range_check_u8 [mlo; ((x - mlo) * Finv (Fof (2 ^ 8)))%F] F1) ->
  w = set_limb prev (2 * Fval o2 + Fval o1)
        (x + ((lo - mlo) * (F1 - o0) + Fof (2 ^ 8) * (lo - (x - mlo) * Finv (Fof (2 ^ 8))) * o0))%F ->
  valid_word w /\ store_value SB (word_val src) a (word_val prev) = Ok (word_val w).
Proof.
  intros Ux Ex H8 mlo Hm8 Ew. destruct (byte_split _ _ (proj1 Vs) H8) as [El _].
  destruct (byte_split _ _ Ux Hm8) as [Eml Emh]. set (mhi := ((x - mlo) * Finv (Fof (2 ^ 8)))%F) in *. clearbody mhi.
  pose proof limb_index as Hj. unfold is_u16F in Ux. pose proof (Fval_bound x) as Bx. pose proof (Fval_bound (limb0 src)) as Bs.
  set (y := (x + ((lo - mlo) * (F1 - o0) + Fof (2 ^ 8) * (lo - mhi) * o0))%F) in *.
  assert (Hy : is_u16F y /\ Fval y - Fval x
               = (Fval (limb0 src) mod 2 ^ 8 - Fval x / 2 ^ (8 * Fval o0) mod 2 ^ 8) * 2 ^ (8 * Fval o0)).
  { unfold is_u16F. unfold y. destruct B0 as [-> | ->].
    - change (2 ^ (8 * Fval F0)) with 1. rewrite Z.div_1_r, <- El, <- Eml.
      assert (E : (x + ((lo - mlo) * (F1 - F0) + Fof (2 ^ 8) * (lo - mhi) * F0))%F = (x + (lo - mlo))%F) by ring.
      rewrite E, (Fval_rep (x + (lo - mlo))%F (a := Fval x + (Fval lo - Fval mlo))) by (unfold KOALA_BEAR_ORDER; dlia). dlia.
    - change (2 ^ (8 * Fval F1)) with (2 ^ 8). rewrite <- El.
      assert (E : (x + ((lo - mlo) * (F1 - F1) + Fof (2 ^ 8) * (lo - mhi) * F1))%F = (x + Fof (2 ^ 8) * (lo - mhi))%F) by ring.
      rewrite E, (Fval_rep (x + Fof (2 ^ 8) * (lo - mhi))%F (a := Fval x + 2 ^ 8 * (Fval lo - Fval mhi)))
        by (unfold KOALA_BEAR_ORDER; dlia). dlia. }
  clearbody y. destruct Hy as [Uy Ey]. destruct (set_limb_spec prev _ y Vp Uy Hj) as [Vw Hv].
  rewrite <- Ew in Vw, Hv. split; [exact Vw|]. cbn [store_value]. change 0xFF with (2 ^ 8 - 1). rewrite Eo.
  assert (H8o : 0 <= Fval o0 <= 1) by (apply is_bool_val in B0; lia). unfold offset_of.
  replace ((4 * Fval o2 + 2 * Fval o1 + Fval o0) * 8) with ((2 * (2 * Fval o2 + Fval o1) + Fval o0) * 8) by lia.
  rewrite insert_bits_eq, insert_bits_add by (try apply word_val_bound; try assumption; lia).
  rewrite <- (shr_land (word_val prev)) by lia. change (2 ^ 8 - 1) with 0xFF.
  rewrite byte_of, Hv, <- Ex, Ey, <- (mod_mod_le _ 8 16), src_half by lia. do 2 f_equal.
  replace ((2 * (2 * Fval o2 + Fval o1) + Fval o0) * 8) with (8 * Fval o0 + 16 * (2 * Fval o2 + Fval o1)) by lia.
  rewrite pow2_split by lia. lia.
Qed.

Lemma store_word_value :
  o0 = F0 -> o1 = F0 ->
  limb0 w = (limb0 prev + (limb0 src - limb0 prev) * (F1 - o2))%F ->
  limb1 w = (limb1 prev + (limb1 src - limb1 prev) * (F1 - o2))%F ->
  limb2 w = (limb2 prev + (limb0 src - limb2 prev) * o2)%F ->
  limb3 w = (limb3 prev + (limb1 src - limb3 prev) * o2)%F ->
  valid_word w /\ store_value SW (word_val src) a (word_val prev) = Ok (word_val w).
Proof.
  intros E0 E1 W0 W1 W2 W3. destruct (addr_parts _ _ _ _ Ha Eo B0 B1 B2) as (_ & _ & P3 & P4). specialize (P4 E0 E1).
  assert (Hj : 0 <= Fval o2 <= 1) by (apply is_bool_val in B2; lia).
  assert (Ew : w = set_limb (set_limb prev (2 * Fval o2) (limb0 src)) (2 * Fval o2 + 1) (limb1 src)).
  { destruct B2 as [-> | ->]; change (Fval F0) with 0; change (Fval F1) with 1;
      apply word_limbs_ext; cbn [set_limb Z.eqb Pos.eqb Z.mul Z.add Pos.mul Pos.add limb0 limb1 limb2 limb3];
      rewrite ?W0, ?W1, ?W2, ?W3; ring. }
  destruct (set_limb_spec prev (2 * Fval o2) (limb0 src) Vp (proj1 Vs) ltac:(lia)) as [V1 H1].
  destruct (set_limb_spec _ (2 * Fval o2 + 1) (limb1 src) V1 (proj1 (proj2 Vs)) ltac:(lia)) as [Vw Hv].
  rewrite <- Ew in Vw, Hv. split; [exact Vw|]. cbn [store_value]. unfold is_multiple_of. rewrite P4, P3.
  cbn [Z.eqb assertb bind]. change 0xFFFFFFFF with (2 ^ 32 - 1).
  rewrite insert_bits_eq, insert_bits_add by (try apply word_val_bound; try assumption; lia).
  rewrite (word_val_mod32 src Vs), <- shr_land by lia. change (2 ^ 32 - 1) with 0xFFFFFFFF.
  rewrite word_of, Hv, H1 by lia. unfold half_val. f_equal.
  assert (El : limb16 (word_val (set_limb prev (2 * Fval o2) (limb0 src))) (2 * Fval o2 + 1)
               = limb16 (word_val prev) (2 * Fval o2 + 1)).
  { destruct (word_limbs _ V1) as (_ & K1 & _ & K3). destruct (word_limbs _ Vp) as (_ & L1 & _ & L3).
    destruct B2 as [E2 | E2]; rewrite E2 in K1, K3 |- *; change (Fval F0) with 0 in *; change (Fval F1) with 1 in *;
      cbn [Z.mul Z.add Pos.mul Pos.add] in *; rewrite ?K1, ?K3, ?L1, ?L3; reflexivity. }
  rewrite <- H1, El, H1. replace (16 * (2 * Fval o2 + 1)) with (Fval o2 * 32 + 16) by lia.
  replace (16 * (2 * Fval o2)) with (Fval o2 * 32) by lia. rewrite pow2_split by lia. lia.
Qed.
End StoreValues.

Section Sound.
Context (rrs : MajorOpcodes) (cfg : Config) (row : list Emit) (Hs : sats row).

Lemma load_double_chip_steps (local : LoadDoubleChip.Cols) :
  LoadDoubleChip.eval rrs cfg local = Ok row -> LoadDoubleChip.is_real local = F1 -> step_row row.
Proof.
  intros E Hr. unfold LoadDoubleChip.eval in E. rewrite Hr in E. memory_chip_row E.
  apply memory_row_step; [memory_quiet | memory_quiet | assumption | rewrite sats_app; tauto | left; reflexivity |].
  intros pc i Hfr _ _ Hm Eo _ _ _ Vp Ib Ic Eic. split; [exact Vp|]. split; [exact Vp|]. intros clk ta tb tc tm.
  apply load_step; auto; [exact (fr_x0 Hfr)|].
  pose proof (fr_opcode Hfr) as Eop. apply (opcode_of_F LD) in Eop. rewrite <- Eop. cbn [load_value].
  unfold is_multiple_of. rewrite Eo. reflexivity.
Qed.


Lemma load_half_chip_steps (local : LoadHalfChip.Cols) :
  LoadHalfChip.eval rrs cfg local = Ok row -> sum_flags (LoadHalfChip.flags local) = F1 -> step_row row.
Proof.
  intros E Hr. unfold LoadHalfChip.eval in E. rewrite Hr in E. memory_chip_row E.
  apply memory_row_step; [memory_quiet | memory_quiet | assumption | rewrite !sats_app; tauto | left; reflexivity |].
  intros pc i Hfr Hpre Hpost Hm Eo B0 B1 B2 Vp Ib Ic Eic.
  rewrite !sats_app, !sats_bool in Hpre. destruct Hpre as (Bf1 & Bf2 & _).
  rewrite !sats_app in Hpost. destruct Hpost as (_ & Hsel & Hlhu & Hmsb).
  pose proof (two_flags _ _ LH LHU (opcode i) Bf1 Bf2 Hr (fr_opcode Hfr)) as Hf.
  destruct (load_half_value _ _ _ _ _ Vp Hm Eo B0 B1 B2 _ _ _ _ _ Hf eq_refl Hsel Hlhu Hmsb) as [Vw Hv].
  split; [exact Vw|]. split; [exact Vp|]. intros clk ta tb tc tm. apply load_step; auto. exact (fr_x0 Hfr).
Qed.

Lemma load_word_chip_steps (local : LoadWordChip.Cols) :
  LoadWordChip.eval rrs cfg local = Ok row -> sum_flags (LoadWordChip.flags local) = F1 -> step_row row.
Proof.
  intros E Hr. unfold LoadWordChip.eval in E. rewrite Hr in E. memory_chip_row E.
  apply memory_row_step; [memory_quiet | memory_quiet | assumption | rewrite !sats_app; tauto | left; reflexivity |].
  intros pc i Hfr Hpre Hpost Hm Eo B0 B1 B2 Vp Ib Ic Eic.
  rewrite !sats_app, !sats_bool in Hpre. destruct Hpre as (Bf1 & Bf2 & _).
  rewrite !sats_app in Hpost. destruct Hpost as (_ & H0 & H1 & H2 & H3 & Hmsb & Hlwu).
  pose proof (two_flags _ _ LW LWU (opcode i) Bf1 Bf2 Hr (fr_opcode Hfr)) as Hf.
  destruct (load_word_value _ _ _ _ _ Vp Hm Eo B0 B1 B2 _ _ _ _ _ _ Hf eq_refl eq_refl H0 H1 H2 H3 Hmsb Hlwu) as [Vw Hv].
  split; [exact Vw|]. split; [exact Vp|]. intros clk ta tb tc tm. apply load_step; auto. exact (fr_x0 Hfr).
Qed.

Lemma load_byte_chip_steps (local : LoadByteChip.Cols) :
  LoadByteChip.eval rrs cfg local = Ok row -> sum_flags (LoadByteChip.flags local) = F1 -> step_row row.
Proof.
  intros E Hr. unfold LoadByteChip.eval in E. rewrite Hr in E. memory_chip_row E.
  apply memory_row_step; [memory_quiet | memory_quiet | assumption | rewrite !sats_app; tauto | left; reflexivity |].
  intros pc i Hfr Hpre Hpost Hm Eo B0 B1 B2 Vp Ib Ic Eic.
  rewrite !sats_app, !sats_bool in Hpre. destruct Hpre as (Bf1 & Bf2 & _).
  rewrite !sats_app, sats_eq in Hpost. destruct Hpost as (_ & Hsel & H8 & Ey & Hlbu & Hmsb).
  pose proof (two_flags _ _ LB LBU (opcode i) Bf1 Bf2 Hr (fr_opcode Hfr)) as Hf.
  destruct (load_byte_value _ _ _ _ _ Vp Eo B0 B1 B2 _ _ _ _ _ _ _ Hf Hsel H8 Ey Hlbu Hmsb) as [Vw Hv].
  split; [exact Vw|]. split; [exact Vp|]. intros clk ta tb tc tm. apply load_step; auto. exact (fr_x0 Hfr).
Qed.

Lemma load_x0_chip_steps (local : LoadX0Chip.Cols) :
  LoadX0Chip.eval rrs cfg local = Ok row -> sum_flags (LoadX0Chip.flags local) = F1 -> step_row row.
Proof.
  intros E Hr. unfold LoadX0Chip.eval in E. rewrite Hr in E. memory_chip_row E.
  apply memory_row_step; [memory_quiet | memory_quiet | assumption | rewrite !sats_app; tauto | left; reflexivity |].
  intros pc i Hfr Hpre Hpost Hm Eo B0 B1 B2 Vp Ib Ic Eic.
  rewrite !sats_app in Hpre. destruct Hpre as (Hfl & _ & _ & A2 & A1 & A0).
  rewrite sats_app, sats_when_1 in Hpost. destruct Hpost as [[Hz _] _]. specialize (Hz I). cbn [holds] in Hz.
  assert (Ha : op_a i = 0).
  { pose proof (f_equal InstructionCols.op_a_0 (fr_instruction Hfr)) as Ez.
    cbn [rd_instruction IType_reader ITypeReader.instruction InstructionCols.op_a_0 InstructionCols.populate] in Ez.
    rewrite Hz in Ez. apply Fof_bool_inj1 in Ez. apply Z.eqb_eq, Ez. }
  pose proof (fr_x0 Hfr Ha) as Ew.
  destruct (load_x0_value (word_val (MemoryAccess.prev_value (LoadX0Chip.memory_access local))) _ _ _ _ Hm Eo B0 B1 B2
              local (opcode i) Hfl Hr (fr_opcode Hfr) A2 A1 A0) as [r Hv].
  rewrite Ew. split; [repeat split; reflexivity|]. split; [exact Vp|]. intros clk ta tb tc tm.
  replace (word_val word_zero) with (rd_value i r) by (unfold rd_value; rewrite Ha; reflexivity).
  apply step_load; auto.
Qed.

Lemma store_double_chip_steps (local : StoreDoubleChip.Cols) :
  StoreDoubleChip.eval rrs cfg local = Ok row -> StoreDoubleChip.is_real local = F1 -> step_row row.
Proof.
  intros E Hr. unfold StoreDoubleChip.eval in E. rewrite Hr in E. memory_chip_row E.
  match goal with |- context [MemoryAccess.eval_write ?h ?l ?a ?acc ?w ?r] =>
    rewrite <- (app_nil_r (MemoryAccess.eval_write h l a acc w r)) in Hs |- * end.
  apply memory_row_step; [memory_quiet | memory_quiet | assumption | rewrite sats_app; tauto | right; reflexivity |].
  intros pc i Hfr _ _ Hm Eo _ _ _ Vp Ib Ic Eic. split; [exact (fr_a Hfr)|]. split; [exact (fr_a Hfr)|].
  intros clk ta tb tc tm. apply step_store; auto.
  pose proof (fr_opcode Hfr) as Eop. apply (opcode_of_F SD) in Eop. rewrite <- Eop. cbn [store_value].
  unfold is_multiple_of. rewrite Eo. reflexivity.
Qed.

Lemma store_half_chip_steps (local : StoreHalfChip.Cols) :
  StoreHalfChip.eval rrs cfg local = Ok row -> StoreHalfChip.is_real local = F1 -> step_row row.
Proof.
  intros E Hr. unfold StoreHalfChip.eval in E. rewrite Hr in E. memory_chip_row E.
  apply memory_row_step; [memory_quiet | memory_quiet | assumption | rewrite sats_app; tauto | right; reflexivity |].
  intros pc i Hfr _ Hpost Hm Eo B0 B1 B2 Vp Ib Ic Eic. pose proof (fr_a Hfr) as Va. split; [exact Va|].
  cbn [rd_a IType_reader] in Va.
  rewrite !sats_app, !sats_eq in Hpost. destruct Hpost as (W0 & W1 & W2 & W3).
  pose proof (fr_opcode Hfr) as Eop. apply (opcode_of_F SH) in Eop.
  destruct (store_half_value (MemoryAccess.prev_value (StoreHalfChip.memory_access local)) _ (StoreHalfChip.store_value local)
              _ _ _ _ Vp Va Hm Eo B0 B1 B2 eq_refl) as [Vw Hv].
  { eapply (limb_replaced _ _ _ _ B1 B2 _ _ _ _ _ W0 W1 W2 W3); intros _ _; ring. }
  split; [exact Vw|]. intros clk ta tb tc tm. apply step_store; auto. rewrite <- Eop. exact Hv.
Qed.

Lemma store_word_chip_steps (local : StoreWordChip.Cols) :
  StoreWordChip.eval rrs cfg local = Ok row -> StoreWordChip.is_real local = F1 -> step_row row.
Proof.
  intros E Hr. unfold StoreWordChip.eval in E. rewrite Hr in E. memory_chip_row E.
  apply memory_row_step; [memory_quiet | memory_quiet | assumption | rewrite sats_app; tauto | right; reflexivity |].
  intros pc i Hfr _ Hpost Hm Eo B0 B1 B2 Vp Ib Ic Eic. pose proof (fr_a Hfr) as Va. split; [exact Va|].
  cbn [rd_a IType_reader] in Va.
  rewrite !sats_app, !sats_eq in Hpost. destruct Hpost as (W0 & W1 & W2 & W3).
  pose proof (fr_opcode Hfr) as Eop. apply (opcode_of_F SW) in Eop.
  destruct (store_word_value _ _ _ _ _ _ _ Vp Va Hm Eo B0 B1 B2 eq_refl eq_refl W0 W1 W2 W3) as [Vw Hv].
  split; [exact Vw|]. intros clk ta tb tc tm. apply step_store; auto. rewrite <- Eop. exact Hv.
Qed.

Lemma store_byte_chip_steps (local : StoreByteChip.Cols) :
  StoreByteChip.eval rrs cfg local = Ok row -> StoreByteChip.is_real local = F1 -> step_row row.
Proof.
  intros E Hr. unfold StoreByteChip.eval in E. rewrite Hr in E. memory_chip_row E.
  apply memory_row_step; [memory_quiet | memory_quiet | assumption | rewrite sats_app; tauto | right; reflexivity |].
  intros pc i Hfr _ Hpost Hm Eo B0 B1 B2 Vp Ib Ic Eic. pose proof (fr_a Hfr) as Va. split; [exact Va|].
  cbn [rd_a IType_reader] in Va.
  rewrite !sats_app, !sats_eq in Hpost. destruct Hpost as (Hsel & H8 & Hm8 & Einc & W0 & W1 & W2 & W3).
  destruct (select_limb_sound _ _ _ _ B1 B2 Vp Hsel) as [Ux Ex].
  pose proof (fr_opcode Hfr) as Eop. apply (opcode_of_F SB) in Eop.
  destruct (store_byte_value (MemoryAccess.prev_value (StoreByteChip.memory_access local)) _ (StoreByteChip.store_value local)
              _ _ _ _ Vp Va Eo B0 B1 B2 _ _ Ux Ex H8 _ Hm8) as [Vw Hv].
  { rewrite <- Einc. unfold select_limb in Hsel. rewrite !sats_app in Hsel. destruct Hsel as (S0 & S1 & S2 & S3).
    set (inc := StoreByteChip.increment local) in *.
    apply (limb_replaced _ _ _ _ B1 B2 _ inc inc inc inc);
      [rewrite W0; ring | rewrite W1; ring | rewrite W2; ring | rewrite W3; ring | | | |];
      intros E1 E2; f_equal; symmetry.
    - rewrite E1, E2, !sats_when_not_0 in S0. exact (proj1 (sats_eq _ _) S0).
    - rewrite E1, E2, sats_when_1, sats_when_not_0 in S1. exact (proj1 (sats_eq _ _) S1).
    - rewrite E1, E2, sats_when_not_0, sats_when_1 in S2. exact (proj1 (sats_eq _ _) S2).
    - rewrite E1, E2, !sats_when_1 in S3. exact (proj1 (sats_eq _ _) S3). }
  split; [exact Vw|]. intros clk ta tb tc tm. apply step_store; auto. rewrite <- Eop. exact Hv.
Qed.
End Sound.
