(* ===== verification/MemoryComplete.v ===== *)
(** * Completeness of the memory instruction chips

    The row generated for a memory event of the executor satisfies its chip,
    and its byte lookups are the events recorded for it. *)

From Stdlib Require Import ZArith Lia List Bool Permutation.
From S2P Require Import Prelude Words Isa Field Air AirFacts SmallInverse Operations Mul.
From S2P Require Import Adapter AdapterFacts Row Readers AluChips AluChipFacts Address MemoryChips MemoryChipFacts.
Import ListNotations.
Open Scope Z_scope.

(** ** Memory events

    What a memory event of the executor satisfies: an aligned clock, the
    operands of the recorded register accesses, an address above the
    registers, and a memory access at [clk + 1]. *)
Record mem_event_ok (event : MemInstrEvent) (rec : ITypeRecord) : Prop := mkMemEventOk {
  mo_clk : clk_ok (me_clk event);
  mo_b : is_u64 (me_b event);
  mo_c : is_u64 (me_c event);
  mo_addr : memory_address (wrapping_add (me_b event) (me_c event));
  mo_access : access_at (me_clk event) 1 (me_mem_access event);
  mo_mem : is_u64 (record_prev_value (me_mem_access event));
  mo_rec_a : access_at (me_clk event) 4 (it_a rec);
  mo_rec_b : access_at (me_clk event) 3 (it_b rec);
  mo_val_b : record_prev_value (it_b rec) = me_b event;
  mo_val_c : it_op_c rec = me_c event
}.

Definition mem_event_addr (event : MemInstrEvent) : Z := wrapping_add (me_b event) (me_c event).

(** A load leaves memory as it is and gets the value [load_value] computes. *)
Definition load_event_ok (event : MemInstrEvent) : Prop :=
  record_value (me_mem_access event) = record_prev_value (me_mem_access event) /\
  load_value (me_opcode event) (mem_event_addr event) (record_value (me_mem_access event)) = Ok (me_a event).

(** A store leaves its source register as it is, and the doubleword gets the
    value [store_value] computes. *)
Definition store_event_ok (event : MemInstrEvent) (rec : ITypeRecord) : Prop :=
  record_prev_value (it_a rec) = me_a event /\ is_u64 (me_a event) /\ (it_op_a rec = 0 -> me_a event = 0) /\
  store_value (me_opcode event) (me_a event) (mem_event_addr event) (record_prev_value (me_mem_access event))
  = Ok (record_value (me_mem_access event)).

(** ** Lookups *)

Lemma complete_off (o a b c : F) : complete (send_byte o a b c F0) [].
Proof. split; cbn; [split; [intros C; exfalso; apply C; reflexivity | exact I] | rewrite Feqb_refl; reflexivity]. Qed.

Lemma complete_msb (b : Z) :
  0 <= b < 2 ^ 8 ->
  complete (send_byte (byte_op BMSB) (Fof (shr b 7)) (Fof b) F0 F1) [mkByteLookupEvent BMSB (shr b 7) b 0] /\
  Fof (shr b 7) = Fof (if b <? 2 ^ 7 then 0 else 1).
Proof.
  intros Hb. assert (E : shr b 7 = if b <? 2 ^ 7 then 0 else 1)
    by (rewrite shr_div by lia; destruct (Z.ltb_spec b (2 ^ 7)); dlia).
  split; [|rewrite E; reflexivity]. split.
  - cbn [send_byte sats sat kind multiplicity values]. split; [|exact I]. intros _. apply lookup_msb. rewrite E, (Fval_of_small b) by (unfold KOALA_BEAR_ORDER; lia).
    split; [lia|]. change 128 with (2 ^ 7). destruct (b <? 2 ^ 7); reflexivity.
  - cbn. rewrite (Feqb_neq F1 F0 F1_neq_0). reflexivity.
Qed.

Lemma complete_bytes (x : Z) :
  0 <= x < 2 ^ 16 ->
  complete (slice_range_check_u8 [Fof (Z.land x 0xFF); ((Fof x - Fof (Z.land x 0xFF)) * Finv (Fof (2 ^ 8)))%F] F1)
           (add_u8_range_checks (u16_to_le_bytes x)) /\
  ((Fof x - Fof (Z.land x 0xFF)) * Finv (Fof (2 ^ 8)))%F = Fof (x / 2 ^ 8).
Proof.
  intros Hx. change 0xFF with (2 ^ 8 - 1). rewrite land_mask by lia.
  assert (E : ((Fof x - Fof (x mod 2 ^ 8)) * Finv (Fof (2 ^ 8)))%F = Fof (x / 2 ^ 8)).
  { apply Finv_mul_solve; [apply Fof_neq_0; unfold KOALA_BEAR_ORDER; lia|]. F_fold. f_equal. dlia. }
  rewrite E. split; [|reflexivity]. cbn [slice_range_check_u8 u16_to_le_bytes le_bytes add_u8_range_checks app].
  rewrite (Z.mod_small (x / 2 ^ 8)) by dlia. rewrite !app_nil_r. apply complete_u8_pair; dlia.
Qed.

Ltac guard_off := exfalso; match goal with C : ?x <> F0 |- _ => apply C; first [reflexivity | ring] end.

Lemma complete_select_limb (v b1 b2 : Z) :
  (b1 = 0 \/ b1 = 1) -> (b2 = 0 \/ b2 = 1) ->
  complete (select_limb (Fof b1) (Fof b2) (Fof (nth (Z.to_nat (2 * b2 + b1)) (u64_to_u16_limbs v) 0)) (word_from_u64 v)) [].
Proof.
  intros H1 H2. apply complete_asserts; [|reflexivity]. rewrite u64_to_u16_limbs_eq, word_from_u64_limbs.
  destruct H1 as [-> | ->], H2 as [-> | ->]; cbn;
    repeat split; intros (? & ? & _); first [reflexivity | guard_off].
Qed.

Lemma addr_bit_0 (x : Z) : as_u16 (Z.land x 1) = addr_bit x 0.
Proof. unfold addr_bit, shr. rewrite Z.shiftr_0_r. reflexivity. Qed.

Lemma limb_bound (v : Z) (n : nat) : 0 <= nth n (u64_to_u16_limbs v) 0 < 2 ^ 16.
Proof.
  rewrite u64_to_u16_limbs_eq. do 4 (destruct n as [|n]; [apply limb16_bound|]). destruct n; cbn; lia.
Qed.

Lemma sum_two (b : bool) : sum_flags [Fof_bool b; Fof_bool (negb b)] = F1.
Proof. destruct b; cbn [sum_flags fold_left Fof_bool negb]; ring. Qed.

(** The part of a load that depends on the sign of the opcode. *)
Lemma complete_signed (signed : bool) (l : list Emit) (ev : list ByteLookupEvent) (m : F) :
  complete l (if signed then ev else []) -> (signed = false -> m = F0) ->
  complete (when (Fof_bool (negb signed)) (assert_zero m) ++ l) (if signed then ev else []).
Proof.
  intros Hl Hm. apply complete_asserts_app; [|exact Hl]. apply complete_when_zero. intros C.
  destruct signed; [exfalso; apply C; reflexivity | apply Hm; reflexivity].
Qed.

(** The alignment a memory opcode needs. *)
Definition access_size (o : Opcode) : Z :=
  match o with LH | LHU | SH => 2 | LW | LWU | SW => 4 | LD | SD => 8 | _ => 1 end.

Lemma assert_ok {A} (b : bool) (m : Res A) (r : A) : (assert! b ;; m) = Ok r -> b = true /\ m = Ok r.
Proof. destruct b; cbn; [auto | discriminate]. Qed.

Lemma load_value_aligned (o : Opcode) (a v r : Z) : load_value o a v = Ok r -> a mod access_size o = 0.
Proof.
  destruct o; cbn [load_value access_size]; try discriminate; intros E; try apply Z.mod_1_r;
    apply assert_ok in E as [E _]; apply Z.eqb_eq, E.
Qed.

Lemma store_value_aligned (o : Opcode) (s a v r : Z) : store_value o s a v = Ok r -> a mod access_size o = 0.
Proof.
  destruct o; cbn [store_value access_size]; try discriminate; intros E; try apply Z.mod_1_r;
    apply assert_ok in E as [E _]; apply Z.eqb_eq, E.
Qed.

(** ** What every memory row is made of *)
Section Complete.
Context (rrs : MajorOpcodes) (cfg : Config) (user : bool) (event : MemInstrEvent) (rec : ITypeRecord).
Context (Hcfg : cfg_ok cfg user) (He : mem_event_ok event rec).

Abbreviation addr := (wrapping_add (me_b event) (me_c event)).
Abbreviation mem := (record_prev_value (me_mem_access event)).

Record mem_parts (acc : MemoryAccess.Cols) (ev1 : list ByteLookupEvent) (aop : AddressOperation.Cols)
    (ev2 : list ByteLookupEvent) (st : CPUState.Cols) (ev3 : list ByteLookupEvent) (ad : ITypeReader.Cols)
    (ev4 : list ByteLookupEvent) : Prop := mkMemParts {
  mp_prev : MemoryAccess.prev_value acc = word_from_u64 mem;
  mp_b : ITypeReader.b ad = word_from_u64 (me_b event);
  mp_c : ITypeReader.c ad = word_from_u64 (me_c event);
  mp_a : ITypeReader.prev_a ad = word_from_u64 (record_prev_value (it_a rec));
  mp_a0 : ITypeReader.op_a_0 ad = Fof_bool (it_op_a rec =? 0);
  mp_address : forall o0 o1 o2, is_bool o0 -> is_bool o1 -> is_bool o2 -> offset_of o0 o1 o2 = addr mod 8 ->
    complete (fst (AddressOperation.eval (word_from_u64 (me_b event)) (word_from_u64 (me_c event)) o0 o1 o2 F1 aop)) ev2;
  mp_access : forall al w,
    complete (MemoryAccess.eval_write (CPUState.clk_high st) (CPUState.clk_low st + Fof 1)%F al acc w F1) ev1;
  mp_frame : forall op cs v al p, (it_op_a rec = 0 -> v = word_zero) ->
    complete (frame cfg (trust_cols user (it_is_untrusted rec)) st ad op cs v (pc_inc st)
                (page_prot_request (trust_cols user (it_is_untrusted rec)) (CPUState.clk_high st)
                   (CPUState.clk_low st + Fof 1)%F al p F1) F1) (ev3 ++ ev4)
}.

Lemma addr_bits_bool (i : Z) : 0 <= i -> is_bool (Fof (addr_bit addr i)).
Proof. intros Hi. apply bit_is_bool, addr_bit_bool, Hi. Qed.

Lemma Fval_bit (i : Z) : 0 <= i -> Fval (Fof (addr_bit addr i)) = addr_bit addr i.
Proof. intros Hi. apply Fval_of_small. unfold KOALA_BEAR_ORDER. destruct (addr_bit_bool addr i Hi); lia. Qed.

Lemma addr_offset :
  offset_of (Fof (addr_bit addr 0)) (Fof (addr_bit addr 1)) (Fof (addr_bit addr 2)) = addr mod 8.
Proof.
  unfold offset_of. rewrite !Fval_bit, (offset_bits addr) by (try lia; apply wrapping_add_bound). reflexivity.
Qed.

(** The offset of an aligned access. *)
Lemma addr_offset_2 : addr mod 2 = 0 -> offset_of F0 (Fof (addr_bit addr 1)) (Fof (addr_bit addr 2)) = addr mod 8.
Proof.
  intros E. rewrite <- addr_offset. unfold offset_of. rewrite !Fval_bit, (addr_bit_eq addr 0) by lia.
  change (2 ^ 0) with 1. rewrite Z.div_1_r, E. reflexivity.
Qed.

Lemma addr_offset_4 : addr mod 4 = 0 -> offset_of F0 F0 (Fof (addr_bit addr 2)) = addr mod 8.
Proof.
  intros E. rewrite <- addr_offset_2 by dlia. unfold offset_of. rewrite !Fval_bit, (addr_bit_eq addr 1) by lia.
  change (2 ^ 1) with 2. replace (addr / 2 mod 2) with 0 by dlia. reflexivity.
Qed.

Lemma mem_parts_ok :
  exists acc ev1 aop ev2, MemoryAccess.populate (me_mem_access event) = Ok (acc, ev1) /\
    AddressOperation.populate (me_b event) (me_c event) = Ok (aop, ev2, addr) /\
    let '(st, ev3) := CPUState.populate (me_clk event) (me_pc event) in
    let '(ad, ev4) := ITypeReader.populate rec in mem_parts acc ev1 aop ev2 st ev3 ad ev4.
Proof.
  destruct He as [Hc Hb Hcc Ha Hacc Hm Ra Rb Vb Vc].
  destruct (mem_access_complete _ _ Hc Hacc) as (acc & ev1 & Eacc & Hprev & Hw).
  pose proof (fun o0 o1 o2 => address_complete _ _ o0 o1 o2 Hb Hcc Ha) as Had.
  destruct (Had _ _ _ (addr_bits_bool 0 ltac:(lia)) (addr_bits_bool 1 ltac:(lia)) (addr_bits_bool 2 ltac:(lia)) addr_offset)
    as (aop & ev2 & Eaddr & _).
  exists acc, ev1, aop, ev2. split; [exact Eacc|]. split; [exact Eaddr|].
  pose proof (fun h p op v t Hv => i_type_complete (me_clk event) rec h p op v t Hc Hv Ra Rb) as Hrd.
  destruct (cpu_state_cols (me_clk event) (me_pc event) (proj1 Hc)) as [Eh El].
  pose proof (populate_prev_value (it_b rec)) as Pb. pose proof (populate_prev_value (it_a rec)) as Pa.
  assert (Hops : let ad := fst (ITypeReader.populate rec) in
    ITypeReader.b ad = word_from_u64 (me_b event) /\ ITypeReader.c ad = word_from_u64 (me_c event) /\
    ITypeReader.prev_a ad = word_from_u64 (record_prev_value (it_a rec)) /\
    ITypeReader.op_a_0 ad = Fof_bool (it_op_a rec =? 0)).
  { unfold ITypeReader.populate, ITypeReader.b, ITypeReader.c, ITypeReader.prev_a, record_prev_value in *.
    destruct (RegisterAccess.populate (it_a rec)), (RegisterAccess.populate (it_b rec)).
    cbn [fst ITypeReader.op_b_memory ITypeReader.op_a_memory ITypeReader.op_c_imm ITypeReader.op_a_0] in *.
    rewrite Pb, Pa, Vb, Vc. auto. }
  destruct (ITypeReader.populate rec) as [ad ev4]. cbn [fst] in Hops. destruct Hops as (Eb & Ec & Ea & E0).
  pose proof (fun op cs v mid Hv Hmid => frame_complete cfg user (it_is_untrusted rec) ad op cs v mid (me_clk event)
    (me_pc event) ev4 Hc Hcfg Hmid (fun h p t => Hrd h p op v t Hv)) as Hfr.
  destruct (CPUState.populate (me_clk event) (me_pc event)) as [st ev3]. cbn [fst] in Eh, El.
  split; try assumption.
  - intros o0 o1 o2 B0 B1 B2 Eo. destruct (Had o0 o1 o2 B0 B1 B2 Eo) as (aop' & ev2' & E' & Hcomp).
    rewrite Eaddr in E'. injection E' as <- <-. exact Hcomp.
  - intros al w. rewrite Eh, El. apply Hw.
  - intros op cs v al p Hv. apply Hfr; [exact Hv | apply complete_page_prot].
Qed.

Lemma mem_row_complete (pre access post fr : list Emit) (e1 e2 e3 e4 : list ByteLookupEvent) :
  complete pre e2 -> complete access e1 -> complete post e3 -> complete fr e4 ->
  complete ((pre ++ access ++ post) ++ fr) (e1 ++ e2 ++ e3 ++ e4).
Proof.
  intros H2 H1 H3 H4. apply (complete_perm _ ((e2 ++ e1 ++ e3) ++ e4)).
  - rewrite !app_assoc. do 2 apply Permutation_app_tail. apply Permutation_app_comm.
  - repeat (apply complete_app; try assumption).
Qed.

Lemma bool_true : is_bool F1.
Proof. right. reflexivity. Qed.
Lemma bool_false : is_bool F0.
Proof. left. reflexivity. Qed.

(** The generated row, opened into its parts. *)
Ltac open_row :=
  destruct mem_parts_ok as (acc & ev1 & aop & ev2 & Eacc & Eaddr & Hparts);
  rewrite Eacc; cbn [bind]; rewrite Eaddr; cbn [bind];
  destruct (CPUState.populate (me_clk event) (me_pc event)) as [st ev3];
  destruct (ITypeReader.populate rec) as [ad ev4]; destruct Hparts as [Hprev Hb Hc Ha H0 Haddress Haccess Hframe].
Ltac open_eval :=
  match goal with |- context [AddressOperation.eval ?b ?c ?o0 ?o1 ?o2 ?r ?a] =>
    rewrite (surjective_pairing (AddressOperation.eval b c o0 o1 o2 r a)) end;
  eexists; split; [reflexivity|]; cbn [snd];
  change (position_num PMemory) with 1;
  repeat match goal with |- context [MemoryAccess.eval_read ?h ?l ?a ?acc ?r] =>
      change (MemoryAccess.eval_read h l a acc r)
        with (MemoryAccess.eval_write h l a acc (MemoryAccess.prev_value acc) r) end.

Lemma load_double_chip_completes :
  me_opcode event = LD -> load_event_ok event -> it_op_a rec <> 0 ->
  exists r, LoadDoubleChip.event_to_row user event rec = Ok r /\ chip_complete (LoadDoubleChip.eval rrs cfg) r.
Proof.
  intros Eop [_ Hv] Hrd. unfold LoadDoubleChip.event_to_row. open_row. eexists. split; [reflexivity|].
  unfold chip_complete, LoadDoubleChip.eval.
  cbn [fst LoadDoubleChip.state LoadDoubleChip.adapter LoadDoubleChip.address_operation LoadDoubleChip.memory_access
       LoadDoubleChip.is_real LoadDoubleChip.adapter_cols].
  rewrite Hb, Hc, H0. cbn [single_consts funct3 of_option bind]. open_eval.
  apply (mem_row_complete _ _ _ _ ev1 ev2 []).
  - apply complete_asserts_app; [apply bool_1|]. apply Haddress; try apply bool_false.
    unfold load_event_ok, mem_event_addr in Hv. rewrite Eop in Hv. cbn [load_value] in Hv. unfold is_multiple_of in Hv.
    destruct (Z.eqb_spec (addr mod 8) 0) as [E|]; [rewrite E; reflexivity | discriminate].
  - apply Haccess.
  - apply complete_zero. rewrite (proj2 (Z.eqb_neq _ _) Hrd). reflexivity.
  - apply Hframe. contradiction.
Qed.

Lemma load_byte_chip_completes :
  (me_opcode event = LB \/ me_opcode event = LBU) -> load_event_ok event -> it_op_a rec <> 0 ->
  exists r, LoadByteChip.event_to_row user event rec = Ok r /\ chip_complete (LoadByteChip.eval rrs cfg) r.
Proof.
  intros Eop [Em _] Hrd. unfold LoadByteChip.event_to_row. open_row. rewrite Em, addr_bit_0.
  change (as_u16 (Z.land (shr addr 1) 1)) with (addr_bit addr 1).
  change (as_u16 (Z.land (shr addr 2) 1)) with (addr_bit addr 2). cbv zeta.
  set (limb := nth (Z.to_nat (2 * addr_bit addr 2 + addr_bit addr 1)) (u64_to_u16_limbs mem) 0).
  pose proof (limb_bound mem (Z.to_nat (2 * addr_bit addr 2 + addr_bit addr 1))) as Bl. fold limb in Bl.
  set (byte := nth (Z.to_nat (addr_bit addr 0)) (u16_to_le_bytes limb) 0).
  assert (Hbyte : byte = (if addr_bit addr 0 =? 0 then limb mod 2 ^ 8 else limb / 2 ^ 8) /\ 0 <= byte < 2 ^ 8).
  { unfold byte, u16_to_le_bytes. cbn [le_bytes]. rewrite (Z.mod_small (limb / 2 ^ 8)) by dlia.
    clearbody limb. destruct (addr_bit_bool addr 0 ltac:(lia)) as [-> | ->];
      [change (Z.to_nat 0) with 0%nat | change (Z.to_nat 1) with 1%nat]; cbn [nth Z.eqb]; split; try reflexivity; dlia. }
  eexists. split; [reflexivity|]. unfold chip_complete, LoadByteChip.eval, LoadByteChip.flags.
  cbn [fst LoadByteChip.state LoadByteChip.adapter LoadByteChip.address_operation LoadByteChip.memory_access
       LoadByteChip.adapter_cols LoadByteChip.is_lb LoadByteChip.is_lbu LoadByteChip.offset_bit0 LoadByteChip.offset_bit1
       LoadByteChip.offset_bit2 LoadByteChip.selected_limb LoadByteChip.selected_limb_low_byte LoadByteChip.selected_byte
       LoadByteChip.msb].
  rewrite Hb, Hc, H0, sum_two.
  match goal with |- context [flag_consts rrs ?fl LoadByteChip.opcodes] =>
    assert (exists cs, flag_consts rrs fl LoadByteChip.opcodes = Ok cs) as [cs ->] by (eexists; reflexivity) end.
  cbn [bind]. open_eval. rewrite (app_assoc (add_u8_range_checks _)). apply mem_row_complete.
  - do 2 (apply complete_asserts_app; [apply complete_bool, Fof_bool_is_bool|]).
    apply complete_asserts_app; [apply bool_1|]. apply Haddress; try apply addr_bits_bool; try lia. apply addr_offset.
  - apply Haccess.
  - destruct (complete_bytes limb Bl) as [Hb8 Ehi]. rewrite (proj2 (Z.eqb_neq _ _) Hrd), Hprev, Ehi.
    apply complete_asserts_app; [apply complete_zero; reflexivity|].
    apply complete_asserts_app; [apply complete_select_limb; apply addr_bit_bool; lia|].
    rewrite Ehi in Hb8. apply complete_app; [exact Hb8|].
    apply complete_asserts_app.
    + apply complete_eq. destruct Hbyte as [-> _]. change 0xFF with (2 ^ 8 - 1). rewrite land_mask by lia.
      destruct (addr_bit_bool addr 0 ltac:(lia)) as [-> | ->]; cbn [Z.eqb]; [change (Fof 0) with F0 | change (Fof 1) with F1]; ring.
    + apply complete_signed.
      * destruct (opcode_eqb _ LB); [apply complete_msb, Hbyte | apply complete_off].
      * intros ->. reflexivity.
  - apply Hframe. contradiction.
Qed.

(** The sign of a half or of a word. *)
Lemma complete_load_msb (signed : bool) (x : Z) :
  0 <= x < 2 ^ 16 ->
  let '(m, ev) := if signed then fst (U16MSBOperation.populate_msb x) else (U16MSBOperation.mkCols F0, []) in
  complete (U16MSBOperation.eval_msb (Fof x) m (Fof_bool signed)) ev /\ (signed = false -> U16MSBOperation.msb m = F0).
Proof.
  intros Hx. pose proof (msb_complete x Hx) as Hm. destruct signed.
  - destruct (U16MSBOperation.populate_msb x) as [[m ev] r]. cbn [fst]. split; [apply Hm | discriminate].
  - split; [|reflexivity]. unfold U16MSBOperation.eval_msb. cbn [Fof_bool U16MSBOperation.msb].
    do 2 (apply complete_asserts_app; [apply complete_bool, bool_false|]). apply complete_off.
Qed.

Lemma load_half_chip_completes :
  (me_opcode event = LH \/ me_opcode event = LHU) -> load_event_ok event -> it_op_a rec <> 0 ->
  exists r, LoadHalfChip.event_to_row user event rec = Ok r /\ chip_complete (LoadHalfChip.eval rrs cfg) r.
Proof.
  intros Eop [Em Hv] Hrd. unfold LoadHalfChip.event_to_row. open_row. rewrite Em.
  change (as_u16 (Z.land (shr addr 1) 1)) with (addr_bit addr 1).
  change (as_u16 (Z.land (shr addr 2) 1)) with (addr_bit addr 2). cbv zeta.
  set (limb := nth (Z.to_nat (2 * addr_bit addr 2 + addr_bit addr 1)) (u64_to_u16_limbs mem) 0).
  pose proof (limb_bound mem (Z.to_nat (2 * addr_bit addr 2 + addr_bit addr 1))) as Bl. fold limb in Bl.
  pose proof (complete_load_msb (opcode_eqb (me_opcode event) LH) limb Bl) as Hmsb.
  destruct (if opcode_eqb (me_opcode event) LH then _ else _) as [mc evm]. destruct Hmsb as [Hmsb Hm0].
  eexists. split; [reflexivity|]. unfold chip_complete, LoadHalfChip.eval, LoadHalfChip.flags.
  cbn [fst LoadHalfChip.state LoadHalfChip.adapter LoadHalfChip.address_operation LoadHalfChip.memory_access
       LoadHalfChip.adapter_cols LoadHalfChip.is_lh LoadHalfChip.is_lhu LoadHalfChip.offset_bit0
       LoadHalfChip.offset_bit1 LoadHalfChip.selected_half LoadHalfChip.msb].
  rewrite Hb, Hc, H0, sum_two.
  match goal with |- context [flag_consts rrs ?fl LoadHalfChip.opcodes] =>
    assert (exists cs, flag_consts rrs fl LoadHalfChip.opcodes = Ok cs) as [cs ->] by (eexists; reflexivity) end.
  cbn [bind]. open_eval. apply mem_row_complete.
  - do 2 (apply complete_asserts_app; [apply complete_bool, Fof_bool_is_bool|]).
    apply complete_asserts_app; [apply bool_1|]. apply Haddress; try apply bool_false; try (apply addr_bits_bool; lia).
    apply addr_offset_2. apply load_value_aligned in Hv. destruct Eop as [Eop | Eop]; rewrite Eop in Hv; exact Hv.
  - apply Haccess.
  - rewrite (proj2 (Z.eqb_neq _ _) Hrd), Hprev. apply complete_asserts_app; [apply complete_zero; reflexivity|].
    apply complete_asserts_app; [apply complete_select_limb; apply addr_bit_bool; lia|].
    apply complete_asserts_app; [|exact Hmsb]. apply complete_when_zero. intros C.
    destruct (opcode_eqb (me_opcode event) LH); [exfalso; apply C; reflexivity | apply Hm0; reflexivity].
  - apply Hframe. contradiction.
Qed.

Lemma load_word_chip_completes :
  (me_opcode event = LW \/ me_opcode event = LWU) -> load_event_ok event -> it_op_a rec <> 0 ->
  exists r, LoadWordChip.event_to_row user event rec = Ok r /\ chip_complete (LoadWordChip.eval rrs cfg) r.
Proof.
  intros Eop [Em Hv] Hrd. unfold LoadWordChip.event_to_row. open_row. rewrite Em.
  change (as_u16 (Z.land (shr addr 2) 1)) with (addr_bit addr 2). cbv zeta.
  set (l0 := nth (Z.to_nat (2 * addr_bit addr 2)) (u64_to_u16_limbs mem) 0).
  set (l1 := nth (Z.to_nat (2 * addr_bit addr 2 + 1)) (u64_to_u16_limbs mem) 0).
  pose proof (limb_bound mem (Z.to_nat (2 * addr_bit addr 2 + 1))) as Bl. fold l1 in Bl.
  pose proof (complete_load_msb (opcode_eqb (me_opcode event) LW) l1 Bl) as Hmsb.
  destruct (if opcode_eqb (me_opcode event) LW then _ else _) as [mc evm]. destruct Hmsb as [Hmsb Hm0].
  eexists. split; [reflexivity|]. unfold chip_complete, LoadWordChip.eval, LoadWordChip.flags.
  cbn [fst LoadWordChip.state LoadWordChip.adapter LoadWordChip.address_operation LoadWordChip.memory_access
       LoadWordChip.adapter_cols LoadWordChip.is_lw LoadWordChip.is_lwu LoadWordChip.offset_bit
       LoadWordChip.selected_word0 LoadWordChip.selected_word1 LoadWordChip.msb].
  rewrite Hb, Hc, H0, sum_two.
  match goal with |- context [flag_consts rrs ?fl LoadWordChip.opcodes] =>
    assert (exists cs, flag_consts rrs fl LoadWordChip.opcodes = Ok cs) as [cs ->] by (eexists; reflexivity) end.
  cbn [bind]. open_eval. apply mem_row_complete.
  - do 2 (apply complete_asserts_app; [apply complete_bool, Fof_bool_is_bool|]).
    apply complete_asserts_app; [apply bool_1|]. apply Haddress; try apply bool_false; try (apply addr_bits_bool; lia).
    apply addr_offset_4. apply load_value_aligned in Hv. destruct Eop as [Eop | Eop]; rewrite Eop in Hv; exact Hv.
  - apply Haccess.
  - rewrite (proj2 (Z.eqb_neq _ _) Hrd), Hprev. apply complete_asserts_app; [apply complete_zero; reflexivity|].
    assert (Hsel : forall x w, (addr_bit addr 2 = 0 -> x = w) -> complete (when_not (Fof (addr_bit addr 2)) (assert_eq x w)) []).
    { intros x w Hx. apply complete_when_eq. intros C. destruct (addr_bit_bool addr 2 ltac:(lia)) as [E | E]; [auto|].
      exfalso. apply C. rewrite E. change (Fof 1) with F1. ring. }
    assert (Hsel' : forall x w, (addr_bit addr 2 = 1 -> x = w) -> complete (when (Fof (addr_bit addr 2)) (assert_eq x w)) []).
    { intros x w Hx. apply complete_when_eq. intros C. destruct (addr_bit_bool addr 2 ltac:(lia)) as [E | E]; [|auto].
      exfalso. apply C. rewrite E. reflexivity. }
    unfold l0, l1. rewrite u64_to_u16_limbs_eq, word_from_u64_limbs. cbn [limb0 limb1 limb2 limb3].
    do 2 (apply complete_asserts_app; [apply Hsel; intros E; rewrite E; reflexivity|]).
    do 2 (apply complete_asserts_app; [apply Hsel'; intros E; rewrite E; reflexivity|]).
    apply complete_nil_r; [rewrite <- u64_to_u16_limbs_eq; exact Hmsb|]. apply complete_when_zero. intros C.
    destruct (opcode_eqb (me_opcode event) LW); [exfalso; apply C; cbn [Fof_bool]; ring | apply Hm0; reflexivity].
  - apply Hframe. contradiction.
Qed.

Definition load_x0_opcodeb (o : Opcode) : bool :=
  match o with LB | LBU | LH | LHU | LW | LWU | LD => true | _ => false end.
Lemma load_x0_opcode (o : Opcode) : In o LoadX0Chip.opcodes -> load_x0_opcodeb o = true.
Proof. cbn. intuition (subst; reflexivity). Qed.

Lemma load_x0_chip_completes :
  In (me_opcode event) LoadX0Chip.opcodes -> load_event_ok event -> it_op_a rec = 0 ->
  record_prev_value (it_a rec) = 0 ->
  exists r, LoadX0Chip.event_to_row user event rec = Ok r /\ chip_complete (LoadX0Chip.eval rrs cfg) r.
Proof.
  intros Eop [_ Hv] Hrd Hx0. apply load_x0_opcode in Eop. unfold LoadX0Chip.event_to_row. open_row. rewrite addr_bit_0.
  change (as_u16 (Z.land (shr addr 1) 1)) with (addr_bit addr 1).
  change (as_u16 (Z.land (shr addr 2) 1)) with (addr_bit addr 2). cbv zeta.
  eexists. split; [reflexivity|]. unfold chip_complete, LoadX0Chip.eval, LoadX0Chip.flags.
  cbn [fst LoadX0Chip.state LoadX0Chip.adapter LoadX0Chip.address_operation LoadX0Chip.memory_access
       LoadX0Chip.adapter_cols LoadX0Chip.offset_bit0 LoadX0Chip.offset_bit1 LoadX0Chip.offset_bit2
       LoadX0Chip.is_lb LoadX0Chip.is_lbu LoadX0Chip.is_lh LoadX0Chip.is_lhu LoadX0Chip.is_lw LoadX0Chip.is_lwu
       LoadX0Chip.is_ld].
  rewrite Hb, Hc, H0.
  match goal with |- context [sum_flags ?fl] =>
    assert (Hsum : sum_flags fl = F1) by
      (destruct (me_opcode event); try discriminate Eop; opcode_compute; cbn [Fof_bool sum_flags fold_left]; ring) end.
  rewrite Hsum.
  match goal with |- context [flag_consts rrs ?fl LoadX0Chip.opcodes] =>
    assert (exists cs, flag_consts rrs fl LoadX0Chip.opcodes = Ok cs) as [cs ->] by (eexists; reflexivity) end.
  cbn [bind]. open_eval. apply (mem_row_complete _ _ _ _ ev1 ev2 []).
  - apply complete_asserts_app; [repeat (apply complete_asserts_app; [apply complete_bool, Fof_bool_is_bool|]);
      apply complete_asserts; [exact I | reflexivity]|].
    apply complete_asserts_app; [apply bool_1|].
    apply complete_nil_r; [apply Haddress; try (apply addr_bits_bool; lia); apply addr_offset|].
    apply load_value_aligned in Hv. pose proof (addr_bit_eq addr) as Hbits. unfold mem_event_addr in Hv.
    assert (Hz : forall c i, (c <> F0 -> addr / 2 ^ i mod 2 = 0) -> 0 <= i ->
      complete (when c (assert_zero (Fof (addr_bit addr i)))) []).
    { intros c i Hci Hi. apply complete_when_zero. intros C. rewrite addr_bit_eq by lia. rewrite (Hci C). reflexivity. }
    destruct (me_opcode event); try discriminate Eop; opcode_compute; cbn [Fof_bool access_size] in *;
      repeat apply complete_asserts_app; apply Hz; try lia; intros C;
      first [exfalso; apply C; ring | change (2 ^ 2) with 4; change (2 ^ 1) with 2; change (2 ^ 0) with 1;
             rewrite ?Z.div_1_r; dlia].
  - apply Haccess.
  - rewrite Hrd. apply complete_asserts_app; [apply complete_when_1, complete_asserts; [cbn; auto | reflexivity]|].
    apply complete_when_zero. intros C. exfalso. apply C. ring.
  - apply Hframe. intros _. rewrite Ha, Hx0. reflexivity.
Qed.

(** ** Stores *)

Lemma store_word_of (w : Word F) (v : Z) :
  valid_word w -> store_value (me_opcode event) (me_a event) addr mem = Ok (word_val w) ->
  store_value (me_opcode event) (me_a event) addr mem = Ok v -> word_from_u64 v = w.
Proof. intros V E1 E2. rewrite E1 in E2. assert (v = word_val w) as -> by congruence. apply word_from_val, V. Qed.

Lemma store_reg_zero : store_event_ok event rec -> it_op_a rec = 0 -> word_from_u64 (record_prev_value (it_a rec)) = word_zero.
Proof. intros (Ea & _ & Hz & _) H0. rewrite Ea, (Hz H0). reflexivity. Qed.

Lemma store_double_chip_completes :
  me_opcode event = SD -> store_event_ok event rec ->
  exists r, StoreDoubleChip.event_to_row user event rec = Ok r /\ chip_complete (StoreDoubleChip.eval rrs cfg) r.
Proof.
  intros Eop Hst. pose proof Hst as (_ & _ & _ & Hv). unfold StoreDoubleChip.event_to_row. open_row.
  eexists. split; [reflexivity|]. unfold chip_complete, StoreDoubleChip.eval.
  cbn [fst StoreDoubleChip.state StoreDoubleChip.adapter StoreDoubleChip.address_operation StoreDoubleChip.memory_access
       StoreDoubleChip.is_real StoreDoubleChip.adapter_cols].
  rewrite Hb, Hc. cbn [single_consts funct3 of_option bind]. open_eval.
  match goal with |- context [MemoryAccess.eval_write ?h ?l ?a ?acc ?w ?r] =>
    rewrite <- (app_nil_r (MemoryAccess.eval_write h l a acc w r)) end.
  apply (mem_row_complete _ _ _ _ ev1 ev2 []).
  - apply complete_asserts_app; [apply bool_1|]. apply Haddress; try apply bool_false.
    apply store_value_aligned in Hv. rewrite Eop in Hv. cbn [access_size] in Hv. unfold mem_event_addr in Hv.
    rewrite Hv. reflexivity.
  - apply Haccess.
  - apply complete_asserts; [exact I | reflexivity].
  - apply Hframe. rewrite Ha. exact (store_reg_zero Hst).
Qed.

(** The limb equations of the half and byte chips, for the word they describe. *)
Lemma set_limb_limbs (w : Word F) (b1 b2 : Z) (x : F) :
  (b1 = 0 \/ b1 = 1) -> (b2 = 0 \/ b2 = 1) ->
  let o1 := Fof b1 in let o2 := Fof b2 in let w' := set_limb w (2 * b2 + b1) x in
  limb0 w' = (limb0 w + (x - limb0 w) * (F1 - o1) * (F1 - o2))%F /\
  limb1 w' = (limb1 w + (x - limb1 w) * o1 * (F1 - o2))%F /\
  limb2 w' = (limb2 w + (x - limb2 w) * (F1 - o1) * o2)%F /\
  limb3 w' = (limb3 w + (x - limb3 w) * o1 * o2)%F.
Proof.
  intros [-> | ->] [-> | ->]; cbv zeta; change (Fof 0) with F0; change (Fof 1) with F1;
    cbn [Z.mul Z.add Pos.mul Pos.add set_limb Z.eqb Pos.eqb limb0 limb1 limb2 limb3]; repeat split; ring.
Qed.

Lemma store_half_chip_completes :
  me_opcode event = SH -> store_event_ok event rec ->
  exists r, StoreHalfChip.event_to_row user event rec = Ok r /\ chip_complete (StoreHalfChip.eval rrs cfg) r.
Proof.
  intros Eop Hst. pose proof Hst as (Ea & Ba & _ & Hv). unfold StoreHalfChip.event_to_row. open_row.
  change (as_u16 (Z.land (shr addr 1) 1)) with (addr_bit addr 1).
  change (as_u16 (Z.land (shr addr 2) 1)) with (addr_bit addr 2). cbv zeta.
  eexists. split; [reflexivity|]. unfold chip_complete, StoreHalfChip.eval.
  cbn [fst StoreHalfChip.state StoreHalfChip.adapter StoreHalfChip.address_operation StoreHalfChip.memory_access
       StoreHalfChip.is_real StoreHalfChip.adapter_cols StoreHalfChip.offset_bit0 StoreHalfChip.offset_bit1
       StoreHalfChip.store_value].
  rewrite Hb, Hc. cbn [single_consts funct3 of_option bind]. open_eval.
  pose proof (store_value_aligned _ _ _ _ _ Hv) as Hal. rewrite Eop in Hal. cbn [access_size] in Hal.
  unfold mem_event_addr in Hal, Hv. apply (mem_row_complete _ _ _ _ ev1 ev2 []).
  - apply complete_asserts_app; [apply bool_1|]. apply Haddress; try apply bool_false; try (apply addr_bits_bool; lia).
    apply addr_offset_2, Hal.
  - apply Haccess.
  - rewrite Hprev, Ha, Ea.
    destruct (store_half_value (word_from_u64 mem) (word_from_u64 (me_a event))
      (set_limb (word_from_u64 mem) (2 * Fval (Fof (addr_bit addr 2)) + Fval (Fof (addr_bit addr 1))) (limb0 (word_from_u64 (me_a event))))
      addr F0 _ _ (valid_word_from _) (valid_word_from _) (mo_addr _ _ He) (eq_sym (addr_offset_2 Hal)) bool_false
      (addr_bits_bool 1 ltac:(lia)) (addr_bits_bool 2 ltac:(lia)) eq_refl eq_refl) as [Vw Ew].
    rewrite !word_val_from in Ew by (assumption || apply (mo_mem _ _ He)). rewrite <- Eop in Ew.
    rewrite (store_word_of _ _ Vw Ew Hv), !Fval_bit by lia.
    destruct (set_limb_limbs (word_from_u64 mem) _ _ (limb0 (word_from_u64 (me_a event)))
                (addr_bit_bool addr 1 ltac:(lia)) (addr_bit_bool addr 2 ltac:(lia))) as (L0 & L1 & L2 & L3).
    do 3 (apply complete_asserts_app; [apply complete_eq; assumption|]). apply complete_eq; assumption.
  - apply Hframe. rewrite Ha. exact (store_reg_zero Hst).
Qed.

Lemma store_word_chip_completes :
  me_opcode event = SW -> store_event_ok event rec ->
  exists r, StoreWordChip.event_to_row user event rec = Ok r /\ chip_complete (StoreWordChip.eval rrs cfg) r.
Proof.
  intros Eop Hst. pose proof Hst as (Ea & Ba & _ & Hv). unfold StoreWordChip.event_to_row. open_row.
  change (as_u16 (Z.land (shr addr 2) 1)) with (addr_bit addr 2). cbv zeta.
  eexists. split; [reflexivity|]. unfold chip_complete, StoreWordChip.eval.
  cbn [fst StoreWordChip.state StoreWordChip.adapter StoreWordChip.address_operation StoreWordChip.memory_access
       StoreWordChip.is_real StoreWordChip.adapter_cols StoreWordChip.offset_bit StoreWordChip.store_value].
  rewrite Hb, Hc. cbn [single_consts funct3 of_option bind]. open_eval.
  pose proof (store_value_aligned _ _ _ _ _ Hv) as Hal. rewrite Eop in Hal. cbn [access_size] in Hal.
  unfold mem_event_addr in Hal, Hv. apply (mem_row_complete _ _ _ _ ev1 ev2 []).
  - apply complete_asserts_app; [apply bool_1|]. apply Haddress; try apply bool_false; try (apply addr_bits_bool; lia).
    apply addr_offset_4, Hal.
  - apply Haccess.
  - rewrite Hprev, Ha, Ea. set (p := word_from_u64 mem). set (src := word_from_u64 (me_a event)). set (o := Fof (addr_bit addr 2)).
    set (w := mkWord (limb0 p + (limb0 src - limb0 p) * (F1 - o))%F (limb1 p + (limb1 src - limb1 p) * (F1 - o))%F
                     (limb2 p + (limb0 src - limb2 p) * o)%F (limb3 p + (limb1 src - limb3 p) * o)%F).
    destruct (store_word_value p src w addr F0 F0 o (valid_word_from _) (valid_word_from _) (mo_addr _ _ He)
      (eq_sym (addr_offset_4 Hal)) bool_false bool_false (addr_bits_bool 2 ltac:(lia)) eq_refl eq_refl
      eq_refl eq_refl eq_refl eq_refl) as [Vw Ew].
    unfold p, src in Ew. rewrite !word_val_from in Ew by (assumption || apply (mo_mem _ _ He)). rewrite <- Eop in Ew.
    rewrite (store_word_of _ _ Vw Ew Hv).
    do 3 (apply complete_asserts_app; [apply complete_eq; reflexivity|]). apply complete_eq; reflexivity.
  - apply Hframe. rewrite Ha. exact (store_reg_zero Hst).
Qed.

Lemma set_limb_increment (v b1 b2 : Z) (inc : F) :
  (b1 = 0 \/ b1 = 1) -> (b2 = 0 \/ b2 = 1) ->
  let o1 := Fof b1 in let o2 := Fof b2 in let w := word_from_u64 v in
  let w' := set_limb w (2 * b2 + b1) (Fof (nth (Z.to_nat (2 * b2 + b1)) (u64_to_u16_limbs v) 0) + inc)%F in
  limb0 w' = (inc * (F1 - o1) * (F1 - o2) + limb0 w)%F /\ limb1 w' = (inc * o1 * (F1 - o2) + limb1 w)%F /\
  limb2 w' = (inc * (F1 - o1) * o2 + limb2 w)%F /\ limb3 w' = (inc * o1 * o2 + limb3 w)%F.
Proof.
  rewrite u64_to_u16_limbs_eq, word_from_u64_limbs.
  intros [-> | ->] [-> | ->]; cbv zeta; change (Fof 0) with F0; change (Fof 1) with F1;
    cbn [Z.mul Z.add Pos.mul Pos.add set_limb Z.eqb Pos.eqb limb0 limb1 limb2 limb3];
    [change (Z.to_nat 0) with 0%nat | change (Z.to_nat 2) with 2%nat | change (Z.to_nat 1) with 1%nat
    | change (Z.to_nat 3) with 3%nat]; cbn [nth]; repeat split; ring.
Qed.

Lemma low_byte_limb (a : Z) : Z.land a 0xFF = Z.land (limb16 a 0) 0xFF /\ as_u16 (Z.land a (2 ^ 16 - 1)) = limb16 a 0.
Proof.
  change 0xFF with (2 ^ 8 - 1). rewrite !land_mask by lia. unfold limb16, as_u16, as_unsigned.
  change (2 ^ (16 * 0)) with 1. rewrite Z.div_1_r, (mod_mod_le a 8 16), Z.mod_mod by lia. auto.
Qed.

Lemma store_byte_chip_completes :
  me_opcode event = SB -> store_event_ok event rec ->
  exists r, StoreByteChip.event_to_row user event rec = Ok r /\ chip_complete (StoreByteChip.eval rrs cfg) r.
Proof.
  intros Eop Hst. pose proof Hst as (Ea & Ba & _ & Hv). unfold StoreByteChip.event_to_row. open_row. rewrite addr_bit_0.
  change (as_u16 (Z.land (shr addr 1) 1)) with (addr_bit addr 1).
  change (as_u16 (Z.land (shr addr 2) 1)) with (addr_bit addr 2). cbv zeta.
  destruct (low_byte_limb (me_a event)) as [-> ->]. set (la := limb16 (me_a event) 0).
  set (limb := nth (Z.to_nat (2 * addr_bit addr 2 + addr_bit addr 1)) (u64_to_u16_limbs mem) 0).
  pose proof (limb_bound mem (Z.to_nat (2 * addr_bit addr 2 + addr_bit addr 1))) as Bl. fold limb in Bl.
  eexists. split; [reflexivity|]. unfold chip_complete, StoreByteChip.eval.
  cbn [fst StoreByteChip.state StoreByteChip.adapter StoreByteChip.address_operation StoreByteChip.memory_access
       StoreByteChip.is_real StoreByteChip.adapter_cols StoreByteChip.offset_bit0 StoreByteChip.offset_bit1
       StoreByteChip.offset_bit2 StoreByteChip.mem_limb StoreByteChip.mem_limb_low_byte StoreByteChip.register_low_byte
       StoreByteChip.increment StoreByteChip.store_value].
  rewrite Hb, Hc. cbn [single_consts funct3 of_option bind]. open_eval. unfold mem_event_addr in Hv.
  rewrite (app_assoc (add_u8_range_checks (u16_to_le_bytes limb))). apply mem_row_complete.
  - apply complete_asserts_app; [apply bool_1|]. apply Haddress; try (apply addr_bits_bool; lia). apply addr_offset.
  - apply Haccess.
  - rewrite Hprev, Ha, Ea. rewrite (word_from_u64_limbs (me_a event)) at 1. cbn [limb0]. fold la.
    destruct (complete_bytes la (limb16_bound _ 0)) as [Hreg _]. destruct (complete_bytes limb Bl) as [Hmem Ehi].
    set (o0 := Fof (addr_bit addr 0)). set (lo := Fof (Z.land la 0xFF)) in *. set (mlo := Fof (Z.land limb 0xFF)) in *.
    match goal with |- context [assert_eq ?x ?y] => set (inc := x) end.
    assert (Einc : inc = ((lo - mlo) * (F1 - o0) + Fof (2 ^ 8) * (lo - (Fof limb - mlo) * Finv (Fof (2 ^ 8))) * o0)%F).
    { rewrite Ehi. unfold inc. assert (E : Fof limb = (Fof (2 ^ 8) * Fof (limb / 2 ^ 8) + mlo)%F).
      { unfold mlo. change 0xFF with (2 ^ 8 - 1). rewrite land_mask by lia. F_fold. f_equal. dlia. }
      rewrite E. ring. }
    apply complete_asserts_app; [apply complete_select_limb; apply addr_bit_bool; lia|].
    apply (complete_perm _ (add_u8_range_checks (u16_to_le_bytes la) ++ add_u8_range_checks (u16_to_le_bytes limb)));
      [apply Permutation_app_comm|].
    apply complete_app; [exact Hreg|]. apply complete_nil_r; [exact Hmem|].
    apply complete_asserts_app; [apply complete_eq, Einc|].
    assert (Ex : Fval (Fof limb) = limb16 mem (2 * addr_bit addr 2 + addr_bit addr 1)).
    { rewrite Fval_of_small by (unfold KOALA_BEAR_ORDER; lia). unfold limb. rewrite u64_to_u16_limbs_eq.
      destruct (addr_bit_bool addr 1 ltac:(lia)) as [-> | ->], (addr_bit_bool addr 2 ltac:(lia)) as [-> | ->]; reflexivity. }
    destruct (store_byte_value (word_from_u64 mem) (word_from_u64 (me_a event))
      (set_limb (word_from_u64 mem) (2 * addr_bit addr 2 + addr_bit addr 1) (Fof limb + inc)%F)
      addr o0 _ _ (valid_word_from _) (valid_word_from _) (eq_sym addr_offset) (addr_bits_bool 0 ltac:(lia))
      (addr_bits_bool 1 ltac:(lia)) (addr_bits_bool 2 ltac:(lia)) (Fof limb) lo) with (mlo := mlo) as [Vw Ew].
    { unfold is_u16F. rewrite Fval_of_small by (unfold KOALA_BEAR_ORDER; lia). lia. }
    { rewrite !Fval_bit, word_val_from by (lia || apply (mo_mem _ _ He)). exact Ex. }
    { rewrite (word_from_u64_limbs (me_a event)). exact (proj1 Hreg). }
    { exact (proj1 Hmem). }
    { rewrite !Fval_bit, <- Einc by lia. reflexivity. }
    rewrite !word_val_from in Ew by (assumption || apply (mo_mem _ _ He)). rewrite <- Eop in Ew.
    rewrite (store_word_of _ _ Vw Ew Hv).
    destruct (set_limb_increment mem _ _ inc (addr_bit_bool addr 1 ltac:(lia)) (addr_bit_bool addr 2 ltac:(lia)))
      as (L0 & L1 & L2 & L3).
    do 3 (apply complete_asserts_app; [apply complete_eq; assumption|]). apply complete_eq; assumption.
  - apply Hframe. rewrite Ha. exact (store_reg_zero Hst).
Qed.
End Complete.
