(* ===== verification/ControlChips.v ===== *)
(** * The control flow and upper immediate chips

    [crates/core/machine/src/control_flow] and [utype]: [BranchChip],
    [JalChip], [JalrChip] and [UTypeChip].  Their rows constrain the next
    program counter, or a value made from the program counter. *)

From Stdlib Require Import ZArith Lia List Bool.
From S2P Require Import Prelude Words Isa Field Air AirFacts SmallInverse Operations Compare.
From S2P Require Import Adapter AdapterFacts Row Readers AluChips MemoryChips.
Import ListNotations.
Open Scope Z_scope.

(** ** Events ([executor/src/events/instr.rs]) *)
Record BranchEvent : Set := mkBranchEvent {
  be_clk : Z; be_pc : Z; be_next_pc : Z; be_opcode : Opcode; be_a : Z; be_b : Z; be_c : Z; be_op_a_0 : bool
}.

Record JumpEvent : Set := mkJumpEvent {
  je_clk : Z; je_pc : Z; je_next_pc : Z; je_opcode : Opcode; je_a : Z; je_b : Z; je_c : Z; je_op_a_0 : bool
}.

Record UTypeEvent : Set := mkUTypeEvent {
  ue_clk : Z; ue_pc : Z; ue_opcode : Opcode; ue_a : Z; ue_b : Z; ue_c : Z; ue_op_a_0 : bool
}.

Definition add_u16_range_checks_field (field_values : list F) : list ByteLookupEvent :=
  add_u16_range_checks (map (fun x => as_u16 (Fval x)) field_values).

(** [Word([pc[0], pc[1], pc[2], 0])], and [Word([4, 0, 0, 0])]. *)
Definition pc_word (state : CPUState.Cols) : Word F :=
  mkWord (CPUState.pc0 state) (CPUState.pc1 state) (CPUState.pc2 state) F0.
Definition four_word : Word F := mkWord (Fof 4) F0 F0 F0.

(** The return address columns are zero when the destination is [x0]. *)
Definition zero_limbs (op_a_0 : F) (w : Word F) : list Emit :=
  assert_zero (limb3 w) ++
  when op_a_0 (assert_zero (limb0 w)) ++ when op_a_0 (assert_zero (limb1 w)) ++ when op_a_0 (assert_zero (limb2 w)).

(** The frame of a chip that makes constraints between the CPU state and the
    trust part. *)
Definition late_frame {C : Type} `{Reader C} (cfg : Config) (mode : AdapterCols) (state : CPUState.Cols) (adapter : C)
    (opcode : F) (consts : list F) (value : Word F) (next_pc : list F) (mid : list Emit) (is_real : F) : list Emit :=
  let trust := eval_trust cfg mode (CPUState.pc state) (rd_instruction adapter opcode) consts
                 [CPUState.clk_high state; CPUState.clk_low state] is_real in
  CPUState.eval state next_pc (Fof CLK_INC) is_real ++
  mid ++
  fst trust ++
  rd_eval (CPUState.clk_high state) (CPUState.clk_low state) (CPUState.pc state) opcode value adapter is_real
    (snd trust).

(** ** [BranchChip] ([control_flow/branch]) *)
Module BranchChip.
Record Cols : Type := mkCols {
  state : CPUState.Cols;
  adapter : ITypeReader.Cols;
  next_pc0 : F; next_pc1 : F; next_pc2 : F;
  is_beq : F;
  is_bne : F;
  is_blt : F;
  is_bge : F;
  is_bltu : F;
  is_bgeu : F;
  is_branching : F;
  compare_operation : LtOperationSigned.Cols;
  adapter_cols : AdapterCols
}.

Definition flags (local : Cols) : list F :=
  [is_beq local; is_bne local; is_blt local; is_bge local; is_bltu local; is_bgeu local].
Definition opcodes : list Opcode := [BEQ; BNE; BLT; BGE; BLTU; BGEU].

(** The branch condition as the trace generation computes it. *)
Definition branching (o : Opcode) (a_eq_b a_lt_b : bool) : Res bool :=
  match o with
  | BEQ => Ok a_eq_b
  | BNE => Ok (negb a_eq_b)
  | BLT | BLTU => Ok a_lt_b
  | BGE | BGEU => Ok (negb a_lt_b)
  | _ => Panic
  end.

Definition event_to_row (user : bool) (event : BranchEvent) (record : ITypeRecord)
  : Res (Cols * list ByteLookupEvent) :=
  let flag o := Fof_bool (opcode_eqb (be_opcode event) o) in
  let a_eq_b := be_a event =? be_b event in
  let use_signed_comparison := opcode_eqb (be_opcode event) BLT || opcode_eqb (be_opcode event) BGE in
  let a_lt_b := if use_signed_comparison then as_i64 (be_a event) <? as_i64 (be_b event)
                else be_a event <? be_b event in
  let* taken := branching (be_opcode event) a_eq_b a_lt_b in
  let* (cmp, ev1) := LtOperationSigned.populate_signed (if a_lt_b then 1 else 0) (be_a event) (be_b event)
                       use_signed_comparison in
  let n0 := Fof (as_u16 (Z.land (be_next_pc event) 0xFFFF)) in
  let n1 := Fof (as_u16 (Z.land (shr (be_next_pc event) 16) 0xFFFF)) in
  let n2 := Fof (as_u16 (Z.land (shr (be_next_pc event) 32) 0xFFFF)) in
  let ev2 := add_bit_range_check (as_u16 (Z.land (be_next_pc event) 0xFFFF) / 4) 14 in
  let ev3 := add_u16_range_checks_field [n1; n2] in
  let '(st, ev4) := CPUState.populate (be_clk event) (be_pc event) in
  let '(ad, ev5) := ITypeReader.populate record in
  Ok (mkCols st ad n0 n1 n2 (flag BEQ) (flag BNE) (flag BLT) (flag BGE) (flag BLTU) (flag BGEU)
        (if taken then F1 else F0) cmp (trust_cols user (it_is_untrusted record)),
      ev1 ++ ev2 ++ ev3 ++ ev4 ++ ev5).

(** The carries of [pc + increment = next_pc], limb by limb. *)
Fixpoint pc_carries (cond carry : F) (l : list (F * F * F)) : list Emit :=
  match l with
  | [] => []
  | (pc, inc, next_pc) :: rest =>
      let carry := ((carry + pc + inc - next_pc) * Finv (Fof (2 ^ 16)))%F in
      when cond (assert_bool carry) ++ pc_carries cond carry rest
  end.

Definition eval (rrs : MajorOpcodes) (cfg : Config) (local : Cols) : Res (list Emit) :=
  let is_real := sum_flags (flags local) in
  let opcode := weighted (flags local) (map opcode_num opcodes) in
  let* consts := flag_consts rrs (flags local) opcodes in
  let use_signed_comparison := (is_blt local + is_bge local)%F in
  let result := LtOperationSigned.result (compare_operation local) in
  let u16_flags := LtOperationUnsigned.u16_flags result in
  let is_eq := (F1 - (limb0 u16_flags + limb1 u16_flags + limb2 u16_flags + limb3 u16_flags))%F in
  let is_less_than := U16CompareOperation.bit (LtOperationUnsigned.u16_compare_operation result) in
  let branching :=
    (F0 + is_beq local * is_eq + is_bne local * (F1 - is_eq)
     + (is_bge local + is_bgeu local) * (F1 - is_less_than)
     + (is_blt local + is_bltu local) * is_less_than)%F in
  let c := ITypeReader.c (adapter local) in
  let st := state local in
  Ok ((flat_map assert_bool (flags local) ++ assert_bool is_real) ++
      frame cfg (adapter_cols local) st (adapter local) opcode consts (ITypeReader.prev_a (adapter local))
        [next_pc0 local; next_pc1 local; next_pc2 local] [] is_real ++
      (LtOperationSigned.eval_lt_signed (ITypeReader.prev_a (adapter local)) (ITypeReader.b (adapter local))
         (compare_operation local) use_signed_comparison is_real ++
       assert_bool (is_branching local) ++
       when is_real (assert_eq (is_branching local) branching) ++
       pc_carries (is_branching local) F0
         [(CPUState.pc0 st, limb0 c, next_pc0 local); (CPUState.pc1 st, limb1 c, next_pc1 local);
          (CPUState.pc2 st, limb2 c, next_pc2 local); (F0, limb3 c, F0)] ++
       pc_carries (is_real - is_branching local)%F F0
         [(CPUState.pc0 st, Fof PC_INC, next_pc0 local); (CPUState.pc1 st, F0, next_pc1 local);
          (CPUState.pc2 st, F0, next_pc2 local); (F0, F0, F0)] ++
       send_byte (byte_op BRange) (next_pc0 local * Finv (Fof 4))%F (Fof 14) F0 is_real ++
       slice_range_check_u16 [next_pc1 local; next_pc2 local] is_real)).
End BranchChip.

(** ** [JalChip] ([control_flow/jal]) *)
Module JalChip.
Record Cols : Type := mkCols {
  state : CPUState.Cols;
  adapter : JTypeReader.Cols;
  add_operation : AddOperation.Cols;
  op_a_operation : AddOperation.Cols;
  is_real : F;
  adapter_cols : AdapterCols
}.

Definition event_to_row (user : bool) (event : JumpEvent) (record : JTypeRecord) : Cols * list ByteLookupEvent :=
  let low_limb := as_u16 (Z.land (wrapping_add (je_pc event) (je_b event)) 0xFFFF) in
  let ev1 := add_bit_range_check (low_limb / 4) 14 in
  let '(add, ev2, _) := AddOperation.populate (je_pc event) (je_b event) in
  let '(op_a, ev3) :=
    if negb (je_op_a_0 event) then let '(op, ev, _) := AddOperation.populate (je_pc event) 4 in (op, ev)
    else (AddOperation.mkCols (word_from_u64 0), []) in
  let '(st, ev4) := CPUState.populate (je_clk event) (je_pc event) in
  let '(ad, ev5) := JTypeReader.populate record in
  (mkCols st ad add op_a F1 (trust_cols user (jt_is_untrusted record)), ev1 ++ ev2 ++ ev3 ++ ev4 ++ ev5).

Definition eval (rrs : MajorOpcodes) (cfg : Config) (local : Cols) : Res (list Emit) :=
  let opcode := Fof (opcode_num JAL) in
  let f3 := unwrap_or (funct3 JAL) 0 in
  let f7 := unwrap_or (funct7 JAL) 0 in
  let* base := base_of rrs JAL in
  let* ty := type_of JAL in
  let next_pc := AddOperation.value (add_operation local) in
  let op_a_0 := JTypeReader.op_a_0 (adapter local) in
  Ok ((assert_bool (is_real local) ++
       AddOperation.eval (pc_word (state local)) (JTypeReader.b (adapter local)) (add_operation local) (is_real local) ++
       assert_zero (limb3 next_pc) ++
       send_byte (byte_op BRange) (limb0 next_pc * Finv (Fof 4))%F (Fof 14) F0 (is_real local)) ++
      late_frame cfg (adapter_cols local) (state local) (adapter local) opcode [Fof ty; Fof base; Fof f3; Fof f7]
        (AddOperation.value (op_a_operation local)) [limb0 next_pc; limb1 next_pc; limb2 next_pc]
        (when_not (is_real local) (assert_zero op_a_0) ++
         AddOperation.eval (pc_word (state local)) four_word (op_a_operation local) (is_real local - op_a_0)%F ++
         zero_limbs op_a_0 (AddOperation.value (op_a_operation local)))
        (is_real local)).
End JalChip.

(** ** [JalrChip] ([control_flow/jalr]) *)
Module JalrChip.
Record Cols : Type := mkCols {
  state : CPUState.Cols;
  adapter : ITypeReader.Cols;
  is_real : F;
  add_operation : AddOperation.Cols;
  op_a_operation : AddOperation.Cols;
  lsb : F;
  adapter_cols : AdapterCols
}.

Definition event_to_row (user : bool) (event : JumpEvent) (record : ITypeRecord) : Cols * list ByteLookupEvent :=
  let imm := it_op_c record in
  let low_limb := as_u16 (Z.land (wrapping_add (je_b event) imm) 0xFFFF) in
  let ev1 := add_bit_range_check (low_limb / 4) 14 in
  let '(add, ev2, _) := AddOperation.populate (je_b event) imm in
  let '(op_a, ev3) :=
    if negb (je_op_a_0 event) then let '(op, ev, _) := AddOperation.populate (je_pc event) 4 in (op, ev)
    else (AddOperation.mkCols (word_from_u64 0), []) in
  let '(st, ev4) := CPUState.populate (je_clk event) (je_pc event) in
  let '(ad, ev5) := ITypeReader.populate record in
  (mkCols st ad F1 add op_a (Fof (Z.land low_limb 1)) (trust_cols user (it_is_untrusted record)),
   ev1 ++ ev2 ++ ev3 ++ ev4 ++ ev5).

Definition eval (rrs : MajorOpcodes) (cfg : Config) (local : Cols) : Res (list Emit) :=
  let opcode := Fof (opcode_num JALR) in
  let* consts := single_consts rrs JALR (unwrap_or (funct7 JALR) 0) in
  let next_pc := AddOperation.value (add_operation local) in
  let op_a_0 := ITypeReader.op_a_0 (adapter local) in
  Ok ((assert_bool (is_real local) ++
       AddOperation.eval (ITypeReader.b (adapter local)) (ITypeReader.c (adapter local)) (add_operation local)
         (is_real local) ++
       assert_zero (limb3 next_pc) ++
       assert_bool (lsb local) ++
       send_byte (byte_op BRange) ((limb0 next_pc - lsb local) * Finv (Fof 4))%F (Fof 14) F0 (is_real local)) ++
      frame cfg (adapter_cols local) (state local) (adapter local) opcode consts
        (AddOperation.value (op_a_operation local)) [(limb0 next_pc - lsb local)%F; limb1 next_pc; limb2 next_pc] []
        (is_real local) ++
      (when_not (is_real local) (assert_zero op_a_0) ++
       AddOperation.eval (pc_word (state local)) four_word (op_a_operation local) (is_real local - op_a_0)%F ++
       zero_limbs op_a_0 (AddOperation.value (op_a_operation local)))).
End JalrChip.

(** ** [UTypeChip] ([utype/mod.rs]) *)
Module UTypeChip.
Record Cols : Type := mkCols {
  state : CPUState.Cols;
  adapter : JTypeReader.Cols;
  addend0 : F; addend1 : F; addend2 : F;
  add_operation : AddOperation.Cols;
  is_auipc : F;
  is_real : F;
  adapter_cols : AdapterCols
}.

Definition event_to_row (user : bool) (event : UTypeEvent) (record : JTypeRecord) : Cols * list ByteLookupEvent :=
  let auipc := opcode_eqb (ue_opcode event) AUIPC in
  let a := if auipc then ue_pc event else 0 in
  let '(op, ev1) :=
    if negb (jt_op_a record =? 0) then let '(op, ev, _) := AddOperation.populate a (ue_b event) in (op, ev)
    else (AddOperation.mkCols (word_from_u64 0), []) in
  let '(st, ev2) := CPUState.populate (ue_clk event) (ue_pc event) in
  let '(ad, ev3) := JTypeReader.populate record in
  (mkCols st ad (Fof (as_u16 (Z.land a 0xFFFF))) (Fof (as_u16 (shr a 16))) (Fof (as_u16 (shr a 32))) op
     (Fof_bool auipc) F1 (trust_cols user (jt_is_untrusted record)), ev1 ++ ev2 ++ ev3).

Definition eval (rrs : MajorOpcodes) (cfg : Config) (local : Cols) : Res (list Emit) :=
  let is_auipc := is_auipc local in
  let is_lui := (F1 - is_auipc)%F in
  let select x y := (is_auipc * Fof x + is_lui * Fof y)%F in
  let opcode := select (opcode_num AUIPC) (opcode_num LUI) in
  let* base_auipc := base_of rrs AUIPC in
  let* type_auipc := type_of AUIPC in
  let* base_lui := base_of rrs LUI in
  let* type_lui := type_of LUI in
  let consts := [select type_auipc type_lui; select base_auipc base_lui;
                 select (unwrap_or (funct3 AUIPC) 0) (unwrap_or (funct3 LUI) 0);
                 select (unwrap_or (funct7 AUIPC) 0) (unwrap_or (funct7 LUI) 0)] in
  let addend := mkWord (addend0 local) (addend1 local) (addend2 local) F0 in
  let op_a_0 := JTypeReader.op_a_0 (adapter local) in
  Ok ((assert_bool (is_real local) ++ assert_bool is_auipc) ++
      late_frame cfg (adapter_cols local) (state local) (adapter local) opcode consts
        (AddOperation.value (add_operation local)) (pc_inc (state local))
        (assert_word_eq addend (select_word is_auipc (pc_word (state local)) word_zero) ++
         when_not (is_real local) (assert_zero op_a_0) ++
         AddOperation.eval addend (JTypeReader.b (adapter local)) (add_operation local) (is_real local - op_a_0)%F)
        (is_real local)).
End UTypeChip.
