(* ===== verification/ControlChipFacts.v ===== *)
(** * Correctness of the control flow and upper immediate chips *)

From Stdlib Require Import ZArith Lia List Bool Permutation.
From S2P Require Import Prelude Words Isa Field Air AirFacts SmallInverse Operations Compare.
From S2P Require Import Adapter AdapterFacts Row Readers AluChips AluChipFacts Address MemoryChips MemoryChipFacts.
From S2P Require Import ControlChips.
Import ListNotations.
Open Scope Z_scope.

(** ** Rows with constraints after or inside the frame *)

Lemma post_step (ops fr post : list Emit) :
  quiet post -> step_row ((ops ++ post) ++ fr) -> step_row (ops ++ fr ++ post).
Proof.
  intros Hq. apply same_bus_step. intros k Hk. rewrite !sends_app, !receives_app.
  destruct (Hq k Hk) as [-> ->]. rewrite !app_nil_r. auto.
Qed.

Lemma post_sats (ops fr post : list Emit) : sats (ops ++ fr ++ post) -> sats ((ops ++ post) ++ fr).
Proof. rewrite !sats_app. tauto. Qed.

Section Late.
Context {C : Type} `{ReaderLaws C} (cfg : Config) (mode : AdapterCols) (state : CPUState.Cols) (adapter : C).
Context (op : F) (consts : list F) (value : Word F) (next_pc : list F) (mid ops : list Emit) (r : F).

Lemma late_step :
  quiet mid -> step_row ((ops ++ mid) ++ frame cfg mode state adapter op consts value next_pc [] r) ->
  step_row (ops ++ late_frame cfg mode state adapter op consts value next_pc mid r).
Proof.
  intros Hq. apply same_bus_step. intros k Hk. unfold late_frame, frame. cbv zeta.
  rewrite !sends_app, !receives_app. destruct (Hq k Hk) as [-> ->]. rewrite !app_nil_r. auto.
Qed.

Lemma late_sats :
  sats (ops ++ late_frame cfg mode state adapter op consts value next_pc mid r) ->
  sats ((ops ++ mid) ++ frame cfg mode state adapter op consts value next_pc [] r).
Proof. unfold late_frame, frame. cbv zeta. rewrite !sats_app. cbn [sats]. tauto. Qed.
End Late.

(** ** Program counters as words *)

Lemma pc_word_val (state : CPUState.Cols) (pc : Z) :
  0 <= pc < 2 ^ 48 -> CPUState.pc state = [Fof (limb16 pc 0); Fof (limb16 pc 1); Fof (limb16 pc 2)] ->
  valid_word (pc_word state) /\ word_val (pc_word state) = pc.
Proof.
  intros Hpc E. unfold CPUState.pc in E. injection E as E0 E1 E2. unfold pc_word. rewrite E0, E1, E2.
  pose proof (pc_val_limbs pc Hpc) as Ep. unfold pc_val in Ep. unfold valid_word, word_val, is_u16F.
  cbn [limb0 limb1 limb2 limb3]. rewrite !Fval_limb16 in *. change (Fval F0) with 0.
  pose proof (limb16_bound pc 0). pose proof (limb16_bound pc 1). pose proof (limb16_bound pc 2). lia.
Qed.

Lemma four_word_val : valid_word four_word /\ word_val four_word = 4.
Proof. vm_compute. repeat split; reflexivity. Qed.

Lemma word_pc_val (w : Word F) : limb3 w = F0 -> word_val w = pc_val (limb0 w) (limb1 w) (limb2 w).
Proof. intros E. unfold word_val, pc_val. rewrite E. change (Fval F0) with 0. lia. Qed.

(** A value the row computes unless its destination is [x0]. *)
Lemma unless_x0 (i : Instruction) (z : F) (a b : Word F) (op : AddOperation.Cols) :
  z = Fof_bool (op_a i =? 0) -> (op_a i = 0 -> AddOperation.value op = word_zero) -> valid_word a -> valid_word b ->
  sats (AddOperation.eval a b op (F1 - z)%F) ->
  valid_word (AddOperation.value op) /\
  word_val (AddOperation.value op) = rd_value i (wrapping_add (word_val a) (word_val b)).
Proof.
  intros -> H0 Va Vb Hs. unfold rd_value. destruct (Z.eqb_spec (op_a i) 0) as [E|E].
  - rewrite (H0 E). vm_compute. repeat split; reflexivity.
  - cbn [Fof_bool] in Hs. replace (F1 - F0)%F with F1 in Hs by ring. apply add_sound; assumption.
Qed.

Lemma pc_wrapping_add_4 (pc : Z) : 0 <= pc < 2 ^ 48 -> wrapping_add pc 4 = pc + PC_INC.
Proof. intros H. unfold wrapping_add, as_u64, as_unsigned, PC_INC. apply Z.mod_small. lia. Qed.

(** [x] is four times a 14-bit value. *)
Lemma range_4 (x : F) :
  sats (send_byte (byte_op BRange) (x * Finv (Fof 4))%F (Fof 14) F0 F1) -> is_u16F x /\ Fval x mod 4 = 0.
Proof.
  intros [H _]. specialize (H F1_neq_0). cbn [values] in H. apply lookup_range in H; [|lia].
  remember (x * Finv (Fof 4))%F as q eqn:E. symmetry in E.
  apply Fmul_inv_eq in E; [|apply Fof_neq_0; unfold KOALA_BEAR_ORDER; lia].
  assert (Ex : Fval x = 4 * Fval q).
  { rewrite E. rewrite (Fval_rep (q * Fof 4)%F (a := Fval q * 4)) by F_lia. lia. }
  pose proof (Fval_bound q). unfold is_u16F. split; [lia|]. rewrite Ex, Z.mul_comm. apply Z.mod_mul. lia.
Qed.

Lemma u16_bounds (n0 n1 n2 : F) :
  is_u16F n0 -> is_u16F n1 -> is_u16F n2 -> Forall (fun n => Fval n < 2 ^ 17) [n0; n1; n2].
Proof. unfold is_u16F. intros. repeat constructor; lia. Qed.

Lemma quiet_zero_limbs (z : F) (w : Word F) : quiet (zero_limbs z w).
Proof. unfold zero_limbs. auto 10 with quiet. Qed.
#[export] Hint Resolve quiet_zero_limbs : quiet.

Lemma quiet_pc_carries (c k : F) (l : list (F * F * F)) : quiet (BranchChip.pc_carries c k l).
Proof.
  revert k. induction l as [|[[p i] n] l IH]; intros k; cbn [BranchChip.pc_carries]; auto with quiet.
Qed.
#[export] Hint Resolve quiet_pc_carries : quiet.

(** The carries of the branch chip are those of an addition. *)
Lemma pc_carries_chain (k : F) (l : list (F * F * F)) :
  sats (BranchChip.pc_carries F1 k l) <->
  sats (carry_chain k (map (fun p => (fst (fst p) + snd (fst p), snd p)%F) l)).
Proof.
  revert k. induction l as [|[[p i] n] l IH]; intros k; cbn [BranchChip.pc_carries carry_chain map fst snd]; [tauto|].
  rewrite !sats_app, sats_when_1, IH. unfold base16.
  replace ((k + p + i - n) * Finv (Fof (2 ^ 16)))%F with ((p + i - n + k) * Finv (Fof (2 ^ 16)))%F by ring. tauto.
Qed.

Lemma pc_carries_iff (a b v : Word F) :
  valid_word a -> valid_word b -> valid_word v ->
  sats (BranchChip.pc_carries F1 F0 (combine (combine (word_list a) (word_list b)) (word_list v))) <->
  word_val v = wrapping_add (word_val a) (word_val b).
Proof. intros Va Vb Vv. rewrite pc_carries_chain. apply add_chain_iff; assumption. Qed.

(** ** Soundness *)

Section Sound.
Context (rrs : MajorOpcodes) (cfg : Config) (row : list Emit) (Hs : sats row).

Lemma jal_chip_steps (local : JalChip.Cols) :
  JalChip.eval rrs cfg local = Ok row -> JalChip.is_real local = F1 -> step_row row.
Proof.
  intros E Hr. unfold JalChip.eval in E. chip_row E. rewrite Hr in *.
  apply late_step; [unfold when_not; auto 10 with quiet|]. apply late_sats in Hs as Hs'.
  pose proof Hs' as Hc. rewrite !sats_app, sats_zero in Hc. destruct Hc as (((_ & Ha & E3 & Hn) & _ & Hret & _) & _).
  apply range_4 in Hn as [U0 _].
  apply quiet_step; [unfold when_not; auto 20 with quiet | auto with quiet | exact Hs' | |].
  - intros _. unfold AddOperation.eval in Ha. rewrite !sats_app, sats_range16, Forall_word in Ha by apply F1_neq_0.
    apply u16_bounds; tauto.
  - intros pc i Hfr Hpc. destruct (pc_word_val _ _ Hpc (fr_pc Hfr)) as [Vp Ep].
    pose proof (fr_opcode Hfr) as Eo. apply (opcode_of_F JAL) in Eo.
    pose proof (fr_instruction Hfr) as Ei. assert (Ez := f_equal InstructionCols.op_a_0 Ei).
    assert (Ib := Fof_bool_inj1 _ (f_equal InstructionCols.imm_b Ei)).
    assert (Ic := Fof_bool_inj1 _ (f_equal InstructionCols.imm_c Ei)).
    apply add_sound in Ha as [_ Ea]; [|exact Vp | exact (fr_b Hfr)].
    destruct (unless_x0 i _ _ _ _ Ez (fr_x0 Hfr) Vp (proj1 four_word_val) Hret) as [Vv Ev].
    rewrite Ep, (proj2 four_word_val), pc_wrapping_add_4 in Ev by exact Hpc.
    split; [exact Vv|]. intros clk ta tb tc. rewrite <- (word_pc_val _ E3), Ea, Ep, Ev.
    apply step_jal; [symmetry; exact Eo | exact Ib | exact Ic | exact (fr_imm_b Hfr Ib)].
Qed.

Lemma jalr_target (w : Word F) (lsb : F) :
  valid_word w -> limb3 w = F0 -> is_bool lsb -> is_u16F (limb0 w - lsb) -> Fval (limb0 w - lsb) mod 4 = 0 ->
  pc_val (limb0 w - lsb)%F (limb1 w) (limb2 w) = Z.land (word_val w) (not_u64 1).
Proof.
  intros Vw E3 Bl U M. change 1 with (2 ^ 1 - 1). rewrite land_not_mask by (try apply word_val_bound; assumption || lia).
  rewrite (word_pc_val _ E3). unfold pc_val, is_u16F in *. destruct Vw as (V0 & _). unfold is_u16F in V0.
  remember (limb0 w - lsb)%F as t eqn:Et.
  assert (Ez : Fval (limb0 w) = Fval t + Fval lsb).
  { assert (Et' : limb0 w = (t + lsb)%F) by (rewrite Et; ring). rewrite Et'. apply is_bool_val in Bl.
    apply Fval_rep; [exact _ | F_lia]. }
  apply is_bool_val in Bl. pose proof (Fval_bound t). rewrite Ez. change (2 ^ 1) with 2. dlia.
Qed.

Lemma jalr_chip_steps (local : JalrChip.Cols) :
  JalrChip.eval rrs cfg local = Ok row -> JalrChip.is_real local = F1 -> step_row row.
Proof.
  intros E Hr. unfold JalrChip.eval in E. chip_row E. rewrite Hr in *.
  apply post_step; [unfold when_not; auto 10 with quiet|]. apply post_sats in Hs as Hs'.
  pose proof Hs' as Hc. rewrite !sats_app, sats_zero, !sats_bool in Hc.
  destruct Hc as (((_ & Ha & E3 & Bl & Hn) & _ & Hret & _) & _). apply range_4 in Hn as [U0 M0].
  apply quiet_step; [unfold when_not; auto 20 with quiet | auto with quiet | exact Hs' | |].
  - intros _. unfold AddOperation.eval in Ha. rewrite !sats_app, sats_range16, Forall_word in Ha by apply F1_neq_0.
    apply u16_bounds; tauto.
  - intros pc i Hfr Hpc. destruct (pc_word_val _ _ Hpc (fr_pc Hfr)) as [Vp Ep].
    pose proof (fr_opcode Hfr) as Eo. apply (opcode_of_F JALR) in Eo.
    pose proof (fr_instruction Hfr) as Ei. assert (Ez := f_equal InstructionCols.op_a_0 Ei).
    destruct (itype_imms _ _ i Ei) as [Ib Ic].
    apply add_sound in Ha as [Vn Ea]; [|exact (fr_b Hfr) | exact (fr_c Hfr)].
    destruct (unless_x0 i _ _ _ _ Ez (fr_x0 Hfr) Vp (proj1 four_word_val) Hret) as [Vv Ev].
    rewrite Ep, (proj2 four_word_val), pc_wrapping_add_4 in Ev by exact Hpc.
    split; [exact Vv|]. intros clk ta tb tc. rewrite (jalr_target _ _ Vn E3 Bl U0 M0), Ea, Ev.
    apply step_jalr; [symmetry; exact Eo | exact Ib | exact Ic | exact (fr_imm_c Hfr Ic)].
Qed.

(** The addend of an upper immediate. *)
Lemma select_word_case (x : F) (a w : Word F) :
  is_bool x -> sats (assert_word_eq w (select_word x a word_zero)) -> w = if Feqb x F1 then a else word_zero.
Proof.
  intros B H. apply sats_word_eq in H. rewrite H. destruct a as [a0 a1 a2 a3], B as [-> | ->]; unfold select_word, if_else;
    [rewrite Feqb_neq by (intros E; apply F1_neq_0; auto) | rewrite Feqb_refl];
    unfold word_zero; cbn [limb0 limb1 limb2 limb3]; f_equal; ring.
Qed.

Lemma utype_chip_steps (local : UTypeChip.Cols) :
  UTypeChip.eval rrs cfg local = Ok row -> UTypeChip.is_real local = F1 -> step_row row.
Proof.
  intros E Hr. unfold UTypeChip.eval in E. chip_row E. rewrite Hr in *.
  apply late_step; [unfold when_not; auto 10 with quiet|]. apply late_sats in Hs as Hs'.
  pose proof Hs' as Hc. rewrite !sats_app, !sats_bool in Hc. destruct Hc as (((_ & Bx) & Hw & _ & Hret) & _).
  apply sequential_step; [unfold when_not; auto 20 with quiet | auto with quiet | exact Hs' |].
  intros pc i Hfr Hpc. destruct (pc_word_val _ _ Hpc (fr_pc Hfr)) as [Vp Ep].
  apply select_word_case in Hw; [|exact Bx]. rewrite Hw in Hret.
  pose proof (fr_opcode Hfr) as Eo. pose proof (fr_instruction Hfr) as Ei.
  assert (Ez := f_equal InstructionCols.op_a_0 Ei).
  assert (Ib := Fof_bool_inj1 _ (f_equal InstructionCols.imm_b Ei)).
  assert (Ic := Fof_bool_inj1 _ (f_equal InstructionCols.imm_c Ei)).
  assert (Va : valid_word (if Feqb (UTypeChip.is_auipc local) F1 then pc_word (UTypeChip.state local) else word_zero))
    by (destruct (Feqb _ _); [exact Vp | repeat split; reflexivity]).
  destruct (unless_x0 i _ _ _ _ Ez (fr_x0 Hfr) Va (fr_b Hfr) Hret) as [Vv Ev].
  split; [exact Vv|]. intros clk ta tb tc. rewrite Ev.
  apply step_utype; [exact Ib | exact Ic | exact (fr_imm_b Hfr Ib) |].
  destruct Bx as [Ex | Ex]; rewrite Ex in *.
  - right. rewrite Feqb_neq by (intros E0; apply F1_neq_0; auto). split.
    + symmetry. apply opcode_of_F. rewrite <- Eo. ring.
    + pose proof (word_val_bound _ (fr_b Hfr)) as Bb. unfold is_u in Bb. change (word_val word_zero) with 0.
      apply Z.mod_small. exact Bb.
  - left. rewrite Feqb_refl, Ep. split; [|reflexivity]. symmetry. apply opcode_of_F. rewrite <- Eo. ring.
Qed.

(** The decision of a branch, from the flags and the comparison. *)
Definition branch_sum (local : BranchChip.Cols) : F :=
  let result := LtOperationSigned.result (BranchChip.compare_operation local) in
  let is_eq := equal_flag result in
  let is_less_than := U16CompareOperation.bit (LtOperationUnsigned.u16_compare_operation result) in
  (F0 + BranchChip.is_beq local * is_eq + BranchChip.is_bne local * (F1 - is_eq)
   + (BranchChip.is_bge local + BranchChip.is_bgeu local) * (F1 - is_less_than)
   + (BranchChip.is_blt local + BranchChip.is_bltu local) * is_less_than)%F.

Lemma branch_decided (local : BranchChip.Cols) (a b : Word F) (o : Opcode) :
  valid_word a -> valid_word b ->
  Forall is_bool (BranchChip.flags local) -> sum_flags (BranchChip.flags local) = F1 ->
  weighted (BranchChip.flags local) (map opcode_num BranchChip.opcodes) = Fof (opcode_num o) ->
  sats (LtOperationSigned.eval_lt_signed a b (BranchChip.compare_operation local)
          (BranchChip.is_blt local + BranchChip.is_bge local)%F F1) ->
  exists taken, branch_taken o (word_val a) (word_val b) = Ok taken /\ branch_sum local = Fof_bool taken.
Proof.
  intros Va Vb Hb Hr Ho Hlt. rewrite sum_flags_fold in Hr.
  pose proof (selected_opcode (BranchChip.flags local) BranchChip.opcodes o eq_refl ltac:(vm_compute; reflexivity) Hb Hr Ho) as Hsel.
  clear Hb Hr Ho. unfold branch_sum.
  destruct local as [? ? ? ? ? f1 f2 f3 f4 f5 f6 ? cmp ?]. unfold BranchChip.flags, BranchChip.opcodes in Hsel.
  cbn [BranchChip.is_beq BranchChip.is_bne BranchChip.is_blt BranchChip.is_bge BranchChip.is_bltu BranchChip.is_bgeu
       BranchChip.compare_operation] in *.
  assert (Hrun : forall s, (f3 + f4)%F = Fof_bool s ->
    U16CompareOperation.bit (LtOperationUnsigned.u16_compare_operation (LtOperationSigned.result cmp))
    = Fof_bool (lt_spec s (word_val a) (word_val b)) /\
    equal_flag (LtOperationSigned.result cmp) = Fof_bool (word_val a =? word_val b)).
  { intros s Es. rewrite Es in Hlt. apply lt_signed_run; assumption. }
  clear Hlt. opcode_case Hsel; subst;
    [ destruct (Hrun false) as [-> ->] | destruct (Hrun false) as [-> ->] | destruct (Hrun true) as [-> ->]
    | destruct (Hrun true) as [-> ->] | destruct (Hrun false) as [-> ->] | destruct (Hrun false) as [-> ->] ];
    try (cbn [Fof_bool]; ring); cbn [branch_taken lt_spec]; rewrite ?Z.leb_antisym; (eexists; split; [reflexivity|]);
    match goal with
    | |- context [as_i64 _ <? _] => destruct (as_i64 (word_val a) <? _), (word_val a =? word_val b)
    | |- _ => destruct (word_val a =? word_val b), (word_val a <? word_val b)
    end; cbn [Fof_bool negb]; ring.
Qed.

Lemma branch_chip_steps (local : BranchChip.Cols) :
  BranchChip.eval rrs cfg local = Ok row -> sum_flags (BranchChip.flags local) = F1 -> step_row row.
Proof.
  intros E Hr. unfold BranchChip.eval in E. chip_row E. rewrite Hr in *.
  apply post_step; [unfold when_not; auto 20 with quiet|]. apply post_sats in Hs as Hs'.
  pose proof Hs' as Hc. rewrite !sats_app, !sats_bool, sats_when_1, sats_eq, sats_range16 in Hc by apply F1_neq_0.
  destruct Hc as (((Hfl & _) & Hlt & _ & Edec & Htaken & Hnot & Hn & U12) & _).
  apply range_4 in Hn as [U0 _]. inversion_clear U12 as [|? ? U1 U2']. inversion_clear U2' as [|? ? U2 _].
  assert (Bf : Forall is_bool (BranchChip.flags local)).
  { unfold BranchChip.flags in Hfl |- *. cbn [flat_map app] in Hfl. rewrite !sats_app, !sats_bool in Hfl.
    decompose [and] Hfl. forall_flags. }
  set (nw := mkWord (BranchChip.next_pc0 local) (BranchChip.next_pc1 local) (BranchChip.next_pc2 local) F0).
  assert (Vn : valid_word nw) by (repeat split; assumption || reflexivity).
  apply quiet_step; [unfold when_not; auto 20 with quiet | auto with quiet | exact Hs' | |].
  - intros _. apply u16_bounds; assumption.
  - intros pc i Hfr Hpc. destruct (pc_word_val _ _ Hpc (fr_pc Hfr)) as [Vp Ep].
    destruct (itype_imms _ _ i (fr_instruction Hfr)) as [Ib Ic].
    destruct (branch_decided local _ _ (opcode i) (fr_a Hfr) (fr_b Hfr) Bf Hr (fr_opcode Hfr) Hlt) as (taken & Et & Es).
    change (BranchChip.is_branching local = branch_sum local) in Edec. rewrite Es in Edec. rewrite Edec in Htaken, Hnot.
    split; [exact (fr_a Hfr)|]. intros clk ta tb tc.
    replace (pc_val _ _ _) with (if taken then wrapping_add pc (word_val (ITypeReader.c (BranchChip.adapter local))) else pc + PC_INC).
    + apply step_branch; [exact Ib | exact Ic | exact (fr_imm_c Hfr Ic) | exact Et].
    + symmetry. change (pc_val (limb0 nw) (limb1 nw) (limb2 nw)
                        = if taken then wrapping_add pc (word_val (ITypeReader.c (BranchChip.adapter local))) else pc + PC_INC).
      rewrite <- (word_pc_val nw eq_refl), <- Ep at 1. destruct taken; cbn [Fof_bool] in Htaken, Hnot.
      * apply (pc_carries_iff (pc_word _) _ nw Vp (fr_c Hfr) Vn). exact Htaken.
      * rewrite <- (pc_wrapping_add_4 pc Hpc), <- (proj2 four_word_val), <- Ep.
        replace (F1 - F0)%F with F1 in Hnot by ring.
        apply (pc_carries_iff (pc_word _) four_word nw Vp (proj1 four_word_val) Vn). exact Hnot.
Qed.
End Sound.
