(* ===== verification/ControlComplete.v ===== *)
(** * Completeness of the control flow and upper immediate chips

    The row generated for a branch, jump or upper immediate event of the
    executor satisfies its chip, and its byte lookups are the events recorded
    for it. *)

From Stdlib Require Import ZArith Lia List Bool Permutation.
From S2P Require Import Prelude Words Isa Field Air AirFacts SmallInverse Operations Compare Mul.
From S2P Require Import Adapter AdapterFacts Row Readers AluChips AluChipFacts Address MemoryChips MemoryChipFacts.
From S2P Require Import MemoryComplete ControlChips ControlChipFacts.
Import ListNotations.
Open Scope Z_scope.

(** ** Constraints in another order *)

Lemma late_complete {C : Type} `{Reader C} (cfg : Config) (mode : AdapterCols) (state : CPUState.Cols) (adapter : C)
    (op : F) (consts : list F) (value : Word F) (next_pc : list F) (mid : list Emit) (e1 e2 : list ByteLookupEvent) :
  complete mid e1 -> complete (frame cfg mode state adapter op consts value next_pc [] F1) e2 ->
  complete (late_frame cfg mode state adapter op consts value next_pc mid F1) (e1 ++ e2).
Proof.
  intros H1 H2. eapply complete_reorder; [|apply complete_app; eassumption].
  unfold frame, late_frame. cbv zeta. cbn [app]. apply Permutation_app_swap_app.
Qed.

(** ** Program counters *)

Lemma mask_limb (x k : Z) : 0 <= k -> as_u16 (Z.land (shr x (k * 16)) 0xFFFF) = limb16 x k.
Proof.
  intros Hk. rewrite half_of by exact Hk. pose proof (limb16_bound x k). unfold as_u16, as_unsigned.
  apply Z.mod_small. lia.
Qed.

Lemma mask_limb_0 (x : Z) : as_u16 (Z.land x 0xFFFF) = limb16 x 0.
Proof. rewrite <- (mask_limb x 0) by lia. unfold shr. rewrite Z.shiftr_0_r. reflexivity. Qed.

Lemma cpu_state_pc (clk pc : Z) :
  CPUState.pc (fst (CPUState.populate clk pc)) = [Fof (limb16 pc 0); Fof (limb16 pc 1); Fof (limb16 pc 2)].
Proof.
  unfold CPUState.pc. cbn [CPUState.populate fst CPUState.pc0 CPUState.pc1 CPUState.pc2].
  pose proof (mask_limb pc 1 ltac:(lia)) as E1. pose proof (mask_limb pc 2 ltac:(lia)) as E2.
  change (1 * 16) with 16 in E1. change (2 * 16) with 32 in E2. rewrite mask_limb_0, E1, E2. reflexivity.
Qed.

Lemma limb3_small (x : Z) : 0 <= x < 2 ^ 48 -> limb16 x 3 = 0.
Proof. intros H. unfold limb16. change (2 ^ (16 * 3)) with (2 ^ 48). rewrite Z.div_small by lia. reflexivity. Qed.

Lemma word_from_small48 (x : Z) :
  0 <= x < 2 ^ 48 -> word_from_u64 x = mkWord (Fof (limb16 x 0)) (Fof (limb16 x 1)) (Fof (limb16 x 2)) F0.
Proof. intros H. rewrite word_from_u64_limbs, limb3_small by exact H. reflexivity. Qed.

Lemma list3_inj {A} (a b c a' b' c' : A) : [a; b; c] = [a'; b'; c'] -> a = a' /\ b = b' /\ c = c'.
Proof. intros E. injection E. auto. Qed.

Lemma populated_pc_word (clk pc : Z) :
  0 <= pc < 2 ^ 48 -> pc_word (fst (CPUState.populate clk pc)) = word_from_u64 pc.
Proof.
  intros H. pose proof (cpu_state_pc clk pc) as E. unfold CPUState.pc in E.
  apply list3_inj in E as (E0 & E1 & E2). unfold pc_word. rewrite E0, E1, E2. symmetry. apply word_from_small48, H.
Qed.

Lemma four_word_from : four_word = word_from_u64 4.
Proof. reflexivity. Qed.

Lemma limb0_mod (x k : Z) : (k = 2 \/ k = 4) -> limb16 x 0 mod k = x mod k.
Proof.
  intros Hk. unfold limb16. change (2 ^ (16 * 0)) with 1. rewrite Z.div_1_r. destruct Hk as [-> | ->]; dlia.
Qed.

Lemma complete_range_4 (x z : Z) :
  0 <= z < 2 ^ 16 -> x = z - z mod 4 ->
  complete (send_byte (byte_op BRange) (Fof x * Finv (Fof 4))%F (Fof 14) F0 F1) (add_bit_range_check (z / 4) 14).
Proof.
  intros Hz ->. apply complete_range; [|lia | dlia].
  apply Finv_mul_solve; [apply Fof_neq_0; unfold KOALA_BEAR_ORDER; lia|]. rewrite Fof_mul. f_equal. dlia.
Qed.

(** ** A sum that is not made for [x0] *)

Lemma complete_range16_off (l : list F) : complete (slice_range_check_u16 l F0) [].
Proof.
  induction l as [|x l IH]; [split; [exact I | reflexivity]|].
  change (slice_range_check_u16 (x :: l) F0) with
    (send_byte (byte_op BRange) x (Fof 16) F0 F0 ++ slice_range_check_u16 l F0).
  apply complete_asserts_app; [apply complete_off | exact IH].
Qed.

Lemma complete_chain_off (c : F) (l : list (F * F)) : complete (when F0 (carry_chain c l)) [].
Proof.
  apply complete_asserts; [|rewrite byte_lookups_when; apply byte_lookups_chain].
  revert c. induction l as [|[s v] l IH]; intros c; [exact I|]. cbn [carry_chain]. unfold when.
  rewrite map_app. apply sats_app. split; [|apply IH]. cbn. split; [|exact I]. intros [C _]. contradiction.
Qed.

(** The columns of a sum the trace generation only fills in for a destination
    other than [x0]. *)
Definition add_unless (z : bool) (a b : Z) : AddOperation.Cols * list ByteLookupEvent :=
  if negb z then let '(op, ev, _) := AddOperation.populate a b in (op, ev)
  else (AddOperation.mkCols (word_from_u64 0), []).

Lemma add_unless_complete (z : bool) (a b : Z) :
  is_u64 a -> is_u64 b ->
  complete (AddOperation.eval (word_from_u64 a) (word_from_u64 b) (fst (add_unless z a b)) (F1 - Fof_bool z)%F)
    (snd (add_unless z a b)) /\
  AddOperation.value (fst (add_unless z a b)) = word_from_u64 (if z then 0 else wrapping_add a b).
Proof.
  intros Ha Hb. unfold add_unless. destruct z; cbn [negb fst snd].
  - split; [|reflexivity]. cbn [Fof_bool]. replace (F1 - F1)%F with F0 by ring. unfold AddOperation.eval.
    apply complete_asserts_app; [apply complete_bool; left; reflexivity|].
    apply complete_asserts_app; [apply complete_chain_off | apply complete_range16_off].
  - pose proof (add_complete a b Ha Hb) as H. cbn [AddOperation.populate fst snd AddOperation.value] in *.
    cbn [Fof_bool]. replace (F1 - F0)%F with F1 by ring. auto.
Qed.

Lemma complete_zero_limbs (z : bool) (x : Z) :
  0 <= x < 2 ^ 48 -> complete (zero_limbs (Fof_bool z) (word_from_u64 (if z then 0 else x))) [].
Proof.
  intros Hx. apply complete_asserts; [|destruct z; reflexivity]. unfold zero_limbs. destruct z.
  - change (word_from_u64 0) with word_zero. cbn. tauto.
  - rewrite word_from_small48 by exact Hx. cbn. repeat split; intros; try reflexivity;
      destruct H as [C _]; exfalso; apply C; reflexivity.
Qed.

(** ** Events *)

(** What a jump event satisfies: an aligned clock, a program counter and a
    target the state bus can carry, the target a multiple of four. *)
Record jump_event_ok (event : JumpEvent) (target : Z) : Prop := mkJumpEventOk {
  jo_clk : clk_ok (je_clk event);
  jo_pc : 0 <= je_pc event < 2 ^ 48 - PC_INC;
  jo_b : is_u64 (je_b event);
  jo_target : 0 <= target < 2 ^ 48
}.

Definition jal_record_ok (event : JumpEvent) (rec : JTypeRecord) : Prop :=
  access_at (je_clk event) 4 (jt_a rec) /\ jt_op_b rec = je_b event /\ je_op_a_0 event = (jt_op_a rec =? 0).

Definition jalr_record_ok (event : JumpEvent) (rec : ITypeRecord) : Prop :=
  access_at (je_clk event) 4 (it_a rec) /\ access_at (je_clk event) 3 (it_b rec) /\
  record_prev_value (it_b rec) = je_b event /\ is_u64 (it_op_c rec) /\ je_op_a_0 event = (it_op_a rec =? 0).

Record utype_event_ok (event : UTypeEvent) (rec : JTypeRecord) : Prop := mkUTypeEventOk {
  uo_clk : clk_ok (ue_clk event);
  uo_pc : 0 <= ue_pc event < 2 ^ 48;
  uo_b : is_u64 (ue_b event);
  uo_access : access_at (ue_clk event) 4 (jt_a rec);
  uo_op_b : jt_op_b rec = ue_b event
}.

Record branch_event_ok (event : BranchEvent) (rec : ITypeRecord) (taken : bool) : Prop := mkBranchEventOk {
  bo_clk : clk_ok (be_clk event);
  bo_pc : 0 <= be_pc event < 2 ^ 48;
  bo_a : is_u64 (be_a event);
  bo_b : is_u64 (be_b event);
  bo_c : is_u64 (be_c event);
  bo_rec_a : access_at (be_clk event) 4 (it_a rec);
  bo_rec_b : access_at (be_clk event) 3 (it_b rec);
  bo_val_a : record_prev_value (it_a rec) = be_a event;
  bo_val_b : record_prev_value (it_b rec) = be_b event;
  bo_val_c : it_op_c rec = be_c event;
  bo_x0 : it_op_a rec = 0 -> be_a event = 0;
  bo_taken : branch_taken (be_opcode event) (be_a event) (be_b event) = Ok taken;
  bo_next : be_next_pc event = if taken then wrapping_add (be_pc event) (be_c event) else be_pc event + PC_INC;
  bo_next_pc : 0 <= be_next_pc event < 2 ^ 48;
  bo_aligned : be_next_pc event mod 4 = 0
}.

Section Complete.
Context (rrs : MajorOpcodes) (cfg : Config) (user : bool) (Hcfg : cfg_ok cfg user).

(** The frames around the two readers, for any next program counter. *)
Lemma j_frame_complete (rec : JTypeRecord) (clk pc : Z) (op : F) (consts : list F) (value : Word F) :
  clk_ok clk -> access_at clk 4 (jt_a rec) -> (jt_op_a rec = 0 -> value = word_zero) ->
  let '(ad, ev) := JTypeReader.populate rec in
  let '(st, ev_st) := CPUState.populate clk pc in
  forall next_pc,
    complete (frame cfg (trust_cols user (jt_is_untrusted rec)) st ad op consts value next_pc [] F1) (ev_st ++ ev).
Proof.
  intros Hc Aa Hx. pose proof (fun h p t => j_type_complete clk rec h p op value t Hc Hx Aa) as Hrd.
  destruct (JTypeReader.populate rec) as [ad ev].
  pose proof (frame_complete cfg user (jt_is_untrusted rec) ad op consts value [] clk pc ev Hc Hcfg) as Hfc.
  destruct (CPUState.populate _ _). apply Hfc; [apply complete_asserts; [exact I | reflexivity] | exact Hrd].
Qed.

Lemma i_next_complete (rec : ITypeRecord) (clk pc : Z) (op : F) (consts : list F) (value : Word F) :
  clk_ok clk -> access_at clk 4 (it_a rec) -> access_at clk 3 (it_b rec) -> (it_op_a rec = 0 -> value = word_zero) ->
  let '(ad, ev) := ITypeReader.populate rec in
  let '(st, ev_st) := CPUState.populate clk pc in
  forall next_pc,
    complete (frame cfg (trust_cols user (it_is_untrusted rec)) st ad op consts value next_pc [] F1) (ev_st ++ ev).
Proof.
  intros Hc Aa Ab Hx. pose proof (fun h p t => i_type_complete clk rec h p op value t Hc Hx Aa Ab) as Hrd.
  destruct (ITypeReader.populate rec) as [ad ev].
  pose proof (frame_complete cfg user (it_is_untrusted rec) ad op consts value [] clk pc ev Hc Hcfg) as Hfc.
  destruct (CPUState.populate _ _). apply Hfc; [apply complete_asserts; [exact I | reflexivity] | exact Hrd].
Qed.

Lemma j_populate_cols (rec : JTypeRecord) :
  JTypeReader.b (fst (JTypeReader.populate rec)) = word_from_u64 (jt_op_b rec) /\
  JTypeReader.op_a_0 (fst (JTypeReader.populate rec)) = Fof_bool (jt_op_a rec =? 0).
Proof. unfold JTypeReader.populate. destruct (RegisterAccess.populate (jt_a rec)). split; reflexivity. Qed.

Lemma i_populate_cols (rec : ITypeRecord) :
  let ad := fst (ITypeReader.populate rec) in
  ITypeReader.prev_a ad = word_from_u64 (record_prev_value (it_a rec)) /\
  ITypeReader.b ad = word_from_u64 (record_prev_value (it_b rec)) /\
  ITypeReader.c ad = word_from_u64 (it_op_c rec) /\
  ITypeReader.op_a_0 ad = Fof_bool (it_op_a rec =? 0).
Proof.
  unfold ITypeReader.populate, ITypeReader.prev_a, ITypeReader.b, ITypeReader.c, record_prev_value.
  pose proof (populate_prev_value (it_a rec)) as Pa. pose proof (populate_prev_value (it_b rec)) as Pb.
  destruct (RegisterAccess.populate (it_a rec)), (RegisterAccess.populate (it_b rec)).
  cbn [fst ITypeReader.op_a_memory ITypeReader.op_b_memory ITypeReader.op_c_imm ITypeReader.op_a_0] in *. auto.
Qed.

(** The return address of a jump at [pc], and its columns. *)
Lemma return_complete (z : bool) (pc : Z) :
  0 <= pc < 2 ^ 48 - PC_INC ->
  let op := fst (add_unless z pc 4) in
  complete (when_not F1 (assert_zero (Fof_bool z)) ++
            AddOperation.eval (word_from_u64 pc) four_word op (F1 - Fof_bool z)%F ++
            zero_limbs (Fof_bool z) (AddOperation.value op)) (snd (add_unless z pc 4)) /\
  (z = true -> AddOperation.value op = word_zero).
Proof.
  intros Hpc. cbv zeta. unfold PC_INC in Hpc.
  destruct (add_unless_complete z pc 4 ltac:(unfold is_u; lia) ltac:(unfold is_u; lia)) as [Hc Ev]. split.
  - apply complete_asserts_app; [apply complete_when_zero; intros C; exfalso; apply C; ring|].
    rewrite four_word_from. apply complete_nil_r; [exact Hc|]. rewrite Ev, pc_wrapping_add_4 by lia.
    apply complete_zero_limbs. unfold PC_INC. lia.
  - intros ->. rewrite Ev. reflexivity.
Qed.

Lemma add_value (a b : Z) :
  let '(op, ev, _) := AddOperation.populate a b in AddOperation.value op = word_from_u64 (wrapping_add a b).
Proof. reflexivity. Qed.

Lemma jal_chip_completes (event : JumpEvent) (rec : JTypeRecord) :
  let target := wrapping_add (je_pc event) (je_b event) in
  jump_event_ok event target -> target mod 4 = 0 -> jal_record_ok event rec ->
  chip_complete (JalChip.eval rrs cfg) (JalChip.event_to_row user event rec).
Proof.
  cbv zeta. intros [Hc Hpc Hb Ht] H4 (Aa & Eb & Ez). assert (Hpc' : 0 <= je_pc event < 2 ^ 48) by (unfold PC_INC in Hpc; lia).
  pose proof (add_complete (je_pc event) (je_b event) ltac:(unfold is_u; lia) Hb) as Hadd.
  pose proof (add_value (je_pc event) (je_b event)) as Eadd.
  destruct (return_complete (je_op_a_0 event) (je_pc event) Hpc) as [Hret Hx0].
  pose proof (fun op cs v Hv => j_frame_complete rec (je_clk event) (je_pc event) op cs v Hc Aa Hv) as Hf.
  pose proof (j_populate_cols rec) as [Pb Pz]. pose proof (populated_pc_word (je_clk event) (je_pc event) Hpc') as Ep.
  unfold JalChip.event_to_row. fold (add_unless (je_op_a_0 event) (je_pc event) 4).
  destruct (AddOperation.populate _ (je_b event)) as [[add ev2] r], (add_unless _ _ _) as [opa ev3],
    (JTypeReader.populate rec) as [ad ev5], (CPUState.populate _ _) as [st ev4]. cbn [fst snd] in *.
  eexists. split; [reflexivity|].
  cbn [fst snd JalChip.is_real JalChip.adapter JalChip.add_operation JalChip.op_a_operation JalChip.state JalChip.adapter_cols].
  rewrite Pb, Pz, <- Ez, Eb, Ep, Eadd, (word_from_small48 (wrapping_add _ _) Ht). cbn [limb0 limb1 limb2 limb3].
  rewrite mask_limb_0. apply (complete_perm _ ((ev2 ++ add_bit_range_check (limb16 (wrapping_add (je_pc event) (je_b event)) 0 / 4) 14) ++ ev3 ++ ev4 ++ ev5)).
  { rewrite <- !app_assoc. apply Permutation_app_swap_app. }
  apply complete_app.
  - apply complete_asserts_app; [apply bool_1|]. apply complete_app; [exact Hadd|].
    apply complete_asserts_app; [apply complete_zero; reflexivity|].
    apply complete_range_4; [apply limb16_bound|]. rewrite limb0_mod, H4 by auto. lia.
  - apply late_complete; [exact Hret|]. apply Hf. intros E0. apply Hx0. rewrite Ez, E0. reflexivity.
Qed.

Lemma jalr_chip_completes (event : JumpEvent) (rec : ITypeRecord) :
  let target := wrapping_add (je_b event) (it_op_c rec) in
  jump_event_ok event target -> target mod 4 < 2 -> jalr_record_ok event rec ->
  chip_complete (JalrChip.eval rrs cfg) (JalrChip.event_to_row user event rec).
Proof.
  cbv zeta. intros [Hc Hpc Hb Ht] H4 (Aa & Ab & Vb & Hi & Ez).
  assert (Hpc' : 0 <= je_pc event < 2 ^ 48) by (unfold PC_INC in Hpc; lia).
  pose proof (add_complete (je_b event) (it_op_c rec) Hb Hi) as Hadd.
  pose proof (add_value (je_b event) (it_op_c rec)) as Eadd.
  destruct (return_complete (je_op_a_0 event) (je_pc event) Hpc) as [Hret Hx0].
  pose proof (fun op cs v Hv => i_next_complete rec (je_clk event) (je_pc event) op cs v Hc Aa Ab Hv) as Hf.
  pose proof (i_populate_cols rec) as (_ & Pb & Pc & Pz).
  pose proof (populated_pc_word (je_clk event) (je_pc event) Hpc') as Ep.
  unfold JalrChip.event_to_row. fold (add_unless (je_op_a_0 event) (je_pc event) 4).
  destruct (AddOperation.populate _ (it_op_c rec)) as [[add ev2] r], (add_unless _ _ _) as [opa ev3],
    (ITypeReader.populate rec) as [ad ev5], (CPUState.populate _ _) as [st ev4]. cbn [fst snd] in *.
  eexists. split; [reflexivity|].
  cbn [fst snd JalrChip.is_real JalrChip.adapter JalrChip.add_operation JalrChip.op_a_operation JalrChip.state
       JalrChip.adapter_cols JalrChip.lsb].
  rewrite Pb, Pc, Pz, <- Ez, Vb, Ep, Eadd, (word_from_small48 (wrapping_add _ _) Ht). cbn [limb0 limb1 limb2 limb3].
  rewrite mask_limb_0. set (x := limb16 (wrapping_add (je_b event) (it_op_c rec)) 0).
  assert (Bx : 0 <= x < 2 ^ 16) by apply limb16_bound.
  assert (Mx : x mod 4 < 2) by (unfold x; rewrite limb0_mod by auto; exact H4).
  assert (Lx : Z.land x 1 = x mod 4) by (change 1 with (2 ^ 1 - 1); rewrite land_mask by lia; change (2 ^ 1) with 2; dlia).
  rewrite Lx. apply (complete_perm _ ((ev2 ++ add_bit_range_check (x / 4) 14) ++ (ev4 ++ ev5) ++ ev3)).
  { rewrite <- !app_assoc. etransitivity; [apply Permutation_app_swap_app|]. do 2 apply Permutation_app_head.
    rewrite app_assoc. apply Permutation_app_comm. }
  apply complete_app; [|apply complete_app; [apply Hf; intros E0; apply Hx0; rewrite Ez, E0; reflexivity | exact Hret]].
  apply complete_asserts_app; [apply bool_1|]. apply complete_app; [exact Hadd|].
  apply complete_asserts_app; [apply complete_zero; reflexivity|].
  apply complete_asserts_app; [apply complete_bool, bit_is_bool; dlia|].
  rewrite Fof_sub. apply complete_range_4; [exact Bx | reflexivity].
Qed.

Lemma utype_chip_completes (event : UTypeEvent) (rec : JTypeRecord) :
  utype_event_ok event rec ->
  chip_complete (UTypeChip.eval rrs cfg) (UTypeChip.event_to_row user event rec).
Proof.
  intros [Hc Hpc Hb Aa Eb]. set (auipc := opcode_eqb (ue_opcode event) AUIPC).
  set (a := if auipc then ue_pc event else 0). assert (Ha : 0 <= a < 2 ^ 48) by (unfold a; destruct auipc; lia).
  destruct (add_unless_complete (jt_op_a rec =? 0) a (ue_b event) ltac:(unfold is_u; lia) Hb) as [Hadd Ev].
  pose proof (fun op cs v Hv => j_frame_complete rec (ue_clk event) (ue_pc event) op cs v Hc Aa Hv) as Hf.
  pose proof (j_populate_cols rec) as [Pb Pz]. pose proof (populated_pc_word (ue_clk event) (ue_pc event) Hpc) as Ep.
  unfold UTypeChip.event_to_row. fold auipc. fold a. fold (add_unless (jt_op_a rec =? 0) a (ue_b event)).
  destruct (add_unless _ _ _) as [op ev1], (JTypeReader.populate rec) as [ad ev3], (CPUState.populate _ _) as [st ev2].
  cbn [fst snd] in *. eexists. split; [reflexivity|].
  cbn [fst snd UTypeChip.is_real UTypeChip.is_auipc UTypeChip.adapter UTypeChip.add_operation UTypeChip.addend0
       UTypeChip.addend1 UTypeChip.addend2 UTypeChip.state UTypeChip.adapter_cols].
  assert (Ew : mkWord (Fof (as_u16 (Z.land a 0xFFFF))) (Fof (as_u16 (shr a 16))) (Fof (as_u16 (shr a 32))) F0 = word_from_u64 a).
  { rewrite mask_limb_0, word_from_small48 by exact Ha. unfold limb16, as_u16, as_unsigned. rewrite !shr_div by lia. reflexivity. }
  rewrite Ew, Pb, Pz, Eb, Ep. apply complete_asserts_app.
  { apply complete_asserts_app; [apply bool_1 | apply complete_bool, Fof_bool_is_bool]. }
  apply late_complete.
  - apply complete_asserts_app; [|apply complete_asserts_app;
      [apply complete_when_zero; intros C; exfalso; apply C; ring | exact Hadd]].
    replace (select_word (Fof_bool auipc) (word_from_u64 (ue_pc event)) word_zero) with (word_from_u64 a);
      [apply complete_asserts; [cbn; tauto | reflexivity]|].
    unfold a, select_word, if_else. destruct auipc; cbn [Fof_bool];
      [destruct (word_from_u64 (ue_pc event)) as [w0 w1 w2 w3] | change (word_from_u64 0) with word_zero; unfold word_zero];
      cbn [limb0 limb1 limb2 limb3]; f_equal; ring.
  - apply Hf. intros E0. rewrite Ev, E0. reflexivity.
Qed.

Lemma complete_pc_carries (t : bool) (a b v : Word F) :
  valid_word a -> valid_word b -> valid_word v -> (t = true -> word_val v = wrapping_add (word_val a) (word_val b)) ->
  complete (BranchChip.pc_carries (Fof_bool t) F0 (combine (combine (word_list a) (word_list b)) (word_list v))) [].
Proof.
  intros Va Vb Vv Ht. apply complete_asserts.
  - destruct t; [apply pc_carries_iff; auto|]. cbn. repeat split; intros [C _]; exfalso; apply C; reflexivity.
  - generalize F0. induction (combine _ _) as [|[[p i] n] l IH]; intros k; [reflexivity|].
    cbn [BranchChip.pc_carries]. rewrite byte_lookups_app, IH. reflexivity.
Qed.

Lemma branch_carries (t : bool) (st : CPUState.Cols) (pc next inc : Z) :
  pc_word st = word_from_u64 pc -> 0 <= pc < 2 ^ 48 -> 0 <= next < 2 ^ 48 -> is_u64 inc ->
  (t = true -> next = wrapping_add pc inc) ->
  let c := word_from_u64 inc in
  complete (BranchChip.pc_carries (Fof_bool t) F0
    [(CPUState.pc0 st, limb0 c, Fof (limb16 next 0)); (CPUState.pc1 st, limb1 c, Fof (limb16 next 1));
     (CPUState.pc2 st, limb2 c, Fof (limb16 next 2)); (F0, limb3 c, F0)]) [].
Proof.
  intros Ep Hpc Hn Hi Ht. cbv zeta.
  apply (complete_pc_carries t (pc_word st) (word_from_u64 inc)
           (mkWord (Fof (limb16 next 0)) (Fof (limb16 next 1)) (Fof (limb16 next 2)) F0));
    rewrite <- ?(word_from_small48 next Hn), ?Ep; try apply valid_word_from.
  intros E. rewrite !word_val_from by (assumption || unfold is_u; lia). auto.
Qed.

(** The flags of a branch event: one of them is set, the one of its opcode. *)
Lemma branch_flags (o : Opcode) (a b : Z) (taken : bool) :
  branch_taken o a b = Ok taken ->
  let fl := map (fun o' => Fof_bool (opcode_eqb o o')) BranchChip.opcodes in
  sum_flags fl = F1 /\ weighted fl (map opcode_num BranchChip.opcodes) = Fof (opcode_num o) /\
  (Fof_bool (opcode_eqb o BLT) + Fof_bool (opcode_eqb o BGE))%F = Fof_bool (opcode_eqb o BLT || opcode_eqb o BGE) /\
  BranchChip.branching o (a =? b)
    (if opcode_eqb o BLT || opcode_eqb o BGE then as_i64 a <? as_i64 b else a <? b) = Ok taken.
Proof.
  unfold weighted. destruct o; cbn [branch_taken]; try discriminate; intros E; injection E as <-; opcode_compute;
    cbn [map BranchChip.opcodes sum_flags fold_left combine fst snd Fof_bool BranchChip.branching orb];
    rewrite ?Z.leb_antisym; opcode_compute; cbn [Fof_bool orb]; repeat split; ring.
Qed.

Lemma complete_flags (l : list F) : Forall is_bool l -> complete (flat_map assert_bool l) [].
Proof.
  intros H. induction H as [|x l Hx _ IH]; [split; [exact I | reflexivity]|]. cbn [flat_map].
  apply complete_asserts_app; [apply complete_bool, Hx | exact IH].
Qed.

(** The limbs of the next program counter, and the lookups recorded for them. *)
Lemma next_pc_limbs (x : Z) :
  as_u16 (Z.land x 0xFFFF) = limb16 x 0 /\ as_u16 (Z.land (shr x 16) 0xFFFF) = limb16 x 1 /\
  as_u16 (Z.land (shr x 32) 0xFFFF) = limb16 x 2.
Proof. split; [apply mask_limb_0 | split; [apply (mask_limb x 1) | apply (mask_limb x 2)]; lia]. Qed.

Lemma range_checks_field (x y : Z) :
  0 <= x < 2 ^ 16 -> 0 <= y < 2 ^ 16 -> add_u16_range_checks_field [Fof x; Fof y] = add_u16_range_checks [x; y].
Proof.
  intros Hx Hy. unfold add_u16_range_checks_field. cbn [map].
  rewrite !Fval_of_small by (unfold KOALA_BEAR_ORDER; lia). unfold as_u16, as_unsigned. rewrite !Z.mod_small by lia.
  reflexivity.
Qed.

Lemma branch_chip_completes (event : BranchEvent) (rec : ITypeRecord) (taken : bool) :
  branch_event_ok event rec taken ->
  exists r, BranchChip.event_to_row user event rec = Ok r /\ chip_complete (BranchChip.eval rrs cfg) r.
Proof.
  intros [Hc Hpc Ha Hb Hcc Ra Rb Va Vb Vc Hx0 Ht En Hn Hal]. set (o := be_opcode event) in *.
  destruct (branch_flags o _ _ taken Ht) as (Hone & Hop & Hsg & Hbr).
  set (sg := opcode_eqb o BLT || opcode_eqb o BGE) in *.
  destruct (lt_signed_complete _ _ sg Ha Hb) as (cmp & ev1 & Epop & Hcmp).
  pose proof (fun op cs v Hv => i_next_complete rec (be_clk event) (be_pc event) op cs v Hc Ra Rb Hv) as Hf.
  pose proof (i_populate_cols rec) as (Pa & Pb & Pc & _).
  pose proof (populated_pc_word (be_clk event) (be_pc event) Hpc) as Ep.
  unfold BranchChip.event_to_row. fold o. fold sg. cbv zeta. rewrite Hbr. cbn [bind].
  destruct (next_pc_limbs (be_next_pc event)) as (-> & -> & ->).
  rewrite range_checks_field by apply limb16_bound.
  unfold lt_spec in Epop. rewrite Epop. cbn [bind].
  destruct (ITypeReader.populate rec) as [ad ev5], (CPUState.populate _ _) as [st ev4]. cbn [fst snd] in *.
  eexists. split; [reflexivity|]. unfold chip_complete. cbn [fst snd].
  match goal with |- context [BranchChip.eval rrs cfg ?c] => set (local := c) end.
  assert (Efl : BranchChip.flags local = map (fun o' => Fof_bool (opcode_eqb o o')) BranchChip.opcodes) by reflexivity.
  assert (Bfl : Forall is_bool (BranchChip.flags local)) by (rewrite Efl; apply Forall_map, Forall_forall; intros; apply Fof_bool_is_bool).
  rewrite <- Efl in Hone, Hop. rewrite <- Hsg in Hcmp.
  destruct (branch_decided local _ _ o (valid_word_from (be_a event)) (valid_word_from (be_b event)) Bfl Hone Hop (proj1 Hcmp))
    as (taken' & Et & Es). rewrite !word_val_from, Ht in Et by assumption. injection Et as <-.
  unfold BranchChip.eval. cbv zeta. rewrite Hone.
  assert (exists cs, flag_consts rrs (BranchChip.flags local) BranchChip.opcodes = Ok cs) as [cs ->] by (eexists; reflexivity).
  cbn [bind]. eexists. split; [reflexivity|].
  apply (complete_perm _ ([] ++ (ev4 ++ ev5) ++ ev1 ++ add_bit_range_check (limb16 (be_next_pc event) 0 / 4) 14 ++
           add_u16_range_checks [limb16 (be_next_pc event) 1; limb16 (be_next_pc event) 2])).
  { cbn [app]. rewrite Permutation_app_comm, <- !app_assoc. reflexivity. }
  apply complete_app; [apply complete_asserts_app; [apply complete_flags, Bfl | apply bool_1]|].
  apply complete_app.
  { apply Hf. intros E0. cbn [local BranchChip.adapter]. rewrite Pa, Va, (Hx0 E0). reflexivity. }
  unfold local. cbn [BranchChip.adapter BranchChip.state BranchChip.compare_operation BranchChip.is_blt BranchChip.is_bge
    BranchChip.is_branching BranchChip.next_pc0 BranchChip.next_pc1 BranchChip.next_pc2].
  rewrite Pa, Pb, Pc, Va, Vb, Vc. apply complete_app; [exact Hcmp|].
  apply complete_asserts_app; [apply complete_bool; destruct taken; [right | left]; reflexivity|].
  apply complete_asserts_app; [apply complete_when_eq; intros _; exact (eq_sym Es)|].
  assert (Et : (if taken then F1 else F0) = Fof_bool taken) by (destruct taken; reflexivity). rewrite Et.
  apply complete_asserts_app; [|apply complete_asserts_app; [|apply complete_app]].
  - apply (branch_carries taken st (be_pc event) (be_next_pc event) (be_c event)); try assumption. intros ->. exact En.
  - replace (F1 - Fof_bool taken)%F with (Fof_bool (negb taken)) by (destruct taken; cbn [negb Fof_bool]; ring).
    apply (branch_carries (negb taken) st (be_pc event) (be_next_pc event) 4); try assumption; [unfold is_u; lia|].
    destruct taken; [discriminate|]. intros _. rewrite En, pc_wrapping_add_4 by exact Hpc. reflexivity.
  - apply complete_range_4; [apply limb16_bound|]. rewrite limb0_mod, Hal by auto. lia.
  - apply (complete_range16 [limb16 (be_next_pc event) 1; limb16 (be_next_pc event) 2]).
    repeat constructor; apply limb16_bound.
Qed.
End Complete.
