(* ===== verification/AluX0.v ===== *)
(** * ALU instructions with destination [x0]

    [crates/core/machine/src/alu/alu_x0.rs] and [eval_alu_x0_selectors] of
    [lib.rs]: a row reads the operands of an ALU instruction and leaves [x0] as
    it is.  In user mode selector columns, one per opcode, give the fields of
    the instruction's encoding. *)

From Stdlib Require Import ZArith Lia List Bool Permutation.
From S2P Require Import Prelude Words Isa Field Air AirFacts SmallInverse Operations Mul.
From S2P Require Import Adapter AdapterFacts Row Readers AluChips AluChipFacts MemoryChips MemoryChipFacts.
From S2P Require Import ControlChips ControlChipFacts.
Import ListNotations.
Open Scope Z_scope.

(** ** [AluX0OpcodeSelectors]: the column [is_<opcode>] is [sel o]. *)
Record AluX0OpcodeSelectors : Type := mkSelectors {
  sel_instr_type : F;
  sel_base_opcode : F;
  sel_funct3 : F;
  sel_funct7 : F;
  sel : Opcode -> F
}.

(** The opcodes of the columns, in their order. *)
Definition selector_opcodes : list Opcode :=
  [ADD; SUB; MUL; MULH; MULHSU; MULHU; DIV; DIVU; REM; REMU; SLL; SRL; SRA; XOR; OR; AND; SLT; SLTU; ADDI; ADDW; SUBW;
   SLLW; SRLW; SRAW; MULW; DIVW; DIVUW; REMW; REMUW].

Definition eval_alu_x0_selectors (rrs : MajorOpcodes) (s : AluX0OpcodeSelectors) (imm_c is_real : F) : list Emit :=
  let sum os := sum_flags (map (sel s) os) in
  let selector_sum := sum selector_opcodes in
  let is_op := sum [ADD; SUB; MUL; MULH; MULHSU; MULHU; DIV; DIVU; REM; REMU; SLL; SRL; SRA; XOR; OR; AND; SLT; SLTU] in
  let is_op_32 := sum [ADDW; SUBW; SLLW; SRLW; SRAW; MULW; DIVW; DIVUW; REMW; REMUW] in
  let has_imm_op_imm := sum [SLL; SRL; SRA; XOR; OR; AND; SLT; SLTU; ADDI] in
  let has_imm_op_imm_32 := sum [ADDW; SLLW; SRLW; SRAW] in
  let is_addi := sel s ADDI in
  let reg_base_opcode := (is_op * Fof (OPCODE_OP rrs) + is_op_32 * Fof (OPCODE_OP_32 rrs)
                          + is_addi * Fof (OPCODE_OP_IMM rrs))%F in
  let imm_base_opcode := (has_imm_op_imm * Fof (OPCODE_OP_IMM rrs) + has_imm_op_imm_32 * Fof (OPCODE_OP_IMM_32 rrs))%F in
  let base_opcode := ((is_real - imm_c) * reg_base_opcode + imm_c * imm_base_opcode)%F in
  let ty t := Fof (instruction_type_num t) in
  let reg_instr_type := ((is_op + is_op_32) * ty RType + is_addi * ty IType)%F in
  let is_shamt := sum [SLL; SRL; SRA] in
  let is_shamt32 := sum [SLLW; SRLW; SRAW] in
  let is_itype_imm := sum [XOR; OR; AND; SLT; SLTU; ADDI; ADDW] in
  let imm_instr_type := (is_shamt * ty ITypeShamt + is_shamt32 * ty ITypeShamt32 + is_itype_imm * ty IType)%F in
  let instr_type := ((is_real - imm_c) * reg_instr_type + imm_c * imm_instr_type)%F in
  let funct3 := (sum [MULH; SLL; SLLW] * Fof 1 + sum [MULHSU; SLT] * Fof 2 + sum [MULHU; SLTU] * Fof 3
                 + sum [DIV; XOR; DIVW] * Fof 4 + sum [DIVU; SRL; SRA; DIVUW; SRLW; SRAW] * Fof 5
                 + sum [REM; OR; REMW] * Fof 6 + sum [REMU; AND; REMUW] * Fof 7)%F in
  let funct7 := (sum [SUB; SRA; SUBW; SRAW] * Fof 32
                 + sum [MUL; MULH; MULHSU; MULHU; DIV; DIVU; REM; REMU; MULW; DIVW; DIVUW; REMW; REMUW] * Fof 1)%F in
  flat_map (fun o => assert_bool (sel s o)) selector_opcodes ++
  assert_bool selector_sum ++
  when is_real (assert_one selector_sum) ++
  when_not is_real (assert_zero selector_sum) ++
  assert_eq (sel_instr_type s) instr_type ++
  assert_eq (sel_base_opcode s) base_opcode ++
  assert_eq (sel_funct3 s) funct3 ++
  assert_eq (sel_funct7 s) funct7.

Module AluX0Chip.
(** [selector_cols] is a column of the user mode chip only. *)
Record Cols : Type := mkCols {
  state : CPUState.Cols;
  adapter : ALUTypeReader.Cols;
  opcode : F;
  is_real : F;
  adapter_cols : AdapterCols;
  selector_cols : AluX0OpcodeSelectors
}.

Definition no_selectors : AluX0OpcodeSelectors := mkSelectors F0 F0 F0 F0 (fun _ => F0).

(** The selectors of a user mode row. *)
Definition selectors (rrs : MajorOpcodes) (op : Opcode) (imm_c : bool) : Res AluX0OpcodeSelectors :=
  let* t := instruction_type op in
  let* b := base_opcode rrs op in
  let* (ty, base) :=
    if imm_c then let* ti := of_option (snd t) in let* bi := of_option (snd b) in Ok (instruction_type_num ti, bi)
    else Ok (instruction_type_num (fst t), fst b) in
  let* f3 := of_option (funct3 op) in
  let f7 := unwrap_or (funct7 op) 0 in
  Ok (mkSelectors (Fof ty) (Fof base) (Fof f3) (Fof f7)
        (fun o => if existsb (opcode_eqb o) selector_opcodes then Fof_bool (opcode_eqb op o) else F0)).

Definition event_to_row (rrs : MajorOpcodes) (user : bool) (event : AluEvent) (record : ALUTypeRecord)
  : Res (Cols * list ByteLookupEvent) :=
  let ev1 := [mkByteLookupEvent BLTU8 1 (opcode_num (ev_opcode event)) 29] in
  let '(st, ev2) := CPUState.populate (ev_clk event) (ev_pc event) in
  let '(ad, ev3) := ALUTypeReader.populate record in
  let imm_c := match at_c record with None => true | Some _ => false end in
  let* sels := if user then selectors rrs (ev_opcode event) imm_c else Ok no_selectors in
  Ok (mkCols st ad (Fof (opcode_num (ev_opcode event))) F1 (trust_cols user (at_is_untrusted record)) sels,
      ev1 ++ ev2 ++ ev3).

(** The trust part, which also constrains the selectors. *)
Definition trust (rrs : MajorOpcodes) (cfg : Config) (local : Cols) : list Emit * F :=
  let st := state local in
  let s := selector_cols local in
  let pv := if mprotect cfg
            then assert_eq (is_untrusted_programs_enabled cfg) (Fof_bool (negb (IS_TRUSTED (adapter_cols local))))
            else [] in
  match adapter_cols local with
  | SupervisorMode => (pv, is_real local)
  | UserMode is_trusted =>
      (pv ++ assert_bool (ALUTypeReader.imm_c (adapter local)) ++
       (if mprotect cfg then [] else assert_zero (is_real local)) ++
       eval_alu_x0_selectors rrs s (ALUTypeReader.imm_c (adapter local)) (is_real local) ++
       eval_untrusted_program cfg (CPUState.pc st) (ALUTypeReader.instruction (adapter local) (opcode local))
         [sel_instr_type s; sel_base_opcode s; sel_funct3 s; sel_funct7 s] [CPUState.clk_high st; CPUState.clk_low st]
         (is_real local) is_trusted,
       is_trusted)
  end.

Definition eval (rrs : MajorOpcodes) (cfg : Config) (local : Cols) : Res (list Emit) :=
  let st := state local in
  Ok ((assert_bool (is_real local) ++
       when (is_real local) (assert_one (ALUTypeReader.op_a_0 (adapter local))) ++
       when_not (is_real local) (assert_zero (ALUTypeReader.op_a_0 (adapter local)))) ++
      CPUState.eval st (pc_inc st) (Fof CLK_INC) (is_real local) ++
      send_byte (byte_op BLTU8) F1 (opcode local) (Fof 29) (is_real local) ++
      fst (trust rrs cfg local) ++
      ALUTypeReader.eval_op_a_immutable (CPUState.clk_high st) (CPUState.clk_low st) (CPUState.pc st) (opcode local)
        (adapter local) (is_real local) (snd (trust rrs cfg local))).
End AluX0Chip.

(** ** Soundness *)

Lemma quiet_selectors (rrs : MajorOpcodes) (s : AluX0OpcodeSelectors) (i r : F) : quiet (eval_alu_x0_selectors rrs s i r).
Proof. unfold eval_alu_x0_selectors, when_not. cbv zeta. auto 20 with quiet. Qed.
#[export] Hint Resolve quiet_selectors : quiet.

(** The constraints the chip adds to the trust part. *)
Definition x0_extra (rrs : MajorOpcodes) (local : AluX0Chip.Cols) : list Emit :=
  match AluX0Chip.adapter_cols local with
  | SupervisorMode => []
  | UserMode _ =>
      assert_bool (ALUTypeReader.imm_c (AluX0Chip.adapter local)) ++
      eval_alu_x0_selectors rrs (AluX0Chip.selector_cols local) (ALUTypeReader.imm_c (AluX0Chip.adapter local))
        (AluX0Chip.is_real local)
  end.

Definition x0_consts (local : AluX0Chip.Cols) : list F :=
  let s := AluX0Chip.selector_cols local in [sel_instr_type s; sel_base_opcode s; sel_funct3 s; sel_funct7 s].

Section Trust.
Context (rrs : MajorOpcodes) (cfg : Config) (local : AluX0Chip.Cols).
Abbreviation st := (AluX0Chip.state local).
Abbreviation trust :=
  (eval_trust cfg (AluX0Chip.adapter_cols local) (CPUState.pc st)
     (ALUTypeReader.instruction (AluX0Chip.adapter local) (AluX0Chip.opcode local)) (x0_consts local)
     [CPUState.clk_high st; CPUState.clk_low st] (AluX0Chip.is_real local)).

Lemma x0_trust :
  snd (AluX0Chip.trust rrs cfg local) = snd trust /\
  Permutation (fst (AluX0Chip.trust rrs cfg local)) (x0_extra rrs local ++ fst trust).
Proof.
  unfold AluX0Chip.trust, eval_trust, x0_extra, x0_consts. cbv zeta.
  destruct (AluX0Chip.adapter_cols local) as [|t]; cbn [fst snd]; split; try reflexivity.
  set (pv := if mprotect cfg then _ else []). set (z := if mprotect cfg then [] else _).
  set (un := eval_untrusted_program _ _ _ _ _ _ _). set (se := eval_alu_x0_selectors _ _ _ _). clearbody pv z un se.
  rewrite <- !app_assoc. etransitivity; [apply Permutation_app_swap_app|]. apply Permutation_app_head.
  etransitivity; [apply Permutation_app_head, Permutation_app_swap_app | apply Permutation_app_swap_app].
Qed.

Lemma x0_trust_bus (k : InteractionKind) :
  k <> KByte -> sends k (fst (AluX0Chip.trust rrs cfg local)) = sends k (fst trust) /\
  receives k (fst (AluX0Chip.trust rrs cfg local)) = receives k (fst trust).
Proof.
  intros Hk. unfold AluX0Chip.trust, eval_trust, x0_consts. cbv zeta.
  destruct (AluX0Chip.adapter_cols local) as [|t]; cbn [fst]; [auto|]. rewrite !sends_app, !receives_app.
  match goal with |- context [eval_alu_x0_selectors ?a ?b ?c ?d] =>
    destruct (quiet_selectors a b c d k Hk) as [-> ->] end.
  assert (Q : quiet (assert_bool (ALUTypeReader.imm_c (AluX0Chip.adapter local)))) by auto with quiet.
  destruct (Q k Hk) as [-> ->]. auto.
Qed.

Lemma quiet_extra : quiet (x0_extra rrs local).
Proof. unfold x0_extra. destruct (AluX0Chip.adapter_cols local); auto with quiet. Qed.
End Trust.

Lemma alu_opcode_value (o : Opcode) (b c : Z) : opcode_num o < 29 -> exists r, alu_value o b c = Ok r.
Proof. destruct o; cbn [opcode_num alu_value]; intros H; try lia; eexists; reflexivity. Qed.

Section Sound.
Context (rrs : MajorOpcodes) (cfg : Config) (row : list Emit) (Hs : sats row).

(** The row as one of a chip with constraints inside its frame. *)
Definition x0_ops (local : AluX0Chip.Cols) : list Emit :=
  assert_bool F1 ++ when F1 (assert_one (ALUTypeReader.op_a_0 (AluX0Chip.adapter local))) ++
  when_not F1 (assert_zero (ALUTypeReader.op_a_0 (AluX0Chip.adapter local))).
Definition x0_mid (local : AluX0Chip.Cols) : list Emit :=
  send_byte (byte_op BLTU8) F1 (AluX0Chip.opcode local) (Fof 29) F1 ++ x0_extra rrs local.

(** The instruction has destination [x0] and an opcode of the ALU. *)
Lemma x0_value (local : AluX0Chip.Cols) pc i :
  frame_run cfg (AluX0Chip.adapter_cols local) (AluX0Chip.state local) (AluX0Chip.adapter local) (AluX0Chip.opcode local)
    (x0_consts local) (ALUTypeReader.prev_a (AluX0Chip.adapter local)) (pc_inc (AluX0Chip.state local)) []
    (x0_ops local ++ x0_mid local) pc i ->
  sats (when F1 (assert_one (ALUTypeReader.op_a_0 (AluX0Chip.adapter local)))) ->
  sats (send_byte (byte_op BLTU8) F1 (AluX0Chip.opcode local) (Fof 29) F1) ->
  valid_word (ALUTypeReader.prev_a (AluX0Chip.adapter local)) /\
  forall clk ta tb tc,
    instruction_step i clk pc
      (alu_accesses i clk ta (word_val (rd_a (AluX0Chip.adapter local))) tb (word_val (rd_b (AluX0Chip.adapter local))) tc
         (word_val (rd_c (AluX0Chip.adapter local))) (word_val (ALUTypeReader.prev_a (AluX0Chip.adapter local)))) (pc + PC_INC).
Proof.
  intros Hfr H0 Hlt. split; [exact (fr_a Hfr)|]. intros clk ta tb tc.
  rewrite sats_when_1 in H0. unfold assert_one in H0. apply sats_eq in H0.
  assert (Ez := f_equal InstructionCols.op_a_0 (fr_instruction Hfr)). cbn in Ez. rewrite H0 in Ez.
  apply Fof_bool_inj1, Z.eqb_eq in Ez.
  destruct Hlt as [Hlt _]. specialize (Hlt F1_neq_0). apply lookup_ltu in Hlt as (_ & _ & Hlt). rewrite (fr_opcode Hfr) in Hlt.
  destruct (alu_opcode_value (Isa.opcode i) (word_val (rd_b (AluX0Chip.adapter local)))
             (word_val (rd_c (AluX0Chip.adapter local)))) as [r Er].
  { pose proof (opcode_num_bound (Isa.opcode i)). rewrite (Fval_of_small (opcode_num _)) in Hlt by lia.
    change (Fval (Fof 29)) with 29 in Hlt. destruct (Z.ltb_spec (opcode_num (Isa.opcode i)) 29); [assumption | discriminate]. }
  replace (word_val (ALUTypeReader.prev_a (AluX0Chip.adapter local))) with (rd_value i r)
    by (unfold rd_value; rewrite Ez, (fr_x0 Hfr Ez); reflexivity).
  apply step_alu; [exact (fr_imm_b Hfr) | exact (fr_imm_c Hfr) | exact Er].
Qed.

Lemma alu_x0_chip_steps (local : AluX0Chip.Cols) :
  AluX0Chip.eval rrs cfg local = Ok row -> AluX0Chip.is_real local = F1 -> step_row row.
Proof.
  intros E Hr. unfold AluX0Chip.eval in E. chip_row E. rewrite Hr in Hs |- *.
  destruct (x0_trust rrs cfg local) as [Et Hp]. rewrite Hr in Et, Hp. rewrite Et in *.
  assert (Hq : quiet (x0_mid local)) by (unfold x0_mid; auto using quiet_extra with quiet).
  eapply same_bus_step.
  - intros k Hk. instantiate (1 := x0_ops local ++ late_frame cfg (AluX0Chip.adapter_cols local) (AluX0Chip.state local)
      (AluX0Chip.adapter local) (AluX0Chip.opcode local) (x0_consts local) (ALUTypeReader.prev_a (AluX0Chip.adapter local))
      (pc_inc (AluX0Chip.state local)) (x0_mid local) F1).
    unfold late_frame, x0_ops. cbv zeta. rewrite !sends_app, !receives_app.
    destruct (Hq k Hk) as [-> ->]. destruct (x0_trust_bus rrs cfg local k Hk) as [E1 E2]. rewrite Hr in E1, E2.
    rewrite E1, E2. destruct (quiet_byte (byte_op BLTU8) F1 (AluX0Chip.opcode local) (Fof 29) F1 k Hk) as [-> ->].
    auto.
  - apply late_step; [exact Hq|]. apply sequential_step; [unfold x0_ops, when_not; auto 20 with quiet | auto with quiet | |].
    + apply late_sats. unfold late_frame, x0_ops, x0_mid. cbv zeta. rewrite !sats_app in *.
      pose proof (proj1 (proj2 (proj2 (proj2 Hs)))) as Htr. apply (sats_reorder _ _ Hp) in Htr. apply sats_app in Htr.
      tauto.
    + intros pc i Hfr _. rewrite !sats_app in Hs. destruct Hs as ((_ & H0 & _) & _ & Hlt & _).
      apply x0_value with (local := local); assumption.
Qed.
End Sound.

(** ** Completeness *)

(** The opcodes that have an immediate form. *)
Definition imm_opcodes : list Opcode :=
  [SLL; SRL; SRA; XOR; OR; AND; SLT; SLTU; ADDI; ADDW; SLLW; SRLW; SRAW].

(** What the record of an instruction with destination [x0] satisfies. *)
Definition x0_record_ok (event : AluEvent) (rec : ALUTypeRecord) : Prop :=
  at_op_a rec = 0 /\ mr_value (previous_record (at_a rec)) = 0 /\ access_at (ev_clk event) 4 (at_a rec) /\
  access_at (ev_clk event) 3 (at_b rec) /\
  match at_c rec with Some r => access_at (ev_clk event) 2 r | None => In (ev_opcode event) imm_opcodes end.

(** The sums of selectors of a concrete opcode. *)
Ltac selector_sums :=
  repeat match goal with
  | |- context [sum_flags (map ?f ?l)] =>
      let t := constr:(sum_flags (map f l)) in
      let v := eval vm_compute in (Feqb t F1) in
      let w := match v with true => constr:(F1) | false => constr:(F0) end in
      replace t with w by (symmetry; apply Feqb_eq; vm_compute; reflexivity)
  end.

Lemma selectors_complete (rrs : MajorOpcodes) (o : Opcode) (imm : bool) :
  In o selector_opcodes -> (imm = true -> In o imm_opcodes) ->
  exists s, AluX0Chip.selectors rrs o imm = Ok s /\ complete (eval_alu_x0_selectors rrs s (Fof_bool imm) F1) [].
Proof.
  intros Ho Hi.
  assert (Hz : forall x, complete (when_not F1 (assert_zero x)) []).
  { intros x. apply complete_when_zero. intros C. contradiction C. ring. }
  assert (Hb : forall f, complete (flat_map (fun o => assert_bool (if existsb (opcode_eqb o) selector_opcodes then Fof_bool (f o) else F0))
    selector_opcodes) []).
  { intros f. apply complete_flat_map. intros x _. apply complete_bool. destruct (existsb _ _); [apply Fof_bool_is_bool | left; reflexivity]. }
  repeat (destruct Ho as [<- | Ho]; [destruct imm; [try (exfalso; specialize (Hi eq_refl); cbn in Hi; intuition discriminate)|];
    (eexists; split; [reflexivity|]; unfold eval_alu_x0_selectors; cbv zeta;
     cbn [sel sel_instr_type sel_base_opcode sel_funct3 sel_funct7]; selector_sums;
     change (existsb (opcode_eqb ADDI) selector_opcodes) with true; cbv iota; opcode_compute;
     cbn [Fof_bool fst snd instruction_type_num unwrap_or funct7];
     apply complete_asserts_app; [apply Hb|]; apply complete_asserts_app; [apply bool_1|];
     apply complete_asserts_app; [apply complete_when_1, complete_eq; reflexivity|]; apply complete_asserts_app; [apply Hz|];
     repeat apply complete_asserts_app; apply complete_eq; apply (Rep_eq _ _); lia)|]).
  contradiction Ho.
Qed.

Section Complete.
Context (rrs : MajorOpcodes) (cfg : Config) (user : bool) (event : AluEvent) (rec : ALUTypeRecord).
Context (Hcfg : cfg_ok cfg user) (Hclk : clk_ok (ev_clk event)).
Context (Ho : In (ev_opcode event) selector_opcodes) (Hr : x0_record_ok event rec).

Lemma x0_populate :
  let '(ad, _) := ALUTypeReader.populate rec in
  ALUTypeReader.op_a_0 ad = F1 /\ ALUTypeReader.prev_a ad = word_zero /\
  ALUTypeReader.imm_c ad = Fof_bool (match at_c rec with None => true | Some _ => false end).
Proof.
  destruct Hr as (E0 & Ez & _). unfold ALUTypeReader.populate. pose proof (populate_prev_value (at_a rec)) as Pa.
  destruct (RegisterAccess.populate (at_a rec)) as [ma ?], (RegisterAccess.populate (at_b rec)). rewrite Ez in Pa. cbn [fst] in Pa.
  destruct (at_c rec) as [r|]; [destruct (RegisterAccess.populate r)|]; cbn; rewrite E0; (split; [reflexivity|]);
    (split; [exact Pa | reflexivity]).
Qed.

Lemma x0_lookup_complete :
  complete (send_byte (byte_op BLTU8) F1 (Fof (opcode_num (ev_opcode event))) (Fof 29) F1)
    [mkByteLookupEvent BLTU8 1 (opcode_num (ev_opcode event)) 29].
Proof.
  split; [|cbn; rewrite (Feqb_neq F1 F0 F1_neq_0); reflexivity]. apply satsb_spec.
  pose proof Ho as H. repeat (destruct H as [<- | H]; [vm_compute; reflexivity|]). contradiction H.
Qed.

Lemma alu_x0_chip_completes :
  exists r, AluX0Chip.event_to_row rrs user event rec = Ok r /\ chip_complete (AluX0Chip.eval rrs cfg) r.
Proof.
  pose proof x0_populate as Hp. pose proof x0_lookup_complete as Hl.
  destruct Hr as (E0 & _ & Aa & Ab & Ac).
  assert (Ac' : match at_c rec with Some r => access_at (ev_clk event) 2 r | None => True end) by (destruct (at_c rec); auto).
  assert (Hi : match at_c rec with None => true | Some _ => false end = true -> In (ev_opcode event) imm_opcodes)
    by (destruct (at_c rec); [discriminate | auto]).
  destruct (selectors_complete rrs _ _ Ho Hi) as (s & Es & Hs).
  assert (exists s', (if user then AluX0Chip.selectors rrs (ev_opcode event) (match at_c rec with None => true | Some _ => false end)
     else Ok AluX0Chip.no_selectors) = Ok s' /\ (user = true -> s' = s)) as (s' & Es' & Hu)
    by (destruct user; eexists; (split; [try exact Es; reflexivity|]); auto; discriminate).
  pose proof (fun h p o w t => alu_type_complete (ev_clk event) rec h p o w t Hclk) as Hrd.
  pose proof (fun np inc => cpu_state_complete (ev_clk event) (ev_pc event) np inc (proj1 Hclk) (proj2 Hclk)) as Hst.
  destruct (cpu_state_cols (ev_clk event) (ev_pc event) (proj1 Hclk)) as [_ El].
  unfold AluX0Chip.event_to_row. destruct (CPUState.populate _ _) as [st ev2], (ALUTypeReader.populate rec) as [ad ev3].
  destruct Hp as (P0 & Pa & Pi). cbn [fst] in El. rewrite Es'. cbn [bind].
  eexists. split; [reflexivity|]. unfold chip_complete, AluX0Chip.eval. cbn [fst snd]. eexists. split; [reflexivity|].
  set (local := AluX0Chip.mkCols _ _ _ _ _ _).
  assert (Ht : complete (fst (AluX0Chip.trust rrs cfg local)) []).
  { destruct (x0_trust rrs cfg local) as [_ Hperm]. apply (complete_reorder _ _ _ (Permutation_sym Hperm)).
    apply complete_asserts_app; [|apply trust_complete, Hcfg]. unfold x0_extra, local.
    cbn [AluX0Chip.adapter_cols AluX0Chip.adapter AluX0Chip.selector_cols AluX0Chip.is_real]. rewrite Pi. unfold trust_cols.
    destruct user; [rewrite (Hu eq_refl) | apply complete_asserts; [exact I | reflexivity]].
    apply complete_asserts_app; [apply complete_bool, Fof_bool_is_bool | exact Hs]. }
  cbn [AluX0Chip.is_real AluX0Chip.adapter AluX0Chip.state AluX0Chip.opcode local]. rewrite P0, El.
  eapply complete_perm; [apply Permutation_app_swap_app|].
  apply complete_asserts_app.
  { apply complete_asserts_app; [apply bool_1|]. apply complete_asserts_app; [apply complete_when_1, complete_eq; reflexivity|].
    apply complete_when_zero. intros C. contradiction C. ring. }
  apply complete_app; [apply Hst|]. apply complete_app; [exact Hl|]. apply complete_asserts_app; [exact Ht|].
  apply Hrd; auto.
Qed.
End Complete.
