(* ===== verification/ShiftChips.v ===== *)
(** * The shift chips

    [crates/core/machine/src/alu/sll] and [alu/sr]: [ShiftLeftChip] and
    [ShiftRightChip].  A shift is made in two parts: the limbs are shifted by
    the low four bits of the amount, split into a lower and a higher part, and
    then moved by whole limbs.  Arrays of four columns are words. *)

From Stdlib Require Import ZArith Lia List Bool.
From S2P Require Import Prelude Words Isa Field Air AirFacts SmallInverse Operations.
From S2P Require Import Adapter AdapterFacts Row Readers AluChips MemoryChips.
Import ListNotations.
Open Scope Z_scope.

(** ** Parts the two chips share *)

(** [c_lower_bits = c_lower_bits + bits[i] * (1 << i)], from bit [i] on. *)
Fixpoint bits_sum (acc : F) (i : Z) (bits : list F) : F :=
  match bits with
  | [] => acc
  | b :: rest => bits_sum (acc + b * Fof (2 ^ i))%F (i + 1) rest
  end.

(** The check that [bits] are the low six bits of the limb [c0]. *)
Definition low_bits_check (bits : list F) (c0 is_real : F) : list Emit :=
  flat_map assert_bool bits ++
  send_byte (byte_op BRange) ((c0 - bits_sum F0 0 bits) * Finv (Fof 64))%F (Fof 10) F0 is_real.

(** The one-hot flags of the number of limbs to shift by. *)
Definition limb_shift_flags (shift_u16 : Word F) (amount is_real : F) : list Emit :=
  flat_map (fun p => when (snd p) (assert_eq amount (Fof (fst p))) ++ assert_bool (snd p))
    (combine [0; 1; 2; 3] (word_list shift_u16)) ++
  when is_real (assert_eq (limb0 shift_u16 + limb1 shift_u16 + limb2 shift_u16 + limb3 shift_u16)%F (Fof 1)).

(** The split of one limb, [limb * v = higher * 2^16 + lower * v] with [lhs] its
    left hand side, and the sizes of the two parts in bits. *)
Definition split_limb (lhs v lower lower_bits higher higher_bits is_real : F) : list Emit :=
  send_byte (byte_op BRange) lower lower_bits F0 is_real ++
  send_byte (byte_op BRange) higher higher_bits F0 is_real ++
  assert_eq lhs (higher * Fof (2 ^ 16) + lower * v)%F.

(** [populate_msb] of a column only filled in when [cond] holds. *)
Definition msb_if (cond : bool) (x : Z) : U16MSBOperation.Cols * list ByteLookupEvent :=
  if cond then let '(m, ev, _) := U16MSBOperation.populate_msb x in (m, ev)
  else (U16MSBOperation.mkCols F0, []).

(** [shift[i] = 1] for the [i] equal to [amount]. *)
Definition one_hot4 (amount : Z) : Word F :=
  let f i := Fof (if i =? amount then 1 else 0) in mkWord (f 0) (f 1) (f 2) (f 3).

Definition imm_type_of (o : Opcode) : Res Z :=
  let* t := instruction_type o in let* imm := of_option (snd t) in Ok (instruction_type_num imm).

(** The bits of the low limb of the amount. *)
Definition bit_col (c i : Z) : F := Fof (Z.land (shr c i) 1).

(** ** [ShiftLeftChip] ([alu/sll/mod.rs]) *)
Module ShiftLeftChip.
Record Cols : Type := mkCols {
  state : CPUState.Cols;
  adapter : ALUTypeReader.Cols;
  a : Word F;
  c_bit0 : F; c_bit1 : F; c_bit2 : F; c_bit3 : F; c_bit4 : F; c_bit5 : F;
  v_01 : F;
  v_012 : F;
  v_0123 : F;
  shift_u16 : Word F;
  lower_limb : Word F;
  higher_limb : Word F;
  limb_result : Word F;
  sllw_msb : U16MSBOperation.Cols;
  is_sll : F;
  is_sllw : F;
  is_sllw_imm : F;
  adapter_cols : AdapterCols
}.

Definition c_bits (l : Cols) : list F := [c_bit0 l; c_bit1 l; c_bit2 l; c_bit3 l; c_bit4 l; c_bit5 l].
Definition flags (l : Cols) : list F := [is_sll l; is_sllw l].
Definition opcodes : list Opcode := [SLL; SLLW].

Definition event_to_row (user : bool) (event : AluEvent) (record : ALUTypeRecord) : Cols * list ByteLookupEvent :=
  let '(ad, ev1) := ALUTypeReader.populate record in
  let c := nth 0 (u64_to_u16_limbs (ev_c event)) 0 in
  let is_sllw := opcode_eqb (ev_opcode event) SLLW in
  let sllw_val := as_u32 (as_i64 (Z.shiftl (as_i64 (ev_b event)) (Z.land c 0x1f))) in
  let '(msb, ev2) := msb_if is_sllw (nth 1 (u32_to_u16_limbs sllw_val) 0) in
  let is_sll := opcode_eqb (ev_opcode event) SLL in
  let ev3 := add_bit_range_check (shr c 6) 10 in
  let v n := Fof (shl 16 1 (Z.land c n)) in
  let shift_amount := Z.land (shr c 4) 1 + 2 * Z.land (shr c 5) 1 * (if is_sll then 1 else 0) in
  let bit_shift := as_u8 (Z.land c 0xF) in
  let b := u64_to_u16_limbs (ev_b event) in
  let lower i := as_u16 (Z.land (nth i b 0) (shl 32 1 (16 - bit_shift) - 1)) in
  let higher i := as_u16 (shr (nth i b 0) (16 - bit_shift)) in
  let ev4 := flat_map (fun i => add_bit_range_check (lower i) (16 - bit_shift) ++ add_bit_range_check (higher i) bit_shift)
               [0; 1; 2; 3]%nat in
  let lo i := Fof (lower i) in
  let hi i := Fof (higher i) in
  let m := Fof (shl 32 1 bit_shift) in
  let '(st, ev5) := CPUState.populate (ev_clk event) (ev_pc event) in
  (mkCols st ad (word_from_u64 (ev_a event)) (bit_col c 0) (bit_col c 1) (bit_col c 2) (bit_col c 3) (bit_col c 4)
     (bit_col c 5) (v 3) (v 7) (v 15) (one_hot4 shift_amount)
     (mkWord (lo 0) (lo 1) (lo 2) (lo 3))%nat (mkWord (hi 0) (hi 1) (hi 2) (hi 3))%nat
     (mkWord (lo 0%nat * m) (lo 1%nat * m + hi 0%nat) (lo 2%nat * m + hi 1%nat) (lo 3%nat * m + hi 2%nat))%F
     msb (Fof_bool is_sll) (Fof_bool is_sllw) (Fof_bool (is_sllw && at_is_imm record))
     (trust_cols user (at_is_untrusted record)),
   ev1 ++ ev2 ++ ev3 ++ ev4 ++ ev5).

(** The instruction field constants. *)
Definition consts (rrs : MajorOpcodes) (local : Cols) : Res (list F) :=
  let imm_c := ALUTypeReader.imm_c (adapter local) in
  let* f3 := mapM (fun o => of_option (funct3 o)) opcodes in
  let f7 := map (fun o => unwrap_or (funct7 o) 0) opcodes in
  let* b := mapM (base_of rrs) opcodes in
  let* sll_diff := base_imm_diff rrs SLL in
  let* sllw_diff := base_imm_diff rrs SLLW in
  assert! (sll_diff =? sllw_diff) ;;
  let* t := mapM type_of opcodes in
  let* sll_imm := imm_type_of SLL in
  let* sllw_imm := imm_type_of SLLW in
  let* instr_type_difference := type_imm_diff SLL in
  let* w_instr_imm_adjustment := checked_sub sll_imm sllw_imm in
  let* sllw_difference := type_imm_diff SLLW in
  assert! (sllw_difference =? instr_type_difference + w_instr_imm_adjustment) ;;
  Ok [(weighted (flags local) t
       - (Fof instr_type_difference * imm_c + Fof w_instr_imm_adjustment * is_sllw_imm local))%F;
      (weighted (flags local) b - Fof sll_diff * imm_c)%F;
      weighted (flags local) f3; weighted (flags local) f7].

(** Limb [j] of the result when the limbs move by [i]. *)
Definition moved (cond : F) (local : Cols) (i j : nat) : list Emit :=
  when cond (when (nth i (word_list (shift_u16 local)) F0)
    (if (j <? i)%nat then assert_zero (nth j (word_list (a local)) F0)
     else assert_eq (nth j (word_list (a local)) F0) (nth (j - i) (word_list (limb_result local)) F0))).

Definition eval (rrs : MajorOpcodes) (cfg : Config) (local : Cols) : Res (list Emit) :=
  let is_real := (is_sll local + is_sllw local)%F in
  let bit_shift := bits_sum F0 0 (firstn 4 (c_bits local)) in
  let b := ALUTypeReader.b (adapter local) in
  let v := v_0123 local in
  let lo := lower_limb local in
  let hi := higher_limb local in
  let r := limb_result local in
  let msb := U16MSBOperation.msb (sllw_msb local) in
  let split limb lower higher := split_limb (limb * v)%F v lower (Fof 16 - bit_shift)%F higher bit_shift is_real in
  let opcode := weighted (flags local) (map opcode_num opcodes) in
  let* cs := consts rrs local in
  Ok (((assert_bool is_real ++ assert_bool (is_sll local) ++ assert_bool (is_sllw local)) ++
       low_bits_check (c_bits local) (limb0 (ALUTypeReader.c (adapter local))) is_real ++
       limb_shift_flags (shift_u16 local) (c_bit4 local + c_bit5 local * Fof 2 * is_sll local)%F is_real ++
       (assert_eq (v_01 local) ((c_bit0 local + F1) * (c_bit1 local * Fof 3 + F1))%F ++
        assert_eq (v_012 local) (v_01 local * (c_bit2 local * Fof 15 + F1))%F ++
        assert_eq (v_0123 local) (v_012 local * (c_bit3 local * Fof 255 + F1))%F) ++
       (split (limb0 b) (limb0 lo) (limb0 hi) ++ split (limb1 b) (limb1 lo) (limb1 hi) ++
        split (limb2 b) (limb2 lo) (limb2 hi) ++ split (limb3 b) (limb3 lo) (limb3 hi)) ++
       (assert_eq (limb0 r) (limb0 lo * v)%F ++ assert_eq (limb1 r) (limb1 lo * v + limb0 hi)%F ++
        assert_eq (limb2 r) (limb2 lo * v + limb1 hi)%F ++ assert_eq (limb3 r) (limb3 lo * v + limb2 hi)%F) ++
       flat_map (fun i => flat_map (moved (is_sll local) local i) (seq 0 4)) (seq 0 4) ++
       flat_map (fun i => flat_map (moved (is_sllw local) local i) (seq 0 2)) (seq 0 2) ++
       (when (is_sllw local) (assert_eq (msb * Fof (2 ^ 16 - 1))%F (limb2 (a local))) ++
        when (is_sllw local) (assert_eq (msb * Fof (2 ^ 16 - 1))%F (limb3 (a local)))) ++
       U16MSBOperation.eval_msb (limb1 (a local)) (sllw_msb local) (is_sllw local) ++
       assert_eq (is_sllw_imm local) (is_sllw local * ALUTypeReader.imm_c (adapter local))%F) ++
      frame cfg (adapter_cols local) (state local) (adapter local) opcode cs (a local) (pc_inc (state local))
        (assert_zero (ALUTypeReader.op_a_0 (adapter local))) is_real).
End ShiftLeftChip.

(** ** [ShiftRightChip] ([alu/sr/mod.rs]) *)
Module ShiftRightChip.
Record Cols : Type := mkCols {
  state : CPUState.Cols;
  adapter : ALUTypeReader.Cols;
  a : Word F;
  b_msb : U16MSBOperation.Cols;
  srw_msb : U16MSBOperation.Cols;
  c_bit0 : F; c_bit1 : F; c_bit2 : F; c_bit3 : F; c_bit4 : F; c_bit5 : F;
  sra_msb_v0123 : F;
  v_0123 : F;
  v_012 : F;
  v_01 : F;
  lower_limb : Word F;
  higher_limb : Word F;
  limb_result : Word F;
  shift_u16 : Word F;
  is_srl : F;
  is_sra : F;
  is_srlw : F;
  is_sraw : F;
  is_w_imm : F;
  adapter_cols : AdapterCols
}.

Definition c_bits (l : Cols) : list F := [c_bit0 l; c_bit1 l; c_bit2 l; c_bit3 l; c_bit4 l; c_bit5 l].
Definition flags (l : Cols) : list F := [is_srl l; is_sra l; is_srlw l; is_sraw l].
Definition opcodes : list Opcode := [SRL; SRA; SRLW; SRAW].

Definition event_to_row (user : bool) (event : AluEvent) (record : ALUTypeRecord) : Cols * list ByteLookupEvent :=
  let '(ad, ev1) := ALUTypeReader.populate record in
  let opcode_is := opcode_eqb (ev_opcode event) in
  let b := u64_to_u16_limbs (ev_b event) in
  let c := nth 0 (u64_to_u16_limbs (ev_c event)) 0 in
  let ev2 := add_bit_range_check (shr c 6) 10 in
  let v n k := Fof (shl 32 1 (n - Z.land c k)) in
  let '(b_msb, ev3) :=
    if opcode_is SRA then msb_if true (nth 3 b 0)
    else if opcode_is SRAW then msb_if true (nth 1 b 0)
    else msb_if false 0 in
  let is_word := opcode_is SRLW || opcode_is SRAW in
  let b := if is_word then [nth 0 b 0; nth 1 b 0; 0; 0] else b in
  let '(srw_msb, ev4) := msb_if is_word (nth 1 (u64_to_u16_limbs (ev_a event)) 0) in
  let bit_shift := as_u8 (Z.land c 0xF) in
  let lower i := as_u16 (Z.land (nth i b 0) (shl 32 1 bit_shift - 1)) in
  let higher i := as_u16 (shr (nth i b 0) bit_shift) in
  let ev5 := flat_map (fun i => add_bit_range_check (lower i) bit_shift ++ add_bit_range_check (higher i) (16 - bit_shift))
               [0; 1; 2; 3]%nat in
  let lo i := Fof (lower i) in
  let hi i := Fof (higher i) in
  let m := Fof (shl 32 1 (16 - bit_shift)) in
  let shift_amount := Z.land (shr c 4) 1 + 2 * Z.land (shr c 5) 1 * (if negb is_word then 1 else 0) in
  let '(st, ev6) := CPUState.populate (ev_clk event) (ev_pc event) in
  (mkCols st ad (word_from_u64 (ev_a event)) b_msb srw_msb (bit_col c 0) (bit_col c 1) (bit_col c 2) (bit_col c 3)
     (bit_col c 4) (bit_col c 5) (U16MSBOperation.msb b_msb * v 16 15)%F (v 16 15) (v 8 7) (v 4 3)
     (mkWord (lo 0) (lo 1) (lo 2) (lo 3))%nat (mkWord (hi 0) (hi 1) (hi 2) (hi 3))%nat
     (mkWord (hi 0%nat + lo 1%nat * m) (hi 1%nat + lo 2%nat * m) (hi 2%nat + lo 3%nat * m) (hi 3%nat))%F
     (one_hot4 shift_amount)
     (Fof_bool (opcode_is SRL)) (Fof_bool (opcode_is SRA)) (Fof_bool (opcode_is SRLW)) (Fof_bool (opcode_is SRAW))
     (Fof_bool (is_word && at_is_imm record)) (trust_cols user (at_is_untrusted record)),
   ev1 ++ ev2 ++ ev3 ++ ev4 ++ ev5 ++ ev6).

(** The instruction field constants. *)
Definition consts (rrs : MajorOpcodes) (local : Cols) : Res (list F) :=
  let imm_c := ALUTypeReader.imm_c (adapter local) in
  let* f3 := mapM (fun o => of_option (funct3 o)) opcodes in
  let* f7_sra := of_option (funct7 SRA) in
  let* f7_sraw := of_option (funct7 SRAW) in
  let f7 := [unwrap_or (funct7 SRL) 0; f7_sra; unwrap_or (funct7 SRLW) 0; f7_sraw] in
  let* b := mapM (base_of rrs) opcodes in
  let* bd := mapM (base_imm_diff rrs) opcodes in
  let* imm_base_difference := all_equal bd in
  let* t := mapM type_of opcodes in
  let* instr_type_difference := type_imm_diff SRL in
  let* sra_instr_type_difference := type_imm_diff SRA in
  let* srlw_instr_type_difference := type_imm_diff SRLW in
  let* sraw_instr_type_difference := type_imm_diff SRAW in
  let* srl_imm := imm_type_of SRL in
  let* srlw_imm := imm_type_of SRLW in
  let* w_instr_imm_adjustment := checked_sub srl_imm srlw_imm in
  assert! (instr_type_difference =? sra_instr_type_difference) ;;
  assert! (srlw_instr_type_difference =? instr_type_difference + w_instr_imm_adjustment) ;;
  assert! (sraw_instr_type_difference =? instr_type_difference + w_instr_imm_adjustment) ;;
  Ok [(weighted (flags local) t
       - (Fof instr_type_difference * imm_c + Fof w_instr_imm_adjustment * is_w_imm local))%F;
      (weighted (flags local) b - Fof imm_base_difference * imm_c)%F;
      weighted (flags local) f3; weighted (flags local) f7].

(** The limbs of a 64-bit result when the limbs move by [i]. *)
Definition moved (cond : F) (local : Cols) (i : nat) : list Emit :=
  let msb := U16MSBOperation.msb (b_msb local) in
  let shift := nth i (word_list (shift_u16 local)) F0 in
  let a j := nth j (word_list (a local)) F0 in
  flat_map (fun j => when cond (when shift (assert_eq (a j) (nth (i + j) (word_list (limb_result local)) F0))))
    (seq 0 (3 - i)) ++
  when cond (when shift (assert_eq (a (3 - i)%nat)
    (limb3 (limb_result local) + (msb * Fof (2 ^ 16) - sra_msb_v0123 local))%F)) ++
  flat_map (fun j => when cond (when shift (assert_eq (a j) (msb * Fof (2 ^ 16 - 1))%F))) (seq (4 - i) i).

Definition eval (rrs : MajorOpcodes) (cfg : Config) (local : Cols) : Res (list Emit) :=
  let is_real := (is_srl local + is_sra local + is_srlw local + is_sraw local)%F in
  let is_word := (is_srlw local + is_sraw local)%F in
  let not_word := (is_srl local + is_sra local)%F in
  let bit_shift := bits_sum F0 0 (firstn 4 (c_bits local)) in
  let b := ALUTypeReader.b (adapter local) in
  let v := v_0123 local in
  let lo := lower_limb local in
  let hi := higher_limb local in
  let r := limb_result local in
  let msb := U16MSBOperation.msb (b_msb local) in
  let srw := U16MSBOperation.msb (srw_msb local) in
  let top := (msb * Fof (2 ^ 16) - sra_msb_v0123 local)%F in
  let split lhs lower higher := split_limb lhs v lower bit_shift higher (Fof 16 - bit_shift)%F is_real in
  let opcode := weighted (flags local) (map opcode_num opcodes) in
  let* cs := consts rrs local in
  Ok ((flat_map assert_bool (flags local) ++ assert_bool is_real ++
       assert_eq (is_w_imm local) ((is_srlw local + is_sraw local) * ALUTypeReader.imm_c (adapter local))%F ++
       low_bits_check (c_bits local) (limb0 (ALUTypeReader.c (adapter local))) is_real ++
       limb_shift_flags (shift_u16 local) (c_bit4 local + c_bit5 local * Fof 2 * not_word)%F is_real ++
       (assert_eq (v_01 local) ((F1 - c_bit0 local + F1) * Fof 2 * ((F1 - c_bit1 local) * Fof 3 + F1))%F ++
        assert_eq (v_012 local) (v_01 local * ((F1 - c_bit2 local) * Fof 15 + F1))%F ++
        assert_eq (v_0123 local) (v_012 local * ((F1 - c_bit3 local) * Fof 255 + F1))%F) ++
       (split (limb0 b * v)%F (limb0 lo) (limb0 hi) ++ split (limb1 b * v)%F (limb1 lo) (limb1 hi) ++
        split (limb2 b * v * not_word)%F (limb2 lo) (limb2 hi) ++ split (limb3 b * v * not_word)%F (limb3 lo) (limb3 hi)) ++
       (assert_eq (limb0 r) (limb0 hi + limb1 lo * v)%F ++ assert_eq (limb1 r) (limb1 hi + limb2 lo * v)%F ++
        assert_eq (limb2 r) (limb2 hi + limb3 lo * v)%F ++ assert_eq (limb3 r) (limb3 hi)) ++
       (U16MSBOperation.eval_msb (limb3 b) (b_msb local) (is_sra local) ++
        U16MSBOperation.eval_msb (limb1 b) (b_msb local) (is_sraw local) ++
        when (is_srl local + is_srlw local)%F (assert_zero msb) ++
        assert_eq (sra_msb_v0123 local) (msb * v)%F ++
        U16MSBOperation.eval_msb (limb1 (a local)) (srw_msb local) is_word ++
        when_not is_word (assert_zero srw)) ++
       flat_map (moved not_word local) (seq 0 4) ++
       (when is_word (when (limb0 (shift_u16 local)) (assert_eq (limb0 (a local)) (limb0 r))) ++
        when is_word (when (limb0 (shift_u16 local)) (assert_eq (limb1 (a local)) (limb1 r + top)%F)) ++
        when is_word (when (limb1 (shift_u16 local)) (assert_eq (limb0 (a local)) (limb1 r + top)%F)) ++
        when is_word (when (limb1 (shift_u16 local)) (assert_eq (limb1 (a local)) (msb * Fof (2 ^ 16 - 1))%F)) ++
        when is_word (assert_eq (limb2 (a local)) (srw * Fof (2 ^ 16 - 1))%F) ++
        when is_word (assert_eq (limb3 (a local)) (srw * Fof (2 ^ 16 - 1))%F))) ++
      frame cfg (adapter_cols local) (state local) (adapter local) opcode cs (a local) (pc_inc (state local))
        (assert_zero (ALUTypeReader.op_a_0 (adapter local))) is_real).
End ShiftRightChip.
