(* ===== verification/ShiftFacts.v ===== *)
(** * Correctness of the shift chips *)

From Stdlib Require Import ZArith Lia List Bool Permutation.
From S2P Require Import Prelude Words Isa Field Air AirFacts SmallInverse Operations Mul.
From S2P Require Import Adapter AdapterFacts Row Readers AluChips AluChipFacts MemoryChips MemoryChipFacts ShiftChips.
Import ListNotations.
Open Scope Z_scope.

(** ** The amount of a shift *)

(** The amount within a limb, and the number of limbs. *)
Definition nibble (b0 b1 b2 b3 : F) : Z := Fval b0 + 2 * Fval b1 + 4 * Fval b2 + 8 * Fval b3.
Definition pair_val (b4 b5 : F) : Z := Fval b4 + 2 * Fval b5.

Lemma bits_sum4 (b0 b1 b2 b3 : F) : bits_sum F0 0 [b0; b1; b2; b3] = Fof (nibble b0 b1 b2 b3).
Proof.
  cbn [bits_sum]. change (2 ^ 0) with 1. change (2 ^ (0 + 1)) with 2. change (2 ^ (0 + 1 + 1)) with 4.
  change (2 ^ (0 + 1 + 1 + 1)) with 8. unfold nibble. apply (Rep_eq _ _). lia.
Qed.

Lemma bits_sum6 (b0 b1 b2 b3 b4 b5 : F) :
  bits_sum F0 0 [b0; b1; b2; b3; b4; b5] = Fof (nibble b0 b1 b2 b3 + 16 * pair_val b4 b5).
Proof.
  change (bits_sum F0 0 [b0; b1; b2; b3; b4; b5])
    with (bits_sum F0 0 [b0; b1; b2; b3] + b4 * Fof (2 ^ (0 + 1 + 1 + 1 + 1)) + b5 * Fof (2 ^ (0 + 1 + 1 + 1 + 1 + 1)))%F.
  rewrite bits_sum4. change (2 ^ (0 + 1 + 1 + 1 + 1)) with 16. change (2 ^ (0 + 1 + 1 + 1 + 1 + 1)) with 32.
  unfold pair_val. apply (Rep_eq _ _). lia.
Qed.

Lemma low_bits_sound (b0 b1 b2 b3 b4 b5 c0 : F) :
  is_u16F c0 -> sats (low_bits_check [b0; b1; b2; b3; b4; b5] c0 F1) ->
  is_bool b0 /\ is_bool b1 /\ is_bool b2 /\ is_bool b3 /\ is_bool b4 /\ is_bool b5 /\
  Fval c0 mod 16 = nibble b0 b1 b2 b3 /\ Fval c0 / 16 mod 4 = pair_val b4 b5.
Proof.
  intros Uc H. unfold low_bits_check in H. cbn [flat_map] in H. rewrite !sats_app, !sats_bool in H.
  destruct H as ((B0 & B1 & B2 & B3 & B4 & B5 & _) & H & _). specialize (H F1_neq_0). cbn [values] in H.
  apply lookup_range in H; [|lia]. rewrite bits_sum6 in H.
  remember ((c0 - Fof (nibble b0 b1 b2 b3 + 16 * pair_val b4 b5)) * Finv (Fof 64))%F as q eqn:E. symmetry in E.
  apply Fmul_inv_eq in E; [|apply Fof_neq_0; unfold KOALA_BEAR_ORDER; lia].
  assert (Hs : 0 <= nibble b0 b1 b2 b3 < 16 /\ 0 <= pair_val b4 b5 < 4).
  { unfold nibble, pair_val. apply is_bool_val in B0 as ?, B1 as ?, B2 as ?, B3 as ?, B4 as ?, B5 as ?. lia. }
  repeat (split; [assumption|]). clear B0 B1 B2 B3 B4 B5.
  assert (Ez : Fval c0 - (nibble b0 b1 b2 b3 + 16 * pair_val b4 b5) = 64 * Fval q)
    by (unfold is_u16F in Uc; to_Z E; lia). dlia.
Qed.

(** The product of the bits' powers. *)
Lemma bool_product (b : F) (n : Z) : is_bool b -> (b * Fof (2 ^ n - 1) + F1)%F = Fof (2 ^ (n * Fval b)).
Proof.
  intros [-> | ->]; [change (Fval F0) with 0 | change (Fval F1) with 1].
  - rewrite Z.mul_0_r. apply (Rep_eq _ _). reflexivity.
  - rewrite Z.mul_1_r. apply (Rep_eq _ _). lia.
Qed.

Lemma bool_co_product (b : F) (n : Z) : 0 <= n -> is_bool b -> ((F1 - b) * Fof (2 ^ n - 1) + F1)%F = Fof (2 ^ (n * (1 - Fval b))).
Proof.
  intros Hn [-> | ->]; [change (Fval F0) with 0 | change (Fval F1) with 1].
  - replace (n * (1 - 0)) with n by lia. apply (Rep_eq _ _). lia.
  - replace (n * (1 - 1)) with 0 by lia. apply (Rep_eq _ _). change (2 ^ 0) with 1. lia.
Qed.

Lemma Fmul_cancel_r (b x y : F) : b <> F0 -> (x * b)%F = (y * b)%F -> x = y.
Proof.
  intros Hb E. assert (E' : ((x - y) * b)%F = F0) by (replace ((x - y) * b)%F with (x * b - y * b)%F by ring; rewrite E; ring).
  apply Fmul_0 in E' as [E' | E']; [apply Fsub_eq0, E' | contradiction].
Qed.

(** [limb * 2^m = higher * 2^16 + lower * 2^m] splits the limb at bit [16 - m]. *)
Lemma split_sound (limb lower higher lb hb v : F) (n m : Z) :
  0 <= n -> 0 <= m -> n + m = 16 -> lb = Fof n -> hb = Fof m -> v = Fof (2 ^ m) -> is_u16F limb ->
  sats (split_limb (limb * v)%F v lower lb higher hb F1) ->
  Fval lower = Fval limb mod 2 ^ n /\ Fval higher = Fval limb / 2 ^ n.
Proof.
  intros Hn Hm Enm -> -> -> Ul H. unfold split_limb in H. rewrite !sats_app, sats_eq in H.
  destruct H as ((Hlo & _) & (Hhi & _) & E). specialize (Hlo F1_neq_0). specialize (Hhi F1_neq_0).
  cbn [values] in Hlo, Hhi. apply lookup_range in Hlo, Hhi; [|lia..].
  assert (P : 2 ^ 16 = 2 ^ m * 2 ^ n) by (rewrite <- Z.pow_add_r by lia; f_equal; lia).
  pose proof (pow2_pos n Hn). pose proof (pow2_pos m Hm). pose proof (Fval_bound lower). pose proof (Fval_bound higher).
  assert (E' : limb = (higher * Fof (2 ^ n) + lower)%F).
  { assert (Nz : Fof (2 ^ m) <> F0) by (apply Fof_neq_0; unfold KOALA_BEAR_ORDER; nia).
    apply (Fmul_cancel_r (Fof (2 ^ m))); [exact Nz|]. rewrite E, P, <- Fof_mul. ring. }
  assert (Ez : Fval limb = Fval higher * 2 ^ n + Fval lower).
  { rewrite E' at 1. apply Fval_rep; [exact _ | unfold KOALA_BEAR_ORDER; nia]. }
  rewrite Ez, Z.add_comm. split; [rewrite Z_mod_plus_full, Z.mod_small; lia|].
  rewrite Z_div_plus, Z.div_small; lia.
Qed.

(** The flags of the number of limbs. *)
Lemma limb_shift_sound (w : Word F) (amount : F) :
  sats (limb_shift_flags w amount F1) -> exists i, 0 <= i < 4 /\ w = one_hot4 i /\ amount = Fof i.
Proof.
  destruct w as [w0 w1 w2 w3]. unfold limb_shift_flags. cbn [word_list limb0 limb1 limb2 limb3 combine flat_map fst snd].
  rewrite !sats_app, !sats_bool, !sats_when_eq.
  intros (((A0 & B0) & (A1 & B1) & (A2 & B2) & (A3 & B3) & _) & Es). specialize (Es F1_neq_0).
  destruct B0 as [-> | ->], B1 as [-> | ->], B2 as [-> | ->], B3 as [-> | ->];
    try (exfalso; apply (f_equal Fval) in Es; vm_compute in Es; discriminate Es).
  - exists 3. split; [lia|]. split; [reflexivity|]. auto using F1_neq_0.
  - exists 2. split; [lia|]. split; [reflexivity|]. auto using F1_neq_0.
  - exists 1. split; [lia|]. split; [reflexivity|]. auto using F1_neq_0.
  - exists 0. split; [lia|]. split; [reflexivity|]. auto using F1_neq_0.
Qed.

(** ** Limbs shifted as a number *)

(** A value of limbs, shifted left by [k] bits within the limbs. *)
Lemma shifted_left (k : Z) (b r : Word F) (lo hi : Word F) :
  0 <= k <= 15 -> valid_word b ->
  (forall x l h, In (x, l, h) (combine (combine (word_list b) (word_list lo)) (word_list hi)) ->
     Fval l = Fval x mod 2 ^ (16 - k) /\ Fval h = Fval x / 2 ^ (16 - k)) ->
  limb0 r = (limb0 lo * Fof (2 ^ k))%F -> limb1 r = (limb1 lo * Fof (2 ^ k) + limb0 hi)%F ->
  limb2 r = (limb2 lo * Fof (2 ^ k) + limb1 hi)%F -> limb3 r = (limb3 lo * Fof (2 ^ k) + limb2 hi)%F ->
  valid_word r /\ exists q, word_val b * 2 ^ k = word_val r + 2 ^ 64 * q.
Proof.
  intros Hk (V0 & V1 & V2 & V3) Hsp R0 R1 R2 R3. destruct b as [b0 b1 b2 b3], lo as [l0 l1 l2 l3], hi as [h0 h1 h2 h3].
  cbn [word_list limb0 limb1 limb2 limb3 combine In] in *.
  assert (P : 2 ^ 16 = 2 ^ (16 - k) * 2 ^ k) by (rewrite <- Z.pow_add_r by lia; f_equal; lia).
  pose proof (pow2_pos k ltac:(lia)) as Pk. pose proof (pow2_pos (16 - k) ltac:(lia)) as Pn.
  assert (Hone : forall x l h, is_u16F x -> Fval l = Fval x mod 2 ^ (16 - k) /\ Fval h = Fval x / 2 ^ (16 - k) ->
    0 <= Fval l * 2 ^ k <= 2 ^ 16 - 2 ^ k /\ 0 <= Fval h < 2 ^ k /\ Fval x * 2 ^ k = Fval l * 2 ^ k + 2 ^ 16 * Fval h).
  { intros x l h Ux [-> ->]. unfold is_u16F in Ux. pose proof (Fval_bound x).
    pose proof (Z_div_mod_eq_full (Fval x) (2 ^ (16 - k))). pose proof (Z.mod_pos_bound (Fval x) _ Pn).
    split; [nia|]. split; [split; [apply Z.div_pos; lia | apply Z.div_lt_upper_bound; nia]|]. nia. }
  destruct (Hone b0 l0 h0 V0) as (L0 & H0 & E0); [apply Hsp; tauto|].
  destruct (Hone b1 l1 h1 V1) as (L1 & H1 & E1); [apply Hsp; tauto|].
  destruct (Hone b2 l2 h2 V2) as (L2 & H2 & E2); [apply Hsp; tauto|].
  destruct (Hone b3 l3 h3 V3) as (L3 & H3 & E3); [apply Hsp; tauto|]. clear Hone Hsp.
  assert (K : 2 ^ k <= 2 ^ 15) by (apply Z.pow_le_mono_r; lia).
  assert (Hr : forall l h, 0 <= Fval l * 2 ^ k <= 2 ^ 16 - 2 ^ k -> 0 <= Fval h < 2 ^ k ->
    Fval (l * Fof (2 ^ k) + h) = Fval l * 2 ^ k + Fval h)
    by (intros l h Hl Hh; apply Fval_rep; [exact _ | unfold KOALA_BEAR_ORDER; lia]).
  assert (Hr0 : Fval (l0 * Fof (2 ^ k)) = Fval l0 * 2 ^ k)
    by (apply Fval_rep; [exact _ | unfold KOALA_BEAR_ORDER; lia]).
  unfold valid_word, word_val, is_u16F. rewrite R0, R1, R2, R3, !Hr, Hr0 by assumption.
  cbn [limb0 limb1 limb2 limb3].
  split; [lia|]. exists (Fval h3). lia.
Qed.

(** And then by [i] whole limbs. *)
Definition move_left (i : Z) (r : Word F) : Word F :=
  let f j := if (j <? Z.to_nat i)%nat then F0 else nth (j - Z.to_nat i) (word_list r) F0 in
  (mkWord (f 0) (f 1) (f 2) (f 3))%nat.

Lemma moved_left (i x s : Z) (r : Word F) :
  0 <= i < 4 -> 0 <= s -> valid_word r -> (exists q, x * 2 ^ s = word_val r + 2 ^ 64 * q) ->
  valid_word (move_left i r) /\ word_val (move_left i r) = shl 64 x (s + 16 * i).
Proof.
  intros Hi Hs (V0 & V1 & V2 & V3) [q Eq]. destruct r as [r0 r1 r2 r3].
  unfold valid_word, word_val in *. cbn [limb0 limb1 limb2 limb3] in *.
  assert (Ei : i = 0 \/ i = 1 \/ i = 2 \/ i = 3) by lia.
  unfold shl, as_unsigned. rewrite Z.shiftl_mul_pow2, Z.pow_add_r, Z.mul_assoc by lia. rewrite Eq. clear Eq.
  destruct Ei as [-> | [-> | [-> | ->]]]; unfold move_left;
    [change (Z.to_nat 0) with 0%nat | change (Z.to_nat 1) with 1%nat
    | change (Z.to_nat 2) with 2%nat | change (Z.to_nat 3) with 3%nat];
    cbn [word_list limb0 limb1 limb2 limb3 nth Nat.ltb Nat.leb Nat.sub];
    (split; [repeat split; solve [assumption | reflexivity]|]); change (Fval F0) with 0; symmetry;
    unfold is_u16F in *; F_bounds; apply mod_small_eq; try lia.
  - exists q. change (2 ^ (16 * 0)) with 1. lia.
  - exists (Fval r3 + 2 ^ 16 * q). change (2 ^ (16 * 1)) with (2 ^ 16). lia.
  - exists (Fval r2 + 2 ^ 16 * Fval r3 + 2 ^ 32 * q). change (2 ^ (16 * 2)) with (2 ^ 32). lia.
  - exists (Fval r1 + 2 ^ 16 * Fval r2 + 2 ^ 32 * Fval r3 + 2 ^ 48 * q). change (2 ^ (16 * 3)) with (2 ^ 48). lia.
Qed.

(** ** Selecting the set flag *)

Lemma one_hot_nth (i : Z) : 0 <= i < 4 -> nth (Z.to_nat i) (word_list (one_hot4 i)) F0 = F1.
Proof. intros Hi. assert (E : i = 0 \/ i = 1 \/ i = 2 \/ i = 3) by lia. destruct E as [-> | [-> | [-> | ->]]]; reflexivity. Qed.

Lemma moved_limb (local : ShiftLeftChip.Cols) (i : Z) (j : nat) :
  0 <= i < 4 -> (j < 4)%nat -> ShiftLeftChip.shift_u16 local = one_hot4 i ->
  sats (ShiftLeftChip.moved F1 local (Z.to_nat i) j) ->
  nth j (word_list (ShiftLeftChip.a local)) F0 = nth j (word_list (move_left i (ShiftLeftChip.limb_result local))) F0.
Proof.
  intros Hi Hj E H. unfold ShiftLeftChip.moved in H. rewrite E, one_hot_nth, !sats_when_1 in H by exact Hi.
  assert (En : nth j (word_list (move_left i (ShiftLeftChip.limb_result local))) F0
    = if (j <? Z.to_nat i)%nat then F0 else nth (j - Z.to_nat i) (word_list (ShiftLeftChip.limb_result local)) F0)
    by (unfold move_left, word_list; cbn [limb0 limb1 limb2 limb3]; do 4 (destruct j as [|j]; [reflexivity|]); lia).
  rewrite En. destruct (j <? Z.to_nat i)%nat; [apply sats_zero in H | apply sats_eq in H]; exact H.
Qed.

Lemma word_ext_nth (a b : Word F) :
  (forall j, (j < 4)%nat -> nth j (word_list a) F0 = nth j (word_list b) F0) -> a = b.
Proof.
  intros H. destruct a as [a0 a1 a2 a3], b as [b0 b1 b2 b3].
  rewrite (H 0%nat ltac:(lia) : a0 = b0), (H 1%nat ltac:(lia) : a1 = b1), (H 2%nat ltac:(lia) : a2 = b2),
    (H 3%nat ltac:(lia) : a3 = b3). reflexivity.
Qed.

(** ** The value of the word shifts *)

Lemma mod_32_64 (x y : Z) : x mod 2 ^ 64 = y mod 2 ^ 64 -> x mod 2 ^ 32 = y mod 2 ^ 32.
Proof. intros E. rewrite <- (mod_mod_le x 32 64), <- (mod_mod_le y 32 64), E by lia. reflexivity. Qed.

Lemma as_i32_cong (x y : Z) : x mod 2 ^ 32 = y mod 2 ^ 32 -> as_i32 x = as_i32 y.
Proof. intros E. unfold as_i32. rewrite <- (as_signed_mod 32 x), <- (as_signed_mod 32 y), E. reflexivity. Qed.

Lemma sllw_value (b s : Z) : 0 <= s -> as_i32 (as_i64 (Z.shiftl (as_i64 b) s)) = as_i32 (shl 64 b s mod 2 ^ 32).
Proof.
  intros Hs. apply as_i32_cong. rewrite Zmod_mod. apply mod_32_64. unfold as_i64, shl, as_unsigned.
  rewrite as_signed_cong, Zmod_mod, !Z.shiftl_mul_pow2 by lia.
  rewrite Zmult_mod, as_signed_cong, <- Zmult_mod by lia. reflexivity.
Qed.

Lemma low_amount (c : Word F) (b0 b1 b2 b3 b4 b5 : F) :
  valid_word c -> Fval (limb0 c) mod 16 = nibble b0 b1 b2 b3 -> Fval (limb0 c) / 16 mod 4 = pair_val b4 b5 ->
  Z.land (word_val c) 0x3f = nibble b0 b1 b2 b3 + 16 * pair_val b4 b5 /\
  Z.land (word_val c) 0x1f = nibble b0 b1 b2 b3 + 16 * (pair_val b4 b5 mod 2).
Proof.
  intros (V0 & _) E1 E2. change 0x3f with (2 ^ 6 - 1). change 0x1f with (2 ^ 5 - 1). rewrite !land_mask by lia.
  unfold word_val. rewrite <- E1, <- E2. change (2 ^ 6) with 64. change (2 ^ 5) with 32. split; dlia.
Qed.

(** ** Soundness of [ShiftLeftChip] *)

Lemma quiet_split (x v lo lb hi hb r : F) : quiet (split_limb x v lo lb hi hb r).
Proof. unfold split_limb. auto with quiet. Qed.
Lemma quiet_low_bits (bs : list F) (c r : F) : quiet (low_bits_check bs c r).
Proof. unfold low_bits_check. auto 10 with quiet. Qed.
Lemma quiet_limb_shift (w : Word F) (x r : F) : quiet (limb_shift_flags w x r).
Proof. unfold limb_shift_flags. apply quiet_app; [apply quiet_flat_map; intros p|]; auto with quiet. Qed.
Lemma quiet_moved_left (c : F) (local : ShiftLeftChip.Cols) (i j : nat) : quiet (ShiftLeftChip.moved c local i j).
Proof. unfold ShiftLeftChip.moved. destruct (j <? i)%nat; auto with quiet. Qed.
#[export] Hint Resolve quiet_split quiet_low_bits quiet_limb_shift quiet_moved_left : quiet.

(** The powers of two the left shift multiplies by. *)
Lemma left_power (b0 b1 b2 b3 v1 v2 v3 : F) :
  is_bool b0 -> is_bool b1 -> is_bool b2 -> is_bool b3 ->
  v1 = ((b0 + F1) * (b1 * Fof 3 + F1))%F -> v2 = (v1 * (b2 * Fof 15 + F1))%F -> v3 = (v2 * (b3 * Fof 255 + F1))%F ->
  v3 = Fof (2 ^ nibble b0 b1 b2 b3).
Proof.
  intros B0 B1 B2 B3 -> -> ->.
  replace (b0 + F1)%F with (b0 * Fof (2 ^ 1 - 1) + F1)%F by (change (Fof (2 ^ 1 - 1)) with F1; ring).
  change 3 with (2 ^ 2 - 1). change 15 with (2 ^ 4 - 1). change 255 with (2 ^ 8 - 1).
  rewrite !bool_product by assumption. rewrite !Fof_mul. f_equal. unfold nibble.
  pose proof (Fval_bound b0). pose proof (Fval_bound b1). pose proof (Fval_bound b2). pose proof (Fval_bound b3).
  rewrite <- !Z.pow_add_r by lia. f_equal. lia.
Qed.

Lemma nibble_bound (b0 b1 b2 b3 : F) :
  is_bool b0 -> is_bool b1 -> is_bool b2 -> is_bool b3 -> 0 <= nibble b0 b1 b2 b3 <= 15.
Proof. intros. unfold nibble. repeat match goal with H : is_bool _ |- _ => apply is_bool_val in H end. lia. Qed.

Lemma pair_bound (b4 b5 : F) : is_bool b4 -> is_bool b5 -> 0 <= pair_val b4 b5 < 4 /\ pair_val b4 b5 mod 2 = Fval b4.
Proof. intros H H'. unfold pair_val. apply is_bool_val in H, H'. dlia. Qed.

Section ShiftLeft.
Context (local : ShiftLeftChip.Cols).
Abbreviation b := (ALUTypeReader.b (ShiftLeftChip.adapter local)).
Abbreviation c := (ALUTypeReader.c (ShiftLeftChip.adapter local)).
Abbreviation amount :=
  (ShiftLeftChip.c_bit4 local + ShiftLeftChip.c_bit5 local * Fof 2 * ShiftLeftChip.is_sll local)%F.
Abbreviation k := (nibble (ShiftLeftChip.c_bit0 local) (ShiftLeftChip.c_bit1 local) (ShiftLeftChip.c_bit2 local)
                     (ShiftLeftChip.c_bit3 local)).
Context (Vb : valid_word b) (Vc : valid_word c).

(** The constraints on the amount and on the limbs, for a real row. *)
Definition left_ops : list Emit :=
  let bit_shift := bits_sum F0 0 (firstn 4 (ShiftLeftChip.c_bits local)) in
  let v := ShiftLeftChip.v_0123 local in
  let lo := ShiftLeftChip.lower_limb local in
  let hi := ShiftLeftChip.higher_limb local in
  let r := ShiftLeftChip.limb_result local in
  let split limb lower higher := split_limb (limb * v)%F v lower (Fof 16 - bit_shift)%F higher bit_shift F1 in
  low_bits_check (ShiftLeftChip.c_bits local) (limb0 c) F1 ++
  limb_shift_flags (ShiftLeftChip.shift_u16 local) amount F1 ++
  (assert_eq (ShiftLeftChip.v_01 local)
     ((ShiftLeftChip.c_bit0 local + F1) * (ShiftLeftChip.c_bit1 local * Fof 3 + F1))%F ++
   assert_eq (ShiftLeftChip.v_012 local) (ShiftLeftChip.v_01 local * (ShiftLeftChip.c_bit2 local * Fof 15 + F1))%F ++
   assert_eq v (ShiftLeftChip.v_012 local * (ShiftLeftChip.c_bit3 local * Fof 255 + F1))%F) ++
  (split (limb0 b) (limb0 lo) (limb0 hi) ++ split (limb1 b) (limb1 lo) (limb1 hi) ++
   split (limb2 b) (limb2 lo) (limb2 hi) ++ split (limb3 b) (limb3 lo) (limb3 hi)) ++
  (assert_eq (limb0 r) (limb0 lo * v)%F ++ assert_eq (limb1 r) (limb1 lo * v + limb0 hi)%F ++
   assert_eq (limb2 r) (limb2 lo * v + limb1 hi)%F ++ assert_eq (limb3 r) (limb3 lo * v + limb2 hi)%F).

Lemma left_ops_sound :
  sats left_ops ->
  exists i, 0 <= i < 4 /\ ShiftLeftChip.shift_u16 local = one_hot4 i /\ amount = Fof i /\
    is_bool (ShiftLeftChip.c_bit4 local) /\ is_bool (ShiftLeftChip.c_bit5 local) /\
    Z.land (word_val c) 0x3f = k + 16 * pair_val (ShiftLeftChip.c_bit4 local) (ShiftLeftChip.c_bit5 local) /\
    Z.land (word_val c) 0x1f = k + 16 * Fval (ShiftLeftChip.c_bit4 local) /\
    valid_word (move_left i (ShiftLeftChip.limb_result local)) /\
    word_val (move_left i (ShiftLeftChip.limb_result local)) = shl 64 (word_val b) (k + 16 * i).
Proof.
  intros H. unfold left_ops, ShiftLeftChip.c_bits in H. cbn [firstn] in H. rewrite !sats_app, !sats_eq, bits_sum4 in H.
  destruct H as (Hc & Hi & (E1 & E2 & E3) & (S0 & S1 & S2 & S3) & R0 & R1 & R2 & R3).
  apply low_bits_sound in Hc as (B0 & B1 & B2 & B3 & B4 & B5 & N1 & N2); [|apply Vc].
  pose proof (nibble_bound _ _ _ _ B0 B1 B2 B3) as Hk. pose proof (left_power _ _ _ _ _ _ _ B0 B1 B2 B3 E1 E2 E3) as Ev.
  apply limb_shift_sound in Hi as (i & Hi & Ew & Ea). exists i.
  destruct (low_amount _ _ _ _ _ _ _ Vc N1 N2) as [L1 L2]. rewrite (proj2 (pair_bound _ _ B4 B5)) in L2.
  do 7 (split; [assumption|]). rewrite Ev in *. clear E1 E2 E3 Ev.
  assert (Eb : (Fof 16 - Fof k)%F = Fof (16 - k)) by apply Fof_sub. rewrite Eb in *.
  assert (Sp : forall x l h, is_u16F x -> sats (split_limb (x * Fof (2 ^ k)) (Fof (2 ^ k)) l (Fof (16 - k)) h (Fof k) F1) ->
    Fval l = Fval x mod 2 ^ (16 - k) /\ Fval h = Fval x / 2 ^ (16 - k))
    by (intros x l h Ux Hs; apply (split_sound x l h _ _ _ (16 - k) k ltac:(lia) ltac:(lia) ltac:(lia) eq_refl eq_refl eq_refl Ux Hs)).
  destruct Vb as (U0 & U1 & U2 & U3).
  destruct (shifted_left k b (ShiftLeftChip.limb_result local) (ShiftLeftChip.lower_limb local)
    (ShiftLeftChip.higher_limb local) Hk Vb) as [Vr [q Eq]]; try assumption.
  - unfold word_list. cbn [combine In]. intros x l h [E | [E | [E | [E | []]]]]; injection E as <- <- <-; auto.
  - apply moved_left; [exact Hi | lia | exact Vr | exists q; exact Eq].
Qed.
End ShiftLeft.

Lemma moved_half (local : ShiftLeftChip.Cols) (i : Z) :
  0 <= i < 2 -> ShiftLeftChip.shift_u16 local = one_hot4 i ->
  sats (flat_map (fun i => flat_map (ShiftLeftChip.moved F1 local i) (seq 0 2)) (seq 0 2)) ->
  limb0 (ShiftLeftChip.a local) = limb0 (move_left i (ShiftLeftChip.limb_result local)) /\
  limb1 (ShiftLeftChip.a local) = limb1 (move_left i (ShiftLeftChip.limb_result local)).
Proof.
  intros Hi E H.
  assert (Hj : forall j, (j < 2)%nat -> nth j (word_list (ShiftLeftChip.a local)) F0
                = nth j (word_list (move_left i (ShiftLeftChip.limb_result local))) F0).
  { intros j Hj. apply moved_limb; [lia | lia | exact E |].
    eapply sats_flat_map in H; [|apply in_seq with (n := Z.to_nat i); lia].
    eapply sats_flat_map in H; [exact H | apply in_seq; lia]. }
  split; [exact (Hj 0%nat ltac:(lia)) | exact (Hj 1%nat ltac:(lia))].
Qed.

Lemma moved_word (local : ShiftLeftChip.Cols) (i : Z) :
  0 <= i < 4 -> ShiftLeftChip.shift_u16 local = one_hot4 i ->
  sats (flat_map (fun i => flat_map (ShiftLeftChip.moved F1 local i) (seq 0 4)) (seq 0 4)) ->
  ShiftLeftChip.a local = move_left i (ShiftLeftChip.limb_result local).
Proof.
  intros Hi E H. apply word_ext_nth. intros j Hj. apply moved_limb; [exact Hi | exact Hj | exact E |].
  eapply sats_flat_map in H; [|apply in_seq with (n := Z.to_nat i); lia].
  eapply sats_flat_map in H; [exact H | apply in_seq; lia].
Qed.

(** A word whose upper half is filled with the sign of its lower half. *)
Lemma sign_filled (a : Word F) (m : U16MSBOperation.Cols) :
  is_u16F (limb0 a) -> is_u16F (limb1 a) -> sats (U16MSBOperation.eval_msb (limb1 a) m F1) ->
  limb2 a = (U16MSBOperation.msb m * Fof (2 ^ 16 - 1))%F -> limb3 a = (U16MSBOperation.msb m * Fof (2 ^ 16 - 1))%F ->
  valid_word a /\ word_val a = as_u64 (as_i32 (half_val (limb0 a) (limb1 a))).
Proof.
  intros U0 U1 Hm E2 E3. apply msb_sound in Hm; [|exact U1]. rewrite Hm in E2, E3.
  destruct (sign_extend_half_spec _ _ U0 U1) as [Vw Ew]. destruct a as [a0 a1 a2 a3]. cbn [limb0 limb1 limb2 limb3] in *.
  assert (Ea : mkWord a0 a1 a2 a3 = sign_extend_half a0 a1 (Fof (if Fval a1 <? 2 ^ 15 then 0 else 1))).
  { rewrite E2, E3. unfold sign_extend_half. f_equal; ring. }
  rewrite Ea. auto.
Qed.

Section SoundLeft.
Context (rrs : MajorOpcodes) (cfg : Config) (row : list Emit) (Hs : sats row).

Lemma shift_left_chip_steps (local : ShiftLeftChip.Cols) :
  ShiftLeftChip.eval rrs cfg local = Ok row -> sum_flags (ShiftLeftChip.flags local) = F1 -> step_row row.
Proof.
  intros E Hr. unfold ShiftLeftChip.eval in E. chip_row E.
  assert (Er : (ShiftLeftChip.is_sll local + ShiftLeftChip.is_sllw local)%F = F1) by exact Hr. rewrite Er in *.
  apply chip_step; [auto 30 with quiet | auto with quiet | assumption |].
  intros i Vb Vc Eo Ho. rewrite !sats_app, !sats_bool in Ho.
  destruct Ho as ((_ & Bl & Bw) & Hc & Hi & Hv & Hsp & Hr' & Hml & Hmw & (T2 & T3) & Hmsb & _).
  destruct (left_ops_sound local Vb Vc) as (n & Hn & Ew & Ea & B4 & B5 & L64 & L32 & Vm & Em).
  { unfold left_ops. rewrite !sats_app. tauto. }
  pose proof (pair_bound _ _ B4 B5) as [Bp _].
  destruct (two_flags _ _ SLL SLLW (opcode i) Bl Bw Hr Eo) as [(E1 & E2 & ->) | (E1 & E2 & ->)];
    rewrite E1, E2 in *; cbn [alu_value rd_b rd_c ALUType_reader].
  - rewrite (moved_word local n Hn Ew Hml), Em, L64. split; [exact Vm|]. do 3 f_equal.
    assert (Ef : Fof n = Fof (pair_val (ShiftLeftChip.c_bit4 local) (ShiftLeftChip.c_bit5 local)))
      by (rewrite <- Ea; unfold pair_val; apply (Rep_eq _ _); lia).
    apply Fof_inj_small in Ef; [lia | unfold KOALA_BEAR_ORDER; lia].
  - rewrite sats_when_1, sats_eq in T2, T3.
    assert (Ef : n = Fval (ShiftLeftChip.c_bit4 local)).
    { assert (Ef : Fof n = Fof (Fval (ShiftLeftChip.c_bit4 local))) by (rewrite <- Ea, Fof_val; ring).
      apply is_bool_val in B4. apply Fof_inj_small in Ef; [lia | unfold KOALA_BEAR_ORDER; lia]. }
    apply is_bool_val in B4. destruct (moved_half local n ltac:(lia) Ew Hmw) as [A0 A1].
    destruct (sign_filled (ShiftLeftChip.a local) (ShiftLeftChip.sllw_msb local)) as [Va Ev]; auto;
      [rewrite A0; apply Vm | rewrite A1; apply Vm |].
    split; [exact Va|]. rewrite Ev, A0, A1, <- (word_val_mod32 _ Vm), Em, L32, <- Ef.
    pose proof (Z.land_nonneg (word_val (ALUTypeReader.c (ShiftLeftChip.adapter local))) 0x1f) as Hnn.
    rewrite sllw_value by (rewrite <- Ef in L32; rewrite <- L32; apply Hnn; right; lia). reflexivity.
Qed.
End SoundLeft.

(** ** Right shifts of limbs *)

Lemma shifted_right (k : Z) (b lo hi r : Word F) :
  0 <= k <= 15 -> valid_word b ->
  (forall x l h, In (x, l, h) (combine (combine (word_list b) (word_list lo)) (word_list hi)) ->
     Fval l = Fval x mod 2 ^ k /\ Fval h = Fval x / 2 ^ k) ->
  limb0 r = (limb0 hi + limb1 lo * Fof (2 ^ (16 - k)))%F -> limb1 r = (limb1 hi + limb2 lo * Fof (2 ^ (16 - k)))%F ->
  limb2 r = (limb2 hi + limb3 lo * Fof (2 ^ (16 - k)))%F -> limb3 r = limb3 hi ->
  valid_word r /\ Fval (limb3 r) < 2 ^ (16 - k) /\ word_val r = word_val b / 2 ^ k.
Proof.
  intros Hk (V0 & V1 & V2 & V3) Hsp R0 R1 R2 R3. destruct b as [b0 b1 b2 b3], lo as [l0 l1 l2 l3], hi as [h0 h1 h2 h3].
  cbn [word_list limb0 limb1 limb2 limb3 combine In] in *.
  assert (P : 2 ^ 16 = 2 ^ (16 - k) * 2 ^ k) by (rewrite <- Z.pow_add_r by lia; f_equal; lia).
  pose proof (pow2_pos k ltac:(lia)) as Pk. pose proof (pow2_pos (16 - k) ltac:(lia)) as Pn.
  assert (Hone : forall x l h, is_u16F x -> Fval l = Fval x mod 2 ^ k /\ Fval h = Fval x / 2 ^ k ->
    0 <= Fval l < 2 ^ k /\ 0 <= Fval h < 2 ^ (16 - k) /\ Fval x = Fval h * 2 ^ k + Fval l).
  { intros x l h Ux [-> ->]. unfold is_u16F in Ux. pose proof (Fval_bound x).
    pose proof (Z_div_mod_eq_full (Fval x) (2 ^ k)). pose proof (Z.mod_pos_bound (Fval x) _ Pk).
    split; [lia|]. split; [split; [apply Z.div_pos; lia | apply Z.div_lt_upper_bound; lia]|]. lia. }
  destruct (Hone b0 l0 h0 V0) as (L0 & H0 & E0); [apply Hsp; tauto|].
  destruct (Hone b1 l1 h1 V1) as (L1 & H1 & E1); [apply Hsp; tauto|].
  destruct (Hone b2 l2 h2 V2) as (L2 & H2 & E2); [apply Hsp; tauto|].
  destruct (Hone b3 l3 h3 V3) as (L3 & H3 & E3); [apply Hsp; tauto|]. clear Hone Hsp.
  assert (Hr : forall h l, 0 <= Fval h < 2 ^ (16 - k) -> 0 <= Fval l < 2 ^ k ->
    Fval (h + l * Fof (2 ^ (16 - k))) = Fval h + Fval l * 2 ^ (16 - k) /\ Fval h + Fval l * 2 ^ (16 - k) < 2 ^ 16).
  { intros h l Hh Hl. assert (B : Fval h + Fval l * 2 ^ (16 - k) < 2 ^ 16) by nia. split; [|exact B].
    apply Fval_rep; [exact _ | unfold KOALA_BEAR_ORDER; nia]. }
  destruct (Hr h0 l1 H0 L1) as [F0' B0], (Hr h1 l2 H1 L2) as [F1' B1], (Hr h2 l3 H2 L3) as [F2' B2].
  unfold valid_word, word_val, is_u16F. rewrite R0, R1, R2, R3, F0', F1', F2'. cbn [limb0 limb1 limb2 limb3].
  assert (P' : 2 ^ (16 - k) <= 2 ^ 16) by nia. split; [lia|]. split; [lia|].
  apply (Z.div_unique_pos _ _ _ (Fval l0)); [lia|].
  rewrite E0, E1, E2, E3. clear - P. set (p := 2 ^ k) in *. set (q := 2 ^ (16 - k)) in *.
  change (2 ^ 32) with (2 ^ 16 * 2 ^ 16). change (2 ^ 48) with (2 ^ 16 * 2 ^ 16 * 2 ^ 16). rewrite P. ring.
Qed.

(** The limbs moved by [i], filled with copies of the sign bit [m]; [top] is
    what the sign adds to the highest limb. *)
Definition move_right (i : nat) (m top : F) (r : Word F) : Word F :=
  let f j := if (j <? 3 - i)%nat then nth (i + j) (word_list r) F0
             else if (j =? 3 - i)%nat then (limb3 r + top)%F else (m * Fof (2 ^ 16 - 1))%F in
  (mkWord (f 0) (f 1) (f 2) (f 3))%nat.

Lemma moved_right (i k m : Z) (r : Word F) :
  0 <= i < 4 -> 0 <= k <= 15 -> m = 0 \/ m = 1 -> valid_word r -> Fval (limb3 r) < 2 ^ (16 - k) ->
  let w := move_right (Z.to_nat i) (Fof m) (Fof m * Fof (2 ^ 16) - Fof m * Fof (2 ^ (16 - k)))%F r in
  valid_word w /\ word_val w = word_val r / 2 ^ (16 * i) + m * (2 ^ 64 - 2 ^ (64 - (k + 16 * i))).
Proof.
  intros Hi Hk Hm (V0 & V1 & V2 & V3) Ht. cbv zeta. destruct r as [r0 r1 r2 r3].
  unfold valid_word, word_val, is_u16F in *. cbn [limb0 limb1 limb2 limb3] in *.
  pose proof (pow2_pos (16 - k) ltac:(lia)) as Pk.
  assert (Pk' : 2 ^ (16 - k) <= 2 ^ 16) by (apply Z.pow_le_mono_r; lia).
  assert (Et : Fval (r3 + (Fof m * Fof (2 ^ 16) - Fof m * Fof (2 ^ (16 - k)))) = Fval r3 + m * (2 ^ 16 - 2 ^ (16 - k))).
  { rewrite (Fval_rep _ (a := Fval r3 + (m * 2 ^ 16 - m * 2 ^ (16 - k)))); [lia|]. F_bounds.
    unfold KOALA_BEAR_ORDER in *. destruct Hm as [-> | ->]; lia. }
  assert (Em : Fval (Fof m * Fof (2 ^ 16 - 1)) = m * (2 ^ 16 - 1))
    by (destruct Hm as [-> | ->]; reflexivity).
  assert (Ps : forall j, 0 <= j -> 2 ^ (16 * j + (16 - k)) = 2 ^ (16 * j) * 2 ^ (16 - k)) by (intros; apply Z.pow_add_r; lia).
  assert (Ei : i = 0 \/ i = 1 \/ i = 2 \/ i = 3) by lia.
  destruct Ei as [-> | [-> | [-> | ->]]]; unfold move_right;
    [change (Z.to_nat 0) with 0%nat; replace (64 - (k + 16 * 0)) with (16 * 3 + (16 - k)) by lia
    |change (Z.to_nat 1) with 1%nat; replace (64 - (k + 16 * 1)) with (16 * 2 + (16 - k)) by lia
    |change (Z.to_nat 2) with 2%nat; replace (64 - (k + 16 * 2)) with (16 * 1 + (16 - k)) by lia
    |change (Z.to_nat 3) with 3%nat; replace (64 - (k + 16 * 3)) with (16 * 0 + (16 - k)) by lia];
    cbn [word_list limb0 limb1 limb2 limb3 nth Nat.ltb Nat.leb Nat.sub Nat.eqb Nat.add]; rewrite Et, ?Em, Ps by lia;
    set (p := 2 ^ (16 - k)) in *; clearbody p; clear Et Em Ps;
    [change (2 ^ (16 * 3)) with (2 ^ 48) | change (2 ^ (16 * 2)) with (2 ^ 32)
    |change (2 ^ (16 * 1)) with (2 ^ 16) | change (2 ^ (16 * 0)) with 1]; F_bounds.
  - split; [destruct Hm as [-> | ->]; lia|]. change (2 ^ (16 * 0)) with 1. rewrite Z.div_1_r. destruct Hm as [-> | ->]; lia.
  - split; [destruct Hm as [-> | ->]; lia|]. change (2 ^ (16 * 1)) with (2 ^ 16).
    rewrite <- (Z.div_unique_pos _ (2 ^ 16) (Fval r1 + 2 ^ 16 * Fval r2 + 2 ^ 32 * Fval r3) (Fval r0)) by lia.
    destruct Hm as [-> | ->]; lia.
  - split; [destruct Hm as [-> | ->]; lia|]. change (2 ^ (16 * 2)) with (2 ^ 32).
    rewrite <- (Z.div_unique_pos _ (2 ^ 32) (Fval r2 + 2 ^ 16 * Fval r3) (Fval r0 + 2 ^ 16 * Fval r1)) by lia.
    destruct Hm as [-> | ->]; lia.
  - split; [destruct Hm as [-> | ->]; lia|]. change (2 ^ (16 * 3)) with (2 ^ 48).
    rewrite <- (Z.div_unique_pos _ (2 ^ 48) (Fval r3) (Fval r0 + 2 ^ 16 * Fval r1 + 2 ^ 32 * Fval r2)) by lia.
    destruct Hm as [-> | ->]; lia.
Qed.

(** ** Soundness of [ShiftRightChip] *)

Lemma quiet_moved_right (c : F) (local : ShiftRightChip.Cols) (i : nat) : quiet (ShiftRightChip.moved c local i).
Proof. unfold ShiftRightChip.moved. apply quiet_app; [|apply quiet_app]; auto with quiet. Qed.
#[export] Hint Resolve quiet_moved_right : quiet.

Lemma right_power (b0 b1 b2 b3 v1 v2 v3 : F) :
  is_bool b0 -> is_bool b1 -> is_bool b2 -> is_bool b3 ->
  v1 = ((F1 - b0 + F1) * Fof 2 * ((F1 - b1) * Fof 3 + F1))%F -> v2 = (v1 * ((F1 - b2) * Fof 15 + F1))%F ->
  v3 = (v2 * ((F1 - b3) * Fof 255 + F1))%F -> v3 = Fof (2 ^ (16 - nibble b0 b1 b2 b3)).
Proof.
  intros B0 B1 B2 B3 -> -> ->.
  replace (F1 - b0 + F1)%F with ((F1 - b0) * Fof (2 ^ 1 - 1) + F1)%F by (change (Fof (2 ^ 1 - 1)) with F1; ring).
  change 3 with (2 ^ 2 - 1). change 15 with (2 ^ 4 - 1). change 255 with (2 ^ 8 - 1).
  rewrite !bool_co_product by (assumption || lia). change (Fof 2) with (Fof (2 ^ 1)). rewrite !Fof_mul. f_equal. unfold nibble.
  apply is_bool_val in B0, B1, B2, B3. rewrite <- !Z.pow_add_r by lia. f_equal. lia.
Qed.

(** The arithmetic shift of a value with sign bit [m]. *)
Lemma shr_sign (w x m s : Z) : 0 <= s <= w -> shr (x - m * 2 ^ w) s = x / 2 ^ s - m * 2 ^ (w - s).
Proof.
  intros Hs. rewrite shr_div by lia. replace (2 ^ w) with (2 ^ (w - s) * 2 ^ s) by (rewrite <- Z.pow_add_r by lia; f_equal; lia).
  replace (x - m * (2 ^ (w - s) * 2 ^ s)) with (x + (- (m * 2 ^ (w - s))) * 2 ^ s) by ring.
  rewrite Z_div_plus_full by (pose proof (pow2_pos s); lia). lia.
Qed.

Lemma div_pow_add (x k j : Z) : 0 <= k -> 0 <= j -> x / 2 ^ k / 2 ^ j = x / 2 ^ (k + j).
Proof. intros Hk Hj. pose proof (pow2_pos k Hk). pose proof (pow2_pos j Hj). rewrite Z.div_div, Z.pow_add_r by lia. reflexivity. Qed.

Section ShiftRight.
Context (local : ShiftRightChip.Cols).
Abbreviation b := (ALUTypeReader.b (ShiftRightChip.adapter local)).
Abbreviation c := (ALUTypeReader.c (ShiftRightChip.adapter local)).
Abbreviation k := (nibble (ShiftRightChip.c_bit0 local) (ShiftRightChip.c_bit1 local) (ShiftRightChip.c_bit2 local)
                     (ShiftRightChip.c_bit3 local)).
Abbreviation c4 := (ShiftRightChip.c_bit4 local).
Abbreviation c5 := (ShiftRightChip.c_bit5 local).
Context (Vb : valid_word b) (Vc : valid_word c).

(** The constraints on the amount and on the limbs, for a real row. *)
Definition right_ops (nw : F) : list Emit :=
  let bit_shift := bits_sum F0 0 (firstn 4 (ShiftRightChip.c_bits local)) in
  let v := ShiftRightChip.v_0123 local in
  let lo := ShiftRightChip.lower_limb local in
  let hi := ShiftRightChip.higher_limb local in
  let r := ShiftRightChip.limb_result local in
  let split lhs lower higher := split_limb lhs v lower bit_shift higher (Fof 16 - bit_shift)%F F1 in
  low_bits_check (ShiftRightChip.c_bits local) (limb0 c) F1 ++
  limb_shift_flags (ShiftRightChip.shift_u16 local) (c4 + c5 * Fof 2 * nw)%F F1 ++
  (assert_eq (ShiftRightChip.v_01 local)
     ((F1 - ShiftRightChip.c_bit0 local + F1) * Fof 2 * ((F1 - ShiftRightChip.c_bit1 local) * Fof 3 + F1))%F ++
   assert_eq (ShiftRightChip.v_012 local)
     (ShiftRightChip.v_01 local * ((F1 - ShiftRightChip.c_bit2 local) * Fof 15 + F1))%F ++
   assert_eq v (ShiftRightChip.v_012 local * ((F1 - ShiftRightChip.c_bit3 local) * Fof 255 + F1))%F) ++
  (split (limb0 b * v)%F (limb0 lo) (limb0 hi) ++ split (limb1 b * v)%F (limb1 lo) (limb1 hi) ++
   split (limb2 b * v * nw)%F (limb2 lo) (limb2 hi) ++ split (limb3 b * v * nw)%F (limb3 lo) (limb3 hi)) ++
  (assert_eq (limb0 r) (limb0 hi + limb1 lo * v)%F ++ assert_eq (limb1 r) (limb1 hi + limb2 lo * v)%F ++
   assert_eq (limb2 r) (limb2 hi + limb3 lo * v)%F ++ assert_eq (limb3 r) (limb3 hi)).

(** The word whose limbs are shifted. *)
Definition shifted_word (nw : bool) : Word F := if nw then b else mkWord (limb0 b) (limb1 b) F0 F0.

Lemma shifted_word_val (nw : bool) :
  valid_word (shifted_word nw) /\ word_val (shifted_word nw) = if nw then word_val b else word_val b mod 2 ^ 32.
Proof.
  destruct nw; [auto|]. cbn [shifted_word]. rewrite (word_val_mod32 _ Vb). destruct Vb as (U0 & U1 & _).
  apply zero_extend_word; assumption.
Qed.

Lemma right_ops_sound (nw : bool) :
  sats (right_ops (Fof_bool nw)) ->
  exists i, 0 <= i < 4 /\ ShiftRightChip.shift_u16 local = one_hot4 i /\ 0 <= k <= 15 /\
    (Z.land (word_val c) (if nw then 0x3f else 0x1f) = k + 16 * i) /\ (nw = false -> i < 2) /\
    ShiftRightChip.v_0123 local = Fof (2 ^ (16 - k)) /\
    valid_word (ShiftRightChip.limb_result local) /\ Fval (limb3 (ShiftRightChip.limb_result local)) < 2 ^ (16 - k) /\
    word_val (ShiftRightChip.limb_result local) = word_val (shifted_word nw) / 2 ^ k.
Proof.
  intros H. unfold right_ops, ShiftRightChip.c_bits in H. cbn [firstn] in H. rewrite !sats_app, !sats_eq, bits_sum4 in H.
  destruct H as (Hc & Hi & (E1 & E2 & E3) & (S0 & S1 & S2 & S3) & R0 & R1 & R2 & R3).
  apply low_bits_sound in Hc as (B0 & B1 & B2 & B3 & B4 & B5 & N1 & N2); [|apply Vc].
  pose proof (nibble_bound _ _ _ _ B0 B1 B2 B3) as Hk. pose proof (right_power _ _ _ _ _ _ _ B0 B1 B2 B3 E1 E2 E3) as Ev.
  apply limb_shift_sound in Hi as (i & Hi & Ew & Ea). exists i.
  destruct (low_amount _ _ _ _ _ _ _ Vc N1 N2) as [L1 L2]. destruct (pair_bound _ _ B4 B5) as [Bp Mp]. rewrite Mp in L2.
  rewrite Ev in *. clear E1 E2 E3.
  assert (Eb : (Fof 16 - Fof k)%F = Fof (16 - k)) by apply Fof_sub. rewrite Eb in *.
  assert (Ei : i = if nw then pair_val c4 c5 else Fval c4).
  { assert (Ef : Fof i = Fof (if nw then pair_val c4 c5 else Fval c4))
      by (rewrite <- Ea; unfold pair_val; destruct nw; cbn [Fof_bool]; apply (Rep_eq _ _); lia).
    apply is_bool_val in B4. apply Fof_inj_small in Ef; [exact Ef | destruct nw; unfold KOALA_BEAR_ORDER; lia]. }
  do 3 (split; [assumption|]). split; [rewrite Ei; destruct nw; assumption|].
  split; [intros ->; apply is_bool_val in B4; lia|]. split; [reflexivity|].
  assert (Sp : forall x l h, is_u16F x -> sats (split_limb (x * Fof (2 ^ (16 - k))) (Fof (2 ^ (16 - k))) l (Fof k) h (Fof (16 - k)) F1) ->
    Fval l = Fval x mod 2 ^ k /\ Fval h = Fval x / 2 ^ k)
    by (intros x l h Ux Hs; apply (split_sound x l h _ _ _ k (16 - k) ltac:(lia) ltac:(lia) ltac:(lia) eq_refl eq_refl eq_refl Ux Hs)).
  destruct (shifted_word_val nw) as [Vs _].
  apply (shifted_right k (shifted_word nw) (ShiftRightChip.lower_limb local) (ShiftRightChip.higher_limb local)); try assumption.
  destruct Vs as (U0 & U1 & U2 & U3). unfold word_list. cbn [combine In].
  assert (W01 : limb0 (shifted_word nw) = limb0 b /\ limb1 (shifted_word nw) = limb1 b) by (destruct nw; auto).
  assert (W23 : (limb2 b * Fof (2 ^ (16 - k)) * Fof_bool nw)%F = (limb2 (shifted_word nw) * Fof (2 ^ (16 - k)))%F /\
                (limb3 b * Fof (2 ^ (16 - k)) * Fof_bool nw)%F = (limb3 (shifted_word nw) * Fof (2 ^ (16 - k)))%F)
    by (destruct nw; cbn [shifted_word Fof_bool limb2 limb3]; split; ring).
  destruct W01 as [<- <-] in S0, S1 |- *. destruct W23 as [W2 W3]. rewrite W2 in S2. rewrite W3 in S3.
  intros x l h [E | [E | [E | [E | []]]]]; injection E as <- <- <-; auto.
Qed.
End ShiftRight.

(** The result of a 64-bit shift, from the limbs moved. *)
Lemma moved_right_word (local : ShiftRightChip.Cols) (i : Z) (m : F) :
  0 <= i < 4 -> ShiftRightChip.shift_u16 local = one_hot4 i -> U16MSBOperation.msb (ShiftRightChip.b_msb local) = m ->
  sats (flat_map (ShiftRightChip.moved F1 local) (seq 0 4)) ->
  ShiftRightChip.a local
  = move_right (Z.to_nat i) m (m * Fof (2 ^ 16) - ShiftRightChip.sra_msb_v0123 local)%F (ShiftRightChip.limb_result local).
Proof.
  intros Hi E Em H. eapply sats_flat_map in H; [|apply in_seq with (n := Z.to_nat i); lia].
  unfold ShiftRightChip.moved in H. rewrite E, one_hot_nth, Em in H by exact Hi. rewrite !sats_app in H.
  destruct H as (H1 & H2 & H3). rewrite !sats_when_1, sats_eq in H2.
  assert (H1' : forall j, (j < 3 - Z.to_nat i)%nat -> nth j (word_list (ShiftRightChip.a local)) F0
                = nth (Z.to_nat i + j) (word_list (ShiftRightChip.limb_result local)) F0).
  { intros j Hj. eapply sats_flat_map in H1; [|apply in_seq with (n := j); lia].
    rewrite !sats_when_1, sats_eq in H1. exact H1. }
  assert (H3' : forall j, (4 - Z.to_nat i <= j < 4)%nat -> nth j (word_list (ShiftRightChip.a local)) F0 = (m * Fof (2 ^ 16 - 1))%F).
  { intros j Hj. eapply sats_flat_map in H3; [|apply in_seq with (n := j); lia].
    rewrite !sats_when_1, sats_eq in H3. exact H3. }
  apply word_ext_nth. intros j Hj.
  assert (En : nth j (word_list (move_right (Z.to_nat i) m (m * Fof (2 ^ 16) - ShiftRightChip.sra_msb_v0123 local)%F
                (ShiftRightChip.limb_result local))) F0
    = if (j <? 3 - Z.to_nat i)%nat then nth (Z.to_nat i + j) (word_list (ShiftRightChip.limb_result local)) F0
      else if (j =? 3 - Z.to_nat i)%nat
           then (limb3 (ShiftRightChip.limb_result local) + (m * Fof (2 ^ 16) - ShiftRightChip.sra_msb_v0123 local))%F
           else (m * Fof (2 ^ 16 - 1))%F)
    by (unfold move_right, word_list; cbn [limb0 limb1 limb2 limb3]; do 4 (destruct j as [|j]; [reflexivity|]); lia).
  rewrite En. destruct (Nat.ltb_spec j (3 - Z.to_nat i)) as [L|L]; [apply H1', L|].
  destruct (Nat.eqb_spec j (3 - Z.to_nat i)) as [->|N]; [exact H2 | apply H3'; lia].
Qed.

(** The lower half of a word shift. *)
Lemma moved_right_half (local : ShiftRightChip.Cols) (i k m : Z) :
  let msb := U16MSBOperation.msb (ShiftRightChip.b_msb local) in
  let r := ShiftRightChip.limb_result local in
  let a := ShiftRightChip.a local in
  let top := (msb * Fof (2 ^ 16) - ShiftRightChip.sra_msb_v0123 local)%F in
  0 <= i < 2 -> 0 <= k <= 15 -> m = 0 \/ m = 1 -> ShiftRightChip.shift_u16 local = one_hot4 i -> msb = Fof m ->
  ShiftRightChip.sra_msb_v0123 local = (msb * Fof (2 ^ (16 - k)))%F ->
  valid_word r -> half_val (limb0 r) (limb1 r) < 2 ^ (32 - k) ->
  sats (when (limb0 (ShiftRightChip.shift_u16 local)) (assert_eq (limb0 a) (limb0 r))) ->
  sats (when (limb0 (ShiftRightChip.shift_u16 local)) (assert_eq (limb1 a) (limb1 r + top)%F)) ->
  sats (when (limb1 (ShiftRightChip.shift_u16 local)) (assert_eq (limb0 a) (limb1 r + top)%F)) ->
  sats (when (limb1 (ShiftRightChip.shift_u16 local)) (assert_eq (limb1 a) (msb * Fof (2 ^ 16 - 1))%F)) ->
  is_u16F (limb0 a) /\ is_u16F (limb1 a) /\
  half_val (limb0 a) (limb1 a) = half_val (limb0 r) (limb1 r) / 2 ^ (16 * i) + m * (2 ^ 32 - 2 ^ (32 - (k + 16 * i))).
Proof.
  cbv zeta. intros Hi Hk Hm E Em Ev (V0 & V1 & _) Hr C1 C2 C3 C4. rewrite E in *. rewrite Ev, Em in *.
  destruct (ShiftRightChip.a local) as [a0 a1 a2 a3], (ShiftRightChip.limb_result local) as [r0 r1 r2 r3].
  cbn [limb0 limb1 limb2 limb3] in *. unfold half_val, is_u16F in *.
  assert (P : 2 ^ (32 - k) = 2 ^ 16 * 2 ^ (16 - k)) by (rewrite <- Z.pow_add_r by lia; f_equal; lia).
  pose proof (pow2_pos (16 - k) ltac:(lia)) as Pk. rewrite P in Hr.
  assert (Pk' : 2 ^ (16 - k) <= 2 ^ 16) by (apply Z.pow_le_mono_r; lia).
  assert (R1 : Fval r1 < 2 ^ (16 - k)) by (pose proof (Fval_bound r0); nia).
  assert (Et : Fval (r1 + (Fof m * Fof (2 ^ 16) - Fof m * Fof (2 ^ (16 - k)))) = Fval r1 + m * (2 ^ 16 - 2 ^ (16 - k))).
  { rewrite (Fval_rep _ (a := Fval r1 + (m * 2 ^ 16 - m * 2 ^ (16 - k)))); [lia|]. F_bounds.
    unfold KOALA_BEAR_ORDER in *. destruct Hm as [-> | ->]; lia. }
  assert (Ef : Fval (Fof m * Fof (2 ^ 16 - 1)) = m * (2 ^ 16 - 1)) by (destruct Hm as [-> | ->]; reflexivity).
  assert (Ei : i = 0 \/ i = 1) by lia. destruct Ei as [-> | ->].
  - pose proof (proj1 (sats_when_eq _ _ _) C1 F1_neq_0) as D1. pose proof (proj1 (sats_when_eq _ _ _) C2 F1_neq_0) as D2.
    clear C1 C2 C3 C4. rewrite D1, D2, Et. F_bounds.
    replace (32 - (k + 16 * 0)) with (32 - k) by lia. rewrite P. change (2 ^ (16 * 0)) with 1. rewrite Z.div_1_r.
    set (p := 2 ^ (16 - k)) in *. destruct Hm as [-> | ->]; lia.
  - pose proof (proj1 (sats_when_eq _ _ _) C3 F1_neq_0) as D1. pose proof (proj1 (sats_when_eq _ _ _) C4 F1_neq_0) as D2.
    clear C1 C2 C3 C4. rewrite D1, D2, Et, Ef. F_bounds.
    replace (32 - (k + 16 * 1)) with (16 - k) by lia. change (2 ^ (16 * 1)) with (2 ^ 16).
    rewrite <- (Z.div_unique_pos _ (2 ^ 16) (Fval r1) (Fval r0)) by lia.
    set (p := 2 ^ (16 - k)) in *. destruct Hm as [-> | ->]; lia.
Qed.

(** The sign bit of a word, and of its lower half. *)
Definition top_bit (x : F) : Z := if Fval x <? 2 ^ 15 then 0 else 1.

Lemma top_bit_bool (x : F) : top_bit x = 0 \/ top_bit x = 1.
Proof. unfold top_bit. destruct (_ <? _); auto. Qed.

Lemma as_i64_sign (b : Word F) : valid_word b -> as_i64 (word_val b) = word_val b - top_bit (limb3 b) * 2 ^ 64.
Proof.
  intros V. pose proof (word_val_bound b V) as B. unfold as_i64. rewrite as_signed_small by exact B.
  destruct V as (V0 & V1 & V2 & V3). unfold top_bit, word_val, is_u16F in *. F_bounds.
  destruct (Z.ltb_spec (Fval (limb3 b)) (2 ^ 15));
    match goal with |- context [?x <? 2 ^ (64 - 1)] => destruct (Z.ltb_spec x (2 ^ (64 - 1))) end; lia.
Qed.

Lemma as_i32_sign (b : Word F) : valid_word b -> as_i32 (word_val b) = word_val b mod 2 ^ 32 - top_bit (limb1 b) * 2 ^ 32.
Proof.
  intros V. unfold as_i32. rewrite <- as_signed_mod, as_signed_small by (apply Z.mod_pos_bound; lia).
  rewrite (word_val_mod32 _ V). destruct V as (V0 & V1 & _). unfold top_bit, half_val, is_u16F in *. F_bounds.
  destruct (Z.ltb_spec (Fval (limb1 b)) (2 ^ 15));
    match goal with |- context [?x <? 2 ^ (32 - 1)] => destruct (Z.ltb_spec x (2 ^ (32 - 1))) end; lia.
Qed.

(** A shifted 32-bit value, as the executor sign-extends it. *)
Lemma sra_half (x m s y : Z) :
  0 <= x < 2 ^ 32 -> 0 <= s < 32 -> m = 0 \/ m = 1 -> - 2 ^ 31 <= x - m * 2 ^ 32 < 2 ^ 31 ->
  y = x / 2 ^ s + m * (2 ^ 32 - 2 ^ (32 - s)) -> as_i32 y = shr (x - m * 2 ^ 32) s.
Proof.
  intros Hx Hs Hm Hr ->. unfold as_i32. apply as_signed_eq; [lia | |].
  - rewrite shr_div by lia. pose proof (pow2_pos s ltac:(lia)).
    split; [apply Z.div_le_lower_bound; nia | apply Z.div_lt_upper_bound; nia].
  - rewrite shr_sign by lia. replace (x / 2 ^ s + m * (2 ^ 32 - 2 ^ (32 - s))) with (x / 2 ^ s - m * 2 ^ (32 - s) + m * 2 ^ 32) by lia.
    apply Z_mod_plus_full.
Qed.

Lemma sra_amount (c : Z) : as_u32 (as_i32 (Z.land (as_i64 c) 0x1f)) mod 32 = Z.land c 0x1f.
Proof.
  change 0x1f with (2 ^ 5 - 1). rewrite !land_mask by lia.
  assert (E : as_i64 c mod 2 ^ 5 = c mod 2 ^ 5).
  { unfold as_i64. rewrite <- (mod_mod_le (as_signed 64 c) 5 64), as_signed_cong, mod_mod_le by lia. reflexivity. }
  rewrite E. pose proof (Z.mod_pos_bound c (2 ^ 5) ltac:(lia)). unfold as_i32, as_u32, as_unsigned.
  rewrite as_signed_small by lia. destruct (Z.ltb_spec (c mod 2 ^ 5) (2 ^ (32 - 1))); [|lia].
  rewrite (Z.mod_small _ (2 ^ 32)) by lia. apply Z.mod_small. change (2 ^ 5) with 32 in *. lia.
Qed.

Lemma shift_amount_bound (c : Z) (nw : bool) : 0 <= c -> 0 <= Z.land c (if nw then 0x3f else 0x1f) < if nw then 64 else 32.
Proof.
  intros Hc. destruct nw; [change 0x3f with (2 ^ 6 - 1) | change 0x1f with (2 ^ 5 - 1)]; rewrite land_mask by lia.
  - apply (Z.mod_pos_bound c 64). lia.
  - apply (Z.mod_pos_bound c 32). lia.
Qed.

(** The value of a 64-bit shift with sign [m], and of a word shift. *)
Section RightValue.
Context (local : ShiftRightChip.Cols) (m : Z) (Hm : m = 0 \/ m = 1).
Abbreviation b := (ALUTypeReader.b (ShiftRightChip.adapter local)).
Abbreviation c := (ALUTypeReader.c (ShiftRightChip.adapter local)).
Abbreviation a := (ShiftRightChip.a local).
Context (Vb : valid_word b) (Vc : valid_word c).
Context (Em : U16MSBOperation.msb (ShiftRightChip.b_msb local) = Fof m).
Context (Ev : ShiftRightChip.sra_msb_v0123 local
              = (U16MSBOperation.msb (ShiftRightChip.b_msb local) * ShiftRightChip.v_0123 local)%F).

Lemma right_value64 :
  sats (right_ops local F1) -> sats (flat_map (ShiftRightChip.moved F1 local) (seq 0 4)) ->
  valid_word a /\ word_val a = as_u64 (shr (word_val b - m * 2 ^ 64) (Z.land (word_val c) 0x3f)).
Proof.
  intros Ho Hmv. destruct (right_ops_sound local Vb Vc true Ho) as (i & Hi & Ew & Hk & La & _ & E2 & Vr & Hr3 & Er).
  rewrite (moved_right_word local i _ Hi Ew Em Hmv). rewrite Ev, E2, Em.
  match goal with |- context [Fof (2 ^ (16 - ?x))] => set (k := x) in * end.
  destruct (moved_right i k m _ Hi Hk Hm Vr Hr3) as [Vw Eq]. split; [exact Vw|]. rewrite Eq, Er, La.
  cbn [shifted_word] in *. rewrite div_pow_add, shr_sign by lia. pose proof (word_val_bound _ Vw) as Bw.
  rewrite Eq, Er, div_pow_add in Bw by lia. unfold as_u64, as_unsigned, is_u in *. symmetry.
  apply mod_small_eq; [lia | exact Bw | exists (- m); lia].
Qed.

Abbreviation top := (U16MSBOperation.msb (ShiftRightChip.b_msb local) * Fof (2 ^ 16) - ShiftRightChip.sra_msb_v0123 local)%F.
Abbreviation r := (ShiftRightChip.limb_result local).
Abbreviation sh := (ShiftRightChip.shift_u16 local).

Lemma right_value32 :
  sats (right_ops local F0) ->
  sats (when (limb0 sh) (assert_eq (limb0 a) (limb0 r))) -> sats (when (limb0 sh) (assert_eq (limb1 a) (limb1 r + top)%F)) ->
  sats (when (limb1 sh) (assert_eq (limb0 a) (limb1 r + top)%F)) ->
  sats (when (limb1 sh) (assert_eq (limb1 a) (U16MSBOperation.msb (ShiftRightChip.b_msb local) * Fof (2 ^ 16 - 1))%F)) ->
  let s := Z.land (word_val c) 0x1f in
  is_u16F (limb0 a) /\ is_u16F (limb1 a) /\
  half_val (limb0 a) (limb1 a) = word_val b mod 2 ^ 32 / 2 ^ s + m * (2 ^ 32 - 2 ^ (32 - s)).
Proof.
  intros Ho C1 C2 C3 C4. cbv zeta.
  destruct (right_ops_sound local Vb Vc false Ho) as (i & Hi & Ew & Hk & La & Hi2 & E2 & Vr & Hr3 & Er).
  destruct (shifted_word_val local Vb false) as [_ Es]. rewrite Es in Er. clear Es.
  rewrite E2 in Ev. match type of Ev with context [Fof (2 ^ (16 - ?x))] => set (k := x) in * end.
  pose proof (Z.mod_pos_bound (word_val b) (2 ^ 32) ltac:(lia)) as B32. pose proof (pow2_pos k ltac:(lia)) as Pk.
  assert (P : 2 ^ 32 = 2 ^ (32 - k) * 2 ^ k) by (rewrite <- Z.pow_add_r by lia; f_equal; lia).
  assert (Hlt : word_val r < 2 ^ (32 - k)) by (rewrite Er; apply Z.div_lt_upper_bound; lia).
  assert (Eh : half_val (limb0 r) (limb1 r) = word_val r).
  { rewrite <- (word_val_mod32 _ Vr). apply Z.mod_small. pose proof (word_val_bound _ Vr) as B. unfold is_u in B.
    assert (2 ^ (32 - k) <= 2 ^ 32) by (apply Z.pow_le_mono_r; lia). lia. }
  destruct (moved_right_half local i k m) as (U0 & U1 & Eq); try assumption; [specialize (Hi2 eq_refl); lia | rewrite Eh; exact Hlt |].
  split; [exact U0|]. split; [exact U1|]. rewrite Eq, Eh, Er, La, div_pow_add by lia. reflexivity.
Qed.
End RightValue.

(** The constraints on the sign bits and on the result. *)
Definition right_checks (local : ShiftRightChip.Cols) : list Emit :=
  let is_word := (ShiftRightChip.is_srlw local + ShiftRightChip.is_sraw local)%F in
  let not_word := (ShiftRightChip.is_srl local + ShiftRightChip.is_sra local)%F in
  let b := ALUTypeReader.b (ShiftRightChip.adapter local) in
  let a := ShiftRightChip.a local in
  let r := ShiftRightChip.limb_result local in
  let sh := ShiftRightChip.shift_u16 local in
  let msb := U16MSBOperation.msb (ShiftRightChip.b_msb local) in
  let srw := U16MSBOperation.msb (ShiftRightChip.srw_msb local) in
  let top := (msb * Fof (2 ^ 16) - ShiftRightChip.sra_msb_v0123 local)%F in
  (U16MSBOperation.eval_msb (limb3 b) (ShiftRightChip.b_msb local) (ShiftRightChip.is_sra local) ++
   U16MSBOperation.eval_msb (limb1 b) (ShiftRightChip.b_msb local) (ShiftRightChip.is_sraw local) ++
   when (ShiftRightChip.is_srl local + ShiftRightChip.is_srlw local)%F (assert_zero msb) ++
   assert_eq (ShiftRightChip.sra_msb_v0123 local) (msb * ShiftRightChip.v_0123 local)%F ++
   U16MSBOperation.eval_msb (limb1 a) (ShiftRightChip.srw_msb local) is_word ++
   when_not is_word (assert_zero srw)) ++
  flat_map (ShiftRightChip.moved not_word local) (seq 0 4) ++
  (when is_word (when (limb0 sh) (assert_eq (limb0 a) (limb0 r))) ++
   when is_word (when (limb0 sh) (assert_eq (limb1 a) (limb1 r + top)%F)) ++
   when is_word (when (limb1 sh) (assert_eq (limb0 a) (limb1 r + top)%F)) ++
   when is_word (when (limb1 sh) (assert_eq (limb1 a) (msb * Fof (2 ^ 16 - 1))%F)) ++
   when is_word (assert_eq (limb2 a) (srw * Fof (2 ^ 16 - 1))%F) ++
   when is_word (assert_eq (limb3 a) (srw * Fof (2 ^ 16 - 1))%F)).

(** The flags of a row of opcode [o]. *)
Definition right_flags (local : ShiftRightChip.Cols) (o : Opcode) : Prop :=
  let word := match o with SRLW | SRAW => true | _ => false end in
  let arith := match o with SRA | SRAW => true | _ => false end in
  In o ShiftRightChip.opcodes /\
  ShiftRightChip.is_srl local = Fof_bool (negb word && negb arith) /\
  ShiftRightChip.is_sra local = Fof_bool (negb word && arith) /\
  ShiftRightChip.is_srlw local = Fof_bool (word && negb arith) /\
  ShiftRightChip.is_sraw local = Fof_bool (word && arith).

Lemma select_opcodes_right (local : ShiftRightChip.Cols) (o : Opcode) :
  sats (flat_map assert_bool (ShiftRightChip.flags local)) -> sum_flags (ShiftRightChip.flags local) = F1 ->
  weighted (ShiftRightChip.flags local) (map opcode_num ShiftRightChip.opcodes) = Fof (opcode_num o) ->
  right_flags local o.
Proof.
  unfold right_flags. intros Hb Hr Ho. rewrite sum_flags_fold in Hr. unfold ShiftRightChip.flags in Hb. cbn [flat_map] in Hb.
  rewrite !sats_app, !sats_bool in Hb. destruct Hb as (B1 & B2 & B3 & B4 & _).
  pose proof (selected_opcode (ShiftRightChip.flags local) ShiftRightChip.opcodes o eq_refl ltac:(vm_compute; reflexivity)
    ltac:(unfold ShiftRightChip.flags; forall_flags) Hr Ho) as Hsel. clear Hr Ho.
  unfold ShiftRightChip.flags, ShiftRightChip.opcodes in Hsel.
  opcode_case Hsel; subst o; cbn [negb andb Fof_bool ShiftRightChip.opcodes In]; repeat split; auto.
Qed.

(** What a row computes. *)
Section RightRow.
Context (local : ShiftRightChip.Cols).
Abbreviation b := (ALUTypeReader.b (ShiftRightChip.adapter local)).
Abbreviation c := (ALUTypeReader.c (ShiftRightChip.adapter local)).
Abbreviation a := (ShiftRightChip.a local).
Abbreviation nw := (ShiftRightChip.is_srl local + ShiftRightChip.is_sra local)%F.
Context (Vb : valid_word b) (Vc : valid_word c).
Context (Hops : sats (right_ops local nw)) (Hck : sats (right_checks local)).

Lemma right_value_double (o : Opcode) :
  o = SRL \/ o = SRA -> right_flags local o -> valid_word a /\ alu_value o (word_val b) (word_val c) = Ok (word_val a).
Proof.
  intros Ho (_ & E1 & E2 & E3 & E4). unfold right_checks in Hck. rewrite !sats_app in Hck.
  destruct Hck as ((M3 & _ & Mz & Ev & _) & Hmv & _). apply sats_eq in Ev. pose proof (word_val_bound _ Vc) as Bc. unfold is_u in Bc.
  destruct Ho as [-> | ->]; cbn [negb andb Fof_bool] in E1, E2, E3, E4; rewrite E1, E2, ?E3 in *.
  - replace (F1 + F0)%F with F1 in * by ring. apply sats_when_1, sats_zero in Mz.
    destruct (right_value64 local 0 ltac:(auto) Vb Vc Mz Ev Hops Hmv) as [Va Ea]. split; [exact Va|].
    cbn [alu_value]. rewrite Ea, Z.mul_0_l, Z.sub_0_r. f_equal. unfold as_u64. symmetry. apply as_unsigned_id.
    pose proof (word_val_bound _ Vb) as Bb. unfold is_u in Bb. pose proof (shift_amount_bound _ true (proj1 Bc)) as B6. cbv match in B6.
    rewrite shr_div by lia. pose proof (pow2_pos (Z.land (word_val c) 0x3f) ltac:(lia)).
    split; [apply Z.div_pos; lia|]. apply Z.div_lt_upper_bound; [lia | nia].
  - replace (F0 + F1)%F with F1 in * by ring. apply msb_sound in M3; [|apply Vb].
    destruct (right_value64 local (top_bit (limb3 b)) (top_bit_bool _) Vb Vc M3 Ev Hops Hmv) as [Va Ea]. split; [exact Va|].
    cbn [alu_value]. rewrite Ea, (as_i64_sign _ Vb). reflexivity.
Qed.

Lemma right_value_word (o : Opcode) :
  o = SRLW \/ o = SRAW -> right_flags local o -> valid_word a /\ alu_value o (word_val b) (word_val c) = Ok (word_val a).
Proof.
  intros Ho (_ & E1 & E2 & E3 & E4). unfold right_checks in Hck. rewrite !sats_app in Hck.
  destruct Hck as ((_ & M1 & Mz & Ev & Msw & _) & _ & W1 & W2 & W3 & W4 & W5 & W6). apply sats_eq in Ev.
  pose proof (word_val_bound _ Vc) as Bc. unfold is_u in Bc. pose proof (shift_amount_bound _ false (proj1 Bc)) as Bs. cbv match in Bs.
  pose proof (Z.mod_pos_bound (word_val b) (2 ^ 32) ltac:(lia)) as B32.
  assert (Ew : (ShiftRightChip.is_srlw local + ShiftRightChip.is_sraw local)%F = F1)
    by (rewrite E3, E4; destruct Ho as [-> | ->]; cbn [negb andb Fof_bool]; ring).
  assert (En : nw = F0) by (rewrite E1, E2; destruct Ho as [-> | ->]; cbn [negb andb Fof_bool]; ring).
  rewrite Ew in *. rewrite En in Hops. rewrite !sats_when_1 in W1, W2, W3, W4, W5, W6. apply sats_eq in W5, W6.
  destruct Ho as [-> | ->]; cbn [negb andb Fof_bool] in E1, E2, E3, E4.
  - rewrite E1, E3 in Mz. replace (F0 + F1)%F with F1 in Mz by ring. apply sats_when_1, sats_zero in Mz.
    destruct (right_value32 local 0 ltac:(auto) Vb Vc Mz Ev Hops W1 W2 W3 W4) as (U0 & U1 & Eh).
    destruct (sign_filled _ _ U0 U1 Msw W5 W6) as [Va Ea]. split; [exact Va|]. rewrite Ea, Eh. cbn [alu_value].
    do 2 f_equal. unfold as_u32. rewrite (as_unsigned_id 32 (Z.land _ _)) by lia. rewrite shr_div by lia.
    rewrite Z.mul_0_l, Z.add_0_r. reflexivity.
  - rewrite E4 in M1. apply msb_sound in M1; [|apply Vb].
    destruct (right_value32 local (top_bit (limb1 b)) (top_bit_bool _) Vb Vc M1 Ev Hops W1 W2 W3 W4) as (U0 & U1 & Eh).
    destruct (sign_filled _ _ U0 U1 Msw W5 W6) as [Va Ea]. split; [exact Va|]. rewrite Ea. cbn [alu_value].
    rewrite sra_amount, (as_i32_sign _ Vb). do 2 f_equal. symmetry.
    apply (sra_half _ _ _ _ B32 Bs (top_bit_bool _)); [|exact Eh].
    rewrite <- (as_i32_sign _ Vb). exact (as_signed_bound 32 (word_val b) ltac:(lia)).
Qed.

Lemma right_value (o : Opcode) :
  right_flags local o -> valid_word a /\ alu_value o (word_val b) (word_val c) = Ok (word_val a).
Proof.
  intros Hf. pose proof Hf as [Hin _]. unfold ShiftRightChip.opcodes in Hin. cbn [In] in Hin.
  destruct Hin as [E | [E | [E | [E | []]]]]; symmetry in E;
    [apply right_value_double | apply right_value_double | apply right_value_word | apply right_value_word]; auto.
Qed.
End RightRow.

Section SoundRight.
Context (rrs : MajorOpcodes) (cfg : Config) (row : list Emit) (Hs : sats row).

Lemma shift_right_chip_steps (local : ShiftRightChip.Cols) :
  ShiftRightChip.eval rrs cfg local = Ok row -> sum_flags (ShiftRightChip.flags local) = F1 -> step_row row.
Proof.
  intros E Hr. unfold ShiftRightChip.eval in E. chip_row E.
  assert (Er : (ShiftRightChip.is_srl local + ShiftRightChip.is_sra local + ShiftRightChip.is_srlw local
                + ShiftRightChip.is_sraw local)%F = F1) by exact Hr. rewrite Er in *.
  apply chip_step; [unfold when_not; auto 30 with quiet | auto with quiet | assumption |].
  intros i Vb Vc Eo Ho. rewrite !sats_app in Ho. destruct Ho as (Hfl & _ & _ & Hc & Hi & Hv & Hsp & Hr' & Hck).
  apply right_value; [exact Vb | exact Vc | unfold right_ops; rewrite !sats_app; tauto | |].
  - unfold right_checks. rewrite !sats_app. exact Hck.
  - apply select_opcodes_right; assumption.
Qed.
End SoundRight.
