(* ===== verification/ShiftComplete.v ===== *)
(** * Trace generation of the shift chips

    The rows [event_to_row] makes for shifts satisfy the constraints of
    [ShiftLeftChip] and [ShiftRightChip], with exactly the recorded lookups. *)

From Stdlib Require Import ZArith Lia List Bool Permutation.
From S2P Require Import Prelude Words Isa Field Air AirFacts SmallInverse Operations Compare Mul.
From S2P Require Import Adapter AdapterFacts Row Readers AluChips AluChipFacts MemoryChips MemoryChipFacts MemoryComplete.
From S2P Require Import ControlComplete ShiftChips ShiftFacts.
Import ListNotations.
Open Scope Z_scope.

(** ** The amount *)

Lemma bit_col_val (c i : Z) : 0 <= i -> Fval (bit_col c i) = c / 2 ^ i mod 2.
Proof.
  intros Hi. unfold bit_col. change 1 with (2 ^ 1 - 1). rewrite land_mask, shr_div by lia. change (2 ^ 1) with 2.
  apply Fval_of_small. unfold KOALA_BEAR_ORDER. pose proof (Z.mod_pos_bound (c / 2 ^ i) 2). lia.
Qed.

Lemma bit_col_bool (c i : Z) : 0 <= i -> is_bool (bit_col c i).
Proof.
  intros Hi. pose proof (bit_col_val c i Hi) as E. pose proof (Z.mod_pos_bound (c / 2 ^ i) 2 ltac:(lia)).
  assert (Hc : Fval (bit_col c i) = 0 \/ Fval (bit_col c i) = 1) by lia.
  destruct Hc as [Hc | Hc]; [left | right]; apply Fval_inj; exact Hc.
Qed.

Lemma bits_nibble (c : Z) : nibble (bit_col c 0) (bit_col c 1) (bit_col c 2) (bit_col c 3) = c mod 16.
Proof.
  unfold nibble. rewrite !bit_col_val by lia. change (2 ^ 0) with 1. change (2 ^ 1) with 2. change (2 ^ 2) with 4.
  change (2 ^ 3) with 8. dlia.
Qed.

Lemma bits_pair (c : Z) : pair_val (bit_col c 4) (bit_col c 5) = c / 16 mod 4.
Proof. unfold pair_val. rewrite !bit_col_val by lia. change (2 ^ 4) with 16. change (2 ^ 5) with 32. dlia. Qed.

Lemma low_bits_complete (c : Z) :
  is_u16 c ->
  complete (low_bits_check [bit_col c 0; bit_col c 1; bit_col c 2; bit_col c 3; bit_col c 4; bit_col c 5] (Fof c) F1)
    (add_bit_range_check (shr c 6) 10).
Proof.
  intros Hc. unfold is_u16, is_u in Hc. apply complete_asserts_app.
  - apply complete_flags. repeat (apply Forall_cons; [apply bit_col_bool; lia|]). apply Forall_nil.
  - rewrite shr_div by lia. change (2 ^ 6) with 64. apply complete_range; [|lia|dlia].
    rewrite bits_sum6, bits_nibble, bits_pair. apply Finv_mul_solve; [apply Fof_neq_0; unfold KOALA_BEAR_ORDER; lia|].
    rewrite Fof_sub, Fof_mul. f_equal. dlia.
Qed.

Lemma limb_shift_complete (i : Z) (amount : F) :
  0 <= i < 4 -> amount = Fof i -> complete (limb_shift_flags (one_hot4 i) amount F1) [].
Proof.
  intros Hi ->. assert (E : i = 0 \/ i = 1 \/ i = 2 \/ i = 3) by lia.
  apply complete_asserts; [|reflexivity]. apply satsb_spec.
  destruct E as [-> | [-> | [-> | ->]]]; vm_compute; reflexivity.
Qed.

(** ** Splitting limbs *)

Lemma split_complete (x n m : Z) :
  is_u16 x -> 0 <= n -> 0 <= m -> n + m = 16 ->
  complete (split_limb (Fof x * Fof (2 ^ m))%F (Fof (2 ^ m)) (Fof (x mod 2 ^ n)) (Fof n) (Fof (x / 2 ^ n)) (Fof m) F1)
    (add_bit_range_check (x mod 2 ^ n) n ++ add_bit_range_check (x / 2 ^ n) m).
Proof.
  intros Hx Hn Hm E. unfold is_u16, is_u in Hx. pose proof (pow2_pos n Hn). pose proof (pow2_pos m Hm).
  assert (P : 2 ^ 16 = 2 ^ n * 2 ^ m) by (rewrite <- Z.pow_add_r by lia; f_equal; lia).
  apply complete_app; [|rewrite <- (app_nil_r (add_bit_range_check _ _)); apply complete_app].
  - apply complete_range; [reflexivity | lia | apply Z.mod_pos_bound; lia].
  - apply complete_range; [reflexivity | lia | split; [apply Z.div_pos; lia | apply Z.div_lt_upper_bound; lia]].
  - apply complete_eq. rewrite !Fof_mul, Fof_add, P. f_equal. pose proof (Z_div_mod_eq_full x (2 ^ n)). nia.
Qed.

(** The parts as trace generation computes them. *)
Lemma lower_part (x n : Z) : is_u16 x -> 0 <= n <= 16 -> as_u16 (Z.land x (shl 32 1 n - 1)) = x mod 2 ^ n.
Proof.
  intros Hx Hn. assert (2 ^ n <= 2 ^ 16) by (apply Z.pow_le_mono_r; lia). pose proof (pow2_pos n ltac:(lia)).
  unfold shl, as_unsigned. rewrite Z.shiftl_1_l, (Z.mod_small (2 ^ n)) by lia. rewrite land_mask by lia.
  apply Z.mod_small. pose proof (Z.mod_pos_bound x (2 ^ n)). lia.
Qed.

Lemma higher_part (x n : Z) : is_u16 x -> 0 <= n -> as_u16 (shr x n) = x / 2 ^ n.
Proof.
  intros Hx Hn. rewrite shr_div by lia. apply Z.mod_small. unfold is_u16, is_u in Hx. pose proof (pow2_pos n Hn).
  split; [apply Z.div_pos; lia|]. apply Z.le_lt_trans with x; [|lia]. apply Z.div_le_upper_bound; nia.
Qed.

Lemma power_16 (n : Z) : 0 <= n <= 16 -> shl 32 1 n = 2 ^ n.
Proof.
  intros Hn. assert (2 ^ n <= 2 ^ 16) by (apply Z.pow_le_mono_r; lia). pose proof (pow2_pos n ltac:(lia)).
  unfold shl, as_unsigned. rewrite Z.shiftl_1_l. apply Z.mod_small. lia.
Qed.

Lemma one_hot_other (i : Z) (j : nat) :
  0 <= i < 4 -> nth j (word_list (one_hot4 i)) F0 <> F0 -> j = Z.to_nat i.
Proof.
  intros Hi Hn. assert (E : i = 0 \/ i = 1 \/ i = 2 \/ i = 3) by lia.
  do 4 (destruct j as [|j]; [destruct E as [-> | [-> | [-> | ->]]]; try reflexivity; exfalso; apply Hn; reflexivity|]).
  exfalso. apply Hn. destruct j; reflexivity.
Qed.

(** A frame whose only extra constraint is that the destination is not [x0]. *)
Lemma shift_frame_complete (cfg : Config) (user : bool) (event : AluEvent) (rec : ALUTypeRecord) (op : F) (consts : list F)
    (value : Word F) :
  cfg_ok cfg user -> alu_event_ok event -> alu_record_ok event rec ->
  let '(ad, ev) := ALUTypeReader.populate rec in
  let '(st, ev_st) := CPUState.populate (ev_clk event) (ev_pc event) in
  complete (frame cfg (trust_cols user (at_is_untrusted rec)) st ad op consts value (pc_inc st)
              (assert_zero (ALUTypeReader.op_a_0 ad)) F1) (ev_st ++ ev).
Proof.
  intros Hcfg He Hr. destruct (alu_populate_operands event rec Hr) as (_ & _ & E0). destruct He as [Hc _ _ _].
  destruct Hr as (Ha & Aa & Ab & _ & Ac).
  assert (Ac' : match at_c rec with Some r => access_at (ev_clk event) 2 r | None => True end)
    by (destruct (at_c rec); tauto).
  pose proof (fun h p t => alu_type_complete (ev_clk event) rec h p op value t Hc (fun E => False_ind _ (Ha E)) Aa Ab Ac') as Hrd.
  destruct (ALUTypeReader.populate rec) as [ad ev]. cbn [fst] in E0.
  pose proof (frame_complete cfg user (at_is_untrusted rec) ad op consts value (assert_zero (ALUTypeReader.op_a_0 ad))
                (ev_clk event) (ev_pc event) ev Hc Hcfg) as Hfc.
  destruct (CPUState.populate _ _). apply Hfc; [apply complete_zero, E0 | exact Hrd].
Qed.

(** ** The powers of two *)

Lemma bit_col_low (c i : Z) : 0 <= i < 4 -> bit_col c i = bit_col (c mod 16) i.
Proof.
  intros Hi. apply Fval_inj. rewrite !bit_col_val by lia. assert (E : i = 0 \/ i = 1 \/ i = 2 \/ i = 3) by lia.
  destruct E as [-> | [-> | [-> | ->]]];
    [change (2 ^ 0) with 1 | change (2 ^ 1) with 2 | change (2 ^ 2) with 4 | change (2 ^ 3) with 8]; dlia.
Qed.

Lemma land_low (c n : Z) : 0 <= n <= 4 -> Z.land c (2 ^ n - 1) = Z.land (c mod 16) (2 ^ n - 1).
Proof.
  intros Hn. rewrite !land_mask by lia. change 16 with (2 ^ 4). rewrite mod_mod_le by lia. reflexivity.
Qed.

Lemma nibble_cases (P : Z -> Prop) : (forall n, (n < 16)%nat -> P (Z.of_nat n)) -> forall c, P (c mod 16).
Proof.
  intros H c. pose proof (Z.mod_pos_bound c 16 ltac:(lia)). rewrite <- (Z2Nat.id (c mod 16)) by lia. apply H. lia.
Qed.

Definition left_powersb (c : Z) : bool :=
  let v n := Fof (shl 16 1 (Z.land c n)) in
  Feqb (v 3) ((bit_col c 0 + F1) * (bit_col c 1 * Fof 3 + F1))%F &&
  Feqb (v 7) (v 3 * (bit_col c 2 * Fof 15 + F1))%F && Feqb (v 15) (v 7 * (bit_col c 3 * Fof 255 + F1))%F &&
  Feqb (v 15) (Fof (2 ^ c)).

Definition right_powersb (c : Z) : bool :=
  let v n m := Fof (shl 32 1 (n - Z.land c m)) in
  Feqb (v 4 3) ((F1 - bit_col c 0 + F1) * Fof 2 * ((F1 - bit_col c 1) * Fof 3 + F1))%F &&
  Feqb (v 8 7) (v 4 3 * ((F1 - bit_col c 2) * Fof 15 + F1))%F &&
  Feqb (v 16 15) (v 8 7 * ((F1 - bit_col c 3) * Fof 255 + F1))%F && Feqb (v 16 15) (Fof (2 ^ (16 - c))).

Lemma all_powers : forallb (fun n => left_powersb (Z.of_nat n) && right_powersb (Z.of_nat n)) (seq 0 16) = true.
Proof. vm_compute. reflexivity. Qed.

Lemma powers_hold (c : Z) : left_powersb (c mod 16) = true /\ right_powersb (c mod 16) = true.
Proof.
  pose proof all_powers as H. rewrite forallb_forall in H.
  apply (nibble_cases (fun k => left_powersb k = true /\ right_powersb k = true)). intros n Hn.
  apply andb_true_iff, H, in_seq. lia.
Qed.

Lemma left_powers (c : Z) :
  let v n := Fof (shl 16 1 (Z.land c n)) in
  v 3 = ((bit_col c 0 + F1) * (bit_col c 1 * Fof 3 + F1))%F /\ v 7 = (v 3 * (bit_col c 2 * Fof 15 + F1))%F /\
  v 15 = (v 7 * (bit_col c 3 * Fof 255 + F1))%F /\ v 15 = Fof (2 ^ (c mod 16)).
Proof.
  cbv beta zeta. rewrite (land_low c 2 ltac:(lia) : Z.land c 3 = Z.land (c mod 16) 3),
    (land_low c 3 ltac:(lia) : Z.land c 7 = Z.land (c mod 16) 7), (land_low c 4 ltac:(lia) : Z.land c 15 = Z.land (c mod 16) 15).
  rewrite (bit_col_low c 0), (bit_col_low c 1), (bit_col_low c 2), (bit_col_low c 3) by lia.
  destruct (powers_hold c) as [H _]. unfold left_powersb in H. rewrite !andb_true_iff, !Feqb_eq in H. tauto.
Qed.

Lemma right_powers (c : Z) :
  let v n m := Fof (shl 32 1 (n - Z.land c m)) in
  v 4 3 = ((F1 - bit_col c 0 + F1) * Fof 2 * ((F1 - bit_col c 1) * Fof 3 + F1))%F /\
  v 8 7 = (v 4 3 * ((F1 - bit_col c 2) * Fof 15 + F1))%F /\
  v 16 15 = (v 8 7 * ((F1 - bit_col c 3) * Fof 255 + F1))%F /\ v 16 15 = Fof (2 ^ (16 - c mod 16)).
Proof.
  cbv beta zeta. rewrite (land_low c 2 ltac:(lia) : Z.land c 3 = Z.land (c mod 16) 3),
    (land_low c 3 ltac:(lia) : Z.land c 7 = Z.land (c mod 16) 7), (land_low c 4 ltac:(lia) : Z.land c 15 = Z.land (c mod 16) 15).
  rewrite (bit_col_low c 0), (bit_col_low c 1), (bit_col_low c 2), (bit_col_low c 3) by lia.
  destruct (powers_hold c) as [_ H]. unfold right_powersb in H. rewrite !andb_true_iff, !Feqb_eq in H. tauto.
Qed.

(** ** The limbs of a left shift *)

Definition left_lower (k x : Z) : F := Fof (x mod 2 ^ (16 - k)).
Definition left_higher (k x : Z) : F := Fof (x / 2 ^ (16 - k)).
Definition left_result (k b : Z) : Word F :=
  let x := limb16 b in
  mkWord (left_lower k (x 0) * Fof (2 ^ k))%F (left_lower k (x 1) * Fof (2 ^ k) + left_higher k (x 0))%F
    (left_lower k (x 2) * Fof (2 ^ k) + left_higher k (x 1))%F (left_lower k (x 3) * Fof (2 ^ k) + left_higher k (x 2))%F.

Lemma part_vals (n x : Z) :
  0 <= n <= 16 -> is_u16 x -> Fval (Fof (x mod 2 ^ n)) = x mod 2 ^ n /\ Fval (Fof (x / 2 ^ n)) = x / 2 ^ n.
Proof.
  intros Hn Hx. unfold is_u16, is_u in Hx. pose proof (pow2_pos n ltac:(lia)).
  assert (2 ^ n <= 2 ^ 16) by (apply Z.pow_le_mono_r; lia). pose proof (Z.mod_pos_bound x (2 ^ n)).
  assert (0 <= x / 2 ^ n <= x) by (split; [apply Z.div_pos; lia | apply Z.div_le_upper_bound; nia]).
  split; apply Fval_of_small; unfold KOALA_BEAR_ORDER; lia.
Qed.

Lemma left_result_val (k b i : Z) :
  0 <= k <= 15 -> 0 <= i < 4 -> is_u64 b ->
  valid_word (move_left i (left_result k b)) /\ word_val (move_left i (left_result k b)) = shl 64 b (k + 16 * i).
Proof.
  intros Hk Hi Hb. destruct (shifted_left k (word_from_u64 b) (left_result k b)
    (mkWord (left_lower k (limb16 b 0)) (left_lower k (limb16 b 1)) (left_lower k (limb16 b 2)) (left_lower k (limb16 b 3)))
    (mkWord (left_higher k (limb16 b 0)) (left_higher k (limb16 b 1)) (left_higher k (limb16 b 2)) (left_higher k (limb16 b 3))))
    as [Vr [q Eq]]; try reflexivity; try assumption.
  - apply valid_word_from.
  - rewrite word_from_u64_limbs. unfold word_list. cbn [limb0 limb1 limb2 limb3 combine In].
    assert (Hp : forall j, Fval (left_lower k (limb16 b j)) = Fval (Fof (limb16 b j)) mod 2 ^ (16 - k) /\
                           Fval (left_higher k (limb16 b j)) = Fval (Fof (limb16 b j)) / 2 ^ (16 - k)).
    { intros j. rewrite Fval_limb16. apply part_vals; [lia | apply limb16_bound]. }
    intros x l h [E | [E | [E | [E | []]]]]; injection E as <- <- <-; apply Hp.
  - rewrite word_val_from in Eq by exact Hb. apply moved_left; [exact Hi | lia | exact Vr | exists q; exact Eq].
Qed.

(** The number of limbs to shift by. *)
Definition limb_amount (c0 : Z) (nw : bool) : Z :=
  Z.land (shr c0 4) 1 + 2 * Z.land (shr c0 5) 1 * (if nw then 1 else 0).

Lemma limb_amount_spec (c : Z) (nw : bool) :
  is_u64 c ->
  let c0 := limb16 c 0 in let i := limb_amount c0 nw in
  0 <= i < (if nw then 4 else 2) /\ Z.land c (if nw then 0x3f else 0x1f) = c0 mod 16 + 16 * i /\
  (bit_col c0 4 + bit_col c0 5 * Fof 2 * Fof_bool nw)%F = Fof i.
Proof.
  intros Hc. cbv zeta. pose proof (valid_word_from c) as Vc.
  destruct (low_amount (word_from_u64 c) (bit_col (limb16 c 0) 0) (bit_col (limb16 c 0) 1) (bit_col (limb16 c 0) 2)
    (bit_col (limb16 c 0) 3) (bit_col (limb16 c 0) 4) (bit_col (limb16 c 0) 5) Vc) as [L6 L5].
  - rewrite word_from_u64_limbs. cbn [limb0]. rewrite Fval_limb16, bits_nibble. reflexivity.
  - rewrite word_from_u64_limbs. cbn [limb0]. rewrite Fval_limb16, bits_pair. reflexivity.
  - rewrite word_val_from in L6, L5 by exact Hc. rewrite bits_nibble, bits_pair in L6, L5.
    assert (Ei : limb_amount (limb16 c 0) nw = limb16 c 0 / 16 mod 2 + 2 * (limb16 c 0 / 32 mod 2) * (if nw then 1 else 0)).
    { unfold limb_amount. change 1 with (2 ^ 1 - 1) at 1 2. rewrite !land_mask, !shr_div by lia. reflexivity. }
    rewrite Ei. split; [destruct nw; dlia|]. split; [destruct nw; [rewrite L6 | rewrite L5]; dlia|].
    rewrite <- (Fof_val (bit_col _ 4)), <- (Fof_val (bit_col _ 5)), !bit_col_val by lia.
    change (2 ^ 4) with 16. change (2 ^ 5) with 32. destruct nw; cbn [Fof_bool]; apply (Rep_eq _ _); lia.
Qed.

(** ** [ShiftLeftChip] *)

(** What the chips need of the major opcodes. *)
Definition shift_rrs_ok (rrs : MajorOpcodes) : Prop :=
  rrs_ok rrs /\ OPCODE_OP rrs - OPCODE_OP_IMM rrs = OPCODE_OP_32 rrs - OPCODE_OP_IMM_32 rrs.

Lemma shift_left_consts (rrs : MajorOpcodes) (local : ShiftLeftChip.Cols) :
  shift_rrs_ok rrs -> exists cs, ShiftLeftChip.consts rrs local = Ok cs.
Proof.
  intros [[H1 H2] H3]. unfold ShiftLeftChip.consts.
  assert (E1 : base_imm_diff rrs SLL = Ok (OPCODE_OP rrs - OPCODE_OP_IMM rrs)) by (apply checked_sub_ok, H1).
  assert (E2 : base_imm_diff rrs SLLW = Ok (OPCODE_OP_32 rrs - OPCODE_OP_IMM_32 rrs)) by (apply checked_sub_ok, H2).
  rewrite E1, E2. cbn -[Z.eqb]. rewrite <- H3, Z.eqb_refl. cbn. eauto.
Qed.

Lemma moved_complete (cond : F) (local : ShiftLeftChip.Cols) (i : Z) (n : nat) :
  0 <= i < Z.of_nat n -> (n <= 4)%nat -> ShiftLeftChip.shift_u16 local = one_hot4 i ->
  (cond <> F0 -> forall j, (j < n)%nat ->
     nth j (word_list (ShiftLeftChip.a local)) F0 = nth j (word_list (move_left i (ShiftLeftChip.limb_result local))) F0) ->
  complete (flat_map (fun i => flat_map (ShiftLeftChip.moved cond local i) (seq 0 n)) (seq 0 n)) [].
Proof.
  intros Hi Hn Es Ha. apply complete_flat_map. intros i' Hi'. apply complete_flat_map. intros j Hj. apply in_seq in Hi', Hj.
  unfold ShiftLeftChip.moved. rewrite Es.
  assert (Hm : cond <> F0 -> nth i' (word_list (one_hot4 i)) F0 <> F0 ->
            nth j (word_list (ShiftLeftChip.a local)) F0
            = if (j <? i')%nat then F0 else nth (j - i') (word_list (ShiftLeftChip.limb_result local)) F0).
  { intros Hc Hs. apply one_hot_other in Hs; [|lia]. subst i'. rewrite (Ha Hc j) by lia.
    unfold move_left, word_list at 1. cbn [limb0 limb1 limb2 limb3].
    do 4 (destruct j as [|j]; [reflexivity|]). lia. }
  destruct (j <? i')%nat; [apply complete_when2_zero | apply complete_when2_eq]; exact Hm.
Qed.

Lemma left_splits_complete (k b : Z) :
  0 <= k <= 15 ->
  let x := limb16 b in
  let split j := split_limb (Fof (x j) * Fof (2 ^ k))%F (Fof (2 ^ k)) (left_lower k (x j)) (Fof 16 - Fof k)%F
                   (left_higher k (x j)) (Fof k) F1 in
  let ev j := add_bit_range_check (x j mod 2 ^ (16 - k)) (16 - k) ++ add_bit_range_check (x j / 2 ^ (16 - k)) k in
  complete (split 0 ++ split 1 ++ split 2 ++ split 3) (ev 0 ++ ev 1 ++ ev 2 ++ ev 3).
Proof.
  intros Hk. cbv zeta. rewrite Fof_sub.
  assert (Hs : forall j, complete (split_limb (Fof (limb16 b j) * Fof (2 ^ k))%F (Fof (2 ^ k)) (left_lower k (limb16 b j))
     (Fof (16 - k)) (left_higher k (limb16 b j)) (Fof k) F1)
     (add_bit_range_check (limb16 b j mod 2 ^ (16 - k)) (16 - k) ++ add_bit_range_check (limb16 b j / 2 ^ (16 - k)) k)).
  { intros j. apply split_complete; try lia. apply limb16_bound. }
  do 3 (apply complete_app; [apply Hs|]). apply Hs.
Qed.

Lemma u16F_u16 (x : F) : is_u16F x -> is_u16 (Fval x).
Proof. intros H. unfold is_u16F in H. unfold is_u. F_bounds. lia. Qed.

(** The word [SLLW] leaves, and the limb whose sign bit it records. *)
Lemma sllw_word (b s : Z) (w : Word F) :
  0 <= s -> valid_word w -> word_val w = shl 64 b s ->
  word_from_u64 (as_u64 (as_i32 (as_i64 (Z.shiftl (as_i64 b) s))))
  = sign_extend_half (limb0 w) (limb1 w) (Fof (if Fval (limb1 w) <? 2 ^ 15 then 0 else 1)) /\
  nth 1 (u32_to_u16_limbs (as_u32 (as_i64 (Z.shiftl (as_i64 b) s)))) 0 = Fval (limb1 w).
Proof.
  intros Hs Vw Ew. rewrite sllw_value, <- Ew, (word_val_mod32 _ Vw) by exact Hs.
  assert (E32 : as_u32 (as_i64 (Z.shiftl (as_i64 b) s)) = half_val (limb0 w) (limb1 w)).
  { rewrite <- (word_val_mod32 _ Vw), Ew. unfold as_i64, shl, as_u32, as_unsigned. apply mod_32_64.
    rewrite as_signed_cong, Zmod_mod, !Z.shiftl_mul_pow2 by lia. rewrite Zmult_mod, as_signed_cong, <- Zmult_mod by lia.
    reflexivity. }
  destruct Vw as (V0 & V1 & _). split.
  - destruct (sign_extend_half_spec _ _ V0 V1) as [Ve Ee]. rewrite <- Ee. apply word_from_val, Ve.
  - rewrite E32. cbn [nth u32_to_u16_limbs]. unfold as_unsigned. rewrite shr_div by lia.
    unfold half_val, is_u16F in *. F_bounds. rewrite Z.mul_comm, Z.div_add, Z.div_small by lia. apply Z.mod_small. lia.
Qed.

(** The row of a left shift, with its parts as functions of the operands. *)
Definition left_row (st : CPUState.Cols) (ad : ALUTypeReader.Cols) (a b c : Z) (sll sllw imm : bool)
    (msb : U16MSBOperation.Cols) (tr : AdapterCols) : ShiftLeftChip.Cols :=
  let c0 := limb16 c 0 in
  let k := c0 mod 16 in
  let x := limb16 b in
  let v n := Fof (shl 16 1 (Z.land c0 n)) in
  ShiftLeftChip.mkCols st ad (word_from_u64 a) (bit_col c0 0) (bit_col c0 1) (bit_col c0 2) (bit_col c0 3) (bit_col c0 4)
    (bit_col c0 5) (v 3) (v 7) (v 15) (one_hot4 (limb_amount c0 sll))
    (mkWord (left_lower k (x 0)) (left_lower k (x 1)) (left_lower k (x 2)) (left_lower k (x 3)))
    (mkWord (left_higher k (x 0)) (left_higher k (x 1)) (left_higher k (x 2)) (left_higher k (x 3)))
    (left_result k b) msb (Fof_bool sll) (Fof_bool sllw) (Fof_bool (sllw && imm)) tr.

Definition left_split_events (k b : Z) : list ByteLookupEvent :=
  let x := limb16 b in
  let ev j := add_bit_range_check (x j mod 2 ^ (16 - k)) (16 - k) ++ add_bit_range_check (x j / 2 ^ (16 - k)) k in
  ev 0 ++ ev 1 ++ ev 2 ++ ev 3.

Lemma land_nibble (c : Z) : as_u8 (Z.land c 0xF) = c mod 16.
Proof.
  change 0xF with (2 ^ 4 - 1). rewrite land_mask by lia. change (2 ^ 4) with 16. unfold as_unsigned. apply Z.mod_small.
  pose proof (Z.mod_pos_bound c 16). lia.
Qed.

Lemma left_row_eq (user : bool) (event : AluEvent) (rec : ALUTypeRecord) :
  let sll := opcode_eqb (ev_opcode event) SLL in
  let sllw := opcode_eqb (ev_opcode event) SLLW in
  let c0 := limb16 (ev_c event) 0 in
  let '(ad, ev1) := ALUTypeReader.populate rec in
  let '(st, ev5) := CPUState.populate (ev_clk event) (ev_pc event) in
  let '(msb, ev2) := msb_if sllw
    (nth 1 (u32_to_u16_limbs (as_u32 (as_i64 (Z.shiftl (as_i64 (ev_b event)) (Z.land c0 0x1f))))) 0) in
  ShiftLeftChip.event_to_row user event rec =
  (left_row st ad (ev_a event) (ev_b event) (ev_c event) sll sllw (at_is_imm rec) msb (trust_cols user (at_is_untrusted rec)),
   ev1 ++ ev2 ++ add_bit_range_check (shr c0 6) 10 ++ left_split_events (c0 mod 16) (ev_b event) ++ ev5).
Proof.
  cbv zeta. unfold ShiftLeftChip.event_to_row. destruct (ALUTypeReader.populate rec) as [ad ev1],
    (CPUState.populate (ev_clk event) (ev_pc event)) as [st ev5].
  rewrite !u64_to_u16_limbs_eq. cbn [nth]. destruct (msb_if _ _) as [msb ev2]. unfold left_row, left_split_events.
  rewrite land_nibble. cbn [flat_map nth].
  assert (B : 0 <= limb16 (ev_c event) 0 mod 16 < 16) by (apply Z.mod_pos_bound; lia).
  rewrite !lower_part, !higher_part, power_16 by (lia || apply limb16_bound). rewrite app_nil_r, <- !app_assoc. reflexivity.
Qed.

(** The constraints on the result of a left shift. *)
Definition left_values (local : ShiftLeftChip.Cols) : list Emit :=
  let msb := U16MSBOperation.msb (ShiftLeftChip.sllw_msb local) in
  let a := ShiftLeftChip.a local in
  flat_map (fun i => flat_map (ShiftLeftChip.moved (ShiftLeftChip.is_sll local) local i) (seq 0 4)) (seq 0 4) ++
  flat_map (fun i => flat_map (ShiftLeftChip.moved (ShiftLeftChip.is_sllw local) local i) (seq 0 2)) (seq 0 2) ++
  (when (ShiftLeftChip.is_sllw local) (assert_eq (msb * Fof (2 ^ 16 - 1))%F (limb2 a)) ++
   when (ShiftLeftChip.is_sllw local) (assert_eq (msb * Fof (2 ^ 16 - 1))%F (limb3 a))) ++
  U16MSBOperation.eval_msb (limb1 a) (ShiftLeftChip.sllw_msb local) (ShiftLeftChip.is_sllw local).

Section LeftRow.
Context (st : CPUState.Cols) (ad : ALUTypeReader.Cols) (a b c : Z) (imm : bool) (msb : U16MSBOperation.Cols) (tr : AdapterCols).
Context (Hb : is_u64 b) (Hc : is_u64 c).
Abbreviation c0 := (limb16 c 0).
Abbreviation row sll sllw m := (left_row st ad a b c sll sllw imm m tr).

Lemma left_ops_complete (sll sllw : bool) :
  ALUTypeReader.b ad = word_from_u64 b -> ALUTypeReader.c ad = word_from_u64 c ->
  complete (left_ops (row sll sllw msb)) (add_bit_range_check (shr c0 6) 10 ++ left_split_events (c0 mod 16) b).
Proof.
  intros Eb Ec. destruct (limb_amount_spec c sll Hc) as (Hi & _ & Ea). destruct (left_powers c0) as (P1 & P2 & P3 & P4).
  assert (B : 0 <= c0 mod 16 <= 15) by (pose proof (Z.mod_pos_bound c0 16); lia).
  unfold left_ops, left_row, ShiftLeftChip.c_bits.
  cbn [ShiftLeftChip.c_bit0 ShiftLeftChip.c_bit1 ShiftLeftChip.c_bit2 ShiftLeftChip.c_bit3 ShiftLeftChip.c_bit4
       ShiftLeftChip.c_bit5 ShiftLeftChip.v_01 ShiftLeftChip.v_012 ShiftLeftChip.v_0123 ShiftLeftChip.lower_limb
       ShiftLeftChip.higher_limb ShiftLeftChip.limb_result ShiftLeftChip.adapter ShiftLeftChip.shift_u16
       ShiftLeftChip.is_sll firstn].
  rewrite Eb, Ec, !word_from_u64_limbs, bits_sum4, bits_nibble. cbn [limb0 limb1 limb2 limb3]. rewrite <- P1, <- P2, <- P3.
  apply complete_app; [apply low_bits_complete, limb16_bound|].
  apply complete_asserts_app; [apply limb_shift_complete; [destruct sll; lia | exact Ea]|].
  apply complete_asserts_app; [repeat apply complete_asserts_app; apply complete_eq; reflexivity|].
  rewrite P4. apply complete_nil_r; [exact (left_splits_complete (c0 mod 16) b B)|].
  repeat apply complete_asserts_app; apply complete_eq; reflexivity.
Qed.

Lemma sll_values_complete :
  alu_value SLL b c = Ok a -> complete (left_values (row true false (U16MSBOperation.mkCols F0))) [].
Proof.
  intros Ha. apply Ok_inj in Ha. destruct (limb_amount_spec c true Hc) as (Hi & La & _).
  destruct (left_result_val (c0 mod 16) b (limb_amount c0 true)) as [Vw Ew];
    [pose proof (Z.mod_pos_bound c0 16); lia | lia | exact Hb |].
  assert (E : word_from_u64 a = move_left (limb_amount c0 true) (left_result (c0 mod 16) b))
    by (rewrite <- Ha, La, <- Ew; apply word_from_val, Vw).
  unfold left_values.
  apply complete_asserts_app; [apply (moved_complete _ _ (limb_amount c0 true)); [exact Hi | lia | reflexivity|]|].
  - intros _ j Hj. cbn [left_row ShiftLeftChip.a ShiftLeftChip.limb_result]. rewrite E. reflexivity.
  - apply complete_asserts_app; [apply complete_flat_map; intros i' _; apply complete_flat_map; intros j _|].
    + unfold ShiftLeftChip.moved. destruct (j <? i')%nat;
        [apply complete_when2_zero | apply complete_when2_eq]; intros H; contradiction H; reflexivity.
    + apply complete_asserts_app; [|apply msb_off_complete].
      apply complete_asserts_app; apply complete_when_eq; intros H; contradiction H; reflexivity.
Qed.

Lemma sllw_values_complete :
  alu_value SLLW b c = Ok a ->
  let '(m, ev) := msb_if true (nth 1 (u32_to_u16_limbs (as_u32 (as_i64 (Z.shiftl (as_i64 b) (Z.land c0 0x1f))))) 0) in
  complete (left_values (row false true m)) ev.
Proof.
  intros Ha. apply Ok_inj in Ha. destruct (limb_amount_spec c false Hc) as (Hi & La & _).
  assert (Bk : 0 <= c0 mod 16 <= 15) by (pose proof (Z.mod_pos_bound c0 16); lia).
  destruct (left_result_val (c0 mod 16) b (limb_amount c0 false) Bk ltac:(lia) Hb) as [Vw Ew].
  remember (move_left (limb_amount c0 false) (left_result (c0 mod 16) b)) as w eqn:Edw.
  assert (Lc : Z.land c0 0x1f = Z.land c 0x1f).
  { change 0x1f with (2 ^ 5 - 1). rewrite !land_mask by lia. unfold limb16. rewrite Z.mul_0_r, Z.div_1_r, mod_mod_le by lia.
    reflexivity. }
  destruct (sllw_word b (Z.land c 0x1f) w) as [Ea Em]; [rewrite La; lia | exact Vw | rewrite La; exact Ew |].
  rewrite Ha in Ea. rewrite Lc, Em. unfold msb_if. pose proof (msb_complete (Fval (limb1 w)) (u16F_u16 _ (proj1 (proj2 Vw)))) as Hm.
  destruct (U16MSBOperation.populate_msb _) as [[m ev] ?]. destruct Hm as [Hm Em']. rewrite Fof_val in Hm.
  unfold left_values.
  apply complete_asserts_app; [apply complete_flat_map; intros i' _; apply complete_flat_map; intros j _|].
  { unfold ShiftLeftChip.moved. destruct (j <? i')%nat;
      [apply complete_when2_zero | apply complete_when2_eq]; intros H; contradiction H; reflexivity. }
  apply complete_asserts_app; [apply (moved_complete _ _ (limb_amount c0 false)); [exact Hi | lia | reflexivity|]|].
  - intros _ j Hj. cbn [left_row ShiftLeftChip.a ShiftLeftChip.limb_result]. rewrite Ea, <- Edw.
    destruct j as [|[|j]]; [reflexivity | reflexivity | lia].
  - cbn [left_row ShiftLeftChip.a ShiftLeftChip.sllw_msb ShiftLeftChip.is_sllw Fof_bool]. rewrite Ea, Em'.
    apply complete_asserts_app; [|exact Hm].
    apply complete_asserts_app; apply complete_when_eq; reflexivity.
Qed.

Lemma left_values_complete (o : Opcode) :
  o = SLL \/ o = SLLW -> alu_value o b c = Ok a ->
  let '(m, ev) := msb_if (opcode_eqb o SLLW)
    (nth 1 (u32_to_u16_limbs (as_u32 (as_i64 (Z.shiftl (as_i64 b) (Z.land c0 0x1f))))) 0) in
  complete (left_values (row (opcode_eqb o SLL) (opcode_eqb o SLLW) m)) ev.
Proof. intros [-> | ->] Ha; [exact (sll_values_complete Ha) | exact (sllw_values_complete Ha)]. Qed.
End LeftRow.

(** An immediate operand is one without a register access. *)
Definition imm_record_ok (rec : ALUTypeRecord) : Prop :=
  at_is_imm rec = match at_c rec with Some _ => false | None => true end.

Lemma populate_imm (rec : ALUTypeRecord) :
  imm_record_ok rec -> ALUTypeReader.imm_c (fst (ALUTypeReader.populate rec)) = Fof_bool (at_is_imm rec).
Proof.
  intros ->. unfold ALUTypeReader.populate. destruct (RegisterAccess.populate (at_a rec)), (RegisterAccess.populate (at_b rec)).
  destruct (at_c rec) as [r|]; [destruct (RegisterAccess.populate r)|]; reflexivity.
Qed.

Lemma Fof_bool_and (x y : bool) : Fof_bool (x && y) = (Fof_bool x * Fof_bool y)%F.
Proof. destruct x, y; cbn [andb Fof_bool]; ring. Qed.

Lemma left_events_perm (ad m c s st : list ByteLookupEvent) :
  Permutation (((c ++ s) ++ m) ++ st ++ ad) (ad ++ m ++ c ++ s ++ st).
Proof.
  rewrite app_assoc, (Permutation_app_comm _ ad). apply Permutation_app_head.
  rewrite (Permutation_app_comm (c ++ s) m), <- !app_assoc. reflexivity.
Qed.

(** ** [ShiftRightChip] *)

Lemma shift_right_consts (rrs : MajorOpcodes) (local : ShiftRightChip.Cols) :
  shift_rrs_ok rrs -> exists cs, ShiftRightChip.consts rrs local = Ok cs.
Proof.
  intros [[H1 H2] H3]. unfold ShiftRightChip.consts.
  assert (E : forall o, In o ShiftRightChip.opcodes -> base_imm_diff rrs o = Ok (OPCODE_OP rrs - OPCODE_OP_IMM rrs)).
  { intros o [<- | [<- | [<- | [<- | []]]]]; [apply checked_sub_ok, H1.. | rewrite H3 | rewrite H3]; apply checked_sub_ok, H2. }
  assert (Em : mapM (base_imm_diff rrs) ShiftRightChip.opcodes = Ok (repeat (OPCODE_OP rrs - OPCODE_OP_IMM rrs) 4)).
  { unfold ShiftRightChip.opcodes, mapM. rewrite !E by (cbn; tauto). reflexivity. }
  rewrite Em. cbn -[Z.eqb]. rewrite !Z.eqb_refl. cbn. eauto.
Qed.

Definition right_lower (k x : Z) : F := Fof (x mod 2 ^ k).
Definition right_higher (k x : Z) : F := Fof (x / 2 ^ k).
Definition right_result (k b : Z) : Word F :=
  let x := limb16 b in
  let m := Fof (2 ^ (16 - k)) in
  mkWord (right_higher k (x 0) + right_lower k (x 1) * m)%F (right_higher k (x 1) + right_lower k (x 2) * m)%F
    (right_higher k (x 2) + right_lower k (x 3) * m)%F (right_higher k (x 3)).

(** The operand whose limbs are shifted. *)
Definition right_operand (nw : bool) (b : Z) : Z := if nw then b else b mod 2 ^ 32.

Lemma right_operand_limbs (nw : bool) (b : Z) :
  let x := limb16 (right_operand nw b) in
  [x 0; x 1; x 2; x 3] = if nw then u64_to_u16_limbs b else [limb16 b 0; limb16 b 1; 0; 0].
Proof.
  cbv zeta. destruct nw; cbn [right_operand]; [rewrite u64_to_u16_limbs_eq; reflexivity|].
  assert (E0 : limb16 (b mod 2 ^ 32) 0 = limb16 b 0) by (unfold limb16; change (2 ^ (16 * 0)) with 1; dlia).
  assert (E1 : limb16 (b mod 2 ^ 32) 1 = limb16 b 1) by (unfold limb16; change (2 ^ (16 * 1)) with (2 ^ 16); dlia).
  assert (E2 : limb16 (b mod 2 ^ 32) 2 = 0) by (unfold limb16; change (2 ^ (16 * 2)) with (2 ^ 32); dlia).
  assert (E3 : limb16 (b mod 2 ^ 32) 3 = 0) by (unfold limb16; change (2 ^ (16 * 3)) with (2 ^ 48); dlia).
  rewrite E0, E1, E2, E3. reflexivity.
Qed.

Definition right_row (st : CPUState.Cols) (ad : ALUTypeReader.Cols) (a : Word F) (b c : Z) (o : Opcode) (imm : bool)
    (bm sm : U16MSBOperation.Cols) (tr : AdapterCols) : ShiftRightChip.Cols :=
  let c0 := limb16 c 0 in
  let k := c0 mod 16 in
  let word := opcode_eqb o SRLW || opcode_eqb o SRAW in
  let x := limb16 (right_operand (negb word) b) in
  let v n k := Fof (shl 32 1 (n - Z.land c0 k)) in
  ShiftRightChip.mkCols st ad a bm sm (bit_col c0 0) (bit_col c0 1) (bit_col c0 2) (bit_col c0 3) (bit_col c0 4)
    (bit_col c0 5) (U16MSBOperation.msb bm * v 16 15)%F (v 16 15) (v 8 7) (v 4 3)
    (mkWord (right_lower k (x 0)) (right_lower k (x 1)) (right_lower k (x 2)) (right_lower k (x 3)))
    (mkWord (right_higher k (x 0)) (right_higher k (x 1)) (right_higher k (x 2)) (right_higher k (x 3)))
    (right_result k (right_operand (negb word) b)) (one_hot4 (limb_amount c0 (negb word)))
    (Fof_bool (opcode_eqb o SRL)) (Fof_bool (opcode_eqb o SRA)) (Fof_bool (opcode_eqb o SRLW)) (Fof_bool (opcode_eqb o SRAW))
    (Fof_bool (word && imm)) tr.

Definition right_split_events (k b : Z) : list ByteLookupEvent :=
  let x := limb16 b in
  let ev j := add_bit_range_check (x j mod 2 ^ k) k ++ add_bit_range_check (x j / 2 ^ k) (16 - k) in
  ev 0 ++ ev 1 ++ ev 2 ++ ev 3.

(** The recorded sign bit of the operand. *)
Definition right_sign (o : Opcode) (b : Z) : U16MSBOperation.Cols * list ByteLookupEvent :=
  if opcode_eqb o SRA then msb_if true (limb16 b 3) else if opcode_eqb o SRAW then msb_if true (limb16 b 1) else msb_if false 0.

Lemma right_row_eq (user : bool) (event : AluEvent) (rec : ALUTypeRecord) :
  let o := ev_opcode event in
  let word := opcode_eqb o SRLW || opcode_eqb o SRAW in
  let c0 := limb16 (ev_c event) 0 in
  let '(ad, ev1) := ALUTypeReader.populate rec in
  let '(st, ev6) := CPUState.populate (ev_clk event) (ev_pc event) in
  let '(bm, ev3) := right_sign o (ev_b event) in
  let '(sm, ev4) := msb_if word (limb16 (ev_a event) 1) in
  ShiftRightChip.event_to_row user event rec =
  (right_row st ad (word_from_u64 (ev_a event)) (ev_b event) (ev_c event) o (at_is_imm rec) bm sm
     (trust_cols user (at_is_untrusted rec)),
   ev1 ++ add_bit_range_check (shr c0 6) 10 ++ ev3 ++ ev4 ++
   right_split_events (c0 mod 16) (right_operand (negb word) (ev_b event)) ++ ev6).
Proof.
  cbv zeta. unfold ShiftRightChip.event_to_row, right_sign. destruct (ALUTypeReader.populate rec) as [ad ev1],
    (CPUState.populate (ev_clk event) (ev_pc event)) as [st ev6]. unfold right_row, right_split_events.
  set (word := opcode_eqb (ev_opcode event) SRLW || opcode_eqb (ev_opcode event) SRAW).
  assert (El : (if word then [nth 0 (u64_to_u16_limbs (ev_b event)) 0; nth 1 (u64_to_u16_limbs (ev_b event)) 0; 0; 0]
     else u64_to_u16_limbs (ev_b event)) = let x := limb16 (right_operand (negb word) (ev_b event)) in [x 0; x 1; x 2; x 3]).
  { cbv zeta. rewrite (right_operand_limbs (negb word)), u64_to_u16_limbs_eq. destruct word; reflexivity. }
  rewrite El. rewrite !u64_to_u16_limbs_eq. cbn [nth]. rewrite land_nibble. cbn [flat_map].
  assert (B : 0 <= limb16 (ev_c event) 0 mod 16 < 16) by (apply Z.mod_pos_bound; lia).
  destruct (if opcode_eqb (ev_opcode event) SRA then _ else _) as [bm ev3], (msb_if word _) as [sm ev4].
  rewrite !lower_part, !higher_part, (power_16 (16 - limb16 (ev_c event) 0 mod 16)) by (lia || apply limb16_bound). rewrite app_nil_r, <- !app_assoc. reflexivity.
Qed.

Lemma right_splits_complete (k b : Z) :
  0 <= k <= 15 ->
  let x := limb16 b in
  let split j := split_limb (Fof (x j) * Fof (2 ^ (16 - k)))%F (Fof (2 ^ (16 - k))) (right_lower k (x j)) (Fof k)
                   (right_higher k (x j)) (Fof 16 - Fof k)%F F1 in
  complete (split 0 ++ split 1 ++ split 2 ++ split 3) (right_split_events k b).
Proof.
  intros Hk. cbv zeta. rewrite Fof_sub. unfold right_split_events.
  do 3 (apply complete_app; [apply split_complete; try lia; apply limb16_bound|]).
  apply split_complete; try lia. apply limb16_bound.
Qed.

(** The limbs of the operand as the constraints select them. *)
Lemma right_limbs_select (nw : bool) (b : Z) (v : F) :
  let x := limb16 (right_operand nw b) in
  limb16 b 0 = x 0 /\ limb16 b 1 = x 1 /\
  (Fof (limb16 b 2) * v * Fof_bool nw)%F = (Fof (x 2) * v)%F /\ (Fof (limb16 b 3) * v * Fof_bool nw)%F = (Fof (x 3) * v)%F.
Proof.
  cbv zeta. destruct nw; [cbn [right_operand Fof_bool]; repeat split; ring|]. pose proof (right_operand_limbs false b) as E.
  cbv zeta in E. remember (right_operand false b) as x. injection E as E0 E1 E2 E3. rewrite E0, E1, E2, E3. cbn [Fof_bool]. repeat split; apply (Rep_eq _ _); lia.
Qed.

(** Moving the limbs of a 64-bit shift. *)
Lemma moved_right_complete (cond : F) (local : ShiftRightChip.Cols) (i : Z) :
  let msb := U16MSBOperation.msb (ShiftRightChip.b_msb local) in
  0 <= i < 4 -> ShiftRightChip.shift_u16 local = one_hot4 i ->
  (cond <> F0 -> ShiftRightChip.a local = move_right (Z.to_nat i) msb (msb * Fof (2 ^ 16) - ShiftRightChip.sra_msb_v0123 local)%F
                                            (ShiftRightChip.limb_result local)) ->
  complete (flat_map (ShiftRightChip.moved cond local) (seq 0 4)) [].
Proof.
  cbv zeta. intros Hi Es Ha. apply complete_flat_map. intros i' Hi'. apply in_seq in Hi'. unfold ShiftRightChip.moved.
  rewrite Es.
  assert (Hm : cond <> F0 -> nth i' (word_list (one_hot4 i)) F0 <> F0 -> ShiftRightChip.a local =
    move_right i' (U16MSBOperation.msb (ShiftRightChip.b_msb local))
      (U16MSBOperation.msb (ShiftRightChip.b_msb local) * Fof (2 ^ 16) - ShiftRightChip.sra_msb_v0123 local)%F
      (ShiftRightChip.limb_result local)).
  { intros Hc Hs. apply one_hot_other in Hs as ->; [apply Ha, Hc | exact Hi]. }
  apply complete_asserts_app; [apply complete_flat_map; intros j Hj; apply in_seq in Hj|].
  2: apply complete_asserts_app; [|apply complete_flat_map; intros j Hj; apply in_seq in Hj].
  all: apply complete_when2_eq; intros Hc Hs; rewrite (Hm Hc Hs); clear - Hi' Hj || clear - Hi'; unfold move_right, word_list at 1;
    cbn [limb0 limb1 limb2 limb3].
  all: do 4 (destruct i' as [|i']; [try (do 4 (destruct j as [|j]; [try lia; reflexivity|])); try lia; reflexivity|]); lia.
Qed.

Definition is_right_shift (o : Opcode) : Prop := In o ShiftRightChip.opcodes.

(** The sign bit of the operand. *)
Lemma right_sign_complete (o : Opcode) (b : Z) :
  is_right_shift o ->
  let '(bm, ev) := right_sign o b in
  let msb := U16MSBOperation.msb bm in
  (exists m, (m = 0 \/ m = 1) /\ msb = Fof m) /\
  complete (U16MSBOperation.eval_msb (Fof (limb16 b 3)) bm (Fof_bool (opcode_eqb o SRA)) ++
            U16MSBOperation.eval_msb (Fof (limb16 b 1)) bm (Fof_bool (opcode_eqb o SRAW)) ++
            when (Fof_bool (opcode_eqb o SRL) + Fof_bool (opcode_eqb o SRLW))%F (assert_zero msb)) ev.
Proof.
  assert (Hz : forall x, complete (when (F0 + F0)%F (assert_zero x)) []).
  { intros x. apply complete_when_zero. intros H. contradiction H. reflexivity. }
  assert (Hm : forall x : Z, is_bool (Fof (if x <? 2 ^ 15 then 0 else 1)))
    by (intros x; destruct (x <? 2 ^ 15); [left | right]; reflexivity).
  intros [<- | [<- | [<- | [<- | []]]]]; unfold right_sign; opcode_compute; cbv match; unfold msb_if.
  - split; [exists 0; auto|]. do 2 (apply complete_asserts_app; [apply msb_bool_off; left; reflexivity|]).
    apply complete_when_zero. reflexivity.
  - pose proof (msb_complete (limb16 b 3) (limb16_bound b 3)) as H. destruct (U16MSBOperation.populate_msb _) as [[m ev] ?].
    destruct H as [H E]. split; [exists (if limb16 b 3 <? 2 ^ 15 then 0 else 1); destruct (_ <? _); auto|].
    apply complete_nil_r; [exact H|]. apply complete_asserts_app; [apply msb_bool_off; rewrite E; apply Hm | apply Hz].
  - split; [exists 0; auto|]. do 2 (apply complete_asserts_app; [apply msb_bool_off; left; reflexivity|]).
    apply complete_when_zero. reflexivity.
  - pose proof (msb_complete (limb16 b 1) (limb16_bound b 1)) as H. destruct (U16MSBOperation.populate_msb _) as [[m ev] ?].
    destruct H as [H E]. split; [exists (if limb16 b 1 <? 2 ^ 15 then 0 else 1); destruct (_ <? _); auto|].
    apply complete_asserts_app; [apply msb_bool_off; rewrite E; apply Hm|]. apply complete_nil_r; [exact H | apply Hz].
Qed.

Section RightRow.
Context (st : CPUState.Cols) (ad : ALUTypeReader.Cols) (b c : Z) (o : Opcode) (imm : bool) (tr : AdapterCols).
Context (Hb : is_u64 b) (Hc : is_u64 c) (Ho : is_right_shift o).
Context (Eb : ALUTypeReader.b ad = word_from_u64 b) (Ec : ALUTypeReader.c ad = word_from_u64 c).
Abbreviation c0 := (limb16 c 0).
Abbreviation k := (c0 mod 16).
Abbreviation word := (opcode_eqb o SRLW || opcode_eqb o SRAW).
Abbreviation row a bm sm := (right_row st ad a b c o imm bm sm tr).

Lemma right_not_word (a : Word F) (bm sm : U16MSBOperation.Cols) :
  (ShiftRightChip.is_srl (row a bm sm) + ShiftRightChip.is_sra (row a bm sm))%F = Fof_bool (negb word) /\
  (ShiftRightChip.is_srlw (row a bm sm) + ShiftRightChip.is_sraw (row a bm sm))%F = Fof_bool word /\
  right_flags (row a bm sm) o.
Proof.
  unfold right_row, right_flags. cbn [ShiftRightChip.is_srl ShiftRightChip.is_sra ShiftRightChip.is_srlw ShiftRightChip.is_sraw].
  split; [|split; [|split; [exact Ho|]]];
    destruct Ho as [<- | [<- | [<- | [<- | []]]]]; opcode_compute; cbn [orb negb andb Fof_bool]; repeat split; ring.
Qed.

Lemma right_ops_complete (a : Word F) (bm sm : U16MSBOperation.Cols) :
  complete (right_ops (row a bm sm) (Fof_bool (negb word)))
    (add_bit_range_check (shr c0 6) 10 ++ right_split_events k (right_operand (negb word) b)).
Proof.
  destruct (limb_amount_spec c (negb word) Hc) as (Hi & _ & Ea). destruct (right_powers c0) as (P1 & P2 & P3 & P4).
  assert (B : 0 <= k <= 15) by (pose proof (Z.mod_pos_bound c0 16); lia).
  unfold right_ops, right_row, ShiftRightChip.c_bits.
  cbn [ShiftRightChip.c_bit0 ShiftRightChip.c_bit1 ShiftRightChip.c_bit2 ShiftRightChip.c_bit3 ShiftRightChip.c_bit4
       ShiftRightChip.c_bit5 ShiftRightChip.v_01 ShiftRightChip.v_012 ShiftRightChip.v_0123 ShiftRightChip.lower_limb
       ShiftRightChip.higher_limb ShiftRightChip.limb_result ShiftRightChip.adapter ShiftRightChip.shift_u16 firstn].
  rewrite Eb, Ec, !word_from_u64_limbs, bits_sum4, bits_nibble. cbn [limb0 limb1 limb2 limb3]. rewrite <- P1, <- P2, <- P3.
  apply complete_app; [apply low_bits_complete, limb16_bound|].
  apply complete_asserts_app; [apply limb_shift_complete; [destruct (negb word); lia | exact Ea]|].
  apply complete_asserts_app; [repeat apply complete_asserts_app; apply complete_eq; reflexivity|].
  rewrite P4. destruct (right_limbs_select (negb word) b (Fof (2 ^ (16 - k)))) as (E0 & E1 & E2 & E3). rewrite E0, E1, E2, E3.
  apply complete_nil_r; [exact (right_splits_complete k (right_operand (negb word) b) B)|].
  repeat apply complete_asserts_app; apply complete_eq; reflexivity.
Qed.

(** The word the constraints determine. *)
Definition right_half (i : Z) (msb top : F) (r : Word F) : F * F :=
  if i =? 0 then (limb0 r, (limb1 r + top)%F) else ((limb1 r + top)%F, (msb * Fof (2 ^ 16 - 1))%F).

Definition right_target (bm : U16MSBOperation.Cols) : Word F :=
  let local := row word_zero bm (U16MSBOperation.mkCols F0) in
  let msb := U16MSBOperation.msb bm in
  let top := (msb * Fof (2 ^ 16) - ShiftRightChip.sra_msb_v0123 local)%F in
  let r := ShiftRightChip.limb_result local in
  let i := limb_amount c0 (negb word) in
  if word then let '(w0, w1) := right_half i msb top r in sign_extend_half w0 w1 (Fof (if Fval w1 <? 2 ^ 15 then 0 else 1))
  else move_right (Z.to_nat i) msb top r.

(** The four constraints on the lower half of a word shift. *)
Lemma right_half_holds (i : Z) (msb top : F) (r : Word F) :
  0 <= i < 2 ->
  let '(w0, w1) := right_half i msb top r in
  let sh := one_hot4 i in
  complete (when (limb0 sh) (assert_eq w0 (limb0 r))) [] /\ complete (when (limb0 sh) (assert_eq w1 (limb1 r + top)%F)) [] /\
  complete (when (limb1 sh) (assert_eq w0 (limb1 r + top)%F)) [] /\
  complete (when (limb1 sh) (assert_eq w1 (msb * Fof (2 ^ 16 - 1))%F)) [].
Proof.
  intros Hi. assert (E : i = 0 \/ i = 1) by lia. unfold right_half.
  destruct E as [-> | ->]; cbn [Z.eqb]; repeat split; try (cbn; tauto); try reflexivity;
    intros H; try (contradiction H; reflexivity); reflexivity.
Qed.

Lemma complete_app3 (l1 l2 l3 l4 : list Emit) (e e' : list ByteLookupEvent) :
  complete (l1 ++ l2 ++ l3) e -> complete l4 e' -> complete (l1 ++ l2 ++ l3 ++ l4) (e ++ e').
Proof. intros H1 H2. rewrite (app_assoc l2), app_assoc. apply complete_app; assumption. Qed.

Lemma right_checks_double (bm : U16MSBOperation.Cols) (ev : list ByteLookupEvent) :
  word = false -> right_sign o b = (bm, ev) ->
  complete (right_checks (row (right_target bm) bm (U16MSBOperation.mkCols F0))) ev.
Proof.
  intros Hw Hs. pose proof (right_sign_complete o b Ho) as Hsg. rewrite Hs in Hsg. destruct Hsg as [_ Hsg].
  destruct (limb_amount_spec c (negb word) Hc) as (Hi & _ & _). rewrite Hw in Hi.
  destruct (right_not_word (right_target bm) bm (U16MSBOperation.mkCols F0)) as (En & Ew & _). rewrite Hw in En, Ew.
  unfold right_checks. rewrite En, Ew. cbn [negb Fof_bool right_row ShiftRightChip.b_msb ShiftRightChip.srw_msb].
  apply complete_nil_r; [|apply complete_asserts_app].
  - rewrite <- (app_nil_r ev). apply complete_app3.
    + cbn [right_row ShiftRightChip.is_sra ShiftRightChip.is_sraw ShiftRightChip.is_srl ShiftRightChip.is_srlw
           ShiftRightChip.adapter]. rewrite Eb, word_from_u64_limbs. exact Hsg.
    + apply complete_asserts_app; [apply complete_eq; reflexivity|].
      apply complete_asserts_app; [apply msb_off_complete | apply complete_when_zero; reflexivity].
  - apply (moved_right_complete _ _ (limb_amount c0 (negb word))); [rewrite Hw; exact Hi | reflexivity|].
    intros _. unfold right_target. rewrite Hw. reflexivity.
  - repeat apply complete_asserts_app; (apply complete_when2_eq || apply complete_when_eq); intros H; contradiction H; reflexivity.
Qed.

(** The target of a word shift, and what holds of its lower half. *)
Lemma right_target_word (bm : U16MSBOperation.Cols) (m : Z) :
  word = true -> m = 0 \/ m = 1 -> U16MSBOperation.msb bm = Fof m ->
  let local := row (right_target bm) bm (U16MSBOperation.mkCols F0) in
  let top := (U16MSBOperation.msb bm * Fof (2 ^ 16) - ShiftRightChip.sra_msb_v0123 local)%F in
  let r := ShiftRightChip.limb_result local in
  let sh := ShiftRightChip.shift_u16 local in
  exists w0 w1, right_target bm = sign_extend_half w0 w1 (Fof (if Fval w1 <? 2 ^ 15 then 0 else 1)) /\ is_u16F w1 /\
    complete (when (limb0 sh) (assert_eq w0 (limb0 r))) [] /\ complete (when (limb0 sh) (assert_eq w1 (limb1 r + top)%F)) [] /\
    complete (when (limb1 sh) (assert_eq w0 (limb1 r + top)%F)) [] /\
    complete (when (limb1 sh) (assert_eq w1 (U16MSBOperation.msb bm * Fof (2 ^ 16 - 1))%F)) [].
Proof.
  intros Hw Hm Em. cbv zeta. set (local := row (right_target bm) bm (U16MSBOperation.mkCols F0)).
  destruct (limb_amount_spec c (negb word) Hc) as (Hi & _ & _). rewrite Hw in Hi.
  assert (Es : ShiftRightChip.shift_u16 local = one_hot4 (limb_amount c0 false))
    by (subst local; cbn [right_row ShiftRightChip.shift_u16]; rewrite Hw; reflexivity). rewrite Es.
  pose proof (right_half_holds (limb_amount c0 false) (U16MSBOperation.msb bm)
    (U16MSBOperation.msb bm * Fof (2 ^ 16) - ShiftRightChip.sra_msb_v0123 local)%F (ShiftRightChip.limb_result local) Hi) as Hh.
  assert (Et : right_target bm = let '(w0, w1) := right_half (limb_amount c0 false) (U16MSBOperation.msb bm)
    (U16MSBOperation.msb bm * Fof (2 ^ 16) - ShiftRightChip.sra_msb_v0123 local)%F (ShiftRightChip.limb_result local) in
    sign_extend_half w0 w1 (Fof (if Fval w1 <? 2 ^ 15 then 0 else 1))) by (unfold right_target; rewrite Hw; reflexivity).
  destruct (right_half _ _ _ _) as [w0 w1]. destruct Hh as (C1 & C2 & C3 & C4). exists w0, w1.
  split; [exact Et|]. split; [|auto].
  assert (Ea : ShiftRightChip.a local = sign_extend_half w0 w1 (Fof (if Fval w1 <? 2 ^ 15 then 0 else 1))) by exact Et.
  destruct (right_value32 local m Hm) as (_ & U1 & _).
  - cbn. rewrite Eb. apply valid_word_from.
  - cbn. rewrite Ec. apply valid_word_from.
  - exact Em.
  - reflexivity.
  - pose proof (proj1 (right_ops_complete (right_target bm) bm (U16MSBOperation.mkCols F0))) as H. rewrite Hw in H. exact H.
  - rewrite Ea, Es. apply C1.
  - rewrite Ea, Es. apply C2.
  - rewrite Ea, Es. apply C3.
  - rewrite Ea, Es. apply C4.
  - rewrite Ea in U1. exact U1.
Qed.

Lemma complete_when_F1 (l : list Emit) : complete l [] -> complete (when (Fof_bool true) l) [].
Proof. apply complete_when_1. Qed.

Lemma right_checks_word (bm : U16MSBOperation.Cols) (ev : list ByteLookupEvent) :
  word = true -> right_sign o b = (bm, ev) ->
  let '(sm, ev') := msb_if true (Fval (limb1 (right_target bm))) in
  complete (right_checks (row (right_target bm) bm sm)) (ev ++ ev').
Proof.
  intros Hw Hs. pose proof (right_sign_complete o b Ho) as Hsg. rewrite Hs in Hsg. destruct Hsg as [(m & Hm & Em) Hsg].
  destruct (right_target_word bm m Hw Hm Em) as (w0 & w1 & Et & U1 & C1 & C2 & C3 & C4).
  unfold msb_if. pose proof (msb_complete (Fval w1) (u16F_u16 _ U1)) as Hmc. rewrite Fof_val in Hmc.
  replace (limb1 (right_target bm)) with w1 by (rewrite Et; reflexivity).
  destruct (U16MSBOperation.populate_msb (Fval w1)) as [[sm ev'] ?]. destruct Hmc as [Hmc Es].
  destruct (right_not_word (right_target bm) bm sm) as (En & Ew & _). rewrite Hw in En, Ew.
  destruct (limb_amount_spec c (negb word) Hc) as (Hi & _ & _). rewrite Hw in Hi.
  change (0 <= limb_amount c0 false < 2) in Hi.
  unfold right_checks. rewrite En, Ew. cbn [negb right_row ShiftRightChip.b_msb ShiftRightChip.srw_msb ShiftRightChip.a].
  apply complete_nil_r; [|apply complete_asserts_app].
  - apply complete_app3.
    + cbn [right_row ShiftRightChip.is_sra ShiftRightChip.is_sraw ShiftRightChip.is_srl ShiftRightChip.is_srlw
           ShiftRightChip.adapter]. rewrite Eb, word_from_u64_limbs. exact Hsg.
    + apply complete_asserts_app; [apply complete_eq; reflexivity|]. rewrite Et. apply complete_nil_r; [exact Hmc|].
      unfold when_not. apply complete_when_zero. intros H. contradiction H. cbn [Fof_bool]. ring.
  - apply (moved_right_complete _ _ (limb_amount c0 false));
      [lia | cbn [right_row ShiftRightChip.shift_u16]; rewrite Hw; reflexivity | intros H; contradiction H; reflexivity].
  - rewrite Et, Es. cbn [sign_extend_half limb0 limb1 limb2 limb3]. repeat apply complete_asserts_app; apply complete_when_F1;
      [exact C1 | exact C2 | exact C3 | exact C4 | apply complete_eq; reflexivity..].
Qed.

(** The recorded result is the word the constraints determine. *)
Lemma right_row_complete (a : Z) :
  alu_value o b c = Ok a ->
  let '(bm, ev) := right_sign o b in
  let '(sm, ev') := msb_if word (limb16 a 1) in
  complete (right_checks (row (word_from_u64 a) bm sm)) (ev ++ ev').
Proof.
  intros Ha. destruct (right_sign o b) as [bm ev] eqn:Es.
  assert (Hv : forall sm, sats (right_checks (row (right_target bm) bm sm)) ->
    word_from_u64 a = right_target bm /\ limb16 a 1 = Fval (limb1 (right_target bm))).
  { intros sm Hck. destruct (right_not_word (right_target bm) bm sm) as (En & _ & Hf).
    pose proof (proj1 (right_ops_complete (right_target bm) bm sm)) as Hops. rewrite <- En in Hops.
    destruct (right_value (row (right_target bm) bm sm)) with (o := o) as [Va Ea]; try assumption;
      [cbn; rewrite ?Eb, ?Ec; apply valid_word_from.. |].
    cbn [right_row ShiftRightChip.a ShiftRightChip.adapter] in Va, Ea.
    rewrite Eb, Ec, !word_val_from, Ha in Ea by assumption. apply Ok_inj in Ea. rewrite Ea.
    pose proof (word_from_val _ Va) as E. split; [exact E|]. rewrite <- E at 2. rewrite word_from_u64_limbs. symmetry.
    apply Fval_limb16. }
  destruct (opcode_eqb o SRLW || opcode_eqb o SRAW) eqn:Hw.
  - pose proof (right_checks_word bm ev Hw Es) as H. destruct (msb_if true (Fval _)) as [sm ev'] eqn:Em.
    destruct (Hv sm (proj1 H)) as [Ea El]. rewrite El, Em, Ea. exact H.
  - pose proof (right_checks_double bm ev Hw Es) as H. destruct (Hv _ (proj1 H)) as [Ea _]. cbn [msb_if].
    rewrite app_nil_r, Ea. exact H.
Qed.
End RightRow.

Section Complete.
Context (rrs : MajorOpcodes) (cfg : Config) (user : bool) (event : AluEvent) (rec : ALUTypeRecord).
Context (Hcfg : cfg_ok cfg user) (He : alu_event_ok event) (Hrrs : shift_rrs_ok rrs).
Context (Hr : alu_record_ok event rec) (Himm : imm_record_ok rec).

Lemma shift_left_chip_completes :
  ev_opcode event = SLL \/ ev_opcode event = SLLW ->
  chip_complete (ShiftLeftChip.eval rrs cfg) (ShiftLeftChip.event_to_row user event rec).
Proof.
  intros Ho. pose proof (alu_populate_operands event rec Hr) as (Eb & Ec & _). pose proof (populate_imm rec Himm) as Ei.
  pose proof (left_row_eq user event rec) as Erow.
  pose proof (fun op cs v => shift_frame_complete cfg user event rec op cs v Hcfg He Hr) as Hf. pose proof (eo_a _ He) as Ea.
  destruct (ALUTypeReader.populate rec) as [ad ev1], (CPUState.populate _ _) as [st ev5]. cbn [fst] in *.
  pose proof (fun tr => left_values_complete st ad _ _ _ (at_is_imm rec) tr (eo_b _ He) (eo_c _ He) _ Ho Ea) as Hv.
  destruct (msb_if _ _) as [m ev2]. rewrite Erow. clear Erow. unfold chip_complete. cbn [fst snd].
  set (local := left_row _ _ _ _ _ _ _ _ _ _). destruct (shift_left_consts rrs local Hrrs) as [cs Ecs].
  unfold ShiftLeftChip.eval. rewrite Ecs. eexists. split; [reflexivity|].
  assert (Er : (ShiftLeftChip.is_sll local + ShiftLeftChip.is_sllw local)%F = F1)
    by (subst local; cbn [left_row ShiftLeftChip.is_sll ShiftLeftChip.is_sllw];
        destruct Ho as [-> | ->]; opcode_compute; cbn [Fof_bool]; ring).
  rewrite Er. eapply complete_perm; [apply left_events_perm|]. apply complete_app; [|apply Hf].
  apply complete_asserts_app.
  { repeat apply complete_asserts_app; [apply bool_1 | apply complete_bool, Fof_bool_is_bool..]. }
  pose proof (complete_app _ _ _ _ (left_ops_complete st ad (ev_a event) (ev_b event) (ev_c event) (at_is_imm rec) m
    (trust_cols user (at_is_untrusted rec)) (eo_c _ He) (opcode_eqb (ev_opcode event) SLL) (opcode_eqb (ev_opcode event) SLLW)
    Eb Ec) (Hv (trust_cols user (at_is_untrusted rec)))) as Hops. fold local in Hops.
  unfold left_ops, left_values in Hops. rewrite <- !app_assoc in Hops |- *.
  rewrite !app_assoc. apply complete_nil_r; [rewrite <- !app_assoc; exact Hops|].
  apply complete_eq. subst local. cbn [left_row ShiftLeftChip.is_sllw_imm ShiftLeftChip.is_sllw ShiftLeftChip.adapter].
  rewrite Ei. apply Fof_bool_and.
Qed.

Lemma right_events_perm (ad c m1 m2 s st : list ByteLookupEvent) :
  Permutation (((c ++ s) ++ m1 ++ m2) ++ st ++ ad) (ad ++ c ++ m1 ++ m2 ++ s ++ st).
Proof.
  rewrite app_assoc, (Permutation_app_comm _ ad). apply Permutation_app_head. rewrite <- !app_assoc. apply Permutation_app_head.
  rewrite (app_assoc s), (app_assoc (s ++ m1)), <- (app_assoc s m1), (Permutation_app_comm s), <- !app_assoc. reflexivity.
Qed.

Lemma shift_right_chip_completes :
  is_right_shift (ev_opcode event) ->
  chip_complete (ShiftRightChip.eval rrs cfg) (ShiftRightChip.event_to_row user event rec).
Proof.
  intros Ho. pose proof (alu_populate_operands event rec Hr) as (Eb & Ec & _). pose proof (populate_imm rec Himm) as Ei.
  pose proof (right_row_eq user event rec) as Erow.
  pose proof (fun op cs v => shift_frame_complete cfg user event rec op cs v Hcfg He Hr) as Hf. pose proof (eo_a _ He) as Ea.
  destruct (ALUTypeReader.populate rec) as [ad ev1], (CPUState.populate _ _) as [st ev6]. cbn [fst] in *.
  set (tr := trust_cols user (at_is_untrusted rec)) in *.
  pose proof (right_row_complete st ad _ _ _ (at_is_imm rec) tr (eo_b _ He) (eo_c _ He) Ho Eb Ec _ Ea) as Hck.
  destruct (right_sign _ _) as [bm ev3], (msb_if _ _) as [sm ev4]. rewrite Erow. clear Erow. unfold chip_complete. cbn [fst snd].
  pose proof (right_not_word st ad (ev_b event) (ev_c event) _ (at_is_imm rec) tr Ho (word_from_u64 (ev_a event)) bm sm)
    as (En & Ew & _).
  pose proof (right_ops_complete st ad (ev_b event) (ev_c event) (ev_opcode event) (at_is_imm rec) tr (eo_c _ He) Eb Ec
    (word_from_u64 (ev_a event)) bm sm) as Hops. rewrite <- En in Hops.
  set (local := right_row _ _ _ _ _ _ _ _ _ _) in *. destruct (shift_right_consts rrs local Hrrs) as [cs Ecs].
  unfold ShiftRightChip.eval. rewrite Ecs. eexists. split; [reflexivity|].
  assert (Er : (ShiftRightChip.is_srl local + ShiftRightChip.is_sra local + ShiftRightChip.is_srlw local
                + ShiftRightChip.is_sraw local)%F = F1).
  { transitivity (Fof_bool (negb (opcode_eqb (ev_opcode event) SRLW || opcode_eqb (ev_opcode event) SRAW)) +
                  Fof_bool (opcode_eqb (ev_opcode event) SRLW || opcode_eqb (ev_opcode event) SRAW))%F;
      [rewrite <- En, <- Ew; ring | destruct (_ || _); cbn [negb Fof_bool]; ring]. }
  rewrite Er. eapply complete_perm; [apply right_events_perm|]. apply complete_app; [|apply Hf].
  apply complete_asserts_app; [apply complete_flags; repeat (apply Forall_cons; [apply Fof_bool_is_bool|]); apply Forall_nil|].
  apply complete_asserts_app; [apply bool_1|]. apply complete_asserts_app.
  { apply complete_eq. rewrite Ew. subst local. cbn [right_row ShiftRightChip.is_w_imm ShiftRightChip.adapter].
    rewrite Ei. apply Fof_bool_and. }
  pose proof (complete_app _ _ _ _ Hops Hck) as Hall. unfold right_ops, right_checks in Hall.
  rewrite <- !app_assoc in Hall |- *. exact Hall.
Qed.
End Complete.
