(* ===== verification/Padding.v ===== *)
(** * Padding rows

    Every instruction chip guards its interactions by [is_real].  A row with
    [is_real = 0] that satisfies the chip's constraints puts nothing on the
    state, memory, program and page permission buses, and no satisfying row has
    another value of [is_real] than 0 and 1. *)

From Stdlib Require Import ZArith Lia List Bool.
From S2P Require Import Prelude Words Isa Field Air AirFacts SmallInverse Operations.
From S2P Require Import Adapter AdapterFacts Row Readers AluChips AluChipFacts Address MemoryChips.
From S2P Require Import ControlChips ControlChipFacts ShiftChips ShiftFacts AluX0.
Import ListNotations.
Open Scope Z_scope.

(** ** Interactions of multiplicity zero *)

Lemma quiet_off_send (vs : list F) (k : InteractionKind) (s : InteractionScope) :
  quiet [Send (mkInteraction vs F0 k) s].
Proof. intros k' _. unfold silent, sends, receives, live. destruct s; cbn; rewrite ?Feqb_refl, ?andb_false_r; split; reflexivity. Qed.

Lemma quiet_off_receive (vs : list F) (k : InteractionKind) (s : InteractionScope) :
  quiet [Receive (mkInteraction vs F0 k) s].
Proof. intros k' _. unfold silent, sends, receives, live. destruct s; cbn; rewrite ?Feqb_refl, ?andb_false_r; split; reflexivity. Qed.
#[export] Hint Resolve quiet_off_send quiet_off_receive : quiet.

Lemma quiet_off_state (cols : CPUState.Cols) (next : list F) (inc : F) : quiet (CPUState.eval cols next inc F0).
Proof. unfold CPUState.eval, receive_state, send_state. auto 10 with quiet. Qed.

Lemma quiet_off_page_prot (mode : AdapterCols) (h l : F) (addr : list F) (p : F) :
  quiet (page_prot_request mode h l addr p F0).
Proof. destruct mode; cbn [page_prot_request]; unfold send_page_prot; auto with quiet. Qed.

Lemma quiet_off_reg_write (h l : F) (addr : list F) (acc : RegisterAccess.Cols) (w : Word F) :
  quiet (RegisterAccess.eval_write h l addr acc w F0).
Proof. unfold RegisterAccess.eval_write, send_memory, receive_memory. cbv zeta. auto 10 with quiet. Qed.

Lemma quiet_off_reg_read (h l : F) (addr : list F) (acc : RegisterAccess.Cols) :
  quiet (RegisterAccess.eval_read h l addr acc F0).
Proof. unfold RegisterAccess.eval_read, send_memory, receive_memory. cbv zeta. auto 10 with quiet. Qed.

Lemma quiet_off_mem_write (h l : F) (addr : list F) (acc : MemoryAccess.Cols) (w : Word F) :
  quiet (MemoryAccess.eval_write h l addr acc w F0).
Proof. unfold MemoryAccess.eval_write, send_memory, receive_memory. cbv zeta. auto 10 with quiet. Qed.

Lemma quiet_off_mem_read (h l : F) (addr : list F) (acc : MemoryAccess.Cols) :
  quiet (MemoryAccess.eval_read h l addr acc F0).
Proof. unfold MemoryAccess.eval_read, send_memory, receive_memory. cbv zeta. auto 10 with quiet. Qed.
#[export] Hint Resolve quiet_off_state quiet_off_page_prot quiet_off_reg_write quiet_off_reg_read
  quiet_off_mem_write quiet_off_mem_read : quiet.

(** ** The readers *)

(** A reader with [is_real = is_trusted = 0] is quiet. *)
Class ReaderOff (C : Type) `{Reader C} : Prop :=
  rd_off : forall h l pc o w cols, sats (rd_eval h l pc o w cols F0 F0) -> quiet (rd_eval h l pc o w cols F0 F0).

#[export] Instance RType_off : ReaderOff RTypeReader.Cols.
Proof.
  intros h l pc o w cols _. cbn [rd_eval RType_reader]. unfold RTypeReader.eval, send_program. auto 20 with quiet.
Qed.

#[export] Instance IType_off : ReaderOff ITypeReader.Cols.
Proof.
  intros h l pc o w cols _. cbn [rd_eval IType_reader]. unfold ITypeReader.eval, send_program. auto 20 with quiet.
Qed.

#[export] Instance JType_off : ReaderOff JTypeReader.Cols.
Proof.
  intros h l pc o w cols _. cbn [rd_eval JType_reader]. unfold JTypeReader.eval, send_program. auto 20 with quiet.
Qed.

#[export] Instance ALUType_off : ReaderOff ALUTypeReader.Cols.
Proof.
  intros h l pc o w cols H. cbn [rd_eval ALUType_reader] in *. unfold ALUTypeReader.eval_alu_reader in *.
  rewrite !sats_app in H. destruct H as (_ & H & _). unfold when_not in H. rewrite sats_when_eq in H.
  rewrite H by (intros E; apply (f_equal Fval) in E; vm_compute in E; discriminate). replace (F0 - F0)%F with F0 by ring.
  unfold send_program, when_not. auto 20 with quiet.
Qed.

(** ** The frame *)

(** A row that is not real is not trusted either. *)
Lemma trust_off (cfg : Config) (mode : AdapterCols) (pc : list F) (i : InstructionCols.Cols) (consts clk : list F) :
  sats (fst (eval_trust cfg mode pc i consts clk F0)) ->
  quiet (fst (eval_trust cfg mode pc i consts clk F0)) /\ snd (eval_trust cfg mode pc i consts clk F0) = F0.
Proof.
  assert (Hq : forall m : AdapterCols, quiet (if mprotect cfg
            then assert_eq (is_untrusted_programs_enabled cfg) (Fof_bool (negb (IS_TRUSTED m))) else []))
    by (intros m; destruct (mprotect cfg); auto with quiet).
  unfold eval_trust. cbv zeta. destruct mode as [|t]; cbn [fst snd]; intros H; [auto|].
  assert (Et : t = F0).
  { unfold eval_untrusted_program in H. rewrite !sats_app, !sats_bool in H. destruct H as (_ & _ & _ & Ht & Hu & _).
    destruct Ht as [-> | ->]; [reflexivity|]. exfalso. revert Hu. unfold is_bool.
    intros [E | E]; apply (f_equal Fval) in E; vm_compute in E; discriminate. }
  split; [|exact Et]. unfold eval_untrusted_program, send_instruction_fetch. rewrite Et.
  replace (F0 - F0)%F with F0 by ring. specialize (Hq (UserMode F0)). destruct (mprotect cfg); auto 20 with quiet.
Qed.

Section Off.
Context {C : Type} `{ReaderOff C} (cfg : Config) (mode : AdapterCols) (state : CPUState.Cols) (adapter : C).
Context (op : F) (consts : list F) (value : Word F) (next_pc : list F) (mid : list Emit).

Lemma frame_off :
  quiet mid -> sats (frame cfg mode state adapter op consts value next_pc mid F0) ->
  quiet (frame cfg mode state adapter op consts value next_pc mid F0).
Proof.
  intros Hm. unfold frame. rewrite !sats_app. intros (_ & Ht & _ & Hr).
  destruct (trust_off _ _ _ _ _ _ Ht) as [Hq Et]. rewrite Et in Hr |- *. apply rd_off in Hr. auto 10 with quiet.
Qed.

Lemma late_off :
  quiet mid -> sats (late_frame cfg mode state adapter op consts value next_pc mid F0) ->
  quiet (late_frame cfg mode state adapter op consts value next_pc mid F0).
Proof.
  intros Hm. unfold late_frame. cbv zeta. rewrite !sats_app. intros (_ & _ & Ht & Hr).
  destruct (trust_off _ _ _ _ _ _ Ht) as [Hq Et]. rewrite Et in Hr |- *. apply rd_off in Hr. auto 10 with quiet.
Qed.

Lemma state_is_bool (r : F) (inc : F) : sats (CPUState.eval state next_pc inc r) -> is_bool r.
Proof. unfold CPUState.eval. rewrite sats_app, sats_bool. tauto. Qed.

Lemma frame_is_bool (r : F) : sats (frame cfg mode state adapter op consts value next_pc mid r) -> is_bool r.
Proof. unfold frame. rewrite sats_app. intros [Hs _]. exact (state_is_bool _ _ Hs). Qed.

Lemma late_is_bool (r : F) : sats (late_frame cfg mode state adapter op consts value next_pc mid r) -> is_bool r.
Proof. unfold late_frame. cbv zeta. rewrite sats_app. intros [Hs _]. exact (state_is_bool _ _ Hs). Qed.
End Off.

(** ** A chip's row *)

(** What a satisfying row with [is_real = r] is. *)
Definition idle_or_real (r : F) (row : list Emit) : Prop := is_bool r /\ (r = F0 -> quiet row).

Section Idle.
Context {C : Type} `{ReaderOff C} (cfg : Config) (mode : AdapterCols) (state : CPUState.Cols) (adapter : C).
Context (op : F) (consts : list F) (value : Word F) (next_pc : list F) (mid ops : list Emit) (r : F).
Context (Hops : r = F0 -> quiet ops) (Hmid : r = F0 -> quiet mid).

Lemma idle_frame :
  sats (ops ++ frame cfg mode state adapter op consts value next_pc mid r) ->
  idle_or_real r (ops ++ frame cfg mode state adapter op consts value next_pc mid r).
Proof.
  rewrite sats_app. intros [_ Hs]. split; [exact (frame_is_bool _ _ _ _ _ _ _ _ _ _ Hs)|].
  intros E. rewrite E in *. apply quiet_app; [auto | apply frame_off; auto].
Qed.

Lemma idle_post (post : list Emit) :
  (r = F0 -> quiet post) ->
  sats (ops ++ frame cfg mode state adapter op consts value next_pc mid r ++ post) ->
  idle_or_real r (ops ++ frame cfg mode state adapter op consts value next_pc mid r ++ post).
Proof.
  rewrite !sats_app. intros Hpost (_ & Hs & _). split; [exact (frame_is_bool _ _ _ _ _ _ _ _ _ _ Hs)|].
  intros E. rewrite E in *. apply quiet_app; [auto | apply quiet_app; [apply frame_off; auto | auto]].
Qed.

Lemma idle_late :
  sats (ops ++ late_frame cfg mode state adapter op consts value next_pc mid r) ->
  idle_or_real r (ops ++ late_frame cfg mode state adapter op consts value next_pc mid r).
Proof.
  rewrite sats_app. intros [_ Hs]. split; [exact (late_is_bool _ _ _ _ _ _ _ _ _ _ Hs)|].
  intros E. rewrite E in *. apply quiet_app; [auto | apply late_off; auto].
Qed.
End Idle.

(** [AluX0Chip]'s trust part also constrains the selectors. *)
Lemma idle_alu_x0 (rrs : MajorOpcodes) (cfg : Config) (local : AluX0Chip.Cols) (row : list Emit) :
  AluX0Chip.eval rrs cfg local = Ok row -> sats row -> idle_or_real (AluX0Chip.is_real local) row.
Proof.
  intros E Hs. unfold AluX0Chip.eval in E. chip_row E. rewrite !sats_app in Hs.
  destruct Hs as (_ & Hst & _ & Ht & Hr). split; [exact (state_is_bool _ _ _ _ Hst)|]. intros Er.
  destruct (x0_trust rrs cfg local) as [Et Hp]. pose proof (x0_trust_bus rrs cfg local) as Hbus.
  apply (sats_reorder _ _ Hp), sats_app in Ht as [_ Ht]. rewrite Er in *.
  destruct (trust_off _ _ _ _ _ _ Ht) as [Hq E0]. rewrite Et, E0 in Hr |- *. clear Et Hp.
  unfold ALUTypeReader.eval_op_a_immutable in *. apply (ALUType_off _ _ _ _ _ _) in Hr. cbn [rd_eval ALUType_reader] in Hr.
  assert (Qt : quiet (fst (AluX0Chip.trust rrs cfg local))).
  { intros k Hk. unfold silent. destruct (Hbus k Hk) as [-> ->]. exact (Hq k Hk). }
  unfold when_not. auto 20 with quiet.
Qed.
