(* ===== verification/DivRem.v ===== *)
(** * The division and remainder chip ([alu/divrem/mod.rs])

    One chip for DIV, DIVU, REM, REMU and their 32-bit forms.  It constrains
    [b = c * quotient + remainder] over 128 bits, with the multiplication
    gadget for the product, [|remainder| < |c|], the sign of the remainder,
    and treats division by zero and signed overflow apart. *)

From Stdlib Require Import ZArith Lia List Bool Permutation.
From S2P Require Import Prelude Words Isa Field Air AirFacts SmallInverse Operations Compare Bitwise Mul.
From S2P Require Import Adapter AdapterFacts Row Readers AluChips ControlChips.
Import ListNotations.
Open Scope Z_scope.

(** ** Classification and reference values ([executor/src/utils.rs]) *)

Definition is_signed_64bit_operation (o : Opcode) : bool := opcode_eqb o DIV || opcode_eqb o REM.
Definition is_unsigned_64bit_operation (o : Opcode) : bool := opcode_eqb o DIVU || opcode_eqb o REMU.
Definition is_64bit_operation (o : Opcode) : bool :=
  opcode_eqb o DIV || opcode_eqb o DIVU || opcode_eqb o REM || opcode_eqb o REMU.
Definition is_word_operation (o : Opcode) : bool :=
  opcode_eqb o DIVW || opcode_eqb o DIVUW || opcode_eqb o REMW || opcode_eqb o REMUW.
Definition is_signed_word_operation (o : Opcode) : bool := opcode_eqb o DIVW || opcode_eqb o REMW.
Definition is_unsigned_word_operation (o : Opcode) : bool := opcode_eqb o DIVUW || opcode_eqb o REMUW.

Definition get_quotient_and_remainder (b c : Z) (o : Opcode) : Z * Z :=
  if (c =? 0) && is_64bit_operation o then (U64_MAX, b)
  else if (as_i32 c =? 0) && is_word_operation o then (U64_MAX, as_u64 (as_i32 b))
  else if is_signed_64bit_operation o then
    (as_u64 (wrapping_div 64 (as_i64 b) (as_i64 c)), as_u64 (wrapping_rem 64 (as_i64 b) (as_i64 c)))
  else if is_signed_word_operation o then
    (as_u64 (wrapping_div 32 (as_i32 b) (as_i32 c)), as_u64 (wrapping_rem 32 (as_i32 b) (as_i32 c)))
  else if is_unsigned_word_operation o then
    (as_u64 (as_i32 (as_u32 b / as_u32 c)), as_u64 (as_i32 (as_u32 b mod as_u32 c)))
  else (b / c, b mod c).

Definition get_msb64 (a : Z) : Z := Z.land (shr a 63) 1.

Module DivRemChip.
Record Cols : Type := mkCols {
  state : CPUState.Cols;
  adapter : RTypeReader.Cols;
  a : Word F;
  b : Word F;
  c : Word F;
  quotient : Word F;
  quotient_comp : Word F;
  remainder_comp : Word F;
  remainder : Word F;
  abs_remainder : Word F;
  abs_c : Word F;
  max_abs_c_or_1 : Word F;
  c_times_quotient : list F;
  c_times_quotient_lower : MulOperation.Cols;
  c_times_quotient_upper : MulOperation.Cols;
  c_neg_operation : AddOperation.Cols;
  rem_neg_operation : AddOperation.Cols;
  remainder_lt_operation : LtOperationUnsigned.Cols;
  carry : list F;
  is_c_0 : IsZeroWordOperation.Cols;
  is_div : F;
  is_divu : F;
  is_rem : F;
  is_remu : F;
  is_divw : F;
  is_remw : F;
  is_divuw : F;
  is_remuw : F;
  is_overflow : F;
  is_overflow_b : IsEqualWordOperation.Cols;
  is_overflow_c : IsEqualWordOperation.Cols;
  b_msb : U16MSBOperation.Cols;
  rem_msb : U16MSBOperation.Cols;
  c_msb : U16MSBOperation.Cols;
  quot_msb : U16MSBOperation.Cols;
  b_neg : F;
  b_neg_not_overflow : F;
  b_not_neg_not_overflow : F;
  is_real_not_word : F;
  rem_neg : F;
  c_neg : F;
  abs_c_alu_event : F;
  abs_rem_alu_event : F;
  is_real : F;
  remainder_check_multiplicity : F;
  adapter_cols : AdapterCols
}.

(** Limb [i] of a word. *)
Definition limb (w : Word F) (i : nat) : F := nth i (word_list w) F0.
Definition u16_max : F := Fof 65535.

Section Eval.
Context (local : Cols).
Let b_in : Word F := RTypeReader.b (adapter local).
Let c_in : Word F := RTypeReader.c (adapter local).
Let msb_of (m : U16MSBOperation.Cols) : F := U16MSBOperation.msb m.

Definition is_word_op : F := (is_divw local + is_remw local + is_divuw local + is_remuw local)%F.
Definition is_not_word_op : F := (is_divu local + is_remu local + is_div local + is_rem local)%F.
Definition is_signed_word_op : F := (is_divw local + is_remw local)%F.
Definition is_unsigned_word_op : F := (is_divuw local + is_remuw local)%F.
Definition is_signed_type : F := (is_div local + is_rem local + is_divw local + is_remw local)%F.

(** Whether b, remainder and c are negative. *)
Definition eval_signs : list Emit :=
  assert_eq (is_real_not_word local) (is_real local * (F1 - is_word_op))%F ++
  flat_map (fun p => assert_eq (fst p * is_signed_type)%F (snd p))
    [(msb_of (b_msb local), b_neg local); (msb_of (rem_msb local), rem_neg local);
     (msb_of (c_msb local), c_neg local)].

(** The truncated or sign extended b and c align with the original ones. *)
Definition eval_operands : list Emit :=
  flat_map (fun i => assert_eq (limb b_in i) (limb (b local) i) ++
                     assert_eq (limb c_in i) (limb (c local) i)) [0; 1]%nat ++
  flat_map (fun i =>
    assert_eq (limb (b local) i)
      (limb b_in i * (F1 - is_word_op) + b_neg local * is_word_op * u16_max)%F ++
    assert_eq (limb (c local) i)
      (limb c_in i * (F1 - is_word_op) + c_neg local * is_word_op * u16_max)%F) [2; 3]%nat.

(** The computational form [comp] of [full] (quotient or remainder). *)
Definition eval_comp (comp full : Word F) (msb : F) : list Emit :=
  flat_map (fun i => assert_eq (limb comp i) (limb full i)) [0; 1]%nat ++
  flat_map (fun i =>
    when is_unsigned_word_op (assert_eq (limb comp i) F0) ++
    when is_signed_word_op (assert_eq (limb comp i) (msb * Fof 65535)%F) ++
    when is_word_op (assert_eq (limb full i) (msb * Fof 65535)%F) ++
    when is_not_word_op (assert_eq (limb comp i) (limb full i))) [2; 3]%nat.

Definition eval_comps : list Emit :=
  eval_comp (quotient_comp local) (quotient local) (msb_of (quot_msb local)) ++
  eval_comp (remainder_comp local) (remainder local) (msb_of (rem_msb local)).

(** [c * quotient], its lower half by MUL, its upper half by MULH or MULHU. *)
Definition half (k : nat) : Word F :=
  let x i := nth (k + i) (c_times_quotient local) F0 in mkWord (x 0%nat) (x 1%nat) (x 2%nat) (x 3%nat).

Definition eval_product : list Emit :=
  MulOperation.eval (half 0) (quotient_comp local) (c local) (c_times_quotient_lower local)
    (is_real local) (is_real local) F0 F0 F0 F0 ++
  let is_mulh := (is_div local + is_rem local)%F in
  let is_mulhu := (is_divu local + is_remu local)%F in
  MulOperation.eval (half 4) (quotient_comp local) (c local) (c_times_quotient_upper local)
    (is_real_not_word local) F0 is_mulh F0 is_mulhu F0.

Definition truncated (w : Word F) : Word F := mkWord (limb0 w) (limb1 w) F0 F0.

Definition eval_overflow : list Emit :=
  IsEqualWordOperation.eval_is_equal_word b_in (word_from_u64 (2 ^ 63)) (is_overflow_b local)
    (is_real_not_word local) ++
  IsEqualWordOperation.eval_is_equal_word c_in (word_from_u64 (2 ^ 64 - 1)) (is_overflow_c local)
    (is_real_not_word local) ++
  IsEqualWordOperation.eval_is_equal_word (truncated b_in) (word_from_u64 (2 ^ 31)) (is_overflow_b local)
    is_word_op ++
  IsEqualWordOperation.eval_is_equal_word (truncated c_in) (word_from_u64 (2 ^ 32 - 1)) (is_overflow_c local)
    is_word_op ++
  assert_eq (is_overflow local)
    (IsZeroWordOperation.result (IsEqualWordOperation.is_diff_zero (is_overflow_b local))
     * IsZeroWordOperation.result (IsEqualWordOperation.is_diff_zero (is_overflow_c local))
     * is_signed_type)%F ++
  assert_eq (b_neg_not_overflow local) (b_neg local * (F1 - is_overflow local))%F ++
  assert_eq (b_not_neg_not_overflow local) ((F1 - b_neg local) * (F1 - is_overflow local))%F ++
  flat_map (fun i =>
    when (is_overflow local) (assert_eq (limb (quotient local) i) (limb (b local) i)) ++
    when (is_overflow local) (assert_eq (limb (remainder local) i) F0)) (seq 0 4).

(** [c * quotient + remainder], with its carries. *)
Definition sum_limb (i : nat) : F :=
  let sign_extension := (rem_neg local * Fof 65535)%F in
  let x := nth i (c_times_quotient local) F0 in
  let x := if (i <? 4)%nat then (x + limb (remainder_comp local) i)%F else (x + sign_extension)%F in
  let x := (x - nth i (carry local) F0 * base16)%F in
  if (0 <? i)%nat then (x + nth (i - 1) (carry local) F0)%F else x.

Definition eval_sum : list Emit :=
  flat_map (fun i =>
    when_not (is_overflow local)
      (assert_eq (if (i <? 4)%nat then limb (b local) i else (b_neg local * Fof 65535)%F) (sum_limb i)))
    (seq 0 8) ++
  slice_range_check_u16 (map sum_limb (seq 0 8)) (is_real local).

Definition eval_result : list Emit :=
  flat_map (fun i =>
    when (is_divu local + is_div local + is_divw local + is_divuw local)%F
      (assert_eq (limb (quotient local) i) (limb (a local) i)) ++
    when (is_remu local + is_rem local + is_remw local + is_remuw local)%F
      (assert_eq (limb (remainder local) i) (limb (a local) i))) (seq 0 4).

(** The remainder has the sign of b. *)
Definition eval_rem_sign : list Emit :=
  let rem_limb_sum := fold_left (fun acc i => (acc + limb (remainder local) i)%F) (seq 0 4) F0 in
  when (rem_neg local) (assert_one (b_neg local)) ++
  when rem_limb_sum (when (F1 - rem_neg local)%F (assert_zero (b_neg local))).

Definition eval_div_by_zero : list Emit :=
  IsZeroWordOperation.eval_zero_word (c local) (is_c_0 local) (is_real local) ++
  flat_map (fun i => when (IsZeroWordOperation.result (is_c_0 local))
                       (assert_eq (limb (quotient local) i) (Fof 65535))) (seq 0 4) ++
  flat_map (fun i => when (IsZeroWordOperation.result (is_c_0 local))
                       (assert_eq (limb (remainder_comp local) i) (limb (b local) i))) (seq 0 4).

(** [|remainder| < |c|] when c is not zero. *)
Definition eval_rem_range : list Emit :=
  let c_0 := IsZeroWordOperation.result (is_c_0 local) in
  flat_map (fun i =>
    when_not (c_neg local) (assert_eq (limb (c local) i) (limb (abs_c local) i)) ++
    when_not (rem_neg local) (assert_eq (limb (remainder_comp local) i) (limb (abs_remainder local) i)))
    (seq 0 4) ++
  AddOperation.eval (c local) (abs_c local) (c_neg_operation local) (abs_c_alu_event local) ++
  slice_range_check_u16 (word_list (abs_c local)) (is_real local) ++
  when (abs_c_alu_event local) (assert_word_eq word_zero (AddOperation.value (c_neg_operation local))) ++
  AddOperation.eval (remainder_comp local) (abs_remainder local) (rem_neg_operation local)
    (abs_rem_alu_event local) ++
  slice_range_check_u16 (word_list (abs_remainder local)) (is_real local) ++
  when (abs_rem_alu_event local) (assert_word_eq word_zero (AddOperation.value (rem_neg_operation local))) ++
  assert_eq (abs_c_alu_event local) (c_neg local * is_real local)%F ++
  assert_eq (abs_rem_alu_event local) (rem_neg local * is_real local)%F ++
  flat_map (fun i =>
    assert_eq (limb (max_abs_c_or_1 local) i)
      (if (i =? 0)%nat then (c_0 * F1 + (F1 - c_0) * limb (abs_c local) 0)%F
       else ((F1 - c_0) * limb (abs_c local) i)%F)) (seq 0 4) ++
  assert_eq ((F1 - c_0) * is_real local)%F (remainder_check_multiplicity local) ++
  LtOperationUnsigned.eval_lt_unsigned (abs_remainder local) (max_abs_c_or_1 local)
    (remainder_lt_operation local) (remainder_check_multiplicity local) ++
  when (remainder_check_multiplicity local)
    (assert_eq F1 (U16CompareOperation.bit
                     (LtOperationUnsigned.u16_compare_operation (remainder_lt_operation local)))).

Definition eval_msbs : list Emit :=
  U16MSBOperation.eval_msb (limb b_in 3) (b_msb local) (is_real_not_word local) ++
  U16MSBOperation.eval_msb (limb c_in 3) (c_msb local) (is_real_not_word local) ++
  U16MSBOperation.eval_msb (limb (remainder local) 3) (rem_msb local) (is_real_not_word local) ++
  U16MSBOperation.eval_msb (limb b_in 1) (b_msb local) is_word_op ++
  U16MSBOperation.eval_msb (limb c_in 1) (c_msb local) is_word_op ++
  U16MSBOperation.eval_msb (limb (remainder local) 1) (rem_msb local) is_word_op ++
  U16MSBOperation.eval_msb (limb (quotient local) 1) (quot_msb local) is_word_op.

Definition eval_ranges : list Emit :=
  slice_range_check_u16 (word_list (quotient local)) (is_real local) ++
  slice_range_check_u16 (word_list (remainder local)) (is_real local) ++
  flat_map assert_bool (carry local) ++
  slice_range_check_u16 (c_times_quotient local) (is_real local).

Definition opcodes : list Opcode := [DIVU; REMU; DIV; REM; DIVW; REMW; DIVUW; REMUW].
Definition flags : list F :=
  [is_divu local; is_remu local; is_div local; is_rem local; is_divw local; is_remw local;
   is_divuw local; is_remuw local].

Definition eval_flags : list Emit :=
  flat_map assert_bool
    [is_div local; is_divu local; is_rem local; is_remu local; is_divw local; is_remw local;
     is_divuw local; is_remuw local; is_overflow local; is_real_not_word local; b_neg local;
     b_neg_not_overflow local; b_not_neg_not_overflow local; rem_neg local; c_neg local; is_real local;
     abs_c_alu_event local; abs_rem_alu_event local] ++
  assert_eq F1 (is_divu local + is_remu local + is_div local + is_rem local + is_divw local
                + is_remw local + is_divuw local + is_remuw local)%F.

Definition eval_arith : list Emit :=
  eval_signs ++ eval_operands ++ eval_comps ++ eval_product ++ eval_overflow ++ eval_sum ++ eval_result ++
  eval_rem_sign ++ eval_div_by_zero ++ eval_rem_range ++ eval_msbs ++ eval_ranges ++ eval_flags.

Definition eval (rrs : MajorOpcodes) (cfg : Config) : Res (list Emit) :=
  let opcode := weighted flags (map opcode_num opcodes) in
  let* consts := r_consts rrs flags opcodes in
  Ok (eval_arith ++
      frame cfg (adapter_cols local) (state local) (adapter local) opcode consts (a local) (pc_inc (state local))
        (assert_zero (RTypeReader.op_a_0 (adapter local))) (is_real local)).
End Eval.

(** ** Trace generation *)

(** The columns of a gadget that is not filled in. *)
Definition mul_zero : MulOperation.Cols :=
  let low := U16toU8Operation.mkCols word_zero in
  MulOperation.mkCols (repeat F0 16) (repeat F0 16) low low F0 F0 (U16MSBOperation.mkCols F0) F0 F0.
Definition lt_zero : LtOperationUnsigned.Cols :=
  LtOperationUnsigned.mkCols (U16CompareOperation.mkCols F0) word_zero F0 (F0, F0).

(** The computational value of an operand. *)
Definition comp_operand (o : Opcode) (x : Z) : Z :=
  if is_signed_word_operation o then as_u64 (as_i32 x)
  else if is_unsigned_word_operation o then as_u32 x else x.

(** The computational form of the quotient and of the remainder. *)
Definition comp_result (o : Opcode) (x : Z) : Z := if is_unsigned_word_operation o then as_u32 x else x.

(** The columns [rem_neg], [b_neg], [c_neg], [is_overflow], [abs_remainder],
    [abs_c] and [max_abs_c_or_1]. *)
Definition sign_cols (o : Opcode) (b c : Z) (c_comp remainder : Z) (remainder_comp : Word F)
  : F * F * F * F * Word F * Word F * Word F :=
  if is_signed_64bit_operation o then
    (Fof (get_msb64 remainder), Fof (get_msb64 b), Fof (get_msb64 c),
     Fof_bool ((as_i64 b =? - 2 ^ 63) && (as_i64 c =? -1)),
     word_from_u64 (Z.abs (as_i64 remainder)), word_from_u64 (Z.abs (as_i64 c)),
     word_from_u64 (Z.max 1 (Z.abs (as_i64 c))))
  else if is_signed_word_operation o then
    (Fof (get_msb64 (as_u64 (as_i32 remainder))), Fof (get_msb64 (as_u64 (as_i32 b))), Fof (get_msb64 (as_u64 (as_i32 c))),
     Fof_bool ((as_i32 b =? - 2 ^ 31) && (as_i32 c =? -1)),
     word_from_u64 (Z.abs (as_i64 remainder)), word_from_u64 (Z.abs (as_i64 c_comp)),
     word_from_u64 (Z.max 1 (Z.abs (as_i64 c_comp))))
  else if is_unsigned_word_operation o then
    (F0, F0, F0, F0, remainder_comp, word_from_u32 (as_u32 c), word_from_u32 (Z.max 1 (as_u32 c)))
  else (F0, F0, F0, F0, remainder_comp, word_from_u64 c, word_from_u64 (Z.max 1 c)).

(** [AddOperation::populate] of two words, when [event] is one. *)
Definition neg_cols (event : F) (x abs : Word F) : Res (AddOperation.Cols * list ByteLookupEvent) :=
  if Feqb event F1 then
    let* x := word_to_u64 x in
    let* abs := word_to_u64 abs in
    let '(op, ev, _) := AddOperation.populate x abs in Ok (op, ev)
  else Ok (AddOperation.mkCols word_zero, []).

(** The bytes of [c * quotient], and its limbs. *)
Definition product_bytes (o : Opcode) (quotient_comp c : Z) : list Z :=
  let upper :=
    if is_signed_64bit_operation o || is_signed_word_operation o
    then as_u64 (shr (as_i128 (as_i64 quotient_comp * as_i64 c)) 64)
    else as_u64 (shr (as_u128 (quotient_comp * c)) 64) in
  to_le_bytes (wrapping_mul quotient_comp c) ++ to_le_bytes upper.
Definition product_limbs (bytes : list Z) : list Z :=
  map (fun i => nth (2 * i)%nat bytes 0 + 2 ^ 8 * nth (2 * i + 1)%nat bytes 0) (seq 0 8).

(** The loop that adds the remainder: the carries, and the low halves of the sums. *)
Fixpoint add_remainder (carry : Z) (l : list (Z * Z)) : list Z * list Z :=
  match l with
  | [] => ([], [])
  | (p, r) :: rest =>
      let x := p + r + carry in
      let '(cs, xs) := add_remainder (x / 2 ^ 16) rest in
      (x / 2 ^ 16 :: cs, as_u16 (Z.land x 0xFFFF) :: xs)
  end.

(** [populate_msb] of the operands, the remainder and the quotient. *)
Definition msb_cols (o : Opcode) (b c b_comp c_comp quotient remainder : Z)
  : U16MSBOperation.Cols * U16MSBOperation.Cols * U16MSBOperation.Cols * U16MSBOperation.Cols * list ByteLookupEvent :=
  let top x k := as_u16 (shr x k) in
  if is_word_operation o then
    let '(bm, ev1, _) := U16MSBOperation.populate_msb (top b 16) in
    let '(cm, ev2, _) := U16MSBOperation.populate_msb (top c 16) in
    let '(rm, ev3, _) := U16MSBOperation.populate_msb (top remainder 16) in
    let '(qm, ev4, _) := U16MSBOperation.populate_msb (top quotient 16) in
    (bm, cm, rm, qm, ev1 ++ ev2 ++ ev3 ++ ev4)
  else
    let '(bm, ev1, _) := U16MSBOperation.populate_msb (top b_comp 48) in
    let '(cm, ev2, _) := U16MSBOperation.populate_msb (top c_comp 48) in
    let '(rm, ev3, _) := U16MSBOperation.populate_msb (top remainder 48) in
    (bm, cm, rm, U16MSBOperation.mkCols F0, ev1 ++ ev2 ++ ev3).

(** [c_times_quotient_upper]. *)
Definition upper_cols (o : Opcode) (quotient_comp c : Z) : MulOperation.Cols * list ByteLookupEvent :=
  if is_signed_64bit_operation o then MulOperation.populate quotient_comp c true false false
  else if is_unsigned_64bit_operation o then MulOperation.populate quotient_comp c false false false
  else (mul_zero, []).

Definition event_to_row (user : bool) (event : AluEvent) (record : RTypeRecord) : Res (Cols * list ByteLookupEvent) :=
  let o := ev_opcode event in
  let op x := Fof_bool (opcode_eqb o x) in
  assert! existsb (opcode_eqb o) [DIVU; REMU; REM; DIV; DIVW; REMW; DIVUW; REMUW] ;;
  let '(st, ev_st) := CPUState.populate (ev_clk event) (ev_pc event) in
  let '(ad, ev_ad) := RTypeReader.populate record in
  let b := comp_operand o (ev_b event) in
  let c := comp_operand o (ev_c event) in
  let not_word := (F1 - op DIVW - op REMW - op DIVUW - op REMUW)%F in
  let is_c_0 := fst (IsZeroWordOperation.populate c) in
  let '(quotient, remainder) := get_quotient_and_remainder (ev_b event) (ev_c event) o in
  let quotient_comp := comp_result o quotient in
  let remainder_comp := word_from_u64 (comp_result o remainder) in
  let '(rem_neg, b_neg, c_neg, is_overflow, abs_remainder, abs_c, max_abs_c_or_1) :=
    sign_cols o (ev_b event) (ev_c event) c remainder remainder_comp in
  let '(overflow_b, overflow_c) :=
    if is_word_operation o
    then (fst (IsEqualWordOperation.populate (as_u32 (ev_b event)) (2 ^ 31)),
          fst (IsEqualWordOperation.populate (as_u32 (ev_c event)) (2 ^ 32 - 1)))
    else (fst (IsEqualWordOperation.populate (ev_b event) (2 ^ 63)),
          fst (IsEqualWordOperation.populate (ev_c event) (2 ^ 64 - 1))) in
  let abs_c_event := (c_neg * F1)%F in
  let abs_rem_event := (rem_neg * F1)%F in
  let ev_abs := add_u16_range_checks_field (word_list abs_c) ++ add_u16_range_checks_field (word_list abs_remainder) in
  let* (c_neg_op, ev_cn) := neg_cols abs_c_event (word_from_u64 c) abs_c in
  let* (rem_neg_op, ev_rn) := neg_cols abs_rem_event (word_from_u64 remainder) abs_remainder in
  let '(bm, cm, rm, qm, ev_msb) := msb_cols o (ev_b event) (ev_c event) b c quotient remainder in
  let multiplicity := (F1 * (F1 - IsZeroWordOperation.result is_c_0))%F in
  let* (lt, ev_lt) :=
    if Feqb multiplicity F1 then
      let* x := word_to_u64 abs_remainder in
      let* y := word_to_u64 max_abs_c_or_1 in
      LtOperationUnsigned.populate_unsigned 1 x y
    else Ok (lt_zero, []) in
  let limbs := product_limbs (product_bytes o quotient_comp c) in
  let '(lower, ev_lo) := MulOperation.populate quotient_comp c false false false in
  let '(upper, ev_up) := upper_cols o quotient_comp c in
  let rem_limbs := map Fval (word_list remainder_comp) ++ repeat (Fval rem_neg * (2 ^ 16 - 1)) 4 in
  let '(carry, sums) := add_remainder 0 (combine limbs rem_limbs) in
  Ok (mkCols st ad (word_from_u64 (ev_a event)) (word_from_u64 b) (word_from_u64 c) (word_from_u64 quotient)
        (word_from_u64 quotient_comp) remainder_comp (word_from_u64 remainder) abs_remainder abs_c max_abs_c_or_1
        (map Fof limbs) lower upper c_neg_op rem_neg_op lt (map Fof carry) is_c_0
        (op DIV) (op DIVU) (op REM) (op REMU) (op DIVW) (op REMW) (op DIVUW) (op REMUW) is_overflow overflow_b overflow_c
        bm rm cm qm b_neg (b_neg * (F1 - is_overflow))%F ((F1 - b_neg) * (F1 - is_overflow))%F (F1 * not_word)%F
        rem_neg c_neg abs_c_event abs_rem_event F1 multiplicity (trust_cols user (rt_is_untrusted record)),
      (ev_st ++ ev_ad) ++ ev_abs ++ (ev_cn ++ ev_rn) ++ ev_msb ++ ev_lt ++ (ev_lo ++ ev_up) ++
      add_u16_range_checks sums ++ add_u16_range_checks (u64_to_u16_limbs quotient) ++
      add_u16_range_checks (u64_to_u16_limbs remainder) ++ add_u16_range_checks limbs).

(** The padding row: 0 divided by 1. *)
Definition padding_row (user : bool) : Cols :=
  let one := mkWord F1 F0 F0 F0 in
  let register w := RegisterAccess.mkCols w (RegisterAccessTimestamp.mkCols F0 F0) in
  let zero_word := IsZeroWordOperation.mkCols
    (word_map (fun _ => IsZeroOperation.mkCols F0 F0) word_zero) F0 F0 F0 in
  let not_equal := IsEqualWordOperation.mkCols zero_word in
  let msb := U16MSBOperation.mkCols F0 in
  let neg := AddOperation.mkCols word_zero in
  mkCols (CPUState.mkCols F0 F0 F0 F0 F0 F0)
    (RTypeReader.mkCols F0 (register word_zero) F0 F0 (register word_zero) F0 (register (word_from_u64 1)))
    word_zero word_zero one word_zero word_zero word_zero word_zero word_zero one one
    (repeat F0 8) mul_zero mul_zero neg neg lt_zero (repeat F0 8) (fst (IsZeroWordOperation.populate 1))
    F0 F1 F0 F0 F0 F0 F0 F0 F0 not_equal not_equal msb msb msb msb F0 F0 F1 F0 F0 F0 F0 F0 F0 F0
    (if user then UserMode F0 else SupervisorMode).
End DivRemChip.
