(* ===== verification/DivRemFacts.v ===== *)
(** * Correctness of the division chip *)

From Stdlib Require Import ZArith Lia List Bool Permutation Zquot.
From S2P Require Import Prelude Words Isa Field Air AirFacts SmallInverse Operations Compare Bitwise Mul.
From S2P Require Import Adapter AdapterFacts Row Readers AluChips AluChipFacts DivRem.
Import ListNotations.
Open Scope Z_scope.

(** ** The specification

    The eight opcodes by signedness, width and result, and RISC-V division on
    the operands' integer values. *)

Definition div_opcode (sgn wrd isdiv : bool) : Opcode :=
  match sgn, wrd, isdiv with
  | true, false, true => DIV | false, false, true => DIVU
  | true, false, false => REM | false, false, false => REMU
  | true, true, true => DIVW | false, true, true => DIVUW
  | true, true, false => REMW | false, true, false => REMUW
  end.

(** The integer an operand stands for, and the 64-bit form of a result. *)
Definition operand_of (sgn wrd : bool) (x : Z) : Z :=
  match sgn, wrd with
  | true, false => as_i64 x
  | true, true => as_i32 x
  | false, false => as_u64 x
  | false, true => as_u32 x
  end.
Definition result_of (wrd : bool) (x : Z) : Z := if wrd then as_u64 (as_i32 x) else as_u64 x.

Definition riscv_quot (b c : Z) : Z := if c =? 0 then -1 else Z.quot b c.
Definition riscv_rem (b c : Z) : Z := if c =? 0 then b else Z.rem b c.

Definition div_spec (sgn wrd isdiv : bool) (b c : Z) : Z :=
  let b := operand_of sgn wrd b in
  let c := operand_of sgn wrd c in
  result_of wrd (if isdiv then riscv_quot b c else riscv_rem b c).

Lemma as_u64_i32_max : as_u64 (as_i32 (-1)) = U64_MAX.
Proof. reflexivity. Qed.

Lemma as_i64_eq0 (c : Z) : is_u64 c -> (as_i64 c =? 0) = (c =? 0).
Proof.
  intros Hc. unfold as_i64. rewrite as_signed_small by assumption. unfold is_u in Hc.
  change (2 ^ (64 - 1)) with (2 ^ 63).
  destruct (Z.ltb_spec c (2 ^ 63)); [reflexivity|].
  destruct (Z.eqb_spec c 0), (Z.eqb_spec (c - 2 ^ 64) 0); lia.
Qed.

Lemma as_i32_eq0 (c : Z) : (as_i32 c =? 0) = (as_u32 c =? 0).
Proof.
  unfold as_i32, as_u32, as_unsigned, as_signed. pose proof (Z.mod_pos_bound c (2 ^ 32) ltac:(lia)).
  change (2 ^ (32 - 1)) with (2 ^ 31).
  destruct (Z.ltb_spec (c mod 2 ^ 32) (2 ^ 31)); [reflexivity|].
  destruct (Z.eqb_spec (c mod 2 ^ 32) 0), (Z.eqb_spec (c mod 2 ^ 32 - 2 ^ 32) 0); lia.
Qed.

Lemma as_i32_i32 (x : Z) : as_i32 (as_i32 x) = as_i32 x.
Proof. unfold as_i32. rewrite <- (as_signed_mod 32 (as_signed 32 x)), as_signed_cong, as_signed_mod by lia. reflexivity. Qed.

Lemma as_i32_u32 (x : Z) : as_i32 (as_u32 x) = as_i32 x.
Proof. unfold as_i32, as_u32, as_unsigned. apply as_signed_mod. Qed.

Lemma u32_quot (b c : Z) : as_u32 c <> 0 -> as_u32 b / as_u32 c = Z.quot (as_u32 b) (as_u32 c) /\
  as_u32 b mod as_u32 c = Z.rem (as_u32 b) (as_u32 c).
Proof.
  intros H. pose proof (as_unsigned_bound 32 b). pose proof (as_unsigned_bound 32 c).
  unfold as_u32 in *. split; [symmetry; apply Z.quot_div_nonneg | symmetry; apply Z.rem_mod_nonneg]; lia.
Qed.

(** The executor computes RISC-V division. *)
Lemma alu_value_div (sgn wrd isdiv : bool) (b c : Z) :
  is_u64 b -> is_u64 c -> alu_value (div_opcode sgn wrd isdiv) b c = Ok (div_spec sgn wrd isdiv b c).
Proof.
  intros Hb Hc. unfold div_spec, result_of, riscv_quot, riscv_rem.
  destruct sgn, wrd, isdiv; cbn [div_opcode operand_of alu_value]; unfold wrapping_div, wrapping_rem;
    rewrite ?as_i64_eq0, ?as_i32_eq0 by assumption; f_equal.
  - destruct (as_u32 c =? 0); reflexivity.
  - destruct (as_u32 c =? 0); [rewrite as_i32_i32|]; reflexivity.
  - destruct (c =? 0); [reflexivity|]. unfold as_u64. rewrite as_unsigned_signed by lia. reflexivity.
  - destruct (c =? 0); unfold as_u64, as_i64; rewrite as_unsigned_signed by lia; [|reflexivity].
    symmetry. apply as_unsigned_id. exact Hb.
  - destruct (Z.eqb_spec (as_u32 c) 0) as [E | E]; [reflexivity|]. rewrite (proj1 (u32_quot b c E)). reflexivity.
  - destruct (Z.eqb_spec (as_u32 c) 0) as [E | E]; [rewrite as_i32_u32; reflexivity|].
    rewrite (proj2 (u32_quot b c E)). reflexivity.
  - unfold as_u64. rewrite !(as_unsigned_id 64 b), !(as_unsigned_id 64 c) by assumption.
    unfold is_u in *. destruct (Z.eqb_spec c 0); [reflexivity|].
    rewrite Z.quot_div_nonneg by lia. symmetry. apply as_unsigned_id. split; [apply Z.div_pos; lia|].
    apply Z.div_lt_upper_bound; nia.
  - unfold as_u64. rewrite !(as_unsigned_id 64 b), !(as_unsigned_id 64 c) by assumption.
    unfold is_u in *. destruct (Z.eqb_spec c 0); [symmetry; apply as_unsigned_id; assumption|].
    rewrite Z.rem_mod_nonneg by lia. symmetry. apply as_unsigned_id.
    pose proof (Z.mod_pos_bound b c ltac:(lia)). lia.
Qed.

(** ** Division is determined *)

Lemma division_unique (b c q r : Z) :
  b = c * q + r -> Z.abs r < Z.abs c -> (r < 0 -> b < 0) -> (0 < r -> 0 <= b) ->
  q = Z.quot b c /\ r = Z.rem b c.
Proof.
  intros E Hr Hn Hp. apply (Zquot_mod_unique_full b c q r); [|exact E].
  unfold Remainder. destruct (Z_lt_le_dec b 0), (Z_lt_le_dec r 0), (Z.eq_dec r 0); lia.
Qed.

Definition in_range (sgn wrd : bool) (x : Z) : Prop :=
  match sgn, wrd with
  | true, false => - 2 ^ 63 <= x < 2 ^ 63
  | true, true => - 2 ^ 31 <= x < 2 ^ 31
  | false, false => 0 <= x < 2 ^ 64
  | false, true => 0 <= x < 2 ^ 32
  end.

Lemma operand_range (sgn wrd : bool) (x : Z) : in_range sgn wrd (operand_of sgn wrd x).
Proof.
  destruct sgn, wrd; cbn [in_range operand_of].
  - apply (as_signed_bound 32); lia.
  - apply (as_signed_bound 64); lia.
  - apply (as_unsigned_bound 32); lia.
  - apply (as_unsigned_bound 64); lia.
Qed.

(** The constraint is a congruence; within the ranges it is the equation. *)
Lemma division_exact (sgn wrd : bool) (b c q r : Z) :
  in_range sgn wrd b -> in_range sgn wrd c -> in_range sgn wrd q -> in_range sgn wrd r ->
  (q * c + r) mod 2 ^ (if wrd then 64 else 128) = b mod 2 ^ (if wrd then 64 else 128) -> b = c * q + r.
Proof.
  intros Hb Hc Hq Hr E. symmetry. apply (mod_eq_small (2 ^ (if wrd then 64 else 128))).
  - destruct wrd; lia.
  - rewrite Z.mul_comm. exact E.
  - destruct sgn, wrd; cbn [in_range] in *; nia.
Qed.

(** ** Words *)

Definition top (wrd : bool) (w : Word F) : F := if wrd then limb1 w else limb3 w.
Definition neg (sgn wrd : bool) (w : Word F) : bool := sgn && (2 ^ 15 <=? Fval (top wrd w)).

Lemma word_low32 (w : Word F) : valid_word w -> (word_val w) mod 2 ^ 32 = Fval (limb0 w) + 2 ^ 16 * Fval (limb1 w).
Proof.
  intros (V0 & V1 & V2 & V3). unfold word_val.
  replace (Fval (limb0 w) + 2 ^ 16 * Fval (limb1 w) + 2 ^ 32 * Fval (limb2 w) + 2 ^ 48 * Fval (limb3 w))
    with (Fval (limb0 w) + 2 ^ 16 * Fval (limb1 w) + (Fval (limb2 w) + 2 ^ 16 * Fval (limb3 w)) * 2 ^ 32) by lia.
  rewrite Z_mod_plus_full. apply Z.mod_small. F_lia.
Qed.

(** The extension of an operand to 64 bits: its upper limbs are the sign's in
    a 32-bit operation. *)
Lemma extended_operand (sgn wrd : bool) (w e : Word F) :
  valid_word w -> limb0 e = limb0 w -> limb1 e = limb1 w ->
  limb2 e = (if wrd then Fof_bool (neg sgn wrd w) * Fof 65535 else limb2 w)%F ->
  limb3 e = (if wrd then Fof_bool (neg sgn wrd w) * Fof 65535 else limb3 w)%F ->
  valid_word e /\ word_val e = as_u64 (operand_of sgn wrd (word_val w)) /\
  neg sgn wrd w = (operand_of sgn wrd (word_val w) <? 0) /\
  operand_of sgn false (word_val e) = operand_of sgn wrd (word_val w).
Proof.
  intros Hw E0 E1 E2 E3. pose proof (word_val_bound w Hw) as Bw. pose proof (word_low32 w Hw) as L32.
  assert (He : valid_word e).
  { unfold valid_word in *. rewrite E0, E1, E2, E3. destruct Hw as (V0 & V1 & V2 & V3). destruct wrd; [|auto].
    repeat split; try assumption; destruct (neg sgn true w); vm_compute; reflexivity. }
  assert (Hn : neg sgn wrd w = (operand_of sgn wrd (word_val w) <? 0)).
  { unfold neg, operand_of. destruct Hw as (V0 & V1 & V2 & V3).
    destruct sgn, wrd; cbn [andb top].
    - unfold as_i32, as_signed. rewrite L32. change (2 ^ (32 - 1)) with (2 ^ 31).
      destruct (Z.leb_spec (2 ^ 15) (Fval (limb1 w))); case_match_in_goal; zbool; symmetry;
        (rewrite Z.ltb_lt || rewrite Z.ltb_ge); F_lia.
    - unfold as_i64. rewrite as_signed_small by assumption. change (2 ^ (64 - 1)) with (2 ^ 63). unfold word_val.
      destruct (Z.leb_spec (2 ^ 15) (Fval (limb3 w))); case_match_in_goal; zbool; symmetry;
        (rewrite Z.ltb_lt || rewrite Z.ltb_ge); F_lia.
    - symmetry. apply Z.ltb_ge. apply (as_unsigned_bound 32). lia.
    - symmetry. apply Z.ltb_ge. apply (as_unsigned_bound 64). lia. }
  assert (Ev : word_val e = as_u64 (operand_of sgn wrd (word_val w))).
  { destruct wrd.
    - assert (E2' : Fval (limb2 e) = if neg sgn true w then 65535 else 0)
        by (rewrite E2; destruct (neg sgn true w); reflexivity).
      assert (E3' : Fval (limb3 e) = if neg sgn true w then 65535 else 0)
        by (rewrite E3; destruct (neg sgn true w); reflexivity).
      unfold word_val at 1. rewrite E0, E1, E2', E3', Hn.
      assert (Em : (operand_of sgn true (word_val w)) mod 2 ^ 32 = Fval (limb0 w) + 2 ^ 16 * Fval (limb1 w)).
      { rewrite <- L32. destruct sgn; cbn [operand_of];
          [apply (as_signed_cong 32); lia | apply (as_unsigned_idem 32)]. }
      pose proof (operand_range sgn true (word_val w)) as Hr. set (x := operand_of sgn true (word_val w)) in *.
      unfold as_u64, as_unsigned.
      assert (Bx : - 2 ^ 31 <= x < 2 ^ 32) by (destruct sgn; cbn [in_range] in Hr; lia).
      destruct (Z.ltb_spec x 0).
      + rewrite <- (Z.mod_unique x (2 ^ 32) (-1) (x + 2 ^ 32)) in Em by lia.
        rewrite <- (Z.mod_unique x (2 ^ 64) (-1) (x + 2 ^ 64)) by lia. lia.
      + rewrite Z.mod_small in Em by lia. rewrite (Z.mod_small x) by lia. lia.
    - assert (e = w) as -> by (destruct e, w; cbn in *; congruence).
      destruct sgn; cbn [operand_of].
      + unfold as_u64, as_i64. rewrite as_unsigned_signed by lia. symmetry. apply as_unsigned_id. exact Bw.
      + unfold as_u64. rewrite as_unsigned_idem. symmetry. apply as_unsigned_id. exact Bw. }
  repeat split; try assumption; try apply He. rewrite Ev.
  pose proof (operand_range sgn wrd (word_val w)) as Hr. set (x := operand_of sgn wrd (word_val w)) in *.
  destruct sgn; cbn [operand_of in_range] in *.
  - unfold as_i64, as_u64, as_unsigned. rewrite as_signed_mod. apply as_signed_id; [lia|].
    destruct wrd; cbn [in_range] in Hr; lia.
  - unfold as_u64. rewrite as_unsigned_idem. apply as_unsigned_id. destruct wrd; cbn [in_range] in Hr; lia.
Qed.

(** ** The constraints of a real row *)

Module D := DivRemChip.

Record flags_are (local : D.Cols) (sgn wrd isdiv : bool) : Prop := mkFlags {
  fl_word : D.is_word_op local = Fof_bool wrd;
  fl_not_word : D.is_not_word_op local = Fof_bool (negb wrd);
  fl_signed_word : D.is_signed_word_op local = Fof_bool (sgn && wrd);
  fl_unsigned_word : D.is_unsigned_word_op local = Fof_bool (negb sgn && wrd);
  fl_signed : D.is_signed_type local = Fof_bool sgn;
  fl_mulh : (D.is_div local + D.is_rem local)%F = Fof_bool (sgn && negb wrd);
  fl_mulhu : (D.is_divu local + D.is_remu local)%F = Fof_bool (negb sgn && negb wrd);
  fl_quot : (D.is_divu local + D.is_div local + D.is_divw local + D.is_divuw local)%F = Fof_bool isdiv;
  fl_rem : (D.is_remu local + D.is_rem local + D.is_remw local + D.is_remuw local)%F = Fof_bool (negb isdiv)
}.

(** The arrays of the row have their lengths. *)
Definition div_shape (local : D.Cols) : Prop :=
  length (D.c_times_quotient local) = 8%nat /\ length (D.carry local) = 8%nat /\
  mul_shape (D.c_times_quotient_lower local) /\ mul_shape (D.c_times_quotient_upper local).

Lemma Fof_bool_neq0 (b : bool) : Fof_bool b <> F0 <-> b = true.
Proof. destruct b; cbn; split; try congruence; intros _; apply F1_neq_0. Qed.

Lemma sats_if (g : bool) (x y : F) :
  sats (when (Fof_bool g) (assert_eq x y)) <-> (g = true -> x = y).
Proof. rewrite sats_when_eq, Fof_bool_neq0. reflexivity. Qed.

Lemma sats_unless (g : bool) (x y : F) :
  sats (when_not (Fof_bool g) (assert_eq x y)) <-> (g = false -> x = y).
Proof.
  unfold when_not. rewrite sats_when_eq. destruct g; cbn [Fof_bool].
  - split; [discriminate|]. intros _ C. exfalso. apply C. ring.
  - split; [intros H _; apply H; vm_compute; discriminate | auto].
Qed.

Lemma msb_bool (a : F) (cols : U16MSBOperation.Cols) :
  is_u16F a -> sats (U16MSBOperation.eval_msb a cols F1) ->
  U16MSBOperation.msb cols = Fof_bool (2 ^ 15 <=? Fval a).
Proof.
  intros Ha H. rewrite (msb_sound a cols Ha H).
  destruct (Z.ltb_spec (Fval a) (2 ^ 15)), (Z.leb_spec (2 ^ 15) (Fval a)); try lia; reflexivity.
Qed.

Lemma word_ext (x y : Word F) : (forall i, In i (seq 0 4) -> D.limb x i = D.limb y i) -> x = y.
Proof.
  destruct x as [x0 x1 x2 x3], y as [y0 y1 y2 y3]. intros H.
  f_equal; [apply (H 0%nat) | apply (H 1%nat) | apply (H 2%nat) | apply (H 3%nat)]; cbn; auto.
Qed.

(** One limb of the sum: the carry is the integer carry. *)
Lemma limb_sum (p r k kin v : F) :
  is_u16F p -> is_u16F r -> is_bool k -> is_bool kin -> is_u16F v ->
  v = (p + r - k * base16 + kin)%F -> Fval p + Fval r + Fval kin = Fval v + 2 ^ 16 * Fval k.
Proof.
  intros Hp Hr Hk Hi Hv E. unfold base16 in E. apply is_bool_val in Hk, Hi. to_Z E. lia.
Qed.

Lemma list8 {A} (l : list A) :
  length l = 8%nat -> exists x0 x1 x2 x3 x4 x5 x6 x7, l = [x0; x1; x2; x3; x4; x5; x6; x7].
Proof.
  intros H. do 8 (destruct l as [|? l]; [discriminate|]). destruct l; [|discriminate].
  repeat eexists.
Qed.

Lemma is_u16F_sign (n : bool) : is_u16F (Fof_bool n * Fof 65535)%F /\
  Fval (Fof_bool n * Fof 65535)%F = if n then 65535 else 0.
Proof. destruct n; split; vm_compute; reflexivity. Qed.

Lemma congruent (m a b : Z) : (exists k, a = b + k * m) -> a mod m = b mod m.
Proof. intros [k ->]. apply Z_mod_plus_full. Qed.

Lemma in_range_u64 (sgn wrd : bool) (x : Z) :
  in_range sgn wrd x -> as_u64 x = if x <? 0 then x + 2 ^ 64 else x.
Proof.
  intros H. unfold as_u64, as_unsigned. destruct (Z.ltb_spec x 0).
  - symmetry. apply (Z.mod_unique x (2 ^ 64) (-1)); destruct sgn, wrd; cbn [in_range] in H; lia.
  - apply Z.mod_small. destruct sgn, wrd; cbn [in_range] in H; lia.
Qed.

(** The absolute value: the operand itself, or its two's complement. *)
Lemma abs_sound (sgn wrd : bool) (x ab : Word F) (op : AddOperation.Cols) (z : Z) :
  valid_word x -> valid_word ab -> in_range sgn wrd z -> word_val x = as_u64 z ->
  ((z <? 0) = false -> x = ab) ->
  sats (AddOperation.eval x ab op (Fof_bool (z <? 0))) ->
  ((z <? 0) = true -> AddOperation.value op = word_zero) ->
  word_val ab = Z.abs z.
Proof.
  intros Vx Va Hz Ex Hp Hadd Hz0. pose proof (in_range_u64 _ _ _ Hz) as Eu. rewrite Eu in Ex.
  destruct (Z.ltb_spec z 0).
  - destruct (add_sound _ _ _ Vx Va Hadd) as [_ E]. rewrite (Hz0 eq_refl) in E.
    change (word_val word_zero) with 0 in E. unfold wrapping_add, as_u64, as_unsigned in E. rewrite Ex in E.
    pose proof (word_val_bound ab Va) as B. unfold is_u in B.
    symmetry in E. apply Z.mod_divide in E; [|lia]. destruct E as [k E].
    assert (- 2 ^ 63 <= z) by (destruct sgn, wrd; cbn [in_range] in Hz; lia). lia.
  - rewrite <- (Hp eq_refl). lia.
Qed.

(** The operands of the signed overflow, by the words that are compared. *)
Definition min_of (wrd : bool) : Z := if wrd then - 2 ^ 31 else - 2 ^ 63.

Lemma signed_min (wrd : bool) (x : Z) : is_u64 x ->
  (operand_of true wrd x =? min_of wrd) = if wrd then x mod 2 ^ 32 =? 2 ^ 31 else x =? 2 ^ 63.
Proof.
  intros Hx. pose proof (Z.mod_pos_bound x (2 ^ 32) ltac:(lia)).
  destruct wrd; cbn [operand_of min_of]; unfold as_i32, as_i64, as_signed.
  - change (2 ^ (32 - 1)) with (2 ^ 31). apply Bool.eq_iff_eq_true. rewrite !Z.eqb_eq.
    destruct (Z.ltb_spec (x mod 2 ^ 32) (2 ^ 31)); lia.
  - unfold is_u in Hx. rewrite (Z.mod_small x) by lia. change (2 ^ (64 - 1)) with (2 ^ 63).
    apply Bool.eq_iff_eq_true. rewrite !Z.eqb_eq. destruct (Z.ltb_spec x (2 ^ 63)); lia.
Qed.

Lemma signed_minus1 (wrd : bool) (x : Z) : is_u64 x ->
  (operand_of true wrd x =? -1) = if wrd then x mod 2 ^ 32 =? 2 ^ 32 - 1 else x =? 2 ^ 64 - 1.
Proof.
  intros Hx. pose proof (Z.mod_pos_bound x (2 ^ 32) ltac:(lia)).
  destruct wrd; cbn [operand_of]; unfold as_i32, as_i64, as_signed.
  - change (2 ^ (32 - 1)) with (2 ^ 31). apply Bool.eq_iff_eq_true. rewrite !Z.eqb_eq.
    destruct (Z.ltb_spec (x mod 2 ^ 32) (2 ^ 31)); lia.
  - unfold is_u in Hx. rewrite (Z.mod_small x) by lia. change (2 ^ (64 - 1)) with (2 ^ 63).
    apply Bool.eq_iff_eq_true. rewrite !Z.eqb_eq. destruct (Z.ltb_spec x (2 ^ 63)); lia.
Qed.

Lemma truncated_val (w : Word F) : valid_word w ->
  valid_word (D.truncated w) /\ word_val (D.truncated w) = word_val w mod 2 ^ 32.
Proof.
  intros Hw. rewrite (word_low32 w Hw). destruct Hw as (V0 & V1 & _). split.
  - repeat split; try assumption; vm_compute; reflexivity.
  - unfold word_val, D.truncated. cbn [limb0 limb1 limb2 limb3]. change (Fval F0) with 0. lia.
Qed.

Lemma limb_zero (i : nat) : D.limb word_zero i = F0.
Proof. do 4 (destruct i as [|i]; [reflexivity|]). destruct i; reflexivity. Qed.

Lemma word_is_zero_val (w : Word F) : valid_word w -> word_is_zero w = (word_val w =? 0).
Proof.
  intros Hw. apply Bool.eq_iff_eq_true. unfold word_is_zero. rewrite Z.eqb_eq, forallb_forall. split.
  - intros H. assert (E : w = word_zero).
    { apply word_ext. intros i Hi. transitivity F0; [|symmetry; apply limb_zero].
      apply Feqb_eq, H. cbn in Hi. destruct w. unfold D.limb. split_hyps.
      destruct Hi as [<- | [<- | [<- | [<- | []]]]]; cbn; auto. }
    rewrite E. reflexivity.
  - intros H. assert (E : w = word_zero) by (apply word_val_inj; [assumption | repeat split; vm_compute; reflexivity | exact H]).
    rewrite E. cbn. intros x Hx. apply Feqb_eq. intuition.
Qed.

Lemma sats_cond (g : bool) (l : list Emit) :
  sats (when (Fof_bool g) l) -> g = true -> sats l.
Proof. intros H ->. apply (proj1 (sats_when_1 l)) in H. exact H. Qed.

Lemma limb_sum_zero (w : Word F) : valid_word w ->
  fold_left (fun acc i => (acc + D.limb w i)%F) (seq 0 4) F0 = F0 -> word_val w = 0.
Proof.
  intros (V0 & V1 & V2 & V3) E. unfold D.limb in E. cbn [fold_left seq nth word_list] in E. to_Z E.
  unfold word_val. F_lia.
Qed.

Section RealRow.
Context (local : D.Cols) (sgn wrd isdiv : bool).
Context (Hfl : flags_are local sgn wrd isdiv) (Hreal : D.is_real local = F1) (Hsh : div_shape local).
Context (Hs : sats (D.eval_arith local)).
Context (Vb : valid_word (RTypeReader.b (D.adapter local))) (Vc : valid_word (RTypeReader.c (D.adapter local))).

Let bi := RTypeReader.b (D.adapter local).
Let ci := RTypeReader.c (D.adapter local).

(** The blocks of the constraints. *)
Lemma arith_parts :
  sats (D.eval_signs local) /\ sats (D.eval_operands local) /\ sats (D.eval_comps local) /\
  sats (D.eval_product local) /\ sats (D.eval_overflow local) /\ sats (D.eval_sum local) /\
  sats (D.eval_result local) /\ sats (D.eval_rem_sign local) /\ sats (D.eval_div_by_zero local) /\
  sats (D.eval_rem_range local) /\ sats (D.eval_msbs local) /\ sats (D.eval_ranges local).
Proof. unfold D.eval_arith in Hs. rewrite !sats_app in Hs. tauto. Qed.

Lemma not_word : D.is_real_not_word local = Fof_bool (negb wrd).
Proof.
  destruct arith_parts as (H & _). unfold D.eval_signs in H. rewrite sats_app, sats_eq in H.
  destruct H as [-> _]. rewrite Hreal, (fl_word _ _ _ _ Hfl). destruct wrd; cbn; ring.
Qed.

Lemma quotient_valid : valid_word (D.quotient local) /\ valid_word (D.remainder local) /\
  Forall is_u16F (D.c_times_quotient local) /\ Forall is_bool (D.carry local).
Proof.
  destruct arith_parts as (_ & _ & _ & _ & _ & _ & _ & _ & _ & _ & _ & H). unfold D.eval_ranges in H.
  rewrite Hreal, !sats_app, !sats_range16 in H by apply F1_neq_0. destruct H as (Hq & Hr & Hc & Hcq).
  rewrite !valid_word_Forall. repeat split; try assumption.
  apply Forall_forall. intros x Hx. rewrite sats_flat_map in Hc. apply (proj1 (sats_bool x)), Hc, Hx.
Qed.

Lemma msbs :
  U16MSBOperation.msb (D.b_msb local) = Fof_bool (2 ^ 15 <=? Fval (top wrd bi)) /\
  U16MSBOperation.msb (D.c_msb local) = Fof_bool (2 ^ 15 <=? Fval (top wrd ci)) /\
  U16MSBOperation.msb (D.rem_msb local) = Fof_bool (2 ^ 15 <=? Fval (top wrd (D.remainder local))) /\
  (wrd = true -> U16MSBOperation.msb (D.quot_msb local) = Fof_bool (2 ^ 15 <=? Fval (limb1 (D.quotient local)))).
Proof.
  destruct arith_parts as (_ & _ & _ & _ & _ & _ & _ & _ & _ & _ & H & _).
  destruct quotient_valid as (Vq & Vr & _). unfold D.eval_msbs in H.
  rewrite !sats_app, not_word, (fl_word _ _ _ _ Hfl) in H. unfold bi, ci, D.limb in *.
  destruct Vb as (_ & Vb1 & _ & Vb3), Vc as (_ & Vc1 & _ & Vc3), Vr as (_ & Vr1 & _ & Vr3), Vq as (_ & Vq1 & _ & Vq3).
  cbn [word_list nth] in H. destruct H as (H1 & H2 & H3 & H4 & H5 & H6 & H7).
  destruct wrd; cbn [negb Fof_bool top] in *; repeat split; try discriminate; intros;
    apply msb_bool; assumption.
Qed.

Lemma negs :
  D.b_neg local = Fof_bool (neg sgn wrd bi) /\ D.c_neg local = Fof_bool (neg sgn wrd ci) /\
  D.rem_neg local = Fof_bool (neg sgn wrd (D.remainder local)).
Proof.
  destruct arith_parts as (H & _). destruct msbs as (Mb & Mc & Mr & _).
  unfold D.eval_signs in H. rewrite sats_app, sats_flat_map in H. destruct H as [_ H].
  rewrite (fl_signed _ _ _ _ Hfl) in H. unfold neg.
  pose proof (H (U16MSBOperation.msb (D.b_msb local), D.b_neg local) ltac:(cbn; auto)) as H1.
  pose proof (H (U16MSBOperation.msb (D.rem_msb local), D.rem_neg local) ltac:(cbn; auto)) as H2.
  pose proof (H (U16MSBOperation.msb (D.c_msb local), D.c_neg local) ltac:(cbn; auto)) as H3.
  cbn [fst snd] in H1, H2, H3. rewrite sats_eq in H1, H2, H3.
  rewrite <- H1, <- H2, <- H3, Mb, Mc, Mr, !Fof_bool_mul. rewrite !(andb_comm sgn). auto.
Qed.

Let B := operand_of sgn wrd (word_val bi).
Let C := operand_of sgn wrd (word_val ci).
Let Q := operand_of sgn wrd (word_val (D.quotient local)).
Let R := operand_of sgn wrd (word_val (D.remainder local)).

Lemma b_extended :
  valid_word (D.b local) /\ word_val (D.b local) = as_u64 B /\ neg sgn wrd bi = (B <? 0) /\
  operand_of sgn false (word_val (D.b local)) = B.
Proof.
  destruct arith_parts as (_ & H & _). destruct negs as (Nb & _ & _). unfold D.eval_operands in H.
  rewrite sats_app, !sats_flat_map in H. destruct H as [H01 H23].
  pose proof (H01 0%nat ltac:(cbn; auto)) as H0. pose proof (H01 1%nat ltac:(cbn; auto)) as H1.
  pose proof (H23 2%nat ltac:(cbn; auto)) as H2. pose proof (H23 3%nat ltac:(cbn; auto)) as H3.
  rewrite sats_app, !sats_eq in H0, H1, H2, H3. rewrite (fl_word _ _ _ _ Hfl), Nb in H2, H3.
  apply extended_operand; [exact Vb | symmetry; apply H0 | symmetry; apply H1 | |].
  - destruct H2 as [H2 _]. unfold D.limb in H2. cbn [word_list nth] in H2. rewrite H2. fold bi. unfold D.u16_max.
    destruct wrd; cbn [Fof_bool]; ring.
  - destruct H3 as [H3 _]. unfold D.limb in H3. cbn [word_list nth] in H3. rewrite H3. fold bi. unfold D.u16_max.
    destruct wrd; cbn [Fof_bool]; ring.
Qed.

Lemma c_extended :
  valid_word (D.c local) /\ word_val (D.c local) = as_u64 C /\ neg sgn wrd ci = (C <? 0) /\
  operand_of sgn false (word_val (D.c local)) = C.
Proof.
  destruct arith_parts as (_ & H & _). destruct negs as (_ & Nc & _). unfold D.eval_operands in H.
  rewrite sats_app, !sats_flat_map in H. destruct H as [H01 H23].
  pose proof (H01 0%nat ltac:(cbn; auto)) as H0. pose proof (H01 1%nat ltac:(cbn; auto)) as H1.
  pose proof (H23 2%nat ltac:(cbn; auto)) as H2. pose proof (H23 3%nat ltac:(cbn; auto)) as H3.
  rewrite sats_app, !sats_eq in H0, H1, H2, H3. rewrite (fl_word _ _ _ _ Hfl), Nc in H2, H3.
  apply extended_operand; [exact Vc | symmetry; apply H0 | symmetry; apply H1 | |].
  - destruct H2 as [_ H2]. unfold D.limb in H2. cbn [word_list nth] in H2. rewrite H2. fold ci. unfold D.u16_max.
    destruct wrd; cbn [Fof_bool]; ring.
  - destruct H3 as [_ H3]. unfold D.limb in H3. cbn [word_list nth] in H3. rewrite H3. fold ci. unfold D.u16_max.
    destruct wrd; cbn [Fof_bool]; ring.
Qed.

(** The computational form of the quotient or the remainder, and the sign
    extension of a 32-bit result. *)
Lemma comp_extended (comp full : Word F) (m : F) :
  valid_word full -> (wrd = true -> m = Fof_bool (2 ^ 15 <=? Fval (limb1 full))) ->
  sats (D.eval_comp local comp full m) ->
  (valid_word comp /\ word_val comp = as_u64 (operand_of sgn wrd (word_val full)) /\
   neg sgn wrd full = (operand_of sgn wrd (word_val full) <? 0) /\
   operand_of sgn false (word_val comp) = operand_of sgn wrd (word_val full)) /\
  word_val full = result_of wrd (operand_of sgn wrd (word_val full)).
Proof.
  intros Vf Hm H. unfold D.eval_comp in H. rewrite sats_app, !sats_flat_map in H. destruct H as [H01 H23].
  pose proof (H01 0%nat ltac:(cbn; auto)) as H0. pose proof (H01 1%nat ltac:(cbn; auto)) as H1.
  pose proof (H23 2%nat ltac:(cbn; auto)) as H2. pose proof (H23 3%nat ltac:(cbn; auto)) as H3.
  rewrite sats_eq in H0, H1.
  rewrite !sats_app, (fl_word _ _ _ _ Hfl), (fl_not_word _ _ _ _ Hfl), (fl_signed_word _ _ _ _ Hfl),
    (fl_unsigned_word _ _ _ _ Hfl), !sats_if in H2, H3.
  unfold D.limb in *. cbn [word_list nth] in *.
  assert (Hn : wrd = true -> neg sgn wrd full = sgn && (2 ^ 15 <=? Fval (limb1 full)))
    by (intros ->; reflexivity).
  split.
  - apply extended_operand; try assumption.
    + destruct wrd; [|apply H2; reflexivity]. rewrite (Hn eq_refl). destruct sgn; cbn [andb negb] in *.
      * rewrite <- (Hm eq_refl). apply H2; reflexivity.
      * rewrite (proj1 H2 eq_refl). cbn. ring.
    + destruct wrd; [|apply H3; reflexivity]. rewrite (Hn eq_refl). destruct sgn; cbn [andb negb] in *.
      * rewrite <- (Hm eq_refl). apply H3; reflexivity.
      * rewrite (proj1 H3 eq_refl). cbn. ring.
  - unfold result_of. destruct wrd.
    + assert (E : Fof_bool (neg true true full) = m) by (rewrite (Hm eq_refl); reflexivity).
      destruct (extended_operand true true full full Vf eq_refl eq_refl) as (_ & Ev & _).
      * rewrite E. apply H2; reflexivity.
      * rewrite E. apply H3; reflexivity.
      * rewrite Ev at 1. cbn [operand_of]. destruct sgn; cbn [operand_of]; [rewrite as_i32_i32 | rewrite as_i32_u32];
          reflexivity.
    + pose proof (word_val_bound full Vf). destruct sgn; cbn [operand_of]; unfold as_u64, as_i64.
      * rewrite as_unsigned_signed by lia. symmetry. apply as_unsigned_id. assumption.
      * rewrite as_unsigned_idem. symmetry. apply as_unsigned_id. assumption.
Qed.

Lemma q_extended :
  (valid_word (D.quotient_comp local) /\ word_val (D.quotient_comp local) = as_u64 Q /\
   neg sgn wrd (D.quotient local) = (Q <? 0) /\ operand_of sgn false (word_val (D.quotient_comp local)) = Q) /\
  word_val (D.quotient local) = result_of wrd Q.
Proof.
  destruct arith_parts as (_ & _ & H & _). destruct msbs as (_ & _ & _ & M). destruct quotient_valid as (V & _).
  unfold D.eval_comps in H. rewrite sats_app in H. eapply comp_extended; [exact V | exact M | apply H].
Qed.

Lemma r_extended :
  (valid_word (D.remainder_comp local) /\ word_val (D.remainder_comp local) = as_u64 R /\
   neg sgn wrd (D.remainder local) = (R <? 0) /\ operand_of sgn false (word_val (D.remainder_comp local)) = R) /\
  word_val (D.remainder local) = result_of wrd R.
Proof.
  destruct arith_parts as (_ & _ & H & _). destruct msbs as (_ & _ & M & _). destruct quotient_valid as (_ & V & _).
  unfold D.eval_comps in H. rewrite sats_app in H. eapply comp_extended; [exact V | | apply H].
  intros Hw. rewrite M, Hw. reflexivity.
Qed.

(** The product: its low half modulo 2^64, and in a 64-bit operation both. *)
Lemma product_sound :
  word_val (D.half local 0) = (Q * C) mod 2 ^ 64 /\
  (wrd = false -> word_val (D.half local 4) = ((Q * C) mod 2 ^ 128) / 2 ^ 64).
Proof.
  destruct arith_parts as (_ & _ & _ & H & _). destruct q_extended as ((Vq & Eq & _ & Oq) & _).
  destruct c_extended as (Vc' & Ec & _ & Oc). destruct Hsh as (_ & _ & S1 & S2).
  unfold D.eval_product in H. rewrite sats_app, Hreal, (fl_mulh _ _ _ _ Hfl), (fl_mulhu _ _ _ _ Hfl), not_word in H.
  destruct H as [Hl Hu]. split.
  - destruct (mul_lower_sound false false _ _ _ _ _ _ eq_refl S1 Vq Vc' Hl) as [_ E].
    rewrite E. cbn [operand orb]. rewrite Eq, Ec. unfold as_u64, as_unsigned. symmetry. apply Z.mul_mod. lia.
  - intros Hw. rewrite Hw in Hu. cbn [negb andb Fof_bool] in Hu. rewrite !andb_true_r in Hu.
    destruct (mul_upper_sound sgn false F0 F0 (Fof_bool (negb sgn)) _ _ _ _ (andb_false_r _)
                ltac:(destruct sgn; cbn; ring) S2 Vq Vc' Hu) as [_ E].
    rewrite E, orb_false_r. rewrite <- Oq, <- Oc. pose proof (word_val_bound _ Vq). pose proof (word_val_bound _ Vc').
    destruct sgn; cbn [operand operand_of]; [reflexivity|]. unfold as_u64. rewrite !as_unsigned_id by assumption.
    reflexivity.
Qed.

(** The sum with its carries, over the low half and over both halves. *)
Lemma sum_limbs :
  D.is_overflow local = F0 ->
  (exists k, word_val (D.half local 0) + word_val (D.remainder_comp local) = word_val (D.b local) + 2 ^ 64 * k) /\
  (exists k, word_val (D.half local 0) + 2 ^ 64 * word_val (D.half local 4) + word_val (D.remainder_comp local)
     + (if R <? 0 then 2 ^ 128 - 2 ^ 64 else 0)
     = word_val (D.b local) + (if B <? 0 then 2 ^ 128 - 2 ^ 64 else 0) + 2 ^ 128 * k).
Proof.
  intros Ho. destruct arith_parts as (_ & _ & _ & _ & _ & H & _). destruct quotient_valid as (_ & _ & Vp & Vk).
  destruct r_extended as ((Vr & _ & Nr & _) & _). destruct b_extended as (Vb' & _ & Nb & _).
  destruct negs as (Eb & _ & Er). rewrite Nb in Eb. rewrite Nr in Er. destruct Hsh as (L1 & L2 & _).
  unfold D.eval_sum in H. rewrite sats_app, sats_flat_map, Ho in H. destruct H as [H _].
  assert (Hi : forall i, In i (seq 0 8) ->
    (if (i <? 4)%nat then D.limb (D.b local) i else (D.b_neg local * Fof 65535)%F) = D.sum_limb local i).
  { intros i Hin. specialize (H i Hin). apply (proj1 (sats_unless false _ _)) in H; auto. }
  clear H. unfold D.sum_limb, D.half in *. rewrite Eb, Er in Hi.
  destruct (list8 _ L1) as (p0 & p1 & p2 & p3 & p4 & p5 & p6 & p7 & Ep).
  destruct (list8 _ L2) as (k0 & k1 & k2 & k3 & k4 & k5 & k6 & k7 & Ek).
  rewrite Ep in Hi, Vp |- *. rewrite Ek in Hi, Vk. clear Ep Ek L1 L2.
  destruct (D.remainder_comp local) as [r0 r1 r2 r3] eqn:Erc, (D.b local) as [b0 b1 b2 b3] eqn:Ebl.
  clear Erc Ebl.
  destruct (is_u16F_sign (R <? 0)) as [Ur Fr], (is_u16F_sign (B <? 0)) as [Ub Fb].
  set (rx := (Fof_bool (R <? 0) * Fof 65535)%F) in *. set (bx := (Fof_bool (B <? 0) * Fof 65535)%F) in *.
  assert (H0 := Hi 0%nat ltac:(cbn; tauto)). assert (H1 := Hi 1%nat ltac:(cbn; tauto)).
  assert (H2 := Hi 2%nat ltac:(cbn; tauto)). assert (H3 := Hi 3%nat ltac:(cbn; tauto)).
  assert (H4 := Hi 4%nat ltac:(cbn; tauto)). assert (H5 := Hi 5%nat ltac:(cbn; tauto)).
  assert (H6 := Hi 6%nat ltac:(cbn; tauto)). assert (H7 := Hi 7%nat ltac:(cbn; tauto)). clear Hi.
  unfold D.limb in *.
  cbn [Nat.ltb Nat.leb Nat.sub Nat.add nth word_list limb0 limb1 limb2 limb3] in *.
  rewrite !Forall_cons_iff in Vp, Vk. destruct Vr as (? & ? & ? & ?), Vb' as (? & ? & ? & ?).
  cbn [limb0 limb1 limb2 limb3] in *. split_hyps.
  assert (is_bool F0) by (left; reflexivity).
  assert (H0' : b0 = (p0 + r0 - k0 * base16 + F0)%F) by (rewrite H0; ring). clear H0.
  apply limb_sum in H0', H1, H2, H3, H4, H5, H6, H7; try assumption.
  change (Fval F0) with 0 in H0'. unfold word_val. cbn [limb0 limb1 limb2 limb3]. split.
  - exists (Fval k3). lia.
  - exists (Fval k7). destruct (R <? 0), (B <? 0); lia.
Qed.

Lemma operands_range : in_range sgn wrd B /\ in_range sgn wrd C /\ in_range sgn wrd Q /\ in_range sgn wrd R.
Proof. repeat split; apply operand_range. Qed.

(** The equation of division, away from overflow. *)
Lemma division_equation : D.is_overflow local = F0 -> B = C * Q + R.
Proof.
  intros Ho. destruct operands_range as (Rb & Rc & Rq & Rr).
  apply (division_exact sgn wrd); try assumption.
  destruct product_sound as [P0 P4]. destruct (sum_limbs Ho) as [[k0 E0] [k1 E1]].
  destruct r_extended as ((_ & Er & _) & _). destruct b_extended as (_ & Eb & _).
  rewrite Er, Eb in E0, E1. rewrite (in_range_u64 _ _ _ Rb), (in_range_u64 _ _ _ Rr) in E0, E1.
  destruct wrd eqn:Ew.
  - rewrite P0 in E0. pose proof (Z_div_mod_eq_full (Q * C) (2 ^ 64)) as Dq. apply congruent.
    exists (Q * C / 2 ^ 64 + k0 - (if R <? 0 then 1 else 0) + (if B <? 0 then 1 else 0)).
    destruct (R <? 0), (B <? 0); lia.
  - rewrite P0, (P4 eq_refl) in E1. pose proof (Z_div_mod_eq_full (Q * C) (2 ^ 128)) as Dq.
    pose proof (Z_div_mod_eq_full ((Q * C) mod 2 ^ 128) (2 ^ 64)) as Dh.
    rewrite (mod_mod_le (Q * C) 64 128) in Dh by lia. apply congruent.
    exists (Q * C / 2 ^ 128 + k1 - (if R <? 0 then 1 else 0) + (if B <? 0 then 1 else 0)).
    destruct (R <? 0), (B <? 0); lia.
Qed.

Lemma overflow_sound : D.is_overflow local = Fof_bool (sgn && (B =? min_of wrd) && (C =? -1)).
Proof.
  destruct arith_parts as (_ & _ & _ & _ & H & _). unfold D.eval_overflow in H.
  rewrite !sats_app, not_word, (fl_word _ _ _ _ Hfl), (fl_signed _ _ _ _ Hfl), sats_eq in H.
  destruct H as (Hb & Hc & Hbw & Hcw & -> & _). pose proof (word_val_bound _ Vb) as Bb. pose proof (word_val_bound _ Vc) as Bc.
  destruct (truncated_val _ Vb) as [Tb Eb], (truncated_val _ Vc) as [Tc Ec].
  destruct sgn; [|cbn; ring]. unfold B, C. fold bi ci in Bb, Bc. rewrite (signed_min _ _ Bb), (signed_minus1 _ _ Bc).
  destruct wrd; cbn [negb Fof_bool] in *.
  - rewrite (is_equal_word_sound _ _ _ F1 F1_neq_0 Tb (valid_word_from _) Hbw),
      (is_equal_word_sound _ _ _ F1 F1_neq_0 Tc (valid_word_from _) Hcw), Eb, Ec, !word_val_from by (unfold is_u; lia).
    rewrite Fof_bool_mul. fold bi ci. cbn [andb]. ring.
  - rewrite (is_equal_word_sound _ _ _ F1 F1_neq_0 Vb (valid_word_from _) Hb),
      (is_equal_word_sound _ _ _ F1 F1_neq_0 Vc (valid_word_from _) Hc), !word_val_from by (unfold is_u; lia).
    rewrite Fof_bool_mul. fold bi ci. cbn [andb]. ring.
Qed.

Lemma overflow_result :
  D.is_overflow local = F1 -> D.quotient local = D.b local /\ D.remainder local = word_zero.
Proof.
  intros Ho. destruct arith_parts as (_ & _ & _ & _ & H & _). unfold D.eval_overflow in H.
  rewrite !sats_app, sats_flat_map, Ho in H. destruct H as (_ & _ & _ & _ & _ & _ & _ & H).
  split; apply word_ext; intros i Hi; specialize (H i Hi); rewrite sats_app, !sats_when_1, !sats_eq in H.
  - apply H.
  - rewrite (proj2 H). symmetry. apply limb_zero.
Qed.

Lemma c0_sound : IsZeroWordOperation.result (D.is_c_0 local) = Fof_bool (C =? 0).
Proof.
  destruct arith_parts as (_ & _ & _ & _ & _ & _ & _ & _ & H & _). unfold D.eval_div_by_zero in H.
  rewrite !sats_app, Hreal in H. destruct H as [H _]. apply is_zero_word_sound in H; [|apply F1_neq_0].
  destruct c_extended as (Vc' & Ec & _). rewrite H, word_is_zero_val, Ec by assumption. f_equal.
  destruct operands_range as (_ & Rc & _). rewrite (in_range_u64 _ _ _ Rc).
  destruct (Z.ltb_spec C 0); [|reflexivity]. transitivity false; [|symmetry; apply Z.eqb_neq; lia].
  apply Z.eqb_neq. destruct sgn, wrd; cbn [in_range] in Rc; lia.
Qed.

Lemma zero_result :
  C = 0 -> D.quotient local = word_from_u64 (2 ^ 64 - 1) /\ D.remainder_comp local = D.b local.
Proof.
  intros Hc. destruct arith_parts as (_ & _ & _ & _ & _ & _ & _ & _ & H & _). unfold D.eval_div_by_zero in H.
  rewrite !sats_app, !sats_flat_map, c0_sound, Hc in H. destruct H as (_ & H1 & H2).
  split; apply word_ext; intros i Hi.
  - specialize (H1 i Hi). apply (proj1 (sats_when_1 _)), (proj1 (sats_eq _ _)) in H1. rewrite H1.
    cbn in Hi. destruct Hi as [<- | [<- | [<- | [<- | []]]]]; reflexivity.
  - specialize (H2 i Hi). apply (proj1 (sats_when_1 _)), (proj1 (sats_eq _ _)) in H2. exact H2.
Qed.

Lemma abs_values : valid_word (D.abs_c local) /\ valid_word (D.abs_remainder local) /\
  word_val (D.abs_c local) = Z.abs C /\ word_val (D.abs_remainder local) = Z.abs R.
Proof.
  destruct arith_parts as (_ & _ & _ & _ & _ & _ & _ & _ & _ & H & _). unfold D.eval_rem_range in H. cbv zeta in H.
  destruct negs as (_ & Nc & Nr). destruct c_extended as (Vc' & Ec & Sc & _). destruct r_extended as ((Vr & Er & Sr & _) & _).
  rewrite Sc in Nc. rewrite Sr in Nr. destruct operands_range as (_ & Rc & _ & Rr).
  rewrite !sats_app, !sats_flat_map, Hreal, !sats_range16 in H by apply F1_neq_0.
  destruct H as (Hp & Ac & Vac & Zc & Ar & Var & Zr & Ec1 & Er1 & _). rewrite sats_eq in Ec1, Er1.
  apply valid_word_Forall in Vac, Var.
  assert (Hev : D.abs_c_alu_event local = Fof_bool (C <? 0)) by (rewrite Ec1, Nc; ring).
  assert (Hev' : D.abs_rem_alu_event local = Fof_bool (R <? 0)) by (rewrite Er1, Nr; ring).
  rewrite Hev in Ac, Zc. rewrite Hev' in Ar, Zr. rewrite Nc, Nr in Hp.
  assert (Hpos : forall i, In i (seq 0 4) ->
    ((C <? 0) = false -> D.limb (D.c local) i = D.limb (D.abs_c local) i) /\
    ((R <? 0) = false -> D.limb (D.remainder_comp local) i = D.limb (D.abs_remainder local) i)).
  { intros i Hi. specialize (Hp i Hi). rewrite sats_app, !sats_unless in Hp. exact Hp. }
  repeat split; try apply Vac; try apply Var.
  - eapply (abs_sound sgn wrd); [exact Vc' | exact Vac | exact Rc | exact Ec | | exact Ac |].
    + intros Hn. apply word_ext. intros i Hi. apply Hpos; assumption.
    + intros Hn. symmetry. apply sats_word_eq, (sats_cond _ _ Zc Hn).
  - eapply (abs_sound sgn wrd); [exact Vr | exact Var | exact Rr | exact Er | | exact Ar |].
    + intros Hn. apply word_ext. intros i Hi. apply Hpos; assumption.
    + intros Hn. symmetry. apply sats_word_eq, (sats_cond _ _ Zr Hn).
Qed.

Lemma remainder_small : C <> 0 -> Z.abs R < Z.abs C.
Proof.
  intros Hc. destruct abs_values as (Vac & Var & Ec & Er).
  destruct arith_parts as (_ & _ & _ & _ & _ & _ & _ & _ & _ & H & _). unfold D.eval_rem_range in H. cbv zeta in H.
  assert (H0 : IsZeroWordOperation.result (D.is_c_0 local) = F0)
    by (rewrite c0_sound; apply Z.eqb_neq in Hc; rewrite Hc; reflexivity).
  rewrite !sats_app, !sats_flat_map, H0, Hreal in H.
  destruct H as (_ & _ & _ & _ & _ & _ & _ & _ & _ & Hm & Hmult & Hlt & Hbit).
  rewrite sats_eq in Hmult. assert (E1 : D.remainder_check_multiplicity local = F1) by (rewrite <- Hmult; ring).
  rewrite E1 in Hlt, Hbit. apply (proj1 (sats_when_1 _)), (proj1 (sats_eq _ _)) in Hbit.
  assert (Emax : D.max_abs_c_or_1 local = D.abs_c local).
  { apply word_ext. intros i Hi. specialize (Hm i Hi). rewrite sats_eq in Hm. rewrite Hm.
    clear Hm Hi. destruct i as [|i]; cbn [Nat.eqb]; ring. }
  rewrite Emax in Hlt. rewrite (lt_unsigned_sound _ _ _ Var Vac Hlt), Er, Ec in Hbit.
  destruct (Z.ltb_spec (Z.abs R) (Z.abs C)); [assumption|]. exfalso. apply F1_neq_0. exact Hbit.
Qed.

Lemma remainder_sign : (R < 0 -> B < 0) /\ (0 < R -> 0 <= B).
Proof.
  destruct arith_parts as (_ & _ & _ & _ & _ & _ & _ & H & _). unfold D.eval_rem_sign in H. cbv zeta in H.
  destruct negs as (Nb & _ & Nr). destruct b_extended as (_ & _ & Sb & _). destruct r_extended as ((_ & _ & Sr & _) & _).
  destruct quotient_valid as (_ & Vr & _).
  rewrite Sb in Nb. rewrite Sr in Nr. rewrite sats_app, Nb, Nr in H. destruct H as [H1 H2]. split; intros Hr.
  - apply sats_cond in H1; [|apply Z.ltb_lt; exact Hr]. destruct (Z.ltb_spec B 0); [assumption|].
    exfalso. apply F1_neq_0. cbn in H1. symmetry. apply H1. exact I.
  - assert (Hn : (R <? 0) = false) by (apply Z.ltb_ge; lia). rewrite Hn in H2.
    assert (Hs0 : fold_left (fun acc i => (acc + D.limb (D.remainder local) i)%F) (seq 0 4) F0 <> F0).
    { intros E. apply (limb_sum_zero _ Vr) in E. unfold R in Hr. rewrite E in Hr.
      destruct sgn, wrd; vm_compute in Hr; discriminate. }
    apply (proj1 (sats_when _ _ Hs0)) in H2.
    apply (proj1 (sats_when _ _ (ltac:(vm_compute; discriminate) : (F1 - Fof_bool false)%F <> F0))) in H2.
    rewrite sats_zero in H2. destruct (Z.ltb_spec B 0); [|assumption]. exfalso. apply F1_neq_0. exact H2.
Qed.

(** Quotient and remainder are the ones of RISC-V division. *)
Lemma quotient_remainder :
  word_val (D.quotient local) = result_of wrd (riscv_quot B C) /\
  word_val (D.remainder local) = result_of wrd (riscv_rem B C).
Proof.
  destruct q_extended as [_ Eq]. destruct r_extended as [(_ & _ & _ & Or) Er]. unfold riscv_quot, riscv_rem.
  destruct (Z.eqb_spec C 0) as [Hc | Hc].
  - destruct (zero_result Hc) as [Hq Hr]. destruct b_extended as (_ & _ & _ & Ob).
    rewrite Hr, Ob in Or. split; [rewrite Hq; destruct wrd; reflexivity | rewrite Er, <- Or; reflexivity].
  - pose proof overflow_sound as Ho. destruct (sgn && (B =? min_of wrd) && (C =? -1)) eqn:E.
    + destruct (overflow_result Ho) as [Hq Hr]. destruct b_extended as (_ & Eb & _).
      apply andb_prop in E as [E Ec]. apply andb_prop in E as [_ Eb']. apply Z.eqb_eq in Ec, Eb'.
      rewrite Hq, Hr, Eb, Ec, Eb'. split; destruct wrd; reflexivity.
    + destruct remainder_sign as [S1 S2].
      destruct (division_unique B C Q R (division_equation Ho) (remainder_small Hc) S1 S2) as [<- <-]. auto.
Qed.

Lemma divrem_value :
  valid_word (D.a local) /\
  alu_value (div_opcode sgn wrd isdiv) (word_val bi) (word_val ci) = Ok (word_val (D.a local)).
Proof.
  rewrite alu_value_div by (apply word_val_bound; assumption). unfold div_spec. fold B C.
  destruct arith_parts as (_ & _ & _ & _ & _ & _ & H & _). destruct quotient_valid as (Vq & Vr & _).
  destruct quotient_remainder as [Eq Er]. unfold D.eval_result in H.
  rewrite sats_flat_map, (fl_quot _ _ _ _ Hfl), (fl_rem _ _ _ _ Hfl) in H.
  assert (Ea : D.a local = if isdiv then D.quotient local else D.remainder local).
  { apply word_ext. intros i Hi. specialize (H i Hi). rewrite sats_app, !sats_if in H. symmetry.
    destruct isdiv; [apply (proj1 H); reflexivity | apply (proj2 H); reflexivity]. }
  rewrite Ea. destruct isdiv; rewrite ?Eq, ?Er; auto.
Qed.
End RealRow.

(** ** The chip *)

(** The selector that is set gives the kind of operation. *)
Lemma divrem_selector (local : D.Cols) :
  sats (D.eval_flags local) ->
  exists sgn wrd isdiv, flags_are local sgn wrd isdiv /\
    weighted (D.flags local) (map opcode_num D.opcodes) = Fof (opcode_num (div_opcode sgn wrd isdiv)).
Proof.
  intros H. unfold D.eval_flags in H. rewrite sats_app, sats_flat_map, sats_eq in H. destruct H as [Hb Es].
  assert (Hf : exists n, (n < length (D.flags local))%nat /\
                 forall j, nth j (D.flags local) F0 = if Nat.eqb j n then F1 else F0).
  { apply onehot; [|cbn; unfold KOALA_BEAR_ORDER; lia | rewrite Es; unfold D.flags; cbn [fold_right]; ring].
    apply Forall_forall. intros x Hx. apply (proj1 (sats_bool x)), Hb. unfold D.flags in Hx. cbn in Hx |- *. tauto. }
  unfold D.flags in *.
  flags_case Hf;
    [exists false, false, true | exists false, false, false | exists true, false, true | exists true, false, false
    | exists true, true, true | exists true, true, false | exists false, true, true | exists false, true, false];
    (split;
     [ split; unfold D.is_word_op, D.is_not_word_op, D.is_signed_word_op, D.is_unsigned_word_op, D.is_signed_type;
       rewrite ?Ef, ?Ef0, ?Ef1, ?Ef2, ?Ef3, ?Ef4, ?Ef5, ?Ef6; cbn [andb negb Fof_bool]; ring
     | rewrite Ef, Ef0, Ef1, Ef2, Ef3, Ef4, Ef5, Ef6; unfold weighted;
       cbn [D.opcodes map combine fold_left fst snd div_opcode]; ring ]).
Qed.

Lemma quiet_is_zero (x : F) (cols : IsZeroOperation.Cols) (r : F) : quiet (IsZeroOperation.eval_is_zero x cols r).
Proof. unfold IsZeroOperation.eval_is_zero. auto 10 with quiet. Qed.
#[export] Hint Resolve quiet_is_zero : quiet.

Lemma quiet_zero_word (x : Word F) (cols : IsZeroWordOperation.Cols) (r : F) :
  quiet (IsZeroWordOperation.eval_zero_word x cols r).
Proof. unfold IsZeroWordOperation.eval_zero_word. auto 20 with quiet. Qed.
#[export] Hint Resolve quiet_zero_word : quiet.

Lemma quiet_equal_word (x y : Word F) (cols : IsEqualWordOperation.Cols) (r : F) :
  quiet (IsEqualWordOperation.eval_is_equal_word x y cols r).
Proof. unfold IsEqualWordOperation.eval_is_equal_word. auto 20 with quiet. Qed.
#[export] Hint Resolve quiet_equal_word : quiet.

Lemma quiet_divrem (local : D.Cols) : quiet (D.eval_arith local).
Proof.
  unfold D.eval_arith, D.eval_signs, D.eval_operands, D.eval_comps, D.eval_comp, D.eval_product, D.eval_overflow, D.eval_sum, D.eval_result,
      D.eval_rem_sign, D.eval_div_by_zero, D.eval_rem_range, D.eval_msbs, D.eval_ranges, D.eval_flags, when_not; cbv zeta.
  repeat first [solve [auto 4 with quiet] | apply quiet_app | apply quiet_flat_map; intros ?].
Qed.

Lemma divrem_chip_steps (rrs : MajorOpcodes) (cfg : Config) (row : list Emit) (local : D.Cols) :
  sats row -> D.eval local rrs cfg = Ok row -> div_shape local -> D.is_real local = F1 -> step_row row.
Proof.
  intros Hs E Hsh Hr. unfold D.eval in E. chip_row E. rewrite Hr in *.
  apply chip_step; [apply quiet_divrem | auto with quiet | assumption |].
  intros i Vb Vc Eo Ho. cbn [rd_b rd_c RType_reader] in *.
  assert (Hfl : sats (D.eval_flags local)) by (unfold D.eval_arith in Ho; rewrite !sats_app in Ho; tauto).
  destruct (divrem_selector local Hfl) as (sgn & wrd & isdiv & Hf & Ew).
  rewrite Ew in Eo. apply opcode_of_F in Eo. rewrite <- Eo.
  apply (divrem_value local sgn wrd isdiv); assumption.
Qed.

(** ** Trace generation's quotient and remainder *)

Lemma as_i32_u32_eq0 (c : Z) : (as_i32 c =? 0) = (as_u32 c =? 0).
Proof.
  unfold as_i32, as_u32, as_unsigned. rewrite <- as_signed_mod. pose proof (Z.mod_pos_bound c (2 ^ 32) ltac:(lia)) as B.
  rewrite as_signed_small by exact B. change (2 ^ (32 - 1)) with (2 ^ 31).
  destruct (Z.ltb_spec (c mod 2 ^ 32) (2 ^ 31)); [reflexivity|]. rewrite !(proj2 (Z.eqb_neq _ _)) by lia. reflexivity.
Qed.

Lemma quotient_remainder_alu (o : Opcode) (b c : Z) :
  is_u64 b -> is_u64 c ->
  (o = DIV \/ o = DIVU \/ o = DIVW \/ o = DIVUW -> alu_value o b c = Ok (fst (get_quotient_and_remainder b c o))) /\
  (o = REM \/ o = REMU \/ o = REMW \/ o = REMUW -> alu_value o b c = Ok (snd (get_quotient_and_remainder b c o))).
Proof.
  intros Hb Hc. unfold get_quotient_and_remainder.
  split; intros Ho; repeat destruct Ho as [Ho | Ho]; subst o; cbn; rewrite ?andb_true_r, ?andb_false_r, ?as_i32_u32_eq0;
    destruct (c =? 0), (as_u32 c =? 0); reflexivity.
Qed.
