(* ===== verification/DivRemComplete.v ===== *)
(** * Trace generation of the division chip

    The row [event_to_row] makes for a division satisfies the constraints of
    [DivRemChip], with exactly the recorded lookups, and so does the padding row. *)

From Stdlib Require Import ZArith Lia List Bool Permutation Zquot.
From S2P Require Import Prelude Words Isa Field Air AirFacts SmallInverse Operations Compare Bitwise Mul.
From S2P Require Import Adapter AdapterFacts Row Readers AluChips AluChipFacts MemoryChipFacts MemoryComplete ControlChips ControlComplete.
From S2P Require Import DivRem DivRemFacts.
Import ListNotations.
Open Scope Z_scope.

(** ** Limbs of integers

    The low [n] limbs of an integer in two's complement. *)
Fixpoint limbs (n : nat) (x : Z) : list Z :=
  match n with O => [] | S n => x mod 2 ^ 16 :: limbs n (x / 2 ^ 16) end.

Lemma limbs_bound (n : nat) (x : Z) : Forall (fun l => 0 <= l < 2 ^ 16) (limbs n x).
Proof. revert x. induction n; intros; constructor; [apply Z.mod_pos_bound; lia | auto]. Qed.

Lemma limbs_length (n : nat) (x : Z) : length (limbs n x) = n.
Proof. revert x. induction n; intros; cbn; auto. Qed.

Lemma limbs_mod (n : nat) (k x : Z) : 16 * Z.of_nat n <= k -> limbs n (x mod 2 ^ k) = limbs n x.
Proof.
  revert k x. induction n as [|n IH]; intros k x Hk; [reflexivity|]. cbn [limbs]. f_equal.
  - apply mod_mod_le. lia.
  - rewrite <- (IH (k - 16) (x / 2 ^ 16)) by lia. f_equal.
    replace (2 ^ k) with (2 ^ 16 * 2 ^ (k - 16)) by (rewrite <- Z.pow_add_r by lia; f_equal; lia).
    rewrite Z.rem_mul_r by (try apply pow2_pos; lia). rewrite Z.mul_comm, Z.div_add by lia.
    rewrite Z.div_small by (apply Z.mod_pos_bound; lia). lia.
Qed.

Lemma limbs_app (a b : nat) (x : Z) : limbs (a + b) x = limbs a x ++ limbs b (x / 2 ^ (16 * Z.of_nat a)).
Proof.
  revert x. induction a as [|a IH]; intros x.
  - cbn [limbs Nat.add app]. change (2 ^ (16 * Z.of_nat 0)) with 1. rewrite Z.div_1_r. reflexivity.
  - cbn [limbs Nat.add app]. f_equal. rewrite IH. do 2 f_equal. rewrite Z.div_div by (try apply pow2_pos; lia).
    f_equal. rewrite <- Z.pow_add_r by lia. f_equal. lia.
Qed.

Lemma limbs_4 (x : Z) : limbs 4 x = [limb16 x 0; limb16 x 1; limb16 x 2; limb16 x 3].
Proof.
  cbn [limbs]. unfold limb16. rewrite !Z.div_div by lia. change (2 ^ (16 * 0)) with 1. rewrite Z.div_1_r. reflexivity.
Qed.

Lemma word_of_limbs (x : Z) : word_list (word_from_u64 x) = map Fof (limbs 4 x).
Proof. rewrite limbs_4, word_from_u64_limbs. reflexivity. Qed.

(** Sign extension: the upper limbs of an integer are those of its sign. *)
Definition sign_limb (x : Z) : Z := if x <? 0 then 65535 else 0.

Lemma limbs_sign (n : nat) (k x : Z) :
  0 <= k -> - 2 ^ k <= x < 2 ^ k -> limbs n (x / 2 ^ k) = repeat (sign_limb x) n.
Proof.
  intros Hk Hx. assert (E : x / 2 ^ k = if x <? 0 then -1 else 0).
  { destruct (Z.ltb_spec x 0); symmetry; [apply (Z.div_unique_pos x (2 ^ k) (-1) (x + 2 ^ k)) | apply (Z.div_unique_pos x (2 ^ k) 0 x)]; lia. }
  rewrite E. unfold sign_limb. clear E Hx Hk. destruct (x <? 0); induction n as [|n IH]; cbn [limbs repeat]; [reflexivity| |reflexivity|];
    f_equal; exact IH.
Qed.

Lemma le_bytes_cong (n : nat) (x y : Z) :
  x mod 2 ^ (8 * Z.of_nat n) = y mod 2 ^ (8 * Z.of_nat n) -> le_bytes n x = le_bytes n y.
Proof.
  revert x y. induction n as [|n IH]; intros x y E; [reflexivity|]. cbn [le_bytes].
  replace (8 * Z.of_nat (S n)) with (8 + 8 * Z.of_nat n) in E by lia. rewrite Z.pow_add_r, !Z.rem_mul_r in E by (try apply pow2_pos; lia).
  pose proof (Z.mod_pos_bound x (2 ^ 8) ltac:(lia)). pose proof (Z.mod_pos_bound y (2 ^ 8) ltac:(lia)).
  f_equal; [|apply IH]; lia.
Qed.

Lemma upper_cong (x y : Z) : x mod 2 ^ 128 = y mod 2 ^ 128 -> (x / 2 ^ 64) mod 2 ^ 64 = (y / 2 ^ 64) mod 2 ^ 64.
Proof.
  change (2 ^ 128) with (2 ^ 64 * 2 ^ 64). rewrite !Z.rem_mul_r by lia. intros E.
  pose proof (Z.mod_pos_bound x (2 ^ 64) ltac:(lia)). pose proof (Z.mod_pos_bound y (2 ^ 64) ltac:(lia)). lia.
Qed.

(** Bytes in pairs are limbs. *)
Lemma limb_of_bytes (x : Z) : x mod 2 ^ 8 + 2 ^ 8 * (x / 2 ^ 8 mod 2 ^ 8) = x mod 2 ^ 16.
Proof. change (2 ^ 16) with (2 ^ 8 * 2 ^ 8). rewrite Z.rem_mul_r by lia. reflexivity. Qed.

Lemma product_limbs_spec (x : Z) : D.product_limbs (le_bytes 16 x) = limbs 8 x.
Proof.
  unfold D.product_limbs. cbn [seq map Nat.mul Nat.add nth le_bytes limbs]. rewrite !limb_of_bytes.
  assert (E : forall y, y / 2 ^ 8 / 2 ^ 8 = y / 2 ^ 16) by (intros y; rewrite Z.div_div by lia; reflexivity).
  rewrite !E. reflexivity.
Qed.

(** Adding the remainder limb by limb is addition. *)
Lemma add_remainder_spec (n : nat) (carry x y : Z) :
  snd (D.add_remainder carry (combine (limbs n x) (limbs n y))) = limbs n (x + y + carry).
Proof.
  revert carry x y. induction n as [|n IH]; intros carry x y; [reflexivity|]. cbn [limbs combine D.add_remainder].
  specialize (IH ((x mod 2 ^ 16 + y mod 2 ^ 16 + carry) / 2 ^ 16) (x / 2 ^ 16) (y / 2 ^ 16)).
  destruct (D.add_remainder _ _) as [cs xs]. cbn [snd] in *. f_equal.
  - change 0xFFFF with (2 ^ 16 - 1). rewrite land_mask by lia. unfold as_u16, as_unsigned. rewrite Zmod_mod. dlia.
  - rewrite IH. f_equal. dlia.
Qed.

(** The carries are booleans, and each limb is a sum. *)
Lemma add_remainder_limbs (carry : Z) (l : list (Z * Z)) :
  0 <= carry <= 1 -> Forall (fun p => 0 <= fst p < 2 ^ 16 /\ 0 <= snd p < 2 ^ 16) l ->
  let '(cs, xs) := D.add_remainder carry l in
  Forall (fun k => 0 <= k <= 1) cs /\
  forall i, (i < length l)%nat ->
    fst (nth i l (0, 0)) + snd (nth i l (0, 0)) + nth i (carry :: cs) 0 = nth i xs 0 + 2 ^ 16 * nth i cs 0.
Proof.
  intros Hk H. revert carry Hk. induction H as [|[p r] l [Hp Hr] _ IH]; intros carry Hk; cbn [D.add_remainder].
  { split; [constructor|]. cbn. lia. }
  cbn [fst snd] in Hp, Hr. assert (Hx : 0 <= (p + r + carry) / 2 ^ 16 <= 1) by dlia.
  specialize (IH _ Hx). destruct (D.add_remainder _ l) as [cs xs]. destruct IH as [Hf Hi]. split; [constructor; assumption|].
  intros [|i] Hl; cbn [nth fst snd length] in *.
  - change 0xFFFF with (2 ^ 16 - 1). rewrite land_mask by lia. unfold as_u16, as_unsigned. rewrite Zmod_mod. dlia.
  - apply Hi. lia.
Qed.

(** ** The operands *)

Lemma operand_cong (sgn wrd : bool) (x : Z) :
  operand_of sgn wrd x mod 2 ^ (if wrd then 32 else 64) = x mod 2 ^ (if wrd then 32 else 64).
Proof.
  destruct sgn, wrd; cbn [operand_of].
  - apply (as_signed_cong 32). lia.
  - apply (as_signed_cong 64). lia.
  - apply Zmod_mod.
  - apply Zmod_mod.
Qed.

Lemma operand_limbs (sgn wrd : bool) (x : Z) :
  limbs 4 (operand_of sgn wrd x) =
  if wrd then limbs 2 x ++ repeat (sign_limb (operand_of sgn wrd x)) 2 else limbs 4 x.
Proof.
  pose proof (operand_cong sgn wrd x) as E. pose proof (operand_range sgn wrd x) as B. destruct wrd.
  - rewrite (limbs_app 2 2). f_equal.
    + rewrite <- (limbs_mod 2 32 (operand_of _ _ _)), E, limbs_mod by lia. reflexivity.
    + apply (limbs_sign 2 32); [lia|]. destruct sgn; cbn [in_range] in B; lia.
  - rewrite <- (limbs_mod 4 64 (operand_of _ _ _)), E, limbs_mod by lia. reflexivity.
Qed.

(** The sign of an operand is the top bit of its upper limb. *)
Lemma operand_sign (sgn wrd : bool) (x : Z) :
  is_u64 x -> (operand_of sgn wrd x <? 0) = sgn && (2 ^ 15 <=? limb16 x (if wrd then 1 else 3)).
Proof.
  intros Hx. pose proof (valid_word_from x) as V. set (w := word_from_u64 x) in *.
  set (s := (if wrd then Fof_bool (neg sgn wrd w) * Fof 65535 else F0)%F).
  destruct (extended_operand sgn wrd w (mkWord (limb0 w) (limb1 w) (if wrd then s else limb2 w) (if wrd then s else limb3 w)) V)
    as (_ & _ & E & _); try reflexivity; try (destruct wrd; reflexivity).
  unfold w in E. rewrite word_val_from in E by exact Hx. rewrite <- E. unfold neg, top.
  rewrite word_from_u64_limbs. destruct wrd; cbn [limb1 limb3]; rewrite Fval_limb16; reflexivity.
Qed.

Lemma as_i32_u64 (x : Z) : as_i32 (as_u64 x) = as_i32 x.
Proof.
  rewrite <- (as_i32_u32 (as_u64 x)), <- (as_i32_u32 x). unfold as_u32, as_u64, as_unsigned.
  rewrite (mod_mod_le _ 32 64) by lia. reflexivity.
Qed.

(** Results: the operand of a result is the integer it stands for. *)
Lemma operand_result (sgn wrd : bool) (x : Z) : in_range sgn wrd x -> operand_of sgn wrd (result_of wrd x) = x.
Proof.
  intros H. destruct sgn, wrd; cbn [operand_of result_of in_range] in *.
  - rewrite as_i32_u64, as_i32_i32. apply as_signed_id; lia.
  - unfold as_i64, as_u64, as_unsigned. rewrite as_signed_mod. apply as_signed_id; lia.
  - unfold as_u32, as_u64, as_unsigned. rewrite (mod_mod_le _ 32 64) by lia. unfold as_i32.
    rewrite as_signed_cong by lia. apply Z.mod_small. lia.
  - unfold as_u64. rewrite as_unsigned_idem. apply as_unsigned_id. exact H.
Qed.

Lemma result_bound (wrd : bool) (x : Z) : is_u64 (result_of wrd x).
Proof. destruct wrd; apply as_unsigned_bound; lia. Qed.

(** A 32-bit result is sign extended. *)
Lemma result_limbs (x : Z) : limbs 4 (result_of true x) = limbs 2 (result_of true x) ++
  repeat (if 2 ^ 15 <=? limb16 (result_of true x) 1 then 65535 else 0) 2.
Proof.
  pose proof (result_bound true x) as B. pose proof (operand_limbs true true (result_of true x)) as E.
  pose proof (operand_sign true true (result_of true x) B) as S. cbn [andb] in S. unfold sign_limb in E. rewrite S in E.
  rewrite <- E. cbn [operand_of result_of]. rewrite as_i32_u64, as_i32_i32. apply limbs_mod. lia.
Qed.

(** ** Division *)

Section Division.
Context (sgn wrd : bool) (b c : Z) (Hb : is_u64 b) (Hc : is_u64 c).

Definition div_B : Z := operand_of sgn wrd b.
Definition div_C : Z := operand_of sgn wrd c.
Definition div_R : Z := riscv_rem div_B div_C.
Definition div_quotient : Z := result_of wrd (riscv_quot div_B div_C).
Definition div_remainder : Z := result_of wrd div_R.
Definition div_Q : Z := operand_of sgn wrd div_quotient.
Definition div_overflow : bool := sgn && (div_B =? min_of wrd) && (div_C =? -1).

Lemma quotient_remainder_spec (isdiv : bool) :
  get_quotient_and_remainder b c (div_opcode sgn wrd isdiv) = (div_quotient, div_remainder).
Proof.
  assert (E : forall d, get_quotient_and_remainder b c (div_opcode sgn wrd isdiv)
    = get_quotient_and_remainder b c (div_opcode sgn wrd d)) by (intros d; destruct sgn, wrd, isdiv, d; reflexivity).
  rewrite (surjective_pairing (get_quotient_and_remainder _ _ _)). f_equal.
  - destruct (quotient_remainder_alu (div_opcode sgn wrd true) b c Hb Hc) as [H _].
    rewrite (E true). apply Ok_inj. rewrite <- H by (destruct sgn, wrd; cbn; auto). apply alu_value_div; assumption.
  - destruct (quotient_remainder_alu (div_opcode sgn wrd false) b c Hb Hc) as [_ H].
    rewrite (E false). apply Ok_inj. rewrite <- H by (destruct sgn, wrd; cbn; auto). apply alu_value_div; assumption.
Qed.

Lemma div_ranges : in_range sgn wrd div_B /\ in_range sgn wrd div_C /\ in_range sgn wrd div_Q /\ in_range sgn wrd div_R.
Proof.
  split; [apply operand_range|]. split; [apply operand_range|]. split; [apply operand_range|].
  pose proof (operand_range sgn wrd b) as Rb. pose proof (operand_range sgn wrd c) as Rc.
  unfold div_R, riscv_rem, div_B, div_C. destruct (Z.eqb_spec (operand_of sgn wrd c) 0) as [|Hn]; [exact Rb|].
  pose proof (Z.rem_bound_abs (operand_of sgn wrd b) _ Hn). pose proof (Z.rem_nonneg (operand_of sgn wrd b) _ Hn).
  destruct sgn, wrd; cbn [in_range] in *; lia.
Qed.

Lemma div_R_operand : operand_of sgn wrd div_remainder = div_R.
Proof. apply operand_result, div_ranges. Qed.

(** The quotient fits except in the overflow. *)
Lemma quotient_range : div_C <> 0 -> div_overflow = false -> in_range sgn wrd (Z.quot div_B div_C).
Proof.
  intros Hn Ho. destruct div_ranges as (Rb & Rc & _). unfold div_overflow in Ho.
  set (B := div_B) in *. set (C := div_C) in *. set (q := Z.quot B C).
  assert (Hq : Z.abs q * Z.abs C <= Z.abs B).
  { unfold q. rewrite <- Z.quot_abs by exact Hn. rewrite Z.mul_comm. apply Z.mul_quot_le; lia. }
  destruct sgn.
  - cbn [andb] in Ho. assert (Hm : in_range true wrd B -> in_range true wrd q).
    { assert (Hc1 : C = 1 \/ C = -1 \/ 2 <= Z.abs C) by lia. destruct Hc1 as [E | [E | E]].
      - unfold q. rewrite E, Z.quot_1_r. auto.
      - assert (q = - B) as -> by (unfold q; rewrite E; change (-1) with (- (1)); rewrite Z.quot_opp_r, Z.quot_1_r by lia; reflexivity).
        rewrite E, andb_true_r in Ho. apply Z.eqb_neq in Ho. destruct wrd; cbn [in_range min_of] in *; lia.
      - assert (2 * Z.abs q <= Z.abs B) by nia. destruct wrd; cbn [in_range] in *; lia. }
    apply Hm, Rb.
  - assert (0 <= q) by (apply Z.quot_pos; destruct wrd; cbn [in_range] in *; lia).
    assert (q <= Z.abs B) by nia. destruct wrd; cbn [in_range] in *; lia.
Qed.

(** The equation the chip checks. *)
Lemma div_equation : div_overflow = false -> div_Q * div_C + div_R = div_B.
Proof.
  intros Ho. destruct (Z.eq_dec div_C 0) as [E | E].
  - unfold div_R, riscv_rem. rewrite E, Z.eqb_refl. lia.
  - unfold div_Q, div_quotient, div_R, riscv_quot, riscv_rem. rewrite (proj2 (Z.eqb_neq _ _) E).
    rewrite operand_result by (apply quotient_range; assumption). pose proof (Z.quot_rem' div_B div_C). lia.
Qed.

Lemma div_overflow_result : div_overflow = true -> div_quotient = as_u64 div_B /\ div_R = 0.
Proof.
  unfold div_overflow, div_R, div_quotient, riscv_quot, riscv_rem. intros Ho. apply andb_prop in Ho as [Ho E2]. apply andb_prop in Ho as [E0 E1].
  apply Z.eqb_eq in E1, E2. rewrite E1, E2. destruct wrd; split; reflexivity.
Qed.

Lemma div_zero_result : div_C = 0 -> div_quotient = U64_MAX /\ div_R = div_B.
Proof.
  unfold div_R, div_quotient, riscv_quot, riscv_rem. intros ->. split; [destruct wrd|]; reflexivity.
Qed.

Lemma div_R_small : div_C <> 0 -> Z.abs div_R < Z.abs div_C.
Proof. intros H. unfold div_R, riscv_rem. rewrite (proj2 (Z.eqb_neq _ _) H). apply Z.rem_bound_abs, H. Qed.

Lemma div_R_sign : (div_R < 0 -> div_B < 0) /\ (0 < div_R -> 0 <= div_B).
Proof.
  unfold div_R, riscv_rem. destruct (Z.eqb_spec div_C 0) as [|H]; [lia|].
  pose proof (Z.rem_nonneg div_B div_C H). pose proof (Z.rem_nonpos div_B div_C H). lia.
Qed.
End Division.

(** ** The columns as functions of the integers *)

Section Columns.
Context (sgn wrd : bool) (b c : Z) (Hb : is_u64 b) (Hc : is_u64 c).
Abbreviation B := (div_B sgn wrd b).
Abbreviation C := (div_C sgn wrd c).
Abbreviation R := (div_R sgn wrd b c).
Abbreviation Q := (div_Q sgn wrd b c).
Abbreviation quotient := (div_quotient sgn wrd b c).
Abbreviation remainder := (div_remainder sgn wrd b c).
Abbreviation overflow := (div_overflow sgn wrd b c).

Lemma as_u64_operand (x : Z) : is_u64 x -> wrd = false -> as_u64 (operand_of sgn wrd x) = x.
Proof.
  intros Hx ->. destruct sgn; cbn [operand_of]; unfold as_u64, as_i64.
  - rewrite as_unsigned_signed by lia. apply as_unsigned_id, Hx.
  - rewrite as_unsigned_idem. apply as_unsigned_id, Hx.
Qed.

Lemma as_u64_u32 (x : Z) : as_u64 (as_u32 x) = as_u32 x.
Proof. apply as_unsigned_id. pose proof (as_unsigned_bound 32 x ltac:(lia)) as B. unfold as_u32, is_u in *. lia. Qed.

Lemma comp_operand_spec (isdiv : bool) (x : Z) :
  is_u64 x -> D.comp_operand (div_opcode sgn wrd isdiv) x = as_u64 (operand_of sgn wrd x).
Proof.
  intros Hx. pose proof (as_u64_operand x Hx) as E. pose proof (as_u64_u32 x) as E'.
  destruct sgn, wrd, isdiv; cbn [operand_of div_opcode] in *; unfold D.comp_operand; opcode_compute; cbn; auto;
    symmetry; auto.
Qed.

Lemma comp_result_spec (isdiv : bool) (y : Z) :
  let x := result_of wrd y in D.comp_result (div_opcode sgn wrd isdiv) x = as_u64 (operand_of sgn wrd x).
Proof.
  cbv zeta. pose proof (as_u64_operand (result_of wrd y) (result_bound wrd y)) as E. pose proof (as_u64_u32 (result_of wrd y)) as E'.
  assert (E2 : wrd = true -> sgn = true -> as_u64 (operand_of sgn wrd (result_of wrd y)) = result_of wrd y)
    by (intros -> ->; cbn [operand_of result_of]; rewrite as_i32_u64, as_i32_i32; reflexivity).
  destruct sgn, wrd, isdiv; unfold D.comp_result; opcode_compute; cbn in *; auto; symmetry; auto.
Qed.

Lemma get_msb64_neg (z : Z) : - 2 ^ 63 <= z < 2 ^ 63 -> Fof (get_msb64 (as_u64 z)) = Fof_bool (z <? 0).
Proof.
  intros Hz. unfold get_msb64. rewrite shr_div by lia. change 1 with (2 ^ 1 - 1). rewrite land_mask by lia.
  unfold as_u64, as_unsigned. destruct (Z.ltb_spec z 0).
  - rewrite <- (Z.mod_unique z (2 ^ 64) (-1) (z + 2 ^ 64)) by lia.
    rewrite <- (Z.div_unique_pos (z + 2 ^ 64) (2 ^ 63) 1 (z + 2 ^ 63)) by lia. reflexivity.
  - rewrite (Z.mod_small z), (Z.div_small z) by lia. reflexivity.
Qed.

Lemma as_i64_u64 (z : Z) : - 2 ^ 63 <= z < 2 ^ 63 -> as_i64 (as_u64 z) = z.
Proof. intros Hz. unfold as_i64, as_u64, as_unsigned. rewrite as_signed_mod. apply as_signed_id; lia. Qed.

Lemma word_from_u32_spec (x : Z) : 0 <= x < 2 ^ 32 -> word_from_u32 x = word_from_u64 x.
Proof.
  intros Hx. unfold word_from_u32, word_from_u64. rewrite !shr_div by lia. rewrite (Z.div_small x (2 ^ 32)), (Z.div_small x (2 ^ 48)) by lia.
  reflexivity.
Qed.

Lemma div_u64 : wrd = false -> as_u64 B = b /\ as_u64 C = c.
Proof. intros Hw. split; apply as_u64_operand; assumption. Qed.

(** The operands of the signed cases are 64-bit signed integers. *)
Lemma signed_bound (x : Z) : sgn = true -> in_range sgn wrd x -> - 2 ^ 63 <= x < 2 ^ 63.
Proof. intros ->. destruct wrd; cbn [in_range]; lia. Qed.

Lemma unsigned_bound (x : Z) : sgn = false -> in_range sgn wrd x -> 0 <= x < 2 ^ (if wrd then 32 else 64).
Proof. intros ->. destruct wrd; cbn [in_range]; lia. Qed.

Lemma sign_cols_spec (isdiv : bool) :
  D.sign_cols (div_opcode sgn wrd isdiv) b c (as_u64 C) remainder (word_from_u64 (as_u64 R)) =
  (Fof_bool (R <? 0), Fof_bool (B <? 0), Fof_bool (C <? 0), Fof_bool overflow,
   word_from_u64 (Z.abs R), word_from_u64 (Z.abs C), word_from_u64 (Z.max 1 (Z.abs C))).
Proof.
  destruct (div_ranges sgn wrd b c) as (Rb & Rc & _ & Rr). pose proof div_u64 as Hu.
  pose proof (div_R_operand sgn wrd b c) as Er. pose proof signed_bound as Hs. pose proof unsigned_bound as Hn.
  unfold D.sign_cols, div_overflow. destruct sgn.
  - pose proof (Hs _ eq_refl Rr) as Br. pose proof (Hs _ eq_refl Rb) as Bb. pose proof (Hs _ eq_refl Rc) as Bc. clear Hs Hn.
    rewrite <- !get_msb64_neg by assumption. rewrite (as_i64_u64 _ Bc). destruct wrd.
    + cbn [operand_of] in Er. assert (Ei : as_i64 (div_remainder true true b c) = div_R true true b c).
      { unfold div_remainder, result_of. unfold as_i32. rewrite (as_signed_id 32) by (cbn [in_range] in Rr; lia). apply as_i64_u64, Br. }
      rewrite Ei, Er. destruct isdiv; reflexivity.
    + destruct (Hu eq_refl) as [Eb Ec]. cbn [operand_of] in Er. rewrite Eb, Ec, Er. destruct isdiv; reflexivity.
  - pose proof (Hn _ eq_refl Rr) as Br. pose proof (Hn _ eq_refl Rb) as Bb. pose proof (Hn _ eq_refl Rc) as Bc. clear Hs Hn.
    rewrite (proj2 (Z.ltb_ge _ 0) (proj1 Br)), (proj2 (Z.ltb_ge _ 0) (proj1 Bb)), (proj2 (Z.ltb_ge _ 0) (proj1 Bc)).
    rewrite (Z.abs_eq _ (proj1 Br)), (Z.abs_eq _ (proj1 Bc)). destruct wrd; cbv match in Br, Bb, Bc.
    + rewrite !word_from_u32_spec by (change (as_u32 c) with (div_C false true c); lia). unfold as_u64.
      rewrite (as_unsigned_id 64 (div_R false true b c)) by lia. destruct isdiv; reflexivity.
    + destruct (Hu eq_refl) as [Eb Ec]. unfold as_u64 in *. rewrite as_unsigned_id in Eb, Ec by lia.
      rewrite (as_unsigned_id 64 (div_R false false b c)) by lia. rewrite Ec. destruct isdiv; reflexivity.
Qed.

(** ** The product *)

Lemma product_bytes_spec (isdiv : bool) :
  D.product_bytes (div_opcode sgn wrd isdiv) (as_u64 Q) (as_u64 C) = le_bytes 16 (Q * C).
Proof.
  destruct (div_ranges sgn wrd b c) as (_ & Rc & Rq & _).
  assert (El : le_bytes 8 (wrapping_mul (as_u64 Q) (as_u64 C)) = le_bytes 8 (Q * C)).
  { apply le_bytes_cong. change (2 ^ (8 * Z.of_nat 8)) with (2 ^ 64). unfold wrapping_mul, as_u64, as_unsigned.
    rewrite Zmod_mod, <- Zmult_mod. reflexivity. }
  assert (Eu : forall y, y mod 2 ^ 128 = (Q * C) mod 2 ^ 128 -> le_bytes 8 (as_u64 (shr y 64)) = le_bytes 8 (Q * C / 2 ^ 64)).
  { intros y Ey. apply le_bytes_cong. change (2 ^ (8 * Z.of_nat 8)) with (2 ^ 64). unfold as_u64, as_unsigned.
    rewrite Zmod_mod, shr_div by lia. apply upper_cong, Ey. }
  unfold D.product_bytes, to_le_bytes. rewrite El, (le_bytes_app 8 8). f_equal. change (8 * Z.of_nat 8) with 64.
  destruct (is_signed_64bit_operation _ || is_signed_word_operation _) eqn:Es; apply Eu.
  - assert (Hs : sgn = true) by (destruct sgn, wrd, isdiv; try discriminate Es; reflexivity).
    rewrite !as_i64_u64 by (apply signed_bound; assumption). apply (as_signed_cong 128). lia.
  - assert (Hs : sgn = false) by (destruct sgn, wrd, isdiv; try discriminate Es; reflexivity).
    pose proof (unsigned_bound _ Hs Rq) as Bq. pose proof (unsigned_bound _ Hs Rc) as Bc. unfold as_u64, as_u128.
    rewrite !(as_unsigned_id 64) by (destruct wrd; lia). apply as_unsigned_idem.
Qed.

(** ** The row *)

(** The negation of a negative integer, and the comparison with the divisor. *)
Definition neg_part (z : Z) : AddOperation.Cols * list ByteLookupEvent :=
  if z <? 0 then fst (AddOperation.populate (as_u64 z) (Z.abs z)) else (AddOperation.mkCols word_zero, []).
Definition lt_part : Res (LtOperationUnsigned.Cols * list ByteLookupEvent) :=
  if C =? 0 then Ok (D.lt_zero, []) else LtOperationUnsigned.populate_unsigned 1 (Z.abs R) (Z.max 1 (Z.abs C)).
Definition overflow_part : IsEqualWordOperation.Cols * IsEqualWordOperation.Cols :=
  if wrd then (fst (IsEqualWordOperation.populate (as_u32 b) (2 ^ 31)), fst (IsEqualWordOperation.populate (as_u32 c) (2 ^ 32 - 1)))
  else (fst (IsEqualWordOperation.populate b (2 ^ 63)), fst (IsEqualWordOperation.populate c (2 ^ 64 - 1))).
Definition rem_limbs : list Z := limbs 8 R.
Definition sum_part : list Z * list Z := D.add_remainder 0 (combine (limbs 8 (Q * C)) rem_limbs).

Definition div_row (st : CPUState.Cols) (ad : RTypeReader.Cols) (a : Z) (isdiv : bool) (lt : LtOperationUnsigned.Cols)
    (tr : AdapterCols) : D.Cols :=
  let o := div_opcode sgn wrd isdiv in
  let op x := Fof_bool (opcode_eqb o x) in
  let w := word_from_u64 in
  let m := fst (D.msb_cols o b c (as_u64 B) (as_u64 C) quotient remainder) in
  let ov := Fof_bool overflow in
  let bn := Fof_bool (B <? 0) in
  D.mkCols st ad (w a) (w (as_u64 B)) (w (as_u64 C)) (w quotient) (w (as_u64 Q)) (w (as_u64 R)) (w remainder) (w (Z.abs R))
    (w (Z.abs C)) (w (Z.max 1 (Z.abs C))) (map Fof (limbs 8 (Q * C)))
    (fst (MulOperation.populate (as_u64 Q) (as_u64 C) false false false)) (fst (D.upper_cols o (as_u64 Q) (as_u64 C)))
    (fst (neg_part C)) (fst (neg_part R)) lt (map Fof (fst sum_part)) (fst (IsZeroWordOperation.populate (as_u64 C)))
    (op DIV) (op DIVU) (op REM) (op REMU) (op DIVW) (op REMW) (op DIVUW) (op REMUW) ov
    (fst overflow_part) (snd overflow_part) (fst (fst (fst m))) (snd (fst m)) (snd (fst (fst m))) (snd m) bn (bn * (F1 - ov))%F ((F1 - bn) * (F1 - ov))%F (Fof_bool (negb wrd))
    (Fof_bool (R <? 0)) (Fof_bool (C <? 0)) (Fof_bool (C <? 0)) (Fof_bool (R <? 0)) F1 (Fof_bool (negb (C =? 0))) tr.

Definition div_events (isdiv : bool) (ev_st ev_ad ev_lt : list ByteLookupEvent) : list ByteLookupEvent :=
  let o := div_opcode sgn wrd isdiv in
  (ev_st ++ ev_ad) ++
  (add_u16_range_checks_field (word_list (word_from_u64 (Z.abs C))) ++
   add_u16_range_checks_field (word_list (word_from_u64 (Z.abs R)))) ++
  (snd (neg_part C) ++ snd (neg_part R)) ++
  snd (D.msb_cols o b c (as_u64 B) (as_u64 C) quotient remainder) ++ ev_lt ++
  (snd (MulOperation.populate (as_u64 Q) (as_u64 C) false false false) ++ snd (D.upper_cols o (as_u64 Q) (as_u64 C))) ++
  add_u16_range_checks (snd sum_part) ++ add_u16_range_checks (u64_to_u16_limbs quotient) ++
  add_u16_range_checks (u64_to_u16_limbs remainder) ++ add_u16_range_checks (limbs 8 (Q * C)).

Lemma abs_bound (x : Z) : in_range sgn wrd x -> is_u64 (Z.abs x) /\ is_u64 (Z.max 1 (Z.abs x)).
Proof. unfold is_u. destruct sgn, wrd; cbn [in_range]; lia. Qed.

Lemma word_to_u64_from (x : Z) : is_u64 x -> word_to_u64 (word_from_u64 x) = Ok x.
Proof. intros Hx. rewrite word_to_u64_valid by apply valid_word_from. rewrite word_val_from by exact Hx. reflexivity. Qed.

Lemma neg_cols_spec (z y : Z) :
  in_range sgn wrd z -> is_u64 y -> (z < 0 -> y = as_u64 z) ->
  D.neg_cols (Fof_bool (z <? 0) * F1)%F (word_from_u64 y) (word_from_u64 (Z.abs z)) = Ok (neg_part z).
Proof.
  intros Hz Hy Ey. unfold D.neg_cols, neg_part. replace (Fof_bool (z <? 0) * F1)%F with (Fof_bool (z <? 0)) by ring.
  destruct (Z.ltb_spec z 0); cbn [Fof_bool]; [|rewrite (Feqb_neq F0 F1) by (intros E; apply F1_neq_0; auto); reflexivity].
  rewrite Feqb_refl, !word_to_u64_from by (try apply (abs_bound z Hz); exact Hy). cbn [bind]. rewrite <- (Ey H). reflexivity.
Qed.

Lemma rem_limbs_spec :
  map Fval (word_list (word_from_u64 (as_u64 R))) ++ repeat (Fval (Fof_bool (R <? 0)) * (2 ^ 16 - 1)) 4 = rem_limbs.
Proof.
  destruct (div_ranges sgn wrd b c) as (_ & _ & _ & Rr). unfold rem_limbs. rewrite (limbs_app 4 4), word_of_limbs. f_equal.
  - rewrite (map_Fval_Fof _ 16) by (lia || apply limbs_bound). apply limbs_mod. lia.
  - change (16 * Z.of_nat 4) with 64. rewrite (limbs_sign 4 64) by (try (destruct sgn, wrd; cbn [in_range] in Rr); lia).
    unfold sign_limb. destruct (R <? 0); reflexivity.
Qed.

Lemma as_u64_eq0 (x : Z) : in_range sgn wrd x -> (as_u64 x =? 0) = (x =? 0).
Proof.
  intros Hx. rewrite (in_range_u64 _ _ _ Hx). destruct (Z.ltb_spec x 0); [|reflexivity].
  assert (- 2 ^ 63 <= x) by (destruct sgn, wrd; cbn [in_range] in Hx; lia).
  rewrite !(proj2 (Z.eqb_neq _ _)) by lia. reflexivity.
Qed.

Lemma c0_result : IsZeroWordOperation.result (fst (IsZeroWordOperation.populate (as_u64 C))) = Fof_bool (C =? 0).
Proof.
  destruct (div_ranges sgn wrd b c) as (_ & Rc & _). pose proof (is_zero_word_complete (word_from_u64 (as_u64 C))) as [H _].
  apply is_zero_word_sound in H; [|apply F1_neq_0]. unfold IsZeroWordOperation.populate. rewrite H, word_is_zero_val by apply valid_word_from.
  rewrite word_val_from by (apply as_unsigned_bound; lia). rewrite as_u64_eq0 by exact Rc. reflexivity.
Qed.

Lemma neg_remainder : R < 0 -> remainder = as_u64 R.
Proof.
  intros Hn. destruct (div_ranges sgn wrd b c) as (_ & _ & _ & Rr). unfold div_remainder, result_of.
  destruct wrd; [|reflexivity]. unfold as_i32. rewrite as_signed_id; [reflexivity | lia |].
  destruct sgn; cbn [in_range] in Rr; lia.
Qed.

Lemma divrem_row_eq (user : bool) (event : AluEvent) (rec : RTypeRecord) (isdiv : bool) :
  ev_opcode event = div_opcode sgn wrd isdiv -> ev_b event = b -> ev_c event = c ->
  let '(st, ev_st) := CPUState.populate (ev_clk event) (ev_pc event) in
  let '(ad, ev_ad) := RTypeReader.populate rec in
  D.event_to_row user event rec =
  let* (lt, ev_lt) := lt_part in
  Ok (div_row st ad (ev_a event) isdiv lt (trust_cols user (rt_is_untrusted rec)), div_events isdiv ev_st ev_ad ev_lt).
Proof.
  intros Eo Eb Ec. destruct (div_ranges sgn wrd b c) as (Rb & Rc & Rq & Rr).
  unfold D.event_to_row, div_row, div_events. rewrite Eo, Eb, Ec.
  replace (existsb _ _) with true by (destruct sgn, wrd, isdiv; reflexivity). cbn [assertb bind].
  destruct (CPUState.populate _ _) as [st ev_st], (RTypeReader.populate rec) as [ad ev_ad].
  rewrite !(comp_operand_spec isdiv) by assumption. fold B C. rewrite (quotient_remainder_spec sgn wrd b c Hb Hc isdiv).
  pose proof (comp_result_spec isdiv R) as Er. cbv zeta in Er. fold remainder in Er. rewrite (div_R_operand sgn wrd b c) in Er.
  pose proof (comp_result_spec isdiv (riscv_quot B C)) as Eq. cbv zeta in Eq. fold quotient in Eq. fold Q in Eq.
  rewrite Er, Eq, (sign_cols_spec isdiv).
  rewrite (neg_cols_spec C) by (try apply as_unsigned_bound; auto; lia).
  rewrite (neg_cols_spec R) by (try apply result_bound; auto; apply neg_remainder).
  rewrite c0_result, product_bytes_spec, product_limbs_spec, rem_limbs_spec.
  assert (Eo' : (if is_word_operation (div_opcode sgn wrd isdiv) then _ else _) = overflow_part)
    by (unfold overflow_part; destruct sgn, wrd, isdiv; reflexivity).
  assert (Ez : (F1 * (F1 - Fof_bool (C =? 0)))%F = Fof_bool (negb (C =? 0))) by (destruct (C =? 0); cbn [negb Fof_bool]; ring).
  assert (El : (if Feqb (Fof_bool (negb (C =? 0))) F1 then
     let* x := word_to_u64 (word_from_u64 (Z.abs R)) in let* y := word_to_u64 (word_from_u64 (Z.max 1 (Z.abs C))) in
     LtOperationUnsigned.populate_unsigned 1 x y else Ok (D.lt_zero, [])) = lt_part).
  { unfold lt_part. destruct (C =? 0); cbn [negb Fof_bool]; [reflexivity|]. rewrite Feqb_refl.
    rewrite !word_to_u64_from by (apply (abs_bound R Rr) || apply (abs_bound C Rc)). reflexivity. }
  rewrite Eo', Ez, El. clear Eo' El. unfold sum_part, rem_limbs.
  replace (Fof_bool (C <? 0) * F1)%F with (Fof_bool (C <? 0)) by ring.
  replace (Fof_bool (R <? 0) * F1)%F with (Fof_bool (R <? 0)) by ring.
  destruct overflow_part as [ob oc], (neg_part C) as [cn ev_cn], (neg_part R) as [rn ev_rn]. cbn [bind].
  destruct (D.msb_cols _ _ _ _ _ _ _) as [[[[bm cm] rm] qm] ev_msb], (MulOperation.populate _ _ _ _ _) as [lo ev_lo],
    (D.upper_cols _ _ _) as [up ev_up], (D.add_remainder _ _) as [cs xs], lt_part as [[lt ev_lt]|]; [|reflexivity].
  cbn [bind fst snd]. do 2 f_equal. f_equal. destruct sgn, wrd, isdiv; opcode_compute; cbn [negb Fof_bool]; ring.
Qed.
End Columns.

(** ** The constraints *)

Lemma limb_from (x : Z) (i : nat) : D.limb (word_from_u64 x) i = Fof (nth i (limbs 4 x) 0).
Proof. unfold D.limb. rewrite word_of_limbs. change F0 with (Fof 0). apply map_nth. Qed.

Lemma limbs_u64 (x : Z) : limbs 4 (as_u64 x) = limbs 4 x.
Proof. apply limbs_mod. lia. Qed.

Lemma complete_nil : complete [] [].
Proof. apply complete_asserts; [exact I | reflexivity]. Qed.

Lemma msb_populate (x : Z) :
  is_u16 x ->
  let '(m, ev, _) := U16MSBOperation.populate_msb x in
  U16MSBOperation.msb m = Fof_bool (2 ^ 15 <=? x) /\ complete (U16MSBOperation.eval_msb (Fof x) m F1) ev.
Proof.
  intros Hx. pose proof (msb_complete x Hx) as H. destruct (U16MSBOperation.populate_msb x) as [[m ev] r]. destruct H as [H E].
  split; [|exact H]. rewrite E. destruct (Z.ltb_spec x (2 ^ 15)), (Z.leb_spec (2 ^ 15) x); try lia; reflexivity.
Qed.

Lemma limb16_top (x : Z) : as_u16 (shr x 16) = limb16 x 1.
Proof. unfold limb16, as_u16, as_unsigned. rewrite shr_div by lia. reflexivity. Qed.
Lemma limb16_top3 (x : Z) : as_u16 (shr x 48) = limb16 x 3.
Proof. unfold limb16, as_u16, as_unsigned. rewrite shr_div by lia. reflexivity. Qed.

(** Constraints that hold, one by one. *)
Ltac asserts :=
  cbn [flat_map seq app];
  repeat first [apply complete_asserts_app | apply complete_nil].

(** *** Gadgets that are switched off *)

Lemma complete_u8_off (l : list F) : complete (slice_range_check_u8 l F0) [].
Proof.
  cut (complete (slice_range_check_u8 l F0) [] /\ forall x, complete (slice_range_check_u8 (x :: l) F0) []); [tauto|].
  induction l as [|y l [IH IH']]; (split; [|intros x]); [apply complete_nil | apply complete_off | apply IH' |].
  cbn [slice_range_check_u8]. apply complete_asserts_app; [apply complete_off | exact IH].
Qed.

Lemma carry_eqs_off (cin : option F) (m carry product : list F) : complete (when F0 (carry_eqs cin m carry product)) [].
Proof.
  apply complete_asserts; [|rewrite byte_lookups_when; apply byte_lookups_carry_eqs].
  revert cin carry product. induction m as [|x m IH]; intros cin [|c carry] [|p product]; try exact I.
  cbn [carry_eqs]. unfold when. rewrite map_app. apply sats_app. split; [|apply IH]. cbn. split; [|exact I]. intros [N _]. contradiction.
Qed.

Lemma mul_off (x y z : Word F) : complete (MulOperation.eval x y z D.mul_zero F0 F0 F0 F0 F0 F0) [].
Proof.
  assert (Bf : is_bool F0) by (left; reflexivity).
  assert (Hw : forall u v, complete (when F0 (assert_eq u v)) []) by (intros u v; apply complete_when_eq; intros N; contradiction).
  unfold MulOperation.eval, U16toU8Operation.eval_u16_to_u8_safe.
  do 2 (apply complete_asserts_app; [apply complete_u8_off|]). do 2 (apply complete_asserts_app; [apply complete_off|]).
  apply complete_asserts_app; [apply msb_bool_off; exact Bf|].
  do 2 (apply complete_asserts_app; [apply complete_eq; cbn; ring|]).
  apply complete_asserts_app; [apply carry_eqs_off|].
  replace (F0 + F0 + F0)%F with F0 by ring. replace (F0 + F0 + F0 + F0 + F0)%F with F0 by ring.
  apply complete_asserts_app.
  { apply complete_flat_map. intros i _. unfold MulOperation.compare_limb. destruct (i <? 2)%nat; asserts; apply Hw. }
  apply complete_asserts_app; [apply complete_flags; repeat (apply Forall_cons; [exact Bf|]); apply Forall_nil|].
  do 2 (apply complete_asserts_app; [apply Hw|]).
  apply complete_asserts_app; [apply complete_range16_off | apply complete_u8_off].
Qed.

Lemma is_equal_off (x y : Word F) (u v : Z) :
  complete (IsEqualWordOperation.eval_is_equal_word x y (fst (IsEqualWordOperation.populate u v)) F0) [].
Proof.
  assert (Hz : forall w cols, complete (IsZeroOperation.eval_is_zero w cols F0) []).
  { intros w cols. unfold IsZeroOperation.eval_is_zero. apply complete_asserts_app; [apply complete_when_eq; intros N; contradiction|].
    apply complete_asserts_app; [apply complete_when_bool; intros N; contradiction|].
    apply complete_asserts; [cbn; intuition congruence | reflexivity]. }
  unfold IsEqualWordOperation.eval_is_equal_word, IsZeroWordOperation.eval_zero_word, IsEqualWordOperation.populate,
    IsZeroWordOperation.populate_from_field_element.
  cbn [fst IsEqualWordOperation.is_diff_zero IsZeroWordOperation.is_zero_limb IsZeroWordOperation.is_zero_first_half
       IsZeroWordOperation.is_zero_second_half IsZeroWordOperation.result].
  apply complete_asserts_app; [apply complete_bool; left; reflexivity|].
  do 4 (apply complete_asserts_app; [apply Hz|]).
  apply complete_asserts_app; [apply complete_bool; left; reflexivity|].
  apply complete_asserts_app; [apply complete_bool, Fof_bool_is_bool|].
  do 2 (apply complete_asserts_app; [apply complete_eq; reflexivity|]). apply complete_when_eq. intros N. contradiction.
Qed.

Lemma is_equal_result (u v : Z) :
  is_u64 u -> is_u64 v ->
  IsZeroWordOperation.result (IsEqualWordOperation.is_diff_zero (fst (IsEqualWordOperation.populate u v))) = Fof_bool (u =? v).
Proof.
  intros Hu Hv. destruct (is_equal_word_complete u v) as [H _].
  apply is_equal_word_sound in H; [|apply F1_neq_0 | apply valid_word_from..]. rewrite H, !word_val_from by assumption. reflexivity.
Qed.

Lemma truncated_from (x : Z) : is_u64 x -> D.truncated (word_from_u64 x) = word_from_u64 (as_u32 x).
Proof.
  intros Hx. destruct (truncated_val _ (valid_word_from x)) as [V E]. rewrite word_val_from in E by exact Hx.
  rewrite <- (word_from_val _ V), E. reflexivity.
Qed.

(** The upper half of the product, made in 64-bit operations only. *)
Lemma upper_complete (sgn wrd isdiv : bool) (Q C : Z) :
  in_range sgn wrd Q -> in_range sgn wrd C ->
  let o := div_opcode sgn wrd isdiv in
  complete (MulOperation.eval (word_from_u64 ((Q * C / 2 ^ 64) mod 2 ^ 64)) (word_from_u64 (as_u64 Q)) (word_from_u64 (as_u64 C))
      (fst (D.upper_cols o (as_u64 Q) (as_u64 C))) (Fof_bool (negb wrd)) F0 (Fof_bool (sgn && negb wrd)) F0
      (Fof_bool (negb sgn && negb wrd)) F0)
    (snd (D.upper_cols o (as_u64 Q) (as_u64 C))).
Proof.
  intros Rq Rc. cbv zeta. destruct wrd.
  { replace (D.upper_cols _ _ _) with (D.mul_zero, @nil ByteLookupEvent) by (destruct sgn, isdiv; reflexivity).
    cbn [negb fst snd]. rewrite !andb_false_r. apply mul_off. }
  assert (Uq : is_u64 (as_u64 Q)) by (apply as_unsigned_bound; lia). assert (Uc : is_u64 (as_u64 C)) by (apply as_unsigned_bound; lia).
  replace (D.upper_cols (div_opcode sgn false isdiv) (as_u64 Q) (as_u64 C)) with (MulOperation.populate (as_u64 Q) (as_u64 C) sgn false false)
    by (destruct sgn, isdiv; reflexivity).
  pose proof (mul_complete_gen ((Q * C / 2 ^ 64) mod 2 ^ 64) (as_u64 Q) (as_u64 C) sgn false false F0 (Fof_bool (negb sgn))
    (as_unsigned_bound 64 _ ltac:(lia)) Uq Uc ltac:(destruct sgn; reflexivity) (or_introl eq_refl) (Fof_bool_is_bool _)) as H.
  destruct (MulOperation.populate _ _ _ _ _) as [up ev]. cbn [fst snd negb]. rewrite !andb_true_r. apply H.
  - replace (F0 + Fof_bool sgn + Fof_bool (negb sgn) + Fof_bool false + Fof_bool false)%F with F1
      by (destruct sgn; cbn [negb Fof_bool]; ring). right. reflexivity.
  - discriminate.
  - intros N. contradiction.
  - intros _. rewrite orb_false_r.
    assert (E : operand sgn (as_u64 Q) * operand sgn (as_u64 C) = Q * C).
    { destruct sgn; cbn [operand in_range] in *; [rewrite !as_i64_u64 by lia; reflexivity|].
      unfold as_u64. rewrite !as_unsigned_id by lia. reflexivity. }
    rewrite E. change (2 ^ 128) with (2 ^ 64 * 2 ^ 64). rewrite Z.rem_mul_r by lia.
    rewrite (Z.mul_comm (2 ^ 64) (_ mod _)), Z.div_add by lia.
    rewrite (Z.div_small (_ mod _)) by (apply Z.mod_pos_bound; lia). reflexivity.
Qed.

Section Row.
Context (sgn wrd isdiv : bool) (b c a : Z) (Hb : is_u64 b) (Hc : is_u64 c).
Context (st : CPUState.Cols) (ad : RTypeReader.Cols) (lt : LtOperationUnsigned.Cols) (tr : AdapterCols).
Context (Eb : RTypeReader.b ad = word_from_u64 b) (Ec : RTypeReader.c ad = word_from_u64 c).
Abbreviation B := (div_B sgn wrd b).
Abbreviation C := (div_C sgn wrd c).
Abbreviation R := (div_R sgn wrd b c).
Abbreviation Q := (div_Q sgn wrd b c).
Abbreviation quotient := (div_quotient sgn wrd b c).
Abbreviation remainder := (div_remainder sgn wrd b c).
Abbreviation overflow := (div_overflow sgn wrd b c).
Abbreviation local := (div_row sgn wrd b c st ad a isdiv lt tr).

Lemma row_flags : flags_are local sgn wrd isdiv.
Proof.
  unfold div_row. split;
    cbv [D.is_word_op D.is_not_word_op D.is_signed_word_op D.is_unsigned_word_op D.is_signed_type];
    cbn [D.is_div D.is_divu D.is_rem D.is_remu D.is_divw D.is_remw D.is_divuw D.is_remuw];
    destruct sgn, wrd, isdiv; cbn [div_opcode]; opcode_compute; cbn [negb andb Fof_bool]; ring.
Qed.

(** The sign bits. *)
Lemma row_msbs :
  U16MSBOperation.msb (D.b_msb local) = Fof_bool (2 ^ 15 <=? limb16 b (if wrd then 1 else 3)) /\
  U16MSBOperation.msb (D.c_msb local) = Fof_bool (2 ^ 15 <=? limb16 c (if wrd then 1 else 3)) /\
  U16MSBOperation.msb (D.rem_msb local) = Fof_bool (2 ^ 15 <=? limb16 remainder (if wrd then 1 else 3)) /\
  (wrd = true -> U16MSBOperation.msb (D.quot_msb local) = Fof_bool (2 ^ 15 <=? limb16 quotient 1)) /\
  complete (D.eval_msbs local) (snd (D.msb_cols (div_opcode sgn wrd isdiv) b c (as_u64 B) (as_u64 C) quotient remainder)).
Proof.
  pose proof (fl_word _ _ _ _ row_flags) as Ew. pose proof (div_u64 sgn wrd b c Hb Hc) as Hu.
  unfold D.eval_msbs. rewrite Ew. clear Ew. unfold div_row, D.msb_cols.
  cbn [D.adapter D.remainder D.quotient D.is_real_not_word D.b_msb D.c_msb D.rem_msb D.quot_msb].
  rewrite Eb, Ec, !limb_from, !limbs_4, !limb16_top, !limb16_top3. cbn [nth].
  replace (is_word_operation (div_opcode sgn wrd isdiv)) with wrd by (destruct sgn, wrd, isdiv; reflexivity).
  destruct wrd; cbn [negb Fof_bool].
  - pose proof (msb_populate (limb16 b 1) (limb16_bound b 1)) as H1. pose proof (msb_populate (limb16 c 1) (limb16_bound c 1)) as H2.
    pose proof (msb_populate _ (limb16_bound (div_remainder sgn true b c) 1)) as H3.
    pose proof (msb_populate _ (limb16_bound (div_quotient sgn true b c) 1)) as H4.
    destruct (U16MSBOperation.populate_msb (limb16 b 1)) as [[bm e1] ?], (U16MSBOperation.populate_msb (limb16 c 1)) as [[cm e2] ?],
      (U16MSBOperation.populate_msb (limb16 (div_remainder _ _ _ _) 1)) as [[rm e3] ?],
      (U16MSBOperation.populate_msb (limb16 (div_quotient _ _ _ _) 1)) as [[qm e4] ?].
    destruct H1 as [M1 C1], H2 as [M2 C2], H3 as [M3 C3], H4 as [M4 C4]. cbn [fst snd].
    repeat (split; [first [assumption | intros _; assumption]|]).
    do 3 (apply complete_asserts_app; [apply msb_bool_off; rewrite ?M1, ?M2, ?M3; apply Fof_bool_is_bool|]).
    apply complete_app; [exact C1|]. apply complete_app; [exact C2|]. apply complete_app; assumption.
  - destruct (Hu eq_refl) as [-> ->].
    pose proof (msb_populate (limb16 b 3) (limb16_bound b 3)) as H1. pose proof (msb_populate (limb16 c 3) (limb16_bound c 3)) as H2.
    pose proof (msb_populate _ (limb16_bound (div_remainder sgn false b c) 3)) as H3.
    destruct (U16MSBOperation.populate_msb (limb16 b 3)) as [[bm e1] ?], (U16MSBOperation.populate_msb (limb16 c 3)) as [[cm e2] ?],
      (U16MSBOperation.populate_msb (limb16 (div_remainder _ _ _ _) 3)) as [[rm e3] ?].
    destruct H1 as [M1 C1], H2 as [M2 C2], H3 as [M3 C3]. cbn [fst snd].
    repeat (split; [first [assumption | discriminate]|]).
    apply complete_app; [exact C1|]. apply complete_app; [exact C2|]. apply complete_nil_r; [exact C3|].
    do 3 (apply complete_asserts_app; [apply msb_bool_off; rewrite ?M1, ?M2, ?M3; apply Fof_bool_is_bool|]).
    apply msb_bool_off. left. reflexivity.
Qed.

Lemma remainder_sign_bit : (R <? 0) = sgn && (2 ^ 15 <=? limb16 remainder (if wrd then 1 else 3)).
Proof. rewrite <- operand_sign by apply result_bound. rewrite div_R_operand. reflexivity. Qed.

Lemma row_signs : complete (D.eval_signs local) [].
Proof.
  destruct row_msbs as (Mb & Mc & Mr & _). unfold D.eval_signs. cbn [flat_map fst snd].
  rewrite Mb, Mc, Mr, (fl_word _ _ _ _ row_flags), (fl_signed _ _ _ _ row_flags), !Fof_bool_mul, !(andb_comm _ sgn).
  pose proof (operand_sign sgn wrd b Hb) as Sb. pose proof (operand_sign sgn wrd c Hc) as Sc. rewrite <- Sb, <- Sc, <- remainder_sign_bit.
  asserts; apply complete_eq; try reflexivity.
  cbn [div_row D.is_real_not_word D.is_real]. destruct wrd; cbn [negb Fof_bool]; ring.
Qed.

(** An operand and its computational form. *)
Lemma operand_limb (x : Z) (i : nat) :
  is_u64 x -> (i < 4)%nat ->
  let z := operand_of sgn wrd x in
  D.limb (word_from_u64 (as_u64 z)) i =
  if (i <? 2)%nat then D.limb (word_from_u64 x) i
  else (D.limb (word_from_u64 x) i * (F1 - Fof_bool wrd) + Fof_bool (z <? 0) * Fof_bool wrd * D.u16_max)%F.
Proof.
  intros Hx Hi. cbv zeta. rewrite !limb_from, limbs_u64, operand_limbs. unfold sign_limb, D.u16_max.
  destruct wrd; cbn [Fof_bool].
  - rewrite limbs_4. cbn [limbs app repeat]. destruct (_ <? 0), i as [|[|[|[|i]]]]; try lia; cbn [nth Nat.ltb Nat.leb];
      unfold limb16; change (2 ^ (16 * 0)) with 1; rewrite ?Z.div_1_r; try reflexivity; cbn [Fof_bool]; apply (Rep_eq _ _); lia.
  - destruct (i <? 2)%nat; [reflexivity|]. ring.
Qed.

Lemma row_operands : complete (D.eval_operands local) [].
Proof.
  unfold D.eval_operands. rewrite (fl_word _ _ _ _ row_flags).
  cbn [div_row D.adapter D.b D.c D.b_neg D.c_neg]. rewrite Eb, Ec.
  assert (Hl : forall x i, is_u64 x -> (i < 4)%nat -> _) by (intros x i; exact (operand_limb x i)). cbv zeta in Hl.
  asserts; apply complete_eq; unfold div_B, div_C; rewrite (Hl _ _) by (assumption || lia); cbn [Nat.ltb Nat.leb]; reflexivity.
Qed.

(** The computational form of a result. *)
Lemma row_comp (y : Z) (m : F) :
  let x := result_of wrd y in
  (wrd = true -> m = Fof_bool (2 ^ 15 <=? limb16 x 1)) ->
  complete (D.eval_comp local (word_from_u64 (as_u64 (operand_of sgn wrd x))) (word_from_u64 x) m) [].
Proof.
  cbv zeta. intros Hm. pose proof (result_bound wrd y) as Hx. pose proof (fun i => operand_limb _ i Hx) as Hl. cbv zeta in Hl.
  unfold D.eval_comp. rewrite (fl_word _ _ _ _ row_flags), (fl_not_word _ _ _ _ row_flags), (fl_signed_word _ _ _ _ row_flags),
    (fl_unsigned_word _ _ _ _ row_flags). pose proof (operand_sign sgn wrd _ Hx) as Hs. pose proof (result_limbs y) as Hr.
  assert (Hf : wrd = true -> D.limb (word_from_u64 (result_of wrd y)) 2 = (m * Fof 65535)%F /\
                             D.limb (word_from_u64 (result_of wrd y)) 3 = (m * Fof 65535)%F).
  { intros E. rewrite (Hm E), E, !limb_from, Hr. cbn [limbs app repeat nth]. destruct (2 ^ 15 <=? limb16 (result_of true y) 1); cbn [Fof_bool];
      split; apply (Rep_eq _ _); lia. }
  asserts; rewrite ?Hl by lia; cbn [Nat.ltb Nat.leb]; try (apply complete_eq; reflexivity); apply complete_when_eq; intros N;
    apply Fof_bool_neq0 in N; rewrite ?Hs; unfold D.u16_max; destruct wrd; try discriminate N;
    destruct (Hf eq_refl) || clear Hf; rewrite ?(Hm eq_refl) in *; destruct sgn; try discriminate N; try assumption; cbn [andb Fof_bool]; ring.
Qed.

Lemma row_comps : complete (D.eval_comps local) [].
Proof.
  destruct row_msbs as (_ & _ & Mr & Mq & _). unfold D.eval_comps.
  apply complete_asserts_app.
  - apply (row_comp (riscv_quot B C)). exact Mq.
  - pose proof (row_comp R (U16MSBOperation.msb (D.rem_msb local))) as H. cbv zeta in H. fold remainder in H.
    rewrite (div_R_operand sgn wrd b c) in H. apply H. intros E. rewrite Mr, E. reflexivity.
Qed.

(** The product. *)
Lemma row_half (k : nat) :
  k = 0%nat \/ k = 4%nat -> D.half local k = word_from_u64 (Q * C / 2 ^ (16 * Z.of_nat k)).
Proof.
  intros Hk. unfold D.half. cbn [div_row D.c_times_quotient]. rewrite word_from_u64_limbs.
  assert (E : limbs 8 (Q * C) = limbs 4 (Q * C) ++ limbs 4 (Q * C / 2 ^ 64)) by exact (limbs_app 4 4 (Q * C)).
  rewrite E, !limbs_4, map_app. destruct Hk as [-> | ->]; cbn [map app nth Nat.add]; [|reflexivity].
  change (2 ^ (16 * Z.of_nat 0)) with 1. rewrite Z.div_1_r. reflexivity.
Qed.

Lemma word_from_mod (x : Z) : word_from_u64 (x mod 2 ^ 64) = word_from_u64 x.
Proof.
  apply word_ext. intros i _. rewrite !limb_from, limbs_mod by lia. reflexivity.
Qed.

Lemma row_product :
  complete (D.eval_product local)
    (snd (MulOperation.populate (as_u64 Q) (as_u64 C) false false false) ++
     snd (D.upper_cols (div_opcode sgn wrd isdiv) (as_u64 Q) (as_u64 C))).
Proof.
  destruct (div_ranges sgn wrd b c) as (_ & Rc & Rq & _).
  assert (Uq : is_u64 (as_u64 Q)) by (apply as_unsigned_bound; lia). assert (Uc : is_u64 (as_u64 C)) by (apply as_unsigned_bound; lia).
  assert (Bf : is_bool F0) by (left; reflexivity). assert (Bt : is_bool F1) by (right; reflexivity).
  unfold D.eval_product. rewrite (fl_mulh _ _ _ _ row_flags), (fl_mulhu _ _ _ _ row_flags), !row_half by auto.
  cbn [div_row D.quotient_comp D.c D.c_times_quotient_lower D.c_times_quotient_upper D.is_real D.is_real_not_word].
  change (2 ^ (16 * Z.of_nat 0)) with 1. change (2 ^ (16 * Z.of_nat 4)) with (2 ^ 64). rewrite Z.div_1_r.
  apply complete_app.
  - rewrite <- (word_from_mod (Q * C)).
    pose proof (mul_complete_gen ((Q * C) mod 2 ^ 64) (as_u64 Q) (as_u64 C) false false false F1 F0
      (as_unsigned_bound 64 _ ltac:(lia)) Uq Uc eq_refl Bt Bf ltac:(cbn [Fof_bool]; replace (F1 + F0 + F0 + F0 + F0)%F with F1 by ring; exact Bt)
      ltac:(discriminate)) as H.
    destruct (MulOperation.populate _ _ _ _ _) as [lo ev]. cbn [fst snd]. apply H.
    + intros _. cbn [operand orb]. unfold as_u64, as_unsigned. rewrite <- Zmult_mod. reflexivity.
    + intros N. exfalso. apply N. cbn [Fof_bool]. ring.
  - rewrite <- (word_from_mod (Q * C / 2 ^ 64)). unfold D.upper_cols. apply upper_complete; try assumption; auto.
Qed.

(** Signed overflow. *)
Lemma overflow_flag :
  (IsZeroWordOperation.result (IsEqualWordOperation.is_diff_zero (fst (overflow_part wrd b c))) *
   IsZeroWordOperation.result (IsEqualWordOperation.is_diff_zero (snd (overflow_part wrd b c))) * Fof_bool sgn)%F = Fof_bool overflow.
Proof.
  pose proof (as_unsigned_bound 32 b ltac:(lia)) as B32. pose proof (as_unsigned_bound 32 c ltac:(lia)) as C32.
  unfold overflow_part, div_overflow, div_B, div_C. destruct sgn.
  - rewrite (signed_min wrd b Hb), (signed_minus1 wrd c Hc). cbn [andb].
    destruct wrd; cbn [fst snd]; rewrite !is_equal_result by (first [exact Hb | exact Hc | unfold is_u, as_u32; lia]);
      rewrite <- Fof_bool_mul; cbn [Fof_bool]; unfold as_u32, as_unsigned; ring.
  - cbn [andb Fof_bool]. ring.
Qed.

Lemma row_overflow : complete (D.eval_overflow local) [].
Proof.
  unfold D.eval_overflow. rewrite (fl_word _ _ _ _ row_flags), (fl_signed _ _ _ _ row_flags).
  cbn [div_row D.adapter D.is_overflow_b D.is_overflow_c D.is_real_not_word D.is_overflow D.b_neg D.b_neg_not_overflow
       D.b_not_neg_not_overflow D.quotient D.remainder D.b].
  rewrite Eb, Ec, overflow_flag, !truncated_from by assumption.
  apply complete_asserts_app;
    [unfold overflow_part; destruct wrd; cbn [fst snd negb Fof_bool]; first [apply is_equal_word_complete | apply is_equal_off]|].
  apply complete_asserts_app;
    [unfold overflow_part; destruct wrd; cbn [fst snd negb Fof_bool]; first [apply is_equal_word_complete | apply is_equal_off]|].
  apply complete_asserts_app;
    [unfold overflow_part; destruct wrd; cbn [fst snd negb Fof_bool]; first [apply is_equal_word_complete | apply is_equal_off]|].
  apply complete_asserts_app;
    [unfold overflow_part; destruct wrd; cbn [fst snd negb Fof_bool]; first [apply is_equal_word_complete | apply is_equal_off]|].
  do 3 (apply complete_asserts_app; [apply complete_eq; reflexivity|]).
  apply complete_flat_map. intros i Hi. apply in_seq in Hi.
  apply complete_asserts_app; apply complete_when_eq; intros N; apply Fof_bool_neq0 in N;
    destruct (div_overflow_result sgn wrd b c N) as [Eq Er].
  - rewrite Eq. reflexivity.
  - unfold div_remainder. rewrite Er. rewrite limb_from. replace (result_of wrd 0) with 0 by (destruct wrd; reflexivity).
    destruct i as [|[|[|[|i]]]]; try lia; reflexivity.
Qed.

(** The sum of product and remainder. *)
Lemma limbs8_nth (x : Z) (i : nat) :
  - 2 ^ 64 <= x < 2 ^ 64 -> (i < 8)%nat ->
  Fof (nth i (limbs 8 x) 0) = if (i <? 4)%nat then D.limb (word_from_u64 (as_u64 x)) i else (Fof_bool (x <? 0) * Fof 65535)%F.
Proof.
  intros Hx Hi. rewrite (limbs_app 4 4), limb_from, limbs_u64. change (16 * Z.of_nat 4) with 64. rewrite (limbs_sign 4 64) by lia.
  destruct (Nat.ltb_spec i 4).
  - rewrite app_nth1 by (rewrite limbs_length; assumption). reflexivity.
  - rewrite app_nth2, limbs_length by (rewrite limbs_length; assumption). rewrite nth_repeat_lt by lia.
    unfold sign_limb. destruct (x <? 0); cbn [Fof_bool]; apply (Rep_eq _ _); lia.
Qed.

Lemma range_64 (x : Z) : in_range sgn wrd x -> - 2 ^ 64 <= x < 2 ^ 64.
Proof. destruct sgn, wrd; cbn [in_range]; lia. Qed.

Lemma row_sum_limb (i : nat) : (i < 8)%nat -> D.sum_limb local i = Fof (nth i (snd (sum_part sgn wrd b c)) 0).
Proof.
  intros Hi. destruct (div_ranges sgn wrd b c) as (_ & _ & _ & Rr).
  pose proof (add_remainder_limbs 0 (combine (limbs 8 (Q * C)) (limbs 8 R)) ltac:(lia)) as Ha.
  unfold D.sum_limb. cbn [div_row D.c_times_quotient D.remainder_comp D.rem_neg D.carry]. unfold sum_part, rem_limbs.
  destruct (D.add_remainder _ _) as [cs xs]. destruct Ha as [_ Ha].
  { apply Forall_forall. intros [p r] Hin. split; cbn [fst snd].
    - exact (proj1 (Forall_forall _ _) (limbs_bound 8 _) _ (in_combine_l _ _ _ _ Hin)).
    - exact (proj1 (Forall_forall _ _) (limbs_bound 8 _) _ (in_combine_r _ _ _ _ Hin)). }
  cbn [fst snd]. specialize (Ha i). rewrite length_combine, !limbs_length in Ha. specialize (Ha Hi).
  rewrite combine_nth in Ha by (rewrite !limbs_length; reflexivity). cbn [fst snd] in Ha.
  change F0 with (Fof 0). rewrite !map_nth. pose proof (limbs8_nth R i (range_64 R Rr) Hi) as El. unfold base16.
  assert (Hx : (if (i <? 4)%nat then Fof (nth i (limbs 8 (Q * C)) 0) + D.limb (word_from_u64 (as_u64 R)) i
               else Fof (nth i (limbs 8 (Q * C)) 0) + Fof_bool (R <? 0) * Fof 65535)%F
               = Fof (nth i (limbs 8 (Q * C)) 0 + nth i (limbs 8 R) 0)).
  { rewrite <- Fof_add, El. destruct (i <? 4)%nat; reflexivity. }
  rewrite Hx. destruct i as [|i].
  - cbn [Nat.ltb Nat.leb nth] in *. apply (Rep_eq _ _). lia.
  - cbn [Nat.ltb Nat.leb]. rewrite Nat.sub_succ, Nat.sub_0_r. cbn [nth] in Ha |- *. apply (Rep_eq _ _). lia.
Qed.

Lemma row_sum : complete (D.eval_sum local) (add_u16_range_checks (snd (sum_part sgn wrd b c))).
Proof.
  destruct (div_ranges sgn wrd b c) as (Rb & _).
  assert (Es : snd (sum_part sgn wrd b c) = limbs 8 (Q * C + R)).
  { unfold sum_part, rem_limbs. rewrite (add_remainder_spec 8). f_equal. lia. }
  assert (Em : map (D.sum_limb local) (seq 0 8) = map Fof (limbs 8 (Q * C + R))).
  { rewrite <- Es. cbn [seq map]. rewrite !row_sum_limb by lia. rewrite Es. reflexivity. }
  unfold D.eval_sum. rewrite Em, Es. apply complete_asserts_app; [|apply complete_range16, limbs_bound].
  apply complete_flat_map. intros i Hi. apply in_seq in Hi. rewrite row_sum_limb, Es by lia.
  cbn [div_row D.is_overflow D.b D.b_neg]. unfold when_not. apply complete_when_eq. intros N.
  destruct overflow eqn:Eo; [contradiction N; cbn [Fof_bool]; ring|].
  rewrite (div_equation sgn wrd b c Eo), (limbs8_nth B i (range_64 B Rb)) by lia. destruct (i <? 4)%nat; reflexivity.
Qed.

Lemma row_result : alu_value (div_opcode sgn wrd isdiv) b c = Ok a -> complete (D.eval_result local) [].
Proof.
  intros Ha. rewrite alu_value_div in Ha by assumption. apply Ok_inj in Ha. unfold div_spec in Ha.
  unfold D.eval_result. rewrite (fl_quot _ _ _ _ row_flags), (fl_rem _ _ _ _ row_flags).
  apply complete_flat_map. intros i _. cbn [div_row D.quotient D.remainder D.a].
  apply complete_asserts_app; apply complete_when_eq; intros N; apply Fof_bool_neq0 in N; rewrite <- Ha;
    destruct isdiv; try discriminate N; reflexivity.
Qed.

Lemma row_rem_sign : complete (D.eval_rem_sign local) [].
Proof.
  destruct (div_R_sign sgn wrd b c) as [S1 S2]. unfold D.eval_rem_sign. cbn [div_row D.rem_neg D.b_neg D.remainder].
  apply complete_asserts_app.
  - unfold assert_one. apply complete_when_eq. intros N. apply Fof_bool_neq0, Z.ltb_lt in N. apply S1, Z.ltb_lt in N. rewrite N. reflexivity.
  - apply complete_when2_zero. intros N1 N2. destruct (Z.ltb_spec R 0) as [Hr | Hr]; [contradiction N2; cbn [Fof_bool]; ring|].
    destruct (Z.eq_dec R 0) as [E | E].
    + contradiction N1. unfold div_remainder. rewrite E. replace (result_of wrd 0) with 0 by (destruct wrd; reflexivity).
      vm_compute. reflexivity.
    + rewrite (proj2 (Z.ltb_ge B 0)) by (apply S2; lia). reflexivity.
Qed.

Lemma row_div_by_zero : complete (D.eval_div_by_zero local) [].
Proof.
  unfold D.eval_div_by_zero. cbn [div_row D.c D.is_c_0 D.is_real D.quotient D.remainder_comp D.b].
  apply complete_asserts_app; [apply is_zero_word_complete|]. rewrite (c0_result sgn wrd b c).
  apply complete_asserts_app; apply complete_flat_map; intros i Hi; apply in_seq in Hi; apply complete_when_eq; intros N;
    apply Fof_bool_neq0, Z.eqb_eq in N; destruct (div_zero_result sgn wrd b c N) as [Eq Er].
  - rewrite Eq. destruct i as [|[|[|[|i]]]]; try lia; reflexivity.
  - rewrite Er. reflexivity.
Qed.

(** Absolute values. *)
Lemma neg_part_complete (z : Z) :
  in_range sgn wrd z ->
  complete (AddOperation.eval (word_from_u64 (as_u64 z)) (word_from_u64 (Z.abs z)) (fst (neg_part z)) (Fof_bool (z <? 0)))
    (snd (neg_part z)) /\ ((z <? 0) = true -> AddOperation.value (fst (neg_part z)) = word_zero).
Proof.
  intros Hz. unfold neg_part. destruct (Z.ltb_spec z 0); cbn [Fof_bool].
  - split.
    + pose proof (add_complete (as_u64 z) (Z.abs z) (as_unsigned_bound 64 z ltac:(lia)) (proj1 (abs_bound sgn wrd z Hz))) as H'.
      cbn [AddOperation.populate fst snd] in *. exact H'.
    + intros _. cbn [AddOperation.populate fst AddOperation.value]. replace (wrapping_add _ _) with 0; [reflexivity|].
      unfold wrapping_add, as_u64, as_unsigned. rewrite Zplus_mod_idemp_l, Z.abs_neq by lia. rewrite Z.add_opp_diag_r. reflexivity.
  - split; [|discriminate]. unfold AddOperation.eval. cbn [fst snd].
    apply complete_asserts_app; [apply complete_bool; left; reflexivity|].
    apply complete_asserts_app; [apply complete_chain_off | apply complete_range16_off].
Qed.

Lemma range_field (x : Z) :
  complete (slice_range_check_u16 (word_list (word_from_u64 x)) F1) (add_u16_range_checks_field (word_list (word_from_u64 x))).
Proof.
  unfold add_u16_range_checks_field. rewrite word_of_limbs, <- (map_map Fval as_u16).
  rewrite (map_Fval_Fof _ 16) by (lia || apply limbs_bound). unfold as_u16.
  rewrite (map_as_unsigned 16) by apply limbs_bound. apply complete_range16, limbs_bound.
Qed.

Lemma when_word_zero (g : bool) (w : Word F) :
  (g = true -> w = word_zero) -> complete (when (Fof_bool g) (assert_word_eq word_zero w)) [].
Proof.
  intros H. apply complete_asserts; [|reflexivity]. destruct g; [rewrite (H eq_refl); cbn; auto|].
  cbn. repeat split; intros [N _]; contradiction.
Qed.

(** The comparison of the remainder with the divisor. *)
Lemma lt_off (x y : Word F) : complete (LtOperationUnsigned.eval_lt_unsigned x y D.lt_zero F0) [].
Proof.
  assert (Bf : is_bool F0) by (left; reflexivity). destruct x as [x0 x1 x2 x3], y as [y0 y1 y2 y3]. unfold D.lt_zero, word_zero. lt_unfold.
  do 5 (apply complete_asserts_app; [apply complete_bool; exact Bf|]).
  apply complete_asserts_app; [apply complete_bool; left; ring|].
  do 4 (apply complete_asserts_app; [apply complete_when_eq; intros N; contradiction N; ring|]).
  apply complete_asserts_app; [apply complete_nil|].
  do 2 (apply complete_asserts_app; [apply complete_eq; ring|]).
  apply complete_asserts_app; [apply complete_when_eq; intros _; ring|].
  apply complete_asserts_app; [apply complete_bool; exact Bf|].
  apply complete_asserts_app; [apply complete_bool; exact Bf | apply complete_off].
Qed.

Lemma lt_part_ok : exists cols ev, lt_part sgn wrd b c = Ok (cols, ev).
Proof.
  destruct (div_ranges sgn wrd b c) as (_ & Rc & _ & Rr). unfold lt_part. destruct (Z.eqb_spec C 0) as [|Hn]; [eauto|].
  destruct (lt_unsigned_complete (Z.abs R) (Z.max 1 (Z.abs C))) as (cols & ev & E & _);
    [apply (abs_bound sgn wrd R Rr) | apply (abs_bound sgn wrd C Rc) |].
  pose proof (div_R_small sgn wrd b c Hn). rewrite (proj2 (Z.ltb_lt _ _)) in E by lia. eauto.
Qed.

Lemma row_lt (ev : list ByteLookupEvent) :
  lt_part sgn wrd b c = Ok (lt, ev) ->
  let m := Fof_bool (negb (C =? 0)) in
  complete (LtOperationUnsigned.eval_lt_unsigned (word_from_u64 (Z.abs R)) (word_from_u64 (Z.max 1 (Z.abs C))) lt m ++
            when m (assert_eq F1 (U16CompareOperation.bit (LtOperationUnsigned.u16_compare_operation lt)))) ev.
Proof.
  intros Hl. destruct (div_ranges sgn wrd b c) as (_ & Rc & _ & Rr). unfold lt_part in Hl.
  destruct (Z.eqb_spec C 0) as [|Hn]; cbn [negb Fof_bool].
  - apply Ok_inj in Hl. injection Hl as <- <-. apply complete_asserts_app; [apply lt_off|].
    apply complete_when_eq. intros N. contradiction.
  - pose proof (abs_bound sgn wrd R Rr) as [Ur _]. pose proof (abs_bound sgn wrd C Rc) as [_ Uc].
    destruct (lt_unsigned_complete (Z.abs R) (Z.max 1 (Z.abs C)) Ur Uc) as (cols & ev' & E & H).
    pose proof (div_R_small sgn wrd b c Hn) as Hs.
    assert (Ht : (Z.abs R <? Z.max 1 (Z.abs C)) = true) by (apply Z.ltb_lt; lia). rewrite Ht in E.
    rewrite Hl in E. apply Ok_inj in E. injection E as <- <-. apply complete_nil_r; [exact H|]. apply complete_when_1, complete_eq.
    rewrite (lt_unsigned_sound _ _ _ (valid_word_from _) (valid_word_from _) (proj1 H)), !word_val_from, Ht by assumption. reflexivity.
Qed.

Lemma row_max (i : nat) :
  (i < 4)%nat ->
  let c_0 := Fof_bool (C =? 0) in
  D.limb (word_from_u64 (Z.max 1 (Z.abs C))) i =
  (if (i =? 0)%nat then c_0 * F1 + (F1 - c_0) * D.limb (word_from_u64 (Z.abs C)) 0
   else (F1 - c_0) * D.limb (word_from_u64 (Z.abs C)) i)%F.
Proof.
  intros Hi. cbv zeta. destruct (Z.eqb_spec C 0) as [-> | Hn]; cbn [Fof_bool].
  - destruct i as [|[|[|[|i]]]]; try lia; vm_compute; reflexivity.
  - rewrite Z.max_r by lia. destruct i as [|i]; cbn [Nat.eqb]; ring.
Qed.

Lemma row_rem_range (ev : list ByteLookupEvent) :
  lt_part sgn wrd b c = Ok (lt, ev) ->
  complete (D.eval_rem_range local)
    (snd (neg_part C) ++ add_u16_range_checks_field (word_list (word_from_u64 (Z.abs C))) ++
     snd (neg_part R) ++ add_u16_range_checks_field (word_list (word_from_u64 (Z.abs R))) ++ ev).
Proof.
  intros Hl. destruct (div_ranges sgn wrd b c) as (_ & Rc & _ & Rr).
  destruct (neg_part_complete C Rc) as [Nc Zc], (neg_part_complete R Rr) as [Nr Zr].
  unfold D.eval_rem_range. cbn [div_row D.is_c_0 D.c_neg D.c D.abs_c D.rem_neg D.remainder_comp D.abs_remainder D.c_neg_operation
    D.abs_c_alu_event D.is_real D.rem_neg_operation D.abs_rem_alu_event D.max_abs_c_or_1 D.remainder_check_multiplicity
    D.remainder_lt_operation].
  rewrite (c0_result sgn wrd b c).
  apply complete_asserts_app.
  { apply complete_flat_map. intros i _. unfold when_not.
    apply complete_asserts_app; apply complete_when_eq; intros N; [destruct (Z.ltb_spec C 0) as [H | H] | destruct (Z.ltb_spec R 0) as [H | H]];
      try (contradiction N; cbn [Fof_bool]; ring); rewrite Z.abs_eq by exact H; rewrite (in_range_u64 sgn wrd) by assumption;
      rewrite (proj2 (Z.ltb_ge _ _) H); reflexivity. }
  apply complete_app; [exact Nc|]. apply complete_app; [apply range_field|].
  apply complete_asserts_app; [apply when_word_zero, Zc|].
  apply complete_app; [exact Nr|]. apply complete_app; [apply range_field|].
  apply complete_asserts_app; [apply when_word_zero, Zr|].
  do 2 (apply complete_asserts_app; [apply complete_eq; ring|]).
  apply complete_asserts_app.
  { apply complete_flat_map. intros i Hi. apply in_seq in Hi. apply complete_eq, row_max. lia. }
  apply complete_asserts_app; [|apply row_lt, Hl].
  apply complete_eq. destruct (C =? 0); cbn [negb Fof_bool]; ring.
Qed.

Lemma row_ranges :
  complete (D.eval_ranges local)
    (add_u16_range_checks (u64_to_u16_limbs quotient) ++ add_u16_range_checks (u64_to_u16_limbs remainder) ++
     add_u16_range_checks (limbs 8 (Q * C))).
Proof.
  unfold D.eval_ranges. cbn [div_row D.quotient D.remainder D.carry D.c_times_quotient D.is_real].
  apply complete_app; [apply complete_word_range16|]. apply complete_app; [apply complete_word_range16|].
  apply complete_asserts_app; [|apply complete_range16, limbs_bound].
  pose proof (add_remainder_limbs 0 (combine (limbs 8 (Q * C)) (limbs 8 R)) ltac:(lia)) as Ha. unfold sum_part, rem_limbs.
  destruct (D.add_remainder _ _) as [cs xs]. destruct Ha as [Hk _].
  { apply Forall_forall. intros [p r] Hin. split.
    - exact (proj1 (Forall_forall _ _) (limbs_bound 8 _) _ (in_combine_l _ _ _ _ Hin)).
    - exact (proj1 (Forall_forall _ _) (limbs_bound 8 _) _ (in_combine_r _ _ _ _ Hin)). }
  apply complete_flags. apply Forall_map. eapply Forall_impl; [|exact Hk]. cbn [fst]. intros k Hk'.
  assert (E : k = 0 \/ k = 1) by lia. destruct E as [-> | ->]; [left | right]; reflexivity.
Qed.

Lemma row_eval_flags : complete (D.eval_flags local) [].
Proof.
  unfold D.eval_flags. apply complete_asserts_app.
  - apply complete_flags. cbn [div_row D.is_div D.is_divu D.is_rem D.is_remu D.is_divw D.is_remw D.is_divuw D.is_remuw D.is_overflow
      D.is_real_not_word D.b_neg D.b_neg_not_overflow D.b_not_neg_not_overflow D.rem_neg D.c_neg D.is_real D.abs_c_alu_event
      D.abs_rem_alu_event].
    assert (Hp : forall x y, is_bool (Fof_bool x * (F1 - Fof_bool y))%F /\ is_bool ((F1 - Fof_bool x) * (F1 - Fof_bool y))%F)
      by (intros [] []; cbn [Fof_bool]; split; ((left; ring) || (right; ring))).
    repeat apply Forall_cons; try apply Forall_nil; first [apply Fof_bool_is_bool | apply Hp | right; reflexivity].
  - apply complete_eq. cbn [div_row D.is_div D.is_divu D.is_rem D.is_remu D.is_divw D.is_remw D.is_divuw D.is_remuw].
    destruct sgn, wrd, isdiv; cbn [div_opcode]; opcode_compute; cbn [Fof_bool]; ring.
Qed.

Lemma row_arith (ev : list ByteLookupEvent) :
  alu_value (div_opcode sgn wrd isdiv) b c = Ok a -> lt_part sgn wrd b c = Ok (lt, ev) ->
  let o := div_opcode sgn wrd isdiv in
  complete (D.eval_arith local)
    ((snd (MulOperation.populate (as_u64 Q) (as_u64 C) false false false) ++ snd (D.upper_cols o (as_u64 Q) (as_u64 C))) ++
     add_u16_range_checks (snd (sum_part sgn wrd b c)) ++
     (snd (neg_part C) ++ add_u16_range_checks_field (word_list (word_from_u64 (Z.abs C))) ++
      snd (neg_part R) ++ add_u16_range_checks_field (word_list (word_from_u64 (Z.abs R))) ++ ev) ++
     snd (D.msb_cols o b c (as_u64 B) (as_u64 C) quotient remainder) ++
     add_u16_range_checks (u64_to_u16_limbs quotient) ++ add_u16_range_checks (u64_to_u16_limbs remainder) ++
     add_u16_range_checks (limbs 8 (Q * C))).
Proof.
  intros Ha El. unfold D.eval_arith.
  apply complete_asserts_app; [exact row_signs|]. apply complete_asserts_app; [exact row_operands|].
  apply complete_asserts_app; [exact row_comps|]. apply complete_app; [exact row_product|].
  apply complete_asserts_app; [exact row_overflow|]. apply complete_app; [exact row_sum|].
  apply complete_asserts_app; [exact (row_result Ha)|]. apply complete_asserts_app; [exact row_rem_sign|].
  apply complete_asserts_app; [exact row_div_by_zero|]. apply complete_app; [exact (row_rem_range ev El)|].
  apply complete_app; [apply row_msbs|]. apply complete_nil_r; [exact row_ranges | exact row_eval_flags].
Qed.
End Row.

(** ** The chip *)

(** Bring the head of the left side to the front of the right side. *)
Ltac perm_head :=
  match goal with
  | |- Permutation (?x ++ _) _ =>
      repeat match goal with
      | |- Permutation _ (x ++ _) => fail 1
      | |- context [?y ++ x ++ ?z] => rewrite (Permutation_app_swap_app y x z)
      end; apply Permutation_app_head
  end.

Lemma div_events_perm (st ad ac ar cn rn m l lo up s q r p : list ByteLookupEvent) :
  Permutation (((lo ++ up) ++ s ++ (cn ++ ac ++ rn ++ ar ++ l) ++ m ++ q ++ r ++ p) ++ st ++ ad)
    ((st ++ ad) ++ (ac ++ ar) ++ (cn ++ rn) ++ m ++ l ++ (lo ++ up) ++ s ++ q ++ r ++ p).
Proof.
  rewrite <- (app_nil_r p). rewrite (app_nil_r p) at 1. rewrite <- (app_nil_r ad) at 1. rewrite <- !app_assoc. repeat perm_head. reflexivity.
Qed.

Lemma div_opcode_cases (o : Opcode) : In o D.opcodes -> exists sgn wrd isdiv, o = div_opcode sgn wrd isdiv.
Proof.
  intros [<- | [<- | [<- | [<- | [<- | [<- | [<- | [<- | []]]]]]]]];
    [exists false, false, true | exists false, false, false | exists true, false, true | exists true, false, false |
     exists true, true, true | exists true, true, false | exists false, true, true | exists false, true, false]; reflexivity.
Qed.

Section Complete.
Context (rrs : MajorOpcodes) (cfg : Config) (user : bool) (event : AluEvent) (rec : RTypeRecord).
Context (Hcfg : cfg_ok cfg user) (He : alu_event_ok event) (Hr : r_record_ok event rec).

Lemma divrem_chip_completes :
  In (ev_opcode event) D.opcodes ->
  exists r, D.event_to_row user event rec = Ok r /\ chip_complete (fun local => D.eval local rrs cfg) r.
Proof.
  intros Ho. destruct (div_opcode_cases _ Ho) as (sgn & wrd & isdiv & Eo).
  pose proof (r_populate_operands event rec Hr) as (Eb & Ec & E0). pose proof (eo_b _ He) as Hb. pose proof (eo_c _ He) as Hc.
  pose proof (eo_a _ He) as Ha. rewrite Eo in Ha.
  pose proof (fun op cs v mid => r_frame_complete cfg user event Hcfg He rec op cs v mid Hr) as Hf.
  pose proof (divrem_row_eq sgn wrd _ _ Hb Hc user event rec isdiv Eo eq_refl eq_refl) as Erow.
  destruct (CPUState.populate _ _) as [st ev_st], (RTypeReader.populate rec) as [ad ev_ad]. cbn [fst] in Eb, Ec, E0.
  destruct (lt_part_ok sgn wrd (ev_b event) (ev_c event)) as (lt & ev_lt & El). rewrite El in Erow. cbn [bind] in Erow.
  eexists. split; [exact Erow|]. unfold chip_complete, D.eval. cbn [fst snd].
  set (tr := trust_cols user (rt_is_untrusted rec)) in *. set (local := div_row _ _ _ _ _ _ _ _ _ _).
  assert (exists cs, r_consts rrs (D.flags local) D.opcodes = Ok cs) as [cs ->] by (eexists; reflexivity).
  cbn [bind]. eexists. split; [reflexivity|].
  eapply complete_perm; [|apply complete_app; [apply (row_arith sgn wrd isdiv); eassumption | apply Hf, complete_zero, E0]].
  apply div_events_perm.
Qed.
End Complete.

(** The padding row satisfies the chip and looks up nothing. *)
Lemma divrem_padding_completes (rrs : MajorOpcodes) (cfg : Config) (user : bool) :
  cfg_ok cfg user -> chip_complete (fun local => D.eval local rrs cfg) (D.padding_row user, []).
Proof.
  intros [H1 H2]. unfold chip_complete, D.eval. cbn [fst snd].
  assert (exists cs, r_consts rrs (D.flags (D.padding_row user)) D.opcodes = Ok cs) as [cs ->] by (eexists; reflexivity).
  cbn [bind]. eexists. split; [reflexivity|]. apply complete_asserts_app.
  - split; [apply satsb_spec; destruct user; vm_compute; reflexivity|]. destruct user; vm_compute; apply perm_nil.
  - assert (Hc : forall l, satsb l = true -> byte_lookups l = [] -> complete l [])
      by (intros l Hs Hl; apply complete_asserts; [apply satsb_spec, Hs | exact Hl]).
    unfold frame. apply complete_asserts_app; [apply Hc; destruct user; vm_compute; reflexivity|].
    apply complete_asserts_app; [|apply complete_asserts_app; apply Hc; destruct user; vm_compute; reflexivity].
    destruct user; cbn [D.padding_row D.adapter_cols D.is_real eval_trust fst IS_TRUSTED negb].
    + unfold eval_untrusted_program. rewrite (H2 eq_refl) in *. rewrite (H1 eq_refl).
      apply complete_asserts; [cbn; unfold is_bool; repeat split; auto | cbn; reflexivity].
    + destruct (mprotect cfg); [rewrite (H1 eq_refl); apply complete_eq; reflexivity | apply complete_nil].
Qed.
