(* ===== verification/Bump.v ===== *)
(** * The bump chips ([adapter/bump.rs], [memory/bump.rs])

    An instruction row adds to the low limb of the clock and of the program
    counter without propagating a carry.  [StateBumpChip] receives a state
    whose limbs have overflowed and sends the same state in canonical form;
    [MemoryBumpChip] reads a register again at a later timestamp, so that an
    instruction, which compares only the low 24 bits of the timestamps of a
    register, finds the high bits equal to its own.

    The theorems: a real row of either chip changes neither the integers of
    the state nor the value of the register, and the rows generated from the
    executor's events satisfy the constraints. *)

From Stdlib Require Import ZArith Lia List Bool Permutation.
From S2P Require Import Prelude Words Isa Field Air AirFacts Operations Compare Bitwise Mul.
From S2P Require Import Adapter AdapterFacts Row Readers.
Import ListNotations.
Open Scope Z_scope.

Module StateBumpChip.
Record Cols : Type := mkCols {
  next_clk_32_48 : F;
  next_clk_24_32 : F;
  next_clk_16_24 : F;
  next_clk_0_16 : F;
  clk_high : F;
  clk_low : F;
  next_pc : list F;
  pc : list F;
  is_clk : F;
  is_real : F
}.

(** A program counter as three 16-bit limbs. *)
Definition pc_limbs (pc : Z) : list Z :=
  [as_u16 (Z.land pc 0xFFFF); as_u16 (Z.land (shr pc 16) 0xFFFF); as_u16 (Z.land (shr pc 32) 0xFFFF)].

Definition event_to_row (clk increment : Z) (bump2 : bool) (pc : Z) : Cols :=
  let clk_low := as_u32 (as_u64 (Z.land clk 0xFFFFFF + increment)) in
  let clk_high := as_u32 (shr clk 24) in
  let next_clk := as_u64 (clk + increment) in
  let next_clk_0_16 := as_u16 (Z.land next_clk 0xFFFF) in
  let next_clk_16_24 := as_u8 (Z.land (shr next_clk 16) 0xFF) in
  let next_clk_24_32 := as_u8 (Z.land (shr next_clk 24) 0xFF) in
  let next_clk_32_48 := as_u16 (shr next_clk 32) in
  let next_pc := map Fof (pc_limbs pc) in
  let prev_pc := wrapping_sub pc PC_INC in
  let cols_pc :=
    if bump2 then
      match map Fof (pc_limbs prev_pc) with
      | p0 :: rest => (p0 + Fof PC_INC)%F :: rest
      | [] => []
      end
    else next_pc in
  mkCols (Fof next_clk_32_48) (Fof next_clk_24_32) (Fof next_clk_16_24) (Fof next_clk_0_16)
    (Fof clk_high) (Fof clk_low) next_pc cols_pc
    (if negb (shr next_clk 24 =? shr clk 24) then F1 else F0) F1.

(** [generate_dependencies]: the byte lookups of an event. *)
Definition event_lookups (clk increment pc : Z) : list ByteLookupEvent :=
  let next_clk := as_u64 (clk + increment) in
  let next_clk_0_16 := as_u16 (Z.land next_clk 0xFFFF) in
  let next_clk_16_24 := as_u8 (Z.land (shr next_clk 16) 0xFF) in
  let next_clk_24_32 := as_u8 (Z.land (shr next_clk 24) 0xFF) in
  let next_clk_32_48 := as_u16 (shr next_clk 32) in
  add_bit_range_check (as_u16 (next_clk_0_16 - 1) / 8) 13 ++
  add_bit_range_check next_clk_32_48 16 ++
  add_u8_range_checks [next_clk_16_24; next_clk_24_32] ++
  add_u16_range_checks (pc_limbs pc).

(** The carry loop over the limbs of the program counter. *)
Fixpoint pc_carry (carry : F) (limbs : list (F * F)) : list Emit :=
  match limbs with
  | [] => assert_zero carry
  | (p, n) :: rest =>
      let carry := ((carry + p - n) * Finv base16)%F in
      assert_bool carry ++ pc_carry carry rest
  end.

Definition eval (local : Cols) : list Emit :=
  let next_high := (next_clk_24_32 local + next_clk_32_48 local * Fof (2 ^ 8))%F in
  let next_low := (next_clk_0_16 local + next_clk_16_24 local * Fof (2 ^ 16))%F in
  assert_bool (is_real local) ++
  receive_state (clk_high local) (clk_low local) (pc local) (is_real local) ++
  send_state next_high next_low (next_pc local) (is_real local) ++
  send_byte (byte_op BRange) ((next_clk_0_16 local - F1) * Finv (Fof 8))%F (Fof 13) F0 (is_real local) ++
  send_byte (byte_op BRange) (next_clk_32_48 local) (Fof 16) F0 (is_real local) ++
  slice_range_check_u8 [next_clk_16_24 local; next_clk_24_32 local] (is_real local) ++
  assert_bool (is_clk local) ++
  when (is_real local) (assert_eq next_high (clk_high local + is_clk local)%F) ++
  when (is_real local) (assert_eq (next_low + is_clk local * Fof (2 ^ 24))%F (clk_low local)) ++
  pc_carry F0 (combine (pc local) (next_pc local)) ++
  slice_range_check_u16 (next_pc local) (is_real local).
End StateBumpChip.

Module MemoryBumpChip.
Record Cols : Type := mkCols {
  access : MemoryAccess.Cols;
  clk_32_48 : F;
  clk_24_32 : F;
  clk_16_24 : F;
  clk_0_16 : F;
  addr : F;
  is_real : F
}.

(** The timestamp the register is bumped to, and the read it is bumped by. *)
Definition bump_timestamp (event : MemoryRecordEnum) (is_refresh : bool) : Z :=
  let timestamp := mr_timestamp (current_record event) in
  if is_refresh then timestamp else shl 64 (shr timestamp 24) 24.

Definition bump_event (event : MemoryRecordEnum) (is_refresh : bool) : MemoryRecordEnum :=
  Read (mkMemoryReadRecord (mr_value (previous_record event)) (bump_timestamp event is_refresh)
          (mr_timestamp (previous_record event)) None).

Definition event_to_row (event : MemoryRecordEnum) (reg : Z) (is_refresh : bool)
  : Res (Cols * list ByteLookupEvent) :=
  let timestamp := bump_timestamp event is_refresh in
  let* r := MemoryAccess.populate (bump_event event is_refresh) in
  let '(access, ev) := r in
  let c0 := as_u16 (Z.land timestamp 0xFFFF) in
  let c1 := as_u8 (Z.land (shr timestamp 16) 0xFF) in
  let c2 := as_u8 (Z.land (shr timestamp 24) 0xFF) in
  let c3 := as_u16 (Z.land (shr timestamp 32) 0xFFFF) in
  Ok (mkCols access (Fof c3) (Fof c2) (Fof c1) (Fof c0) (Fof reg) F1,
      ev ++ add_u16_range_checks [c0; c3] ++ add_u8_range_checks [c1; c2] ++
      [mkByteLookupEvent BLTU8 1 (as_u8 reg) 32]).

Definition eval (local : Cols) : list Emit :=
  assert_bool (is_real local) ++
  slice_range_check_u16 [clk_0_16 local; clk_32_48 local] (is_real local) ++
  slice_range_check_u8 [clk_16_24 local; clk_24_32 local] (is_real local) ++
  send_byte (byte_op BLTU8) F1 (addr local) (Fof 32) (is_real local) ++
  MemoryAccess.eval_read
    (clk_24_32 local + clk_32_48 local * Fof (2 ^ 8))%F
    (clk_0_16 local + clk_16_24 local * Fof (2 ^ 16))%F
    [addr local; F0; F0] (access local) (is_real local).
End MemoryBumpChip.

(** ** Soundness *)

Definition bump_shape (local : StateBumpChip.Cols) : Prop :=
  length (StateBumpChip.pc local) = 3%nat /\ length (StateBumpChip.next_pc local) = 3%nat.

Lemma list3 {A} (l : list A) : length l = 3%nat -> exists x y z, l = [x; y; z].
Proof.
  intros H. destruct l as [|x [|y [|z [|]]]]; try discriminate. eauto.
Qed.

(** One limb of the carry loop, on a limb below [2^17]. *)
Lemma pc_carry_limb (c p n : F) :
  is_bool c -> is_u16F n -> Fval p < 2 ^ 17 -> is_bool ((c + p - n) * Finv base16)%F ->
  Fval c + Fval p = Fval n + 2 ^ 16 * Fval ((c + p - n) * Finv base16)%F.
Proof.
  intros Hc Hn Hp Hk. remember ((c + p - n) * Finv base16)%F as k eqn:E.
  symmetry in E. apply Fmul_inv_eq in E; [|apply base16_neq_0]. apply is_bool_val in Hc, Hk.
  unfold base16 in E. to_Z E. lia.
Qed.

(** The states on the bus: the high part of the clock has 24 bits, and the
    limbs of the program counter at most one bit over their 16. *)
Definition state_bounds (vs : list F) : Prop :=
  match vs with
  | [h; l; p0; p1; p2] => Fval h < 2 ^ 24 /\ Fval p0 < 2 ^ 17 /\ Fval p1 < 2 ^ 17 /\ Fval p2 < 2 ^ 17
  | _ => False
  end.

Lemma quiet_pc_carry (c : F) (l : list (F * F)) : quiet (StateBumpChip.pc_carry c l).
Proof. revert c. induction l as [|[p n] l IH]; intros c; cbn [StateBumpChip.pc_carry]; auto with quiet. Qed.
#[export] Hint Resolve quiet_pc_carry : quiet.

(** [mute k] removes the parts that send nothing on bus [k]. *)
Ltac mute k :=
  rewrite ?sends_app, ?receives_app;
  repeat match goal with
  | |- context [sends k ?l] =>
      rewrite (proj1 (quiet_silent k l ltac:(discriminate) ltac:(solve [auto with quiet])))
  | |- context [receives k ?l] =>
      rewrite (proj2 (quiet_silent k l ltac:(discriminate) ltac:(solve [auto with quiet])))
  end;
  rewrite ?app_nil_r; cbn [app].

Lemma live_state (vs : list F) :
  sends KState [Send (mkInteraction vs F1 KState) Local] = [vs] /\
  receives KState [Receive (mkInteraction vs F1 KState) Local] = [vs].
Proof.
  unfold sends, receives, live. cbn [flat_map kind kind_num Z.eqb Pos.eqb multiplicity values andb app].
  rewrite (Feqb_neq F1 F0 F1_neq_0). split; reflexivity.
Qed.

Lemma state_bump_messages (local : StateBumpChip.Cols) :
  StateBumpChip.is_real local = F1 ->
  receives KState (StateBumpChip.eval local)
    = [StateBumpChip.clk_high local :: StateBumpChip.clk_low local :: StateBumpChip.pc local] /\
  sends KState (StateBumpChip.eval local)
    = [(StateBumpChip.next_clk_24_32 local + StateBumpChip.next_clk_32_48 local * Fof (2 ^ 8))%F ::
       (StateBumpChip.next_clk_0_16 local + StateBumpChip.next_clk_16_24 local * Fof (2 ^ 16))%F ::
       StateBumpChip.next_pc local] /\
  silent KMemory (StateBumpChip.eval local) /\ silent KProgram (StateBumpChip.eval local).
Proof.
  intros Hr. unfold StateBumpChip.eval. rewrite Hr.
  assert (S : forall k vs, k <> KState -> silent k [Send (mkInteraction vs F1 KState) Local] /\
                           silent k [Receive (mkInteraction vs F1 KState) Local])
    by (intros k vs Hk; destruct k; try contradiction; repeat split).
  unfold send_state, receive_state. split; [|split; [|split; split]].
  - mute KState. rewrite (proj2 (live_state _)). unfold receives, sends. reflexivity.
  - mute KState. rewrite (proj1 (live_state _)). reflexivity.
  - mute KMemory. reflexivity.
  - mute KMemory. reflexivity.
  - mute KProgram. reflexivity.
  - mute KProgram. reflexivity.
Qed.

Lemma state_bump_sound (local : StateBumpChip.Cols) :
  bump_shape local -> StateBumpChip.is_real local = F1 -> sats (StateBumpChip.eval local) ->
  exists v v',
    receives KState (StateBumpChip.eval local) = [v] /\ sends KState (StateBumpChip.eval local) = [v'] /\
    state_bounds v' /\ (state_bounds v -> state_message v' = state_message v).
Proof.
  intros [L1 L2] Hr H. destruct (state_bump_messages local Hr) as (E1 & E2 & _).
  rewrite E1, E2. clear E1 E2. unfold StateBumpChip.eval in H. rewrite Hr in H.
  destruct local as [c3 c2 c1 c0 h l np p k r]. cbn [StateBumpChip.pc StateBumpChip.next_pc] in L1, L2.
  destruct (list3 _ L1) as (p0 & p1 & p2 & ->), (list3 _ L2) as (n0 & n1 & n2 & ->).
  cbn [StateBumpChip.next_clk_32_48 StateBumpChip.next_clk_24_32 StateBumpChip.next_clk_16_24
       StateBumpChip.next_clk_0_16 StateBumpChip.clk_high StateBumpChip.clk_low StateBumpChip.next_pc
       StateBumpChip.pc StateBumpChip.is_clk combine] in *.
  rewrite !sats_app, !sats_when_1, !sats_eq, !sats_bool, sats_range16 in H by apply F1_neq_0.
  destruct H as (_ & _ & _ & H0 & H3 & H12 & Hk & Eh & El & Hpc & Hn).
  rewrite !Forall_cons_iff in Hn. destruct Hn as (N0 & N1 & N2 & _).
  cbn [send_byte sats sat kind multiplicity values slice_range_check_u8] in H0, H3, H12.
  destruct H0 as [H0 _], H3 as [H3 _], H12 as [H12 _]. specialize (H0 F1_neq_0). specialize (H3 F1_neq_0).
  specialize (H12 F1_neq_0). apply lookup_range in H0; [|lia]. apply lookup_range16 in H3.
  apply lookup_u8 in H12 as [H1 H2]. cbn [StateBumpChip.pc_carry] in Hpc. rewrite !sats_app, !sats_bool, sats_zero in Hpc.
  destruct Hpc as (K0 & K1 & K2 & K3).
  exists [h; l; p0; p1; p2], [(c2 + c3 * Fof (2 ^ 8))%F; (c0 + c1 * Fof (2 ^ 16))%F; n0; n1; n2].
  split; [reflexivity|]. split; [reflexivity|].
  remember ((c0 - F1) * Finv (Fof 8))%F as e eqn:E. symmetry in E.
  apply Fmul_inv_eq in E; [|apply Fof_neq_0; unfold KOALA_BEAR_ORDER; lia].
  assert (E1 : c0 = (Fof 8 * e + F1)%F) by (transitivity (c0 - F1 + F1)%F; [ring | rewrite E; ring]).
  assert (B0 : Fval c0 = 8 * Fval e + 1) by (rewrite E1 at 1; apply Fval_rep; [exact _ | F_lia]).
  assert (Bh : Fval (c2 + c3 * Fof (2 ^ 8)) = Fval c2 + Fval c3 * 2 ^ 8) by (apply Fval_rep; [exact _ | F_lia]).
  assert (Bl : Fval (c0 + c1 * Fof (2 ^ 16)) = Fval c0 + Fval c1 * 2 ^ 16) by (apply Fval_rep; [exact _ | F_lia]).
  split; [cbn [state_bounds]; F_lia|].
  intros (Hh & P0 & P1 & P2). cbn [state_message].
  assert (K : is_bool F0) by (left; reflexivity).
  pose proof (pc_carry_limb _ _ _ K N0 P0 K0) as C0. pose proof (pc_carry_limb _ _ _ K0 N1 P1 K1) as C1.
  pose proof (pc_carry_limb _ _ _ K1 N2 P2 K2) as C2. rewrite K3 in C2. change (Fval F0) with 0 in C0, C2.
  apply is_bool_val in Hk. unfold timestamp, pc_val. do 2 f_equal; [|lia].
  to_Z Eh.
  assert (El' : Fval l = Fval c0 + Fval c1 * 2 ^ 16 + Fval k * 2 ^ 24)
    by (rewrite <- El; apply Fval_rep; [exact _ | F_lia]).
  lia.
Qed.

Lemma live_memory (vs : list F) :
  sends KMemory [Send (mkInteraction vs F1 KMemory) Local] = [vs] /\
  receives KMemory [Receive (mkInteraction vs F1 KMemory) Local] = [vs].
Proof.
  unfold sends, receives, live. cbn [flat_map kind kind_num Z.eqb Pos.eqb multiplicity values andb app].
  rewrite (Feqb_neq F1 F0 F1_neq_0). split; reflexivity.
Qed.

Lemma quiet_mem_timestamp (ts : MemoryAccessTimestamp.Cols) (c h l : F) :
  quiet (MemoryAccessTimestamp.eval ts c h l).
Proof. unfold MemoryAccessTimestamp.eval. auto 10 with quiet. Qed.
#[export] Hint Resolve quiet_mem_timestamp : quiet.

(** The record a bump row sends, and the one it receives. *)
Definition bump_sent (local : MemoryBumpChip.Cols) : list F :=
  let acc := MemoryBumpChip.access local in
  MemoryAccessTimestamp.prev_high (MemoryAccess.access_timestamp acc) ::
  MemoryAccessTimestamp.prev_low (MemoryAccess.access_timestamp acc) ::
  [MemoryBumpChip.addr local; F0; F0] ++ word_list (MemoryAccess.prev_value acc).
Definition bump_received (local : MemoryBumpChip.Cols) : list F :=
  (MemoryBumpChip.clk_24_32 local + MemoryBumpChip.clk_32_48 local * Fof (2 ^ 8))%F ::
  (MemoryBumpChip.clk_0_16 local + MemoryBumpChip.clk_16_24 local * Fof (2 ^ 16))%F ::
  [MemoryBumpChip.addr local; F0; F0] ++ word_list (MemoryAccess.prev_value (MemoryBumpChip.access local)).

Lemma memory_bump_messages (local : MemoryBumpChip.Cols) :
  MemoryBumpChip.is_real local = F1 ->
  sends KMemory (MemoryBumpChip.eval local) = [bump_sent local] /\
  receives KMemory (MemoryBumpChip.eval local) = [bump_received local] /\
  silent KState (MemoryBumpChip.eval local) /\ silent KProgram (MemoryBumpChip.eval local).
Proof.
  intros Hr. unfold MemoryBumpChip.eval, MemoryAccess.eval_read, send_memory, receive_memory. rewrite Hr.
  split; [|split; [|split; split]].
  - mute KMemory. rewrite (proj1 (live_memory _)). reflexivity.
  - mute KMemory. rewrite (proj2 (live_memory _)). reflexivity.
  - mute KState. reflexivity.
  - mute KState. reflexivity.
  - mute KProgram. reflexivity.
  - mute KProgram. reflexivity.
Qed.

Lemma memory_bump_sound (local : MemoryBumpChip.Cols) :
  MemoryBumpChip.is_real local = F1 -> sats (MemoryBumpChip.eval local) ->
  bus_read (bump_sent local) (bump_received local) /\ Fval (MemoryBumpChip.addr local) < 32.
Proof.
  intros Hr H. unfold MemoryBumpChip.eval in H. rewrite Hr, !sats_app, sats_range16 in H by apply F1_neq_0.
  destruct H as (_ & H03 & H12 & Ha & Hacc). rewrite !Forall_cons_iff in H03. destruct H03 as (H0 & H3 & _).
  cbn [send_byte sats sat kind multiplicity values slice_range_check_u8] in H12, Ha.
  destruct H12 as [H12 _], Ha as [Ha _]. specialize (H12 F1_neq_0). specialize (Ha F1_neq_0).
  apply lookup_u8 in H12 as [H1 H2]. apply lookup_ltu in Ha as (Ha & _ & E).
  rewrite (Fval_of_small 32) in E by (unfold KOALA_BEAR_ORDER; lia). change (Fval F1) with 1 in E.
  unfold MemoryAccess.eval_read in Hacc. rewrite !sats_app in Hacc. destruct Hacc as (_ & Ht & _).
  unfold bump_sent, bump_received. destruct local as [[[w0 w1 w2 w3] ts] c3 c2 c1 c0 ad r].
  cbn [MemoryBumpChip.access MemoryBumpChip.clk_32_48 MemoryBumpChip.clk_24_32 MemoryBumpChip.clk_16_24
       MemoryBumpChip.clk_0_16 MemoryBumpChip.addr MemoryBumpChip.is_real MemoryAccess.access_timestamp
       MemoryAccess.prev_value] in *.
  assert (Bh : Fval (c2 + c3 * Fof (2 ^ 8)) = Fval c2 + Fval c3 * 2 ^ 8) by (apply Fval_rep; [exact _ | F_lia]).
  assert (Bl : Fval (c0 + c1 * Fof (2 ^ 16)) = Fval c0 + Fval c1 * 2 ^ 16) by (apply Fval_rep; [exact _ | F_lia]).
  split; [|destruct (Z.ltb_spec (Fval ad) 32); [assumption | discriminate]].
  split; [|reflexivity]. split; cbn [app word_list length firstn skipn canonical_ts record_ts]; auto.
  - rewrite Bh, Bl. F_lia.
  - intros [P1 P2]. apply mem_timestamp_sound; try assumption; rewrite ?Bh, ?Bl; F_lia.
Qed.

(** ** Completeness *)

Lemma clk_limbs (t : Z) :
  0 <= t < 2 ^ 48 ->
  let c0 := as_u16 (Z.land t 0xFFFF) in
  let c1 := as_u8 (Z.land (shr t 16) 0xFF) in
  let c2 := as_u8 (Z.land (shr t 24) 0xFF) in
  let c3 := as_u16 (shr t 32) in
  0 <= c0 < 2 ^ 16 /\ 0 <= c1 < 2 ^ 8 /\ 0 <= c2 < 2 ^ 8 /\ 0 <= c3 < 2 ^ 16 /\
  c0 + c1 * 2 ^ 16 = t mod 2 ^ 24 /\ c2 + c3 * 2 ^ 8 = t / 2 ^ 24 /\ as_u16 (Z.land (shr t 32) 0xFFFF) = c3.
Proof.
  intros Ht. cbv zeta. change 0xFFFF with (2 ^ 16 - 1). change 0xFF with (2 ^ 8 - 1).
  rewrite !land_mask, !shr_div by lia. unfold as_u8, as_u16, as_unsigned. rewrite !Z.mod_mod by lia.
  repeat split; try apply Z.mod_pos_bound; try lia; dlia.
Qed.

Lemma pc_limbs_ok (pc : Z) :
  0 <= pc < 2 ^ 48 ->
  exists p0 p1 p2, StateBumpChip.pc_limbs pc = [p0; p1; p2] /\ pc = p0 + 2 ^ 16 * p1 + 2 ^ 32 * p2 /\
    0 <= p0 < 2 ^ 16 /\ 0 <= p1 < 2 ^ 16 /\ 0 <= p2 < 2 ^ 16.
Proof.
  intros Hp. unfold StateBumpChip.pc_limbs. change 0xFFFF with (2 ^ 16 - 1).
  rewrite !land_mask, !shr_div by lia. unfold as_u16, as_unsigned. rewrite !Z.mod_mod by lia.
  eexists _, _, _. split; [reflexivity|]. repeat split; try apply Z.mod_pos_bound; try lia. dlia.
Qed.

Lemma pc_carry_complete (p0 p1 p2 n0 n1 n2 k0 k1 : Z) :
  p0 = n0 + 2 ^ 16 * k0 -> k0 + p1 = n1 + 2 ^ 16 * k1 -> k1 + p2 = n2 ->
  k0 = 0 \/ k0 = 1 -> k1 = 0 \/ k1 = 1 ->
  complete (StateBumpChip.pc_carry F0 (combine [Fof p0; Fof p1; Fof p2] [Fof n0; Fof n1; Fof n2])) [].
Proof.
  intros E0 E1 E2 K0 K1. cbn [combine StateBumpChip.pc_carry].
  assert (C0 : ((F0 + Fof p0 - Fof n0) * Finv base16)%F = Fof k0)
    by (apply Finv_mul_solve; [apply base16_neq_0|]; unfold base16; F_fold; f_equal; lia).
  assert (C1 : ((Fof k0 + Fof p1 - Fof n1) * Finv base16)%F = Fof k1)
    by (apply Finv_mul_solve; [apply base16_neq_0|]; unfold base16; F_fold; f_equal; lia).
  assert (C2 : ((Fof k1 + Fof p2 - Fof n2) * Finv base16)%F = F0)
    by (apply Finv_mul_solve; [apply base16_neq_0|]; unfold base16; F_fold; f_equal; lia).
  rewrite C0, C1, C2.
  apply complete_asserts_app; [apply complete_bool; destruct K0 as [-> | ->]; [left | right]; reflexivity|].
  apply complete_asserts_app; [apply complete_bool; destruct K1 as [-> | ->]; [left | right]; reflexivity|].
  apply complete_asserts_app; [apply complete_bool; left; reflexivity|]. apply complete_zero. reflexivity.
Qed.

(** The carries of [prev_pc + 4]. *)
Lemma pc_bump_complete (pc : Z) (bump2 : bool) :
  0 <= pc < 2 ^ 48 -> (bump2 = true -> PC_INC <= pc) ->
  let cols_pc :=
    if bump2 then match map Fof (StateBumpChip.pc_limbs (wrapping_sub pc PC_INC)) with
                  | p0 :: rest => (p0 + Fof PC_INC)%F :: rest | [] => [] end
    else map Fof (StateBumpChip.pc_limbs pc) in
  complete (StateBumpChip.pc_carry F0 (combine cols_pc (map Fof (StateBumpChip.pc_limbs pc)))) [].
Proof.
  intros Hp Hb. destruct (pc_limbs_ok pc Hp) as (n0 & n1 & n2 & -> & En & N0 & N1 & N2). cbv zeta.
  destruct bump2; cbn [map].
  - specialize (Hb eq_refl). unfold PC_INC in *.
    assert (Ew : wrapping_sub pc 4 = pc - 4) by (apply Z.mod_small; lia). rewrite Ew.
    destruct (pc_limbs_ok (pc - 4) ltac:(lia)) as (q0 & q1 & q2 & -> & Eq & Q0 & Q1 & Q2). cbn [map].
    rewrite Fof_add.
    apply pc_carry_complete with (k0 := if q0 + 4 <? 2 ^ 16 then 0 else 1)
      (k1 := if q0 + 4 <? 2 ^ 16 then 0 else if q1 + 1 <? 2 ^ 16 then 0 else 1);
      destruct (Z.ltb_spec (q0 + 4) (2 ^ 16)); try destruct (Z.ltb_spec (q1 + 1) (2 ^ 16)); auto; lia.
  - apply pc_carry_complete with (k0 := 0) (k1 := 0); auto; lia.
Qed.

Lemma state_bump_complete (clk increment : Z) (bump2 : bool) (pc : Z) :
  0 <= clk -> 0 <= increment < 2 ^ 24 -> clk + increment < 2 ^ 48 -> (clk + increment) mod 8 = 1 ->
  0 <= pc < 2 ^ 48 -> (bump2 = true -> PC_INC <= pc) ->
  complete (StateBumpChip.eval (StateBumpChip.event_to_row clk increment bump2 pc))
           (StateBumpChip.event_lookups clk increment pc).
Proof.
  intros Hc Hi Hn H8 Hp Hb. pose proof (pc_bump_complete pc bump2 Hp Hb) as Hpc. cbv zeta in Hpc.
  unfold StateBumpChip.eval, StateBumpChip.event_to_row, StateBumpChip.event_lookups.
  cbn [StateBumpChip.next_clk_32_48 StateBumpChip.next_clk_24_32 StateBumpChip.next_clk_16_24
       StateBumpChip.next_clk_0_16 StateBumpChip.clk_high StateBumpChip.clk_low StateBumpChip.next_pc
       StateBumpChip.pc StateBumpChip.is_clk StateBumpChip.is_real].
  assert (En : as_u64 (clk + increment) = clk + increment) by (apply Z.mod_small; lia). rewrite En.
  destruct (clk_limbs (clk + increment) ltac:(lia)) as (B0 & B1 & B2 & B3 & Lo & Hi' & _).
  set (c0 := as_u16 (Z.land (clk + increment) 0xFFFF)) in *.
  set (c1 := as_u8 (Z.land (shr (clk + increment) 16) 0xFF)) in *.
  set (c2 := as_u8 (Z.land (shr (clk + increment) 24) 0xFF)) in *.
  set (c3 := as_u16 (shr (clk + increment) 32)) in *.
  assert (El : as_u32 (as_u64 (Z.land clk 0xFFFFFF + increment)) = clk mod 2 ^ 24 + increment).
  { change 0xFFFFFF with (2 ^ 24 - 1). rewrite land_mask by lia. unfold as_u32, as_u64, as_unsigned.
    pose proof (Z.mod_pos_bound clk (2 ^ 24) ltac:(lia)).
    rewrite (Z.mod_small _ (2 ^ 64)), (Z.mod_small _ (2 ^ 32)) by lia. reflexivity. }
  assert (Eh : as_u32 (shr clk 24) = clk / 2 ^ 24) by (rewrite shr_div by lia; apply Z.mod_small; dlia).
  rewrite El, Eh, !shr_div by lia.
  set (k := if negb ((clk + increment) / 2 ^ 24 =? clk / 2 ^ 24) then F1 else F0).
  assert (Hk : exists z, k = Fof z /\ (z = 0 \/ z = 1) /\ (clk + increment) / 2 ^ 24 = clk / 2 ^ 24 + z /\
                         clk mod 2 ^ 24 + increment = (clk + increment) mod 2 ^ 24 + z * 2 ^ 24).
  { unfold k. destruct (Z.eqb_spec ((clk + increment) / 2 ^ 24) (clk / 2 ^ 24)); cbn [negb].
    - exists 0. split; [reflexivity|]. dlia.
    - exists 1. split; [reflexivity|]. dlia. }
  destruct Hk as (z & -> & Hz & Ez1 & Ez2).
  apply complete_asserts_app; [apply complete_bool; right; reflexivity|].
  apply complete_asserts_app; [split; [cbn; auto | reflexivity]|].
  apply complete_asserts_app; [split; [cbn; auto | reflexivity]|].
  assert (E1 : as_u16 (c0 - 1) = c0 - 1) by (apply Z.mod_small; dlia).
  apply complete_app; [rewrite E1; apply complete_range; [|lia|dlia];
    apply Finv_mul_solve; [apply Fof_neq_0; unfold KOALA_BEAR_ORDER; lia|]; F_fold; f_equal; dlia|].
  apply complete_app; [apply complete_range; [reflexivity | lia | lia]|].
  apply complete_app; [apply (complete_u8 [c1; c2]); repeat constructor; lia|].
  apply complete_asserts_app; [apply complete_bool; destruct Hz as [-> | ->]; [left | right]; reflexivity|].
  apply complete_asserts_app; [apply complete_when_1, complete_eq; F_fold; f_equal; lia|].
  apply complete_asserts_app; [apply complete_when_1, complete_eq; F_fold; f_equal; lia|].
  apply complete_asserts_app; [exact Hpc|]. apply complete_range16.
  destruct (pc_limbs_ok pc Hp) as (n0 & n1 & n2 & -> & _ & N0 & N1 & N2). repeat constructor; lia.
Qed.

Lemma memory_bump_complete (event : MemoryRecordEnum) (reg : Z) (is_refresh : bool) :
  0 <= reg < 32 -> 0 <= mr_timestamp (current_record event) < 2 ^ 48 ->
  0 <= mr_timestamp (previous_record event) < MemoryBumpChip.bump_timestamp event is_refresh ->
  exists cols ev, MemoryBumpChip.event_to_row event reg is_refresh = Ok (cols, ev) /\
    complete (MemoryBumpChip.eval cols) ev.
Proof.
  intros Hr Hc Hp. unfold MemoryBumpChip.event_to_row.
  assert (Ht : 0 <= MemoryBumpChip.bump_timestamp event is_refresh < 2 ^ 48).
  { split; [lia|]. unfold MemoryBumpChip.bump_timestamp in *. destruct is_refresh; [lia|].
    unfold shl, as_unsigned in *. rewrite Z.shiftl_mul_pow2, shr_div in * by lia.
    rewrite Z.mod_small in * by dlia. dlia. }
  unfold MemoryAccess.populate, MemoryBumpChip.bump_event. cbn [previous_record current_record mr_timestamp mr_value
    rd_prev_timestamp rd_timestamp rd_value].
  set (t := MemoryBumpChip.bump_timestamp event is_refresh) in *.
  pose proof (mem_timestamp_complete _ t Hp (proj2 Ht)) as Hts.
  destruct (MemoryAccessTimestamp.populate_timestamp _ _) as [[ts ev]|]; [|contradiction]. cbn [bind fst snd].
  eexists _, _. split; [reflexivity|]. unfold MemoryBumpChip.eval, MemoryAccess.eval_read.
  cbn [MemoryBumpChip.access MemoryBumpChip.clk_32_48 MemoryBumpChip.clk_24_32 MemoryBumpChip.clk_16_24
       MemoryBumpChip.clk_0_16 MemoryBumpChip.addr MemoryBumpChip.is_real MemoryAccess.access_timestamp
       MemoryAccess.prev_value].
  destruct (clk_limbs t Ht) as (B0 & B1 & B2 & B3 & Lo & Hi & E3). rewrite E3.
  set (c0 := as_u16 (Z.land t 0xFFFF)) in *. set (c1 := as_u8 (Z.land (shr t 16) 0xFF)) in *.
  set (c2 := as_u8 (Z.land (shr t 24) 0xFF)) in *. set (c3 := as_u16 (shr t 32)) in *.
  rewrite ts_high_div, ts_low_mod, <- Lo, <- Hi in Hts by lia.
  replace (Fof c2 + Fof c3 * Fof (2 ^ 8))%F with (Fof (c2 + c3 * 2 ^ 8)) by (F_fold; reflexivity).
  replace (Fof c0 + Fof c1 * Fof (2 ^ 16))%F with (Fof (c0 + c1 * 2 ^ 16)) by (F_fold; reflexivity).
  assert (Er : as_u8 reg = reg) by (apply Z.mod_small; lia). rewrite Er.
  apply complete_asserts_app; [apply complete_bool; right; reflexivity|].
  apply (complete_perm _ (add_u16_range_checks [c0; c3] ++ add_u8_range_checks [c1; c2] ++
                          [mkByteLookupEvent BLTU8 1 reg 32] ++ ev)).
  { rewrite (app_assoc (add_u8_range_checks _)), (app_assoc (add_u16_range_checks _)). apply Permutation_app_comm. }
  apply complete_app; [apply (complete_range16 [c0; c3]); repeat constructor; lia|].
  apply complete_app; [apply (complete_u8 [c1; c2]); repeat constructor; lia|].
  apply complete_app.
  - split; [|cbn; rewrite (Feqb_neq F1 F0 F1_neq_0); reflexivity].
    cbn [send_byte sats sat kind multiplicity values]. split; [intros _|exact I]. apply lookup_ltu.
    rewrite !Fval_of_small by (unfold KOALA_BEAR_ORDER; lia). rewrite (proj2 (Z.ltb_lt reg 32)) by lia.
    repeat split; try lia.
  - apply complete_asserts_app; [apply complete_bool; right; reflexivity|].
    apply complete_nil_r; [exact Hts|]. split; [cbn; auto | reflexivity].
Qed.
