(* ===== verification/MemoryArgument.v ===== *)
(** * Offline memory checking

    The memory argument of the machine: every access sends the record it
    replaces and receives the record it leaves, and the bus is balanced by
    the initial and the final records.  This file shows, of integer records,
    that balance and increasing timestamps make the accesses those of a
    sequential memory: sorted by time, each access replaces the record the
    memory holds ([memory_argument]), and accesses that keep the value can be
    left out of the sequence of value_run ([values_without]).  [state_chain] is
    the same argument for the states of the machine. *)

From stdpp Require Import base gmap list sorting.
From Stdlib Require Import ZArith Lia.
From S2P Require Import Prelude Words Isa Field Air AirFacts Adapter AdapterFacts.
Open Scope Z_scope.

(** The memory: the record each address holds. *)
Abbreviation Store := (gmap Z (Z * Z)).

Definition to_message (r : Z * (Z * Z)) : MemMessage := mkMem (r.2).1 r.1 (r.2).2.
Definition records (st : Store) : list MemMessage := map to_message (map_to_list st).

(** The accesses replace, in order, the record the memory holds. *)
Inductive replay : Store -> list (MemMessage * MemMessage) -> Store -> Prop :=
| replay_nil st : replay st [] st
| replay_cons st p c accs st' :
    st !! mem_addr p = Some (mem_ts p, mem_val p) ->
    replay (<[mem_addr p := (mem_ts c, mem_val c)]> st) accs st' ->
    replay st ((p, c) :: accs) st'.

Definition well_timed (a : MemMessage * MemMessage) : Prop :=
  mem_addr a.1 = mem_addr a.2 /\ mem_ts a.1 < mem_ts a.2.

Definition by_time (a b : MemMessage * MemMessage) : Prop := mem_ts a.2 <= mem_ts b.2.

Lemma records_insert (st : Store) (a t v t' v' : Z) :
  st !! a = Some (t, v) ->
  mkMem t' a v' :: records st ≡ₚ mkMem t a v :: records (<[a := (t', v')]> st).
Proof.
  intros H. unfold records.
  rewrite <- (insert_id st a (t, v)) at 1 by done. rewrite <- insert_delete_eq.
  rewrite <- (insert_delete_eq st a (t', v')).
  rewrite !map_to_list_insert by apply lookup_delete_eq. cbn [map]. apply Permutation_swap.
Qed.

Lemma in_records (st : Store) (m : MemMessage) :
  m ∈ records st -> st !! mem_addr m = Some (mem_ts m, mem_val m).
Proof.
  unfold records. intros H. apply list_elem_of_In, in_map_iff in H as ([a [t v]] & <- & H).
  apply list_elem_of_In, elem_of_map_to_list in H. exact H.
Qed.

(** The accesses, in the order of their timestamps, are those of a memory that
    starts with the initial records and ends with the final ones. *)
Lemma memory_argument (accs : list (MemMessage * MemMessage)) (st : Store) (fin : list MemMessage) :
  StronglySorted by_time accs -> Forall well_timed accs ->
  map fst accs ++ fin ≡ₚ map snd accs ++ records st ->
  exists st', replay st accs st' /\ fin ≡ₚ records st'.
Proof.
  revert st. induction accs as [|[p c] accs IH]; intros st Hs Ht Hp.
  - exists st. split; [constructor | exact Hp].
  - apply StronglySorted_inv in Hs as [Hs Hmin]. apply Forall_cons_iff in Ht as [[Ha Ht1] Ht].
    cbn [fst snd map] in *.
    assert (Hin : p ∈ records st).
    { assert (p ∈ (c :: map snd accs) ++ records st) as [Hc | Hr]%elem_of_app; [|exfalso|exact Hr].
      - rewrite <- Hp. apply list_elem_of_here.
      - apply elem_of_cons in Hc as [-> | Hc]; [lia|].
        apply list_elem_of_In, in_map_iff in Hc as (q & Eq & Hq).
        rewrite Forall_forall in Hmin. apply list_elem_of_In, Hmin in Hq. unfold by_time in Hq. cbn in Hq.
        subst p. lia. }
    apply in_records in Hin.
    destruct (IH (<[mem_addr p := (mem_ts c, mem_val c)]> st) Hs Ht) as (st' & Hr & Hf).
    + apply (Permutation_cons_inv (a := p)).
      cbn [app] in Hp. rewrite Hp.
      pose proof (records_insert st _ _ _ (mem_ts c) (mem_val c) Hin) as E.
      assert (Ec : mkMem (mem_ts c) (mem_addr p) (mem_val c) = c) by (rewrite Ha; destruct c; reflexivity).
      assert (Ep : mkMem (mem_ts p) (mem_addr p) (mem_val p) = p) by (destruct p; reflexivity).
      rewrite Ec, Ep in E.
      rewrite (Permutation_middle (map snd accs) (records _) p), <- E, <- Permutation_middle. reflexivity.
    + exists st'. split; [constructor; assumption | exact Hf].
Qed.

(** ** Values *)

(** The same sequence on the values alone. *)
Inductive value_run : gmap Z Z -> list (MemMessage * MemMessage) -> gmap Z Z -> Prop :=
| values_nil vs : value_run vs [] vs
| values_cons vs p c accs vs' :
    vs !! mem_addr p = Some (mem_val p) ->
    value_run (<[mem_addr p := mem_val c]> vs) accs vs' ->
    value_run vs ((p, c) :: accs) vs'.

Definition keeps_value (a : MemMessage * MemMessage) : Prop := mem_val a.1 = mem_val a.2.

Lemma replay_values (st st' : Store) (accs : list (MemMessage * MemMessage)) :
  replay st accs st' -> value_run (snd <$> st) accs (snd <$> st').
Proof.
  induction 1 as [st | st p c accs st' Hl _ IH]; [constructor|].
  rewrite fmap_insert in IH. constructor; [rewrite lookup_fmap, Hl; reflexivity | exact IH].
Qed.

Lemma values_app (vs vs' : gmap Z Z) (l1 l2 : list (MemMessage * MemMessage)) :
  value_run vs (l1 ++ l2) vs' <-> exists m, value_run vs l1 m /\ value_run m l2 vs'.
Proof.
  split.
  - revert vs. induction l1 as [|[p c] l1 IH]; intros vs H; [exists vs; split; [constructor | exact H]|].
    inversion H as [|? ? ? ? ? Hl Hr]; subst. destruct (IH _ Hr) as (m & H1 & H2).
    exists m. split; [constructor; assumption | assumption].
  - intros (m & H1 & H2). induction H1; [exact H2|]. cbn [app]. constructor; auto.
Qed.

Lemma values_drop (vs vs' : gmap Z Z) (l1 l2 : list (MemMessage * MemMessage)) (a : MemMessage * MemMessage) :
  keeps_value a -> value_run vs (l1 ++ a :: l2) vs' -> value_run vs (l1 ++ l2) vs'.
Proof.
  intros Hk H. apply values_app in H as (m & H1 & H2). apply values_app. exists m. split; [exact H1|].
  destruct a as [p c]. inversion H2 as [|? ? ? ? ? Hl Hr]; subst. unfold keeps_value in Hk. cbn in Hk.
  rewrite <- Hk, insert_id in Hr by exact Hl. exact Hr.
Qed.

Lemma sorted_insert (a : MemMessage * MemMessage) (l : list (MemMessage * MemMessage)) :
  StronglySorted by_time l -> exists l1 l2, l = l1 ++ l2 /\ StronglySorted by_time (l1 ++ a :: l2).
Proof.
  induction 1 as [|b l Hs IH Hb]; [exists [], []; repeat constructor|].
  destruct (Z_le_gt_dec (mem_ts a.2) (mem_ts b.2)) as [Hle | Hgt].
  - exists [], (b :: l). split; [reflexivity|]. cbn. constructor; [constructor; assumption|].
    constructor; [exact Hle|]. eapply Forall_impl; [exact Hb|]. unfold by_time. cbn. lia.
  - destruct IH as (l1 & l2 & -> & IH). exists (b :: l1), l2. split; [reflexivity|]. cbn. constructor; [exact IH|].
    rewrite Forall_app in Hb |- *. destruct Hb as [H1 H2]. split; [exact H1|]. constructor; [|exact H2].
    unfold by_time. lia.
Qed.

Lemma values_without (reads accs : list (MemMessage * MemMessage)) :
  Forall keeps_value reads -> StronglySorted by_time accs ->
  exists all, StronglySorted by_time all /\ all ≡ₚ accs ++ reads /\
    forall vs vs', value_run vs all vs' -> value_run vs accs vs'.
Proof.
  intros Hk Hs. induction Hk as [|a reads Ha _ IH]; [exists accs; rewrite app_nil_r; auto|].
  destruct IH as (all & Hsa & Hp & Hv). destruct (sorted_insert a all Hsa) as (l1 & l2 & -> & Hs').
  exists (l1 ++ a :: l2). split; [exact Hs'|]. split.
  - rewrite <- !Permutation_middle, Hp. reflexivity.
  - intros vs vs' H. apply Hv. eapply values_drop; eassumption.
Qed.

(** A balanced bus makes the values of the accesses sequential, whatever
    value-preserving accesses are interleaved. *)
Lemma sequential_values (accs reads : list (MemMessage * MemMessage)) (st : Store) (fin : list MemMessage) :
  StronglySorted by_time accs -> Forall keeps_value reads -> Forall well_timed (accs ++ reads) ->
  map fst (accs ++ reads) ++ fin ≡ₚ map snd (accs ++ reads) ++ records st ->
  exists st', value_run (snd <$> st) accs (snd <$> st') /\ fin ≡ₚ records st'.
Proof.
  intros Hs Hk Ht Hp. destruct (values_without reads accs Hk Hs) as (all & Hsa & Hpa & Hv).
  destruct (memory_argument all st fin Hsa) as (st' & Hr & Hf).
  - rewrite Hpa. exact Ht.
  - rewrite !(Permutation_map _ Hpa). exact Hp.
  - exists st'. split; [apply Hv, replay_values, Hr | exact Hf].
Qed.

(** ** States *)
Section Chain.
Context {R : Type} (state_of next_of : R -> Z * Z).

Inductive chain : Z * Z -> list R -> Z * Z -> Prop :=
| chain_nil s : chain s [] s
| chain_cons r rows s : chain (next_of r) rows s -> chain (state_of r) (r :: rows) s.

Definition clk_sum (l : list (Z * Z)) : Z := foldr (fun s acc => s.1 + acc) 0 l.

Lemma clk_sum_perm (l l' : list (Z * Z)) : l ≡ₚ l' -> clk_sum l = clk_sum l'.
Proof. unfold clk_sum. induction 1; cbn [foldr]; lia. Qed.

Lemma clk_sum_lt (rows : list R) :
  Forall (fun r => (state_of r).1 < (next_of r).1) rows ->
  clk_sum (map state_of rows) + Z.of_nat (length rows) <= clk_sum (map next_of rows).
Proof. induction 1; cbn [map length clk_sum foldr] in *; unfold clk_sum in *; lia. Qed.

(** A balanced state bus orders the rows into one run, from the initial state
    to the final one: the clock increases, so there is no cycle. *)
Lemma state_chain (rows : list R) (init fin : Z * Z) :
  Forall (fun r => (state_of r).1 < (next_of r).1) rows ->
  init :: map next_of rows ≡ₚ fin :: map state_of rows ->
  exists rows', rows' ≡ₚ rows /\ chain init rows' fin.
Proof.
  remember (length rows) as n eqn:En. revert rows init En.
  induction n as [|n IH]; intros rows init En Hc Hp.
  - destruct rows; [|discriminate]. cbn in Hp. apply Permutation_singleton_inj in Hp as ->.
    exists []. split; constructor.
  - assert (Hin : In init (map state_of rows)).
    { destruct (decide (init = fin)) as [-> | Hne].
      - exfalso. apply Permutation_cons_inv, clk_sum_perm in Hp. pose proof (clk_sum_lt rows Hc). lia.
      - assert (init ∈ fin :: map state_of rows) as [? | ?]%elem_of_cons by (rewrite <- Hp; apply list_elem_of_here).
        + contradiction.
        + apply list_elem_of_In. assumption. }
    apply in_map_iff in Hin as (r & <- & Hr). apply in_split in Hr as (l1 & l2 & ->).
    assert (E : l1 ++ r :: l2 ≡ₚ r :: l1 ++ l2) by (symmetry; apply Permutation_middle).
    destruct (IH (l1 ++ l2) (next_of r)) as (rows' & Hp' & Hch).
    + rewrite length_app in En |- *. cbn in En. lia.
    + rewrite E in Hc. inversion Hc; assumption.
    + rewrite !(Permutation_map _ E) in Hp. cbn [map] in Hp.
      rewrite (Permutation_swap (state_of r) fin) in Hp. apply Permutation_cons_inv in Hp. exact Hp.
    + exists (r :: rows'). split; [rewrite Hp', E; reflexivity | constructor; exact Hch].
Qed.
End Chain.
