(* ===== verification/SyscallCode.v ===== *)
(** * System-call codes ([crates/core/executor/src/syscall_code.rs])

    The codes with their encodings, the decoding of a register value, the
    parts of an encoding, and the number of doublewords a call may touch. *)

From stdpp Require Import base list.
From Stdlib Require Import ZArith Lia Bool.
From S2P Require Import Prelude.
From S2P Require Import Words.
Open Scope Z_scope.

Inductive SyscallCode : Set :=
| HALT | WRITE | ENTER_UNCONSTRAINED | EXIT_UNCONSTRAINED | SHA_EXTEND | SHA_COMPRESS | ED_ADD
  | ED_DECOMPRESS | KECCAK_PERMUTE | SECP256K1_ADD | SECP256K1_DOUBLE | SECP256K1_DECOMPRESS | BN254_ADD
  | BN254_DOUBLE | COMMIT | COMMIT_DEFERRED_PROOFS | VERIFY_SP1_PROOF | BLS12381_DECOMPRESS | HINT_LEN
  | HINT_READ | UINT256_MUL | U256XU2048_MUL | BLS12381_ADD | BLS12381_DOUBLE | BLS12381_FP_ADD
  | BLS12381_FP_SUB | BLS12381_FP_MUL | BLS12381_FP2_ADD | BLS12381_FP2_SUB | BLS12381_FP2_MUL | BN254_FP_ADD
  | BN254_FP_SUB | BN254_FP_MUL | BN254_FP2_ADD | BN254_FP2_SUB | BN254_FP2_MUL | SECP256R1_ADD
  | SECP256R1_DOUBLE | SECP256R1_DECOMPRESS | UINT256_ADD_CARRY | UINT256_MUL_CARRY | MPROTECT | POSEIDON2
  | SIG_RETURN | HINT_MPROTECT_FLUSH | DUMP_ELF | INSERT_PROFILER_SYMBOLS | DELETE_PROFILER_SYMBOLS.

#[export] Instance SyscallCode_eq_dec : EqDecision SyscallCode.
Proof. solve_decision. Defined.

(** The discriminants of the enumeration. *)
Definition code_as_u32 (c : SyscallCode) : Z :=
  match c with
  | HALT => 0x00_00_00_00
  | WRITE => 0x00_00_00_02
  | ENTER_UNCONSTRAINED => 0x00_00_00_03
  | EXIT_UNCONSTRAINED => 0x00_00_00_04
  | SHA_EXTEND => 0x00_30_01_05
  | SHA_COMPRESS => 0x00_01_01_06
  | ED_ADD => 0x00_01_01_07
  | ED_DECOMPRESS => 0x00_00_01_08
  | KECCAK_PERMUTE => 0x00_01_01_09
  | SECP256K1_ADD => 0x00_01_01_0A
  | SECP256K1_DOUBLE => 0x00_00_01_0B
  | SECP256K1_DECOMPRESS => 0x00_00_01_0C
  | BN254_ADD => 0x00_01_01_0E
  | BN254_DOUBLE => 0x00_00_01_0F
  | COMMIT => 0x00_00_00_10
  | COMMIT_DEFERRED_PROOFS => 0x00_00_00_1A
  | VERIFY_SP1_PROOF => 0x00_00_00_1B
  | BLS12381_DECOMPRESS => 0x00_00_01_1C
  | HINT_LEN => 0x00_00_00_F0
  | HINT_READ => 0x00_00_00_F1
  | UINT256_MUL => 0x00_01_01_1D
  | U256XU2048_MUL => 0x00_01_01_2F
  | BLS12381_ADD => 0x00_01_01_1E
  | BLS12381_DOUBLE => 0x00_00_01_1F
  | BLS12381_FP_ADD => 0x00_01_01_20
  | BLS12381_FP_SUB => 0x00_01_01_21
  | BLS12381_FP_MUL => 0x00_01_01_22
  | BLS12381_FP2_ADD => 0x00_01_01_23
  | BLS12381_FP2_SUB => 0x00_01_01_24
  | BLS12381_FP2_MUL => 0x00_01_01_25
  | BN254_FP_ADD => 0x00_01_01_26
  | BN254_FP_SUB => 0x00_01_01_27
  | BN254_FP_MUL => 0x00_01_01_28
  | BN254_FP2_ADD => 0x00_01_01_29
  | BN254_FP2_SUB => 0x00_01_01_2A
  | BN254_FP2_MUL => 0x00_01_01_2B
  | SECP256R1_ADD => 0x00_01_01_2C
  | SECP256R1_DOUBLE => 0x00_00_01_2D
  | SECP256R1_DECOMPRESS => 0x00_00_01_2E
  | UINT256_ADD_CARRY => 0x00_01_01_30
  | UINT256_MUL_CARRY => 0x00_01_01_31
  | MPROTECT => 0x00_00_01_32
  | POSEIDON2 => 0x00_00_01_33
  | SIG_RETURN => 0x00_00_01_34
  | HINT_MPROTECT_FLUSH => 0x00_00_00_35
  | DUMP_ELF => 0x00_00_00_40
  | INSERT_PROFILER_SYMBOLS => 0x00_00_00_41
  | DELETE_PROFILER_SYMBOLS => 0x00_00_00_42
  end.

(** [SyscallCode::from_u32] is a match on its argument. *)
Definition from_u32_table : list (Z * SyscallCode) :=
  [(0x00_00_00_00, HALT); (0x00_00_00_02, WRITE); (0x00_00_00_03, ENTER_UNCONSTRAINED);
   (0x00_00_00_04, EXIT_UNCONSTRAINED); (0x00_30_01_05, SHA_EXTEND); (0x00_01_01_06, SHA_COMPRESS);
   (0x00_01_01_07, ED_ADD); (0x00_00_01_08, ED_DECOMPRESS); (0x00_01_01_09, KECCAK_PERMUTE);
   (0x00_01_01_0A, SECP256K1_ADD); (0x00_00_01_0B, SECP256K1_DOUBLE); (0x00_00_01_0C, SECP256K1_DECOMPRESS);
   (0x00_01_01_0E, BN254_ADD); (0x00_00_01_0F, BN254_DOUBLE); (0x00_01_01_1E, BLS12381_ADD);
   (0x00_00_01_1F, BLS12381_DOUBLE); (0x00_00_00_10, COMMIT); (0x00_00_00_1A, COMMIT_DEFERRED_PROOFS);
   (0x00_00_00_1B, VERIFY_SP1_PROOF); (0x00_00_00_F0, HINT_LEN); (0x00_00_00_F1, HINT_READ);
   (0x00_01_01_1D, UINT256_MUL); (0x00_01_01_2F, U256XU2048_MUL); (0x00_01_01_20, BLS12381_FP_ADD);
   (0x00_01_01_21, BLS12381_FP_SUB); (0x00_01_01_22, BLS12381_FP_MUL); (0x00_01_01_23, BLS12381_FP2_ADD);
   (0x00_01_01_24, BLS12381_FP2_SUB); (0x00_01_01_25, BLS12381_FP2_MUL); (0x00_01_01_26, BN254_FP_ADD);
   (0x00_01_01_27, BN254_FP_SUB); (0x00_01_01_28, BN254_FP_MUL); (0x00_01_01_29, BN254_FP2_ADD);
   (0x00_01_01_2A, BN254_FP2_SUB); (0x00_01_01_2B, BN254_FP2_MUL); (0x00_00_01_1C, BLS12381_DECOMPRESS);
   (0x00_01_01_2C, SECP256R1_ADD); (0x00_00_01_2D, SECP256R1_DOUBLE); (0x00_00_01_2E, SECP256R1_DECOMPRESS);
   (0x00_01_01_30, UINT256_ADD_CARRY); (0x00_01_01_31, UINT256_MUL_CARRY); (0x00_00_01_32, MPROTECT);
   (0x00_00_01_33, POSEIDON2); (0x00_00_01_34, SIG_RETURN); (0x00_00_00_35, HINT_MPROTECT_FLUSH);
   (0x00_00_00_40, DUMP_ELF); (0x00_00_00_41, INSERT_PROFILER_SYMBOLS);
   (0x00_00_00_42, DELETE_PROFILER_SYMBOLS)].

Definition from_u32 (value : Z) : Res SyscallCode :=
  of_option (option_map snd (List.find (fun e => fst e =? value) from_u32_table)).

(** The identifier is byte 0 of the encoding; byte 1 says whether the call has
    a table of its own. *)
Definition syscall_id (c : SyscallCode) : Z := nth 0 (le_bytes 4 (code_as_u32 c)) 0.
Definition should_send (c : SyscallCode) : Z := nth 1 (le_bytes 4 (code_as_u32 c)) 0.

Definition count_map (c : SyscallCode) : SyscallCode :=
  match c with
  | BN254_FP_SUB => BN254_FP_ADD
  | BN254_FP_MUL => BN254_FP_ADD
  | BN254_FP2_SUB => BN254_FP2_ADD
  | BLS12381_FP_SUB => BLS12381_FP_ADD
  | BLS12381_FP_MUL => BLS12381_FP_ADD
  | BLS12381_FP2_SUB => BLS12381_FP2_ADD
  | _ => c
  end.

Inductive FieldOperation : Set := FAdd | FMul | FSub | FDiv.
Inductive Uint256Operation : Set := UAdd | UMul.

Definition fp_op_map (c : SyscallCode) : Res FieldOperation :=
  match c with
  | BLS12381_FP_ADD | BLS12381_FP2_ADD | BN254_FP_ADD | BN254_FP2_ADD => Ok FAdd
  | BLS12381_FP_SUB | BLS12381_FP2_SUB | BN254_FP_SUB | BN254_FP2_SUB => Ok FSub
  | BLS12381_FP_MUL | BLS12381_FP2_MUL | BN254_FP_MUL | BN254_FP2_MUL => Ok FMul
  | _ => Panic
  end.

Definition uint256_op_map (c : SyscallCode) : Res Uint256Operation :=
  match c with
  | UINT256_ADD_CARRY => Ok UAdd
  | UINT256_MUL_CARRY => Ok UMul
  | _ => Panic
  end.

Definition touched_addresses (c : SyscallCode) : Z :=
  match c with
  | SHA_EXTEND => 64
  | SHA_COMPRESS => 72
  | KECCAK_PERMUTE => 25
  | BLS12381_ADD | BLS12381_FP2_ADD | BLS12381_FP2_SUB | BLS12381_FP2_MUL => 24
  | BLS12381_DECOMPRESS | BLS12381_DOUBLE | BLS12381_FP_ADD | BLS12381_FP_SUB | BLS12381_FP_MUL => 12
  | ED_ADD | SECP256K1_ADD | SECP256R1_ADD | BN254_ADD | BN254_FP2_ADD | BN254_FP2_SUB | BN254_FP2_MUL => 16
  | ED_DECOMPRESS | SECP256K1_DECOMPRESS | SECP256R1_DECOMPRESS | SECP256K1_DOUBLE | SECP256R1_DOUBLE
  | BN254_DOUBLE | BN254_FP_ADD | BN254_FP_SUB | BN254_FP_MUL => 8
  | UINT256_MUL => 12
  | UINT256_ADD_CARRY | UINT256_MUL_CARRY => 20
  | U256XU2048_MUL => 72
  | MPROTECT => 0
  | POSEIDON2 => 8
  | _ => 0
  end.

(** ** Encoding and decoding *)

(** Decoding is the inverse of the discriminants. *)
Lemma from_u32_code (c : SyscallCode) : from_u32 (code_as_u32 c) = Ok c.
Proof. destruct c; vm_compute; reflexivity. Qed.

Lemma from_u32_ok (v : Z) (c : SyscallCode) : from_u32 v = Ok c -> code_as_u32 c = v.
Proof.
  unfold from_u32. intros E. apply of_option_ok in E. destruct (find _ _) as [[v' c']|] eqn:F; [|discriminate].
  injection E as <-. apply find_some in F as [Hin Hv]. apply Z.eqb_eq in Hv. cbn in Hv. subst v'.
  repeat (destruct Hin as [[= <- <-] | Hin]; [reflexivity|]). destruct Hin.
Qed.
