(* ===== verification/Paging.v ===== *)
(** * Paged memory

    [PagedMemory] of [crates/core/executor/src/memory.rs]: an index from the
    upper part of an address to a page number, pages of optional values that
    are allocated on first use, and the entry interface for in-place updates.
    A mutable reference is the value it refers to and the store after a write
    through it.  An access outside the index panics. *)

From stdpp Require Import base list gmap sorting.
From Stdlib Require Import ZArith Lia Bool.
From S2P Require Import Prelude.
From S2P Require Import Words.
Open Scope Z_scope.

Definition MAX_LOG_ADDR : Z := 40.
Definition LOG_PAGE_LEN : Z := 18.
Definition PAGE_LEN : Z := Z.shiftl 1 LOG_PAGE_LEN.
Definition MAX_PAGE_COUNT : Z := Z.shiftl 1 MAX_LOG_ADDR / 8 / PAGE_LEN.
Definition NO_PAGE : Z := 2 ^ 32 - 1.
Definition PAGE_MASK : Z := PAGE_LEN - 1.
Definition NUM_IGNORED_LOWER_BITS : Z := 3.

Definition compress_addr (addr : Z) : Z := Z.shiftr addr NUM_IGNORED_LOWER_BITS.
Definition decompress_addr (addr : Z) : Z := as_u64 (Z.shiftl addr NUM_IGNORED_LOWER_BITS).

(** An address as an index into the index and one into a page. *)
Definition indices (addr : Z) : Z * Z :=
  let index := compress_addr addr in (Z.shiftr index LOG_PAGE_LEN, Z.land index PAGE_MASK).

(** An entry for in-place manipulation in a store of type [M]: the store when
    the entry is dropped, and the store after the slot has been written. *)
Inductive Entry (M V : Type) : Type :=
| Vacant (dropped : M) (put : V -> M)
| Occupied (dropped : M) (v : V) (put : V -> M).
Arguments Vacant {M V} dropped put.
Arguments Occupied {M V} dropped v put.

Module Entry.
Section Entry.
Context {M V : Type}.

Definition or_insert (e : Entry M V) (default : V) : V * (V -> M) :=
  match e with
  | Vacant _ put => (default, put)
  | Occupied _ v put => (v, put)
  end.

Definition and_modify (e : Entry M V) (f : V -> V) : Entry M V :=
  match e with
  | Vacant m put => Vacant m put
  | Occupied _ v put => Occupied (put (f v)) (f v) put
  end.

Definition dropped (e : Entry M V) : M :=
  match e with Vacant m _ => m | Occupied m _ _ => m end.

Definition value (e : Entry M V) : option V :=
  match e with Vacant _ _ => None | Occupied _ v _ => Some v end.

Definition put (e : Entry M V) : V -> M :=
  match e with Vacant _ p => p | Occupied _ _ p => p end.

Definition map {M'} (f : M -> M') (e : Entry M V) : Entry M' V :=
  match e with
  | Vacant m put => Vacant (f m) (fun v => f (put v))
  | Occupied m v put => Occupied (f m) v (fun v => f (put v))
  end.
End Entry.
End Entry.

Module PagedMemory.
Section PagedMemory.
Context {V : Type}.

Definition new_page : list (option V) := replicate (Z.to_nat PAGE_LEN) None.

Record PagedMemory : Type := mkPagedMemory {
  page_table : list (list (option V));
  index : list Z
}.

Definition new_preallocated : PagedMemory := mkPagedMemory [] (replicate (Z.to_nat MAX_PAGE_COUNT) NO_PAGE).

(** The page of a number, and the slot of a page: both panic out of range. *)
Definition page (m : PagedMemory) (i : Z) : Res (list (option V)) := of_option (page_table m !! Z.to_nat i).
Definition slot (m : PagedMemory) (i lower : Z) : Res (option V) :=
  let* p := page m i in of_option (p !! Z.to_nat lower).

Definition set_slot (m : PagedMemory) (i lower : Z) (v : option V) : PagedMemory :=
  mkPagedMemory (alter <[Z.to_nat lower := v]> (Z.to_nat i) (page_table m)) (index m).

(** The index entry is set before the new page is pushed. *)
Definition alloc (m : PagedMemory) (upper : Z) : PagedMemory :=
  mkPagedMemory (page_table m ++ [new_page])
    (<[Z.to_nat upper := as_u32 (Z.of_nat (length (page_table m)))]> (index m)).

Definition get (m : PagedMemory) (addr : Z) : Res (option V) :=
  let (upper, lower) := indices addr in
  let* i := of_option (index m !! Z.to_nat upper) in
  if i =? NO_PAGE then Ok None else slot m i lower.

Definition get_mut (m : PagedMemory) (addr : Z) : Res (option (V * (V -> PagedMemory))) :=
  let (upper, lower) := indices addr in
  let* i := of_option (index m !! Z.to_nat upper) in
  if i =? NO_PAGE then Ok None
  else let* v := slot m i lower in
       Ok (option_map (fun v => (v, fun x => set_slot m i lower (Some x))) v).

(** The previous value, and the memory after the insertion. *)
Definition insert (m : PagedMemory) (addr : Z) (value : V) : Res (option V * PagedMemory) :=
  let (upper, lower) := indices addr in
  let* i := of_option (index m !! Z.to_nat upper) in
  let (i, m) := if i =? NO_PAGE then (as_u32 (Z.of_nat (length (page_table m))), alloc m upper) else (i, m) in
  let* old := slot m i lower in
  Ok (old, set_slot m i lower (Some value)).

Definition remove (m : PagedMemory) (addr : Z) : Res (option V * PagedMemory) :=
  let (upper, lower) := indices addr in
  let* i := of_option (index m !! Z.to_nat upper) in
  if i =? NO_PAGE then Ok (None, m)
  else let* old := slot m i lower in Ok (old, set_slot m i lower None).

Definition entry (m : PagedMemory) (addr : Z) : Res (Entry PagedMemory V) :=
  let (upper, lower) := indices addr in
  let* i := of_option (index m !! Z.to_nat upper) in
  if i =? NO_PAGE then
    let i := Z.of_nat (length (page_table m)) in
    let m := alloc m upper in
    let* _ := slot m i lower in
    Ok (Vacant m (fun v => set_slot m i lower (Some v)))
  else
    let* option := slot m i lower in
    Ok (match option with
        | Some v => Occupied m v (fun x => set_slot m i lower (Some x))
        | None => Vacant m (fun v => set_slot m i lower (Some v))
        end).

(** The allocated entries of the index, with their positions. *)
Definition allocated (m : PagedMemory) : list (nat * Z) :=
  List.filter (fun '(_, i) => negb (i =? NO_PAGE)) (imap pair (index m)).

(** The addresses of the occupied slots of a page. *)
Definition page_entries {B} (f : Z -> V -> B) (upper : nat) (p : list (option V)) : list B :=
  imap pair p ≫= fun '(lower, v) =>
    match v with
    | Some v => [f (decompress_addr (Z.shiftl (Z.of_nat upper) LOG_PAGE_LEN + Z.of_nat lower)) v]
    | None => []
    end.

Definition keys (m : PagedMemory) : Res (list Z) :=
  let* ls := mapM (fun '(upper, i) => let* p := page m i in Ok (page_entries (fun addr _ => addr) upper p)) (allocated m) in
  Ok (concat ls).

(** Each page is taken out of the table when the iterator reaches it. *)
Fixpoint into_iter_from (table : list (list (option V))) (entries : list (nat * Z)) : Res (list (Z * V)) :=
  match entries with
  | [] => Ok []
  | (upper, i) :: entries =>
      let* p := of_option (table !! Z.to_nat i) in
      let* rest := into_iter_from (<[Z.to_nat i := []]> table) entries in
      Ok (page_entries pair upper p ++ rest)
  end.

Definition into_iter (m : PagedMemory) : Res (list (Z * V)) := into_iter_from (page_table m) (allocated m).

Fixpoint insert_all (m : PagedMemory) (l : list (Z * V)) : Res PagedMemory :=
  match l with
  | [] => Ok m
  | (k, v) :: l => let* (_, m) := insert m k v in insert_all m l
  end.

Definition from_iter (l : list (Z * V)) : Res PagedMemory := insert_all new_preallocated l.

Definition exact_len (m : PagedMemory) : Res Z :=
  let* ns := mapM (fun i => let* p := page m i in
                            Ok (Z.of_nat (length (List.filter (fun v : option V => match v with Some _ => true | None => false end) p))))
               (List.filter (fun i => negb (i =? NO_PAGE)) (index m)) in
  Ok (foldr Z.add 0 ns).

Definition estimate_len (m : PagedMemory) : Z :=
  Z.of_nat (length (List.filter (fun i => negb (i =? NO_PAGE)) (index m))) * PAGE_LEN.

Definition clear (m : PagedMemory) : PagedMemory := mkPagedMemory [] (replicate (length (index m)) NO_PAGE).
End PagedMemory.
Arguments PagedMemory : clear implicits.
End PagedMemory.

(** ** Addresses *)

Lemma page_len_eq : PAGE_LEN = 2 ^ 18.
Proof. reflexivity. Qed.

Lemma max_page_count_eq : MAX_PAGE_COUNT = 2 ^ 19.
Proof. reflexivity. Qed.

(** The sizes are known to arithmetic only, never unfolded to lists. *)
#[global] Opaque PAGE_LEN MAX_PAGE_COUNT.

(** The addresses the index covers. *)
Definition in_space (addr : Z) : Prop := 0 <= addr < 2 ^ MAX_LOG_ADDR.

(** The doubleword of an address. *)
Definition word_of (addr : Z) : Z := addr - addr mod 8.

Lemma indices_eq (addr : Z) : indices addr = (addr / 2 ^ 21, (addr / 8) mod 2 ^ 18).
Proof.
  unfold indices, compress_addr, PAGE_MASK. rewrite page_len_eq, land_mask by lia.
  rewrite !Z.shiftr_div_pow2 by (vm_compute; discriminate). change (2 ^ NUM_IGNORED_LOWER_BITS) with 8.
  change (2 ^ LOG_PAGE_LEN) with (2 ^ 18). rewrite Z.div_div by lia. reflexivity.
Qed.

Lemma indices_bound (addr : Z) : in_space addr -> 0 <= addr / 2 ^ 21 < MAX_PAGE_COUNT /\ 0 <= (addr / 8) mod 2 ^ 18 < PAGE_LEN.
Proof.
  unfold in_space, MAX_LOG_ADDR. intros Ha. rewrite max_page_count_eq, page_len_eq. dlia.
Qed.

Lemma indices_inj (a b : Z) :
  in_space a -> in_space b -> a / 2 ^ 21 = b / 2 ^ 21 -> (a / 8) mod 2 ^ 18 = (b / 8) mod 2 ^ 18 -> word_of a = word_of b.
Proof. unfold in_space, MAX_LOG_ADDR, word_of. intros. dlia. Qed.

Lemma indices_word (a b : Z) :
  word_of a = word_of b -> a / 2 ^ 21 = b / 2 ^ 21 /\ (a / 8) mod 2 ^ 18 = (b / 8) mod 2 ^ 18.
Proof. unfold word_of. intros. assert (a / 8 = b / 8) as E by dlia. rewrite E. split; [dlia | reflexivity]. Qed.

Lemma in_space_word (a : Z) : in_space a -> in_space (word_of a).
Proof. unfold in_space, MAX_LOG_ADDR, word_of. intros. dlia. Qed.

Lemma word_of_aligned (a : Z) : a mod 8 = 0 -> word_of a = a.
Proof. unfold word_of. lia. Qed.

Lemma word_of_idem (a : Z) : word_of (word_of a) = word_of a.
Proof. unfold word_of. dlia. Qed.

(** The address of a slot, and the slot of that address. *)
Lemma decompress_indices (u l : Z) :
  0 <= u < MAX_PAGE_COUNT -> 0 <= l < PAGE_LEN ->
  let a := decompress_addr (Z.shiftl u LOG_PAGE_LEN + l) in
  in_space a /\ a mod 8 = 0 /\ a / 2 ^ 21 = u /\ (a / 8) mod 2 ^ 18 = l.
Proof.
  rewrite max_page_count_eq, page_len_eq. intros Hu Hl. unfold decompress_addr.
  rewrite !Z.shiftl_mul_pow2 by (vm_compute; discriminate).
  change (2 ^ NUM_IGNORED_LOWER_BITS) with 8. change (2 ^ LOG_PAGE_LEN) with (2 ^ 18).
  unfold as_u64. rewrite as_unsigned_id by (unfold is_u; dlia). cbn zeta. unfold in_space, MAX_LOG_ADDR. dlia.
Qed.

(** ** The index and its pages *)

Section Paged.
Context {V : Type}.
Implicit Types (m : PagedMemory.PagedMemory V) (g : gmap Z V).
Import PagedMemory.

Definition used (l : list Z) : list Z := List.filter (fun i => negb (i =? NO_PAGE)) l.

(** Every allocated index entry has a page of its own. *)
Record paged_wf m : Prop := mkPagedWf {
  pw_index : Z.of_nat (length (index m)) = MAX_PAGE_COUNT;
  pw_pages : Forall (fun p => Z.of_nat (length p) = PAGE_LEN) (page_table m);
  pw_count : length (page_table m) = length (used (index m));
  pw_range : forall u i, index m !! u = Some i -> i = NO_PAGE \/ 0 <= i < Z.of_nat (length (page_table m));
  pw_inj : forall u u' i, index m !! u = Some i -> index m !! u' = Some i -> i <> NO_PAGE -> u = u'
}.

(** What a slot holds; an unallocated page holds nothing. *)
Definition cell m (u l : nat) : option V :=
  match index m !! u with
  | Some i => if i =? NO_PAGE then None else mjoin (page_table m !! Z.to_nat i ≫= fun p => p !! l)
  | None => None
  end.

Definition cell_at m (addr : Z) : option V := cell m (Z.to_nat (addr / 2 ^ 21)) (Z.to_nat ((addr / 8) mod 2 ^ 18)).

Lemma used_bound (l : list Z) : (length (used l) <= length l)%nat.
Proof. apply List.filter_length_le. Qed.

Lemma used_insert (l : list Z) (u : nat) (i : Z) :
  l !! u = Some NO_PAGE -> i <> NO_PAGE -> length (used (<[u := i]> l)) = S (length (used l)).
Proof.
  intros Hu Hi. pose proof (lookup_lt_Some _ _ _ Hu) as Hl.
  rewrite insert_take_drop by exact Hl. rewrite <- (take_drop_middle l u NO_PAGE Hu) at 3. unfold used.
  rewrite !List.filter_app. cbn [List.filter]. rewrite Z.eqb_refl, (proj2 (Z.eqb_neq _ _) Hi). cbn [negb].
  rewrite !length_app. cbn [length]. lia.
Qed.

(** A page number never reaches the mark of an unallocated page. *)
Lemma pages_bound m : paged_wf m -> Z.of_nat (length (page_table m)) <= MAX_PAGE_COUNT.
Proof. intros [Hi _ Hc _ _]. rewrite Hc, <- Hi. pose proof (used_bound (index m)). lia. Qed.

Lemma pages_spare m (u : nat) : paged_wf m -> index m !! u = Some NO_PAGE ->
  Z.of_nat (length (page_table m)) < MAX_PAGE_COUNT.
Proof.
  intros [Hi _ Hc _ _] Hu. assert (Hne : 0 <> NO_PAGE) by discriminate.
  pose proof (used_insert (index m) u 0 Hu Hne) as Hs. pose proof (used_bound (<[u := 0]> (index m))) as Hb.
  rewrite length_insert in Hb. lia.
Qed.

Lemma page_number m (u : nat) : paged_wf m -> index m !! u = Some NO_PAGE ->
  as_u32 (Z.of_nat (length (page_table m))) = Z.of_nat (length (page_table m)) /\ Z.of_nat (length (page_table m)) <> NO_PAGE.
Proof.
  intros Hw Hu. pose proof (pages_spare m u Hw Hu) as Hs. rewrite max_page_count_eq in Hs. unfold NO_PAGE.
  split; [apply as_unsigned_id; unfold is_u; lia | lia].
Qed.

Lemma index_lookup m (addr : Z) : paged_wf m -> in_space addr ->
  exists i, index m !! Z.to_nat (addr / 2 ^ 21) = Some i.
Proof.
  intros Hw Ha. destruct (indices_bound addr Ha) as [Hu _]. apply lookup_lt_is_Some.
  pose proof (pw_index m Hw). lia.
Qed.

Lemma slot_cell m (u : nat) (i l : Z) :
  paged_wf m -> index m !! u = Some i -> i <> NO_PAGE -> 0 <= l < PAGE_LEN -> slot m i l = Ok (cell m u (Z.to_nat l)).
Proof.
  intros Hw Hu Hi Hl. unfold slot, page, cell. rewrite Hu, (proj2 (Z.eqb_neq _ _) Hi).
  destruct (pw_range m Hw u i Hu) as [|Hr]; [contradiction|].
  destruct (lookup_lt_is_Some_2 (page_table m) (Z.to_nat i) ltac:(lia)) as [p Hp]. rewrite Hp. cbn [of_option bind mbind option_bind].
  pose proof (proj1 (Forall_lookup _ _) (pw_pages m Hw) _ _ Hp) as Hlen. cbv beta in Hlen.
  destruct (lookup_lt_is_Some_2 p (Z.to_nat l) ltac:(lia)) as [v Hv]. rewrite Hv. reflexivity.
Qed.

Lemma get_cell m (addr : Z) : paged_wf m -> in_space addr -> get m addr = Ok (cell_at m addr).
Proof.
  intros Hw Ha. unfold get, cell_at. rewrite indices_eq. destruct (index_lookup m addr Hw Ha) as [i Hi]. rewrite Hi.
  cbn [of_option bind]. destruct (Z.eqb_spec i NO_PAGE) as [-> | Hne].
  - unfold cell. rewrite Hi, Z.eqb_refl. reflexivity.
  - apply slot_cell; try assumption. apply indices_bound, Ha.
Qed.

(** *** Writing a slot *)

Lemma cell_set m (u u' l' : nat) (i l : Z) (v : option V) :
  paged_wf m -> index m !! u = Some i -> i <> NO_PAGE -> 0 <= l < PAGE_LEN ->
  cell (set_slot m i l v) u' l' = if decide (u' = u /\ l' = Z.to_nat l) then v else cell m u' l'.
Proof.
  intros Hw Hu Hi Hl. unfold cell, set_slot. cbn [index page_table].
  destruct (index m !! u') as [i'|] eqn:Hu'; [|rewrite decide_False by (intros [-> _]; congruence); reflexivity].
  destruct (Z.eqb_spec i' NO_PAGE) as [-> | Hne];
    [rewrite decide_False by (intros [-> _]; congruence); reflexivity|].
  destruct (pw_range m Hw u i Hu) as [|Hr]; [contradiction|].
  destruct (pw_range m Hw u' i' Hu') as [|Hr']; [contradiction|].
  destruct (lookup_lt_is_Some_2 (page_table m) (Z.to_nat i) ltac:(lia)) as [p Hp].
  pose proof (proj1 (Forall_lookup _ _) (pw_pages m Hw) _ _ Hp) as Hlen. cbv beta in Hlen.
  destruct (decide (u' = u)) as [-> | Hnu].
  - assert (i' = i) as -> by congruence. rewrite list_lookup_alter_eq, Hp. cbn.
    destruct (decide (l' = Z.to_nat l)) as [-> | Hnl].
    + rewrite decide_True, list_lookup_insert_eq by (tauto || lia). reflexivity.
    + rewrite decide_False, list_lookup_insert_ne by (tauto || congruence). reflexivity.
  - rewrite decide_False by tauto. rewrite list_lookup_alter_ne; [reflexivity|].
    intros E. apply Hnu, (pw_inj m Hw u' u i'); try assumption. assert (i = i') as <- by lia. exact Hu.
Qed.

Lemma set_slot_wf m (i l : Z) (v : option V) : paged_wf m -> paged_wf (set_slot m i l v).
Proof.
  intros [Hi Hp Hc Hr Hj]. unfold set_slot. split; cbn [index page_table]; rewrite ?length_alter; try assumption.
  apply Forall_alter; [exact Hp|]. intros p _ H. rewrite length_insert. exact H.
Qed.

(** *** Allocating a page *)

Lemma alloc_wf m (u : Z) : paged_wf m -> index m !! Z.to_nat u = Some NO_PAGE -> paged_wf (alloc m u).
Proof.
  intros Hw Hu. destruct (page_number m _ Hw Hu) as [En Hn]. pose proof Hw as [Hi Hp Hc Hr Hj].
  pose proof (lookup_lt_Some _ _ _ Hu) as Hul. unfold alloc. rewrite En.
  split; cbn [index page_table]; rewrite ?length_insert, ?length_app; cbn [length].
  - exact Hi.
  - apply Forall_app_2; [exact Hp|]. apply Forall_singleton. unfold new_page. rewrite length_replicate, page_len_eq. lia.
  - rewrite used_insert by assumption. lia.
  - intros u' i E. destruct (decide (u' = Z.to_nat u)) as [-> | Hne].
    + rewrite list_lookup_insert_eq in E by exact Hul. injection E as <-. right. lia.
    + rewrite list_lookup_insert_ne in E by congruence. destruct (Hr u' i E); [tauto | right; lia].
  - intros u1 u2 i E1 E2 Hne. apply list_lookup_insert_Some in E1, E2.
    destruct E1 as [(<- & <- & _) | [N1 E1]], E2 as [(<- & E & _) | [N2 E2]]; try reflexivity.
    + destruct (Hr _ _ E2); [contradiction | lia].
    + subst i. destruct (Hr _ _ E1); [contradiction | lia].
    + exact (Hj _ _ _ E1 E2 Hne).
Qed.

Lemma cell_alloc m (u : Z) (u' l' : nat) :
  paged_wf m -> index m !! Z.to_nat u = Some NO_PAGE -> cell (alloc m u) u' l' = cell m u' l'.
Proof.
  intros Hw Hu. destruct (page_number m _ Hw Hu) as [En Hn]. pose proof (lookup_lt_Some _ _ _ Hu) as Hul.
  unfold cell, alloc. rewrite En. cbn [index page_table]. destruct (decide (u' = Z.to_nat u)) as [-> | Hne].
  - rewrite list_lookup_insert_eq, Hu, Z.eqb_refl, (proj2 (Z.eqb_neq _ _) Hn), Nat2Z.id by exact Hul.
    rewrite list_lookup_middle by reflexivity. cbn. unfold new_page.
    destruct (replicate _ _ !! l') eqn:E; [|reflexivity]. apply lookup_replicate in E as [-> _]. reflexivity.
  - rewrite list_lookup_insert_ne by congruence. destruct (index m !! u') as [i|] eqn:E; [|reflexivity].
    destruct (Z.eqb_spec i NO_PAGE); [reflexivity|]. destruct (pw_range m Hw u' i E) as [|Hr]; [contradiction|].
    rewrite lookup_app_l by lia. reflexivity.
Qed.

(** *** The operations on slots *)

(** [m'] is [m] with the doubleword of [addr] holding [v]. *)
Definition written m (addr : Z) (v : option V) m' : Prop :=
  paged_wf m' /\
  forall a, in_space a -> cell_at m' a = if decide (word_of a = word_of addr) then v else cell_at m a.

Lemma set_slot_written m (addr i : Z) (v : option V) :
  paged_wf m -> in_space addr -> index m !! Z.to_nat (addr / 2 ^ 21) = Some i -> i <> NO_PAGE ->
  written m addr v (set_slot m i ((addr / 8) mod 2 ^ 18) v).
Proof.
  intros Hw Ha Hi Hne. destruct (indices_bound addr Ha) as [Hu Hl]. split; [apply set_slot_wf, Hw|].
  intros a Hsa. destruct (indices_bound a Hsa) as [Hu' Hl']. unfold cell_at.
  rewrite (cell_set m _ _ _ i _ v Hw Hi Hne Hl). destruct (decide (word_of a = word_of addr)) as [E | E].
  - destruct (indices_word _ _ E) as [-> ->]. rewrite decide_True by auto. reflexivity.
  - rewrite decide_False; [reflexivity|]. intros [E1 E2]. apply E, indices_inj; try assumption; lia.
Qed.

Lemma alloc_written m (addr : Z) (v : option V) m' :
  paged_wf m -> in_space addr -> index m !! Z.to_nat (addr / 2 ^ 21) = Some NO_PAGE ->
  written (alloc m (addr / 2 ^ 21)) addr v m' -> written m addr v m'.
Proof.
  intros Hw Ha Hi [Hw' Hc]. split; [exact Hw'|]. intros a Hsa. rewrite (Hc a Hsa). unfold cell_at.
  rewrite cell_alloc by assumption. reflexivity.
Qed.

(** Where the slot of an address is found: at a page that is there, or at one
    that is allocated for it. *)
Lemma alloc_index m (addr : Z) :
  paged_wf m -> in_space addr -> index m !! Z.to_nat (addr / 2 ^ 21) = Some NO_PAGE ->
  index (alloc m (addr / 2 ^ 21)) !! Z.to_nat (addr / 2 ^ 21) = Some (Z.of_nat (length (page_table m))).
Proof.
  intros Hw Ha Hi. unfold alloc. cbn [index]. rewrite list_lookup_insert_eq by (eapply lookup_lt_Some, Hi).
  f_equal. apply (page_number m _ Hw Hi).
Qed.

Lemma cell_at_none m (addr : Z) : index m !! Z.to_nat (addr / 2 ^ 21) = Some NO_PAGE -> cell_at m addr = None.
Proof. intros Hi. unfold cell_at, cell. rewrite Hi, Z.eqb_refl. reflexivity. Qed.

Lemma alloc_slot m (addr : Z) (v : option V) :
  paged_wf m -> in_space addr -> index m !! Z.to_nat (addr / 2 ^ 21) = Some NO_PAGE ->
  let n := Z.of_nat (length (page_table m)) in let m' := alloc m (addr / 2 ^ 21) in
  slot m' n ((addr / 8) mod 2 ^ 18) = Ok None /\ written m addr v (set_slot m' n ((addr / 8) mod 2 ^ 18) v).
Proof.
  intros Hw Ha Hi n m'. destruct (page_number m _ Hw Hi) as [_ Hn]. destruct (indices_bound addr Ha) as [_ Hl].
  pose proof (alloc_index m addr Hw Ha Hi) as Hi'. pose proof (alloc_wf m _ Hw Hi) as Hw'. fold m' n in Hi', Hw'.
  split; [|apply alloc_written, set_slot_written; assumption].
  rewrite (slot_cell m' _ n _ Hw' Hi' Hn Hl). unfold m'. rewrite cell_alloc by assumption. f_equal. apply (cell_at_none m addr Hi).
Qed.

Lemma insert_spec m (addr : Z) (v : V) : paged_wf m -> in_space addr ->
  exists m', insert m addr v = Ok (cell_at m addr, m') /\ written m addr (Some v) m'.
Proof.
  intros Hw Ha. unfold insert. rewrite indices_eq. destruct (index_lookup m addr Hw Ha) as [i Hi]. rewrite Hi.
  cbn [of_option bind]. destruct (Z.eqb_spec i NO_PAGE) as [-> | Hne].
  - destruct (alloc_slot m addr (Some v) Hw Ha Hi) as [Es Hs]. cbn zeta in Es, Hs.
    rewrite (proj1 (page_number m _ Hw Hi)), Es, cell_at_none by exact Hi. cbn [bind]. eauto.
  - rewrite (slot_cell m _ i _ Hw Hi Hne) by (apply indices_bound, Ha). cbn [bind].
    eexists. split; [reflexivity | apply set_slot_written; assumption].
Qed.

Lemma written_none m (addr : Z) : paged_wf m -> cell_at m addr = None -> written m addr None m.
Proof.
  intros Hw Hn. split; [exact Hw|]. intros a Ha. destruct (decide (word_of a = word_of addr)) as [E|]; [|reflexivity].
  rewrite <- Hn. unfold cell_at. destruct (indices_word _ _ E) as [-> ->]. reflexivity.
Qed.

Lemma remove_spec m (addr : Z) : paged_wf m -> in_space addr ->
  exists m', remove m addr = Ok (cell_at m addr, m') /\ written m addr None m'.
Proof.
  intros Hw Ha. unfold remove. rewrite indices_eq. destruct (index_lookup m addr Hw Ha) as [i Hi]. rewrite Hi.
  cbn [of_option bind]. destruct (Z.eqb_spec i NO_PAGE) as [-> | Hne].
  - rewrite cell_at_none by exact Hi. eexists. split; [reflexivity|]. apply written_none; [exact Hw | apply cell_at_none, Hi].
  - rewrite (slot_cell m _ i _ Hw Hi Hne) by (apply indices_bound, Ha). cbn [bind].
    eexists. split; [reflexivity | apply set_slot_written; assumption].
Qed.

(** An entry shows what the slot holds; dropping it changes no slot, and a
    write through it changes this one. *)
Definition entry_ok m (addr : Z) (e : Entry (PagedMemory V) V) : Prop :=
  Entry.value e = cell_at m addr /\
  paged_wf (Entry.dropped e) /\ (forall a, cell_at (Entry.dropped e) a = cell_at m a) /\
  forall v, written m addr (Some v) (Entry.put e v).

Lemma entry_spec m (addr : Z) : paged_wf m -> in_space addr -> exists e, entry m addr = Ok e /\ entry_ok m addr e.
Proof.
  intros Hw Ha. unfold entry. rewrite indices_eq. destruct (index_lookup m addr Hw Ha) as [i Hi]. rewrite Hi.
  cbn [of_option bind]. destruct (Z.eqb_spec i NO_PAGE) as [-> | Hne].
  - destruct (alloc_slot m addr None Hw Ha Hi) as [Es _]. cbn zeta in Es. rewrite Es. cbn [bind].
    eexists. split; [reflexivity|]. split; [symmetry; apply cell_at_none, Hi|]. cbn [Entry.dropped Entry.put].
    split; [apply alloc_wf; assumption|]. split; [intros a; apply cell_alloc; assumption|].
    intros v. apply (alloc_slot m addr (Some v) Hw Ha Hi).
  - rewrite (slot_cell m _ i _ Hw Hi Hne) by (apply indices_bound, Ha). cbn [bind]. fold (cell_at m addr).
    eexists. split; [reflexivity|]. unfold entry_ok. destruct (cell_at m addr) eqn:E; cbn [Entry.value Entry.dropped Entry.put];
      (split; [auto|]; split; [exact Hw|]; split; [reflexivity|]; intros v'; apply set_slot_written; assumption).
Qed.

Lemma get_mut_spec m (addr : Z) : paged_wf m -> in_space addr ->
  exists o, get_mut m addr = Ok o /\ option_map fst o = cell_at m addr /\
    forall v put, o = Some (v, put) -> forall x, written m addr (Some x) (put x).
Proof.
  intros Hw Ha. unfold get_mut. rewrite indices_eq. destruct (index_lookup m addr Hw Ha) as [i Hi]. rewrite Hi.
  cbn [of_option bind]. destruct (Z.eqb_spec i NO_PAGE) as [-> | Hne].
  - eexists. split; [reflexivity|]. rewrite cell_at_none by exact Hi. split; [reflexivity | discriminate].
  - rewrite (slot_cell m _ i _ Hw Hi Hne) by (apply indices_bound, Ha). cbn [bind]. fold (cell_at m addr).
    eexists. split; [reflexivity|]. destruct (cell_at m addr); cbn; (split; [reflexivity|]); [|discriminate].
    intros v' put [= <- <-] x. apply set_slot_written; assumption.
Qed.

(** An address the index does not cover panics. *)
Lemma index_none m (addr : Z) : paged_wf m -> 2 ^ MAX_LOG_ADDR <= addr -> index m !! Z.to_nat (addr / 2 ^ 21) = None.
Proof.
  intros Hw Ha. apply lookup_ge_None. pose proof (pw_index m Hw) as Hi. rewrite max_page_count_eq in Hi.
  unfold MAX_LOG_ADDR in Ha. dlia.
Qed.

(** ** The memory as a finite map *)

(** The map holds the occupied doublewords. *)
Definition represents m g : Prop :=
  paged_wf m /\ (forall a v, g !! a = Some v -> in_space a /\ a mod 8 = 0) /\
  forall a, in_space a -> cell_at m a = g !! word_of a.

Lemma represents_written m g (addr : Z) (v : option V) m' :
  represents m g -> in_space addr -> written m addr v m' -> represents m' (partial_alter (fun _ => v) (word_of addr) g).
Proof.
  intros (_ & Hk & Hg) Ha [Hw Hc]. split; [exact Hw|]. split.
  - intros a x E. destruct (decide (a = word_of addr)) as [-> | Hne].
    + split; [apply in_space_word, Ha | unfold word_of; dlia].
    + rewrite lookup_partial_alter_ne in E by congruence. exact (Hk a x E).
  - intros a Hsa. rewrite (Hc a Hsa). destruct (decide (word_of a = word_of addr)) as [E | E].
    + rewrite E, lookup_partial_alter_eq. reflexivity.
    + rewrite lookup_partial_alter_ne by congruence. apply Hg, Hsa.
Qed.

Lemma represents_same m g m' :
  represents m g -> paged_wf m' -> (forall a, cell_at m' a = cell_at m a) -> represents m' g.
Proof. intros (_ & Hk & Hg) Hw Hc. split; [exact Hw|]. split; [exact Hk|]. intros a Ha. rewrite Hc. apply Hg, Ha. Qed.

Lemma empty_wf (n : nat) : Z.of_nat n = MAX_PAGE_COUNT -> paged_wf (mkPagedMemory [] (replicate n NO_PAGE)).
Proof.
  intros Hn. split; cbn [index page_table].
  - rewrite length_replicate. exact Hn.
  - constructor.
  - clear. induction n as [|n IH]; [reflexivity|]. exact IH.
  - intros u i E. apply lookup_replicate in E as [-> _]. auto.
  - intros u u' i E _ Hne. apply lookup_replicate in E as [-> _]. contradiction.
Qed.

Lemma represents_empty (n : nat) : Z.of_nat n = MAX_PAGE_COUNT -> represents (mkPagedMemory [] (replicate n NO_PAGE)) ∅.
Proof.
  intros Hn. split; [apply empty_wf, Hn|]. split; [intros a v E; rewrite lookup_empty in E; discriminate|].
  intros a _. rewrite lookup_empty. unfold cell_at, cell. cbn [index].
  destruct (_ !! _) as [i|] eqn:E; [|reflexivity]. apply lookup_replicate in E as [-> _]. reflexivity.
Qed.

Lemma new_represents : represents new_preallocated ∅.
Proof. apply represents_empty. rewrite max_page_count_eq. lia. Qed.

Lemma clear_represents m g : represents m g -> represents (clear m) ∅.
Proof. intros [Hw _]. apply represents_empty, Hw. Qed.

(** *** Iteration *)

Lemma imap_pair_lookup {A} (l : list A) (n : nat) (x : A) : (n, x) ∈ imap pair l <-> l !! n = Some x.
Proof.
  rewrite elem_of_lookup_imap. split; [intros (i & y & [= -> ->] & E); exact E | intros E; exists n, x; auto].
Qed.

Lemma imap_pair_NoDup {A} (l : list A) : NoDup (imap pair l).
Proof.
  apply NoDup_alt. intros i j x Ei Ej. apply list_lookup_imap_Some in Ei as (y & _ & ->).
  apply list_lookup_imap_Some in Ej as (z & _ & [= E _]). congruence.
Qed.

Lemma page_entries_elem {B} (f : Z -> V -> B) (u : nat) (p : list (option V)) (b : B) :
  b ∈ page_entries f u p <-> exists (l : nat) v, p !! l = Some (Some v) /\
    b = f (decompress_addr (Z.shiftl (Z.of_nat u) LOG_PAGE_LEN + Z.of_nat l)) v.
Proof.
  unfold page_entries. rewrite list_elem_of_bind. split.
  - intros ([l v] & Hb & Hp). apply imap_pair_lookup in Hp. destruct v as [v|]; [|apply not_elem_of_nil in Hb; tauto].
    apply list_elem_of_singleton in Hb. eauto.
  - intros (l & v & Hp & ->). exists (l, Some v). split; [apply list_elem_of_singleton; reflexivity | apply imap_pair_lookup, Hp].
Qed.

Lemma allocated_elem m (u : nat) (i : Z) : (u, i) ∈ allocated m <-> index m !! u = Some i /\ i <> NO_PAGE.
Proof.
  unfold allocated. rewrite list_elem_of_In, filter_In, <- list_elem_of_In, imap_pair_lookup, negb_true_iff, Z.eqb_neq. tauto.
Qed.

Lemma allocated_page m (u : nat) (i : Z) : paged_wf m -> (u, i) ∈ allocated m ->
  exists p, page_table m !! Z.to_nat i = Some p /\ Z.of_nat (length p) = PAGE_LEN.
Proof.
  intros Hw Hu. apply allocated_elem in Hu as [Hu Hi]. destruct (pw_range m Hw u i Hu) as [|Hr]; [contradiction|].
  destruct (lookup_lt_is_Some_2 (page_table m) (Z.to_nat i) ltac:(lia)) as [p Hp]. exists p. split; [exact Hp|].
  exact (proj1 (Forall_lookup _ _) (pw_pages m Hw) _ _ Hp).
Qed.

(** The occupied slots, page by page. *)
Definition entries {B} (f : Z -> V -> B) m : list B :=
  allocated m ≫= fun '(u, i) => page_entries f u (default [] (page_table m !! Z.to_nat i)).

Lemma entries_elem {B} (f : Z -> V -> B) m g (b : B) :
  represents m g -> b ∈ entries f m <-> exists a v, g !! a = Some v /\ b = f a v.
Proof.
  intros (Hw & Hk & Hg). unfold entries. rewrite list_elem_of_bind. split.
  - intros ([u i] & Hb & Hu). destruct (allocated_page m u i Hw Hu) as (p & Hp & Hl). rewrite Hp in Hb. cbn [from_option id] in Hb.
    apply page_entries_elem in Hb as (l & v & Hv & ->). apply allocated_elem in Hu as [Hu Hi].
    pose proof (lookup_lt_Some _ _ _ Hu). pose proof (lookup_lt_Some _ _ _ Hv). pose proof (pw_index m Hw).
    destruct (decompress_indices (Z.of_nat u) (Z.of_nat l) ltac:(lia) ltac:(lia)) as (Ha & Hm & E1 & E2).
    set (a := decompress_addr _) in *. exists a, v. split; [|reflexivity].
    rewrite <- (word_of_aligned a Hm), <- (Hg a Ha). unfold cell_at, cell.
    rewrite E1, E2, !Nat2Z.id, Hu, (proj2 (Z.eqb_neq _ _) Hi), Hp. cbn. rewrite Hv. reflexivity.
  - intros (a & v & E & ->). destruct (Hk a v E) as [Ha Hm]. pose proof (Hg a Ha) as Hc.
    rewrite word_of_aligned, E in Hc by exact Hm. destruct (indices_bound a Ha) as [Hu Hl]. unfold cell_at, cell in Hc.
    destruct (index m !! Z.to_nat (a / 2 ^ 21)) as [i|] eqn:Ei; [|discriminate].
    destruct (Z.eqb_spec i NO_PAGE) as [|Hne]; [discriminate|].
    destruct (page_table m !! Z.to_nat i) as [p|] eqn:Ep; [|discriminate]. cbn in Hc.
    destruct (p !! _) as [o|] eqn:Eo; [|discriminate]. cbn in Hc. subst o.
    exists (Z.to_nat (a / 2 ^ 21), i). split; [|apply allocated_elem; auto]. rewrite Ep. apply page_entries_elem.
    exists (Z.to_nat ((a / 8) mod 2 ^ 18)), v. split; [exact Eo|]. f_equal. rewrite !Z2Nat.id by lia.
    unfold decompress_addr. rewrite !Z.shiftl_mul_pow2 by (vm_compute; discriminate).
    change (2 ^ NUM_IGNORED_LOWER_BITS) with 8. change (2 ^ LOG_PAGE_LEN) with (2 ^ 18). unfold in_space, MAX_LOG_ADDR in Ha.
    symmetry. unfold as_u64. rewrite as_unsigned_id; [dlia | unfold is_u; dlia].
Qed.

Lemma entries_NoDup {B} (f : Z -> V -> B) m :
  (forall a b v w, f a v = f b w -> a = b) -> paged_wf m -> NoDup (entries f m).
Proof.
  intros Hf Hw. assert (Hslot : forall u i, (u, i) ∈ allocated m -> forall b,
    b ∈ page_entries f u (default [] (page_table m !! Z.to_nat i)) ->
    exists a v, b = f a v /\ a / 2 ^ 21 = Z.of_nat u).
  { intros u i Hu b Hb. destruct (allocated_page m u i Hw Hu) as (p & Hp & Hl). rewrite Hp in Hb. cbn [from_option id] in Hb.
    apply page_entries_elem in Hb as (l & v & Hv & ->). apply allocated_elem in Hu as [Hu _].
    pose proof (lookup_lt_Some _ _ _ Hu). pose proof (lookup_lt_Some _ _ _ Hv). pose proof (pw_index m Hw).
    destruct (decompress_indices (Z.of_nat u) (Z.of_nat l) ltac:(lia) ltac:(lia)) as (_ & _ & E1 & _). eauto. }
  apply NoDup_bind.
  - intros [u i] [u' i'] b Hu Hu' Hb Hb'. destruct (Hslot u i Hu b Hb) as (a & v & -> & E).
    destruct (Hslot u' i' Hu' _ Hb') as (a' & v' & Ef & E'). apply Hf in Ef as <-. assert (u = u') as <- by lia.
    apply allocated_elem in Hu as [Hu _], Hu' as [Hu' _]. congruence.
  - intros [u i] Hu. destruct (allocated_page m u i Hw Hu) as (p & -> & Hl). cbn [from_option id]. apply NoDup_bind.
    + intros [l v] [l' v'] b Hp Hp' Hb Hb'. apply imap_pair_lookup in Hp, Hp'. apply allocated_elem in Hu as [Hu _].
      destruct v as [v|]; [|apply not_elem_of_nil in Hb; tauto]. destruct v' as [v'|]; [|apply not_elem_of_nil in Hb'; tauto].
      apply list_elem_of_singleton in Hb as ->. apply list_elem_of_singleton, Hf in Hb'.
      pose proof (lookup_lt_Some _ _ _ Hu). pose proof (lookup_lt_Some _ _ _ Hp). pose proof (lookup_lt_Some _ _ _ Hp').
      pose proof (pw_index m Hw).
      destruct (decompress_indices (Z.of_nat u) (Z.of_nat l) ltac:(lia) ltac:(lia)) as (_ & _ & _ & E).
      destruct (decompress_indices (Z.of_nat u) (Z.of_nat l') ltac:(lia) ltac:(lia)) as (_ & _ & _ & E').
      rewrite Hb' in E. assert (l = l') as <- by lia. congruence.
    + intros [l [v|]] _; [apply NoDup_singleton | apply NoDup_nil_2].
    + apply imap_pair_NoDup.
  - apply NoDup_ListNoDup, List.NoDup_filter, NoDup_ListNoDup, imap_pair_NoDup.
Qed.

Lemma mapM_ok {A B} (f : A -> Res B) (h : A -> B) (l : list A) :
  (forall x, x ∈ l -> f x = Ok (h x)) -> mapM f l = Ok (map h l).
Proof.
  induction l as [|x l IH]; intros Hf; [reflexivity|]. cbn [mapM map]. rewrite Hf by left. cbn [bind].
  rewrite IH; [reflexivity|]. intros y Hy. apply Hf. right. exact Hy.
Qed.

Lemma keys_entries m : paged_wf m -> keys m = Ok (entries (fun a _ => a) m).
Proof.
  intros Hw. unfold keys.
  rewrite (mapM_ok _ (fun '(u, i) => page_entries (fun a _ => a) u (default [] (page_table m !! Z.to_nat i)))).
  - cbn [bind]. f_equal. unfold entries. induction (allocated m) as [|x l IH]; [reflexivity|]. cbn. rewrite IH. reflexivity.
  - intros [u i] Hu. destruct (allocated_page m u i Hw Hu) as (p & Hp & _). unfold page. rewrite Hp. reflexivity.
Qed.

Lemma bind_ext_elem {A B} (f h : A -> list B) (l : list A) : (forall x, x ∈ l -> f x = h x) -> l ≫= f = l ≫= h.
Proof.
  induction l as [|x l IH]; intros Hf; [reflexivity|]. rewrite !bind_cons, Hf by left.
  f_equal. apply IH. intros y Hy. apply Hf. right. exact Hy.
Qed.

(** Taking a page out leaves the others, which are the ones still to come. *)
Lemma into_iter_from_ok (table : list (list (option V))) (es : list (nat * Z)) :
  NoDup (map snd es) -> (forall u i, (u, i) ∈ es -> 0 <= i < Z.of_nat (length table)) ->
  into_iter_from table es = Ok (es ≫= fun '(u, i) => page_entries pair u (default [] (table !! Z.to_nat i))).
Proof.
  revert table. induction es as [|[u i] es IH]; intros table Hn Hr; [reflexivity|].
  cbn [map snd] in Hn. apply NoDup_cons in Hn as [Hi Hn]. pose proof (Hr u i ltac:(left)) as Hb.
  destruct (lookup_lt_is_Some_2 table (Z.to_nat i) ltac:(lia)) as [p Hp]. cbn [into_iter_from]. rewrite Hp. cbn [of_option bind].
  rewrite IH; [|exact Hn | intros u' i' E; rewrite length_insert; apply (Hr u' i'); right; exact E].
  cbn [bind]. f_equal. rewrite bind_cons, Hp. f_equal. apply bind_ext_elem. intros [u' i'] E. rewrite list_lookup_insert_ne; [reflexivity|].
  intros Ei. apply Hi. assert (i = i') as -> by (pose proof (Hr u' i' ltac:(right; exact E)); lia).
  apply list_elem_of_In, in_map_iff. exists (u', i'). split; [reflexivity | apply list_elem_of_In, E].
Qed.

Lemma allocated_NoDup m : paged_wf m -> NoDup (map snd (allocated m)).
Proof.
  intros Hw. apply (NoDup_fmap_2_strong snd).
  - intros [u i] [u' i'] Hu Hu' E. cbn in E. subst i'. apply allocated_elem in Hu as [Hu Hi], Hu' as [Hu' _].
    rewrite (pw_inj m Hw u u' i Hu Hu' Hi). reflexivity.
  - apply NoDup_ListNoDup, List.NoDup_filter, NoDup_ListNoDup, imap_pair_NoDup.
Qed.

Lemma into_iter_entries m : paged_wf m -> into_iter m = Ok (entries pair m).
Proof.
  intros Hw. apply into_iter_from_ok; [apply allocated_NoDup, Hw|].
  intros u i Hu. apply allocated_elem in Hu as [Hu Hi]. destruct (pw_range m Hw u i Hu); [contradiction | assumption].
Qed.

Lemma entries_pair_perm m g : represents m g -> entries pair m ≡ₚ map_to_list g.
Proof.
  intros Hr. apply NoDup_Permutation.
  - apply entries_NoDup; [congruence | apply Hr].
  - apply NoDup_map_to_list.
  - intros [a v]. rewrite (entries_elem pair m g _ Hr), elem_of_map_to_list.
    split; [intros (a' & v' & E & [= -> ->]); exact E | eauto].
Qed.

Lemma entries_keys_perm m g : represents m g -> entries (fun a _ => a) m ≡ₚ (map_to_list g).*1.
Proof.
  intros Hr. apply NoDup_Permutation.
  - apply entries_NoDup; [auto | apply Hr].
  - apply NoDup_fst_map_to_list.
  - intros a. rewrite (entries_elem _ m g _ Hr), list_elem_of_fmap. split.
    + intros (a' & v & E & ->). exists (a', v). split; [reflexivity | apply elem_of_map_to_list, E].
    + intros ([a' v] & -> & E). apply elem_of_map_to_list in E. eauto.
Qed.

Lemma bind_length {A B} (F : nat -> A -> list B) (w : A -> bool) (h : nat -> nat) (l : list A) :
  (forall n x, length (F n x) = if w x then 1%nat else 0%nat) ->
  length (imap (fun n x => (h n, x)) l ≫= fun '(n, x) => F n x) = length (List.filter w l).
Proof.
  intros HF. revert h. induction l as [|x l IH]; intros h; [reflexivity|]. rewrite imap_cons, bind_cons, length_app, HF.
  cbn [List.filter]. change ((fun n y => (h n, y)) ∘ S) with (fun (n : nat) (y : A) => (h (S n), y)).
  rewrite (IH (fun n => h (S n))). destruct (w x); reflexivity.
Qed.

Lemma used_allocated (h : nat -> nat) (l : list Z) :
  used l = map snd (List.filter (fun '(_, i) => negb (i =? NO_PAGE)) (imap (fun n x => (h n, x)) l)).
Proof.
  unfold used. revert h. induction l as [|i l IH]; intros h; [reflexivity|]. rewrite imap_cons. cbn [List.filter].
  change ((fun n y => (h n, y)) ∘ S) with (fun (n : nat) (y : Z) => (h (S n), y)).
  rewrite (IH (fun n => h (S n))). destruct (negb (i =? NO_PAGE)); reflexivity.
Qed.

Lemma page_entries_length {B} (f : Z -> V -> B) (u : nat) (p : list (option V)) :
  length (page_entries f u p) = length (List.filter (fun x => match x with Some _ => true | None => false end) p).
Proof.
  apply (bind_length (fun n x => match x with Some v => [_] | None => [] end) _ id). intros n []; reflexivity.
Qed.

Lemma exact_len_entries m : paged_wf m -> exact_len m = Ok (Z.of_nat (length (entries pair m))).
Proof.
  intros Hw. unfold exact_len. fold (used (index m)). rewrite (used_allocated id). unfold id.
  change (List.filter _ (imap _ _)) with (allocated m).
  rewrite (mapM_ok _ (fun i => Z.of_nat (length (page_entries pair 0 (default [] (page_table m !! Z.to_nat i)))))).
  - cbn [bind]. f_equal. unfold entries. induction (allocated m) as [|[u i] l IH]; [reflexivity|].
    rewrite bind_cons, length_app. cbn [map snd foldr]. rewrite IH, !page_entries_length. lia.
  - intros i Hi. apply list_elem_of_In, in_map_iff in Hi as ([u i'] & <- & Hi). apply list_elem_of_In in Hi.
    destruct (allocated_page m u i' Hw Hi) as (p & Hp & _). unfold page. cbn [snd]. rewrite Hp. cbn [of_option bind].
    do 2 f_equal. symmetry. apply page_entries_length.
Qed.

Lemma pages_hold m (l : list (nat * Z)) : paged_wf m -> (forall x, x ∈ l -> x ∈ allocated m) ->
  Z.of_nat (length (l ≫= fun '(u, i) => page_entries pair u (default [] (page_table m !! Z.to_nat i)))) <=
  Z.of_nat (length l) * PAGE_LEN.
Proof.
  intros Hw. induction l as [|[u i] l IH]; intros Hin; [cbn; lia|]. rewrite bind_cons, length_app. cbn [length].
  specialize (IH ltac:(intros x Hx; apply Hin; right; exact Hx)).
  destruct (allocated_page m u i Hw (Hin _ ltac:(left))) as (p & -> & Hpl). cbn [from_option id].
  rewrite page_entries_length. rewrite Nat2Z.inj_succ, Z.mul_succ_l.
  pose proof (List.filter_length_le (fun x : option V => match x with Some _ => true | None => false end) p). lia.
Qed.

(** What iteration yields of a memory: its addresses, its contents, and their
    number. *)
Lemma iteration_spec m g : represents m g ->
  (exists ks, keys m = Ok ks /\ ks ≡ₚ (map_to_list g).*1) /\
  (exists es, into_iter m = Ok es /\ es ≡ₚ map_to_list g) /\
  exact_len m = Ok (Z.of_nat (size g)) /\ Z.of_nat (size g) <= estimate_len m.
Proof.
  intros Hr. pose proof (proj1 Hr) as Hw. pose proof (entries_pair_perm m g Hr) as Hp.
  assert (Hl : length (entries pair m) = size g) by (rewrite Hp; apply length_map_to_list).
  split; [eexists; split; [apply keys_entries, Hw | apply entries_keys_perm, Hr]|].
  split; [eexists; split; [apply into_iter_entries, Hw | exact Hp]|].
  split; [rewrite exact_len_entries, Hl by exact Hw; reflexivity|].
  rewrite <- Hl. unfold estimate_len. fold (used (index m)). rewrite (used_allocated id). unfold id.
  change (List.filter _ (imap _ _)) with (allocated m). rewrite length_map. apply (pages_hold m (allocated m) Hw). auto.
Qed.

Lemma insert_all_spec m g (l : list (Z * V)) :
  represents m g -> Forall (fun e => in_space (fst e) /\ fst e mod 8 = 0) l -> NoDup l.*1 ->
  exists m', insert_all m l = Ok m' /\ represents m' (list_to_map l ∪ g).
Proof.
  intros Hr Hl. revert m g Hr. induction Hl as [|[k v] l [Hk Ha] _ IH]; intros m g Hr Hn.
  - exists m. split; [reflexivity|]. cbn. rewrite map_empty_union. exact Hr.
  - cbn in Hk, Ha, Hn. apply NoDup_cons in Hn as [Hi Hn]. cbn [insert_all].
    destruct (insert_spec m k v (proj1 Hr) Hk) as (m1 & -> & Hw). cbn [bind].
    destruct (IH m1 (<[k := v]> g)) as (m' & Em & Hr'); [|exact Hn|].
    + rewrite <- (word_of_aligned k Ha) at 1. exact (represents_written m g k (Some v) m1 Hr Hk Hw).
    + exists m'. split; [exact Em|]. cbn [list_to_map foldr]. rewrite <- insert_union_l, insert_union_r; [exact Hr'|].
      apply not_elem_of_list_to_map_1, Hi.
Qed.

(** Collecting what iteration yields gives a memory with the same contents. *)
Lemma iter_round_trip m g : represents m g ->
  exists es m', into_iter m = Ok es /\ from_iter es = Ok m' /\ represents m' g.
Proof.
  intros Hr. destruct (iteration_spec m g Hr) as (_ & (es & Ei & Hp) & _). exists es.
  destruct (insert_all_spec new_preallocated ∅ es new_represents) as (m' & Em & Hr').
  - rewrite Hp. apply Forall_forall. intros [a v] E. apply elem_of_map_to_list in E. exact (proj1 (proj2 Hr) a v E).
  - rewrite Hp. apply NoDup_fst_map_to_list.
  - exists m'. split; [exact Ei|]. split; [exact Em|]. rewrite map_union_empty in Hr'.
    rewrite <- (list_to_map_to_list g), <- (list_to_map_proper es (map_to_list g)); [exact Hr' | | exact Hp].
    rewrite Hp. apply NoDup_fst_map_to_list.
Qed.
End Paged.

(** ** Refinement

    The paged memory behaves as a finite map from doublewords to values. *)
Inductive MemOp (V : Type) : Type :=
| OpGet (addr : Z)
| OpGetMut (addr : Z) (f : V -> V)
| OpInsert (addr : Z) (value : V)
| OpRemove (addr : Z)
| OpEntry (addr : Z) (default : V) (f : V -> V)
| OpClear.
Arguments OpGet {V} addr.
Arguments OpGetMut {V} addr f.
Arguments OpInsert {V} addr value.
Arguments OpRemove {V} addr.
Arguments OpEntry {V} addr default f.
Arguments OpClear {V}.

Section Refinement.
Context {V : Type}.
Import PagedMemory.

(** One use of the interface: a mutable reference is read and then updated
    by [f]. *)
Definition paged_step (m : PagedMemory V) (op : MemOp V) : Res (option V * PagedMemory V) :=
  match op with
  | OpGet addr => let* v := get m addr in Ok (v, m)
  | OpGetMut addr f =>
      let* r := get_mut m addr in
      Ok (match r with Some (v, put) => (Some v, put (f v)) | None => (None, m) end)
  | OpInsert addr value => insert m addr value
  | OpRemove addr => remove m addr
  | OpEntry addr default f =>
      let* e := entry m addr in
      let (v, put) := Entry.or_insert e default in Ok (Some v, put (f v))
  | OpClear => Ok (None, clear m)
  end.

Definition map_step (g : gmap Z V) (op : MemOp V) : option V * gmap Z V :=
  match op with
  | OpGet addr => (g !! word_of addr, g)
  | OpGetMut addr f => (g !! word_of addr, alter f (word_of addr) g)
  | OpInsert addr value => (g !! word_of addr, <[word_of addr := value]> g)
  | OpRemove addr => (g !! word_of addr, delete (word_of addr) g)
  | OpEntry addr default f =>
      let v := from_option id default (g !! word_of addr) in (Some v, <[word_of addr := f v]> g)
  | OpClear => (None, ∅)
  end.

Definition op_in_space (op : MemOp V) : Prop :=
  match op with
  | OpGet addr | OpGetMut addr _ | OpInsert addr _ | OpRemove addr | OpEntry addr _ _ => in_space addr
  | OpClear => True
  end.

Fixpoint paged_run (m : PagedMemory V) (ops : list (MemOp V)) : Res (list (option V) * PagedMemory V) :=
  match ops with
  | [] => Ok ([], m)
  | op :: ops => let* (o, m) := paged_step m op in let* (os, m) := paged_run m ops in Ok (o :: os, m)
  end.

Fixpoint map_run (g : gmap Z V) (ops : list (MemOp V)) : list (option V) * gmap Z V :=
  match ops with
  | [] => ([], g)
  | op :: ops => let (o, g) := map_step g op in let (os, g) := map_run g ops in (o :: os, g)
  end.

Lemma paged_step_refines (m : PagedMemory V) (g : gmap Z V) (op : MemOp V) :
  represents m g -> op_in_space op ->
  exists m', paged_step m op = Ok (fst (map_step g op), m') /\ represents m' (snd (map_step g op)).
Proof.
  intros Hr Ha. pose proof (proj1 Hr) as Hw. pose proof (proj2 (proj2 Hr)) as Hg.
  destruct op as [addr | addr f | addr v | addr | addr d f |]; cbn [op_in_space] in Ha; cbn [paged_step map_step fst snd].
  - rewrite get_cell, (Hg addr Ha) by assumption. eauto.
  - destruct (get_mut_spec m addr Hw Ha) as (o & -> & Ho & Hput). rewrite (Hg addr Ha) in Ho. cbn [bind]. rewrite <- Ho.
    destruct o as [[v put]|]; cbn [option_map fst] in *; (eexists; split; [reflexivity|]).
    + assert (alter f (word_of addr) g = partial_alter (fun _ => Some (f v)) (word_of addr) g) as ->
        by (apply partial_alter_ext; intros ? <-; rewrite <- Ho; reflexivity).
      apply (represents_written m g addr); [exact Hr | exact Ha | apply (Hput v put eq_refl)].
    + rewrite alter_id; [exact Hr|]. intros x E. congruence.
  - destruct (insert_spec m addr v Hw Ha) as (m' & -> & Hm'). rewrite (Hg addr Ha). eexists. split; [reflexivity|].
    exact (represents_written m g addr _ m' Hr Ha Hm').
  - destruct (remove_spec m addr Hw Ha) as (m' & -> & Hm'). rewrite (Hg addr Ha). eexists. split; [reflexivity|].
    exact (represents_written m g addr _ m' Hr Ha Hm').
  - destruct (entry_spec m addr Hw Ha) as (e & -> & Hv & _ & _ & Hput). cbn [bind]. rewrite (Hg addr Ha) in Hv.
    rewrite <- Hv. destruct e as [dr put | dr v put]; cbn [Entry.or_insert Entry.value from_option id] in *;
      (eexists; split; [reflexivity|]); exact (represents_written m g addr _ _ Hr Ha (Hput _)).
  - eexists. split; [reflexivity | apply (clear_represents m g Hr)].
Qed.

Lemma paged_run_refines (ops : list (MemOp V)) (m : PagedMemory V) (g : gmap Z V) :
  represents m g -> Forall op_in_space ops ->
  exists m', paged_run m ops = Ok (fst (map_run g ops), m') /\ represents m' (snd (map_run g ops)).
Proof.
  intros Hr Ho. revert m g Hr. induction Ho as [|op ops Ha _ IH]; intros m g Hr; [cbn; eauto|].
  cbn [paged_run map_run]. destruct (paged_step_refines m g op Hr Ha) as (m1 & -> & Hr1). cbn [bind].
  destruct (map_step g op) as [o g1]. cbn [fst snd] in *. destruct (IH m1 g1 Hr1) as (m2 & -> & Hr2). cbn [bind].
  destruct (map_run g1 ops) as [os g2]. eauto.
Qed.

(** An access beyond the index panics. *)
Lemma paged_step_panics (m : PagedMemory V) (addr : Z) :
  paged_wf m -> 2 ^ MAX_LOG_ADDR <= addr ->
  get m addr = Panic /\ get_mut m addr = Panic /\ entry m addr = Panic /\ remove m addr = Panic /\
  forall v, insert m addr v = Panic.
Proof.
  intros Hw Ha. unfold get, get_mut, entry, remove, insert. rewrite indices_eq, (index_none m addr Hw Ha). auto.
Qed.
End Refinement.
