(* ===== verification/Memory.v ===== *)
(** * The executor's memory

    [crates/core/executor/src/minimal/arch/portable/cow.rs]: the copy-on-write
    layer over the paged memory ([MaybeCowMemory]), the accounting of entries
    ([Limiter]), the memory the portable executor uses ([LimitedMemory]) and
    the page permissions ([MaybeCowPageProt]); and the finite maps the
    copy-on-write memory stands for. *)

From stdpp Require Import base list gmap.
From Stdlib Require Import ZArith Lia Bool.
From Stdlib Require String.
From S2P Require Import Prelude.
From S2P Require Import Words.
From S2P Require Import Isa.
From S2P Require Import Paging.
Open Scope Z_scope.

(** The errors of the executor ([errors.rs]). *)
Inductive TrapError : Set := PagePermissionViolation (code : Z).

Inductive ExecutionError : Set :=
| InvalidMemoryAccess (opcode : Opcode) (addr : Z)
| InvalidMemoryAccessUntrustedProgram (addr : Z)
| UnsupportedSyscall (code : Z)
| Breakpoint
| ExceededCycleLimit (limit : Z)
| InvalidSyscallUsage (code : Z)
| Unimplemented
| EndInUnconstrained
| UnconstrainedCycleLimitExceeded (limit : Z)
| UnexpectedExitCode (code : Z)
| InstructionNotFound
| InvalidShardingState
| UnhandledTrap (trap : TrapError)
| TooMuchMemory
| KilledByMemoryMonitor (megabytes : Z)
| ChildKilled
| Other (message : String.string).

Module MaybeCowMemory.
Section MaybeCowMemory.
Context {T : Type}.
Abbreviation Paged := (PagedMemory.PagedMemory T).

Inductive MaybeCowMemory : Type :=
| Cow (copy original : Paged)
| Owned (memory : Paged).

Definition new_owned : MaybeCowMemory := Owned PagedMemory.new_preallocated.
Definition new_cow (original : Paged) : MaybeCowMemory := Cow PagedMemory.new_preallocated original.

Definition copy_on_write (m : MaybeCowMemory) : MaybeCowMemory :=
  match m with
  | Cow copy original => Cow copy original
  | Owned memory => new_cow memory
  end.

Definition owned (m : MaybeCowMemory) : MaybeCowMemory :=
  match m with
  | Cow _ original => Owned original
  | Owned memory => Owned memory
  end.

Definition get (m : MaybeCowMemory) (addr : Z) : Res (option T) :=
  assert! (is_multiple_of addr 8) ;;
  match m with
  | Cow copy original =>
      let* v := PagedMemory.get copy addr in
      match v with Some v => Ok (Some v) | None => PagedMemory.get original addr end
  | Owned memory => PagedMemory.get memory addr
  end.

Definition keys (m : MaybeCowMemory) : Res (list Z) :=
  match m with
  | Cow _ _ => Panic
  | Owned memory => PagedMemory.keys memory
  end.

(** The copy is given the value of the original first. *)
Definition duplicate (m : MaybeCowMemory) (addr : Z) : Res (MaybeCowMemory * bool) :=
  match m with
  | Cow copy original =>
      let* e := PagedMemory.entry copy addr in
      match e with
      | Vacant copy put =>
          let* v := PagedMemory.get original addr in
          Ok (match v with
              | Some value => (Cow (put value) original, true)
              | None => (Cow copy original, false)
              end)
      | Occupied copy _ _ => Ok (Cow copy original, false)
      end
  | Owned memory => Ok (Owned memory, false)
  end.

Definition entry (m : MaybeCowMemory) (addr : Z) : Res (Entry MaybeCowMemory T * bool) :=
  assert! (is_multiple_of addr 8) ;;
  let* (m, duplicated) := duplicate m addr in
  match m with
  | Cow copy original =>
      let* e := PagedMemory.entry copy addr in Ok (Entry.map (fun c => Cow c original) e, duplicated)
  | Owned memory =>
      let* e := PagedMemory.entry memory addr in Ok (Entry.map Owned e, duplicated)
  end.

Definition insert (m : MaybeCowMemory) (addr : Z) (value : T) : Res (option T * MaybeCowMemory) :=
  assert! (is_multiple_of addr 8) ;;
  match m with
  | Cow copy original => let* (old, copy) := PagedMemory.insert copy addr value in Ok (old, Cow copy original)
  | Owned memory => let* (old, memory) := PagedMemory.insert memory addr value in Ok (old, Owned memory)
  end.
End MaybeCowMemory.
Arguments MaybeCowMemory : clear implicits.
End MaybeCowMemory.

Module Limiter.
Inductive Limiter : Set :=
| NoLimit
| Limit (current limit : Z).

Definition new (memory_limit : option Z) : Limiter :=
  match memory_limit with
  | Some memory_limit => Limit 0 (memory_limit / 8)
  | None => NoLimit
  end.

Definition increase (l : Limiter) : Limiter * option ExecutionError :=
  match l with
  | Limit current limit =>
      let current := as_u64 (current + 1) in
      (Limit current limit, if limit <? current then Some TooMuchMemory else None)
  | NoLimit => (NoLimit, None)
  end.

Definition check_ptr (l : Limiter) (addr : Z) (write : bool) : option ExecutionError :=
  match l with
  | Limit _ _ =>
      let max_memory := Z.shiftl 1 MAX_LOG_ADDR in
      if max_memory - 8 <? addr then Some (InvalidMemoryAccess (if write then SD else LD) addr) else None
  | NoLimit => None
  end.
End Limiter.

Module LimitedMemory.
Section LimitedMemory.
Context {T : Type} (T_default : T).

Record LimitedMemory : Type := mkLimitedMemory {
  memory : MaybeCowMemory.MaybeCowMemory T;
  limiter : Limiter.Limiter;
  before_cow : option Limiter.Limiter;
  last_error : option ExecutionError;
  dummy_value : T
}.

(** The first error is kept. *)
Definition c (last_error result : option ExecutionError) : option ExecutionError :=
  match last_error with None => result | Some e => Some e end.

Definition new_owned (memory_limit : option Z) : LimitedMemory :=
  mkLimitedMemory MaybeCowMemory.new_owned (Limiter.new memory_limit) None None T_default.

Definition copy_on_write (m : LimitedMemory) : LimitedMemory :=
  mkLimitedMemory (MaybeCowMemory.copy_on_write (memory m)) (limiter m) (Some (limiter m)) (last_error m) (dummy_value m).

Definition owned (m : LimitedMemory) : Res LimitedMemory :=
  let* limiter := of_option (before_cow m) in
  Ok (mkLimitedMemory (MaybeCowMemory.owned (memory m)) limiter None (last_error m) (dummy_value m)).

Definition check_ptr (m : LimitedMemory) (addr : Z) (write : bool) : LimitedMemory :=
  mkLimitedMemory (memory m) (limiter m) (before_cow m) (c (last_error m) (Limiter.check_ptr (limiter m) addr write))
    (dummy_value m).

(** The entry count goes up, over the memory [mem]. *)
Definition increase (m : LimitedMemory) (mem : MaybeCowMemory.MaybeCowMemory T) : LimitedMemory :=
  let (l, e) := Limiter.increase (limiter m) in
  mkLimitedMemory mem l (before_cow m) (c (last_error m) e) (dummy_value m).

Definition with_memory (m : LimitedMemory) (mem : MaybeCowMemory.MaybeCowMemory T) : LimitedMemory :=
  mkLimitedMemory mem (limiter m) (before_cow m) (last_error m) (dummy_value m).

Definition with_dummy (m : LimitedMemory) (v : T) : LimitedMemory :=
  mkLimitedMemory (memory m) (limiter m) (before_cow m) (last_error m) v.

Definition has_last_error (m : LimitedMemory) : bool := match last_error m with Some _ => true | None => false end.

(** A read records an invalid address. *)
Definition get (m : LimitedMemory) (addr : Z) : Res (option T * LimitedMemory) :=
  let m := check_ptr m addr false in
  if has_last_error m then Ok (Some (dummy_value m), m)
  else let* v := MaybeCowMemory.get (memory m) addr in Ok (v, m).

Definition get_raw (m : LimitedMemory) (addr : Z) : Res (option T) := MaybeCowMemory.get (memory m) addr.

Definition keys (m : LimitedMemory) : Res (list Z) := MaybeCowMemory.keys (memory m).

Definition insert (m : LimitedMemory) (addr : Z) (value : T) : Res LimitedMemory :=
  let m := check_ptr m addr true in
  if has_last_error m then Ok m
  else let* (previous_value, mem) := MaybeCowMemory.insert (memory m) addr value in
       Ok (match previous_value with None => increase m mem | Some _ => with_memory m mem end).

(** With an error recorded, the reference is to the dummy value. *)
Definition get_mut (m : LimitedMemory) (addr : Z) : Res (T * (T -> LimitedMemory)) :=
  let m := check_ptr m addr true in
  if has_last_error m then Ok (dummy_value m, with_dummy m)
  else let* (entry, duplicated) := MaybeCowMemory.entry (memory m) addr in
       let charged := duplicated || match entry with Vacant _ _ => true | Occupied _ _ _ => false end in
       let (v, put) := Entry.or_insert entry T_default in
       Ok (v, fun x => if charged then increase m (put x) else with_memory m (put x)).
End LimitedMemory.
Arguments LimitedMemory : clear implicits.
End LimitedMemory.

(** ** Page permissions *)

Module MaybeCowPageProt.
Section MaybeCowPageProt.
Context {P : Type}.

Inductive MaybeCowPageProt : Type :=
| Cow (copy original : gmap Z P)
| Owned (page_prot : gmap Z P).

Definition new_cow (original : gmap Z P) : MaybeCowPageProt := Cow ∅ original.

Definition copy_on_write (m : MaybeCowPageProt) : MaybeCowPageProt :=
  match m with
  | Cow copy original => Cow copy original
  | Owned page_prot => new_cow page_prot
  end.

Definition owned (m : MaybeCowPageProt) : MaybeCowPageProt :=
  match m with
  | Cow _ original => Owned original
  | Owned page_prot => Owned page_prot
  end.

Definition map_entry {M} (wrap : gmap Z P -> M) (g : gmap Z P) (k : Z) : Entry M P :=
  match g !! k with
  | Some v => Occupied (wrap g) v (fun x => wrap (<[k := x]> g))
  | None => Vacant (wrap g) (fun x => wrap (<[k := x]> g))
  end.

Definition entry (m : MaybeCowPageProt) (page_idx : Z) : Entry MaybeCowPageProt P :=
  match m with
  | Cow copy original =>
      let copy := match copy !! page_idx, original !! page_idx with
                  | None, Some value => <[page_idx := value]> copy
                  | _, _ => copy
                  end in
      map_entry (fun c => Cow c original) copy page_idx
  | Owned page_prot => map_entry Owned page_prot page_idx
  end.

Definition get (m : MaybeCowPageProt) (page_idx : Z) : option P :=
  match m with
  | Cow copy original => match copy !! page_idx with Some v => Some v | None => original !! page_idx end
  | Owned page_prot => page_prot !! page_idx
  end.

Definition insert (m : MaybeCowPageProt) (page_idx : Z) (value : P) : option P * MaybeCowPageProt :=
  match m with
  | Cow copy original => (copy !! page_idx, Cow (<[page_idx := value]> copy) original)
  | Owned page_prot => (page_prot !! page_idx, Owned (<[page_idx := value]> page_prot))
  end.
End MaybeCowPageProt.
Arguments MaybeCowPageProt : clear implicits.
End MaybeCowPageProt.

(** ** The copy-on-write memory as finite maps *)

Section CowFacts.
Context {T : Type}.
Implicit Types (m : MaybeCowMemory.MaybeCowMemory T) (top : gmap Z T) (base : option (gmap Z T)).
Import MaybeCowMemory.

(** The map written to, and the map under it while the memory is a copy. *)
Definition cow_rep m top base : Prop :=
  match m, base with
  | Owned memory, None => represents memory top
  | Cow copy original, Some b => represents copy top /\ represents original b
  | _, _ => False
  end.

Definition view top base : gmap Z T := top ∪ default ∅ base.

(** An address the memory can hold. *)
Definition word_address (addr : Z) : Prop := in_space addr /\ addr mod 8 = 0.

Lemma word_multiple (addr : Z) : word_address addr -> is_multiple_of addr 8 = true.
Proof. intros [_ Ha]. apply Z.eqb_eq, Ha. Qed.

Lemma paged_get (mem : PagedMemory.PagedMemory T) (g : gmap Z T) (addr : Z) :
  represents mem g -> word_address addr -> PagedMemory.get mem addr = Ok (g !! addr).
Proof.
  intros (Hw & _ & Hg) [Ha Hm]. rewrite get_cell, (Hg addr Ha), word_of_aligned by assumption. reflexivity.
Qed.

Lemma paged_insert (mem : PagedMemory.PagedMemory T) (g : gmap Z T) (addr : Z) (v : T) :
  represents mem g -> word_address addr ->
  exists mem', PagedMemory.insert mem addr v = Ok (g !! addr, mem') /\ represents mem' (<[addr := v]> g).
Proof.
  intros Hr [Ha Hm]. destruct (insert_spec mem addr v (proj1 Hr) Ha) as (mem' & -> & Hw).
  rewrite (proj2 (proj2 Hr) addr Ha), word_of_aligned by exact Hm. eexists. split; [reflexivity|].
  rewrite <- (word_of_aligned addr Hm) at 1. exact (represents_written mem g addr _ mem' Hr Ha Hw).
Qed.

Lemma paged_entry (mem : PagedMemory.PagedMemory T) (g : gmap Z T) (addr : Z) :
  represents mem g -> word_address addr ->
  exists e, PagedMemory.entry mem addr = Ok e /\ Entry.value e = g !! addr /\ represents (Entry.dropped e) g /\
    forall v, represents (Entry.put e v) (<[addr := v]> g).
Proof.
  intros Hr [Ha Hm]. destruct (entry_spec mem addr (proj1 Hr) Ha) as (e & -> & Hv & Hw & Hc & Hp).
  exists e. split; [reflexivity|]. rewrite Hv, (proj2 (proj2 Hr) addr Ha), word_of_aligned by exact Hm.
  split; [reflexivity|]. split; [exact (represents_same mem g _ Hr Hw Hc)|].
  intros v. rewrite <- (word_of_aligned addr Hm) at 1. exact (represents_written mem g addr _ _ Hr Ha (Hp v)).
Qed.

Lemma cow_get m top base (addr : Z) :
  cow_rep m top base -> word_address addr -> get m addr = Ok (view top base !! addr).
Proof.
  intros Hr Ha. unfold get, view. rewrite word_multiple by exact Ha. cbn [assertb bind].
  destruct m as [copy original | memory], base as [b|]; try contradiction; cbn in Hr.
  - destruct Hr as [Hc Ho]. rewrite (paged_get copy top addr Hc Ha). cbn [bind from_option id].
    rewrite lookup_union. destruct (top !! addr) as [v|] eqn:E.
    + destruct (b !! addr); reflexivity.
    + rewrite (paged_get original b addr Ho Ha). destruct (b !! addr); reflexivity.
  - cbn [from_option]. rewrite map_union_empty. apply paged_get; assumption.
Qed.

Lemma cow_insert m top base (addr : Z) (v : T) :
  cow_rep m top base -> word_address addr ->
  exists m', insert m addr v = Ok (top !! addr, m') /\ cow_rep m' (<[addr := v]> top) base.
Proof.
  intros Hr Ha. unfold insert. rewrite word_multiple by exact Ha. cbn [assertb bind].
  destruct m as [copy original | memory], base as [b|]; try contradiction; cbn in Hr.
  - destruct Hr as [Hc Ho]. destruct (paged_insert copy top addr v Hc Ha) as (copy' & -> & Hc'). cbn [bind].
    eexists. split; [reflexivity | split; assumption].
  - destruct (paged_insert memory top addr v Hr Ha) as (memory' & -> & Hm'). cbn [bind].
    eexists. split; [reflexivity | exact Hm'].
Qed.

Definition vacant {M} (e : Entry M T) : bool := match e with Vacant _ _ => true | Occupied _ _ _ => false end.

Lemma entry_map_value {M M'} (f : M -> M') (e : Entry M T) : Entry.value (Entry.map f e) = Entry.value e.
Proof. destruct e; reflexivity. Qed.

Lemma entry_map_put {M M'} (f : M -> M') (e : Entry M T) (v : T) : Entry.put (Entry.map f e) v = f (Entry.put e v).
Proof. destruct e; reflexivity. Qed.

Lemma vacant_value {M} (e : Entry M T) : vacant e = match Entry.value e with None => true | Some _ => false end.
Proof. destruct e; reflexivity. Qed.

(** The copy after duplication: it holds what the view holds. *)
Lemma duplicate_spec m top base (addr : Z) :
  cow_rep m top base -> word_address addr ->
  exists m' dup top', duplicate m addr = Ok (m', dup) /\ cow_rep m' top' base /\ top' !! addr = view top base !! addr /\
    (forall v, <[addr := v]> top' = <[addr := v]> top) /\
    (dup || match view top base !! addr with None => true | Some _ => false end) =
    match top !! addr with None => true | Some _ => false end.
Proof.
  intros Hr Ha. unfold duplicate, view. destruct m as [copy original | memory], base as [b|]; try contradiction; cbn in Hr.
  - destruct Hr as [Hc Ho]. destruct (paged_entry copy top addr Hc Ha) as (e & -> & Hv & Hd & Hp). cbn [bind].
    rewrite lookup_union. destruct e as [copy' put | copy' v put]; cbn [Entry.value Entry.dropped Entry.put] in *; rewrite <- Hv.
    + rewrite (paged_get original b addr Ho Ha). cbn [bind from_option id]. destruct (b !! addr) as [value|] eqn:Eb.
      * exists (Cow (put value) original), true, (<[addr := value]> top). split; [reflexivity|].
        split; [split; [apply Hp | exact Ho]|]. rewrite lookup_insert_eq.
        split; [reflexivity|]. split; [intros v; apply insert_insert_eq | reflexivity].
      * exists (Cow copy' original), false, top. rewrite <- Hv. split; [reflexivity|].
        split; [split; assumption | repeat split].
    + exists (Cow copy' original), false, top. rewrite <- Hv. cbn [from_option id]. split; [reflexivity|].
      split; [split; assumption|]. destruct (b !! addr); repeat split.
  - exists (Owned memory), false, top. cbn [from_option]. rewrite map_union_empty. split; [reflexivity|].
    split; [exact Hr | auto].
Qed.

Lemma cow_entry m top base (addr : Z) :
  cow_rep m top base -> word_address addr ->
  exists e dup, entry m addr = Ok (e, dup) /\ Entry.value e = view top base !! addr /\
    (dup || vacant e) = match top !! addr with None => true | Some _ => false end /\
    forall v, cow_rep (Entry.put e v) (<[addr := v]> top) base.
Proof.
  intros Hr Ha. unfold entry. rewrite word_multiple by exact Ha. cbn [assertb bind].
  destruct (duplicate_spec m top base addr Hr Ha) as (m' & dup & top' & -> & Hr' & Hv & Hi & Hd). cbn [bind].
  rewrite <- Hv in Hd |- *.
  destruct m' as [copy original | memory], base as [b|]; try contradiction; cbn in Hr'.
  - destruct Hr' as [Hc Ho]. destruct (paged_entry copy top' addr Hc Ha) as (e & -> & Ev & _ & Hp). cbn [bind].
    exists (Entry.map (fun c => Cow c original) e), dup. rewrite vacant_value, entry_map_value, Ev.
    split; [reflexivity|]. split; [reflexivity|]. split; [exact Hd|].
    intros v. rewrite entry_map_put. split; [rewrite <- Hi; apply Hp | exact Ho].
  - destruct (paged_entry memory top' addr Hr' Ha) as (e & -> & Ev & _ & Hp). cbn [bind].
    exists (Entry.map Owned e), dup. rewrite vacant_value, entry_map_value, Ev.
    split; [reflexivity|]. split; [reflexivity|]. split; [exact Hd|].
    intros v. rewrite entry_map_put. cbn [cow_rep]. rewrite <- Hi. apply Hp.
Qed.
End CowFacts.
