(* ===== verification/Executor.v ===== *)
(** * The minimal executor ([executor/src/minimal/arch/portable/mod.rs])

    The state of [MinimalExecutor<SupervisorMode>] and its step: fetch, the
    execution of each class of instruction, the update after an instruction
    and the loop of [try_execute_chunk].  The memory is an implementation of
    [MemoryOps], the operations of [LimitedMemory] the executor uses; the
    handler of the system calls is a parameter.  A Rust panic is [Panic]. *)

From stdpp Require Import base gmap list.
From Stdlib Require Import ZArith Lia.
From S2P Require Import Prelude Words Isa Adapter.
From S2P Require Import SyscallCode.
From S2P Require Import Paging.
From S2P Require Import Memory.
Open Scope Z_scope.

Definition HALT_PC : Z := 1.

Record MemValue : Set := mkMemValue { mv_clk : Z; mv_value : Z }.
Definition MemValue_default : MemValue := mkMemValue 0 0.

(** A read may record an error.  A mutable reference is the value it refers to
    and the store after a write through it. *)
Class MemoryOps (M : Type) : Type := {
  mem_get : M -> Z -> Res (option MemValue * M);
  mem_get_mut : M -> Z -> Res (MemValue * (MemValue -> M));
  has_last_error : M -> bool
}.

(** The memory as a finite map; an address is a multiple of 8. *)
#[export] Instance map_memory : MemoryOps (gmap Z MemValue) := {
  mem_get m addr := assert! (is_multiple_of addr 8) ;; Ok (m !! addr, m);
  mem_get_mut m addr :=
    assert! (is_multiple_of addr 8) ;;
    Ok (default MemValue_default (m !! addr), fun v => <[addr := v]> m);
  has_last_error _ := false
}.

(** What a memory promises the executor: the addresses it holds can be read,
    and written without changing the others. *)
Class MemoryLaws (M : Type) `{MemoryOps M} : Type := {
  mem_holds : M -> Z -> Z -> Prop;
  mem_holds_get : forall m addr v, mem_holds m addr v ->
    exists o, mem_get m addr = Ok (o, m) /\ mv_value (default MemValue_default o) = v;
  mem_holds_get_mut : forall m addr v, mem_holds m addr v ->
    exists mv write, mem_get_mut m addr = Ok (mv, write) /\ mv_value mv = v /\
      forall x, mem_holds (write x) addr (mv_value x) /\
        forall addr' v', addr' <> addr -> mem_holds m addr' v' -> mem_holds (write x) addr' v'
}.

#[export, refine] Instance map_memory_laws : MemoryLaws (gmap Z MemValue) := {
  mem_holds m addr v := is_multiple_of addr 8 = true /\ mv_value (default MemValue_default (m !! addr)) = v;
  mem_holds_get := _;
  mem_holds_get_mut := _
}.
Proof.
  - intros m addr v [Ha Hv]. cbn [mem_get map_memory]. rewrite Ha. eauto.
  - intros m addr v [Ha Hv]. cbn [mem_get_mut map_memory]. rewrite Ha. cbn [assertb bind].
    eexists _, _. split; [reflexivity|]. split; [exact Hv|]. intros x. rewrite lookup_insert_eq.
    split; [auto|]. intros addr' v' Hne [Ha' Hv']. rewrite lookup_insert_ne by congruence. auto.
Defined.

Record Program : Set := mkProgram {
  instructions : list Instruction;
  pc_start_abs : Z;
  pc_base : Z;
  memory_image : list (Z * Z);
  page_prot_image : list (Z * Z);
  untrusted_memory : option (Z * Z)
}.

Definition fetch (p : Program) (pc : Z) : option Instruction :=
  instructions p !! Z.to_nat (as_u64 (pc - pc_base p) / 4).

Record UnconstrainedCtx : Set := mkUnconstrainedCtx { uc_registers : list Z; uc_pc : Z; uc_clk : Z }.

(** A page permission and when it was last used ([risc.rs]). *)
Record PageProtValue : Set := mkPageProtValue { pp_timestamp : Z; pp_value : Z }.

(** The fields of the executor only system calls use: the input and output
    streams, the exit code, the digest of the public values, the recorded
    hints and the page permissions. *)
Record HostState : Type := mkHostState {
  input : list (list Z);
  public_values_stream : list Z;
  exit_code : Z;
  public_value_digest : list Z;
  hints : list (Z * list Z);
  page_prots : MaybeCowPageProt.MaybeCowPageProt PageProtValue
}.

Section Executor.
Context {M : Type} `{MemoryOps M}.
Context (program : Program).

Record Executor : Type := mkExecutor {
  registers : list Z;
  memory : M;
  traces : option (list MemValue);
  pc : Z;
  clk : Z;
  global_clk : Z;
  next_pc : Z;
  next_clk : Z;
  max_trace_size : option Z;
  maybe_unconstrained : option UnconstrainedCtx;
  host : HostState
}.

Definition with_registers (e : Executor) (r : list Z) : Executor :=
  mkExecutor r (memory e) (traces e) (pc e) (clk e) (global_clk e) (next_pc e) (next_clk e)
    (max_trace_size e) (maybe_unconstrained e) (host e).
Definition with_memory (e : Executor) (m : M) : Executor :=
  mkExecutor (registers e) m (traces e) (pc e) (clk e) (global_clk e) (next_pc e) (next_clk e)
    (max_trace_size e) (maybe_unconstrained e) (host e).
Definition with_traces (e : Executor) (t : option (list MemValue)) : Executor :=
  mkExecutor (registers e) (memory e) t (pc e) (clk e) (global_clk e) (next_pc e) (next_clk e)
    (max_trace_size e) (maybe_unconstrained e) (host e).
Definition with_next_pc (e : Executor) (x : Z) : Executor :=
  mkExecutor (registers e) (memory e) (traces e) (pc e) (clk e) (global_clk e) x (next_clk e)
    (max_trace_size e) (maybe_unconstrained e) (host e).
Definition with_clk (e : Executor) (x : Z) : Executor :=
  mkExecutor (registers e) (memory e) (traces e) (pc e) x (global_clk e) (next_pc e) (next_clk e)
    (max_trace_size e) (maybe_unconstrained e) (host e).
Definition with_host (e : Executor) (h : HostState) : Executor :=
  mkExecutor (registers e) (memory e) (traces e) (pc e) (clk e) (global_clk e) (next_pc e) (next_clk e)
    (max_trace_size e) (maybe_unconstrained e) h.
Definition with_next_clk (e : Executor) (x : Z) : Executor :=
  mkExecutor (registers e) (memory e) (traces e) (pc e) (clk e) (global_clk e) (next_pc e) x
    (max_trace_size e) (maybe_unconstrained e) (host e).

(** [self.registers[r as usize]], which panics out of range. *)
Definition reg (e : Executor) (r : Z) : Res Z := of_option (registers e !! Z.to_nat r).
Definition set_reg (e : Executor) (r v : Z) : Res Executor :=
  assert! (Z.to_nat r <? length (registers e))%nat ;; Ok (with_registers e (<[Z.to_nat r := v]> (registers e))).

Definition is_done (e : Executor) : bool := pc e =? HALT_PC.

(** The trace records an access unless execution is unconstrained. *)
Definition trace_mem (e : Executor) (v : MemValue) : Executor :=
  match traces e, maybe_unconstrained e with
  | Some t, None => with_traces e (Some (t ++ [v]))
  | _, _ => e
  end.

Definition execute_load (e : Executor) (i : Instruction) : Res Executor :=
  let* (rd, rs1, imm_offset) := i_type i in
  let* base := reg e rs1 in
  let addr := wrapping_add base imm_offset in
  let* (mem_value, write) := mem_get_mut (memory e) (aligned addr) in
  let e := trace_mem e mem_value in
  let e := with_memory e (write (mkMemValue (as_u64 (clk e + 1)) (mv_value mem_value))) in
  let* v := load_value (opcode i) addr (mv_value mem_value) in
  set_reg e rd v.

Definition mem_read_untracked (e : Executor) (addr : Z) : Res (Z * Executor) :=
  let* (v, m) := mem_get (memory e) addr in
  Ok (mv_value (default MemValue_default v), with_memory e m).

Definition execute_store (e : Executor) (i : Instruction) : Res Executor :=
  let* (rs1, rs2, imm_offset) := s_type i in
  let* src := reg e rs1 in
  let* base := reg e rs2 in
  let addr := wrapping_add base imm_offset in
  let* (last_value, e) := mem_read_untracked e (aligned addr) in
  let* value := store_value (opcode i) src addr last_value in
  let* (mem_value, write) := mem_get_mut (memory e) (aligned addr) in
  let e := trace_mem e mem_value in
  Ok (with_memory e (write (mkMemValue (as_u64 (clk e + 1)) value))).

Definition execute_alu (e : Executor) (i : Instruction) : Res Executor :=
  let* b := if imm_b i then Ok (op_b i) else reg e (op_b i) in
  let* c := if imm_c i then Ok (op_c i) else reg e (op_c i) in
  let* a := alu_value (opcode i) b c in
  set_reg e (op_a i) a.

Definition execute_jump (e : Executor) (i : Instruction) : Res Executor :=
  match opcode i with
  | JAL =>
      let* (rd, imm_offset) := j_type i in
      let imm_offset_se := sign_extend_imm imm_offset 21 in
      let pc := pc e in
      let e := with_next_pc e (as_u64 (as_i64 (as_i64 pc + imm_offset_se))) in
      set_reg e rd (wrapping_add pc 4)
  | JALR =>
      let* (rd, rs1, imm_offset) := i_type i in
      let* base := reg e rs1 in
      let imm_offset_se := sign_extend_imm imm_offset 12 in
      let* e := set_reg e rd (wrapping_add (pc e) PC_INC) in
      Ok (with_next_pc e (Z.land (as_u64 (as_i64 (as_i64 base + imm_offset_se))) (not_u64 1)))
  | _ => Panic
  end.

Definition execute_branch (e : Executor) (i : Instruction) : Res Executor :=
  let* (rs1, rs2, imm_offset) := b_type i in
  let* a := reg e rs1 in
  let* b := reg e rs2 in
  let* branch := branch_taken (opcode i) a b in
  Ok (if branch : bool then with_next_pc e (wrapping_add (pc e) imm_offset) else e).

Definition execute_utype (e : Executor) (i : Instruction) : Res Executor :=
  let* (rd, imm) := u_type i in
  let* v := match opcode i with
            | AUIPC => Ok (wrapping_add (pc e) imm)
            | LUI => Ok imm
            | _ => Panic
            end in
  set_reg e rd v.

Definition handle_ecall_special_cases (e : Executor) (code : SyscallCode) : Executor :=
  match code with
  | EXIT_UNCONSTRAINED =>
      with_next_clk (with_next_pc e (wrapping_add (pc e) PC_INC)) (wrapping_add (clk e) (CLK_INC + 256))
  | HALT => with_next_pc e HALT_PC
  | _ => e
  end.

(** [ecall_handler] returns the value of [x5], or an interrupt. *)
Context (ecall_handler : Executor -> SyscallCode -> Res (Executor * option Z)).

Definition execute_ecall (e : Executor) (i : Instruction) : Res Executor :=
  assert! is_ecall_instruction i ;;
  let* t0 := reg e X5 in
  let* code := from_u32 (as_u32 t0) in
  let e := if negb (bool_decide (code = EXIT_UNCONSTRAINED)) then with_next_clk e (wrapping_add (next_clk e) 256) else e in
  let* (e, r) := ecall_handler e code in
  let* v := of_option r in
  let* e := set_reg e X5 v in
  Ok (handle_ecall_special_cases e code).

Definition post_instruction_update (e : Executor) : Res Executor :=
  let* e := set_reg e 0 0 in
  Ok (mkExecutor (registers e) (memory e) (traces e) (next_pc e) (next_clk e)
        (match maybe_unconstrained e with None => wrapping_add (global_clk e) 1 | Some _ => global_clk e end)
        (next_pc e) (next_clk e) (max_trace_size e) (maybe_unconstrained e) (host e)).

(** [max_trace_size] is expected to be set when there is a trace. *)
Definition check_trace_buffer_exceeded (e : Executor) : Res bool :=
  match traces e with
  | None => Ok false
  | Some t => let* m := of_option (max_trace_size e) in Ok (m <=? Z.of_nat (length t))
  end.

Definition dispatch (e : Executor) (i : Instruction) : Res Executor :=
  if is_alu_instruction i then execute_alu e i
  else if is_memory_load_instruction i then execute_load e i
  else if is_memory_store_instruction i then execute_store e i
  else if is_branch_instruction i then execute_branch e i
  else if is_jump_instruction i then execute_jump e i
  else if is_utype_instruction i then execute_utype e i
  else if is_ecall_instruction i then execute_ecall e i
  else Panic.

(** The new state, and whether the loop stops. *)
Definition execute_instruction (e : Executor) : Res (Executor * bool) :=
  let* instruction := of_option (fetch program (pc e)) in
  let e := with_next_clk (with_next_pc e (wrapping_add (pc e) PC_INC)) (wrapping_add (clk e) CLK_INC) in
  let* e := dispatch e instruction in
  let* e := post_instruction_update e in
  let* exceeded := check_trace_buffer_exceeded e in
  Ok (e, is_done e || exceeded).

(** The loop of [try_execute_chunk]: [None] when the fuel runs out, an inner
    [None] when the memory has an error. *)
Fixpoint chunk_loop (fuel : nat) (e : Executor) : option (Res (option Executor)) :=
  match fuel with
  | O => None
  | S fuel =>
      match execute_instruction e with
      | Panic => Some Panic
      | Ok (e, true) => Some (Ok (Some e))
      | Ok (e, false) => if has_last_error (memory e) then Some (Ok None) else chunk_loop fuel e
      end
  end.
End Executor.
Arguments Executor : clear implicits.
