(* ===== verification/ExecutorFacts.v ===== *)
(** * Facts of the minimal executor

    The memory instructions on the bytes of a doubleword, the invariant of the
    executor's state, and the loop of [try_execute_chunk] as repeated steps. *)

From stdpp Require Import base gmap list.
From Stdlib Require Import ZArith Lia.
From S2P Require Import SyscallCode.
From S2P Require Import Prelude Words Isa Mul Adapter Row Executor.
Open Scope Z_scope.

(** ** Loads and stores on bytes *)

(** The number of bytes an instruction accesses; it is 0 for the others. *)
Definition access_width (o : Opcode) : nat :=
  match o with
  | LB | LBU | SB => 1
  | LH | LHU | SH => 2
  | LW | LWU | SW => 4
  | LD | SD => 8
  | _ => 0
  end.

(** The value a load makes of its bytes. *)
Definition extend (o : Opcode) (x : Z) : Z :=
  match o with LB => as_u64 (as_i8 x) | LH => as_u64 (as_i16 x) | LW => as_u64 (as_i32 x) | _ => x end.

Definition offset (addr : Z) : nat := Z.to_nat (addr mod 8).

Lemma le_bytes_mod (n : nat) (x y : Z) :
  x mod 2 ^ (8 * Z.of_nat n) = y mod 2 ^ (8 * Z.of_nat n) -> le_bytes n x = le_bytes n y.
Proof.
  revert x y. induction n as [|n IH]; intros x y E; [reflexivity|]. cbn [le_bytes]. f_equal.
  - rewrite <- (mod_mod_le x 8 (8 * Z.of_nat (S n))), <- (mod_mod_le y 8 (8 * Z.of_nat (S n))) by lia. congruence.
  - apply IH. replace (8 * Z.of_nat (S n)) with (8 + 8 * Z.of_nat n) in E by lia. rewrite Z.pow_add_r in E by lia.
    rewrite !Z.rem_mul_r in E by lia. dlia.
Qed.

Lemma to_le_bytes_split (s w : nat) (x : Z) : (s + w <= 8)%nat ->
  to_le_bytes x = le_bytes s x ++ le_bytes w (x / 2 ^ (8 * Z.of_nat s)) ++
                  le_bytes (8 - s - w) (x / 2 ^ (8 * Z.of_nat s) / 2 ^ (8 * Z.of_nat w)).
Proof.
  intros H. unfold to_le_bytes. rewrite <- !le_bytes_app. f_equal. lia.
Qed.

Lemma bytes_insert (s w : nat) (m t : Z) : (s + w <= 8)%nat ->
  to_le_bytes (insert_bits m (8 * Z.of_nat s) (8 * Z.of_nat w) (t mod 2 ^ (8 * Z.of_nat w)))
  = take s (to_le_bytes m) ++ le_bytes w t ++ drop (s + w) (to_le_bytes m).
Proof.
  intros H. rewrite (to_le_bytes_split s w m H), (to_le_bytes_split s w (insert_bits _ _ _ _) H).
  rewrite <- drop_drop, take_app_length', drop_app_length', drop_app_length' by (rewrite le_bytes_length; reflexivity).
  unfold insert_bits. set (k := 8 * Z.of_nat s). set (n := 8 * Z.of_nat w).
  pose proof (pow2_pos k ltac:(lia)). pose proof (pow2_pos n ltac:(lia)).
  pose proof (Z.mod_pos_bound m (2 ^ k) ltac:(lia)). pose proof (Z.mod_pos_bound t (2 ^ n) ltac:(lia)).
  rewrite Z.div_add, (Z.div_small (m mod 2 ^ k)), Z.add_0_l by lia.
  rewrite (Z.div_add (t mod _)), (Z.div_small (t mod 2 ^ n)), Z.add_0_l by lia.
  f_equal; [|f_equal].
  - apply le_bytes_mod. fold k. rewrite Z_mod_plus_full. apply Z.mod_mod. lia.
  - apply le_bytes_mod. fold n. rewrite Z_mod_plus_full. apply Z.mod_mod. lia.
Qed.

Lemma insert_bits_u64 (m k n t : Z) :
  is_u64 m -> 0 <= k -> 0 <= n -> n + k <= 64 -> is_u64 (insert_bits m k n (t mod 2 ^ n)).
Proof.
  intros Hm Hk Hn Hs. unfold is_u, insert_bits in *.
  pose proof (pow2_pos k ltac:(lia)). pose proof (pow2_pos n ltac:(lia)). pose proof (pow2_pos (64 - (n + k)) ltac:(lia)).
  assert (E64 : 2 ^ 64 = 2 ^ (64 - (n + k)) * 2 ^ n * 2 ^ k) by (rewrite <- !Z.pow_add_r by lia; f_equal; lia).
  pose proof (Z.mod_pos_bound m (2 ^ k) ltac:(lia)). pose proof (Z.mod_pos_bound t (2 ^ n) ltac:(lia)).
  assert (0 <= m / 2 ^ k / 2 ^ n < 2 ^ (64 - (n + k))).
  { rewrite Z.div_div by lia. split; [apply Z.div_pos; nia|]. apply Z.div_lt_upper_bound; [nia|]. lia. }
  set (hi := m / 2 ^ k / 2 ^ n) in *. assert (t mod 2 ^ n + hi * 2 ^ n <= 2 ^ (64 - (n + k)) * 2 ^ n - 1) by nia.
  split; [nia|]. rewrite E64. nia.
Qed.

(** The position of a half, a word or a doubleword in its doubleword. *)
Lemma offset_2 (addr : Z) : is_multiple_of addr 2 = true -> (addr / 2) mod 4 * 16 = 8 * (addr mod 8) /\ addr mod 8 <= 6.
Proof. unfold is_multiple_of. rewrite Z.eqb_eq. intros. dlia. Qed.
Lemma offset_4 (addr : Z) : is_multiple_of addr 4 = true -> (addr / 4) mod 2 * 32 = 8 * (addr mod 8) /\ addr mod 8 <= 4.
Proof. unfold is_multiple_of. rewrite Z.eqb_eq. intros. dlia. Qed.
Lemma offset_Z (addr : Z) : Z.of_nat (offset addr) = addr mod 8.
Proof. unfold offset. pose proof (Z.mod_pos_bound addr 8 ltac:(lia)). lia. Qed.

Lemma store_value_bytes (o : Opcode) (src addr m v : Z) :
  is_u64 src -> is_u64 m -> store_value o src addr m = Ok v ->
  (offset addr + access_width o <= 8)%nat /\ is_u64 v /\
  to_le_bytes v = take (offset addr) (to_le_bytes m) ++ le_bytes (access_width o) src ++
                  drop (offset addr + access_width o) (to_le_bytes m).
Proof.
  intros Hs Hm E. pose proof (Z.mod_pos_bound addr 8 ltac:(lia)) as B. pose proof (offset_Z addr) as Eo.
  assert (G : forall w k, k = 8 * (addr mod 8) -> (offset addr + w <= 8)%nat ->
    Z.lor (shl 64 (Z.land src (2 ^ (8 * Z.of_nat w) - 1)) k) (Z.land m (not_u64 (shl 64 (2 ^ (8 * Z.of_nat w) - 1) k))) = v ->
    (offset addr + w <= 8)%nat /\ is_u64 v /\
    to_le_bytes v = take (offset addr) (to_le_bytes m) ++ le_bytes w src ++ drop (offset addr + w) (to_le_bytes m)).
  { intros w k -> Hw Ev. rewrite insert_bits_eq in Ev by (auto; lia). rewrite <- Eo in Ev. subst v.
    split; [exact Hw|]. split; [apply insert_bits_u64; auto; lia | apply bytes_insert, Hw]. }
  destruct o; cbn [store_value access_width] in *; try discriminate E.
  - apply (G 1%nat (addr mod 8 * 8)); [lia | lia | exact (Ok_inj _ _ E)].
  - apply bind_ok in E as ([] & Ha & E). apply assertb_ok, offset_2 in Ha as [Ea Hl].
    apply (G 2%nat ((addr / 2) mod 4 * 16)); [exact Ea | lia | exact (Ok_inj _ _ E)].
  - apply bind_ok in E as ([] & Ha & E). apply assertb_ok, offset_4 in Ha as [Ea Hl].
    apply (G 4%nat ((addr / 4) mod 2 * 32)); [exact Ea | lia | exact (Ok_inj _ _ E)].
  - apply bind_ok in E as ([] & Ha & E). apply assertb_ok, Z.eqb_eq in Ha. assert (offset addr = 0%nat) as -> by lia.
    assert (v = src) as -> by congruence. split; [lia|]. split; [exact Hs|]. cbn [Nat.add take app].
    rewrite drop_ge by (unfold to_le_bytes; rewrite le_bytes_length; lia). symmetry. apply app_nil_r.
Qed.

(** The bits of a doubleword from an offset. *)
Lemma bytes_slice (s w : nat) (m : Z) : (s + w <= 8)%nat ->
  le_value 8 (take w (drop s (to_le_bytes m))) = (m / 2 ^ (8 * Z.of_nat s)) mod 2 ^ (8 * Z.of_nat w).
Proof.
  intros H. rewrite (to_le_bytes_split s w m H), drop_app_length', take_app_length' by (rewrite le_bytes_length; reflexivity).
  apply le_value_bytes.
Qed.

Lemma load_value_bytes (o : Opcode) (addr m v : Z) :
  is_u64 m -> load_value o addr m = Ok v ->
  (offset addr + access_width o <= 8)%nat /\
  v = extend o (le_value 8 (take (access_width o) (drop (offset addr) (to_le_bytes m)))).
Proof.
  intros Hm E. pose proof (Z.mod_pos_bound addr 8 ltac:(lia)) as B. pose proof (offset_Z addr) as Eo.
  assert (G : forall (w : nat) k, k = 8 * (addr mod 8) -> (offset addr + w <= 8)%nat ->
    Z.land (shr m k) (2 ^ (8 * Z.of_nat w) - 1) = le_value 8 (take w (drop (offset addr) (to_le_bytes m)))).
  { intros w k -> Hw. rewrite bytes_slice by exact Hw. rewrite land_mask, shr_div, Eo by lia. reflexivity. }
  assert (Gb : forall x n, 0 <= n -> as_unsigned n (Z.land x (2 ^ n - 1)) = Z.land x (2 ^ n - 1)).
  { intros x n Hn. unfold as_unsigned. rewrite land_mask by lia. apply Z.mod_mod, Z.pow_nonzero; lia. }
  destruct o; cbn [load_value access_width extend] in *; try discriminate E;
    try (apply bind_ok in E as ([] & Ha & E); apply assertb_ok in Ha).
  - split; [lia|]. rewrite <- (G 1%nat (addr mod 8 * 8)) by lia. symmetry; exact (Ok_inj _ _ E).
  - apply offset_2 in Ha as [Ea Hl]. split; [lia|]. rewrite <- (G 2%nat _ Ea) by lia. symmetry; exact (Ok_inj _ _ E).
  - apply offset_4 in Ha as [Ea Hl]. split; [lia|]. rewrite <- (G 4%nat _ Ea) by lia. symmetry; exact (Ok_inj _ _ E).
  - split; [lia|]. rewrite <- (G 1%nat (addr mod 8 * 8)) by lia. change (as_u8) with (as_unsigned 8) in E.
    rewrite (Gb _ 8) in E by lia. symmetry; exact (Ok_inj _ _ E).
  - apply offset_2 in Ha as [Ea Hl]. split; [lia|]. rewrite <- (G 2%nat _ Ea) by lia.
    change (as_u16) with (as_unsigned 16) in E. rewrite (Gb _ 16) in E by lia. symmetry; exact (Ok_inj _ _ E).
  - apply offset_4 in Ha as [Ea Hl]. split; [lia|]. rewrite <- (G 4%nat _ Ea) by lia. symmetry; exact (Ok_inj _ _ E).
  - apply Z.eqb_eq in Ha. assert (offset addr = 0%nat) as E0 by lia. split; [lia|].
    rewrite bytes_slice by lia. rewrite E0. change (8 * Z.of_nat 0) with 0. change (8 * Z.of_nat 8) with 64.
    rewrite Z.pow_0_r, Z.div_1_r, Z.mod_small by exact Hm. symmetry; exact (Ok_inj _ _ E).
Qed.

(** A load panics on its address only. *)
Lemma load_value_total (o : Opcode) (addr m m' v : Z) : load_value o addr m = Ok v -> exists v', load_value o addr m' = Ok v'.
Proof.
  destruct o; cbn [load_value]; try discriminate; unfold assertb;
    repeat match goal with |- context [is_multiple_of ?a ?b] => destruct (is_multiple_of a b) end; cbn [bind];
    try discriminate; intros _; eexists; reflexivity.
Qed.

(** Loads whose bytes agree give the same value. *)
Lemma load_value_agree (o : Opcode) (addr m m' : Z) :
  is_u64 m -> is_u64 m' ->
  take (access_width o) (drop (offset addr) (to_le_bytes m)) = take (access_width o) (drop (offset addr) (to_le_bytes m')) ->
  load_value o addr m = load_value o addr m'.
Proof.
  intros Hm Hm' Eb. destruct (load_value o addr m) as [v|] eqn:E.
  - destruct (load_value_total o addr m m' v E) as [v' E']. rewrite E'.
    apply load_value_bytes in E as [_ ->], E' as [_ ->]; [|assumption..]. rewrite Eb. reflexivity.
  - destruct (load_value o addr m') as [v'|] eqn:E'; [|reflexivity].
    destruct (load_value_total o addr m' m v' E') as [v E'']. congruence.
Qed.

Lemma drop_slice {A} (s w k n : nat) (l mid : list A) :
  length mid = w -> (k + n <= s \/ s + w <= k)%nat -> (s + w <= length l)%nat ->
  take n (drop k (take s l ++ mid ++ drop (s + w) l)) = take n (drop k l).
Proof.
  intros Hm Hd Hl. apply list_eq. intros i. destruct (decide (i < n)%nat) as [Hi | Hi]; [|rewrite !lookup_take_ge by lia; reflexivity].
  rewrite !lookup_take_lt, !lookup_drop by lia. destruct Hd as [Hd | Hd].
  - rewrite lookup_app_l by (rewrite length_take; lia). apply lookup_take_lt. lia.
  - rewrite lookup_app_r by (rewrite length_take; lia). rewrite length_take, lookup_app_r by lia.
    rewrite lookup_drop. f_equal. lia.
Qed.

Lemma take_slice {A} (s : nat) (l mid rest : list A) :
  (s <= length l)%nat -> take (length mid) (drop s (take s l ++ mid ++ rest)) = mid.
Proof.
  intros Hl. rewrite drop_app_length' by (rewrite length_take; lia). apply take_app_length.
Qed.

(** A load after a store of the same address and width gives the stored bits,
    and one of other bytes what it gave before. *)
Lemma store_load (os ol : Opcode) (src addr addr' m v : Z) :
  is_u64 src -> is_u64 m -> store_value os src addr m = Ok v ->
  (addr' = addr /\ access_width ol = access_width os ->
   forall r, load_value ol addr' v = Ok r -> r = extend ol (src mod 2 ^ (8 * Z.of_nat (access_width os)))) /\
  ((offset addr' + access_width ol <= offset addr \/ offset addr + access_width os <= offset addr')%nat ->
   load_value ol addr' v = load_value ol addr' m).
Proof.
  intros Hs Hm E. destruct (store_value_bytes os src addr m v Hs Hm E) as (Ho & Hv & Eb). split.
  - intros [-> Ew] r Er. apply load_value_bytes in Er as [_ ->]; [|exact Hv]. rewrite Eb, Ew.
    rewrite <- (le_bytes_length (access_width os) src) at 1.
    rewrite take_slice by (unfold to_le_bytes; rewrite le_bytes_length; lia). rewrite le_value_bytes. reflexivity.
  - intros Hd. apply load_value_agree; [assumption..|]. rewrite Eb.
    apply drop_slice; [apply le_bytes_length | exact Hd | unfold to_le_bytes; rewrite le_bytes_length; lia].
Qed.

(** ** The invariant of the executor's state *)

(** The results of the ALU are 64-bit values. *)
Lemma shr_u64 (x n : Z) : is_u64 x -> 0 <= n -> is_u64 (shr x n).
Proof.
  unfold is_u. intros Hx Hn. rewrite shr_div by lia. pose proof (pow2_pos n Hn). split; [apply Z.div_pos; lia|].
  apply Z.div_lt_upper_bound; nia.
Qed.

Lemma if_u64 (b : bool) (x y : Z) : is_u64 x -> is_u64 y -> is_u64 (if b then x else y).
Proof. destruct b; auto. Qed.

Lemma u64_max_u64 : is_u64 U64_MAX.
Proof. split; [discriminate | reflexivity]. Qed.

Lemma as_u64_u64 (x : Z) : is_u64 (as_u64 x).
Proof. apply as_unsigned_bound. lia. Qed.

Lemma alu_value_u64 (o : Opcode) (b c r : Z) : is_u64 b -> is_u64 c -> alu_value o b c = Ok r -> is_u64 r.
Proof.
  intros Hb Hc E.
  assert (Hd : is_u64 (b / c) /\ is_u64 (b mod c) \/ c = 0).
  { destruct (Z.eq_dec c 0); [auto|left]. unfold is_u in *. pose proof (Z.mod_pos_bound b c ltac:(lia)).
    split; [split; [apply Z.div_pos; lia | apply Z.div_lt_upper_bound; nia] | lia]. }
  destruct o; cbn [alu_value] in E; try discriminate E; apply Ok_inj in E; subst r;
    try (destruct (Z.eqb_spec c 0); [first [exact Hb | apply u64_max_u64] | try tauto]);
    repeat apply if_u64; first [exact Hb | apply u64_max_u64 | apply as_u64_u64 | apply lxor_bound; auto; lia
      | apply lor_bound; auto; lia | apply land_bound; auto; lia | split; [discriminate | reflexivity]
      | apply shr_u64; [exact Hb | apply Z.land_nonneg; right; discriminate]].
Qed.

Lemma extend_u64 (o : Opcode) (m addr v : Z) : is_u64 m -> load_value o addr m = Ok v -> is_u64 v.
Proof.
  intros Hm E. destruct (load_value_bytes o addr m v Hm E) as [Hw ->]. rewrite bytes_slice by exact Hw.
  set (x := m / _). pose proof (pow2_pos (8 * Z.of_nat (access_width o)) ltac:(lia)) as Hp.
  pose proof (Z.mod_pos_bound x _ Hp).
  assert (is_u64 (x mod 2 ^ (8 * Z.of_nat (access_width o)))).
  { split; [lia|]. eapply Z.lt_le_trans; [apply H|]. apply Z.pow_le_mono_r; [lia|]. lia. }
  destruct o; cbn [extend] in *; first [apply as_u64_u64 | assumption].
Qed.

Lemma aligned_u64 (a b : Z) : is_u64 (aligned (wrapping_add a b)).
Proof.
  pose proof (wrapping_add_bound a b) as Hb. rewrite aligned_eq by exact Hb. unfold is_u in *. dlia.
Qed.

(** What a memory promises about the values it holds. *)
Class MemoryInv (M : Type) `{MemoryOps M} : Type := {
  mem_wf : M -> Prop;
  mem_get_wf : forall m addr o m', mem_wf m -> is_u64 addr -> mem_get m addr = Ok (o, m') ->
    is_u64 (mv_value (default MemValue_default o)) /\ mem_wf m';
  mem_get_mut_wf : forall m addr mv write, mem_wf m -> is_u64 addr -> mem_get_mut m addr = Ok (mv, write) ->
    is_u64 (mv_value mv) /\ forall x, is_u64 (mv_value x) -> mem_wf (write x)
}.

Lemma default_u64 (m : gmap Z MemValue) (a : Z) :
  map_Forall (fun _ x => is_u64 (mv_value x)) m -> is_u64 (mv_value (default MemValue_default (m !! a))).
Proof.
  intros Hm. destruct (m !! a) as [x|] eqn:E; [exact (Hm a x E)|]. split; [discriminate | reflexivity].
Qed.

#[export, refine] Instance map_memory_inv : MemoryInv (gmap Z MemValue) := {
  mem_wf m := map_Forall (fun _ x => is_u64 (mv_value x)) m
}.
Proof.
  - intros m addr o m' Hm _ E. cbn [mem_get map_memory] in E. apply bind_ok in E as ([] & _ & E).
    apply Ok_inj in E. injection E as <- <-. split; [apply default_u64, Hm | exact Hm].
  - intros m addr mv write Hm _ E. cbn [mem_get_mut map_memory] in E. apply bind_ok in E as ([] & _ & E).
    apply Ok_inj in E. injection E as <- <-. split; [apply default_u64, Hm|].
    intros x Hx. apply map_Forall_insert_2; assumption.
Defined.

Section Invariant.
Context {M : Type} `{MemoryInv M} (program : Program).
Context (ecall_handler : Executor M -> SyscallCode -> Res (Executor M * option Z)).

Definition clock_ok (c : Z) : Prop := is_u64 c /\ c mod 8 = 1.

(** The state an unconstrained block returns to. *)
Definition ctx_ok (ctx : UnconstrainedCtx) : Prop :=
  length (uc_registers ctx) = 32%nat /\ Forall is_u64 (uc_registers ctx) /\ is_u64 (uc_pc ctx) /\ clock_ok (uc_clk ctx).

(** The streams of the host hold bytes. *)
Definition host_ok (h : HostState) : Prop :=
  Forall (fun v => Forall is_u8 v /\ is_u64 (Z.of_nat (length v))) (input h) /\ Forall is_u8 (public_values_stream h) /\ is_u32 (exit_code h) /\
  length (public_value_digest h) = 8%nat /\ Forall is_u32 (public_value_digest h).

(** The state while an instruction executes, and between instructions; a
    system call advances the clock as it accesses the memory. *)
Record mid_inv (e : Executor M) : Prop := mkMidInv {
  mi_length : length (registers e) = 32%nat;
  mi_registers : Forall is_u64 (registers e);
  mi_memory : mem_wf (memory e);
  mi_pc : is_u64 (pc e);
  mi_unconstrained : forall ctx, maybe_unconstrained e = Some ctx -> ctx_ok ctx;
  mi_host : host_ok (host e);
  mi_next_pc : is_u64 (next_pc e);
  mi_next_clk : clock_ok (next_clk e)
}.

Record exec_inv (e : Executor M) : Prop := mkExecInv {
  xi_length : length (registers e) = 32%nat;
  xi_x0 : registers e !! 0%nat = Some 0;
  xi_registers : Forall is_u64 (registers e);
  xi_memory : mem_wf (memory e);
  xi_pc : is_u64 (pc e);
  xi_unconstrained : forall ctx, maybe_unconstrained e = Some ctx -> ctx_ok ctx;
  xi_host : host_ok (host e);
  xi_clk : clock_ok (clk e)
}.

(** What the handler of the system calls promises: it keeps the invariant, and
    leaving an unconstrained block it restores a clock. *)
Definition handler_ok : Prop := forall e code e' r, mid_inv e -> clock_ok (clk e) -> ecall_handler e code = Ok (e', r) ->
  mid_inv e' /\ (code = EXIT_UNCONSTRAINED -> clock_ok (clk e')) /\ forall v, r = Some v -> is_u64 v.
Hypothesis Hecall : handler_ok.

Lemma set_reg_inv (e e' : Executor M) (r v : Z) : mid_inv e -> is_u64 v -> set_reg e r v = Ok e' -> mid_inv e'.
Proof.
  intros [Hl Hr Hm Hp Hu Hh Hnp Hnc] Hv E. unfold set_reg in E. apply bind_ok in E as ([] & _ & E). apply Ok_inj in E as <-.
  split; cbn; try assumption; [rewrite length_insert; exact Hl | apply Forall_insert; assumption].
Qed.

Lemma with_next_pc_inv (e : Executor M) (x : Z) : mid_inv e -> is_u64 x -> mid_inv (with_next_pc e x).
Proof. intros [] Hx. split; assumption. Qed.

Lemma with_memory_inv (e : Executor M) (m : M) : mid_inv e -> mem_wf m -> mid_inv (with_memory e m).
Proof. intros [] Hx. split; assumption. Qed.

Lemma trace_mem_inv (e : Executor M) (v : MemValue) : mid_inv e -> mid_inv (trace_mem e v).
Proof.
  intros Hi. unfold trace_mem. destruct (traces e), (maybe_unconstrained e); try exact Hi. destruct Hi. split; assumption.
Qed.

Lemma reg_u64 (e : Executor M) (r v : Z) : mid_inv e -> reg e r = Ok v -> is_u64 v.
Proof. intros Hi E. unfold reg in E. apply of_option_ok in E. eapply Forall_lookup_1; [apply Hi | exact E]. Qed.

Lemma execute_alu_inv (e e' : Executor M) (i : Instruction) :
  wf_instruction i -> mid_inv e -> execute_alu e i = Ok e' -> mid_inv e'.
Proof.
  intros (_ & Hb & Hc & _) Hi E. unfold execute_alu in E.
  apply bind_ok in E as (b & Eb & E). apply bind_ok in E as (c & Ec & E). apply bind_ok in E as (a & Ea & E).
  eapply set_reg_inv; [exact Hi | | exact E]. eapply alu_value_u64; [| |exact Ea].
  - destruct (imm_b i); [apply Ok_inj in Eb as <-; exact Hb | eapply reg_u64; eassumption].
  - destruct (imm_c i); [apply Ok_inj in Ec as <-; exact Hc | eapply reg_u64; eassumption].
Qed.

Lemma execute_load_inv (e e' : Executor M) (i : Instruction) : mid_inv e -> execute_load e i = Ok e' -> mid_inv e'.
Proof.
  intros Hi E. unfold execute_load in E. apply bind_ok in E as ([[rd rs1] off] & _ & E).
  apply bind_ok in E as (base & _ & E). apply bind_ok in E as ([mv write] & Em & E). cbn zeta in E.
  apply bind_ok in E as (v & Ev & E). destruct (mem_get_mut_wf _ _ _ _ (mi_memory e Hi) (aligned_u64 _ _) Em) as [Hv Hw].
  eapply set_reg_inv; [| |exact E].
  - apply with_memory_inv; [apply trace_mem_inv, Hi | apply Hw, Hv].
  - eapply extend_u64; [exact Hv | exact Ev].
Qed.

Lemma execute_store_inv (e e' : Executor M) (i : Instruction) : mid_inv e -> execute_store e i = Ok e' -> mid_inv e'.
Proof.
  intros Hi E. unfold execute_store in E. apply bind_ok in E as ([[rs1 rs2] off] & _ & E).
  apply bind_ok in E as (src & Es & E). apply bind_ok in E as (base & _ & E). cbn zeta in E.
  apply bind_ok in E as ([last e1] & El & E). apply bind_ok in E as (v & Ev & E). apply bind_ok in E as ([mv write] & Em & E).
  apply Ok_inj in E as <-. unfold mem_read_untracked in El. apply bind_ok in El as ([o m1] & Eo & El).
  apply Ok_inj in El. injection El as <- <-. destruct (mem_get_wf _ _ _ _ (mi_memory e Hi) (aligned_u64 _ _) Eo) as [Ho Hm1].
  destruct (mem_get_mut_wf _ _ _ _ Hm1 (aligned_u64 _ _) Em) as [_ Hw].
  apply with_memory_inv; [apply trace_mem_inv, with_memory_inv; assumption|]. apply Hw. cbn [mv_value].
  eapply store_value_bytes; [eapply reg_u64; eassumption | exact Ho | exact Ev].
Qed.

Lemma execute_branch_inv (e e' : Executor M) (i : Instruction) : mid_inv e -> execute_branch e i = Ok e' -> mid_inv e'.
Proof.
  intros Hi E. unfold execute_branch in E. apply bind_ok in E as ([[rs1 rs2] off] & _ & E).
  apply bind_ok in E as (a & _ & E). apply bind_ok in E as (b & _ & E). apply bind_ok in E as (t & _ & E).
  apply Ok_inj in E as <-. destruct t; [apply with_next_pc_inv; [exact Hi | apply wrapping_add_bound] | exact Hi].
Qed.

Lemma execute_jump_inv (e e' : Executor M) (i : Instruction) : mid_inv e -> execute_jump e i = Ok e' -> mid_inv e'.
Proof.
  intros Hi E. unfold execute_jump in E. destruct (opcode i); try discriminate E.
  - apply bind_ok in E as ([rd off] & _ & E). cbn zeta in E.
    eapply set_reg_inv; [|apply wrapping_add_bound | exact E]. apply with_next_pc_inv; [exact Hi | apply as_u64_u64].
  - apply bind_ok in E as ([[rd rs1] off] & _ & E). apply bind_ok in E as (base & _ & E).
    apply bind_ok in E as (e1 & E1 & E). apply Ok_inj in E as <-.
    apply with_next_pc_inv; [eapply set_reg_inv; [exact Hi | apply wrapping_add_bound | exact E1]|].
    apply land_bound; [lia | apply as_u64_u64 | split; [discriminate | reflexivity]].
Qed.

Lemma execute_utype_inv (e e' : Executor M) (i : Instruction) :
  wf_instruction i -> mid_inv e -> execute_utype e i = Ok e' -> mid_inv e'.
Proof.
  intros (_ & Hb & _) Hi E. unfold execute_utype, u_type in E. apply bind_ok in E as ([rd imm] & Eu & E).
  apply bind_ok in Eu as (a & _ & Eu). apply Ok_inj in Eu. injection Eu as _ <-.
  apply bind_ok in E as (v & Ev & E). eapply set_reg_inv; [exact Hi | | exact E].
  destruct (opcode i); try discriminate Ev; apply Ok_inj in Ev as <-; [apply wrapping_add_bound | exact Hb].
Qed.

Lemma clock_ok_add (c n : Z) : clock_ok c -> n mod 8 = 0 -> clock_ok (wrapping_add c n).
Proof.
  intros [_ Hc] Hn. split; [apply wrapping_add_bound|]. unfold wrapping_add, as_u64, as_unsigned.
  change 8 with (2 ^ 3). rewrite mod_mod_le by lia. change (2 ^ 3) with 8. rewrite Z.add_mod, Hc, Hn by lia. reflexivity.
Qed.

Lemma execute_ecall_inv (e e' : Executor M) (i : Instruction) :
  mid_inv e -> clock_ok (clk e) -> execute_ecall ecall_handler e i = Ok e' -> mid_inv e'.
Proof.
  intros Hi Hclk E. unfold execute_ecall in E. apply bind_ok in E as ([] & _ & E). apply bind_ok in E as (t0 & _ & E).
  apply bind_ok in E as (code & _ & E). cbn zeta in E. apply bind_ok in E as ([e1 r] & E1 & E).
  apply bind_ok in E as (v & Ev & E). apply bind_ok in E as (e2 & E2 & E). apply Ok_inj in E as <-.
  assert (Hi1 : mid_inv e1 /\ (code = EXIT_UNCONSTRAINED -> clock_ok (clk e1)) /\ forall v, r = Some v -> is_u64 v).
  { eapply Hecall; [| |exact E1]; destruct (negb (bool_decide (code = EXIT_UNCONSTRAINED))); try assumption.
    destruct Hi. split; try assumption. apply clock_ok_add; [assumption | reflexivity]. }
  destruct Hi1 as (Hi1 & Hx & Hr). apply of_option_ok in Ev. pose proof (set_reg_inv _ _ _ _ Hi1 (Hr v Ev) E2) as [].
  assert (Ec : clk e2 = clk e1) by (unfold set_reg in E2; apply bind_ok in E2 as ([] & _ & E2); apply Ok_inj in E2 as <-; reflexivity).
  unfold handle_ecall_special_cases. destruct code; split; try assumption.
  - split; [discriminate | reflexivity].
  - apply wrapping_add_bound.
  - cbn [next_clk with_next_clk]. rewrite Ec. apply clock_ok_add; [exact (Hx eq_refl) | reflexivity].
Qed.

Lemma dispatch_inv (e e' : Executor M) (i : Instruction) :
  wf_instruction i -> mid_inv e -> clock_ok (clk e) -> dispatch ecall_handler e i = Ok e' -> mid_inv e'.
Proof.
  intros Hw Hi Hclk E. unfold dispatch in E.
  destruct (is_alu_instruction i); [eapply execute_alu_inv; eassumption|].
  destruct (is_memory_load_instruction i); [eapply execute_load_inv; eassumption|].
  destruct (is_memory_store_instruction i); [eapply execute_store_inv; eassumption|].
  destruct (is_branch_instruction i); [eapply execute_branch_inv; eassumption|].
  destruct (is_jump_instruction i); [eapply execute_jump_inv; eassumption|].
  destruct (is_utype_instruction i); [eapply execute_utype_inv; eassumption|].
  destruct (is_ecall_instruction i); [eapply execute_ecall_inv; eassumption | discriminate E].
Qed.

(** A step keeps the invariant. *)
Lemma execute_instruction_inv (e e' : Executor M) (stop : bool) :
  Forall wf_instruction (instructions program) -> exec_inv e ->
  execute_instruction program ecall_handler e = Ok (e', stop) -> exec_inv e'.
Proof.
  intros Hp [Hl Hx Hr Hm Hpc Hu Hh Hc] E. unfold execute_instruction in E. apply bind_ok in E as (i & Ei & E).
  apply of_option_ok in Ei. assert (Hw : wf_instruction i) by (eapply Forall_lookup_1; [exact Hp | exact Ei]).
  cbn zeta in E. apply bind_ok in E as (e1 & E1 & E). apply bind_ok in E as (e2 & E2 & E).
  apply bind_ok in E as (x & _ & E). apply Ok_inj in E. injection E as <- <-.
  apply dispatch_inv in E1; [|exact Hw| |exact Hc].
  2:{ split; cbn; try assumption; [apply wrapping_add_bound | apply clock_ok_add; [exact Hc | reflexivity]]. }
  unfold post_instruction_update in E2. apply bind_ok in E2 as (e3 & E3 & E2). apply Ok_inj in E2 as <-.
  assert (H3 : mid_inv e3) by (apply (set_reg_inv e1 e3 0 0 E1); [split; [discriminate | reflexivity] | exact E3]).
  unfold set_reg in E3. apply bind_ok in E3 as ([] & Hlt & E3). apply Ok_inj in E3 as <-.
  destruct H3 as [Hl' Hr' Hm' _ Hu' Hh' Hnp Hnc]. split; cbn in *; try assumption. apply assertb_ok, Nat.ltb_lt in Hlt.
  rewrite list_lookup_insert_eq; [reflexivity | exact Hlt].
Qed.
End Invariant.

(** ** The loop *)

Section Loop.
Context {M : Type} `{MemoryOps M} (program : Program).
Context (ecall_handler : Executor M -> SyscallCode -> Res (Executor M * option Z)).

Definition step_once (e : Executor M) : Res (Executor M) :=
  let* (e, _) := execute_instruction program ecall_handler e in Ok e.

Fixpoint run (n : nat) (e : Executor M) : Res (Executor M) :=
  match n with
  | O => Ok e
  | S n => let* e := step_once e in run n e
  end.

(** The state after [n] steps is one the loop goes on from. *)
Definition continues (n : nat) (e : Executor M) : Prop :=
  exists e1 e2, run n e = Ok e1 /\ execute_instruction program ecall_handler e1 = Ok (e2, false) /\
    has_last_error (memory e2) = false.

(** How the loop ends. *)
Definition ends (n : nat) (e : Executor M) (r : Res (option (Executor M))) : Prop :=
  exists e1, run n e = Ok e1 /\
  match execute_instruction program ecall_handler e1 with
  | Panic => r = Panic
  | Ok (e2, true) => r = Ok (Some e2)
  | Ok (e2, false) => has_last_error (memory e2) = true /\ r = Ok None
  end.

Lemma run_S (n : nat) (e e1 : Executor M) (b : bool) :
  execute_instruction program ecall_handler e = Ok (e1, b) -> run (S n) e = run n e1.
Proof. intros E. cbn [run]. unfold step_once. rewrite E. reflexivity. Qed.

(** With [fuel] the loop returns exactly when it ends within [fuel] steps,
    after steps it goes on from. *)
Lemma chunk_loop_iff (fuel : nat) (e : Executor M) (r : Res (option (Executor M))) :
  chunk_loop program ecall_handler fuel e = Some r <->
  exists n, (n < fuel)%nat /\ (forall k, (k < n)%nat -> continues k e) /\ ends n e r.
Proof.
  revert e. induction fuel as [|fuel IH]; intros e; cbn [chunk_loop]; [split; [discriminate | intros (n & Hn & _); lia]|].
  destruct (execute_instruction program ecall_handler e) as [[e1 [|]]|] eqn:E.
  - split.
    + intros Er. exists 0%nat. split; [lia|]. split; [lia|]. exists e. split; [reflexivity|]. rewrite E. congruence.
    + intros (n & _ & Hc & e2 & Er & He). destruct n as [|n].
      * cbn in Er. apply Ok_inj in Er as <-. rewrite E in He. congruence.
      * destruct (Hc 0%nat ltac:(lia)) as (x & y & Ex & Ey & _). cbn in Ex. apply Ok_inj in Ex as <-. congruence.
  - destruct (has_last_error (memory e1)) eqn:El.
    + split.
      * intros Er. exists 0%nat. split; [lia|]. split; [lia|]. exists e. split; [reflexivity|]. rewrite E. split; congruence.
      * intros (n & _ & Hc & e2 & Er & He). destruct n as [|n].
        -- cbn in Er. apply Ok_inj in Er as <-. rewrite E in He. destruct He as [_ ->]. reflexivity.
        -- destruct (Hc 0%nat ltac:(lia)) as (x & y & Ex & Ey & Hy). cbn in Ex. apply Ok_inj in Ex as <-. congruence.
    + rewrite IH. unfold ends. split.
      * intros (n & Hn & Hc & e2 & Er & He). exists (S n). split; [lia|]. split.
        -- intros [|k] Hk; [exists e, e1; auto|]. unfold continues. rewrite (run_S k e e1 false E). apply Hc. lia.
        -- exists e2. rewrite (run_S n e e1 false E). auto.
      * intros (n & Hn & Hc & e2 & Er & He). destruct n as [|n].
        -- cbn in Er. apply Ok_inj in Er as <-. rewrite E in He. destruct He; congruence.
        -- rewrite (run_S n e e1 false E) in Er. exists n. split; [lia|]. split; [|exists e2; auto].
           intros k Hk. specialize (Hc (S k) ltac:(lia)). unfold continues in Hc. rewrite (run_S k e e1 false E) in Hc. exact Hc.
  - split.
    + intros Er. exists 0%nat. split; [lia|]. split; [lia|]. exists e. split; [reflexivity|]. rewrite E. congruence.
    + intros (n & _ & Hc & e2 & Er & He). destruct n as [|n].
      * cbn in Er. apply Ok_inj in Er as <-. rewrite E in He. congruence.
      * destruct (Hc 0%nat ltac:(lia)) as (x & y & Ex & Ey & _). cbn in Ex. apply Ok_inj in Ex as <-. congruence.
Qed.
End Loop.
