(* ===== verification/MemoryFacts.v ===== *)
(** * What the executor's memory guarantees

    [LimitedMemory] behaves as a finite map with one snapshot until an error
    is recorded, never holds more entries than its limit allows, and satisfies
    the memory interface of the executor. *)

From stdpp Require Import base list gmap.
From Stdlib Require Import ZArith Lia Bool.
From S2P Require Import Prelude.
From S2P Require Import Words.
From S2P Require Import Isa.
From S2P Require Import Paging.
From S2P Require Import Executor.
From S2P Require Import ExecutorFacts.
From S2P Require Import Memory.
Import Limiter.
Open Scope Z_scope.

(** ** The limiter *)

Definition counts (l : Limiter) (n : nat) : Prop :=
  match l with NoLimit => True | Limit current _ => current = Z.of_nat n end.

Definition within (l : Limiter) : Prop :=
  match l with NoLimit => True | Limit current limit => current <= limit end.

Definition limit_of (l : Limiter) : option Z :=
  match l with NoLimit => None | Limit _ limit => Some limit end.

Lemma increase_spec (l : Limiter) (n : nat) :
  counts l n -> Z.of_nat n < 2 ^ 63 ->
  counts (fst (increase l)) (S n) /\ limit_of (fst (increase l)) = limit_of l /\
  (snd (increase l) = None -> within (fst (increase l))) /\
  (snd (increase l) = None \/ snd (increase l) = Some TooMuchMemory /\ ~ within (fst (increase l))).
Proof.
  intros Hc Hn. destruct l as [|current limit]; cbn in *; [tauto|]. subst current.
  unfold as_u64. rewrite as_unsigned_id by (unfold is_u; lia). destruct (Z.ltb_spec limit (Z.of_nat n + 1)); cbn.
  - repeat split; [lia | discriminate | right; split; [reflexivity | lia]].
  - repeat split; [lia | lia | auto].
Qed.

(** A pointer is rejected exactly when there is a limit and it is out of
    range. *)
Lemma check_ptr_none (l : Limiter) (addr : Z) (w : bool) : word_address addr -> Limiter.check_ptr l addr w = None.
Proof.
  intros [Ha Hm]. destruct l; [reflexivity|]. unfold Limiter.check_ptr. rewrite Z.shiftl_1_l.
  unfold in_space, MAX_LOG_ADDR in *. rewrite (proj2 (Z.ltb_ge _ _)); [reflexivity | dlia].
Qed.

Lemma check_ptr_some (l : Limiter) (lim addr : Z) (w : bool) :
  limit_of l = Some lim -> 2 ^ MAX_LOG_ADDR <= addr ->
  Limiter.check_ptr l addr w = Some (InvalidMemoryAccess (if w then SD else LD) addr).
Proof.
  intros Hl Ha. destruct l; [discriminate|]. unfold Limiter.check_ptr. rewrite Z.shiftl_1_l.
  unfold MAX_LOG_ADDR in *. rewrite (proj2 (Z.ltb_lt _ _)) by lia. reflexivity.
Qed.

Lemma represents_size {T} (m : PagedMemory.PagedMemory T) (g : gmap Z T) : represents m g -> Z.of_nat (size g) <= 2 ^ 37.
Proof.
  intros Hr. destruct (iteration_spec m g Hr) as (_ & _ & _ & Hs). etransitivity; [exact Hs|].
  pose proof (pages_bound m (proj1 Hr)) as Hb. rewrite (pw_count m (proj1 Hr)) in Hb. unfold PagedMemory.estimate_len.
  fold (used (PagedMemory.index m)). rewrite page_len_eq. rewrite max_page_count_eq in Hb. lia.
Qed.

(** ** The invariant *)

Section Limited.
Context {T : Type} (T_default : T).
Implicit Types (lm : LimitedMemory.LimitedMemory T) (top : gmap Z T) (base : option (gmap Z T)).
Import LimitedMemory.

(** The count is the number of entries, of the copy and of the original; it
    is within the limit unless an error has been recorded. *)
Record limited_inv lm top base : Prop := mkLimitedInv {
  li_rep : cow_rep (memory lm) top base;
  li_count : counts (limiter lm) (size top + size (default ∅ base));
  li_within : last_error lm = None -> within (limiter lm);
  li_saved : match base with
    | None => before_cow lm = None
    | Some b => exists l, before_cow lm = Some l /\ counts l (size b) /\ limit_of l = limit_of (limiter lm) /\
        (last_error lm = None -> within l)
    end
}.

Lemma cow_size (m : MaybeCowMemory.MaybeCowMemory T) top base :
  cow_rep m top base -> Z.of_nat (size top + size (default ∅ base)) < 2 ^ 63.
Proof.
  intros Hr. destruct m as [copy original | mem], base as [b|]; try contradiction; cbn in Hr.
  - destruct Hr as [Hc Ho]. apply represents_size in Hc, Ho. cbn [from_option id]. lia.
  - apply represents_size in Hr. cbn [from_option]. rewrite map_size_empty. lia.
Qed.

(** A write to the slot of [addr]; the first one is charged. *)
Definition charge lm (charged : bool) (mem : MaybeCowMemory.MaybeCowMemory T) : LimitedMemory.LimitedMemory T :=
  if charged then LimitedMemory.increase lm mem else with_memory lm mem.

Lemma charge_inv lm top base (addr : Z) (v : T) (mem : MaybeCowMemory.MaybeCowMemory T) :
  limited_inv lm top base -> last_error lm = None -> cow_rep mem (<[addr := v]> top) base ->
  let lm' := charge lm (match top !! addr with None => true | Some _ => false end) mem in
  limited_inv lm' (<[addr := v]> top) base /\ limit_of (limiter lm') = limit_of (limiter lm) /\
  (last_error lm' = None \/ last_error lm' = Some TooMuchMemory /\ ~ within (limiter lm')).
Proof.
  intros [Hr Hc Hw Hs] He Hm. specialize (Hw He). unfold charge. destruct (top !! addr) as [old|] eqn:E; cbn zeta.
  - split; [|split; [reflexivity | left; exact He]]. split; cbn [memory limiter before_cow last_error with_memory]; auto.
    rewrite map_size_insert_Some by (rewrite E; eauto). exact Hc.
  - destruct (increase_spec (limiter lm) _ Hc (cow_size _ _ _ Hr)) as (Ic & Il & Iw & Ie).
    unfold LimitedMemory.increase. destruct (Limiter.increase (limiter lm)) as [l e]. cbn [fst snd] in *.
    rewrite He. unfold c. split; [|split; assumption].
    split; cbn [memory limiter before_cow last_error]; [exact Hm | | exact Iw |].
    + rewrite map_size_insert_None by exact E. exact Ic.
    + destruct base as [b|]; [|exact Hs]. destruct Hs as (l0 & H1 & H2 & H3 & H4). exists l0.
      rewrite Il. auto.
Qed.

Lemma error_kept lm top base (e : option ExecutionError) (d : T) :
  limited_inv lm top base -> (e = None -> last_error lm = None) ->
  limited_inv (mkLimitedMemory (memory lm) (limiter lm) (before_cow lm) e d) top base.
Proof.
  intros [Hr Hc Hw Hs] He. split; cbn [memory limiter before_cow last_error]; auto.
  destruct base as [b|]; [|exact Hs]. destruct Hs as (l & H1 & H2 & H3 & H4). exists l. auto 10.
Qed.

Lemma new_owned_inv (limit : option Z) : (forall l, limit = Some l -> 0 <= l) -> limited_inv (new_owned T_default limit) ∅ None.
Proof.
  intros Hl. split; cbn; [apply new_represents | | |reflexivity].
  - destruct limit; [|exact I]. cbn. rewrite map_size_empty. reflexivity.
  - intros _. destruct limit as [l|]; [|exact I]. cbn. specialize (Hl l eq_refl). dlia.
Qed.

(** ** Operations *)

Inductive LimOp : Type :=
| LGet (addr : Z)
| LInsert (addr : Z) (value : T)
| LGetMut (addr : Z) (f : T -> T)
| LCopyOnWrite
| LOwned.

Definition limited_step lm (op : LimOp) : Res (option T * LimitedMemory.LimitedMemory T) :=
  match op with
  | LGet addr => get lm addr
  | LInsert addr value => let* lm := insert lm addr value in Ok (None, lm)
  | LGetMut addr f => let* (v, put) := get_mut T_default lm addr in Ok (Some v, put (f v))
  | LCopyOnWrite => Ok (None, copy_on_write lm)
  | LOwned => let* lm := owned lm in Ok (None, lm)
  end.

Fixpoint limited_run lm (ops : list LimOp) : Res (list (option T) * LimitedMemory.LimitedMemory T) :=
  match ops with
  | [] => Ok ([], lm)
  | op :: ops => let* (o, lm) := limited_step lm op in let* (os, lm) := limited_run lm ops in Ok (o :: os, lm)
  end.

(** A finite map with a snapshot. *)
Definition snap_step (s : gmap Z T * option (gmap Z T)) (op : LimOp) : option T * (gmap Z T * option (gmap Z T)) :=
  let (g, saved) := s in
  match op with
  | LGet addr => (g !! addr, s)
  | LInsert addr value => (None, (<[addr := value]> g, saved))
  | LGetMut addr f => let v := default T_default (g !! addr) in (Some v, (<[addr := f v]> g, saved))
  | LCopyOnWrite => (None, (g, Some g))
  | LOwned => (None, (default g saved, None))
  end.

Fixpoint snap_run (s : gmap Z T * option (gmap Z T)) (ops : list LimOp) : list (option T) * (gmap Z T * option (gmap Z T)) :=
  match ops with
  | [] => ([], s)
  | op :: ops => let (o, s) := snap_step s op in let (os, s) := snap_run s ops in (o :: os, s)
  end.

(** Snapshots are taken and dropped in turn. *)
Fixpoint bracketed (saved : bool) (ops : list LimOp) : bool :=
  match ops with
  | [] => true
  | LCopyOnWrite :: ops => negb saved && bracketed true ops
  | LOwned :: ops => saved && bracketed false ops
  | _ :: ops => bracketed saved ops
  end.

(** Addresses are aligned, and in range where nothing checks them. *)
Definition op_ok (limit : option Z) (op : LimOp) : Prop :=
  match op with
  | LGet addr | LInsert addr _ | LGetMut addr _ => 0 <= addr /\ addr mod 8 = 0 /\ (limit = None -> in_space addr)
  | LCopyOnWrite | LOwned => True
  end.

(** What a step that went well has done. *)
Definition step_done lm top base (op : LimOp) (o : option T) lm' top' base' : Prop :=
  last_error lm' = None -> last_error lm = None /\ snap_step (view top base, base) op = (o, (view top' base', base')).

Lemma check_ptr_same lm (addr : Z) (w : bool) : word_address addr -> check_ptr lm addr w = lm.
Proof.
  intros Ha. destruct lm as [m l b e d]. unfold check_ptr. cbn. rewrite check_ptr_none by exact Ha.
  destruct e; reflexivity.
Qed.

(** Once an error has been recorded the memory is left alone. *)
Lemma check_ptr_error lm (addr : Z) (w : bool) :
  0 <= addr -> addr mod 8 = 0 -> (limit_of (limiter lm) = None -> in_space addr) ->
  has_last_error (check_ptr lm addr w) = false -> check_ptr lm addr w = lm /\ word_address addr /\ last_error lm = None.
Proof.
  intros H0 Ha Hl He. assert (Hs : word_address addr).
  { split; [|exact Ha]. destruct (limit_of (limiter lm)) as [lim|] eqn:E; [|auto].
    destruct (Z_lt_le_dec addr (2 ^ MAX_LOG_ADDR)) as [|Hge]; [split; assumption|].
    unfold check_ptr, has_last_error in He. cbn in He. rewrite (check_ptr_some _ _ _ w E Hge) in He.
    destruct (last_error lm); discriminate. }
  rewrite check_ptr_same in He |- * by exact Hs. split; [reflexivity|]. split; [exact Hs|].
  unfold has_last_error in He. destruct (last_error lm); [discriminate | reflexivity].
Qed.

Lemma insert_step lm top base (addr : Z) (v : T) :
  limited_inv lm top base -> op_ok (limit_of (limiter lm)) (LInsert addr v) ->
  exists o lm' top', limited_step lm (LInsert addr v) = Ok (o, lm') /\ limited_inv lm' top' base /\
    limit_of (limiter lm') = limit_of (limiter lm) /\ step_done lm top base (LInsert addr v) o lm' top' base.
Proof.
  intros Hi (H0 & Ha & Hl). cbn [limited_step]. unfold insert.
  destruct (has_last_error (check_ptr lm addr true)) eqn:He; cbn [bind].
  - eexists _, _, top. split; [reflexivity|]. split.
    + apply error_kept; [exact Hi|]. unfold c. destruct (last_error lm); [discriminate | reflexivity].
    + split; [reflexivity|]. intros E. unfold has_last_error in He. rewrite E in He. discriminate.
  - destruct (check_ptr_error lm addr true H0 Ha Hl He) as (-> & Hs & En).
    destruct (cow_insert (memory lm) top base addr v (li_rep _ _ _ Hi) Hs) as (mem & -> & Hm). cbn [bind].
    destruct (charge_inv lm top base addr v mem Hi En Hm) as (Hi' & El & _). unfold charge in Hi', El.
    eexists _, _, (<[addr := v]> top). split; [reflexivity|].
    destruct (top !! addr); (split; [exact Hi'|]; split; [exact El|]; intros _; split; [exact En|]; cbn [snap_step];
      unfold view; rewrite insert_union_l; reflexivity).
Qed.

Lemma get_mut_step lm top base (addr : Z) (f : T -> T) :
  limited_inv lm top base -> op_ok (limit_of (limiter lm)) (LGetMut addr f) ->
  exists o lm' top', limited_step lm (LGetMut addr f) = Ok (o, lm') /\ limited_inv lm' top' base /\
    limit_of (limiter lm') = limit_of (limiter lm) /\ step_done lm top base (LGetMut addr f) o lm' top' base.
Proof.
  intros Hi (H0 & Ha & Hl). cbn [limited_step]. unfold get_mut.
  destruct (has_last_error (check_ptr lm addr true)) eqn:He; cbn [bind].
  - eexists _, _, top. split; [reflexivity|]. split.
    + apply (error_kept lm top base _ _ Hi). unfold check_ptr, c. cbn. destruct (last_error lm); [discriminate | reflexivity].
    + split; [reflexivity|]. intros E. unfold has_last_error in He. cbn in E, He. rewrite E in He. discriminate.
  - destruct (check_ptr_error lm addr true H0 Ha Hl He) as (-> & Hs & En).
    destruct (cow_entry (memory lm) top base addr (li_rep _ _ _ Hi) Hs) as (e & dup & -> & Hv & Hd & Hp). cbn [bind].
    fold (vacant e). rewrite Hd. set (v := default T_default (view top base !! addr)).
    assert (Ho : Entry.or_insert e T_default = (v, Entry.put e)) by (unfold v; rewrite <- Hv; destruct e; reflexivity).
    rewrite Ho. cbn [bind]. destruct (charge_inv lm top base addr (f v) _ Hi En (Hp (f v))) as (Hi' & El & _).
    eexists _, _, (<[addr := f v]> top). split; [reflexivity|]. split; [exact Hi'|]. split; [exact El|].
    intros _. split; [exact En|]. cbn [snap_step]. fold v. unfold view. rewrite insert_union_l. reflexivity.
Qed.

Lemma get_step lm top base (addr : Z) :
  limited_inv lm top base -> op_ok (limit_of (limiter lm)) (LGet addr) ->
  exists o lm', limited_step lm (LGet addr) = Ok (o, lm') /\ limited_inv lm' top base /\
    limit_of (limiter lm') = limit_of (limiter lm) /\ step_done lm top base (LGet addr) o lm' top base.
Proof.
  intros Hi (H0 & Ha & Hl). cbn [limited_step]. unfold get.
  destruct (has_last_error (check_ptr lm addr false)) eqn:He; cbn [bind].
  - eexists _, _. split; [reflexivity|]. split.
    + apply error_kept; [exact Hi|]. unfold c. destruct (last_error lm); [discriminate | reflexivity].
    + split; [reflexivity|]. intros E. unfold has_last_error in He. rewrite E in He. discriminate.
  - destruct (check_ptr_error lm addr false H0 Ha Hl He) as (-> & Hs & En).
    rewrite (cow_get (memory lm) top base addr (li_rep _ _ _ Hi) Hs). cbn [bind].
    eexists _, _. split; [reflexivity|]. split; [exact Hi|]. split; [reflexivity|]. intros _. split; [exact En | reflexivity].
Qed.

Lemma view_none top : view top None = top.
Proof. apply map_union_empty. Qed.

Lemma view_empty (b : gmap Z T) : view ∅ (Some b) = b.
Proof. apply map_empty_union. Qed.

Lemma copy_on_write_inv lm top :
  limited_inv lm top None -> limited_inv (copy_on_write lm) ∅ (Some top).
Proof.
  intros [Hr Hc Hw Hs]. destruct lm as [m l b e d]. cbn in *. destruct m as [? ?|mem]; [contradiction|].
  split; cbn [memory limiter last_error before_cow copy_on_write MaybeCowMemory.copy_on_write MaybeCowMemory.new_cow cow_rep
    from_option id] in *.
  - split; [apply new_represents | exact Hr].
  - rewrite map_size_empty, Nat.add_0_r in *. exact Hc.
  - exact Hw.
  - exists l. rewrite map_size_empty, Nat.add_0_r in Hc. auto.
Qed.

Lemma owned_inv lm top (b : gmap Z T) :
  limited_inv lm top (Some b) ->
  exists lm', owned lm = Ok lm' /\ limited_inv lm' b None /\ limit_of (limiter lm') = limit_of (limiter lm) /\
    last_error lm' = last_error lm.
Proof.
  intros [Hr Hc Hw Hs]. destruct Hs as (l & Hb & Hl & Hlim & Hwl). unfold owned. rewrite Hb. cbn [of_option bind].
  eexists. split; [reflexivity|]. split; [|split; [exact Hlim | reflexivity]].
  destruct (memory lm) as [copy original|mem] eqn:Em; [|contradiction].
  split; cbn [memory limiter last_error before_cow MaybeCowMemory.owned cow_rep from_option].
  - apply Hr.
  - rewrite map_size_empty, Nat.add_0_r. exact Hl.
  - exact Hwl.
  - reflexivity.
Qed.

Lemma limited_step_spec lm top base (op : LimOp) (ops : list LimOp) :
  limited_inv lm top base -> op_ok (limit_of (limiter lm)) op -> bracketed (bool_decide (is_Some base)) (op :: ops) = true ->
  exists o lm' top' base', limited_step lm op = Ok (o, lm') /\ limited_inv lm' top' base' /\
    limit_of (limiter lm') = limit_of (limiter lm) /\ step_done lm top base op o lm' top' base' /\
    bracketed (bool_decide (is_Some base')) ops = true.
Proof.
  intros Hi Ho Hb. destruct op as [addr | addr v | addr f | |]; cbn [bracketed] in Hb.
  - destruct (get_step lm top base addr Hi Ho) as (o & lm' & H1 & H2 & H3 & H4). eauto 10.
  - destruct (insert_step lm top base addr v Hi Ho) as (o & lm' & top' & H1 & H2 & H3 & H4). eauto 10.
  - destruct (get_mut_step lm top base addr f Hi Ho) as (o & lm' & top' & H1 & H2 & H3 & H4). eauto 10.
  - apply andb_prop in Hb as [Hn Hb]. destruct base as [b|]; [discriminate|].
    exists None, (copy_on_write lm), ∅, (Some top). split; [reflexivity|]. split; [apply copy_on_write_inv, Hi|].
    split; [reflexivity|]. split; [|exact Hb]. intros E. split; [exact E|]. rewrite view_none, view_empty. reflexivity.
  - apply andb_prop in Hb as [Hs Hb]. destruct base as [b|]; [|discriminate].
    destruct (owned_inv lm top b Hi) as (lm' & Eo & Hi' & El & Ee). exists None, lm', b, None. cbn [limited_step].
    rewrite Eo. split; [reflexivity|]. split; [exact Hi'|]. split; [exact El|]. split; [|exact Hb].
    intros E. split; [congruence|]. rewrite view_none. reflexivity.
Qed.

Lemma limited_run_spec (ops : list LimOp) lm top base :
  limited_inv lm top base -> Forall (op_ok (limit_of (limiter lm))) ops ->
  bracketed (bool_decide (is_Some base)) ops = true ->
  exists os lm' top' base', limited_run lm ops = Ok (os, lm') /\ limited_inv lm' top' base' /\
    limit_of (limiter lm') = limit_of (limiter lm) /\
    (last_error lm' = None -> last_error lm = None /\ snap_run (view top base, base) ops = (os, (view top' base', base'))).
Proof.
  revert lm top base. induction ops as [|op ops IH]; intros lm top base Hi Ho Hb.
  - exists [], lm, top, base. auto 10.
  - apply Forall_cons in Ho as [Hop Hos].
    destruct (limited_step_spec lm top base op ops Hi Hop Hb) as (o & lm1 & top1 & base1 & E1 & Hi1 & Hl1 & Hd1 & Hb1).
    rewrite <- Hl1 in Hos. destruct (IH lm1 top1 base1 Hi1 Hos Hb1) as (os & lm2 & top2 & base2 & E2 & Hi2 & Hl2 & Hd2).
    exists (o :: os), lm2, top2, base2. cbn [limited_run snap_run]. rewrite E1. cbn [bind]. rewrite E2. cbn [bind].
    split; [reflexivity|]. split; [exact Hi2|]. split; [congruence|]. intros E. destruct (Hd2 E) as [E' Hr].
    destruct (Hd1 E') as [E0 Hs]. split; [exact E0|]. rewrite Hs, Hr. reflexivity.
Qed.

(** ** Room

    No error is recorded at addresses in range while the limit leaves room for
    an entry per operation. *)

Definition in_range (op : LimOp) : Prop :=
  match op with
  | LGet addr | LInsert addr _ | LGetMut addr _ => word_address addr
  | LCopyOnWrite | LOwned => True
  end.

Definition room (limit : option Z) (n : nat) : Prop := forall l, limit = Some l -> Z.of_nat n <= l.

Lemma charge_room lm top base (addr : Z) (v : T) (mem : MaybeCowMemory.MaybeCowMemory T) (n : nat) :
  limited_inv lm top base -> last_error lm = None -> cow_rep mem (<[addr := v]> top) base ->
  room (limit_of (limiter lm)) (size top + size (default ∅ base) + S n) ->
  let lm' := charge lm (match top !! addr with None => true | Some _ => false end) mem in
  limited_inv lm' (<[addr := v]> top) base /\ last_error lm' = None /\ limit_of (limiter lm') = limit_of (limiter lm) /\
  room (limit_of (limiter lm')) (size (<[addr := v]> top) + size (default ∅ base) + n).
Proof.
  intros Hi He Hm Hr. destruct (charge_inv lm top base addr v mem Hi He Hm) as (Hi' & El & Hx). cbn zeta.
  set (lm' := charge _ _ _) in *. assert (Hs : (size (<[addr := v]> top) <= S (size top))%nat).
  { destruct (top !! addr) eqn:E; [rewrite map_size_insert_Some by eauto; lia | rewrite map_size_insert_None by exact E; lia]. }
  assert (Hroom : room (limit_of (limiter lm)) (size (<[addr := v]> top) + size (default ∅ base) + n))
    by (intros l E; specialize (Hr l E); lia).
  split; [exact Hi'|]. rewrite El. split; [|split; [reflexivity | exact Hroom]].
  destruct Hx as [|[_ Hx]]; [assumption|]. exfalso. apply Hx. pose proof (li_count _ _ _ Hi') as Hc.
  rewrite <- El in Hroom. destruct (limiter lm') as [|current lim]; [exact I|]. cbn in Hc |- *. rewrite Hc.
  specialize (Hroom lim eq_refl). lia.
Qed.

Lemma room_step lm top base (op : LimOp) (ops : list LimOp) (n : nat) :
  limited_inv lm top base -> last_error lm = None -> in_range op -> bracketed (bool_decide (is_Some base)) (op :: ops) = true ->
  room (limit_of (limiter lm)) (size top + size (default ∅ base) + S n) ->
  exists o lm' top' base', limited_step lm op = Ok (o, lm') /\ limited_inv lm' top' base' /\ last_error lm' = None /\
    bracketed (bool_decide (is_Some base')) ops = true /\ limit_of (limiter lm') = limit_of (limiter lm) /\
    room (limit_of (limiter lm')) (size top' + size (default ∅ base') + n).
Proof.
  intros Hi He Ha Hb Hr. assert (Hq : has_last_error lm = false) by (unfold has_last_error; rewrite He; reflexivity).
  assert (Hr' : room (limit_of (limiter lm)) (size top + size (default ∅ base) + n)) by (intros l E; specialize (Hr l E); lia).
  destruct op as [addr | addr v | addr f | |]; cbn [bracketed in_range limited_step] in *.
  - unfold get. rewrite check_ptr_same, Hq, (cow_get _ top base addr (li_rep _ _ _ Hi) Ha) by exact Ha. cbn [bind]. eauto 12.
  - unfold insert. rewrite check_ptr_same, Hq by exact Ha.
    destruct (cow_insert (memory lm) top base addr v (li_rep _ _ _ Hi) Ha) as (mem & -> & Hm). cbn [bind].
    pose proof (charge_room lm top base addr v mem n Hi He Hm Hr) as (H1 & H2 & H3 & H4). unfold charge in *.
    eexists _, _, _, base. split; [reflexivity|]. destruct (top !! addr); eauto 10.
  - unfold get_mut. rewrite check_ptr_same, Hq by exact Ha.
    destruct (cow_entry (memory lm) top base addr (li_rep _ _ _ Hi) Ha) as (e & dup & -> & Hv & Hd & Hp). cbn [bind].
    fold (vacant e). rewrite Hd. set (v := default T_default (view top base !! addr)).
    assert (Ho : Entry.or_insert e T_default = (v, Entry.put e)) by (unfold v; rewrite <- Hv; destruct e; reflexivity).
    rewrite Ho. cbn [bind]. pose proof (charge_room lm top base addr (f v) _ n Hi He (Hp (f v)) Hr) as H. unfold charge in H.
    eexists _, _, _, base. split; [reflexivity|]. destruct H as (H1 & H2 & H3 & H4). eauto 10.
  - apply andb_prop in Hb as [Hn Hb]. destruct base as [b|]; [discriminate|].
    exists None, (copy_on_write lm), ∅, (Some top). split; [reflexivity|]. split; [apply copy_on_write_inv, Hi|].
    split; [exact He|]. split; [exact Hb|]. split; [reflexivity|]. cbn. cbn in Hr'. rewrite map_size_empty in *.
    intros l E. specialize (Hr' l E). lia.
  - apply andb_prop in Hb as [Hs Hb]. destruct base as [b|]; [|discriminate].
    destruct (owned_inv lm top b Hi) as (lm' & Eo & Hi' & El & Ee). exists None, lm', b, None. rewrite Eo.
    split; [reflexivity|]. split; [exact Hi'|]. split; [congruence|]. split; [exact Hb|]. split; [exact El|]. rewrite El.
    intros l E. specialize (Hr' l E). cbn. cbn in Hr'. rewrite map_size_empty. lia.
Qed.

Lemma room_run (ops : list LimOp) lm top base :
  limited_inv lm top base -> last_error lm = None -> Forall in_range ops -> bracketed (bool_decide (is_Some base)) ops = true ->
  room (limit_of (limiter lm)) (size top + size (default ∅ base) + length ops) ->
  exists os lm', limited_run lm ops = Ok (os, lm') /\ last_error lm' = None.
Proof.
  intros Hi He Ho. revert lm top base Hi He. induction Ho as [|op ops Hop _ IH]; intros lm top base Hi He Hb Hr; [cbn; eauto|].
  destruct (room_step lm top base op ops (length ops) Hi He Hop Hb Hr) as (o & lm1 & top1 & base1 & E1 & Hi1 & He1 & Hb1 & _ & Hr1).
  destruct (IH lm1 top1 base1 Hi1 He1 Hb1 Hr1) as (os & lm2 & E2 & He2). cbn [limited_run]. rewrite E1. cbn [bind]. rewrite E2. eauto.
Qed.

(** ** The recorded error *)

(** The first error stays; what it leaves of the memory is not changed by
    further accesses, only by the snapshot operations. *)
Lemma error_step lm (op : LimOp) (o : option T) lm' (e : ExecutionError) :
  last_error lm = Some e -> limited_step lm op = Ok (o, lm') ->
  last_error lm' = Some e /\
  match op with
  | LGet _ => o = Some (dummy_value lm) /\ lm' = lm
  | LInsert _ _ => lm' = lm
  | LGetMut _ f => o = Some (dummy_value lm) /\ lm' = with_dummy lm (f (dummy_value lm))
  | LCopyOnWrite | LOwned => True
  end.
Proof.
  intros He E. destruct lm as [m l b e0 d]. cbn in He. subst e0.
  destruct op as [addr | addr v | addr f | |]; cbn in E.
  - apply Ok_inj in E. injection E as <- <-. auto.
  - apply Ok_inj in E. injection E as <- <-. auto.
  - apply Ok_inj in E. injection E as <- <-. auto.
  - apply Ok_inj in E. injection E as <- <-. auto.
  - unfold owned in E. cbn in E. destruct b; cbn in E; [|discriminate]. apply Ok_inj in E. injection E as <- <-. auto.
Qed.
End Limited.
Arguments LGet {T} addr.
Arguments LInsert {T} addr value.
Arguments LGetMut {T} addr f.
Arguments LCopyOnWrite {T}.
Arguments LOwned {T}.

(** ** The executor's interface *)

#[export] Instance limited_memory : MemoryOps (LimitedMemory.LimitedMemory MemValue) := {
  mem_get := LimitedMemory.get;
  mem_get_mut := LimitedMemory.get_mut MemValue_default;
  has_last_error := LimitedMemory.has_last_error
}.

Section Interface.
Import LimitedMemory.
Implicit Types (lm : LimitedMemory.LimitedMemory MemValue) (top : gmap Z MemValue) (base : option (gmap Z MemValue)).

Lemma represents_unique {T} (m : PagedMemory.PagedMemory T) (g g' : gmap Z T) : represents m g -> represents m g' -> g = g'.
Proof.
  intros (Hw & Hk & Hg) (_ & Hk' & Hg'). apply map_eq. intros a.
  assert (Hin : forall v, g !! a = Some v -> g' !! a = Some v).
  { intros v E. destruct (Hk a v E) as [Ha Hm]. rewrite <- (word_of_aligned a Hm), <- Hg', Hg, word_of_aligned by assumption. exact E. }
  destruct (g !! a) as [v|] eqn:E; [symmetry; auto|]. destruct (g' !! a) as [v|] eqn:E'; [|reflexivity].
  destruct (Hk' a v E') as [Ha Hm]. rewrite <- E, <- E'. rewrite <- (word_of_aligned a Hm), <- Hg', <- Hg by exact Ha. reflexivity.
Qed.

Lemma cow_rep_unique {T} (m : MaybeCowMemory.MaybeCowMemory T) (top top' : gmap Z T) (base base' : option (gmap Z T)) :
  cow_rep m top base -> cow_rep m top' base' -> top = top' /\ base = base'.
Proof.
  destruct m as [copy original | mem], base as [b|], base' as [b'|]; cbn; try contradiction.
  - intros [H1 H2] [H1' H2']. split; [exact (represents_unique _ _ _ H1 H1') | f_equal; exact (represents_unique _ _ _ H2 H2')].
  - intros H1 H2. split; [exact (represents_unique _ _ _ H1 H2) | reflexivity].
Qed.

(** A doubleword the memory holds, whose access cannot exceed the limit: there
    is none, or the doubleword has an entry already. *)
Definition limited_holds lm (addr v : Z) : Prop :=
  exists top base, limited_inv lm top base /\ last_error lm = None /\ word_address addr /\
    mv_value (default MemValue_default (view top base !! addr)) = v /\
    (limit_of (limiter lm) = None \/ is_Some (top !! addr)).

Lemma limited_holds_get lm (addr v : Z) : limited_holds lm addr v ->
  exists o, mem_get lm addr = Ok (o, lm) /\ mv_value (default MemValue_default o) = v.
Proof.
  intros (top & base & Hi & He & Ha & Hv & _). cbn [mem_get limited_memory]. unfold get. rewrite check_ptr_same by exact Ha.
  unfold has_last_error. rewrite He, (cow_get _ top base addr (li_rep _ _ _ Hi) Ha). cbn [bind]. eauto.
Qed.

Lemma charge_quiet lm top base (addr : Z) (mem : MaybeCowMemory.MaybeCowMemory MemValue) :
  limited_inv lm top base -> last_error lm = None -> limit_of (limiter lm) = None \/ is_Some (top !! addr) ->
  last_error (charge lm (match top !! addr with None => true | Some _ => false end) mem) = None.
Proof.
  intros Hi He Hq. unfold charge. destruct (top !! addr) as [old|] eqn:E; [exact He|].
  destruct Hq as [Hq | [y Hy]]; [|discriminate]. unfold increase. destruct (limiter lm); [|discriminate]. cbn. rewrite He. reflexivity.
Qed.

Lemma limited_holds_get_mut lm (addr v : Z) : limited_holds lm addr v ->
  exists mv write, mem_get_mut lm addr = Ok (mv, write) /\ mv_value mv = v /\
    forall x, limited_holds (write x) addr (mv_value x) /\
      forall addr' v', addr' <> addr -> limited_holds lm addr' v' -> limited_holds (write x) addr' v'.
Proof.
  intros (top & base & Hi & He & Ha & Hv & Hq). cbn [mem_get_mut limited_memory]. unfold get_mut.
  rewrite check_ptr_same by exact Ha. unfold has_last_error at 1. rewrite He.
  destruct (cow_entry _ top base addr (li_rep _ _ _ Hi) Ha) as (e & dup & -> & Ev & Hd & Hp). cbn [bind].
  fold (vacant e). rewrite Hd. set (mv := default MemValue_default (view top base !! addr)) in *.
  assert (Ho : Entry.or_insert e MemValue_default = (mv, Entry.put e)) by (unfold mv; rewrite <- Ev; destruct e; reflexivity).
  rewrite Ho. eexists mv, _. split; [reflexivity|]. split; [exact Hv|]. intros x.
  destruct (charge_inv lm top base addr x _ Hi He (Hp x)) as (Hi' & El & _).
  pose proof (charge_quiet lm top base addr (Entry.put e x) Hi He Hq) as He'. unfold charge in Hi', El, He'.
  split.
  - exists (<[addr := x]> top), base. split; [exact Hi'|]. split; [exact He'|]. split; [exact Ha|].
    unfold view. rewrite <- insert_union_l, !lookup_insert_eq. split; [reflexivity | right; eauto].
  - intros addr' v' Hne (top2 & base2 & Hi2 & _ & Ha' & Hv' & Hq').
    destruct (cow_rep_unique _ _ _ _ _ (li_rep _ _ _ Hi) (li_rep _ _ _ Hi2)) as [<- <-].
    exists (<[addr := x]> top), base. split; [exact Hi'|]. split; [exact He'|]. split; [exact Ha'|].
    unfold view in *. rewrite <- insert_union_l, !lookup_insert_ne, El by congruence. auto.
Qed.
End Interface.

#[export] Instance limited_memory_laws : MemoryLaws (LimitedMemory.LimitedMemory MemValue) := {
  mem_holds := limited_holds;
  mem_holds_get := limited_holds_get;
  mem_holds_get_mut := limited_holds_get_mut
}.

(** *** Values stay 64-bit *)

Section Values.
Import LimitedMemory.
Implicit Types (lm : LimitedMemory.LimitedMemory MemValue) (top : gmap Z MemValue) (base : option (gmap Z MemValue)).

Definition values_u64 (g : gmap Z MemValue) : Prop := map_Forall (fun _ x => is_u64 (mv_value x)) g.

Definition limited_wf lm : Prop :=
  is_u64 (mv_value (dummy_value lm)) /\
  exists top base, cow_rep (memory lm) top base /\ values_u64 top /\ values_u64 (default ∅ base).

Lemma view_u64 top base (addr : Z) : values_u64 top -> values_u64 (default ∅ base) ->
  is_u64 (mv_value (default MemValue_default (view top base !! addr))).
Proof. intros Ht Hb. apply default_u64. apply map_Forall_union_2; assumption. Qed.

(** An access that succeeds is to a doubleword in range. *)
Lemma cow_in_space {T} (m : MaybeCowMemory.MaybeCowMemory T) (top : gmap Z T) (base : option (gmap Z T)) (addr : Z) :
  cow_rep m top base -> 0 <= addr ->
  (exists o, MaybeCowMemory.get m addr = Ok o) \/ (exists e, MaybeCowMemory.entry m addr = Ok e) -> word_address addr.
Proof.
  intros Hr H0 Hok. destruct (is_multiple_of addr 8) eqn:Ea;
    [|destruct Hok as [[o E] | [e E]]; unfold MaybeCowMemory.get, MaybeCowMemory.entry in E; rewrite Ea in E; discriminate].
  split; [|apply Z.eqb_eq, Ea]. split; [exact H0|].
  destruct (Z_lt_le_dec addr (2 ^ MAX_LOG_ADDR)) as [|Hge]; [assumption|]. exfalso.
  assert (Hw : match m with MaybeCowMemory.Cow copy _ => paged_wf copy | MaybeCowMemory.Owned mem => paged_wf mem end)
    by (destruct m, base; cbn in Hr; try contradiction; apply Hr).
  destruct Hok as [[o E] | [e E]]; unfold MaybeCowMemory.get, MaybeCowMemory.entry, MaybeCowMemory.duplicate in E;
    rewrite Ea in E; cbn [assertb bind] in E; destruct m as [copy original | mem];
    destruct (paged_step_panics _ addr Hw Hge) as (Eg & _ & En & _); repeat first [rewrite Eg in E | rewrite En in E | progress cbn [bind] in E]; discriminate.
Qed.

Lemma limited_get_wf lm (addr : Z) (o : option MemValue) lm' :
  limited_wf lm -> is_u64 addr -> mem_get lm addr = Ok (o, lm') ->
  is_u64 (mv_value (default MemValue_default o)) /\ limited_wf lm'.
Proof.
  intros (Hd & top & base & Hr & Ht & Hb) Ha E. cbn [mem_get limited_memory] in E. unfold get in E.
  destruct (has_last_error (check_ptr lm addr false)).
  - apply Ok_inj in E. injection E as <- <-. split; [exact Hd|]. split; [exact Hd | eauto].
  - apply bind_ok in E as (v & Ev & E). apply Ok_inj in E. injection E as <- <-. cbn [memory check_ptr] in Ev.
    pose proof (cow_in_space _ top base addr Hr (proj1 Ha) (or_introl (ex_intro _ _ Ev))) as Hs.
    rewrite (cow_get _ top base addr Hr Hs) in Ev. apply Ok_inj in Ev as <-.
    split; [apply view_u64; assumption|]. split; [exact Hd | eauto].
Qed.

Lemma limited_get_mut_wf lm (addr : Z) (mv : MemValue) (write : MemValue -> LimitedMemory.LimitedMemory MemValue) :
  limited_wf lm -> is_u64 addr -> mem_get_mut lm addr = Ok (mv, write) ->
  is_u64 (mv_value mv) /\ forall x, is_u64 (mv_value x) -> limited_wf (write x).
Proof.
  intros (Hd & top & base & Hr & Ht & Hb) Ha E. cbn [mem_get_mut limited_memory] in E. unfold get_mut in E.
  destruct (has_last_error (check_ptr lm addr true)).
  - apply Ok_inj in E. injection E as <- <-. split; [exact Hd|]. intros x Hx. split; [exact Hx|].
    exists top, base. auto.
  - apply bind_ok in E as ([e dup] & Ee & E). cbn [memory check_ptr] in Ee.
    pose proof (cow_in_space _ top base addr Hr (proj1 Ha) (or_intror (ex_intro _ _ Ee))) as Hs.
    destruct (cow_entry _ top base addr Hr Hs) as (e' & dup' & Ee' & Ev & _ & Hp). rewrite Ee in Ee'.
    apply Ok_inj in Ee'. injection Ee' as <- <-.
    assert (Ho : Entry.or_insert e MemValue_default = (default MemValue_default (view top base !! addr), Entry.put e))
      by (rewrite <- Ev; destruct e; reflexivity).
    rewrite Ho in E. apply Ok_inj in E. injection E as <- <-. split; [apply view_u64; assumption|]. intros x Hx.
    assert (Hw : forall m', memory m' = Entry.put e x -> dummy_value m' = dummy_value lm -> limited_wf m').
    { intros m' Em Ed. split; [rewrite Ed; exact Hd|]. rewrite Em. exists (<[addr := x]> top), base.
      split; [apply Hp|]. split; [apply map_Forall_insert_2; assumption | exact Hb]. }
    destruct (dup || _); apply Hw; unfold increase; try destruct (Limiter.increase _); reflexivity.
Qed.
End Values.

#[export] Instance limited_memory_inv : MemoryInv (LimitedMemory.LimitedMemory MemValue) := {
  mem_wf := limited_wf;
  mem_get_wf := limited_get_wf;
  mem_get_mut_wf := limited_get_mut_wf
}.
