(* ===== verification/Curves.v ===== *)
(** * Elliptic curves

    The arithmetic of the crate [curves] on affine points with coordinates in
    big integers: addition and doubling on short Weierstrass curves
    ([weierstrass/mod.rs]), decompression of Ed25519 points
    ([edwards/ed25519.rs]), and points as lists of words ([lib.rs]).  The
    integers of the crates [num] and [dashu] are [Z], with a panic where a
    difference is negative. *)

From stdpp Require Import base list.
From Stdlib Require Import ZArith Lia.
From S2P Require Import Prelude Words.
Open Scope Z_scope.

(** ** Big integers *)

(** The full chunks of eight bytes, and what is left. *)
Fixpoint as_chunks (fuel : nat) (bytes : list Z) : list (list Z) * list Z :=
  match fuel with
  | O => ([], bytes)
  | S fuel =>
      if (length bytes <? 8)%nat then ([], bytes)
      else let (chunks, remainder) := as_chunks fuel (drop 8 bytes) in (take 8 bytes :: chunks, remainder)
  end.

Definition from_bytes_le (bytes : list Z) : Z := le_value 8 bytes.
Definition words_to_bytes_le_vec (words : list Z) : list Z := flat_map to_le_bytes words.
Definition bytes_to_words_le (bytes : list Z) : list Z := map (le_value 8) (fst (as_chunks (length bytes) bytes)).

(** A subtraction of unsigned big integers panics below zero. *)
Definition big_sub (a b : Z) : Res Z := if b <=? a then Ok (a - b) else Panic.

(** [while exp > 0]; every turn halves the exponent. *)
Fixpoint modpow_loop (fuel : nat) (base exp modulus result : Z) : Z :=
  match fuel with
  | O => result
  | S fuel =>
      if 0 <? exp then
        let result := if exp mod 2 =? 1 then (result * base) mod modulus else result in
        modpow_loop fuel ((base * base) mod modulus) (Z.shiftr exp 1) modulus result
      else result
  end.

Definition dashu_modpow (base exponent modulus : Z) : Z :=
  if modulus =? 1 then 0
  else modpow_loop (Z.to_nat (Z.log2 exponent) + 1) (base mod modulus) exponent modulus 1.

(** ** Fields and curves *)

(** [FieldParameters] with [NumWords]: the modulus, and the words of an element
    and of a pair. *)
Record FpOpField : Set := mkFpOpField { MODULUS : Z; WordsFieldElement : nat; WordsCurvePoint : nat }.
Definition Bls12381BaseField : FpOpField := mkFpOpField
  0x1a0111ea397fe69a4b1ba7b6434bacd764774b84f38512bf6730d2a0f6b0f6241eabfffeb153ffffb9feffffffffaaab
  6 12.
Definition Bn254BaseField : FpOpField := mkFpOpField
  0x30644e72e131a029b85045b68181585d97816a916871ca8d3c208c16d87cfd47 4 8.
Definition Secp256r1BaseField : FpOpField := mkFpOpField
  0xffffffff00000001000000000000000000000000ffffffffffffffffffffffff 4 8.
Definition Ed25519BaseField : FpOpField := mkFpOpField (Z.shiftl 1 255 - 19) 4 8.

Record AffinePoint : Set := mkAffinePoint { px : Z; py : Z }.

Record WeierstrassParameters : Set := mkWeierstrassParameters {
  BaseField : FpOpField;
  a_int : Z;
  b_int : Z;
  generator : AffinePoint
}.

Definition Bn254Parameters : WeierstrassParameters := mkWeierstrassParameters Bn254BaseField 0 3 (mkAffinePoint 1 2).
Definition Secp256r1Parameters : WeierstrassParameters := mkWeierstrassParameters Secp256r1BaseField
  0xffffffff00000001000000000000000000000000fffffffffffffffffffffffc
  0x5ac635d8aa3a93e7b3ebbd55769886bc651d06b0cc53b0f63bce3c3e27d2604b
  (mkAffinePoint
     48439561293906451759052585252797914202762949526041747995844080717082404635286
     36134250956749795798585127919587881956611106672985015071877198253568414405109).
Definition Bls12381Parameters : WeierstrassParameters := mkWeierstrassParameters Bls12381BaseField 0 4
  (mkAffinePoint
     3685416753713387016781088315183077757961620795782546409894578378688607592378376318836054947676345821548104185464507
     1339506544944476473020471379941921221584933875938349620426543736416511423956333506472724655353366534992391756441569).

(** [sw_add] and [sw_double], without the feature [bigint-rug]. *)
Definition sw_add (E : WeierstrassParameters) (self other : AffinePoint) : Res AffinePoint :=
  assert! (negb ((px self =? px other) && (py self =? py other))) ;;
  let p := MODULUS (BaseField E) in
  let* dy := big_sub (p + py other) (py self) in
  let slope_numerator := dy mod p in
  let* dx := big_sub (p + px other) (px self) in
  let slope_denominator := dx mod p in
  let* exponent := big_sub p 2 in
  let slope_denom_inverse := dashu_modpow slope_denominator exponent p in
  let slope := (slope_numerator * slope_denom_inverse) mod p in
  let* x := big_sub (slope * slope + p + p) (px self) in
  let* x := big_sub x (px other) in
  let x_3n := x mod p in
  let* d := big_sub (p + px self) x_3n in
  let* y := big_sub (slope * d + p) (py self) in
  let y_3n := y mod p in
  Ok (mkAffinePoint x_3n y_3n).

Definition sw_double (E : WeierstrassParameters) (self : AffinePoint) : Res AffinePoint :=
  let p := MODULUS (BaseField E) in
  let a := a_int E in
  let slope_numerator := (a + (px self * px self) * 3) mod p in
  let slope_denominator := (py self * 2) mod p in
  let* exponent := big_sub p 2 in
  let slope_denom_inverse := dashu_modpow slope_denominator exponent p in
  let slope := (slope_numerator * slope_denom_inverse) mod p in
  let* x := big_sub (slope * slope + p + p) (px self) in
  let* x := big_sub x (px self) in
  let x_3n := x mod p in
  let* d := big_sub (p + px self) x_3n in
  let* y := big_sub (slope * d + p) (py self) in
  let y_3n := y mod p in
  Ok (mkAffinePoint x_3n y_3n).

(** The trait [EllipticCurve]: the words of a point, addition, doubling. *)
Record EllipticCurve : Set := mkEllipticCurve {
  curve_words : nat;
  ec_add : AffinePoint -> AffinePoint -> Res AffinePoint;
  ec_double : AffinePoint -> Res AffinePoint
}.

Definition SwCurve (E : WeierstrassParameters) : EllipticCurve :=
  mkEllipticCurve (WordsCurvePoint (BaseField E)) (sw_add E) (sw_double E).

(** Points as words, the coordinates one after the other. *)
Definition from_words_le (words : list Z) : AffinePoint :=
  let half := (length words / 2)%nat in
  mkAffinePoint (from_bytes_le (words_to_bytes_le_vec (take half words)))
                (from_bytes_le (words_to_bytes_le_vec (drop half words))).

Definition to_words_le (num_words : nat) (point : AffinePoint) : list Z :=
  let num_bytes := (num_words * 8)%nat in
  let half_words := (num_words / 2)%nat in
  let x_bytes := le_bytes (num_bytes / 2) (px point) in
  let y_bytes := le_bytes (num_bytes / 2) (py point) in
  take half_words (bytes_to_words_le x_bytes) ++ take half_words (bytes_to_words_le y_bytes).

(** ** Ed25519 *)

Definition d_biguint : Z := from_bytes_le
  [163; 120; 89; 19; 202; 77; 235; 117; 171; 216; 65; 65; 77; 10; 112; 0; 152; 232; 121; 119;
   121; 64; 199; 140; 115; 254; 111; 43; 238; 108; 3; 82].

(** [BigUint::modpow] is the same function. *)
Definition ed25519_sqrt (a : Z) : Res (option Z) :=
  let modulus := MODULUS Ed25519BaseField in
  let beta := dashu_modpow a 7237005577332262213973186563042994240829374041602535252466099000494570602494 modulus in
  let sqrt_m1 := 19681161376707505956807079304988542015446066515923890162744021073123829784752 in
  let beta_squared := (beta * beta) mod modulus in
  let* neg_a := big_sub modulus a in
  let beta := if beta_squared =? neg_a then (beta * sqrt_m1) mod modulus else beta in
  let correct_sign_sqrt := beta_squared =? a in
  let flipped_sign_sqrt := beta_squared =? neg_a in
  if negb correct_sign_sqrt && negb flipped_sign_sqrt then Ok None
  else if Z.land beta 1 =? 1 then let* b := big_sub modulus beta in Ok (Some (b mod modulus))
  else Ok (Some beta).

Definition decompress (compressed_point : list Z) : Res (option AffinePoint) :=
  let* last := of_option (compressed_point !! 31%nat) in
  let sign := Z.shiftr last 7 =? 1 in
  let point_bytes := <[31%nat := Z.land last 0x7f]> compressed_point in
  let modulus := MODULUS Ed25519BaseField in
  let y := from_bytes_le point_bytes in
  let yy := (y * y) mod modulus in
  let* u := big_sub (yy + modulus) 1 in
  let u := u mod modulus in
  let v := (yy * d_biguint + 1) mod modulus in
  let* exponent := big_sub modulus 2 in
  let v_inv := dashu_modpow v exponent modulus in
  let u_div_v := (u * v_inv) mod modulus in
  let* x := ed25519_sqrt u_div_v in
  match x with
  | None => Ok None
  | Some x =>
      let* x := if sign then let* n := big_sub modulus x in Ok (n mod modulus) else Ok x in
      Ok (Some (mkAffinePoint x y))
  end.
