(* ===== verification/CurveFacts.v ===== *)
(** * Facts about the elliptic curves

    Modular powers, the chord and the tangent rule, and the square roots of
    Ed25519. *)

From stdpp Require Import base list.
From Stdlib Require Import ZArith Lia Znumtheory Zmod.
From S2P Require Import Prelude Words Curves.
Open Scope Z_scope.

(** ** Powers *)

Lemma modpow_loop_spec (fuel : nat) (b e m r : Z) :
  0 <= e < 2 ^ Z.of_nat fuel -> 1 < m -> 0 <= r < m -> modpow_loop fuel b e m r = (r * b ^ e) mod m.
Proof.
  revert b e r. induction fuel as [|fuel IH]; intros b e r He Hm Hr; cbn [modpow_loop].
  - cbn in He. replace e with 0 by lia. rewrite Z.mul_1_r, Z.mod_small by lia. reflexivity.
  - destruct (Z.ltb_spec 0 e) as [Hpos|Hz].
    2:{ replace e with 0 by lia. rewrite Z.mul_1_r, Z.mod_small by lia. reflexivity. }
    rewrite Z.shiftr_div_pow2, Z.pow_1_r by lia. rewrite Nat2Z.inj_succ, Z.pow_succ_r in He by lia.
    assert (Hr' : 0 <= (if e mod 2 =? 1 then (r * b) mod m else r) < m)
      by (destruct (_ =? 1); [apply Z.mod_pos_bound; lia | lia]).
    rewrite IH by (dlia || assumption). rewrite Z.mul_mod, Z.mod_pow_l, <- Z.mul_mod by lia.
    assert (E : b ^ e = (b * b) ^ (e / 2) * b ^ (e mod 2)).
    { rewrite <- Z.pow_2_r, <- Z.pow_mul_r, <- Z.pow_add_r by dlia. f_equal. dlia. }
    rewrite E. destruct (Z.eqb_spec (e mod 2) 1) as [E1|E1].
    + rewrite E1, Z.pow_1_r, Z.mul_mod_idemp_l by lia. f_equal. ring.
    + replace (e mod 2) with 0 by dlia. rewrite Z.pow_0_r, Z.mul_1_r. reflexivity.
Qed.

Lemma dashu_modpow_spec (b e m : Z) : 0 <= e -> 1 <= m -> dashu_modpow b e m = b ^ e mod m.
Proof.
  intros He Hm. unfold dashu_modpow. destruct (Z.eqb_spec m 1) as [-> |]; [rewrite Z.mod_1_r; reflexivity|].
  rewrite modpow_loop_spec; [rewrite Z.mul_1_l; apply Z.mod_pow_l | | lia | lia].
  split; [exact He|]. pose proof (Z.log2_nonneg e). rewrite Nat2Z.inj_add, Z2Nat.id by lia. change (Z.of_nat 1) with 1.
  destruct (Z.eq_dec e 0) as [-> |]; [apply pow2_pos; cbn; lia|]. apply Z.log2_spec. lia.
Qed.

(** The power [p - 2] is an inverse. *)
Definition inverts (p d : Z) : Prop := (d * dashu_modpow d (p - 2) p) mod p = 1.

Lemma prime_inverts (p d : Z) : Z.prime p -> d mod p <> 0 -> inverts p d.
Proof.
  intros Hp Hd. assert (2 <= p) by (destruct Hp; lia). unfold inverts. rewrite dashu_modpow_spec, Z.mul_mod_idemp_r by lia.
  rewrite <- Z.pow_succ_r by lia. replace (Z.succ (p - 2)) with (p - 1) by lia. apply Z.fermat_nz; assumption.
Qed.

Lemma mod_divide_sub (p a b : Z) : 0 < p -> a mod p = b mod p <-> (p | a - b).
Proof.
  intros Hp. split.
  - intros E. apply Z.mod_divide; [lia|]. rewrite Zminus_mod, E, Z.sub_diag. reflexivity.
  - intros [k E]. replace a with (b + k * p) by lia. apply Z_mod_plus_full.
Qed.

Lemma mod_self_divide (p a : Z) : 0 < p -> (p | a mod p - a).
Proof. intros Hp. apply mod_divide_sub; [exact Hp|]. apply Z.mod_mod. lia. Qed.

(** Divisibility of a linear combination. *)
Ltac divides := repeat first [assumption | solve [apply Z.divide_mul_l; assumption] | apply Z.divide_sub_r | apply Z.divide_add_r].

Lemma inverts_solves (p d n : Z) : 1 < p -> inverts p d -> (p | ((n * dashu_modpow d (p - 2) p) mod p) * d - n).
Proof.
  intros Hp Hi. unfold inverts in Hi. set (i := dashu_modpow d (p - 2) p) in *.
  pose proof (mod_self_divide p (n * i) ltac:(lia)) as H1.
  assert (H2 : (p | d * i - 1)) by (apply mod_divide_sub; [lia|]; rewrite Hi, Z.mod_small by lia; reflexivity).
  replace (((n * i) mod p) * d - n) with (((n * i) mod p - n * i) * d + (d * i - 1) * n) by ring. divides.
Qed.

Lemma inverts_cancel (p d x : Z) : 1 < p -> inverts p (d mod p) -> (p | d * x) -> (p | x).
Proof.
  intros Hp Hi Hx. unfold inverts in Hi. set (i := dashu_modpow _ _ _) in *.
  assert (H2 : (p | (d mod p) * i - 1)) by (apply mod_divide_sub; [lia|]; rewrite Hi, Z.mod_small by lia; reflexivity).
  pose proof (mod_self_divide p d ltac:(lia)) as H1.
  replace x with ((d * x) * i + (d mod p - d) * (x * i) - ((d mod p) * i - 1) * x) by ring. divides.
Qed.

(** ** The group law *)

Section Weierstrass.
Context (E : WeierstrassParameters).
Abbreviation p := (MODULUS (BaseField E)).

Definition on_curve (P : AffinePoint) : Prop := (p | py P * py P - (px P * px P * px P + a_int E * px P + b_int E)).
Definition canonical (P : AffinePoint) : Prop := 0 <= px P < p /\ 0 <= py P < p.

(** The third point of the line through [P] with slope [s], reflected. *)
Definition on_line (s : Z) (P Q R : AffinePoint) : Prop :=
  (p | px R - (s * s - px P - px Q)) /\ (p | py R - (s * (px P - px R) - py P)).

(** The chord through two points, the tangent at one. *)
Definition chord (P Q R : AffinePoint) : Prop :=
  exists s, (p | s * (px Q - px P) - (py Q - py P)) /\ on_line s P Q R.
Definition tangent (P R : AffinePoint) : Prop :=
  exists s, (p | s * (2 * py P) - (3 * (px P * px P) + a_int E)) /\ on_line s P P R.

Lemma chord_on_curve (P Q R : AffinePoint) :
  1 < p -> inverts p ((px Q - px P) mod p) -> on_curve P -> on_curve Q -> chord P Q R -> on_curve R.
Proof.
  intros Hp Hi HP HQ (s & Hs & Hx & Hy). apply (inverts_cancel p (px Q - px P)); [exact Hp | exact Hi|]. unfold on_curve in *.
  destruct P as [x1 y1], Q as [x2 y2], R as [x3 y3]. cbn [px py] in *. set (a := a_int E) in *. set (b := b_int E) in *.
  replace ((x2 - x1) * (y3 * y3 - (x3 * x3 * x3 + a * x3 + b))) with
    ((y3 - (s * (x1 - x3) - y1)) * ((x2 - x1) * (y3 + (s * (x1 - x3) - y1))) +
     (y1 * y1 - (x1 * x1 * x1 + a * x1 + b)) * (x2 - x3) +
     (y2 * y2 - (x2 * x2 * x2 + a * x2 + b)) * (x3 - x1) +
     (s * (x2 - x1) - (y2 - y1)) * ((2 * y2 + (s * (x2 - x1) - (y2 - y1))) * (x3 - x1)) -
     (x3 - (s * s - x1 - x2)) * ((x2 - x1) * (x3 - x1) * (x3 - x2))) by ring.
  divides.
Qed.

Lemma tangent_on_curve (P R : AffinePoint) : on_curve P -> tangent P R -> on_curve R.
Proof.
  intros HP (s & Hs & Hx & Hy). unfold on_curve in *. destruct P as [x1 y1], R as [x3 y3]. cbn [px py] in *.
  set (a := a_int E) in *. set (b := b_int E) in *.
  replace (y3 * y3 - (x3 * x3 * x3 + a * x3 + b)) with
    ((y3 - (s * (x1 - x3) - y1)) * (y3 + (s * (x1 - x3) - y1)) + (y1 * y1 - (x1 * x1 * x1 + a * x1 + b)) +
     (s * (2 * y1) - (3 * (x1 * x1) + a)) * (x3 - x1) - (x3 - (s * s - x1 - x1)) * ((x3 - x1) * (x3 - x1))) by ring.
  divides.
Qed.

Lemma big_sub_ok (a b : Z) : b <= a -> big_sub a b = Ok (a - b).
Proof. intros H. unfold big_sub. rewrite (proj2 (Z.leb_le b a)) by exact H. reflexivity. Qed.

(** The end of both functions, from the slope on. *)
Lemma from_slope (s : Z) (P Q : AffinePoint) :
  2 < p -> 0 <= s < p -> canonical P -> canonical Q ->
  exists R, (let* x := big_sub (s * s + p + p) (px P) in
    let* x := big_sub x (px Q) in
    let* d := big_sub (p + px P) (x mod p) in
    let* y := big_sub (s * d + p) (py P) in
    Ok (mkAffinePoint (x mod p) (y mod p))) = Ok R /\ canonical R /\ on_line s P Q R.
Proof.
  intros Hp Hs [Hx1 Hy1] [Hx2 Hy2]. assert (0 <= s * s) by nia.
  rewrite (big_sub_ok (s * s + p + p)) by lia. cbn [bind]. rewrite (big_sub_ok (_ - px P)) by lia. cbn [bind].
  set (x := s * s + p + p - px P - px Q). pose proof (Z.mod_pos_bound x p ltac:(lia)) as Hx3.
  rewrite (big_sub_ok (p + px P)) by lia. cbn [bind]. assert (0 <= s * (p + px P - x mod p)) by nia.
  rewrite (big_sub_ok _ (py P)) by lia. cbn [bind]. eexists. split; [reflexivity|].
  split; [split; apply Z.mod_pos_bound; lia|]. split; cbn [px py].
  - replace (x mod p - (s * s - px P - px Q)) with (x mod p - x + p * 2) by (unfold x; ring).
    apply Z.divide_add_r; [apply mod_self_divide; lia | apply Z.divide_factor_l].
  - set (y := s * (p + px P - x mod p) + p - py P).
    replace (y mod p - (s * (px P - x mod p) - py P)) with (y mod p - y + p * (s + 1)) by (unfold y; ring).
    apply Z.divide_add_r; [apply mod_self_divide; lia | apply Z.divide_factor_l].
Qed.

Lemma sub_mod_shift (a b : Z) : 2 < p -> (p + a - b) mod p = (a - b) mod p.
Proof. intros Hp. replace (p + a - b) with (a - b + 1 * p) by ring. apply Z_mod_plus_full. Qed.

Lemma sw_add_spec (P Q : AffinePoint) :
  2 < p -> canonical P -> canonical Q -> inverts p ((px Q - px P) mod p) ->
  exists R, sw_add E P Q = Ok R /\ canonical R /\ chord P Q R.
Proof.
  intros Hp HP HQ Hi. pose proof HP as [Hx1 Hy1]. pose proof HQ as [Hx2 Hy2]. unfold sw_add.
  assert (Hne : (px P =? px Q) = false).
  { apply Z.eqb_neq. intros Ex. unfold inverts in Hi. rewrite Ex, Z.sub_diag, (Zmod_0_l p) in Hi. rewrite Z.mul_0_l in Hi. discriminate Hi. }
  rewrite Hne. cbn [andb negb assertb bind]. rewrite (big_sub_ok _ (py P)), (big_sub_ok _ (px P)), (big_sub_ok p 2) by lia. cbn [bind].
  rewrite !sub_mod_shift by exact Hp.
  destruct (from_slope (((py Q - py P) mod p * dashu_modpow ((px Q - px P) mod p) (p - 2) p) mod p) P Q Hp
    ltac:(apply Z.mod_pos_bound; lia) HP HQ) as (R & ER & HR & HL).
  exists R. split; [exact ER|]. split; [exact HR|]. eexists. split; [|exact HL].
  set (s := (_ * _) mod p) in *. pose proof (inverts_solves p _ ((py Q - py P) mod p) ltac:(lia) Hi) as H1. fold s in H1.
  pose proof (mod_self_divide p (px Q - px P) ltac:(lia)) as H2. pose proof (mod_self_divide p (py Q - py P) ltac:(lia)) as H3.
  replace (s * (px Q - px P) - (py Q - py P)) with
    ((s * ((px Q - px P) mod p) - (py Q - py P) mod p) - ((px Q - px P) mod p - (px Q - px P)) * s + ((py Q - py P) mod p - (py Q - py P))) by ring.
  divides.
Qed.

Lemma sw_double_spec (P : AffinePoint) :
  2 < p -> canonical P -> inverts p ((2 * py P) mod p) ->
  exists R, sw_double E P = Ok R /\ canonical R /\ tangent P R.
Proof.
  intros Hp HP Hi. unfold sw_double. rewrite (big_sub_ok p 2) by lia. cbn [bind]. rewrite (Z.mul_comm (py P) 2).
  set (n := a_int E + px P * px P * 3).
  destruct (from_slope ((n mod p * dashu_modpow ((2 * py P) mod p) (p - 2) p) mod p) P P Hp
    ltac:(apply Z.mod_pos_bound; lia) HP HP) as (R & ER & HR & HL).
  exists R. split; [exact ER|]. split; [exact HR|]. eexists. split; [|exact HL].
  set (s := (n mod p * _) mod p) in *. pose proof (inverts_solves p _ (n mod p) ltac:(lia) Hi) as H1. fold s in H1.
  pose proof (mod_self_divide p (2 * py P) ltac:(lia)) as H2. pose proof (mod_self_divide p n ltac:(lia)) as H3.
  replace (s * (2 * py P) - (3 * (px P * px P) + a_int E)) with
    ((s * ((2 * py P) mod p) - n mod p) - ((2 * py P) mod p - 2 * py P) * s + (n mod p - n)) by (unfold n; ring).
  divides.
Qed.
End Weierstrass.

(** ** Ed25519 *)

(** A point of the curve -x^2 + y^2 = 1 + d x^2 y^2. *)
Definition on_edwards (P : AffinePoint) : Prop :=
  (MODULUS Ed25519BaseField | py P * py P - px P * px P - (1 + d_biguint * (px P * px P) * (py P * py P))).

(** *** Square roots modulo a prime that is 5 modulo 8 *)
Section SquareRoot.
Context (p r m1 : Z).
Hypothesis p_exponent : 8 * r = p + 3.
Hypothesis p_bound : 2 < p.
Hypothesis m1_square : (p | m1 * m1 + 1).

Lemma p_odd : p mod 2 = 1.
Proof. dlia. Qed.

Lemma land_one (x : Z) : Z.land x 1 = x mod 2.
Proof. apply (land_mask x 1). lia. Qed.

(** The function, for the modulus [p], the exponent [r] and the root [m1]. *)
Definition even_root (beta : Z) : Res (option Z) :=
  if Z.land beta 1 =? 1 then let* b := big_sub p beta in Ok (Some (b mod p)) else Ok (Some beta).
Definition sqrt_with (a : Z) : Res (option Z) :=
  let beta := dashu_modpow a r p in
  let beta_squared := (beta * beta) mod p in
  let* neg_a := big_sub p a in
  let beta := if beta_squared =? neg_a then (beta * m1) mod p else beta in
  if negb (beta_squared =? a) && negb (beta_squared =? neg_a) then Ok None else even_root beta.

Definition sqrt_ok (a : Z) (o : option Z) : Prop :=
  match o with
  | Some b => 0 <= b < p /\ b mod 2 = 0 /\ (p | b * b - a)
  | None => Z.prime p -> forall b, ~ (p | b * b - a)
  end.

Lemma even_root_spec (beta a : Z) : 0 <= beta < p -> (p | beta * beta - a) ->
  exists o, even_root beta = Ok o /\ sqrt_ok a o.
Proof.
  intros Hb Ha. pose proof p_odd as Hp. unfold even_root. rewrite land_one, big_sub_ok by lia. cbn [bind].
  destruct (Z.eqb_spec (beta mod 2) 1) as [E|E]; (eexists; split; [reflexivity|]).
  - assert (0 < beta) by dlia. rewrite Z.mod_small by lia. split; [lia|]. split; [dlia|].
    replace ((p - beta) * (p - beta) - a) with (p * (p - 2 * beta) + (beta * beta - a)) by ring.
    apply Z.divide_add_r; [apply Z.divide_factor_l | exact Ha].
  - split; [exact Hb|]. split; [dlia | exact Ha].
Qed.

Lemma fourth_power (a k : Z) : 0 <= k -> 4 * r = k + 2 -> a ^ r * a ^ r * (a ^ r * a ^ r) = a * a * a ^ k.
Proof.
  intros Hk E. rewrite <- !Z.pow_add_r by lia. replace (a * a) with (a ^ 2) by ring. rewrite <- Z.pow_add_r by lia. f_equal. lia.
Qed.

(** Euler's criterion: the square of the power is a root of the square of a
    square. *)
Lemma square_fourth_power (a b : Z) : Z.prime p -> a mod p <> 0 -> (p | b * b - a) ->
  (p | (a ^ r * a ^ r - a) * (a ^ r * a ^ r + a)).
Proof.
  intros Hp Ha Hb. assert (H0 : 0 < p) by lia. assert (Hk : exists k, p - 1 = 2 * k) by (exists ((p - 1) / 2); pose proof p_odd; dlia).
  destruct Hk as [k Hk]. assert (Hbp : b mod p <> 0).
  { intros E. apply Ha. apply Z.mod_divide in E; [|lia]. apply Z.mod_divide; [lia|].
    replace a with (b * b - (b * b - a)) by ring. apply Z.divide_sub_r; [apply Z.divide_mul_l, E | exact Hb]. }
  assert (Hak : (p | a ^ k - 1)).
  { apply mod_divide_sub; [exact H0|]. rewrite <- Z.mod_pow_l. apply mod_divide_sub in Hb; [|exact H0]. rewrite <- Hb, Z.mod_pow_l.
    rewrite <- Z.pow_2_r, <- Z.pow_mul_r, <- Hk, Z.fermat_nz, Z.mod_small by (assumption || lia). reflexivity. }
  pose proof (fourth_power a k ltac:(lia) ltac:(lia)) as E. set (q := a ^ r * a ^ r) in *. clearbody q.
  replace ((q - a) * (q + a)) with (q * q - a * a) by ring. rewrite E.
  replace (a * a * a ^ k - a * a) with ((a ^ k - 1) * (a * a)) by ring. apply Z.divide_mul_l, Hak.
Qed.

(** Without a root that passes the test there is none. *)
Lemma no_root (a b : Z) : 0 <= a < p -> Z.prime p -> (p | b * b - a) ->
  let beta := a ^ r mod p in (beta * beta) mod p = a \/ (beta * beta) mod p = p - a.
Proof.
  intros Ha Hp Hba. cbn zeta. destruct (Z.eq_dec a 0) as [-> | E0].
  { left. rewrite Z.pow_0_l, Zmod_0_l by lia. reflexivity. }
  pose proof (mod_self_divide p (a ^ r) ltac:(lia)) as Hpow.
  pose proof (square_fourth_power a b Hp ltac:(rewrite Z.mod_small; lia) Hba) as Hq. apply Z.divide_prime_mul in Hq; [|exact Hp].
  set (w := a ^ r) in *. set (beta := w mod p) in *. destruct Hq as [Hq|Hq]; [left | right].
  - rewrite <- (Z.mod_small a p) by lia. apply mod_divide_sub; [lia|].
    replace (beta * beta - a) with ((beta - w) * (beta + w) + (w * w - a)) by ring. divides.
  - rewrite <- (Z.mod_small (p - a) p) by lia. apply mod_divide_sub; [lia|].
    replace (beta * beta - (p - a)) with ((beta - w) * (beta + w) + (w * w + a) - p * 1) by ring. divides. apply Z.divide_factor_l.
Qed.

Lemma sqrt_with_spec (a : Z) : 0 <= a < p -> exists o, sqrt_with a = Ok o /\ sqrt_ok a o.
Proof.
  intros Ha. pose proof p_odd as Hp. unfold sqrt_with. rewrite (big_sub_ok p a), dashu_modpow_spec by lia. cbn [bind].
  set (beta := a ^ r mod p). pose proof (Z.mod_pos_bound (a ^ r) p ltac:(lia)) as Hb. fold beta in Hb.
  pose proof (Z.mod_pos_bound (beta * beta) p ltac:(lia)) as Hbb. pose proof (mod_self_divide p (beta * beta) ltac:(lia)) as Hd.
  destruct (Z.eqb_spec ((beta * beta) mod p) (p - a)) as [En|En]; destruct (Z.eqb_spec ((beta * beta) mod p) a) as [Ea|Ea]; cbn [negb andb].
  - exfalso. dlia.
  - apply even_root_spec; [apply Z.mod_pos_bound; lia|]. pose proof (mod_self_divide p (beta * m1) ltac:(lia)) as Hx. set (x := (beta * m1) mod p) in *.
    rewrite En in Hd. replace (x * x - a) with
      ((x - beta * m1) * (x + beta * m1) + (m1 * m1 + 1) * (beta * beta) + (p - a - beta * beta) - p * 1) by ring.
    divides. apply Z.divide_factor_l.
  - apply even_root_spec; [exact Hb|]. rewrite Ea in Hd. replace (beta * beta - a) with (- (a - beta * beta)) by ring. apply Z.divide_opp_r, Hd.
  - eexists. split; [reflexivity|]. intros Hpr b Hba. destruct (no_root a b Ha Hpr Hba); contradiction.
Qed.
End SquareRoot.

Abbreviation root_exponent := 7237005577332262213973186563042994240829374041602535252466099000494570602494.
Abbreviation root_m1 := 19681161376707505956807079304988542015446066515923890162744021073123829784752.

Lemma ed25519_sqrt_with (a : Z) : ed25519_sqrt a = sqrt_with (MODULUS Ed25519BaseField) root_exponent root_m1 a.
Proof. unfold ed25519_sqrt, sqrt_with, even_root. cbv zeta. reflexivity. Qed.

Lemma ed25519_sqrt_spec (a : Z) : 0 <= a < MODULUS Ed25519BaseField ->
  exists o, ed25519_sqrt a = Ok o /\ sqrt_ok (MODULUS Ed25519BaseField) a o.
Proof.
  rewrite ed25519_sqrt_with. apply sqrt_with_spec; [vm_compute; reflexivity | vm_compute; reflexivity|].
  apply Z.mod_divide; [discriminate|]. vm_compute. reflexivity.
Qed.

(** *** Points *)

(** The sign is the top bit of the last byte, which is masked out. *)
Lemma sign_bit (bytes : list Z) : length bytes = 32%nat -> Forall is_u8 bytes ->
  exists last, bytes !! 31%nat = Some last /\ Z.shiftr last 7 = from_bytes_le bytes / 2 ^ 255 /\
    from_bytes_le (<[31%nat := Z.land last 0x7f]> bytes) = from_bytes_le bytes mod 2 ^ 255 /\ 0 <= from_bytes_le bytes < 2 ^ 256.
Proof.
  intros Hl Hb. destruct (lookup_lt_is_Some_2 bytes 31 ltac:(lia)) as [last E]. exists last. split; [exact E|].
  pose proof (take_drop_middle bytes 31 last E) as Hs. rewrite (drop_ge bytes) in Hs by lia. set (l := take 31 bytes) in *.
  assert (Hll : length l = 31%nat) by (unfold l; rewrite length_take; lia).
  rewrite <- Hs in Hb |- *. apply Forall_app in Hb as [Hbl Hbt]. apply Forall_cons in Hbt as [Hbt _].
  rewrite insert_app_r_alt, Hll by lia. change (<[(31 - 31)%nat := Z.land last 0x7f]> [last]) with [Z.land last 0x7f]. unfold from_bytes_le. rewrite !le_value_app, Hll by lia. cbn [le_value].
  change (0x7f) with (2 ^ 7 - 1). rewrite land_mask, Z.shiftr_div_pow2 by lia.
  pose proof (le_value_bound 8 l ltac:(lia) Hbl) as Hlb. rewrite Hll in Hlb. change (8 * Z.of_nat 31) with 248 in *.
  set (v := le_value 8 l) in *. unfold is_u in Hbt. clearbody v.
  change (2 ^ 255) with (2 ^ 248 * 2 ^ 7). change (2 ^ 256) with (2 ^ 248 * 2 ^ 8). set (q := 2 ^ 248) in *. assert (Hq : 0 < q) by reflexivity. clearbody q.
  rewrite !Z.mul_0_r, !Z.add_0_r. assert (Hd : (v + q * last) / q = last) by (rewrite Z.mul_comm, Z.div_add, Z.div_small by lia; lia).
  assert (Hm : (v + q * last) mod q = v) by (rewrite Z.mul_comm, Z_mod_plus_full, Z.mod_small by lia; reflexivity).
  split; [rewrite <- Z.div_div, Hd by lia; reflexivity|]. split; [rewrite Z.rem_mul_r, Hm, Hd by lia; reflexivity|]. nia.
Qed.

(** The decompression over any modulus, curve constant and square root. *)
Section Decompress.
Context (p d : Z) (sqrt : Z -> Res (option Z)).
Context (p_big : 2 < p) (p_odd : p mod 2 = 1).
Context (sqrt_correct : forall a, 0 <= a < p -> exists o, sqrt a = Ok o /\ sqrt_ok p a o).

Definition edwards_equation (x y : Z) : Prop := (p | y * y - x * x - (1 + d * (x * x) * (y * y))).

Definition decompress_with (sign : bool) (y : Z) : Res (option AffinePoint) :=
  let yy := (y * y) mod p in
  let* u := big_sub (yy + p) 1 in
  let u := u mod p in
  let v := (yy * d + 1) mod p in
  let* exponent := big_sub p 2 in
  let v_inv := dashu_modpow v exponent p in
  let u_div_v := (u * v_inv) mod p in
  let* x := sqrt u_div_v in
  match x with
  | None => Ok None
  | Some x =>
      let* x := if sign then let* n := big_sub p x in Ok (n mod p) else Ok x in
      Ok (Some (mkAffinePoint x y))
  end.

Definition decompressed_with (sign : bool) (y : Z) (o : option AffinePoint) : Prop :=
  match o with
  | Some pt => py pt = y /\ 0 <= px pt < p /\ edwards_equation (px pt) (py pt) /\ (px pt = 0 \/ px pt mod 2 = Z.b2z sign)
  | None => Z.prime p -> forall x, ~ edwards_equation x y
  end.

Lemma ratio_square (y u v w q x : Z) :
  (p | u - (y * y - 1)) -> (p | v - (y * y * d + 1)) -> (p | v * w - 1) -> (p | q - u * w) ->
  (p | x * x - q) <-> edwards_equation x y.
Proof.
  intros Hu Hv Hw Hq. unfold edwards_equation. split; intros H.
  - replace (y * y - x * x - (1 + d * (x * x) * (y * y))) with ((v - (y * y * d + 1)) * (x * x) - (u - (y * y - 1)) -
      (x * x - q) * v - (q - u * w) * v - (v * w - 1) * u) by ring. divides.
  - replace (x * x - q) with ((v - (y * y * d + 1)) * (x * x * w) - (u - (y * y - 1)) * w -
      (y * y - x * x - (1 + d * (x * x) * (y * y))) * w - (q - u * w) * (v * w) - (v * w - 1) * (u * w) - (v * w - 1) * (x * x - q)) by ring.
    divides.
Qed.

Lemma negated_root (q x : Z) : (p | x * x - q) -> let z := (p - x) mod p in (p | z * z - q).
Proof.
  intros H z. pose proof (mod_self_divide p (p - x) ltac:(lia)) as Hr. fold z in Hr.
  replace (z * z - q) with ((z - (p - x)) * (z + (p - x)) + (x * x - q) + p * (p - 2 * x)) by ring. divides. apply Z.divide_factor_l.
Qed.

Lemma decompress_with_spec (sign : bool) (y : Z) : inverts p ((y * y * d + 1) mod p) ->
  exists o, decompress_with sign y = Ok o /\ decompressed_with sign y o.
Proof.
  intros Hi. unfold decompress_with. pose proof (Z.mod_pos_bound (y * y) p ltac:(lia)) as Hyy.
  rewrite (big_sub_ok (_ + p) 1), (big_sub_ok p 2) by lia. cbn [bind].
  assert (Ev : ((y * y) mod p * d + 1) mod p = (y * y * d + 1) mod p)
    by (rewrite <- Zplus_mod_idemp_l, Z.mul_mod_idemp_l, Zplus_mod_idemp_l by lia; reflexivity).
  rewrite Ev. set (u := ((y * y) mod p + p - 1) mod p). set (v := (y * y * d + 1) mod p) in *.
  set (w := dashu_modpow v (p - 2) p). set (q := (u * w) mod p).
  assert (Hu : (p | u - (y * y - 1))).
  { unfold u. apply mod_divide_sub; [lia|]. rewrite Z.mod_mod by lia. replace ((y * y) mod p + p - 1) with ((y * y) mod p - 1 + 1 * p) by ring.
    rewrite Z_mod_plus_full, Zminus_mod_idemp_l. reflexivity. }
  assert (Hv : (p | v - (y * y * d + 1))) by (apply mod_self_divide; lia).
  assert (Hw : (p | v * w - 1)) by (apply mod_divide_sub; [lia|]; unfold inverts in Hi; fold w in Hi; rewrite Hi, Z.mod_small by lia; reflexivity).
  assert (Hq : (p | q - u * w)) by (apply mod_self_divide; lia).
  pose proof (fun x => ratio_square y u v w q x Hu Hv Hw Hq) as Hon.
  destruct (sqrt_correct q (Z.mod_pos_bound _ p ltac:(lia))) as (o & -> & Ho). cbn [bind]. destruct o as [x|]; cbn [sqrt_ok] in Ho.
  - destruct Ho as (Hx & Hxe & Hxq). destruct sign; cbn [bind]; rewrite ?big_sub_ok by lia; cbn [bind]; (eexists; split; [reflexivity|]);
      (split; [reflexivity|]); cbn [px py Z.b2z].
    + split; [apply Z.mod_pos_bound; lia|]. split; [apply Hon, negated_root, Hxq|].
      destruct (Z.eq_dec x 0) as [-> | Hne]; [left; rewrite Z.sub_0_r; apply Z_mod_same_full|]. right. rewrite (Z.mod_small (p - x)) by lia. dlia.
    + split; [exact Hx|]. split; [apply Hon, Hxq | right; exact Hxe].
  - eexists. split; [reflexivity|]. intros Hpr x Hx. exact (Ho Hpr x (proj2 (Hon x) Hx)).
Qed.
End Decompress.

(** What decompressing the 32 bytes of [n] has to give. *)
Definition decompressed (n : Z) (o : option AffinePoint) : Prop :=
  let p := MODULUS Ed25519BaseField in
  let y := n mod 2 ^ 255 in
  match o with
  | Some pt => py pt = y /\ 0 <= px pt < p /\ on_edwards pt /\ (px pt = 0 \/ px pt mod 2 = n / 2 ^ 255)
  | None => Z.prime p -> forall x, ~ on_edwards (mkAffinePoint x y)
  end.

Lemma decompress_is_with (bytes : list Z) (last : Z) : bytes !! 31%nat = Some last ->
  decompress bytes = decompress_with (MODULUS Ed25519BaseField) d_biguint ed25519_sqrt (Z.shiftr last 7 =? 1)
    (from_bytes_le (<[31%nat := Z.land last 0x7f]> bytes)).
Proof.
  intros E. unfold decompress, decompress_with. rewrite E. cbn [of_option bind]. reflexivity.
Qed.

Lemma decompress_spec (bytes : list Z) : length bytes = 32%nat -> Forall is_u8 bytes ->
  let n := from_bytes_le bytes in
  let y := n mod 2 ^ 255 in
  inverts (MODULUS Ed25519BaseField) ((y * y * d_biguint + 1) mod MODULUS Ed25519BaseField) ->
  exists o, decompress bytes = Ok o /\ decompressed n o.
Proof.
  intros Hl Hb n y Hi. destruct (sign_bit bytes Hl Hb) as (last & El & Es & Ey & Hn). fold n in Es, Ey, Hn. fold y in Ey.
  assert (Hs : n / 2 ^ 255 = Z.b2z (Z.shiftr last 7 =? 1)).
  { rewrite <- Es. assert (Hc : n / 2 ^ 255 = 0 \/ n / 2 ^ 255 = 1) by dlia. rewrite Es. destruct Hc as [-> | ->]; reflexivity. }
  rewrite (decompress_is_with bytes last El), Ey.
  destruct (decompress_with_spec (MODULUS Ed25519BaseField) d_biguint ed25519_sqrt eq_refl eq_refl ed25519_sqrt_spec
              (Z.shiftr last 7 =? 1) y Hi) as (o & E & Ho).
  exists o. split; [exact E|]. unfold decompressed. rewrite Hs. fold y. exact Ho.
Qed.
