(* ===== verification/Syscalls.v ===== *)
(** * System calls of the portable executor in supervisor mode

    The context a system call works on ([SyscallContext] of
    [crates/core/jit/src/context.rs], implemented in
    [executor/src/minimal/arch/portable/mod.rs]), the calls for hints, output,
    unconstrained blocks and page permissions, the hash, big-integer and
    field-tower precompiles, and the dispatch of [ecall.rs].  In supervisor mode
    the permission checks of a slice succeed without effect.

    The permutations of the Keccak and Poseidon2 crates, the hooks of [hook.rs]
    and the elliptic-curve and debugging calls are parameters. *)

From stdpp Require Import base list gmap.
From Stdlib Require Import ZArith Lia Bool.
From S2P Require Import Prelude.
From S2P Require Import Words.
From S2P Require Import Isa.
From S2P Require Import SyscallCode.
From S2P Require Import Paging.
From S2P Require Import Memory.
From S2P Require Import Executor.
From S2P Require Import ExecutorFacts.
From S2P Require Import MemoryFacts Curves.
Open Scope Z_scope.

Definition LOG_PAGE_SIZE : Z := 12.
Definition PAGE_SIZE : Z := Z.shiftl 1 LOG_PAGE_SIZE.
Definition DEFAULT_PAGE_PROT (f : SegmentFlags) : Z := Z.lor (PROT_READ f) (PROT_WRITE f).
Definition PERMITTED_PROTS (f : SegmentFlags) : list Z :=
  [PROT_NONE f; Z.lor (PROT_READ f) (PROT_WRITE f); Z.lor (PROT_READ f) (PROT_EXEC f); PROT_READ f].

(** [create_fd!] counts the descriptors from the lowest allowed one. *)
Definition LOWEST_ALLOWED_FD : Z := 10.
Definition create_fd (value : Z) : Z := value + LOWEST_ALLOWED_FD.
Definition FD_PUBLIC_VALUES : Z := create_fd 3.
Definition FD_HINT : Z := create_fd 4.
Definition FD_ECRECOVER_HOOK : Z := create_fd 5.
Definition FD_EDDECOMPRESS : Z := create_fd 6.
Definition FD_RSA_MUL_MOD : Z := create_fd 7.
Definition FD_BLS12_381_SQRT : Z := create_fd 8.
Definition FD_BLS12_381_INVERSE : Z := create_fd 9.
Definition FD_FP_SQRT : Z := create_fd 10.
Definition FD_FP_INV : Z := create_fd 11.
(** The descriptors of the hooks. *)
Definition hook_fds : list Z :=
  [FD_BLS12_381_INVERSE; FD_BLS12_381_SQRT; FD_FP_INV; FD_FP_SQRT; FD_ECRECOVER_HOOK; FD_EDDECOMPRESS; FD_RSA_MUL_MOD].

Definition u64_MAX : Z := 2 ^ 64 - 1.

(** The executor over the memory it uses. *)
Abbreviation Exec := (Executor (LimitedMemory.LimitedMemory MemValue)).

(** ** The context *)

Definition extend_trace (e : Exec) (vs : list MemValue) : Exec :=
  match traces e with Some t => with_traces e (Some (t ++ vs)) | None => e end.

Definition is_tracing (e : Exec) : bool := match traces e with Some _ => true | None => false end.

Definition mr_without_prot (e : Exec) (addr : Z) : Res (Z * Exec) :=
  let* (mem_value, write) := mem_get_mut (memory e) addr in
  let e := extend_trace e [mem_value] in
  let new := if is_tracing e then mkMemValue (clk e) (mv_value mem_value) else mem_value in
  Ok (mv_value mem_value, with_memory e (write new)).

Definition mw_without_prot (e : Exec) (addr val : Z) : Res Exec :=
  let* (mem_value, write) := mem_get_mut (memory e) addr in
  let new := mkMemValue (clk e) val in
  let e := extend_trace e [mem_value; new] in
  Ok (with_memory e (write new)).

(** [addr + i * 8] for [i < len]. *)
Definition slice_addrs (addr : Z) (len : nat) : list Z := map (fun i => as_u64 (addr + Z.of_nat i * 8)) (seq 0 len).

(** [(start..stop).step_by(8)]. *)
Definition range_addrs (start stop : Z) : list Z :=
  map (fun i => start + 8 * Z.of_nat i) (seq 0 (Z.to_nat ((stop - start + 7) / 8))).

(** The accesses of a slice are traced; [bump] says whether their clock is
    updated. *)
Fixpoint touch (bump : bool) (e : Exec) (addrs : list Z) : Res Exec :=
  match addrs with
  | [] => Ok e
  | addr :: addrs =>
      let* (mem_value, write) := mem_get_mut (memory e) addr in
      let e := extend_trace e [mem_value] in
      let new := if bump && is_tracing e then mkMemValue (clk e) (mv_value mem_value) else mem_value in
      touch bump (with_memory e (write new)) addrs
  end.

(** The values at the addresses; [missing] is what an absent value stands
    for. *)
Fixpoint read_values (missing : Res Z) (e : Exec) (addrs : list Z) : Res (list Z * Exec) :=
  match addrs with
  | [] => Ok ([], e)
  | addr :: addrs =>
      let* (o, m) := mem_get (memory e) addr in
      let* v := match o with Some v => Ok (mv_value v) | None => missing end in
      let* (vs, e) := read_values missing (with_memory e m) addrs in
      Ok (v :: vs, e)
  end.

Definition slice_end (addr : Z) (len : nat) : Z := as_u64 (addr + Z.of_nat len * 8).

Definition mr_slice_without_prot (e : Exec) (addr : Z) (len : nat) : Res (list Z * Exec) :=
  let* e := touch true e (slice_addrs addr len) in
  read_values Panic e (range_addrs addr (slice_end addr len)).

Definition mr_slice_unsafe (e : Exec) (addr : Z) (len : nat) : Res (list Z * Exec) :=
  let* e := touch false e (slice_addrs addr len) in
  read_values Panic e (range_addrs addr (slice_end addr len)).

Fixpoint mw_all (e : Exec) (l : list (Z * Z)) : Res Exec :=
  match l with
  | [] => Ok e
  | (addr, val) :: l => let* e := mw_without_prot e addr val in mw_all e l
  end.

Definition mw_slice_without_prot (e : Exec) (addr : Z) (vals : list Z) : Res Exec :=
  mw_all e (combine (slice_addrs addr (length vals)) vals).

Definition bump_memory_clk (e : Exec) : Exec := with_clk e (wrapping_add (clk e) 1).

Definition is_unconstrained (e : Exec) : bool := match maybe_unconstrained e with Some _ => true | None => false end.

Definition enter_unconstrained (e : Exec) : Res Exec :=
  assert! (negb (is_unconstrained e)) ;;
  let h := host e in
  Ok (mkExecutor (registers e) (LimitedMemory.copy_on_write (memory e)) (traces e) (pc e) (clk e) (global_clk e)
        (next_pc e) (next_clk e) (max_trace_size e) (Some (mkUnconstrainedCtx (registers e) (pc e) (clk e)))
        (mkHostState (input h) (public_values_stream h) (exit_code h) (public_value_digest h) (hints h)
           (MaybeCowPageProt.copy_on_write (page_prots h)))).

Definition exit_unconstrained (e : Exec) : Res Exec :=
  let* unconstrained := of_option (maybe_unconstrained e) in
  let* m := LimitedMemory.owned (memory e) in
  let h := host e in
  Ok (mkExecutor (uc_registers unconstrained) m (traces e) (uc_pc unconstrained) (uc_clk unconstrained) (global_clk e)
        (next_pc e) (next_clk e) (max_trace_size e) None
        (mkHostState (input h) (public_values_stream h) (exit_code h) (public_value_digest h) (hints h)
           (MaybeCowPageProt.owned (page_prots h)))).

Definition with_input (e : Exec) (l : list (list Z)) : Exec :=
  let h := host e in
  with_host e (mkHostState l (public_values_stream h) (exit_code h) (public_value_digest h) (hints h) (page_prots h)).
Definition with_public_values (e : Exec) (l : list Z) : Exec :=
  let h := host e in
  with_host e (mkHostState (input h) l (exit_code h) (public_value_digest h) (hints h) (page_prots h)).
Definition with_page_prots (e : Exec) (p : MaybeCowPageProt.MaybeCowPageProt PageProtValue) : Exec :=
  let h := host e in
  with_host e (mkHostState (input h) (public_values_stream h) (exit_code h) (public_value_digest h) (hints h) p).

Definition trace_hint (e : Exec) (addr : Z) (value : list Z) : Exec :=
  let h := host e in
  if is_tracing e then
    with_host e (mkHostState (input h) (public_values_stream h) (exit_code h) (public_value_digest h)
                   (hints h ++ [(addr, value)]) (page_prots h))
  else e.

Definition trace_value (e : Exec) (value : Z) : Exec := extend_trace e [mkMemValue u64_MAX value].

Definition mw_hint (e : Exec) (addr val : Z) : Res Exec :=
  let* m := LimitedMemory.insert (memory e) addr (mkMemValue 0 val) in Ok (with_memory e m).

Definition set_exit_code (e : Exec) (code : Z) : Exec :=
  let h := host e in
  with_host e (mkHostState (input h) (public_values_stream h) code (public_value_digest h) (hints h) (page_prots h)).

Definition set_public_value_digest_word (e : Exec) (word_idx digest_word : Z) : Res Exec :=
  let h := host e in
  let idx := Z.to_nat word_idx in
  assert! (idx <? length (public_value_digest h))%nat ;;
  Ok (with_host e (mkHostState (input h) (public_values_stream h) (exit_code h)
                     (<[idx := digest_word]> (public_value_digest h)) (hints h) (page_prots h))).

Definition PageProtValue_default (f : SegmentFlags) : PageProtValue := mkPageProtValue 0 (DEFAULT_PAGE_PROT f).
Definition page_prot_as_mem (v : PageProtValue) : MemValue := mkMemValue (pp_timestamp v) (pp_value v).

(** The old permission is kept in the trace. *)
Definition page_prot_write (f : SegmentFlags) (program : Program) (e : Exec) (addr val : Z) : Res Exec :=
  assert! (is_multiple_of addr (Z.shiftl 1 LOG_PAGE_SIZE)) ;;
  assert! (addr <? Z.shiftl 1 MAX_LOG_ADDR) ;;
  assert! (match untrusted_memory program with Some (s, t) => (s <=? addr) && (addr <? t) | None => false end) ;;
  let page_idx := Z.shiftr addr LOG_PAGE_SIZE in
  let (old, put) := Entry.or_insert (MaybeCowPageProt.entry (page_prots (host e)) page_idx) (PageProtValue_default f) in
  let e := trace_mem e (page_prot_as_mem old) in
  Ok (with_page_prots e (snd (MaybeCowPageProt.insert (put old) page_idx (mkPageProtValue (clk e) val)))).

(** ** Hints and output ([hint.rs], [write.rs]) *)

Fixpoint mw_hints (e : Exec) (l : list (Z * Z)) : Res Exec :=
  match l with
  | [] => Ok e
  | (addr, val) :: l => let* e := mw_hint e addr val in mw_hints e l
  end.

Definition hint_read (e : Exec) (ptr len : Z) : Res (Exec * option Z) :=
  match input (host e) with
  | [] => Panic
  | vec :: rest =>
      let e := trace_hint (with_input e rest) ptr vec in
      assert! (Z.of_nat (length vec) =? len) ;;
      assert! (ptr mod 8 =? 0) ;;
      let (chunks, remainder) := as_chunks (length vec) vec in
      let words := map (le_value 8) chunks in
      let* e := mw_hints e (combine (slice_addrs ptr (length chunks)) words) in
      let final_word := le_value 8 (remainder ++ replicate (8 - length remainder) 0) in
      let* e := mw_hint e (as_u64 (ptr + Z.of_nat (length chunks) * 8)) final_word in
      Ok (e, None)
  end.

Definition hint_len (e : Exec) : Res (Exec * option Z) :=
  let value := match input (host e) with data :: _ => Z.of_nat (length data) | [] => u64_MAX end in
  Ok (trace_value e value, Some value).

Section Output.
(** The hooks of [hook.rs], by descriptor. *)
Context (hook : Z -> list Z -> list (list Z)).

(** The bytes are drawn word by word; no word is read for an empty slice. *)
Definition written_bytes (e : Exec) (buf_ptr nbytes : Z) : Res (list Z * Exec) :=
  let start := Z.land buf_ptr (not_u64 7) in
  let head := Z.land buf_ptr 7 in
  let nwords := (as_u64 (head + nbytes) + 7) / 8 in
  let addrs := if nbytes =? 0 then [] else range_addrs start (as_u64 (start + nwords * 8)) in
  let* (words, e) := read_values (Ok 0) e addrs in
  Ok (take (Z.to_nat nbytes) (drop (Z.to_nat head) (flat_map to_le_bytes words)), e).

Definition write (e : Exec) (fd buf_ptr : Z) : Res (Exec * option Z) :=
  let* nbytes := reg e 12 in
  let* (bytes, e) := written_bytes e buf_ptr nbytes in
  if (fd =? 1) || (fd =? 2) then Ok (e, None)
  else if as_u32 fd =? FD_PUBLIC_VALUES then
    Ok (with_public_values e (public_values_stream (host e) ++ bytes), None)
  else if as_u32 fd =? FD_HINT then Ok (with_input e (bytes :: input (host e)), None)
  else if existsb (Z.eqb (as_u32 fd)) hook_fds then
    Ok (with_input e (hook (as_u32 fd) bytes ++ input (host e)), None)
  else Ok (e, None).
End Output.

(** ** Page permissions and signal return *)

Definition mprotect_syscall (f : SegmentFlags) (program : Program) (e : Exec) (addr prot : Z) : Res (Exec * option Z) :=
  assert! (prot <? 2 ^ 8) ;;
  assert! (is_multiple_of addr PAGE_SIZE) ;;
  assert! (addr <? Z.shiftl 1 MAX_LOG_ADDR) ;;
  assert! (existsb (Z.eqb prot) (PERMITTED_PROTS f)) ;;
  assert! (negb (is_unconstrained e)) ;;
  let* e := page_prot_write f program e addr prot in
  Ok (e, None).

Definition mprotect_flush_syscall (e : Exec) : Res (Exec * option Z) := Ok (e, None).

Fixpoint set_regs (e : Exec) (l : list (Z * Z)) : Res Exec :=
  match l with
  | [] => Ok e
  | (r, v) :: l => let* e := set_reg e r v in set_regs e l
  end.

(** Registers [x1] to [x31] are restored. *)
Definition sig_return_syscall (e : Exec) (addr : Z) : Res (Exec * option Z) :=
  let* (regs, e) := mr_slice_without_prot e (as_u64 (addr + 8)) 31 in
  let e := bump_memory_clk e in
  assert! (length regs =? 31)%nat ;;
  let* e := set_regs e (combine (map Z.of_nat (seq 1 31)) regs) in
  let* v := of_option (regs !! 4%nat) in
  Ok (e, Some v).

(** ** Big integers *)

(** [BigUint::from_slice], and [to_u64_digits] with a resize. *)
Definition from_slice (digits : list Z) : Z := le_value 32 digits.
Fixpoint to_u64_digits (n : nat) (x : Z) : list Z :=
  match n with O => [] | S n => x mod 2 ^ 64 :: to_u64_digits n (x / 2 ^ 64) end.

Definition WORDS_FIELD_ELEMENT : nat := 4.

(** The checks of the two slices come first, with a clock of their own. *)
Definition uint256_mul (e : Exec) (x_ptr y_ptr : Z) : Res (Exec * option Z) :=
  assert! (is_multiple_of x_ptr 8) ;;
  assert! (is_multiple_of y_ptr 8) ;;
  let clk := clk e in
  let e := bump_memory_clk e in
  let e := with_clk e clk in
  let* (xs, e) := mr_slice_unsafe e x_ptr WORDS_FIELD_ELEMENT in
  let* (y_and_modulus, e) := mr_slice_without_prot e y_ptr (WORDS_FIELD_ELEMENT * 2) in
  let x := words_to_bytes_le_vec xs in
  let ym := words_to_bytes_le_vec y_and_modulus in
  let (y, modulus) := (take 32 ym, drop 32 ym) in
  let uint256_x := from_bytes_le x in
  let uint256_y := from_bytes_le y in
  let uint256_modulus := from_bytes_le modulus in
  let result := if uint256_modulus =? 0 then (uint256_x * uint256_y) mod (Z.shiftl 1 256)
                else (uint256_x * uint256_y) mod uint256_modulus in
  let result := bytes_to_words_le (le_bytes 32 result) in
  let e := bump_memory_clk e in
  let* e := mw_slice_without_prot e x_ptr result in
  Ok (e, None).

Definition U256_NUM_WORDS : nat := 4.

Definition read_u256 (e : Exec) (ptr : Z) : Res (Z * Exec) :=
  let* (ws, e) := mr_slice_without_prot e ptr U256_NUM_WORDS in Ok (from_slice (u64_to_u32 ws), e).

Definition uint256_ops (e : Exec) (a_ptr b_ptr : Z) : Res (Exec * option Z) :=
  let* x5 := reg e 5 in
  let* code := from_u32 (as_u32 x5) in
  let* op := uint256_op_map code in
  let* c_ptr := reg e 12 in
  let* d_ptr := reg e 13 in
  let* e_ptr := reg e 14 in
  let clk := clk e in
  let e := bump_memory_clk (bump_memory_clk (bump_memory_clk (bump_memory_clk e))) in
  let e := with_clk e clk in
  let* (uint256_a, e) := read_u256 e a_ptr in
  let e := bump_memory_clk e in
  let* (uint256_b, e) := read_u256 e b_ptr in
  let e := bump_memory_clk e in
  let* (uint256_c, e) := read_u256 e c_ptr in
  let intermediate_result := match op with
                             | UAdd => uint256_a + uint256_b + uint256_c
                             | UMul => uint256_a * uint256_b + uint256_c
                             end in
  let u64_result := to_u64_digits 8 intermediate_result in
  let e := bump_memory_clk e in
  let* e := mw_slice_without_prot e d_ptr (take 4 u64_result) in
  let e := bump_memory_clk e in
  let* e := mw_slice_without_prot e e_ptr (drop 4 u64_result) in
  Ok (e, None).

(** ** Field towers *)

(** The two operands of a call, as lists of 32-bit digits. *)
Definition fp_operands (e : Exec) (x_ptr y_ptr : Z) (num_words : nat) : Res (list Z * list Z * Exec) :=
  assert! (is_multiple_of x_ptr 8) ;;
  assert! (is_multiple_of y_ptr 8) ;;
  let clk := clk e in
  let e := bump_memory_clk e in
  let e := with_clk e clk in
  let* (xs, e) := mr_slice_unsafe e x_ptr num_words in
  let* (ys, e) := mr_slice_without_prot e y_ptr num_words in
  Ok (u64_to_u32 xs, u64_to_u32 ys, e).

Definition fp_op_syscall (P : FpOpField) (e : Exec) (x_ptr y_ptr : Z) (op : FieldOperation) : Res (Exec * option Z) :=
  let num_words := WordsFieldElement P in
  let* (x_32, y_32, e) := fp_operands e x_ptr y_ptr num_words in
  let modulus := MODULUS P in
  let a := from_slice x_32 mod modulus in
  let b := from_slice y_32 mod modulus in
  let* result := match op with
                 | FAdd => Ok ((a + b) mod modulus)
                 | FSub => Ok (((a + modulus) - b) mod modulus)
                 | FMul => Ok ((a * b) mod modulus)
                 | FDiv => Panic
                 end in
  let e := bump_memory_clk e in
  let* e := mw_slice_without_prot e x_ptr (to_u64_digits num_words result) in
  Ok (e, None).

(** Both coordinates take the same number of words. *)
Definition fp2_digits (num_words : nat) (c0 c1 : Z) : list Z :=
  to_u64_digits (num_words / 2) c0 ++ to_u64_digits (num_words - num_words / 2) c1.

Definition fp2_addsub_syscall (P : FpOpField) (e : Exec) (x_ptr y_ptr : Z) (fp_op : FieldOperation) : Res (Exec * option Z) :=
  let num_words := WordsCurvePoint P in
  let* (x_32, y_32, e) := fp_operands e x_ptr y_ptr num_words in
  let (ac0, ac1) := (from_slice (take (length x_32 / 2) x_32), from_slice (drop (length x_32 / 2) x_32)) in
  let (bc0, bc1) := (from_slice (take (length y_32 / 2) y_32), from_slice (drop (length y_32 / 2) y_32)) in
  let modulus := MODULUS P in
  let* (c0, c1) := match fp_op with
                   | FAdd => Ok ((ac0 + bc0) mod modulus, (ac1 + bc1) mod modulus)
                   | FSub => let* d0 := big_sub (ac0 + modulus) bc0 in
                             let* d1 := big_sub (ac1 + modulus) bc1 in
                             Ok (d0 mod modulus, d1 mod modulus)
                   | FMul | FDiv => Panic
                   end in
  let e := bump_memory_clk e in
  let* e := mw_slice_without_prot e x_ptr (fp2_digits num_words c0 c1) in
  Ok (e, None).

Definition fp2_mul_syscall (P : FpOpField) (e : Exec) (x_ptr y_ptr : Z) : Res (Exec * option Z) :=
  let num_words := WordsCurvePoint P in
  let* (x_32, y_32, e) := fp_operands e x_ptr y_ptr num_words in
  let (ac0, ac1) := (from_slice (take (length x_32 / 2) x_32), from_slice (drop (length x_32 / 2) x_32)) in
  let (bc0, bc1) := (from_slice (take (length y_32 / 2) y_32), from_slice (drop (length y_32 / 2) y_32)) in
  let modulus := MODULUS P in
  let* c0 := if (ac0 * bc0) mod modulus <? (ac1 * bc1) mod modulus
             then let* d := big_sub (modulus + (ac0 * bc0) mod modulus) ((ac1 * bc1) mod modulus) in Ok (d mod modulus)
             else let* d := big_sub ((ac0 * bc0) mod modulus) ((ac1 * bc1) mod modulus) in Ok (d mod modulus) in
  let c1 := ((ac0 * bc1) mod modulus + (ac1 * bc0) mod modulus) mod modulus in
  let e := bump_memory_clk e in
  let* e := mw_slice_without_prot e x_ptr (fp2_digits num_words c0 c1) in
  Ok (e, None).

(** ** Elliptic curves *)

(** [ec.rs]: the sum of two points over the first, the double of a point. *)
Module ec.
Definition ec_add (E : EllipticCurve) (e : Exec) (p_ptr q_ptr : Z) : Res Exec :=
  assert! (is_multiple_of p_ptr 8) ;;
  assert! (is_multiple_of q_ptr 8) ;;
  let num_words := curve_words E in
  let clk := clk e in
  let e := bump_memory_clk e in
  let e := with_clk e clk in
  let* (ps, e) := mr_slice_unsafe e p_ptr num_words in
  let p_affine := from_words_le ps in
  let* (qs, e) := mr_slice_without_prot e q_ptr num_words in
  let q_affine := from_words_le qs in
  let* result_affine := Curves.ec_add E p_affine q_affine in
  let result_words := to_words_le num_words result_affine in
  let e := bump_memory_clk e in
  mw_slice_without_prot e p_ptr result_words.

Definition ec_double (E : EllipticCurve) (e : Exec) (p_ptr : Z) : Res Exec :=
  assert! (is_multiple_of p_ptr 8) ;;
  let num_words := curve_words E in
  let* (p, e) := mr_slice_unsafe e p_ptr num_words in
  let p_affine := from_words_le p in
  let* result_affine := Curves.ec_double E p_affine in
  let result_words := to_words_le num_words result_affine in
  mw_slice_without_prot e p_ptr result_words.
End ec.

Definition weierstrass_add_assign_syscall (E : EllipticCurve) (e : Exec) (arg1 arg2 : Z) : Res (Exec * option Z) :=
  let* e := ec.ec_add E e arg1 arg2 in Ok (e, None).

Definition weierstrass_double_assign_syscall (E : EllipticCurve) (e : Exec) (arg1 : Z) : Res (Exec * option Z) :=
  let* e := ec.ec_double E e arg1 in Ok (e, None).

Definition weierstrass_decompress_syscall : Res (Exec * option Z) := Panic.

Definition edwards_add (E : EllipticCurve) (e : Exec) (arg1 arg2 : Z) : Res (Exec * option Z) :=
  let* e := ec.ec_add E e arg1 arg2 in Ok (e, None).

Definition COMPRESSED_POINT_BYTES : nat := 32.

Definition edwards_decompress_syscall (e : Exec) (slice_ptr sign : Z) : Res (Exec * option Z) :=
  assert! (is_multiple_of slice_ptr 8) ;;
  assert! (sign <=? 1) ;;
  let clk := clk e in
  let e := bump_memory_clk e in
  let e := with_clk e clk in
  let* (y, e) := mr_slice_without_prot e (as_u64 (slice_ptr + Z.of_nat COMPRESSED_POINT_BYTES)) WORDS_FIELD_ELEMENT in
  let y_bytes := words_to_bytes_le_vec y in
  let e := bump_memory_clk e in
  let* last := of_option (y_bytes !! (COMPRESSED_POINT_BYTES - 1)%nat) in
  let compressed_edwards_y := <[(COMPRESSED_POINT_BYTES - 1)%nat :=
    Z.lor (Z.land last 0x7f) (as_u8 (Z.shiftl sign 7))]> y_bytes in
  let* decompressed := decompress compressed_edwards_y in
  let* decompressed := of_option decompressed in
  let decompressed_x_words := bytes_to_words_le (le_bytes 32 (px decompressed)) in
  let* e := mw_slice_without_prot e slice_ptr decompressed_x_words in
  Ok (e, None).

(** ** Hashes *)

Definition rotate_right (x n : Z) : Z := Z.lor (shr x n) (as_u32 (Z.shiftl x (32 - n))).
Definition add32 (a b : Z) : Z := as_u32 (a + b).

Definition small_sigma0 (x : Z) : Z := Z.lxor (Z.lxor (rotate_right x 7) (rotate_right x 18)) (shr x 3).
Definition small_sigma1 (x : Z) : Z := Z.lxor (Z.lxor (rotate_right x 17) (rotate_right x 19)) (shr x 10).

(** The iteration [i] of the message schedule. *)
Definition extend_step (e : Exec) (w_ptr i : Z) : Res Exec :=
  let* (w_i_minus_15, e) := mr_without_prot e (as_u64 (w_ptr + (i - 15) * 8)) in
  let s0 := small_sigma0 (as_u32 w_i_minus_15) in
  let* (w_i_minus_2, e) := mr_without_prot e (as_u64 (w_ptr + (i - 2) * 8)) in
  let s1 := small_sigma1 (as_u32 w_i_minus_2) in
  let* (w_i_minus_16, e) := mr_without_prot e (as_u64 (w_ptr + (i - 16) * 8)) in
  let* (w_i_minus_7, e) := mr_without_prot e (as_u64 (w_ptr + (i - 7) * 8)) in
  let w_i := add32 (add32 (add32 s1 (as_u32 w_i_minus_16)) s0) (as_u32 w_i_minus_7) in
  let* e := mw_without_prot e (as_u64 (w_ptr + i * 8)) w_i in
  Ok (bump_memory_clk e).

Fixpoint extend_loop (e : Exec) (w_ptr : Z) (is_ : list Z) : Res Exec :=
  match is_ with
  | [] => Ok e
  | i :: is_ => let* e := extend_step e w_ptr i in extend_loop e w_ptr is_
  end.

Definition sha256_extend (e : Exec) (w_ptr arg2 : Z) : Res (Exec * option Z) :=
  assert! (arg2 =? 0) ;;
  let e := bump_memory_clk e in
  let* e := extend_loop e w_ptr (map Z.of_nat (seq 16 48)) in
  Ok (e, None).

(** In rows of eight, as the source lays the table out. *)
Definition SHA_COMPRESS_K : list Z := List.concat
  [[0x428a2f98; 0x71374491; 0xb5c0fbcf; 0xe9b5dba5; 0x3956c25b; 0x59f111f1; 0x923f82a4; 0xab1c5ed5];
   [0xd807aa98; 0x12835b01; 0x243185be; 0x550c7dc3; 0x72be5d74; 0x80deb1fe; 0x9bdc06a7; 0xc19bf174];
   [0xe49b69c1; 0xefbe4786; 0x0fc19dc6; 0x240ca1cc; 0x2de92c6f; 0x4a7484aa; 0x5cb0a9dc; 0x76f988da];
   [0x983e5152; 0xa831c66d; 0xb00327c8; 0xbf597fc7; 0xc6e00bf3; 0xd5a79147; 0x06ca6351; 0x14292967];
   [0x27b70a85; 0x2e1b2138; 0x4d2c6dfc; 0x53380d13; 0x650a7354; 0x766a0abb; 0x81c2c92e; 0x92722c85];
   [0xa2bfe8a1; 0xa81a664b; 0xc24b8b70; 0xc76c51a3; 0xd192e819; 0xd6990624; 0xf40e3585; 0x106aa070];
   [0x19a4c116; 0x1e376c08; 0x2748774c; 0x34b0bcb5; 0x391c0cb3; 0x4ed8aa4a; 0x5b9cca4f; 0x682e6ff3];
   [0x748f82ee; 0x78a5636f; 0x84c87814; 0x8cc70208; 0x90befffa; 0xa4506ceb; 0xbef9a3f7; 0xc67178f2]].

Record Sha : Set := mkSha { sa : Z; sb : Z; sc : Z; sd : Z; se : Z; sf : Z; sg : Z; sh : Z }.

(** A round, with its constant and message word. *)
Definition compress_round (s : Sha) (k w_i : Z) : Sha :=
  let s1 := Z.lxor (Z.lxor (rotate_right (se s) 6) (rotate_right (se s) 11)) (rotate_right (se s) 25) in
  let ch := Z.lxor (Z.land (se s) (sf s)) (Z.land (Z.lxor (se s) (2 ^ 32 - 1)) (sg s)) in
  let temp1 := add32 (add32 (add32 (add32 (sh s) s1) ch) k) w_i in
  let s0 := Z.lxor (Z.lxor (rotate_right (sa s) 2) (rotate_right (sa s) 13)) (rotate_right (sa s) 22) in
  let maj := Z.lxor (Z.lxor (Z.land (sa s) (sb s)) (Z.land (sa s) (sc s))) (Z.land (sb s) (sc s)) in
  let temp2 := add32 s0 maj in
  mkSha (add32 temp1 temp2) (sa s) (sb s) (sc s) (add32 (sd s) temp1) (se s) (sf s) (sg s).

Fixpoint compress_loop (e : Exec) (s : Sha) (w_ptr : Z) (ks : list (nat * Z)) : Res (Sha * Exec) :=
  match ks with
  | [] => Ok (s, e)
  | (i, k) :: ks =>
      let* (w_i, e) := mr_without_prot e (as_u64 (w_ptr + Z.of_nat i * 8)) in
      compress_loop e (compress_round s k (as_u32 w_i)) w_ptr ks
  end.

Definition sha256_compress (e : Exec) (w_ptr h_ptr : Z) : Res (Exec * option Z) :=
  let clk := clk e in
  let e := bump_memory_clk (bump_memory_clk e) in
  let e := with_clk e clk in
  let* (hs, e) := mr_slice_without_prot e h_ptr 8 in
  let hx := map as_u32 hs in
  let e := bump_memory_clk e in
  match hx with
  | [a; b; c; d; e'; f; g; h] =>
      let* (s, e) := compress_loop e (mkSha a b c d e' f g h) w_ptr (imap pair SHA_COMPRESS_K) in
      let e := bump_memory_clk e in
      let v := [add32 (sa s) a; add32 (sb s) b; add32 (sc s) c; add32 (sd s) d;
                add32 (se s) e'; add32 (sf s) f; add32 (sg s) g; add32 (sh s) h] in
      let* e := mw_slice_without_prot e h_ptr v in
      Ok (e, None)
  | _ => Panic
  end.

Definition STATE_NUM_WORDS : nat := 25.

(** What the handler takes from elsewhere: the flags of the crate [elf],
    [keccakf] of the crate [tiny_keccak], the Poseidon2 permutation of 16 field elements as canonical
    integers, the hooks by descriptor, two curves whose arithmetic is that of the
    crates [k256] and [curve25519_dalek], and the calls of [debug.rs], for
    profiling and for dumping the program. *)
Record External : Type := mkExternal {
  elf : SegmentFlags;
  keccakf : list Z -> list Z;
  permute : list Z -> list Z;
  hook : Z -> list Z -> list (list Z);
  Secp256k1 : EllipticCurve;
  Ed25519 : EllipticCurve;
  debug : SyscallCode -> Exec -> Z -> Z -> Res (Exec * option Z)
}.

Section Handler.
Context (program : Program) (X : External).

Definition keccak_permute (e : Exec) (state_ptr arg2 : Z) : Res (Exec * option Z) :=
  assert! (arg2 =? 0) ;;
  let clk := clk e in
  let e := bump_memory_clk e in
  let e := with_clk e clk in
  let* (state, e) := mr_slice_without_prot e state_ptr STATE_NUM_WORDS in
  assert! (length state =? STATE_NUM_WORDS)%nat ;;
  let e := bump_memory_clk e in
  let* e := mw_slice_without_prot e state_ptr (keccakf X state) in
  Ok (e, None).

(** Two 32-bit words to a doubleword, the low one first. *)
Fixpoint pair_words (l : list Z) : list Z :=
  match l with
  | lo :: hi :: l => Z.lor (Z.shiftl hi 32) lo :: pair_words l
  | _ => []
  end.

Definition poseidon2 (e : Exec) (ptr : Z) : Res (Exec * option Z) :=
  assert! (is_multiple_of ptr 8) ;;
  let* (input, e) := mr_slice_unsafe e ptr 8 in
  let u64_result := pair_words (permute X (u64_to_u32 input)) in
  assert! (length u64_result =? 8)%nat ;;
  let* e := mw_slice_without_prot e ptr u64_result in
  Ok (e, None).

Definition syscall_result (e : Exec) (code : SyscallCode) (arg1 arg2 : Z) : Res (Exec * option Z) :=
  match code with
  | SHA_EXTEND => sha256_extend e arg1 arg2
  | SHA_COMPRESS => sha256_compress e arg1 arg2
  | KECCAK_PERMUTE => keccak_permute e arg1 arg2
  | SECP256K1_ADD => weierstrass_add_assign_syscall (Secp256k1 X) e arg1 arg2
  | SECP256K1_DOUBLE => weierstrass_double_assign_syscall (Secp256k1 X) e arg1
  | SECP256K1_DECOMPRESS => weierstrass_decompress_syscall
  | SECP256R1_ADD => weierstrass_add_assign_syscall (SwCurve Secp256r1Parameters) e arg1 arg2
  | SECP256R1_DOUBLE => weierstrass_double_assign_syscall (SwCurve Secp256r1Parameters) e arg1
  | SECP256R1_DECOMPRESS => weierstrass_decompress_syscall
  | BLS12381_ADD => weierstrass_add_assign_syscall (SwCurve Bls12381Parameters) e arg1 arg2
  | BLS12381_DOUBLE => weierstrass_double_assign_syscall (SwCurve Bls12381Parameters) e arg1
  | BLS12381_DECOMPRESS => weierstrass_decompress_syscall
  | BN254_ADD => weierstrass_add_assign_syscall (SwCurve Bn254Parameters) e arg1 arg2
  | BN254_DOUBLE => weierstrass_double_assign_syscall (SwCurve Bn254Parameters) e arg1
  | ED_ADD => edwards_add (Ed25519 X) e arg1 arg2
  | ED_DECOMPRESS => edwards_decompress_syscall e arg1 arg2
  | BLS12381_FP_ADD | BLS12381_FP_SUB | BLS12381_FP_MUL =>
      let* op := fp_op_map code in fp_op_syscall Bls12381BaseField e arg1 arg2 op
  | BLS12381_FP2_ADD | BLS12381_FP2_SUB =>
      let* op := fp_op_map code in fp2_addsub_syscall Bls12381BaseField e arg1 arg2 op
  | BLS12381_FP2_MUL => fp2_mul_syscall Bls12381BaseField e arg1 arg2
  | BN254_FP_ADD | BN254_FP_SUB | BN254_FP_MUL =>
      let* op := fp_op_map code in fp_op_syscall Bn254BaseField e arg1 arg2 op
  | BN254_FP2_ADD | BN254_FP2_SUB =>
      let* op := fp_op_map code in fp2_addsub_syscall Bn254BaseField e arg1 arg2 op
  | BN254_FP2_MUL => fp2_mul_syscall Bn254BaseField e arg1 arg2
  | UINT256_MUL => uint256_mul e arg1 arg2
  | U256XU2048_MUL => Panic
  | ENTER_UNCONSTRAINED => let* e := enter_unconstrained e in Ok (e, Some 1)
  | EXIT_UNCONSTRAINED => let* e := exit_unconstrained e in Ok (e, Some 0)
  | HINT_LEN => hint_len e
  | HINT_READ => hint_read e arg1 arg2
  | WRITE => write (hook X) e arg1 arg2
  | UINT256_MUL_CARRY | UINT256_ADD_CARRY => uint256_ops e arg1 arg2
  | POSEIDON2 => poseidon2 e arg1
  | HALT => Ok (set_exit_code e (as_u32 arg1), None)
  | MPROTECT => mprotect_syscall (elf X) program e arg1 arg2
  | HINT_MPROTECT_FLUSH => mprotect_flush_syscall e
  | SIG_RETURN => sig_return_syscall e arg1
  | COMMIT =>
      assert! (arg2 <? 2 ^ 32) ;;
      let* e := set_public_value_digest_word e arg1 arg2 in Ok (e, None)
  | VERIFY_SP1_PROOF | COMMIT_DEFERRED_PROOFS => Ok (e, None)
  | DUMP_ELF | INSERT_PROFILER_SYMBOLS | DELETE_PROFILER_SYMBOLS => debug X code e arg1 arg2
  end.

(** The value of [x5] defaults to the code. *)
Definition ecall_handler (e : Exec) (code : SyscallCode) : Res (Exec * option Z) :=
  let* arg1 := reg e 10 in
  let* arg2 := reg e 11 in
  assert! (negb (is_unconstrained e && negb (bool_decide (code = WRITE)) && negb (bool_decide (code = EXIT_UNCONSTRAINED)))) ;;
  let* (e, opt) := syscall_result e code arg1 arg2 in
  Ok (e, Some (default (code_as_u32 code) opt)).
End Handler.

(** ** The executor at the start of a program *)

Fixpoint insert_image (m : LimitedMemory.LimitedMemory MemValue) (image : list (Z * Z)) : Res (LimitedMemory.LimitedMemory MemValue) :=
  match image with
  | [] => Ok m
  | (addr, value) :: image =>
      let* m := LimitedMemory.insert m addr (mkMemValue 0 value) in insert_image m image
  end.

Definition new_with_limit (program : Program) (max_trace_size memory_limit : option Z) : Res Exec :=
  let* memory := insert_image (LimitedMemory.new_owned MemValue_default memory_limit) (memory_image program) in
  let pc := pc_start_abs program in
  let page_prots := MaybeCowPageProt.Owned
    (list_to_map (map (fun '(page_idx, prot) => (page_idx, mkPageProtValue 0 prot)) (page_prot_image program))) in
  Ok (mkExecutor (replicate 32 0) memory None pc 1 0 pc 1 max_trace_size None
        (mkHostState [] [] 0 (replicate 8 0) [] page_prots)).
