(* ===== verification/Unconstrained.v ===== *)
(** * Unconstrained blocks

    Between ENTER_UNCONSTRAINED and EXIT_UNCONSTRAINED the executor works on a
    copy of the memory and records no trace; leaving the block restores the
    registers, the program counter, the clock and the memory.  Seen from the
    constrained execution, a block is one system call that returns zero. *)

From stdpp Require Import base list gmap.
From Stdlib Require Import ZArith Lia Bool.
From S2P Require Import Prelude.
From S2P Require Import Words.
From S2P Require Import Isa.
From S2P Require Import Adapter.
From S2P Require Import SyscallCode.
From S2P Require Import Paging.
From S2P Require Import Memory.
From S2P Require Import Executor.
From S2P Require Import ExecutorFacts.
From S2P Require Import MemoryFacts.
From S2P Require Import Syscalls.
Open Scope Z_scope.

Abbreviation LMem := (LimitedMemory.LimitedMemory MemValue).

(** ** The memory inside a block *)

(** [m] is a copy over the original of [m0]. *)
Definition in_block (m0 m : LMem) : Prop :=
  (exists copy original, LimitedMemory.memory m0 = MaybeCowMemory.Owned original /\
     LimitedMemory.memory m = MaybeCowMemory.Cow copy original) /\
  LimitedMemory.before_cow m = Some (LimitedMemory.limiter m0) /\
  (LimitedMemory.last_error m = None ->
     LimitedMemory.last_error m0 = None /\ LimitedMemory.dummy_value m = LimitedMemory.dummy_value m0).

Lemma check_ptr_block (m0 m : LMem) (addr : Z) (w : bool) : in_block m0 m -> in_block m0 (LimitedMemory.check_ptr m addr w).
Proof.
  intros (Hm & Hb & He). split; [exact Hm|]. split; [exact Hb|]. cbn. intros E. apply He.
  unfold LimitedMemory.c in E. destruct (LimitedMemory.last_error m); [discriminate | reflexivity].
Qed.

Lemma get_block (m0 m m' : LMem) (addr : Z) (o : option MemValue) :
  in_block m0 m -> mem_get m addr = Ok (o, m') -> in_block m0 m'.
Proof.
  intros Hm E. apply (check_ptr_block _ _ addr false) in Hm. cbn in E. unfold LimitedMemory.get in E.
  destruct (LimitedMemory.has_last_error _); [apply Ok_inj in E; injection E as _ <-; exact Hm|].
  apply bind_ok in E as (v & _ & E). apply Ok_inj in E. injection E as _ <-. exact Hm.
Qed.

(** An entry of a copy writes to the copy. *)
Lemma entry_block (copy original : PagedMemory.PagedMemory MemValue) (addr : Z)
    (e : Entry (MaybeCowMemory.MaybeCowMemory MemValue) MemValue) (dup : bool) :
  MaybeCowMemory.entry (MaybeCowMemory.Cow copy original) addr = Ok (e, dup) ->
  forall x, exists copy', Entry.put e x = MaybeCowMemory.Cow copy' original.
Proof.
  unfold MaybeCowMemory.entry. intros E. apply bind_ok in E as ([] & _ & E). apply bind_ok in E as ([m d] & Ed & E).
  assert (Hm : exists copy1, m = MaybeCowMemory.Cow copy1 original).
  { unfold MaybeCowMemory.duplicate in Ed. apply bind_ok in Ed as (e1 & _ & Ed). destruct e1 as [c put | c v put].
    - apply bind_ok in Ed as (v & _ & Ed). apply Ok_inj in Ed. destruct v; injection Ed as <- _; eauto.
    - apply Ok_inj in Ed. injection Ed as <- _. eauto. }
  destruct Hm as [copy1 ->]. apply bind_ok in E as (e1 & _ & E). apply Ok_inj in E. injection E as <- _.
  intros x. rewrite entry_map_put. eauto.
Qed.

Lemma get_mut_block (m0 m : LMem) (addr : Z) (mv : MemValue) (write : MemValue -> LMem) :
  in_block m0 m -> mem_get_mut m addr = Ok (mv, write) -> forall x, in_block m0 (write x).
Proof.
  intros Hm E x. apply (check_ptr_block _ _ addr true) in Hm. cbn in E. unfold LimitedMemory.get_mut in E.
  set (m1 := LimitedMemory.check_ptr m addr true) in *. destruct Hm as ((copy & original & H0 & H1) & Hb & He).
  destruct (LimitedMemory.has_last_error m1) eqn:Hl.
  - apply Ok_inj in E. injection E as _ <-. split; [exists copy, original; auto|]. split; [exact Hb|].
    unfold LimitedMemory.has_last_error in Hl. cbn in *. intros En. rewrite En in Hl. discriminate.
  - apply bind_ok in E as ([e dup] & Ee & E). rewrite H1 in Ee. destruct (entry_block copy original addr e dup Ee x) as [copy' Hp].
    assert (En : LimitedMemory.last_error m1 = None)
      by (unfold LimitedMemory.has_last_error in Hl; destruct (LimitedMemory.last_error m1); [discriminate | reflexivity]).
    assert (Ho : exists v, Entry.or_insert e MemValue_default = (v, Entry.put e)) by (destruct e; eexists; reflexivity).
    destruct Ho as [v Ho]. rewrite Ho in E. apply Ok_inj in E. injection E as _ <-. rewrite Hp. specialize (He En).
    destruct (_ || _); unfold LimitedMemory.increase, LimitedMemory.with_memory; try destruct (Limiter.increase _) as [l er];
      (split; [exists copy', original; auto|]; split; [exact Hb | intros _; exact He]).
Qed.

(** ** Frames *)

(** What an instruction other than a system call leaves as it was. *)
Record framed (e e' : Exec) : Prop := mkFrame {
  f_mode : maybe_unconstrained e' = maybe_unconstrained e;
  f_host : host e' = host e;
  f_global : global_clk e' = global_clk e;
  f_pc : pc e' = pc e;
  f_clk : clk e' = clk e;
  f_max : max_trace_size e' = max_trace_size e;
  f_traces : maybe_unconstrained e <> None -> traces e' = traces e;
  f_memory : forall m0, in_block m0 (memory e) -> in_block m0 (memory e')
}.

#[export] Instance frame_preorder : PreOrder framed.
Proof.
  split.
  - intros e. split; auto.
  - intros e1 e2 e3 [] []. split; try congruence; auto. intros H. rewrite f_traces1; [auto | congruence].
Qed.

Lemma set_reg_frame (e e' : Exec) (r v : Z) : set_reg e r v = Ok e' -> framed e e'.
Proof. unfold set_reg. intros E. apply bind_ok in E as ([] & _ & E). apply Ok_inj in E as <-. split; auto. Qed.

Lemma with_next_pc_frame (e : Exec) (x : Z) : framed e (with_next_pc e x).
Proof. split; auto. Qed.

Lemma with_next_clk_frame (e : Exec) (x : Z) : framed e (with_next_clk e x).
Proof. split; auto. Qed.

Lemma trace_mem_frame (e : Exec) (v : MemValue) : framed e (trace_mem e v).
Proof.
  unfold trace_mem. destruct (traces e) eqn:Et; [|reflexivity]. destruct (maybe_unconstrained e) eqn:Em; [reflexivity|].
  split; auto. congruence.
Qed.

Lemma with_memory_frame (e : Exec) (m : LMem) :
  (forall m0, in_block m0 (memory e) -> in_block m0 m) -> framed e (with_memory e m).
Proof. intros H. split; auto. Qed.

Lemma trace_mem_memory (e : Exec) (v : MemValue) : memory (trace_mem e v) = memory e.
Proof. unfold trace_mem. destruct (traces e), (maybe_unconstrained e); reflexivity. Qed.

Lemma execute_load_frame (e e' : Exec) (i : Instruction) : execute_load e i = Ok e' -> framed e e'.
Proof.
  unfold execute_load. intros E. apply bind_ok in E as ([[rd rs1] off] & _ & E). apply bind_ok in E as (base & _ & E).
  apply bind_ok in E as ([mv write] & Em & E). cbn zeta in E. apply bind_ok in E as (v & _ & E).
  etransitivity; [apply (trace_mem_frame e mv)|]. etransitivity; [|exact (set_reg_frame _ _ _ _ E)].
  apply with_memory_frame. rewrite trace_mem_memory. intros m0 Hm. exact (get_mut_block m0 _ _ _ _ Hm Em _).
Qed.

Lemma execute_store_frame (e e' : Exec) (i : Instruction) : execute_store e i = Ok e' -> framed e e'.
Proof.
  unfold execute_store. intros E. apply bind_ok in E as ([[rs1 rs2] off] & _ & E). apply bind_ok in E as (src & _ & E).
  apply bind_ok in E as (base & _ & E). cbn zeta in E. apply bind_ok in E as ([last e1] & El & E).
  apply bind_ok in E as (v & _ & E). apply bind_ok in E as ([mv write] & Em & E). apply Ok_inj in E as <-.
  unfold mem_read_untracked in El. apply bind_ok in El as ([o m1] & Eo & El). apply Ok_inj in El. injection El as _ <-.
  etransitivity; [apply (with_memory_frame e m1); intros m0 Hm; exact (get_block m0 _ _ _ _ Hm Eo)|].
  etransitivity; [apply (trace_mem_frame _ mv)|]. apply with_memory_frame. rewrite trace_mem_memory.
  intros m0 Hm. exact (get_mut_block m0 _ _ _ _ Hm Em _).
Qed.

Lemma execute_alu_frame (e e' : Exec) (i : Instruction) : execute_alu e i = Ok e' -> framed e e'.
Proof.
  unfold execute_alu. intros E. apply bind_ok in E as (b & _ & E). apply bind_ok in E as (c & _ & E).
  apply bind_ok in E as (a & _ & E). exact (set_reg_frame _ _ _ _ E).
Qed.

Lemma execute_branch_frame (e e' : Exec) (i : Instruction) : execute_branch e i = Ok e' -> framed e e'.
Proof.
  unfold execute_branch. intros E. apply bind_ok in E as ([[rs1 rs2] off] & _ & E). apply bind_ok in E as (a & _ & E).
  apply bind_ok in E as (b & _ & E). apply bind_ok in E as (t & _ & E). apply Ok_inj in E as <-.
  destruct t; [apply with_next_pc_frame | reflexivity].
Qed.

Lemma execute_jump_frame (e e' : Exec) (i : Instruction) : execute_jump e i = Ok e' -> framed e e'.
Proof.
  unfold execute_jump. intros E. destruct (opcode i); try discriminate E.
  - apply bind_ok in E as ([rd off] & _ & E). etransitivity; [apply with_next_pc_frame | exact (set_reg_frame _ _ _ _ E)].
  - apply bind_ok in E as ([[rd rs1] off] & _ & E). apply bind_ok in E as (base & _ & E).
    apply bind_ok in E as (e1 & E1 & E). apply Ok_inj in E as <-.
    etransitivity; [exact (set_reg_frame _ _ _ _ E1) | apply with_next_pc_frame].
Qed.

Lemma execute_utype_frame (e e' : Exec) (i : Instruction) : execute_utype e i = Ok e' -> framed e e'.
Proof.
  unfold execute_utype. intros E. apply bind_ok in E as ([rd imm] & _ & E). apply bind_ok in E as (v & _ & E).
  exact (set_reg_frame _ _ _ _ E).
Qed.

(** ** System calls *)

Lemma read_values_frame (missing : Res Z) (addrs : list Z) (e e' : Exec) (vs : list Z) :
  read_values missing e addrs = Ok (vs, e') -> framed e e' /\ registers e' = registers e /\ next_pc e' = next_pc e /\
    next_clk e' = next_clk e.
Proof.
  revert e e' vs. induction addrs as [|a addrs IH]; intros e e' vs E; cbn [read_values] in E.
  - apply Ok_inj in E. injection E as _ <-. split; [reflexivity | auto].
  - apply bind_ok in E as ([o m] & Eo & E). apply bind_ok in E as (v & _ & E). apply bind_ok in E as ([vs' e1] & E1 & E).
    apply Ok_inj in E. injection E as _ <-. destruct (IH _ _ _ E1) as (Hf & Hr). split; [|exact Hr].
    etransitivity; [|exact Hf]. apply with_memory_frame. intros m0 Hm. exact (get_block m0 _ _ _ _ Hm Eo).
Qed.

(** The host apart from its streams. *)
Definition host_rest (h : HostState) := (exit_code h, public_value_digest h, hints h, page_prots h).

(** The state inside a block that was entered in the state [e]. *)
Record inside (e s : Exec) : Prop := mkInside {
  in_ctx : maybe_unconstrained s = Some (mkUnconstrainedCtx (registers e) (pc e) (clk e));
  in_memory : in_block (memory e) (memory s);
  in_traces : traces s = traces e;
  in_global : global_clk s = global_clk e;
  in_max : max_trace_size s = max_trace_size e;
  in_host : host_rest (host s) = (exit_code (host e), public_value_digest (host e), hints (host e),
    MaybeCowPageProt.copy_on_write (page_prots (host e)))
}.

Lemma inside_frame (e s s' : Exec) : inside e s -> framed s s' -> inside e s'.
Proof.
  intros [] []. assert (maybe_unconstrained s <> None) by congruence. split; try congruence; [auto | rewrite f_traces0; auto].
Qed.

Section Blocks.
Context (program : Program) (X : External).
Abbreviation handler := (ecall_handler program X).
Abbreviation step := (step_once program handler).

Lemma written_bytes_frame (e e' : Exec) (p n : Z) (bs : list Z) : written_bytes e p n = Ok (bs, e') -> framed e e'.
Proof.
  unfold written_bytes. cbn zeta. intros E. apply bind_ok in E as ([ws e1] & E1 & E). apply Ok_inj in E. injection E as _ <-.
  exact (proj1 (read_values_frame _ _ _ _ _ E1)).
Qed.

Lemma write_inside (e s s' : Exec) (fd p : Z) (r : option Z) :
  inside e s -> write (hook X) s fd p = Ok (s', r) -> inside e s'.
Proof.
  intros Hi E. unfold write in E. apply bind_ok in E as (n & _ & E). apply bind_ok in E as ([bs s1] & E1 & E).
  apply written_bytes_frame in E1. pose proof (inside_frame e s s1 Hi E1) as [].
  repeat (case_match; try (apply Ok_inj in E; injection E as <- _; split; assumption)).
Qed.

(** Inside a block a system call writes output, or leaves the block. *)
Lemma handler_inside (e s s' : Exec) (code : SyscallCode) (r : option Z) :
  inside e s -> handler s code = Ok (s', r) ->
  (code = WRITE /\ inside e s') \/ (code = EXIT_UNCONSTRAINED /\ exit_unconstrained s = Ok s' /\ r = Some 0).
Proof.
  intros Hi E. unfold ecall_handler in E. apply bind_ok in E as (a1 & _ & E). apply bind_ok in E as (a2 & _ & E).
  apply bind_ok in E as ([] & Ha & E). apply assertb_ok, negb_true_iff in Ha. apply bind_ok in E as ([s1 opt] & Es & E).
  apply Ok_inj in E. injection E as <- <-. unfold is_unconstrained in Ha. rewrite (in_ctx e s Hi) in Ha. cbn [andb] in Ha.
  destruct (decide (code = WRITE)) as [-> |].
  - left. split; [reflexivity|]. exact (write_inside _ _ _ _ _ _ Hi Es).
  - rewrite (bool_decide_false (code = WRITE)) in Ha by assumption. destruct (decide (code = EXIT_UNCONSTRAINED)) as [-> |].
    + right. cbn [syscall_result] in Es. apply bind_ok in Es as (s2 & Es & E). apply Ok_inj in E. injection E as <- <-. auto.
    + rewrite bool_decide_false in Ha by assumption. discriminate.
Qed.

Lemma dispatch_plain (e e' : Exec) (i : Instruction) :
  is_ecall_instruction i = false -> dispatch handler e i = Ok e' -> framed e e'.
Proof.
  intros Hi E. unfold dispatch in E. rewrite Hi in E.
  destruct (is_alu_instruction i); [exact (execute_alu_frame _ _ _ E)|].
  destruct (is_memory_load_instruction i); [exact (execute_load_frame _ _ _ E)|].
  destruct (is_memory_store_instruction i); [exact (execute_store_frame _ _ _ E)|].
  destruct (is_branch_instruction i); [exact (execute_branch_frame _ _ _ E)|].
  destruct (is_jump_instruction i); [exact (execute_jump_frame _ _ _ E)|].
  destruct (is_utype_instruction i); [exact (execute_utype_frame _ _ _ E)|]. discriminate.
Qed.

Lemma dispatch_ecall (e : Exec) (i : Instruction) :
  is_ecall_instruction i = true -> dispatch handler e i = execute_ecall handler e i.
Proof.
  intros Hi. unfold dispatch. unfold is_ecall_instruction in Hi |- *. unfold is_alu_instruction, is_memory_load_instruction,
    is_memory_store_instruction, is_branch_instruction, is_jump_instruction, is_utype_instruction.
  destruct (opcode i); try discriminate Hi; reflexivity.
Qed.

(** ** Steps *)

Definition start_of (e : Exec) : Exec :=
  with_next_clk (with_next_pc e (wrapping_add (pc e) PC_INC)) (wrapping_add (clk e) CLK_INC).

Definition finish (e : Exec) : Exec :=
  mkExecutor (<[0%nat := 0]> (registers e)) (memory e) (traces e) (next_pc e) (next_clk e)
    (match maybe_unconstrained e with None => wrapping_add (global_clk e) 1 | Some _ => global_clk e end)
    (next_pc e) (next_clk e) (max_trace_size e) (maybe_unconstrained e) (host e).

Lemma step_parts (e e' : Exec) : step e = Ok e' ->
  exists i e2, fetch program (pc e) = Some i /\ dispatch handler (start_of e) i = Ok e2 /\ e' = finish e2.
Proof.
  unfold step_once, execute_instruction. intros E. apply bind_ok in E as ([e4 b] & E & E'). apply Ok_inj in E' as <-.
  apply bind_ok in E as (i & Ei & E). apply of_option_ok in Ei. cbn zeta in E. apply bind_ok in E as (e2 & E2 & E).
  apply bind_ok in E as (e3 & E3 & E). apply bind_ok in E as (x & _ & E). apply Ok_inj in E. injection E as <- _.
  exists i, e2. split; [exact Ei|]. split; [exact E2|]. unfold post_instruction_update in E3.
  apply bind_ok in E3 as (e5 & E5 & E3). apply Ok_inj in E3 as <-. unfold set_reg in E5.
  apply bind_ok in E5 as ([] & _ & E5). apply Ok_inj in E5 as <-. reflexivity.
Qed.

Lemma start_frame (e : Exec) : framed e (start_of e).
Proof. etransitivity; [apply with_next_pc_frame | apply with_next_clk_frame]. Qed.

Lemma finish_inside (e s : Exec) : inside e s -> inside e (finish s).
Proof. intros []. split; try assumption. cbn. rewrite in_ctx0. assumption. Qed.

(** The executor after the block that was entered in the state [e]. *)
Record after_block (e e' : Exec) : Prop := mkAfterBlock {
  ab_registers : registers e' = <[0%nat := 0]> (<[5%nat := 0]> (registers e));
  ab_pc : pc e' = wrapping_add (pc e) PC_INC;
  ab_clk : clk e' = wrapping_add (clk e) (CLK_INC + 256);
  ab_global : global_clk e' = wrapping_add (global_clk e) 1;
  ab_memory : LimitedMemory.last_error (memory e') = None -> memory e' = memory e;
  ab_traces : traces e' = traces e;
  ab_mode : maybe_unconstrained e' = None;
  ab_host : host_rest (host e') = host_rest (host e)
}.

(** No copy is open between blocks. *)
Definition owned_mode (e : Exec) : Prop :=
  maybe_unconstrained e = None /\ LimitedMemory.before_cow (memory e) = None /\
  (exists m, LimitedMemory.memory (memory e) = MaybeCowMemory.Owned m) /\
  exists p, page_prots (host e) = MaybeCowPageProt.Owned p.

Lemma exit_restores (e s s' : Exec) :
  owned_mode e -> inside e s -> exit_unconstrained s = Ok s' ->
  registers s' = registers e /\ pc s' = pc e /\ clk s' = clk e /\ global_clk s' = global_clk e /\ traces s' = traces e /\
  maybe_unconstrained s' = None /\ host_rest (host s') = host_rest (host e) /\
  (LimitedMemory.last_error (memory s') = None -> memory s' = memory e).
Proof.
  intros (_ & Hb & _ & p & Hp) [Ic Im It Ig _ Ih] E. unfold exit_unconstrained in E. rewrite Ic in E. cbn [of_option bind] in E.
  destruct Im as ((copy & original & H0 & H1) & H2 & H3). unfold LimitedMemory.owned in E. rewrite H2 in E.
  cbn [of_option bind] in E. apply Ok_inj in E as <-. cbn. unfold host_rest in *. injection Ih as I1 I2 I3 I4. cbn.
  rewrite I4, Hp. split; [reflexivity|]. do 5 (split; [assumption || reflexivity|]).
  split; [cbn; congruence|]. intros En. destruct (H3 En) as [E0 Ed].
  rewrite H1. cbn [MaybeCowMemory.owned]. destruct (memory e) as [m l b er d]. cbn in *. congruence.
Qed.

Lemma execute_ecall_parts (s s' : Exec) (i : Instruction) : execute_ecall handler s i = Ok s' ->
  exists t0 code s1 v s2, reg s X5 = Ok t0 /\ from_u32 (as_u32 t0) = Ok code /\
    handler (if negb (bool_decide (code = EXIT_UNCONSTRAINED)) then with_next_clk s (wrapping_add (next_clk s) 256) else s) code =
      Ok (s1, Some v) /\
    set_reg s1 X5 v = Ok s2 /\ s' = handle_ecall_special_cases s2 code.
Proof.
  unfold execute_ecall. intros E. apply bind_ok in E as ([] & _ & E). apply bind_ok in E as (t0 & E0 & E).
  apply bind_ok in E as (code & Ec & E). cbn zeta in E. apply bind_ok in E as ([s1 r] & E1 & E).
  apply bind_ok in E as (v & Ev & E). apply bind_ok in E as (s2 & E2 & E). apply Ok_inj in E as <-.
  apply of_option_ok in Ev as ->. exists t0, code, s1, v, s2. auto.
Qed.

(** A step inside a block stays inside or leaves the block. *)
Lemma step_inside (e s s' : Exec) : owned_mode e -> inside e s -> step s = Ok s' -> inside e s' \/ after_block e s'.
Proof.
  intros Ho Hi E. destruct (step_parts s s' E) as (i & s2 & _ & E2 & ->).
  pose proof (inside_frame e s _ Hi (start_frame s)) as Hs. destruct (is_ecall_instruction i) eqn:Ei.
  2:{ left. apply finish_inside, (inside_frame e _ s2 Hs), (dispatch_plain _ _ i Ei E2). }
  rewrite dispatch_ecall in E2 by exact Ei. destruct (execute_ecall_parts _ _ _ E2) as (t0 & code & s1 & v & s3 & _ & _ & Eh & Er & ->).
  pose proof (set_reg_frame _ _ _ _ Er) as Hf.
  assert (Hh : inside e (if negb (bool_decide (code = EXIT_UNCONSTRAINED))
      then with_next_clk (start_of s) (wrapping_add (next_clk (start_of s)) 256) else start_of s))
    by (destruct (negb _); [apply (inside_frame e _ _ Hs), with_next_clk_frame | exact Hs]).
  destruct (handler_inside e _ s1 code (Some v) Hh Eh) as [[-> Hw] | (-> & Ex & [= ->])].
  - left. apply finish_inside. exact (inside_frame e _ _ Hw Hf).
  - right. rewrite bool_decide_true in Ex by reflexivity. cbn [negb] in Ex.
    destruct (exit_restores e _ s1 Ho Hs Ex) as (R1 & R2 & R3 & R4 & R5 & R6 & R7 & R8).
    unfold set_reg in Er. apply bind_ok in Er as ([] & _ & Er). apply Ok_inj in Er as <-.
    split; cbn; [rewrite R1; reflexivity | rewrite R2; reflexivity | rewrite R3; reflexivity | rewrite R6, R4; reflexivity
      | exact R8 | exact R5 | exact R6 | exact R7].
Qed.

Lemma step_enters (e e1 : Exec) (i : Instruction) (x5 : Z) :
  owned_mode e -> fetch program (pc e) = Some i -> is_ecall_instruction i = true -> reg e X5 = Ok x5 ->
  from_u32 (as_u32 x5) = Ok ENTER_UNCONSTRAINED -> step e = Ok e1 -> inside e e1.
Proof.
  intros (Hm & Hb & (m & Hmem) & p & Hp) Hf Hi H5 Hc E. destruct (step_parts e e1 E) as (i' & e2 & Ef & E2 & ->).
  rewrite Hf in Ef. injection Ef as <-. rewrite dispatch_ecall in E2 by exact Hi.
  destruct (execute_ecall_parts _ _ _ E2) as (t0 & code & s1 & v & s3 & E0 & Ec & Eh & Er & ->).
  change (reg (start_of e) X5) with (reg e X5) in E0. rewrite H5 in E0. apply Ok_inj in E0 as <-.
  rewrite Hc in Ec. apply Ok_inj in Ec as <-. apply finish_inside.
  apply (inside_frame e s1); [|exact (set_reg_frame _ _ _ _ Er)].
  unfold ecall_handler in Eh. apply bind_ok in Eh as (a1 & _ & Eh). apply bind_ok in Eh as (a2 & _ & Eh).
  apply bind_ok in Eh as ([] & _ & Eh). apply bind_ok in Eh as ([s opt] & Es & Eh). apply Ok_inj in Eh. injection Eh as <- _.
  cbn [syscall_result] in Es. apply bind_ok in Es as (s4 & Es & E4). apply Ok_inj in E4. injection E4 as <- _.
  unfold enter_unconstrained in Es. apply bind_ok in Es as ([] & _ & Es). apply Ok_inj in Es as <-.
  split; try reflexivity. split; [|split; [reflexivity | auto]].
  exists PagedMemory.new_preallocated, m. split; [exact Hmem|].
  change (MaybeCowMemory.copy_on_write (LimitedMemory.memory (memory e)) = MaybeCowMemory.new_cow m). rewrite Hmem. reflexivity.
Qed.

(** ** A block *)
Lemma block_run (e : Exec) (n : nat) (s s' : Exec) :
  owned_mode e -> inside e s -> run program handler n s = Ok s' ->
  (forall k sk, (k <= n)%nat -> run program handler k s = Ok sk -> maybe_unconstrained sk <> None) -> inside e s'.
Proof.
  intros Ho. revert s. induction n as [|n IH]; intros s Hi E Hu.
  - cbn in E. apply Ok_inj in E as <-. exact Hi.
  - cbn [run] in E. apply bind_ok in E as (s1 & E1 & E). apply (IH s1); [|exact E|].
    + destruct (step_inside e s s1 Ho Hi E1) as [|Ha]; [assumption|].
      exfalso. apply (Hu 1%nat s1 ltac:(lia)); [cbn; rewrite E1; reflexivity | apply Ha].
    + intros k sk Hk Ek. apply (Hu (S k)); [lia|]. cbn [run]. rewrite E1. exact Ek.
Qed.
End Blocks.
