(* ===== verification/SyscallFacts.v ===== *)
(** * What the system calls compute

    The slices a call reads and writes, over a memory without errors; the
    bytes that go in with HINT_READ come out with WRITE; the big-integer calls
    compute their arithmetic. *)

From stdpp Require Import base list gmap.
From Stdlib Require Import ZArith Lia Bool.
From S2P Require Import Prelude.
From S2P Require Import Words.
From S2P Require Import Isa.
From S2P Require Import SyscallCode.
From S2P Require Import Paging.
From S2P Require Import Memory.
From S2P Require Import Executor.
From S2P Require Import ExecutorFacts.
From S2P Require Import MemoryFacts Curves.
From S2P Require Import Syscalls.
Open Scope Z_scope.

(** ** Memory without a limit *)

(** The memory has recorded no error, has no limit, and holds [g]. *)
Definition holds_map (m : LimitedMemory.LimitedMemory MemValue) (g : gmap Z MemValue) : Prop :=
  exists top base, limited_inv m top base /\ LimitedMemory.last_error m = None /\
    limit_of (LimitedMemory.limiter m) = None /\ view top base = g.

Lemma holds_get (m : LimitedMemory.LimitedMemory MemValue) (g : gmap Z MemValue) (a : Z) :
  holds_map m g -> word_address a -> mem_get m a = Ok (g !! a, m).
Proof.
  intros (top & base & Hi & He & _ & <-) Ha. cbn [mem_get limited_memory]. unfold LimitedMemory.get.
  rewrite check_ptr_same by exact Ha. unfold LimitedMemory.has_last_error. rewrite He.
  rewrite (cow_get _ top base a (li_rep _ _ _ Hi) Ha). reflexivity.
Qed.

Lemma charge_holds (m : LimitedMemory.LimitedMemory MemValue) (top : gmap Z MemValue) (base : option (gmap Z MemValue))
    (a : Z) (x : MemValue) (mem : MaybeCowMemory.MaybeCowMemory MemValue) :
  limited_inv m top base -> LimitedMemory.last_error m = None -> limit_of (LimitedMemory.limiter m) = None ->
  cow_rep mem (<[a := x]> top) base ->
  holds_map (charge m (match top !! a with None => true | Some _ => false end) mem) (<[a := x]> (view top base)).
Proof.
  intros Hi He Hl Hm. destruct (charge_inv m top base a x mem Hi He Hm) as (Hi' & El & _). cbn zeta in Hi', El.
  exists (<[a := x]> top), base. split; [exact Hi'|]. split; [apply (charge_quiet m top base a mem Hi He); auto|]. split; [congruence|].
  unfold view. rewrite insert_union_l. reflexivity.
Qed.

Lemma holds_get_mut (m : LimitedMemory.LimitedMemory MemValue) (g : gmap Z MemValue) (a : Z) :
  holds_map m g -> word_address a ->
  exists write, mem_get_mut m a = Ok (default MemValue_default (g !! a), write) /\
    forall x, holds_map (write x) (<[a := x]> g).
Proof.
  intros (top & base & Hi & He & Hl & <-) Ha. cbn [mem_get_mut limited_memory]. unfold LimitedMemory.get_mut.
  rewrite check_ptr_same by exact Ha. unfold LimitedMemory.has_last_error. rewrite He.
  destruct (cow_entry _ top base a (li_rep _ _ _ Hi) Ha) as (e & dup & -> & Ev & Hd & Hp). cbn [bind].
  fold (vacant e). rewrite Hd.
  assert (Ho : Entry.or_insert e MemValue_default = (default MemValue_default (view top base !! a), Entry.put e))
    by (rewrite <- Ev; destruct e; reflexivity).
  rewrite Ho. eexists. split; [reflexivity|]. intros x. exact (charge_holds m top base a x _ Hi He Hl (Hp x)).
Qed.

Lemma holds_insert (m : LimitedMemory.LimitedMemory MemValue) (g : gmap Z MemValue) (a : Z) (x : MemValue) :
  holds_map m g -> word_address a -> exists m', LimitedMemory.insert m a x = Ok m' /\ holds_map m' (<[a := x]> g).
Proof.
  intros (top & base & Hi & He & Hl & <-) Ha. unfold LimitedMemory.insert. rewrite check_ptr_same by exact Ha.
  unfold LimitedMemory.has_last_error. rewrite He.
  destruct (cow_insert _ top base a x (li_rep _ _ _ Hi) Ha) as (mem & -> & Hm). cbn [bind]. eexists. split; [reflexivity|].
  pose proof (charge_holds m top base a x mem Hi He Hl Hm) as H. unfold charge in H. destruct (top !! a); exact H.
Qed.

(** ** Accesses *)

Definition val (g : gmap Z MemValue) (a : Z) : Z := mv_value (default MemValue_default (g !! a)).

(** The same values, with possibly more entries. *)
Definition same_values (g g' : gmap Z MemValue) : Prop :=
  (forall a, val g' a = val g a) /\ forall a, is_Some (g !! a) -> is_Some (g' !! a).

#[export] Instance same_values_preorder : PreOrder same_values.
Proof.
  split; [split; auto|]. intros g1 g2 g3 [H1 H2] [H3 H4]. split; [intros a; rewrite H3; apply H1 | auto].
Qed.

Lemma same_values_touch (g : gmap Z MemValue) (a : Z) (x : MemValue) :
  mv_value x = val g a -> same_values g (<[a := x]> g).
Proof.
  intros Hx. split; intros b; unfold val; destruct (decide (a = b)) as [<- | Hne].
  - rewrite lookup_insert_eq. exact Hx.
  - rewrite lookup_insert_ne by exact Hne. reflexivity.
  - rewrite lookup_insert_eq. eauto.
  - rewrite lookup_insert_ne by exact Hne. auto.
Qed.

(** What an access leaves of the executor. *)
Record accessed (e e' : Exec) : Prop := mkAccessed {
  ac_registers : registers e' = registers e;
  ac_pc : pc e' = pc e;
  ac_global : global_clk e' = global_clk e;
  ac_next_pc : next_pc e' = next_pc e;
  ac_next_clk : next_clk e' = next_clk e;
  ac_max : max_trace_size e' = max_trace_size e;
  ac_mode : maybe_unconstrained e' = maybe_unconstrained e;
  ac_host : host e' = host e
}.

#[export] Instance accessed_preorder : PreOrder accessed.
Proof. split; [split; reflexivity | intros e1 e2 e3 [] []; split; congruence]. Qed.

Lemma extend_trace_accessed (e : Exec) (vs : list MemValue) : accessed e (extend_trace e vs).
Proof. unfold extend_trace. destruct (traces e); split; reflexivity. Qed.

Lemma extend_trace_memory (e : Exec) (vs : list MemValue) : memory (extend_trace e vs) = memory e.
Proof. unfold extend_trace. destruct (traces e); reflexivity. Qed.

Lemma with_memory_accessed (e : Exec) (m : LimitedMemory.LimitedMemory MemValue) : accessed e (with_memory e m).
Proof. split; reflexivity. Qed.

Lemma with_clk_accessed (e : Exec) (c : Z) : accessed e (with_clk e c).
Proof. split; reflexivity. Qed.

Lemma bump_accessed (e : Exec) : accessed e (bump_memory_clk e).
Proof. split; reflexivity. Qed.

Lemma accessed_bump (e e1 e2 : Exec) : accessed e e1 -> accessed (bump_memory_clk e1) e2 -> accessed e e2.
Proof. intros H1 H2. etransitivity; [exact H1|]. etransitivity; [apply bump_accessed | exact H2]. Qed.

Lemma mr_ok (e : Exec) (g : gmap Z MemValue) (a : Z) :
  holds_map (memory e) g -> word_address a ->
  exists e' g', mr_without_prot e a = Ok (val g a, e') /\ holds_map (memory e') g' /\ same_values g g' /\
    accessed e e' /\ clk e' = clk e.
Proof.
  intros Hg Ha. unfold mr_without_prot. destruct (holds_get_mut _ g a Hg Ha) as (write & -> & Hw). cbn [bind].
  eexists _, _. split; [reflexivity|]. split; [apply Hw|].
  split; [apply same_values_touch; destruct (is_tracing _); reflexivity|].
  split; [etransitivity; [apply extend_trace_accessed | apply with_memory_accessed]|].
  cbn. unfold extend_trace. destruct (traces e); reflexivity.
Qed.

Lemma mw_ok (e : Exec) (g : gmap Z MemValue) (a v : Z) :
  holds_map (memory e) g -> word_address a ->
  exists e', mw_without_prot e a v = Ok e' /\ holds_map (memory e') (<[a := mkMemValue (clk e) v]> g) /\
    accessed e e' /\ clk e' = clk e.
Proof.
  intros Hg Ha. unfold mw_without_prot. destruct (holds_get_mut _ g a Hg Ha) as (write & -> & Hw). cbn [bind].
  eexists. split; [reflexivity|]. split; [apply Hw|].
  split; [etransitivity; [apply extend_trace_accessed | apply with_memory_accessed]|].
  cbn. unfold extend_trace. destruct (traces e); reflexivity.
Qed.

(** *** Slices *)

Definition slice_ok (addr : Z) (len : nat) : Prop :=
  0 <= addr /\ addr mod 8 = 0 /\ addr + 8 * Z.of_nat len <= 2 ^ MAX_LOG_ADDR.

Definition addrs (addr : Z) (len : nat) : list Z := map (fun i => addr + 8 * Z.of_nat i) (seq 0 len).

Lemma slice_word (addr : Z) (len i : nat) : slice_ok addr len -> (i < len)%nat -> word_address (addr + 8 * Z.of_nat i).
Proof. intros (H0 & Ha & Hl) Hi. unfold word_address, in_space, MAX_LOG_ADDR in *. dlia. Qed.

Lemma addrs_word (addr : Z) (len : nat) : slice_ok addr len -> Forall word_address (addrs addr len).
Proof.
  intros Hs. unfold addrs. apply Forall_map, Forall_seq. intros i Hi. apply (slice_word addr len); [exact Hs | lia].
Qed.

Lemma slice_addrs_eq (addr : Z) (len : nat) : slice_ok addr len -> slice_addrs addr len = addrs addr len.
Proof.
  intros (H0 & Ha & Hl). apply map_ext_in. intros i Hi. apply in_seq in Hi. unfold MAX_LOG_ADDR in Hl.
  unfold as_u64. rewrite as_unsigned_id by (unfold is_u; lia). lia.
Qed.

Lemma range_addrs_eq (addr : Z) (len : nat) : slice_ok addr len -> range_addrs addr (slice_end addr len) = addrs addr len.
Proof.
  intros (H0 & Ha & Hl). unfold range_addrs, slice_end, addrs, as_u64. unfold MAX_LOG_ADDR in Hl.
  rewrite as_unsigned_id by (unfold is_u; lia). do 2 f_equal. dlia.
Qed.

Lemma touch_ok (bump : bool) (l : list Z) (e : Exec) (g : gmap Z MemValue) :
  holds_map (memory e) g -> Forall word_address l ->
  exists e' g', touch bump e l = Ok e' /\ holds_map (memory e') g' /\ same_values g g' /\
    (forall a, a ∈ l -> is_Some (g' !! a)) /\ accessed e e' /\ clk e' = clk e.
Proof.
  revert e g. induction l as [|a l IH]; intros e g Hg Hl.
  - exists e, g. split; [reflexivity|]. split; [exact Hg|]. split; [reflexivity|].
    split; [intros a Ha; apply not_elem_of_nil in Ha; tauto | split; reflexivity].
  - apply Forall_cons in Hl as [Ha Hl]. cbn [touch]. destruct (holds_get_mut _ g a Hg Ha) as (write & -> & Hw). cbn [bind].
    set (new := if _ && _ then _ else _). set (e1 := with_memory _ _).
    assert (Hn : same_values g (<[a := new]> g)) by (apply same_values_touch; unfold new; destruct (_ && _); reflexivity).
    destruct (IH e1 (<[a := new]> g) (Hw new) Hl) as (e' & g' & E & Hg' & Hs & Hp & Hac & Hc).
    exists e', g'. split; [exact E|]. split; [exact Hg'|]. split; [etransitivity; eassumption|]. split; [|split].
    + intros b Hb. apply elem_of_cons in Hb as [-> | Hb]; [|auto]. apply Hs. rewrite lookup_insert_eq. eauto.
    + etransitivity; [|exact Hac]. etransitivity; [apply extend_trace_accessed | apply with_memory_accessed].
    + rewrite Hc. unfold e1, extend_trace. destruct (traces e); reflexivity.
Qed.

Lemma read_values_ok (missing : Res Z) (l : list Z) (e : Exec) (g : gmap Z MemValue) :
  holds_map (memory e) g -> Forall word_address l ->
  missing = Ok 0 \/ (forall a, a ∈ l -> is_Some (g !! a)) ->
  read_values missing e l = Ok (map (val g) l, e).
Proof.
  revert e. induction l as [|a l IH]; intros e Hg Hl Hm; [reflexivity|]. apply Forall_cons in Hl as [Ha Hl].
  cbn [read_values map]. rewrite (holds_get _ g a Hg Ha). cbn [bind].
  assert (Hv : match g !! a with Some v => Ok (mv_value v) | None => missing end = Ok (val g a)).
  { unfold val. destruct (g !! a) eqn:E; [reflexivity|]. destruct Hm as [-> | Hm]; [reflexivity|].
    destruct (Hm a ltac:(left)) as [x Hx]. congruence. }
  rewrite Hv. cbn [bind]. assert (Ee : with_memory e (memory e) = e) by (destruct e; reflexivity). rewrite Ee, IH; auto.
  destruct Hm as [|Hm]; [auto | right; intros b Hb; apply Hm; right; exact Hb].
Qed.

Lemma mr_slice_ok (bump : bool) (e : Exec) (g : gmap Z MemValue) (addr : Z) (len : nat) :
  holds_map (memory e) g -> slice_ok addr len ->
  exists e' g', (if bump then mr_slice_without_prot else mr_slice_unsafe) e addr len = Ok (map (val g) (addrs addr len), e') /\
    holds_map (memory e') g' /\ same_values g g' /\ accessed e e' /\ clk e' = clk e.
Proof.
  intros Hg Hs. pose proof (addrs_word addr len Hs) as Hw.
  destruct (touch_ok bump (addrs addr len) e g Hg Hw) as (e' & g' & Et & Hg' & Hv & Hp & Hac & Hc). exists e', g'.
  assert (Hr : read_values Panic e' (addrs addr len) = Ok (map (val g) (addrs addr len), e')).
  { rewrite (read_values_ok Panic _ e' g' Hg' Hw (or_intror Hp)). do 2 f_equal. apply map_ext. intros a. apply Hv. }
  split; [|auto]. destruct bump; unfold mr_slice_without_prot, mr_slice_unsafe;
    rewrite slice_addrs_eq, range_addrs_eq, Et by exact Hs; exact Hr.
Qed.

(** The map after a slice has been written. *)
Fixpoint put_all (c : Z) (g : gmap Z MemValue) (l : list (Z * Z)) : gmap Z MemValue :=
  match l with [] => g | (a, v) :: l => put_all c (<[a := mkMemValue c v]> g) l end.

Lemma mw_all_ok (l : list (Z * Z)) (e : Exec) (g : gmap Z MemValue) :
  holds_map (memory e) g -> Forall (fun p => word_address (fst p)) l ->
  exists e', mw_all e l = Ok e' /\ holds_map (memory e') (put_all (clk e) g l) /\ accessed e e' /\ clk e' = clk e.
Proof.
  revert e g. induction l as [|[a v] l IH]; intros e g Hg Hl.
  - exists e. split; [reflexivity|]. split; [exact Hg | split; reflexivity].
  - apply Forall_cons in Hl as [Ha Hl]. cbn [mw_all put_all].
    destruct (mw_ok e g a v Hg Ha) as (e1 & -> & Hg1 & Ha1 & Hc1). cbn [bind].
    destruct (IH e1 _ Hg1 Hl) as (e' & -> & Hg' & Ha' & Hc'). exists e'. rewrite Hc1 in Hg', Hc'.
    split; [reflexivity|]. split; [exact Hg'|]. split; [etransitivity; eassumption | exact Hc'].
Qed.

Lemma mw_slice_ok (e : Exec) (g : gmap Z MemValue) (addr : Z) (vals : list Z) :
  holds_map (memory e) g -> slice_ok addr (length vals) ->
  exists e', mw_slice_without_prot e addr vals = Ok e' /\
    holds_map (memory e') (put_all (clk e) g (combine (addrs addr (length vals)) vals)) /\ accessed e e' /\ clk e' = clk e.
Proof.
  intros Hg Hs. unfold mw_slice_without_prot. rewrite slice_addrs_eq by exact Hs. apply mw_all_ok; [exact Hg|].
  apply Forall_forall. intros [a v] Hin. apply list_elem_of_In, in_combine_l in Hin.
  exact (proj1 (List.Forall_forall _ _) (addrs_word addr _ Hs) a Hin).
Qed.

(** *** Reading back *)

Lemma put_all_val (c : Z) (l : list (Z * Z)) (g : gmap Z MemValue) (a : Z) :
  NoDup (map fst l) -> val (put_all c g l) a = default (val g a) ((list_to_map l : gmap Z Z) !! a).
Proof.
  revert g. induction l as [|[b v] l IH]; intros g Hn; [reflexivity|]. cbn [map fst] in Hn. apply NoDup_cons in Hn as [Hb Hn].
  cbn [put_all list_to_map foldr]. rewrite IH by exact Hn. unfold val at 1. destruct (decide (b = a)) as [<- | Hne].
  - rewrite !lookup_insert_eq. rewrite not_elem_of_list_to_map_1 by exact Hb. reflexivity.
  - rewrite !lookup_insert_ne by exact Hne. reflexivity.
Qed.

Lemma addrs_length (addr : Z) (len : nat) : length (addrs addr len) = len.
Proof. unfold addrs. rewrite length_map, length_seq. reflexivity. Qed.

Lemma addrs_lookup (addr : Z) (len i : nat) : (i < len)%nat -> addrs addr len !! i = Some (addr + 8 * Z.of_nat i).
Proof.
  intros Hi. unfold addrs. apply (list_lookup_fmap_Some (fun i => addr + 8 * Z.of_nat i)). exists i.
  split; [reflexivity|]. apply lookup_seq. lia.
Qed.

Lemma addrs_NoDup (addr : Z) (len : nat) : NoDup (addrs addr len).
Proof. apply (NoDup_fmap_2_strong (fun i => addr + 8 * Z.of_nat i)); [intros x y _ _; lia | apply NoDup_seq]. Qed.

Lemma combine_fst {A B} (l : list A) (k : list B) : length l = length k -> map fst (combine l k) = l.
Proof. revert k. induction l as [|x l IH]; intros [|y k] E; try discriminate; [reflexivity|]. cbn. rewrite IH by (cbn in E; lia). reflexivity. Qed.

Lemma combine_map (l : list Z) (k : list Z) (i : nat) (a v : Z) :
  NoDup l -> length l = length k -> l !! i = Some a -> k !! i = Some v -> (list_to_map (combine l k) : gmap Z Z) !! a = Some v.
Proof.
  intros Hn El Hl Hk. apply elem_of_list_to_map_1; [rewrite combine_fst; assumption|].
  apply list_elem_of_lookup_2 with i. revert k i El Hl Hk. clear Hn. induction l as [|x l IH]; intros [|y k] [|i] El Hl Hk; try discriminate.
  - cbn in *. congruence.
  - cbn in *. apply IH; [lia | assumption | assumption].
Qed.

(** A slice that has been written reads as written, and nothing else has
    changed. *)
Lemma read_back (c : Z) (g : gmap Z MemValue) (addr : Z) (vals : list Z) :
  let g' := put_all c g (combine (addrs addr (length vals)) vals) in
  map (val g') (addrs addr (length vals)) = vals /\ forall a, a ∉ addrs addr (length vals) -> val g' a = val g a.
Proof.
  assert (El : length (addrs addr (length vals)) = length vals) by apply addrs_length.
  assert (Hn : NoDup (map fst (combine (addrs addr (length vals)) vals))) by (rewrite combine_fst by exact El; apply addrs_NoDup).
  cbn zeta. split.
  - apply list_eq. intros i. rewrite list_lookup_fmap. destruct (vals !! i) as [v|] eqn:Ev.
    + pose proof (lookup_lt_Some _ _ _ Ev) as Hi. rewrite addrs_lookup by exact Hi. cbn. rewrite put_all_val by exact Hn.
      rewrite (combine_map _ _ i _ v (addrs_NoDup _ _) El (addrs_lookup _ _ _ Hi) Ev). reflexivity.
    + apply lookup_ge_None in Ev. rewrite lookup_ge_None_2 by lia. reflexivity.
  - intros a Ha. rewrite put_all_val by exact Hn. rewrite not_elem_of_list_to_map_1; [reflexivity|].
    change (a ∉ map fst (combine (addrs addr (length vals)) vals)). rewrite combine_fst by exact El. exact Ha.
Qed.

(** ** Bytes *)

Lemma le_bytes_value (l : list Z) : Forall is_u8 l -> le_bytes (length l) (le_value 8 l) = l.
Proof.
  intros H. induction H as [|x l Hx _ IH]; [reflexivity|]. cbn [length le_bytes le_value]. unfold is_u in Hx.
  rewrite (Z.mul_comm (2 ^ 8)), Z_mod_plus_full, Z.mod_small, Z.div_add, (Z.div_small x), Z.add_0_l, IH by lia. reflexivity.
Qed.

(** The byte at an address. *)
Definition byte_at (g : gmap Z MemValue) (a : Z) : Z := (val g (word_of a) / 2 ^ (8 * (a mod 8))) mod 2 ^ 8.

Definition byte_addrs (a : Z) (n : nat) : list Z := map (fun i => a + Z.of_nat i) (seq 0 n).

Lemma byte_addrs_app (a : Z) (m n : nat) : byte_addrs a (m + n) = byte_addrs a m ++ byte_addrs (a + Z.of_nat m) n.
Proof.
  unfold byte_addrs. rewrite seq_app, map_app. f_equal. replace (0 + m)%nat with (m + 0)%nat by lia.
  rewrite <- (fmap_add_seq m 0 n). change (?f <$> ?l) with (map f l). rewrite map_map. apply map_ext. intros i. lia.
Qed.

Lemma word_bytes (g : gmap Z MemValue) (a : Z) : a mod 8 = 0 -> map (byte_at g) (byte_addrs a 8) = to_le_bytes (val g a).
Proof.
  intros Ha. assert (H : forall i, 0 <= i < 8 -> byte_at g (a + i) = (val g a / 2 ^ (8 * i)) mod 2 ^ 8).
  { intros i Hi. unfold byte_at, word_of. replace ((a + i) mod 8) with i by dlia. replace (a + i - i) with a by lia. reflexivity. }
  unfold byte_addrs, to_le_bytes. cbn [seq map le_bytes]. rewrite !H by (cbn; lia). rewrite !Z.div_div by lia.
  cbn [Z.of_nat]. rewrite Z.mul_0_r, Z.pow_0_r, Z.div_1_r. reflexivity.
Qed.

Lemma words_bytes (g : gmap Z MemValue) (a : Z) (k : nat) :
  a mod 8 = 0 -> map (byte_at g) (byte_addrs a (8 * k)) = flat_map to_le_bytes (map (val g) (addrs a k)).
Proof.
  revert a. induction k as [|k IH]; intros a Ha; [reflexivity|].
  replace (8 * S k)%nat with (8 + 8 * k)%nat by lia. rewrite byte_addrs_app, map_app, word_bytes, IH by (exact Ha || dlia).
  unfold addrs. cbn [seq map flat_map]. rewrite Z.mul_0_r, Z.add_0_r. f_equal. f_equal. rewrite <- seq_shift, !map_map.
  apply map_ext. intros i. f_equal. lia.
Qed.

Lemma byte_addrs_slice (a : Z) (m h n : nat) :
  (h + n <= m)%nat -> take n (drop h (byte_addrs a m)) = byte_addrs (a + Z.of_nat h) n.
Proof.
  intros Hm. replace m with (h + (n + (m - h - n)))%nat by lia. rewrite byte_addrs_app, drop_app_length' by
    (unfold byte_addrs; rewrite length_map, length_seq; reflexivity).
  rewrite byte_addrs_app, take_app_length' by (unfold byte_addrs; rewrite length_map, length_seq; reflexivity). reflexivity.
Qed.

(** WRITE draws the bytes of the slice. *)
Lemma written_bytes_ok (e : Exec) (g : gmap Z MemValue) (p n : Z) :
  holds_map (memory e) g -> 0 <= p -> 0 <= n -> p + n <= 2 ^ MAX_LOG_ADDR ->
  written_bytes e p n = Ok (map (byte_at g) (byte_addrs p (Z.to_nat n)), e).
Proof.
  intros Hg Hp Hn Hl. unfold MAX_LOG_ADDR in Hl. assert (Hu : is_u64 p) by (unfold is_u; lia). unfold written_bytes. cbn zeta.
  pose proof (aligned_eq p Hu) as Ha. unfold aligned in Ha. rewrite Ha. replace (Z.land p 7) with (p mod 8) by (symmetry; apply (land_mask p 3); lia).
  set (h := p mod 8). pose proof (Z.mod_pos_bound p 8 ltac:(lia)) as Hh. fold h in Hh.
  destruct (Z.eqb_spec n 0) as [-> | Hnz]; [cbn [read_values bind]; reflexivity|].
  unfold as_u64. rewrite (as_unsigned_id 64 (h + n)) by (unfold is_u; lia).
  set (k := Z.to_nat ((h + n + 7) / 8)). assert (Hk : Z.of_nat k = (h + n + 7) / 8) by (unfold k; dlia).
  assert (Hs : slice_ok (p - h) k) by (unfold slice_ok, MAX_LOG_ADDR; unfold h in *; dlia).
  assert (Er : range_addrs (p - h) (as_unsigned 64 (p - h + (h + n + 7) / 8 * 8)) = addrs (p - h) k)
    by (rewrite <- Hk; apply range_addrs_eq, Hs).
  rewrite Er, (read_values_ok (Ok 0) _ e g Hg (addrs_word _ _ Hs)) by (left; reflexivity). cbn [bind]. do 2 f_equal.
  rewrite <- words_bytes by (unfold h; dlia).
  rewrite skipn_map, firstn_map. f_equal. rewrite byte_addrs_slice by (clear Er; clearbody k h; dlia). f_equal. lia.
Qed.

Lemma as_chunks_spec (fuel : nat) (bytes : list Z) :
  (length bytes <= fuel)%nat -> let (chunks, remainder) := as_chunks fuel bytes in
  concat chunks ++ remainder = bytes /\ Forall (fun c => length c = 8%nat) chunks /\ (length remainder < 8)%nat.
Proof.
  revert bytes. induction fuel as [|fuel IH]; intros bytes Hf; cbn [as_chunks].
  - destruct bytes; cbn in *; [split; [reflexivity|]; split; [constructor | lia] | lia].
  - destruct (length bytes <? 8)%nat eqn:E; [apply Nat.ltb_lt in E; split; [reflexivity | split; [constructor | exact E]]|].
    apply Nat.ltb_ge in E. specialize (IH (drop 8 bytes) ltac:(rewrite length_drop; lia)).
    destruct (as_chunks fuel (drop 8 bytes)) as [chunks remainder]. destruct IH as (H1 & H2 & H3).
    split; [cbn; rewrite <- app_assoc, H1; apply take_drop|].
    split; [constructor; [rewrite length_take; lia | exact H2] | exact H3].
Qed.

Lemma mw_hints_ok (l : list (Z * Z)) (e : Exec) (g : gmap Z MemValue) :
  holds_map (memory e) g -> Forall (fun p => word_address (fst p)) l ->
  exists m, mw_hints e l = Ok (with_memory e m) /\ holds_map m (put_all 0 g l).
Proof.
  revert e g. induction l as [|[a v] l IH]; intros e g Hg Hl.
  - exists (memory e). split; [destruct e; reflexivity | exact Hg].
  - apply Forall_cons in Hl as [Ha Hl]. cbn [mw_hints put_all]. unfold mw_hint.
    destruct (holds_insert (memory e) g a (mkMemValue 0 v) Hg Ha) as (m & -> & Hm). cbn [bind].
    destruct (IH (with_memory e m) _ Hm Hl) as (m' & E & Hm'). exists m'. split; [exact E | exact Hm'].
Qed.

Lemma mw_hints_app (l1 l2 : list (Z * Z)) (e : Exec) :
  mw_hints e (l1 ++ l2) = let* e := mw_hints e l1 in mw_hints e l2.
Proof.
  revert e. induction l1 as [|[a v] l1 IH]; intros e; [reflexivity|]. cbn [app mw_hints].
  destruct (mw_hint e a v); cbn [bind]; [apply IH | reflexivity].
Qed.

Lemma chunk_bytes (chunks : list (list Z)) :
  Forall (fun c => length c = 8%nat) chunks -> Forall is_u8 (concat chunks) ->
  flat_map to_le_bytes (map (le_value 8) chunks) = concat chunks.
Proof.
  intros Hl Hb. induction Hl as [|c chunks Hc _ IH]; [reflexivity|]. cbn [concat] in Hb. apply Forall_app in Hb as [Hb1 Hb2].
  cbn [map flat_map concat]. rewrite IH by exact Hb2. f_equal. unfold to_le_bytes. rewrite <- Hc at 1. apply le_bytes_value, Hb1.
Qed.

Lemma addrs_app (a : Z) (k : nat) : addrs a k ++ [a + 8 * Z.of_nat k] = addrs a (k + 1).
Proof. unfold addrs. rewrite seq_app, map_app. reflexivity. Qed.

Lemma trace_hint_frame (e : Exec) (a : Z) (v : list Z) :
  memory (trace_hint e a v) = memory e /\ registers (trace_hint e a v) = registers e /\
  input (host (trace_hint e a v)) = input (host e) /\
  public_values_stream (host (trace_hint e a v)) = public_values_stream (host e).
Proof. unfold trace_hint. destruct (is_tracing e); auto. Qed.

(** The doublewords of an input: its full chunks and a padded one. *)
Definition hint_words (vec : list Z) : list Z :=
  let (chunks, remainder) := as_chunks (length vec) vec in
  map (le_value 8) chunks ++ [le_value 8 (remainder ++ replicate (8 - length remainder) 0)].

Lemma hint_words_spec (vec : list Z) : Forall is_u8 vec ->
  length (hint_words vec) = (length vec / 8 + 1)%nat /\ exists pad, flat_map to_le_bytes (hint_words vec) = vec ++ pad.
Proof.
  intros Hb. unfold hint_words. pose proof (as_chunks_spec (length vec) vec (le_n _)) as Hc.
  destruct (as_chunks (length vec) vec) as [chunks remainder]. destruct Hc as (Hv & Hl & Hr).
  assert (Hlen : length (concat chunks) = (length chunks * 8)%nat).
  { clear -Hl. induction Hl as [|c l Hc _ IH]; [reflexivity|]. cbn. rewrite length_app, IH. lia. }
  rewrite <- Hv in Hb. apply Forall_app in Hb as [Hb1 Hb2]. split.
  - rewrite length_app, length_map, <- Hv, length_app, Hlen, Nat.div_add_l, (Nat.div_small (length remainder)) by lia.
    cbn. lia.
  - exists (replicate (8 - length remainder) 0). rewrite flat_map_app, chunk_bytes by assumption. cbn [flat_map].
    rewrite app_nil_r, <- Hv, <- app_assoc. f_equal. unfold to_le_bytes. set (pad := remainder ++ _).
    assert (Hp8 : length pad = 8%nat) by (unfold pad; rewrite length_app, length_replicate; lia). rewrite <- Hp8 at 1.
    apply le_bytes_value. unfold pad. apply Forall_app. split; [exact Hb2|]. apply Forall_replicate. unfold is_u. lia.
Qed.

Lemma hint_read_writes (e : Exec) (ptr : Z) (vec : list Z) (rest : list (list Z)) :
  input (host e) = vec :: rest -> Forall is_u8 vec -> slice_ok ptr (length vec / 8 + 1) ->
  hint_read e ptr (Z.of_nat (length vec)) =
  let* e := mw_hints (trace_hint (with_input e rest) ptr vec) (combine (addrs ptr (length (hint_words vec))) (hint_words vec)) in
  Ok (e, None).
Proof.
  intros Hin Hb Hs. pose proof (proj1 (hint_words_spec vec Hb)) as Hw. unfold hint_read, hint_words in *.
  rewrite Hin, Z.eqb_refl. cbn [assertb bind]. pose proof Hs as (H0 & Ha & H1). rewrite Ha. cbn [Z.eqb assertb bind].
  destruct (as_chunks (length vec) vec) as [chunks remainder]. rewrite length_app, length_map in *. cbn [length] in *.
  rewrite <- addrs_app, combine_app, mw_hints_app by (rewrite addrs_length, length_map; reflexivity).
  rewrite slice_addrs_eq by (unfold slice_ok in *; lia). destruct (mw_hints _ _) as [e2|]; [|reflexivity]. cbn [bind combine mw_hints].
  replace (as_u64 _) with (ptr + 8 * Z.of_nat (length chunks)); [destruct (mw_hint e2 _ _); reflexivity|].
  unfold as_u64. rewrite as_unsigned_id; [lia|]. unfold is_u, MAX_LOG_ADDR in *. lia.
Qed.

(** HINT_READ takes the first input and leaves its bytes at the pointer; the
    doublewords before and after keep their values. *)
Lemma hint_read_ok (e : Exec) (g : gmap Z MemValue) (ptr : Z) (vec : list Z) (rest : list (list Z)) :
  holds_map (memory e) g -> input (host e) = vec :: rest -> Forall is_u8 vec ->
  slice_ok ptr (length vec / 8 + 1) ->
  exists e' g', hint_read e ptr (Z.of_nat (length vec)) = Ok (e', None) /\ holds_map (memory e') g' /\
    map (byte_at g') (byte_addrs ptr (length vec)) = vec /\
    (forall a, a ∉ addrs ptr (length vec / 8 + 1) -> val g' a = val g a) /\
    registers e' = registers e /\ input (host e') = rest /\
    public_values_stream (host e') = public_values_stream (host e).
Proof.
  intros Hg Hin Hb Hs. rewrite (hint_read_writes e ptr vec rest Hin Hb Hs). destruct (hint_words_spec vec Hb) as [Hw [pad Hpad]].
  set (words := hint_words vec) in *. set (e0 := trace_hint (with_input e rest) ptr vec).
  destruct (trace_hint_frame (with_input e rest) ptr vec) as (Tm & Tr & Ti & Tp). fold e0 in Tm, Tr, Ti, Tp.
  assert (Hg0 : holds_map (memory e0) g) by (rewrite Tm; exact Hg). rewrite <- Hw in Hs |- *.
  destruct (mw_hints_ok (combine (addrs ptr (length words)) words) e0 g Hg0) as (m & -> & Hm).
  { apply Forall_forall. intros [a v] Hi. apply list_elem_of_In, in_combine_l in Hi.
    exact (proj1 (List.Forall_forall _ _) (addrs_word ptr _ Hs) a Hi). }
  cbn [bind]. destruct (read_back 0 g ptr words) as [Hread Hout].
  eexists _, _. split; [reflexivity|]. split; [exact Hm|]. split; [|split; [exact Hout | auto]].
  pose proof (words_bytes (put_all 0 g (combine (addrs ptr (length words)) words)) ptr (length words) (proj1 (proj2 Hs))) as Hbytes.
  rewrite Hread, Hpad in Hbytes. apply (f_equal (take (length vec))) in Hbytes. rewrite take_app_length, firstn_map in Hbytes.
  rewrite <- Hbytes at 2. f_equal. replace ptr with (ptr + Z.of_nat 0) at 1 by lia. symmetry. apply (byte_addrs_slice ptr _ 0). rewrite Hw. pose proof (Nat.div_mod_eq (length vec) 8). pose proof (Nat.mod_upper_bound (length vec) 8). lia.
Qed.

(** ** Big integers *)

Lemma from_slice_words (ws : list Z) : Forall is_u64 ws -> from_slice (u64_to_u32 ws) = le_value 64 ws.
Proof.
  intros H. unfold from_slice, u64_to_u32. induction H as [|w ws Hw _ IH]; [reflexivity|]. cbn [flat_map app le_value].
  rewrite IH. unfold as_u32, shr. rewrite Z.shiftr_div_pow2 by lia. unfold as_unsigned, is_u in *.
  rewrite (Z.mod_small (w / 2 ^ 32)) by dlia. change (2 ^ 64) with (2 ^ 32 * 2 ^ 32). pose proof (Z.div_mod w (2 ^ 32) ltac:(lia)). lia.
Qed.

Lemma from_bytes_words (ws : list Z) : Forall is_u64 ws -> from_bytes_le (words_to_bytes_le_vec ws) = le_value 64 ws.
Proof.
  intros H. unfold from_bytes_le, words_to_bytes_le_vec. induction H as [|w ws Hw _ IH]; [reflexivity|]. cbn [flat_map le_value].
  unfold to_le_bytes in *. rewrite le_value_app, IH, le_value_bytes, le_bytes_length by lia.
  change (8 * Z.of_nat 8) with 64. rewrite Z.mod_small by exact Hw. reflexivity.
Qed.

Lemma u64_digits_value (n : nat) (x : Z) : le_value 64 (to_u64_digits n x) = x mod 2 ^ (64 * Z.of_nat n).
Proof.
  revert x. induction n as [|n IH]; intros x; [cbn; rewrite Z.mod_1_r; reflexivity|]. cbn [to_u64_digits le_value]. rewrite IH.
  replace (64 * Z.of_nat (S n)) with (64 + 64 * Z.of_nat n) by lia.
  rewrite pow2_split, Z.rem_mul_r by (try apply pow2_pos; lia). reflexivity.
Qed.

Lemma u64_digits_length (n : nat) (x : Z) : length (to_u64_digits n x) = n.
Proof. revert x. induction n as [|n IH]; intros x; [reflexivity|]. cbn. rewrite IH. reflexivity. Qed.

Lemma u64_digits_app (m n : nat) (x : Z) :
  to_u64_digits (m + n) x = to_u64_digits m x ++ to_u64_digits n (x / 2 ^ (64 * Z.of_nat m)).
Proof.
  revert x. induction m as [|m IH]; intros x; [cbn; rewrite Z.div_1_r; reflexivity|]. cbn [Nat.add to_u64_digits app]. f_equal.
  rewrite IH. do 2 f_equal. rewrite Z.div_div by (try apply pow2_pos; lia). rewrite <- pow2_split by lia. do 2 f_equal. lia.
Qed.

Lemma digits_bytes (n : nat) (x : Z) : flat_map to_le_bytes (to_u64_digits n x) = le_bytes (8 * n) x.
Proof.
  revert x. induction n as [|n IH]; intros x; [reflexivity|]. cbn [to_u64_digits flat_map]. rewrite IH.
  replace (8 * S n)%nat with (8 + 8 * n)%nat by lia. rewrite le_bytes_app. f_equal.
  apply (le_bytes_mod 8), Z.mod_mod. lia.
Qed.

(** The integer in [n] doublewords at a pointer. *)
Definition big_at (n : nat) (g : gmap Z MemValue) (p : Z) : Z := le_value 64 (map (val g) (addrs p n)).

Definition values_ok (g : gmap Z MemValue) : Prop := forall a, is_u64 (val g a).

Lemma big_at_same (n : nat) (g g' : gmap Z MemValue) (p : Z) :
  (forall a, a ∈ addrs p n -> val g' a = val g a) -> big_at n g' p = big_at n g p.
Proof.
  intros H. unfold big_at. f_equal. apply map_ext_in. intros a Ha. apply H, list_elem_of_In, Ha.
Qed.

Lemma words_u64 (g : gmap Z MemValue) (l : list Z) : values_ok g -> Forall is_u64 (map (val g) l).
Proof. intros Hv. apply Forall_map, Forall_forall. intros a _. apply Hv. Qed.

Lemma big_at_bound (n : nat) (g : gmap Z MemValue) (p : Z) : values_ok g -> 0 <= big_at n g p < 2 ^ (64 * Z.of_nat n).
Proof.
  intros Hv. unfold big_at. pose proof (le_value_bound 64 (map (val g) (addrs p n)) ltac:(lia) (words_u64 g _ Hv)) as H.
  rewrite length_map, addrs_length in H. exact H.
Qed.

(** Two slices without a common doubleword. *)
Definition apart (p q : Z) (n : nat) : Prop := forall a, a ∈ addrs p n -> a ∉ addrs q n.

Lemma mw_big_ok (e : Exec) (g : gmap Z MemValue) (p x : Z) (n : nat) :
  holds_map (memory e) g -> slice_ok p n ->
  exists e' g', mw_slice_without_prot e p (to_u64_digits n x) = Ok e' /\ holds_map (memory e') g' /\
    big_at n g' p = x mod 2 ^ (64 * Z.of_nat n) /\ (forall a, a ∉ addrs p n -> val g' a = val g a) /\
    accessed e e' /\ clk e' = clk e.
Proof.
  intros Hg Hs. destruct (mw_slice_ok e g p (to_u64_digits n x) Hg) as (e' & -> & Hg' & Ha & Hc);
    [rewrite u64_digits_length; exact Hs|].
  destruct (read_back (clk e) g p (to_u64_digits n x)) as [Hr Ho]. rewrite u64_digits_length in *.
  eexists _, _. split; [reflexivity|]. split; [exact Hg'|]. split; [|auto].
  unfold big_at. rewrite Hr. apply u64_digits_value.
Qed.

Lemma read_u256_ok (e : Exec) (g : gmap Z MemValue) (p : Z) :
  holds_map (memory e) g -> values_ok g -> slice_ok p 4 ->
  exists e' g', read_u256 e p = Ok (big_at 4 g p, e') /\ holds_map (memory e') g' /\ same_values g g' /\
    accessed e e' /\ clk e' = clk e.
Proof.
  intros Hg Hv Hs. destruct (mr_slice_ok true e g p 4 Hg Hs) as (e' & g' & E & H). exists e', g'.
  unfold read_u256, U256_NUM_WORDS. rewrite E. cbn [bind]. rewrite from_slice_words by (apply words_u64, Hv). split; [reflexivity | exact H].
Qed.

Lemma same_values_ok (g g' : gmap Z MemValue) : same_values g g' -> values_ok g -> values_ok g'.
Proof. intros [H _] Hv a. rewrite H. apply Hv. Qed.

Lemma same_values_big (n : nat) (g g' : gmap Z MemValue) (p : Z) : same_values g g' -> big_at n g' p = big_at n g p.
Proof. intros [H _]. apply big_at_same. auto. Qed.

Definition uint256_value (op : Uint256Operation) (a b c : Z) : Z :=
  match op with UAdd => a + b + c | UMul => a * b + c end.

Lemma uint256_value_bound (op : Uint256Operation) (a b c : Z) :
  0 <= a < 2 ^ 256 -> 0 <= b < 2 ^ 256 -> 0 <= c < 2 ^ 256 -> 0 <= uint256_value op a b c < 2 ^ 512.
Proof. intros Ha Hb Hc. change (2 ^ 512) with (2 ^ 256 * 2 ^ 256). destruct op; cbn; nia. Qed.

(** UINT256_ADD_CARRY and UINT256_MUL_CARRY leave the low and the high half of
    the result. *)
Lemma uint256_ops_ok (e : Exec) (g : gmap Z MemValue) (code : SyscallCode) (op : Uint256Operation) (x5 a b c d h : Z) :
  holds_map (memory e) g -> values_ok g -> reg e 5 = Ok x5 -> from_u32 (as_u32 x5) = Ok code -> uint256_op_map code = Ok op ->
  reg e 12 = Ok c -> reg e 13 = Ok d -> reg e 14 = Ok h ->
  slice_ok a 4 -> slice_ok b 4 -> slice_ok c 4 -> slice_ok d 4 -> slice_ok h 4 -> apart d h 4 ->
  exists e' g', uint256_ops e a b = Ok (e', None) /\ holds_map (memory e') g' /\ accessed e e' /\
    big_at 4 g' d + 2 ^ 256 * big_at 4 g' h = uint256_value op (big_at 4 g a) (big_at 4 g b) (big_at 4 g c) /\
    forall x, x ∉ addrs d 4 -> x ∉ addrs h 4 -> val g' x = val g x.
Proof.
  intros Hg Hv H5 Hcode Hop Hc Hd Hh Sa Sb Sc Sd Sh Hap. unfold uint256_ops. rewrite H5. cbn [bind]. rewrite Hcode. cbn [bind].
  rewrite Hop. cbn [bind]. rewrite Hc, Hd, Hh. cbn [bind]. set (e0 := with_clk _ (clk e)).
  assert (A0 : accessed e e0) by (split; reflexivity). assert (G0 : holds_map (memory e0) g) by exact Hg.
  destruct (read_u256_ok e0 g a G0 Hv Sa) as (e1 & g1 & -> & G1 & V1 & A1 & _). cbn [bind].
  destruct (read_u256_ok (bump_memory_clk e1) g1 b G1 (same_values_ok _ _ V1 Hv) Sb) as (e2 & g2 & -> & G2 & V2 & A2 & _). cbn [bind].
  assert (V02 : same_values g g2) by (etransitivity; eassumption).
  destruct (read_u256_ok (bump_memory_clk e2) g2 c G2 (same_values_ok _ _ V02 Hv) Sc) as (e3 & g3 & -> & G3 & V3 & A3 & _). cbn [bind].
  assert (V03 : same_values g g3) by (etransitivity; eassumption).
  rewrite (same_values_big 4 g g1 b V1), (same_values_big 4 g g2 c V02). fold (uint256_value op (big_at 4 g a) (big_at 4 g b) (big_at 4 g c)).
  set (r := uint256_value op _ _ _). pose proof (uint256_value_bound op _ _ _ (big_at_bound 4 g a Hv) (big_at_bound 4 g b Hv)
    (big_at_bound 4 g c Hv)) as Hr. fold r in Hr.
  rewrite (u64_digits_app 4 4 r : to_u64_digits 8 r = _), take_app_length', drop_app_length' by (rewrite u64_digits_length; reflexivity).
  destruct (mw_big_ok (bump_memory_clk e3) g3 d r 4 G3 Sd) as (e4 & g4 & -> & G4 & B4 & O4 & A4 & _). cbn [bind].
  destruct (mw_big_ok (bump_memory_clk e4) g4 h (r / 2 ^ (64 * Z.of_nat 4)) 4 G4 Sh) as (e5 & g5 & -> & G5 & B5 & O5 & A5 & _). cbn [bind].
  eexists _, g5. split; [reflexivity|]. split; [exact G5|]. split; [|split].
  - eapply accessed_bump, A5. eapply accessed_bump, A4. eapply accessed_bump, A3. eapply accessed_bump, A2.
    etransitivity; [exact A0 | exact A1].
  - rewrite (big_at_same 4 g4 g5 d) by (intros x Hx; apply O5, Hap, Hx). rewrite B4, B5. change (64 * Z.of_nat 4) with 256.
    rewrite (Z.mod_small (r / 2 ^ 256)) by (change (2 ^ 512) with (2 ^ 256 * 2 ^ 256) in Hr; split; [apply Z.div_pos; lia | apply Z.div_lt_upper_bound; lia]).
    pose proof (Z.div_mod r (2 ^ 256) ltac:(lia)). lia.
  - intros x Hxd Hxh. rewrite O5, O4 by assumption. apply V03.
Qed.

(** ** Field towers and modular multiplication *)

Lemma addrs_split (a : Z) (m n : nat) : addrs a (m + n) = addrs a m ++ addrs (a + 8 * Z.of_nat m) n.
Proof.
  unfold addrs. rewrite seq_app, map_app. f_equal. replace (0 + m)%nat with (m + 0)%nat by lia.
  rewrite <- (fmap_add_seq m 0 n). change (?f <$> ?l) with (map f l). rewrite map_map. apply map_ext. intros i. lia.
Qed.

Lemma slice_split (a : Z) (m n : nat) : slice_ok a (m + n) -> slice_ok a m /\ slice_ok (a + 8 * Z.of_nat m) n.
Proof. unfold slice_ok. intros (H0 & Ha & Hl). repeat split; try lia. dlia. Qed.

Lemma slice_multiple (a : Z) (n : nat) : slice_ok a n -> is_multiple_of a 8 = true.
Proof. intros (_ & Ha & _). apply Z.eqb_eq, Ha. Qed.

(** The operands of a two-operand call. *)
Lemma two_slices_ok (e : Exec) (g : gmap Z MemValue) (x y : Z) (m n : nat) :
  holds_map (memory e) g -> slice_ok x m -> slice_ok y n ->
  exists e1 e2 g2, mr_slice_unsafe e x m = Ok (map (val g) (addrs x m), e1) /\
    mr_slice_without_prot e1 y n = Ok (map (val g) (addrs y n), e2) /\ holds_map (memory e2) g2 /\ same_values g g2 /\
    accessed e e2 /\ clk e2 = clk e.
Proof.
  intros Hg Hx Hy. destruct (mr_slice_ok false e g x m Hg Hx) as (e1 & g1 & E1 & G1 & V1 & A1 & C1).
  destruct (mr_slice_ok true e1 g1 y n G1 Hy) as (e2 & g2 & E2 & G2 & V2 & A2 & C2). exists e1, e2, g2.
  split; [exact E1|]. split; [rewrite E2; do 2 f_equal; apply map_ext; intros a; apply V1|]. split; [exact G2|].
  split; [etransitivity; eassumption|]. split; [etransitivity; eassumption | congruence].
Qed.

Lemma fp_operands_ok (e : Exec) (g : gmap Z MemValue) (x y : Z) (n : nat) :
  holds_map (memory e) g -> slice_ok x n -> slice_ok y n ->
  exists e' g', fp_operands e x y n = Ok (u64_to_u32 (map (val g) (addrs x n)), u64_to_u32 (map (val g) (addrs y n)), e') /\
    holds_map (memory e') g' /\ same_values g g' /\ accessed e e'.
Proof.
  intros Hg Hx Hy. unfold fp_operands. rewrite (slice_multiple x n Hx), (slice_multiple y n Hy). cbn [assertb bind].
  set (e0 := with_clk (bump_memory_clk e) (clk e)). assert (A0 : accessed e e0) by (split; reflexivity).
  destruct (two_slices_ok e0 g x y n n Hg Hx Hy) as (e1 & e2 & g2 & E1 & E2 & G2 & V2 & A2 & _).
  rewrite E1. cbn [bind]. rewrite E2. cbn [bind]. eexists e2, g2. split; [reflexivity|]. split; [exact G2|].
  split; [exact V2 | etransitivity; eassumption].
Qed.

Definition field_value (p : Z) (op : FieldOperation) (a b : Z) : Z :=
  match op with FAdd => (a + b) mod p | FSub => (a - b) mod p | FMul => (a * b) mod p | FDiv => 0 end.

Definition field_ok (P : FpOpField) : Prop :=
  0 < MODULUS P < 2 ^ (64 * Z.of_nat (WordsFieldElement P)) /\ WordsCurvePoint P = (WordsFieldElement P + WordsFieldElement P)%nat.

Lemma base_fields_ok : field_ok Bls12381BaseField /\ field_ok Bn254BaseField.
Proof. split; (split; [split; reflexivity | reflexivity]). Qed.

Lemma fp_op_ok (P : FpOpField) (e : Exec) (g : gmap Z MemValue) (x y : Z) (op : FieldOperation) :
  op <> FDiv -> field_ok P -> holds_map (memory e) g -> values_ok g ->
  slice_ok x (WordsFieldElement P) -> slice_ok y (WordsFieldElement P) ->
  exists e' g', fp_op_syscall P e x y op = Ok (e', None) /\ holds_map (memory e') g' /\ accessed e e' /\
    big_at (WordsFieldElement P) g' x =
      field_value (MODULUS P) op (big_at (WordsFieldElement P) g x) (big_at (WordsFieldElement P) g y) /\
    forall a, a ∉ addrs x (WordsFieldElement P) -> val g' a = val g a.
Proof.
  intros Hop [Hp _] Hg Hv Hx Hy. unfold fp_op_syscall. set (n := WordsFieldElement P) in *. set (p := MODULUS P) in *.
  destruct (fp_operands_ok e g x y n Hg Hx Hy) as (e1 & g1 & -> & G1 & V1 & A1). cbn [bind].
  rewrite !from_slice_words by (apply words_u64, Hv). fold (big_at n g x) (big_at n g y).
  set (result := match op with FAdd => _ | FSub => _ | FMul => _ | FDiv => _ end). set (r := field_value p op (big_at n g x) (big_at n g y)).
  assert (Hr : result = Ok r).
  { unfold result, r, field_value. destruct op; [| | |congruence]; f_equal.
    - rewrite <- Z.add_mod by lia. reflexivity.
    - rewrite <- Z.mul_mod by lia. reflexivity.
    - replace (_ + p - _) with (big_at n g x mod p - big_at n g y mod p + 1 * p) by ring. rewrite Z_mod_plus_full, <- Zminus_mod. reflexivity. }
  rewrite Hr. cbn [bind].
  destruct (mw_big_ok (bump_memory_clk e1) g1 x r n G1 Hx) as (e2 & g2 & -> & G2 & B2 & O2 & A2 & _). cbn [bind].
  eexists _, g2. split; [reflexivity|]. split; [exact G2|]. split; [exact (accessed_bump _ _ _ A1 A2)|]. split.
  - rewrite B2, Z.mod_small; [reflexivity|]. unfold r, field_value. destruct op; pose proof (Z.mod_pos_bound
      (big_at n g x + big_at n g y) p); pose proof (Z.mod_pos_bound (big_at n g x - big_at n g y) p);
      pose proof (Z.mod_pos_bound (big_at n g x * big_at n g y) p); lia.
  - intros a Ha. rewrite O2 by exact Ha. apply V1.
Qed.

Lemma app_same_length {A} (l1 l2 k1 k2 : list A) : length l1 = length k1 -> l1 ++ l2 = k1 ++ k2 -> l1 = k1 /\ l2 = k2.
Proof. intros Hl E. apply app_inj_1 in E; assumption. Qed.

(** The coordinates of an element of the quadratic extension. *)
Lemma fp2_write_ok (e : Exec) (g : gmap Z MemValue) (x c0 c1 : Z) (m : nat) :
  holds_map (memory e) g -> slice_ok x (m + m) -> 0 <= c0 < 2 ^ (64 * Z.of_nat m) -> 0 <= c1 < 2 ^ (64 * Z.of_nat m) ->
  exists e' g', mw_slice_without_prot e x (fp2_digits (m + m) c0 c1) = Ok e' /\ holds_map (memory e') g' /\
    big_at m g' x = c0 /\ big_at m g' (x + 8 * Z.of_nat m) = c1 /\
    (forall a, a ∉ addrs x (m + m) -> val g' a = val g a) /\ accessed e e'.
Proof.
  intros Hg Hs H0 H1. unfold fp2_digits. replace ((m + m) / 2)%nat with m by (apply Nat.div_unique with 0%nat; lia).
  replace (m + m - m)%nat with m by lia. set (ds := to_u64_digits m c0 ++ to_u64_digits m c1).
  assert (Hl : length ds = (m + m)%nat) by (unfold ds; rewrite length_app, !u64_digits_length; reflexivity).
  destruct (mw_slice_ok e g x ds Hg) as (e' & -> & Hg' & Ha & _); [rewrite Hl; exact Hs|].
  destruct (read_back (clk e) g x ds) as [Hr Ho]. rewrite Hl in *. set (g' := put_all _ _ _) in *. rewrite addrs_split, map_app in Hr.
  apply app_same_length in Hr as [Hr0 Hr1]; [|rewrite length_map, addrs_length, u64_digits_length; reflexivity].
  exists e', g'. split; [reflexivity|]. split; [exact Hg'|]. unfold big_at. rewrite Hr0, Hr1, !u64_digits_value, !Z.mod_small by assumption.
  auto.
Qed.

Lemma u64_to_u32_length (l : list Z) : length (u64_to_u32 l) = (length l + length l)%nat.
Proof. unfold u64_to_u32. induction l as [|x l IH]; [reflexivity|]. cbn. rewrite IH. lia. Qed.

(** The halves of the digits of an operand. *)
Lemma fp2_halves (g : gmap Z MemValue) (x : Z) (m : nat) : values_ok g ->
  let l := u64_to_u32 (map (val g) (addrs x (m + m))) in
  from_slice (take (length l / 2) l) = big_at m g x /\ from_slice (drop (length l / 2) l) = big_at m g (x + 8 * Z.of_nat m).
Proof.
  intros Hv. cbn zeta. rewrite u64_to_u32_length, length_map, addrs_length.
  replace ((m + m + (m + m)) / 2)%nat with (m + m)%nat by (apply Nat.div_unique with 0%nat; lia).
  rewrite addrs_split, map_app. unfold u64_to_u32. rewrite flat_map_app. fold (u64_to_u32 (map (val g) (addrs x m))).
  fold (u64_to_u32 (map (val g) (addrs (x + 8 * Z.of_nat m) m))).
  rewrite take_app_length', drop_app_length' by (rewrite u64_to_u32_length, length_map, addrs_length; reflexivity).
  rewrite !from_slice_words by (apply words_u64, Hv). split; reflexivity.
Qed.

(** Multiplication in the extension by a square root of minus one. *)
Lemma fp2_mul_ok (P : FpOpField) (e : Exec) (g : gmap Z MemValue) (x y : Z) :
  let m := WordsFieldElement P in let p := MODULUS P in
  field_ok P -> holds_map (memory e) g -> values_ok g -> slice_ok x (m + m) -> slice_ok y (m + m) ->
  exists e' g', fp2_mul_syscall P e x y = Ok (e', None) /\ holds_map (memory e') g' /\ accessed e e' /\
    (let (a0, a1) := (big_at m g x, big_at m g (x + 8 * Z.of_nat m)) in
     let (b0, b1) := (big_at m g y, big_at m g (y + 8 * Z.of_nat m)) in
     big_at m g' x = (a0 * b0 - a1 * b1) mod p /\ big_at m g' (x + 8 * Z.of_nat m) = (a0 * b1 + a1 * b0) mod p) /\
    forall a, a ∉ addrs x (m + m) -> val g' a = val g a.
Proof.
  intros m p [Hp Hw] Hg Hv Hx Hy. unfold fp2_mul_syscall. rewrite Hw. fold m p. fold m p in Hp.
  destruct (fp_operands_ok e g x y (m + m) Hg Hx Hy) as (e1 & g1 & -> & G1 & V1 & A1). cbn [bind].
  destruct (fp2_halves g x m Hv) as [-> ->]. destruct (fp2_halves g y m Hv) as [-> ->].
  set (a0 := big_at m g x). set (a1 := big_at m g (x + _)). set (b0 := big_at m g y). set (b1 := big_at m g (y + _)).
  pose proof (Z.mod_pos_bound (a0 * b0) p ltac:(lia)) as H00. pose proof (Z.mod_pos_bound (a1 * b1) p ltac:(lia)) as H11.
  assert (Hc0 : (if (a0 * b0) mod p <? (a1 * b1) mod p
    then let* d := big_sub (p + (a0 * b0) mod p) ((a1 * b1) mod p) in Ok (d mod p)
    else let* d := big_sub ((a0 * b0) mod p) ((a1 * b1) mod p) in Ok (d mod p)) = Ok ((a0 * b0 - a1 * b1) mod p)).
  { rewrite (Zminus_mod (a0 * b0)). unfold big_sub. destruct (Z.ltb_spec ((a0 * b0) mod p) ((a1 * b1) mod p)).
    - rewrite (proj2 (Z.leb_le _ _)) by lia. cbn [bind]. f_equal.
      replace (p + _ - _) with ((a0 * b0) mod p - (a1 * b1) mod p + 1 * p) by ring. apply Z_mod_plus_full.
    - rewrite (proj2 (Z.leb_le _ _)) by lia. reflexivity. }
  rewrite Hc0. cbn [bind]. rewrite <- Z.add_mod by lia.
  pose proof (Z.mod_pos_bound (a0 * b0 - a1 * b1) p ltac:(lia)). pose proof (Z.mod_pos_bound (a0 * b1 + a1 * b0) p ltac:(lia)).
  destruct (fp2_write_ok (bump_memory_clk e1) g1 x ((a0 * b0 - a1 * b1) mod p) ((a0 * b1 + a1 * b0) mod p) m G1 Hx)
    as (e2 & g2 & -> & G2 & B0 & B1 & O2 & A2); [lia | lia|]. cbn [bind].
  eexists _, g2. split; [reflexivity|]. split; [exact G2|]. split; [exact (accessed_bump _ _ _ A1 A2)|].
  split; [split; assumption|]. intros a Ha. rewrite O2 by exact Ha. apply V1.
Qed.

Lemma fp2_addsub_ok (P : FpOpField) (e : Exec) (g : gmap Z MemValue) (x y : Z) (op : FieldOperation) :
  let m := WordsFieldElement P in let p := MODULUS P in
  let (a0, a1) := (big_at m g x, big_at m g (x + 8 * Z.of_nat m)) in
  let (b0, b1) := (big_at m g y, big_at m g (y + 8 * Z.of_nat m)) in
  field_ok P -> holds_map (memory e) g -> values_ok g -> slice_ok x (m + m) -> slice_ok y (m + m) ->
  op = FAdd \/ op = FSub /\ b0 <= a0 + p /\ b1 <= a1 + p ->
  exists e' g', fp2_addsub_syscall P e x y op = Ok (e', None) /\ holds_map (memory e') g' /\ accessed e e' /\
    big_at m g' x = field_value p op a0 b0 /\ big_at m g' (x + 8 * Z.of_nat m) = field_value p op a1 b1 /\
    forall a, a ∉ addrs x (m + m) -> val g' a = val g a.
Proof.
  intros m p [Hp Hw] Hg Hv Hx Hy Hop. unfold fp2_addsub_syscall. rewrite Hw. fold m p. fold m p in Hp.
  destruct (fp_operands_ok e g x y (m + m) Hg Hx Hy) as (e1 & g1 & -> & G1 & V1 & A1). cbn [bind].
  destruct (fp2_halves g x m Hv) as [-> ->]. destruct (fp2_halves g y m Hv) as [-> ->].
  set (a0 := big_at m g x) in *. set (a1 := big_at m g (x + _)) in *. set (b0 := big_at m g y) in *. set (b1 := big_at m g (y + _)) in *.
  assert (Hc : match op with
    | FAdd => Ok ((a0 + b0) mod p, (a1 + b1) mod p)
    | FSub => let* d0 := big_sub (a0 + p) b0 in let* d1 := big_sub (a1 + p) b1 in Ok (d0 mod p, d1 mod p)
    | FMul | FDiv => Panic end = Ok (field_value p op a0 b0, field_value p op a1 b1)).
  { destruct Hop as [-> | (-> & Hb0 & Hb1)]; [reflexivity|]. unfold big_sub, field_value.
    rewrite !(proj2 (Z.leb_le _ _)) by lia. cbn [bind]. do 2 f_equal.
    - replace (a0 + p - b0) with (a0 - b0 + 1 * p) by ring. apply Z_mod_plus_full.
    - replace (a1 + p - b1) with (a1 - b1 + 1 * p) by ring. apply Z_mod_plus_full. }
  rewrite Hc. cbn [bind].
  assert (Hb : forall a b, 0 <= field_value p op a b < 2 ^ (64 * Z.of_nat m)).
  { intros a b. assert (forall z, 0 <= z mod p < 2 ^ (64 * Z.of_nat m)) by (intros z; pose proof (Z.mod_pos_bound z p); lia).
    destruct op; cbn; auto. lia. }
  destruct (fp2_write_ok (bump_memory_clk e1) g1 x _ _ m G1 Hx (Hb a0 b0) (Hb a1 b1)) as (e2 & g2 & -> & G2 & B0 & B1 & O2 & A2).
  cbn [bind]. eexists _, g2. split; [reflexivity|]. split; [exact G2|]. split; [exact (accessed_bump _ _ _ A1 A2)|].
  split; [exact B0|]. split; [exact B1|]. intros a Ha. rewrite O2 by exact Ha. apply V1.
Qed.

Lemma as_chunks_words (fuel : nat) (ws : list Z) :
  (length ws <= fuel)%nat -> as_chunks fuel (flat_map to_le_bytes ws) = (map to_le_bytes ws, []).
Proof.
  revert ws. induction fuel as [|fuel IH]; intros [|w ws] Hf; try (cbn in Hf; lia); try reflexivity.
  cbn [as_chunks flat_map map]. rewrite length_app. unfold to_le_bytes at 1. rewrite le_bytes_length. cbn [Nat.ltb Nat.leb Nat.add].
  rewrite drop_app_length', take_app_length' by (unfold to_le_bytes; rewrite le_bytes_length; reflexivity).
  rewrite IH by (cbn in Hf; lia). reflexivity.
Qed.

Lemma u64_digits_bound (n : nat) (x : Z) : Forall is_u64 (to_u64_digits n x).
Proof.
  revert x. induction n as [|n IH]; intros x; constructor; [apply Z.mod_pos_bound; lia | apply IH].
Qed.

Lemma bytes_words_digits (n : nat) (x : Z) : bytes_to_words_le (le_bytes (8 * n) x) = to_u64_digits n x.
Proof.
  unfold bytes_to_words_le. rewrite le_bytes_length, <- digits_bytes, as_chunks_words by (rewrite u64_digits_length; lia).
  cbn [fst]. rewrite map_map. rewrite <- map_id. apply map_ext_in. intros w Hw. unfold to_le_bytes. rewrite le_value_bytes.
  apply Z.mod_small. exact (proj1 (List.Forall_forall _ _) (u64_digits_bound n x) w Hw).
Qed.

(** UINT256_MUL multiplies modulo the third operand, or modulo [2^256]. *)
Lemma uint256_mul_ok (e : Exec) (g : gmap Z MemValue) (x y : Z) :
  holds_map (memory e) g -> values_ok g -> slice_ok x 4 -> slice_ok y 8 ->
  exists e' g', uint256_mul e x y = Ok (e', None) /\ holds_map (memory e') g' /\ accessed e e' /\
    (let n := big_at 4 g (y + 32) in
     big_at 4 g' x = (big_at 4 g x * big_at 4 g y) mod (if n =? 0 then 2 ^ 256 else n)) /\
    forall a, a ∉ addrs x 4 -> val g' a = val g a.
Proof.
  intros Hg Hv Hx Hy. unfold uint256_mul, WORDS_FIELD_ELEMENT. rewrite (slice_multiple x 4 Hx), (slice_multiple y 8 Hy). cbn [assertb bind].
  set (e0 := with_clk (bump_memory_clk e) (clk e)). assert (A0 : accessed e e0) by (split; reflexivity).
  destruct (two_slices_ok e0 g x y 4 8 Hg Hx Hy) as (e1 & e2 & g2 & E1 & E2 & G2 & V2 & A2 & _).
  rewrite E1. cbn [bind]. change (4 * 2)%nat with 8%nat. rewrite E2. cbn [bind].
  assert (Hy2 : addrs y 8 = addrs y 4 ++ addrs (y + 32) 4) by exact (addrs_split y 4 4). rewrite Hy2, map_app.
  assert (Hb : forall l k, words_to_bytes_le_vec (l ++ k) = words_to_bytes_le_vec l ++ words_to_bytes_le_vec k)
    by (intros; apply flat_map_app).
  rewrite Hb, take_app_length', drop_app_length' by reflexivity.
  rewrite !from_bytes_words by (apply words_u64, Hv). fold (big_at 4 g x) (big_at 4 g y) (big_at 4 g (y + 32)).
  set (n := big_at 4 g (y + 32)). set (r := if n =? 0 then _ else _).
  assert (Hr : r = (big_at 4 g x * big_at 4 g y) mod (if n =? 0 then 2 ^ 256 else n)) by (unfold r; destruct (n =? 0); reflexivity).
  change 32%nat with (8 * 4)%nat. rewrite bytes_words_digits.
  destruct (mw_big_ok (bump_memory_clk e2) g2 x r 4 G2 Hx) as (e3 & g3 & -> & G3 & B3 & O3 & A3 & _). cbn [bind].
  eexists _, g3. split; [reflexivity|]. split; [exact G3|]. split; [eapply accessed_bump, A3; etransitivity; eassumption|]. split.
  - cbn zeta. rewrite B3, <- Hr. apply Z.mod_small. rewrite Hr. pose proof (big_at_bound 4 g (y + 32) Hv) as Hn. fold n in Hn.
    change (64 * Z.of_nat 4) with 256 in *. destruct (Z.eqb_spec n 0).
    + apply Z.mod_pos_bound; lia.
    + pose proof (Z.mod_pos_bound (big_at 4 g x * big_at 4 g y) n ltac:(lia)). lia.
  - intros a Ha. rewrite O3 by exact Ha. apply V2.
Qed.
