(* ===== verification/SyscallInv.v ===== *)
(** * System calls keep the invariant of the executor

    Every call leaves thirty-two 64-bit registers, a memory of 64-bit values,
    streams of bytes and a valid state to return to from an unconstrained
    block: the contract the executor asks of its handler. *)

From stdpp Require Import base list gmap.
From Stdlib Require Import ZArith Lia Bool.
From S2P Require Import Prelude.
From S2P Require Import Words.
From S2P Require Import Isa Row.
From S2P Require Import SyscallCode.
From S2P Require Import Paging.
From S2P Require Import Memory.
From S2P Require Import Executor.
From S2P Require Import ExecutorFacts.
From S2P Require Import MemoryFacts Curves.
From S2P Require Import Syscalls.
From S2P Require Import SyscallFacts.
Open Scope Z_scope.

(** ** Accesses *)

(** Only the memory, the trace and the clock change, and values stay 64-bit. *)
Definition acc (e e' : Exec) : Prop := accessed e e' /\ (limited_wf (memory e) -> limited_wf (memory e')).

#[export] Instance acc_preorder : PreOrder acc.
Proof.
  split; [intros e; split; [reflexivity | auto]|]. intros e1 e2 e3 [A1 W1] [A2 W2]. split; [etransitivity; eassumption | auto].
Qed.

Lemma acc_clk (e : Exec) (c : Z) : acc e (with_clk e c).
Proof. split; [apply with_clk_accessed | auto]. Qed.

Lemma acc_bump (e : Exec) : acc e (bump_memory_clk e).
Proof. apply acc_clk. Qed.

Lemma acc_trace (e : Exec) (vs : list MemValue) : acc e (extend_trace e vs).
Proof. split; [apply extend_trace_accessed | rewrite extend_trace_memory; auto]. Qed.

Lemma acc_memory (e : Exec) (m : LimitedMemory.LimitedMemory MemValue) :
  (limited_wf (memory e) -> limited_wf m) -> acc e (with_memory e m).
Proof. intros H. split; [apply with_memory_accessed | exact H]. Qed.

Lemma as_u64_bound (x : Z) : is_u64 (as_u64 x).
Proof. apply as_unsigned_bound. lia. Qed.

Lemma mr_acc (e e' : Exec) (a v : Z) : is_u64 a -> mr_without_prot e a = Ok (v, e') ->
  acc e e' /\ (limited_wf (memory e) -> is_u64 v).
Proof.
  intros Ha E. unfold mr_without_prot in E. apply bind_ok in E as ([mv write] & Em & E). apply Ok_inj in E. injection E as <- <-.
  split; [|intros Hw; apply (limited_get_mut_wf _ _ _ _ Hw Ha Em)]. etransitivity; [apply (acc_trace e [mv])|].
  apply acc_memory. rewrite extend_trace_memory. intros Hw. destruct (limited_get_mut_wf _ _ _ _ Hw Ha Em) as [Hv Hx].
  apply Hx. destruct (is_tracing _); exact Hv.
Qed.

Lemma mw_acc (e e' : Exec) (a v : Z) : is_u64 a -> is_u64 v -> mw_without_prot e a v = Ok e' -> acc e e'.
Proof.
  intros Ha Hv E. unfold mw_without_prot in E. apply bind_ok in E as ([mv write] & Em & E). apply Ok_inj in E as <-.
  etransitivity; [apply acc_trace|]. apply acc_memory. rewrite extend_trace_memory. intros Hw.
  apply (limited_get_mut_wf _ _ _ _ Hw Ha Em). exact Hv.
Qed.

Lemma touch_acc (bump : bool) (l : list Z) (e e' : Exec) : Forall is_u64 l -> touch bump e l = Ok e' -> acc e e'.
Proof.
  intros Hl. revert e. induction Hl as [|a l Ha _ IH]; intros e E; cbn [touch] in E; [apply Ok_inj in E as <-; reflexivity|].
  apply bind_ok in E as ([mv write] & Em & E). etransitivity; [|exact (IH _ E)]. etransitivity; [apply (acc_trace e [mv])|].
  apply acc_memory. rewrite extend_trace_memory. intros Hw. destruct (limited_get_mut_wf _ _ _ _ Hw Ha Em) as [Hv Hx].
  apply Hx. destruct (_ && _); exact Hv.
Qed.

Lemma read_values_acc (missing : Res Z) (l : list Z) (e e' : Exec) (vs : list Z) :
  Forall is_u64 l -> (forall v, missing = Ok v -> is_u64 v) -> read_values missing e l = Ok (vs, e') ->
  acc e e' /\ (limited_wf (memory e) -> Forall is_u64 vs).
Proof.
  intros Hl Hm. revert e vs. induction Hl as [|a l Ha _ IH]; intros e vs E; cbn [read_values] in E.
  - apply Ok_inj in E. injection E as <- <-. split; [reflexivity | constructor].
  - apply bind_ok in E as ([o m] & Eo & E). apply bind_ok in E as (v & Ev & E). apply bind_ok in E as ([vs' e1] & E1 & E).
    apply Ok_inj in E. injection E as <- <-. destruct (IH _ _ E1) as [A1 V1].
    assert (A0 : acc e (with_memory e m)) by (apply acc_memory; intros Hw; apply (limited_get_wf _ _ _ _ Hw Ha Eo)).
    split; [etransitivity; eassumption|]. intros Hw. pose proof (limited_get_wf _ _ _ _ Hw Ha Eo) as [Hv Hw'].
    constructor; [|apply V1, Hw']. destruct o; [apply Ok_inj in Ev as <-; exact Hv | exact (Hm v Ev)].
Qed.

Lemma slice_addrs_u64 (a : Z) (n : nat) : Forall is_u64 (slice_addrs a n).
Proof. apply Forall_map, Forall_forall. intros i _. apply as_u64_bound. Qed.

Lemma range_addrs_u64 (a b : Z) : is_u64 a -> is_u64 b -> Forall is_u64 (range_addrs a b).
Proof.
  intros Ha Hb. unfold range_addrs. apply Forall_map, Forall_seq. intros i Hi. unfold is_u in *. dlia.
Qed.

Lemma slice_acc (bump : bool) (e e' : Exec) (a : Z) (n : nat) (vs : list Z) : is_u64 a ->
  (let* e := touch bump e (slice_addrs a n) in read_values Panic e (range_addrs a (slice_end a n))) = Ok (vs, e') ->
  acc e e' /\ (limited_wf (memory e) -> Forall is_u64 vs).
Proof.
  intros Ha E. apply bind_ok in E as (e1 & E1 & E). apply touch_acc in E1; [|apply slice_addrs_u64].
  apply read_values_acc in E as [A2 V2]; [|apply range_addrs_u64; [exact Ha | apply as_u64_bound] | discriminate].
  split; [etransitivity; eassumption|]. intros Hw. apply V2, E1, Hw.
Qed.

Lemma mr_slice_acc (e e' : Exec) (a : Z) (n : nat) (vs : list Z) : is_u64 a ->
  mr_slice_without_prot e a n = Ok (vs, e') -> acc e e' /\ (limited_wf (memory e) -> Forall is_u64 vs).
Proof. exact (slice_acc true e e' a n vs). Qed.

Lemma mr_unsafe_acc (e e' : Exec) (a : Z) (n : nat) (vs : list Z) : is_u64 a ->
  mr_slice_unsafe e a n = Ok (vs, e') -> acc e e' /\ (limited_wf (memory e) -> Forall is_u64 vs).
Proof. exact (slice_acc false e e' a n vs). Qed.

Lemma mw_all_acc (l : list (Z * Z)) (e e' : Exec) :
  Forall (fun p => is_u64 (fst p) /\ is_u64 (snd p)) l -> mw_all e l = Ok e' -> acc e e'.
Proof.
  intros Hl. revert e. induction Hl as [|[a v] l [Ha Hv] _ IH]; intros e E; cbn [mw_all] in E; [apply Ok_inj in E as <-; reflexivity|].
  apply bind_ok in E as (e1 & E1 & E). etransitivity; [exact (mw_acc _ _ _ _ Ha Hv E1) | exact (IH _ E)].
Qed.

Lemma mw_slice_acc (e e' : Exec) (a : Z) (vs : list Z) : Forall is_u64 vs -> mw_slice_without_prot e a vs = Ok e' -> acc e e'.
Proof.
  intros Hv. apply mw_all_acc. apply Forall_forall. intros [b v] Hi. apply list_elem_of_In in Hi.
  split; [exact (proj1 (List.Forall_forall _ _) (slice_addrs_u64 a (length vs)) b (in_combine_l _ _ _ _ Hi))|].
  exact (proj1 (List.Forall_forall _ _) Hv v (in_combine_r _ _ _ _ Hi)).
Qed.

(** ** Precompiles *)

#[local] Opaque mr_without_prot mw_without_prot mr_slice_without_prot mr_slice_unsafe mw_slice_without_prot set_reg.

(** A call that only accesses memory. *)
Definition quiet_call (e : Exec) (o : Exec * option Z) : Prop := acc e (fst o) /\ snd o = None.

Lemma u32_u64 (x : Z) : is_u32 x -> is_u64 x.
Proof. unfold is_u. lia. Qed.

Lemma add32_u64 (a b : Z) : is_u64 (add32 a b).
Proof. apply u32_u64, as_unsigned_bound. lia. Qed.

Lemma fp_operands_acc (e e' : Exec) (x y : Z) (n : nat) (xs ys : list Z) :
  is_u64 x -> is_u64 y -> fp_operands e x y n = Ok (xs, ys, e') -> acc e e'.
Proof.
  intros Hx Hy E. unfold fp_operands in E. apply bind_ok in E as ([] & _ & E). apply bind_ok in E as ([] & _ & E). cbn zeta in E.
  apply bind_ok in E as ([l e1] & E1 & E). apply bind_ok in E as ([k e2] & E2 & E). apply Ok_inj in E. injection E as _ _ <-.
  apply mr_unsafe_acc in E1 as [A1 _]; [|exact Hx]. apply mr_slice_acc in E2 as [A2 _]; [|exact Hy].
  etransitivity; [|exact A2]. etransitivity; [|exact A1]. etransitivity; [apply acc_bump | apply acc_clk].
Qed.

(** A result written after the operands have been read. *)
Lemma result_acc (e e1 : Exec) (p : Z) (vs : list Z) (o : Exec * option Z) :
  acc e e1 -> Forall is_u64 vs ->
  (let* e := mw_slice_without_prot (bump_memory_clk e1) p vs in Ok (e, None)) = Ok o -> quiet_call e o.
Proof.
  intros A1 Hv E. apply bind_ok in E as (e2 & E2 & E). apply Ok_inj in E as <-. split; [|reflexivity].
  etransitivity; [exact A1|]. etransitivity; [apply acc_bump | exact (mw_slice_acc _ _ _ _ Hv E2)].
Qed.

Lemma fp2_digits_u64 (n : nat) (a b : Z) : Forall is_u64 (fp2_digits n a b).
Proof. unfold fp2_digits. apply Forall_app_2; apply u64_digits_bound. Qed.

Lemma fp_op_acc (P : FpOpField) (e : Exec) (x y : Z) (op : FieldOperation) (o : Exec * option Z) :
  is_u64 x -> is_u64 y -> fp_op_syscall P e x y op = Ok o -> quiet_call e o.
Proof.
  intros Hx Hy E. unfold fp_op_syscall in E. apply bind_ok in E as ([[xs ys] e1] & E1 & E). apply (fp_operands_acc _ _ _ _ _ _ _ Hx Hy) in E1.
  cbn zeta in E. apply bind_ok in E as (r & _ & E). exact (result_acc _ _ _ _ _ E1 (u64_digits_bound _ _) E).
Qed.

Lemma fp2_addsub_acc (P : FpOpField) (e : Exec) (x y : Z) (op : FieldOperation) (o : Exec * option Z) :
  is_u64 x -> is_u64 y -> fp2_addsub_syscall P e x y op = Ok o -> quiet_call e o.
Proof.
  intros Hx Hy E. unfold fp2_addsub_syscall in E. apply bind_ok in E as ([[xs ys] e1] & E1 & E).
  apply (fp_operands_acc _ _ _ _ _ _ _ Hx Hy) in E1. cbn zeta in E. apply bind_ok in E as ([c0 c1] & _ & E).
  exact (result_acc _ _ _ _ _ E1 (fp2_digits_u64 _ _ _) E).
Qed.

Lemma fp2_mul_acc (P : FpOpField) (e : Exec) (x y : Z) (o : Exec * option Z) :
  is_u64 x -> is_u64 y -> fp2_mul_syscall P e x y = Ok o -> quiet_call e o.
Proof.
  intros Hx Hy E. unfold fp2_mul_syscall in E. apply bind_ok in E as ([[xs ys] e1] & E1 & E).
  apply (fp_operands_acc _ _ _ _ _ _ _ Hx Hy) in E1. cbn zeta in E. apply bind_ok in E as (c0 & _ & E).
  exact (result_acc _ _ _ _ _ E1 (fp2_digits_u64 _ _ _) E).
Qed.

Lemma uint256_mul_acc (e : Exec) (x y : Z) (o : Exec * option Z) :
  is_u64 x -> is_u64 y -> uint256_mul e x y = Ok o -> quiet_call e o.
Proof.
  intros Hx Hy E. unfold uint256_mul in E. apply bind_ok in E as ([] & _ & E). apply bind_ok in E as ([] & _ & E). cbn zeta in E.
  apply bind_ok in E as ([l e1] & E1 & E). apply bind_ok in E as ([k e2] & E2 & E).
  apply mr_unsafe_acc in E1 as [A1 _]; [|exact Hx]. apply mr_slice_acc in E2 as [A2 _]; [|exact Hy].
  apply (result_acc e e2) in E; [exact E | |].
  - etransitivity; [|exact A2]. etransitivity; [|exact A1]. etransitivity; [apply acc_bump | apply acc_clk].
  - change 32%nat with (8 * 4)%nat. rewrite bytes_words_digits. apply u64_digits_bound.
Qed.

Lemma read_u256_acc (e e' : Exec) (p v : Z) : is_u64 p -> read_u256 e p = Ok (v, e') -> acc e e'.
Proof.
  intros Hp E. unfold read_u256 in E. apply bind_ok in E as ([l e1] & E1 & E). apply Ok_inj in E. injection E as _ <-.
  apply mr_slice_acc in E1; [apply E1 | exact Hp].
Qed.

Lemma uint256_ops_acc (e : Exec) (a b : Z) (o : Exec * option Z) :
  Forall is_u64 (registers e) -> is_u64 a -> is_u64 b -> uint256_ops e a b = Ok o -> quiet_call e o.
Proof.
  intros Hr Ha Hb E. assert (Hreg : forall r v, reg e r = Ok v -> is_u64 v)
    by (intros r v Ev; apply of_option_ok in Ev; exact (Forall_lookup_1 _ _ _ _ Hr Ev)).
  unfold uint256_ops in E. apply bind_ok in E as (x5 & _ & E). apply bind_ok in E as (code & _ & E). apply bind_ok in E as (op & _ & E).
  apply bind_ok in E as (c & Ec & E). apply bind_ok in E as (d & Ed & E). apply bind_ok in E as (h & Eh & E). cbn zeta in E.
  apply bind_ok in E as ([va e1] & E1 & E). apply bind_ok in E as ([vb e2] & E2 & E). apply bind_ok in E as ([vc e3] & E3 & E).
  apply bind_ok in E as (e4 & E4 & E). apply read_u256_acc in E1; [|exact Ha]. apply read_u256_acc in E2; [|exact Hb].
  apply read_u256_acc in E3; [|exact (Hreg _ _ Ec)]. apply mw_slice_acc in E4; [|apply Forall_take, u64_digits_bound].
  apply (result_acc e e4) in E; [exact E | | apply Forall_drop, u64_digits_bound].
  etransitivity; [|exact E4]. etransitivity; [|apply acc_bump]. etransitivity; [|exact E3]. etransitivity; [|apply acc_bump].
  etransitivity; [|exact E2]. etransitivity; [|apply acc_bump]. etransitivity; [|exact E1]. etransitivity; [|apply acc_clk].
  etransitivity; [|apply acc_bump]. etransitivity; [|apply acc_bump]. etransitivity; apply acc_bump.
Qed.

Lemma word_of_bytes (c : list Z) : length c = 8%nat -> Forall is_u8 c -> is_u64 (le_value 8 c).
Proof. intros El Hc. pose proof (le_value_bound 8 c ltac:(lia) Hc) as H. rewrite El in H. exact H. Qed.

Lemma chunks_u64 (chunks : list (list Z)) :
  Forall (fun c => length c = 8%nat) chunks -> Forall is_u8 (concat chunks) -> Forall is_u64 (map (le_value 8) chunks).
Proof.
  intros Hl Hb. apply Forall_map, List.Forall_forall. intros c Hin. apply word_of_bytes; [exact (proj1 (List.Forall_forall _ _) Hl c Hin)|].
  apply List.Forall_forall. intros b Hbin. apply (proj1 (List.Forall_forall _ _) Hb). apply in_concat. eauto.
Qed.

Lemma bytes_to_words_u64 (bytes : list Z) : Forall is_u8 bytes -> Forall is_u64 (bytes_to_words_le bytes).
Proof.
  intros Hb. unfold bytes_to_words_le. pose proof (as_chunks_spec (length bytes) bytes (le_n _)) as Hc.
  destruct (as_chunks (length bytes) bytes) as [chunks remainder]. destruct Hc as (<- & Hl & _). apply Forall_app in Hb as [Hb _].
  apply chunks_u64; assumption.
Qed.

Lemma to_words_u64 (n : nat) (p : AffinePoint) : Forall is_u64 (to_words_le n p).
Proof. unfold to_words_le. apply Forall_app_2; apply Forall_take, bytes_to_words_u64, le_bytes_bound. Qed.

Lemma ec_add_acc (E : EllipticCurve) (e e' : Exec) (p q : Z) : is_u64 p -> is_u64 q -> ec.ec_add E e p q = Ok e' -> acc e e'.
Proof.
  intros Hp Hq Ee. unfold ec.ec_add in Ee. apply bind_ok in Ee as ([] & _ & Ee). apply bind_ok in Ee as ([] & _ & Ee). cbn zeta in Ee.
  apply bind_ok in Ee as ([l e1] & E1 & Ee). apply bind_ok in Ee as ([k e2] & E2 & Ee). apply bind_ok in Ee as (r & _ & Ee).
  apply mr_unsafe_acc in E1 as [A1 _]; [|exact Hp]. apply mr_slice_acc in E2 as [A2 _]; [|exact Hq].
  apply mw_slice_acc in Ee; [|apply to_words_u64]. etransitivity; [|exact Ee]. etransitivity; [|apply acc_bump].
  etransitivity; [|exact A2]. etransitivity; [|exact A1]. etransitivity; [apply acc_bump | apply acc_clk].
Qed.

Lemma ec_double_acc (E : EllipticCurve) (e e' : Exec) (p : Z) : is_u64 p -> ec.ec_double E e p = Ok e' -> acc e e'.
Proof.
  intros Hp Ee. unfold ec.ec_double in Ee. apply bind_ok in Ee as ([] & _ & Ee). cbn zeta in Ee.
  apply bind_ok in Ee as ([l e1] & E1 & Ee). apply bind_ok in Ee as (r & _ & Ee). apply mr_unsafe_acc in E1 as [A1 _]; [|exact Hp].
  apply mw_slice_acc in Ee; [|apply to_words_u64]. etransitivity; [exact A1 | exact Ee].
Qed.

(** A call that returns no value. *)
Lemma no_value (e : Exec) (m : Res Exec) (o : Exec * option Z) :
  (forall e', m = Ok e' -> acc e e') -> (let* e := m in Ok (e, None)) = Ok o -> quiet_call e o.
Proof. intros H E. apply bind_ok in E as (e1 & E1 & E). apply Ok_inj in E as <-. split; [exact (H e1 E1) | reflexivity]. Qed.

Lemma weierstrass_add_acc (E : EllipticCurve) (e : Exec) (p q : Z) (o : Exec * option Z) :
  is_u64 p -> is_u64 q -> weierstrass_add_assign_syscall E e p q = Ok o -> quiet_call e o.
Proof. intros Hp Hq. apply no_value. intros e'. apply ec_add_acc; assumption. Qed.

Lemma weierstrass_double_acc (E : EllipticCurve) (e : Exec) (p : Z) (o : Exec * option Z) :
  is_u64 p -> weierstrass_double_assign_syscall E e p = Ok o -> quiet_call e o.
Proof. intros Hp. apply no_value. intros e'. apply ec_double_acc; assumption. Qed.

Lemma edwards_decompress_acc (e : Exec) (p s : Z) (o : Exec * option Z) :
  edwards_decompress_syscall e p s = Ok o -> quiet_call e o.
Proof.
  intros E. unfold edwards_decompress_syscall in E. apply bind_ok in E as ([] & _ & E). apply bind_ok in E as ([] & _ & E). cbn zeta in E.
  apply bind_ok in E as ([y e1] & E1 & E). apply bind_ok in E as (last & _ & E). apply bind_ok in E as (d & _ & E).
  apply bind_ok in E as (pt & _ & E). apply mr_slice_acc in E1 as [A1 _]; [|apply as_u64_bound].
  apply (result_acc e e1) in E; [exact E | | apply bytes_to_words_u64, le_bytes_bound].
  etransitivity; [|exact A1]. etransitivity; [apply acc_bump | apply acc_clk].
Qed.

Lemma sha_extend_acc (e : Exec) (w a2 : Z) (o : Exec * option Z) : sha256_extend e w a2 = Ok o -> quiet_call e o.
Proof.
  intros E. unfold sha256_extend in E. apply bind_ok in E as ([] & _ & E). cbn zeta in E. apply bind_ok in E as (e1 & E1 & E).
  apply Ok_inj in E as <-. split; [|reflexivity]. cbn [fst]. etransitivity; [apply acc_bump|]. revert E1.
  generalize (bump_memory_clk e) as s. induction (map Z.of_nat (seq 16 48)) as [|i l IH]; intros s E; cbn [extend_loop] in E;
    [apply Ok_inj in E as <-; reflexivity|].
  apply bind_ok in E as (s1 & E1 & E). etransitivity; [|exact (IH _ E)]. unfold extend_step in E1.
  apply bind_ok in E1 as ([v1 t1] & T1 & E1). apply bind_ok in E1 as ([v2 t2] & T2 & E1). apply bind_ok in E1 as ([v3 t3] & T3 & E1).
  apply bind_ok in E1 as ([v4 t4] & T4 & E1). apply bind_ok in E1 as (t5 & T5 & E1). apply Ok_inj in E1 as <-.
  apply mr_acc in T1, T2, T3, T4; try apply as_u64_bound. apply mw_acc in T5; [|apply as_u64_bound | apply add32_u64].
  etransitivity; [|apply acc_bump]. etransitivity; [|exact T5]. etransitivity; [|apply T4]. etransitivity; [|apply T3].
  etransitivity; [apply T1 | apply T2].
Qed.

Lemma sha_compress_acc (e : Exec) (w h : Z) (o : Exec * option Z) : is_u64 h -> sha256_compress e w h = Ok o -> quiet_call e o.
Proof.
  intros Hh E. unfold sha256_compress in E. cbn zeta in E. apply bind_ok in E as ([hs e1] & E1 & E).
  apply mr_slice_acc in E1 as [A1 _]; [|exact Hh].
  destruct (map as_u32 hs) as [|h0 [|h1 [|h2 [|h3 [|h4 [|h5 [|h6 [|h7 [|? ?]]]]]]]]]; try discriminate E.
  apply bind_ok in E as ([s e2] & E2 & E). apply (result_acc e e2) in E; [exact E | | repeat constructor; apply add32_u64].
  etransitivity; [|]. 1: etransitivity; [|exact A1]; etransitivity; [|apply acc_clk]; etransitivity; apply acc_bump.
  etransitivity; [apply acc_bump|]. revert E2. generalize (bump_memory_clk e1), (mkSha h0 h1 h2 h3 h4 h5 h6 h7).
  induction (imap pair SHA_COMPRESS_K) as [|[i k] l IH]; intros t st E2; cbn [compress_loop] in E2;
    [apply Ok_inj in E2; injection E2 as _ <-; reflexivity|].
  apply bind_ok in E2 as ([wi t1] & T1 & E2). apply mr_acc in T1; [|apply as_u64_bound]. etransitivity; [apply T1 | exact (IH _ _ E2)].
Qed.

(** ** The handler *)

Section HandlerInv.
Context (program : Program) (X : External).

(** What is asked of the parameters: the permutations yield machine words, a
    hook yields byte strings, and the debugging calls keep the invariant. *)
Record params_ok : Prop := mkParamsOk {
  pk_keccakf : forall l, Forall is_u64 l -> Forall is_u64 (keccakf X l);
  pk_permute : forall l, Forall is_u32 (permute X l);
  pk_hook : forall fd l, Forall is_u8 l -> Forall (fun v => Forall is_u8 v /\ is_u64 (Z.of_nat (length v))) (hook X fd l);
  pk_debug : forall code e a b e' r, mid_inv e -> is_u64 a -> is_u64 b -> debug X code e a b = Ok (e', r) ->
    mid_inv e' /\ forall v, r = Some v -> is_u64 v
}.
Hypothesis Hparams : params_ok.

Lemma acc_inv (e e' : Exec) : mid_inv e -> acc e e' -> mid_inv e'.
Proof.
  intros [Hl Hr Hm Hp Hu Hh Hnp Hnc] [[] Hw]. split.
  - congruence.
  - rewrite ac_registers. exact Hr.
  - exact (Hw Hm).
  - rewrite ac_pc. exact Hp.
  - rewrite ac_mode. exact Hu.
  - rewrite ac_host. exact Hh.
  - rewrite ac_next_pc. exact Hnp.
  - rewrite ac_next_clk. exact Hnc.
Qed.

Definition good_result (e : Exec) (o : Exec * option Z) : Prop := mid_inv (fst o) /\ forall v, snd o = Some v -> is_u64 v.

Lemma quiet_good (e : Exec) (o : Exec * option Z) : mid_inv e -> quiet_call e o -> good_result e o.
Proof. intros Hi [Ha Hn]. split; [exact (acc_inv _ _ Hi Ha) | rewrite Hn; discriminate]. Qed.

Lemma with_host_inv (e : Exec) (h : HostState) : mid_inv e -> host_ok h -> mid_inv (with_host e h).
Proof. intros [] Hh. split; assumption. Qed.

Lemma trace_hint_inv (e : Exec) (a : Z) (v : list Z) : mid_inv e -> mid_inv (trace_hint e a v).
Proof. intros Hi. unfold trace_hint. destruct (is_tracing e); [apply with_host_inv; [exact Hi | apply (mi_host e Hi)] | exact Hi]. Qed.

Lemma keccak_good (e : Exec) (p a2 : Z) (o : Exec * option Z) :
  mid_inv e -> is_u64 p -> keccak_permute X e p a2 = Ok o -> good_result e o.
Proof.
  intros Hi Hp E. unfold keccak_permute in E. apply bind_ok in E as ([] & _ & E). cbn zeta in E. apply bind_ok in E as ([st e1] & E1 & E).
  apply bind_ok in E as ([] & _ & E). apply mr_slice_acc in E1 as [A1 V1]; [|exact Hp]. apply quiet_good; [exact Hi|].
  apply (result_acc e e1) in E; [exact E | | apply (pk_keccakf Hparams), V1, (mi_memory e Hi)].
  etransitivity; [|exact A1]. etransitivity; [apply acc_bump | apply acc_clk].
Qed.

Lemma pair_words_u64 (l : list Z) : Forall is_u32 l -> Forall is_u64 (pair_words l).
Proof.
  assert (H : forall n l, (length l <= n)%nat -> Forall is_u32 l -> Forall is_u64 (pair_words l)).
  { induction n as [|n IH]; intros [|x [|y k]] Hn Hl; cbn in Hn; try lia; try constructor.
    - apply Forall_cons in Hl as [Hx Hl]. apply Forall_cons in Hl as [Hy Hl]. unfold is_u in *.
      apply lor_bound; [lia | rewrite Z.shiftl_mul_pow2 by lia; lia | lia].
    - apply IH; [lia|]. apply Forall_cons in Hl as [_ Hl]. apply Forall_cons in Hl. tauto. }
  apply (H (length l)). lia.
Qed.

Lemma poseidon2_good (e : Exec) (p : Z) (o : Exec * option Z) :
  mid_inv e -> is_u64 p -> poseidon2 X e p = Ok o -> good_result e o.
Proof.
  intros Hi Hp E. unfold poseidon2 in E. apply bind_ok in E as ([] & _ & E). apply bind_ok in E as ([st e1] & E1 & E). cbn zeta in E.
  apply bind_ok in E as ([] & _ & E). apply bind_ok in E as (e2 & E2 & E). apply Ok_inj in E as <-.
  apply mr_unsafe_acc in E1 as [A1 _]; [|exact Hp]. apply quiet_good; [exact Hi|]. split; [|reflexivity]. cbn [fst].
  etransitivity; [exact A1|]. eapply mw_slice_acc, E2. apply pair_words_u64, (pk_permute Hparams).
Qed.

Lemma set_regs_inv (l : list (Z * Z)) (e e' : Exec) :
  mid_inv e -> Forall (fun p => is_u64 (snd p)) l -> set_regs e l = Ok e' -> mid_inv e'.
Proof.
  intros Hi Hl. revert e Hi. induction Hl as [|[r v] l Hv _ IH]; intros e Hi E; cbn [set_regs] in E; [apply Ok_inj in E as <-; exact Hi|].
  apply bind_ok in E as (e1 & E1 & E). exact (IH e1 (set_reg_inv _ _ _ _ Hi Hv E1) E).
Qed.

#[local] Opaque set_regs.

Lemma sig_return_good (e : Exec) (a : Z) (o : Exec * option Z) : mid_inv e -> sig_return_syscall e a = Ok o -> good_result e o.
Proof.
  intros Hi E. unfold sig_return_syscall in E. apply bind_ok in E as ([regs e1] & E1 & E). cbn zeta in E.
  apply bind_ok in E as ([] & _ & E). apply bind_ok in E as (e2 & E2 & E). apply bind_ok in E as (v & Ev & E). apply Ok_inj in E as <-.
  apply mr_slice_acc in E1 as [A1 V1]; [|apply as_u64_bound]. specialize (V1 (mi_memory e Hi)). split.
  - eapply set_regs_inv, E2; [eapply acc_inv; [exact Hi|]; etransitivity; [exact A1 | apply acc_bump]|].
    apply Forall_forall. intros [r w] Hin. apply list_elem_of_In, in_combine_r in Hin. exact (proj1 (List.Forall_forall _ _) V1 w Hin).
  - intros w [= <-]. apply of_option_ok in Ev. exact (Forall_lookup_1 _ _ _ _ V1 Ev).
Qed.

Lemma insert_wf (m m' : LimitedMemory.LimitedMemory MemValue) (a v : Z) :
  limited_wf m -> is_u64 a -> is_u64 v -> LimitedMemory.insert m a (mkMemValue 0 v) = Ok m' -> limited_wf m'.
Proof.
  intros (Hd & top & base & Hr & Ht & Hb) Ha Hv E. unfold LimitedMemory.insert in E.
  destruct (LimitedMemory.has_last_error _); [apply Ok_inj in E as <-; split; [exact Hd | eauto]|].
  apply bind_ok in E as ([old mem] & Em & E). cbn [LimitedMemory.memory LimitedMemory.check_ptr] in Em.
  assert (Hs : word_address a).
  { apply (cow_in_space _ top base a Hr (proj1 Ha)). left. unfold MaybeCowMemory.insert in Em. unfold MaybeCowMemory.get.
    destruct (is_multiple_of a 8) eqn:Ea; [|discriminate]. cbn [assertb bind] in *.
    assert (Hsp : in_space a).
    { split; [apply Ha|]. destruct (Z_lt_le_dec a (2 ^ MAX_LOG_ADDR)) as [|Hge]; [assumption|]. exfalso.
      destruct (LimitedMemory.memory m) as [copy original | pm], base as [b|]; cbn in Hr; try contradiction.
      - destruct (paged_step_panics copy a (proj1 (proj1 Hr)) Hge) as (_ & _ & _ & _ & Hi). rewrite Hi in Em. discriminate.
      - destruct (paged_step_panics pm a (proj1 Hr) Hge) as (_ & _ & _ & _ & Hi). rewrite Hi in Em. discriminate. }
    eexists. pose proof (cow_get _ top base a Hr (conj Hsp (proj1 (Z.eqb_eq _ _) Ea))) as Hgt. unfold MaybeCowMemory.get in Hgt.
    rewrite Ea in Hgt. exact Hgt. }
  destruct (cow_insert _ top base a (mkMemValue 0 v) Hr Hs) as (mem' & Em' & Hm'). rewrite Em in Em'. apply Ok_inj in Em'. injection Em' as _ <-.
  assert (Hw : forall lm, LimitedMemory.memory lm = mem -> LimitedMemory.dummy_value lm = LimitedMemory.dummy_value m -> limited_wf lm).
  { intros lm Em1 Ed. split; [rewrite Ed; exact Hd|]. rewrite Em1. exists (<[a := mkMemValue 0 v]> top), base.
    split; [exact Hm'|]. split; [apply map_Forall_insert_2; assumption | exact Hb]. }
  apply Ok_inj in E as <-. destruct old; apply Hw; unfold LimitedMemory.increase; try destruct (Limiter.increase _); reflexivity.
Qed.
(** The streams of the host, one after the other. *)
Ltac host_parts := refine (conj _ (conj _ (conj _ (conj _ _)))); try assumption.

Lemma mw_hints_inv (l : list (Z * Z)) (e e' : Exec) :
  mid_inv e -> Forall (fun p => is_u64 (fst p) /\ is_u64 (snd p)) l -> mw_hints e l = Ok e' -> mid_inv e'.
Proof.
  intros Hi Hl. revert e Hi. induction Hl as [|[a v] l [Ha Hv] _ IH]; intros e Hi E; cbn [mw_hints] in E;
    [apply Ok_inj in E as <-; exact Hi|].
  apply bind_ok in E as (e1 & E1 & E). apply bind_ok in E1 as (m & Em & E1). apply Ok_inj in E1 as <-.
  refine (IH _ (with_memory_inv _ _ Hi _) E). exact (insert_wf _ _ _ _ (mi_memory e Hi) Ha Hv Em).
Qed.

Lemma hint_words_u64 (vec : list Z) : Forall is_u8 vec -> Forall is_u64 (hint_words vec).
Proof.
  intros Hb. unfold hint_words. pose proof (as_chunks_spec (length vec) vec (le_n _)) as Hc.
  destruct (as_chunks (length vec) vec) as [chunks remainder]. destruct Hc as (<- & Hl & Hr).
  apply Forall_app in Hb as [Hb Hb']. apply Forall_app_2; [|apply Forall_singleton].
  - apply chunks_u64; assumption.
  - apply word_of_bytes; [rewrite length_app, length_replicate; lia|].
    apply Forall_app_2; [exact Hb' | apply Forall_replicate; split; [discriminate | reflexivity]].
Qed.

Lemma hint_read_good (e : Exec) (ptr len : Z) (o : Exec * option Z) : mid_inv e -> hint_read e ptr len = Ok o -> good_result e o.
Proof.
  intros Hi E. unfold hint_read in E. destruct (input (host e)) as [|vec rest] eqn:Hin; [discriminate|]. cbn zeta in E.
  apply bind_ok in E as ([] & _ & E). apply bind_ok in E as ([] & _ & E).
  assert (Hh : host_ok (host e)) by exact (mi_host e Hi). destruct Hh as (Hv & Hp & Hx & Hd & Hd'). rewrite Hin in Hv.
  apply Forall_cons in Hv as [[Hv _] Hrest]. pose proof (hint_words_u64 vec Hv) as Hw. unfold hint_words in Hw.
  destruct (as_chunks (length vec) vec) as [chunks remainder]. apply Forall_app in Hw as [Hw Hf]. apply Forall_cons in Hf as [Hf _].
  apply bind_ok in E as (e1 & E1 & E). apply bind_ok in E as (e2 & E2 & E). apply Ok_inj in E as <-. split; [cbn [fst]|discriminate].
  assert (Hi1 : mid_inv e1).
  { eapply mw_hints_inv, E1; [apply trace_hint_inv, with_host_inv; [exact Hi | host_parts]|].
    apply List.Forall_forall. intros [b w] Hin'. split; cbn [fst snd].
    - exact (proj1 (List.Forall_forall _ _) (slice_addrs_u64 _ _) b (in_combine_l _ _ _ _ Hin')).
    - exact (proj1 (List.Forall_forall _ _) Hw w (in_combine_r _ _ _ _ Hin')). }
  apply (mw_hints_inv [(as_u64 (ptr + Z.of_nat (length chunks) * 8), le_value 8 (remainder ++ replicate (8 - length remainder) 0))] e1 e2 Hi1);
    [apply Forall_singleton; split; [apply as_u64_bound | exact Hf]|].
  cbn [mw_hints]. rewrite E2. reflexivity.
Qed.

Lemma hint_len_good (e : Exec) (o : Exec * option Z) : mid_inv e -> hint_len e = Ok o -> good_result e o.
Proof.
  intros Hi E. apply Ok_inj in E as <-. split; [exact (acc_inv _ _ Hi (acc_trace e _))|]. intros v [= <-].
  pose proof (mi_host e Hi) as (Hv & _). destruct Hv as [|data rest [_ Hl] _]; [split; [discriminate | reflexivity] | exact Hl].
Qed.

Lemma written_bytes_good (e e' : Exec) (ptr n : Z) (bytes : list Z) : is_u64 ptr -> is_u64 n ->
  written_bytes e ptr n = Ok (bytes, e') -> acc e e' /\ Forall is_u8 bytes /\ is_u64 (Z.of_nat (length bytes)).
Proof.
  intros Hp Hn E. unfold written_bytes in E. apply bind_ok in E as ([ws e1] & E1 & E). apply Ok_inj in E. injection E as <- <-.
  apply read_values_acc in E1 as [A1 _]; [|destruct (n =? 0); [constructor|] | intros v Ev; apply Ok_inj in Ev as <-; split; [discriminate | reflexivity]].
  - split; [exact A1|]. split.
    + apply Forall_take, Forall_drop. apply List.Forall_flat_map, List.Forall_forall. intros w _. apply le_bytes_bound.
    + rewrite length_take. unfold is_u in *. lia.
  - apply range_addrs_u64; [|apply as_u64_bound]. apply land_bound; [lia | exact Hp | unfold not_u64, U64_MAX; lia].
Qed.

Lemma write_good (e : Exec) (fd ptr : Z) (o : Exec * option Z) :
  mid_inv e -> is_u64 ptr -> write (hook X) e fd ptr = Ok o -> good_result e o.
Proof.
  intros Hi Hp E. unfold write in E. apply bind_ok in E as (n & En & E). apply bind_ok in E as ([bytes e1] & E1 & E).
  apply (reg_u64 e) in En; [|exact Hi]. destruct (written_bytes_good e e1 ptr n bytes Hp En E1) as (A1 & Hb & Hl).
  pose proof (acc_inv _ _ Hi A1) as Hi1. pose proof (mi_host e1 Hi1) as (Hv & Hpv & Hx & Hd & Hd').
  assert (Hgood : forall s, mid_inv s -> Ok (s, None) = Ok o -> good_result e o)
    by (intros s Hs Es; apply Ok_inj in Es as <-; split; [exact Hs | discriminate]).
  destruct (_ || _); [exact (Hgood _ Hi1 E)|]. destruct (as_u32 fd =? FD_PUBLIC_VALUES).
  { refine (Hgood _ (with_host_inv _ _ Hi1 _) E). host_parts. apply Forall_app_2; assumption. }
  destruct (as_u32 fd =? FD_HINT).
  { refine (Hgood _ (with_host_inv _ _ Hi1 _) E). host_parts. constructor; [split|]; assumption. }
  destruct (existsb _ _); [|exact (Hgood _ Hi1 E)].
  refine (Hgood _ (with_host_inv _ _ Hi1 _) E). host_parts. apply Forall_app_2; [apply (pk_hook Hparams), Hb | assumption].
Qed.
Lemma enter_good (e e' : Exec) : mid_inv e -> clock_ok (clk e) -> enter_unconstrained e = Ok e' -> mid_inv e'.
Proof.
  intros [Hl Hr Hm Hp Hu Hh Hnp Hnc] Hc E. unfold enter_unconstrained in E. apply bind_ok in E as ([] & _ & E). apply Ok_inj in E as <-.
  split; cbn; try assumption.
  - destruct Hm as (Hd & top & base & Hrep & Ht & Hb). split; [exact Hd|]. cbn.
    destruct (LimitedMemory.memory (memory e)) as [copy original | pm], base as [b|]; cbn in Hrep |- *; try contradiction.
    + exists top, (Some b). auto.
    + exists ∅, (Some top). split; [split; [apply new_represents | exact Hrep]|]. split; [apply map_Forall_empty | exact Ht].
  - intros ctx [= <-]. repeat split; try assumption; apply Hp || apply Hc.
Qed.

Lemma exit_good (e e' : Exec) : mid_inv e -> exit_unconstrained e = Ok e' -> mid_inv e' /\ clock_ok (clk e').
Proof.
  intros [Hl Hr Hm Hp Hu Hh Hnp Hnc] E. unfold exit_unconstrained in E. apply bind_ok in E as (ctx & Ectx & E).
  apply of_option_ok in Ectx. destruct (Hu ctx Ectx) as (Hl' & Hr' & Hp' & Hc'). apply bind_ok in E as (m & Em & E). apply Ok_inj in E as <-.
  split; [|exact Hc']. split; cbn; try assumption; [|discriminate].
  apply bind_ok in Em as (lim & _ & Em). apply Ok_inj in Em as <-. destruct Hm as (Hd & top & base & Hrep & Ht & Hb). split; [exact Hd|]. cbn.
  destruct (LimitedMemory.memory (memory e)) as [copy original | pm], base as [b|]; cbn in Hrep |- *; try contradiction.
  - exists b, None. split; [apply Hrep|]. split; [exact Hb | apply map_Forall_empty].
  - exists top, None. auto.
Qed.

Lemma mprotect_good (f : SegmentFlags) (e : Exec) (addr prot : Z) (o : Exec * option Z) :
  mid_inv e -> mprotect_syscall f program e addr prot = Ok o -> good_result e o.
Proof.
  intros Hi E. unfold mprotect_syscall in E. do 5 apply bind_ok in E as ([] & _ & E). apply bind_ok in E as (e1 & E1 & E).
  apply Ok_inj in E as <-. split; [cbn [fst]|discriminate]. unfold page_prot_write in E1. do 3 apply bind_ok in E1 as ([] & _ & E1).
  destruct (Entry.or_insert _ _) as [old put]. apply Ok_inj in E1 as <-. apply with_host_inv; [apply trace_mem_inv, Hi|].
  exact (mi_host _ (trace_mem_inv e (page_prot_as_mem old) Hi)).
Qed.

Lemma commit_good (e e' : Exec) (i w : Z) : mid_inv e -> is_u32 w -> set_public_value_digest_word e i w = Ok e' -> mid_inv e'.
Proof.
  intros Hi Hw E. apply bind_ok in E as ([] & _ & E). apply Ok_inj in E as <-. apply with_host_inv; [exact Hi|].
  pose proof (mi_host e Hi) as (Hv & Hpv & Hx & Hd & Hd'). host_parts; cbn; [rewrite length_insert; exact Hd | apply Forall_insert; assumption].
Qed.

Lemma halt_good (e : Exec) (a : Z) : mid_inv e -> mid_inv (set_exit_code e (as_u32 a)).
Proof.
  intros Hi. apply with_host_inv; [exact Hi|]. pose proof (mi_host e Hi) as (Hv & Hpv & Hx & Hd & Hd'). host_parts.
  apply as_unsigned_bound. lia.
Qed.

#[local] Opaque fp_op_syscall fp2_addsub_syscall fp2_mul_syscall uint256_mul uint256_ops sha256_extend sha256_compress
  weierstrass_add_assign_syscall weierstrass_double_assign_syscall edwards_add edwards_decompress_syscall keccak_permute
  poseidon2 sig_return_syscall hint_read write mprotect_syscall.

(** One call of [syscall_result], by the operation it makes. *)
Ltac handler_case :=
  lazymatch goal with
  | E : bind (fp_op_map _) _ = _ |- _ => apply bind_ok in E as (? & _ & E)
  | _ => idtac
  end;
  lazymatch goal with
  | E : fp_op_syscall _ _ _ _ _ = _ |- _ => eapply quiet_good; [assumption | eapply fp_op_acc; [| | exact E]; assumption]
  | E : fp2_addsub_syscall _ _ _ _ _ = _ |- _ => eapply quiet_good; [assumption | eapply fp2_addsub_acc; [| | exact E]; assumption]
  | E : fp2_mul_syscall _ _ _ _ = _ |- _ => eapply quiet_good; [assumption | eapply fp2_mul_acc; [| | exact E]; assumption]
  | E : uint256_mul _ _ _ = _ |- _ => eapply quiet_good; [assumption | eapply uint256_mul_acc; [| | exact E]; assumption]
  | Hi : mid_inv ?e, E : uint256_ops _ _ _ = _ |- _ =>
      eapply quiet_good; [assumption | eapply uint256_ops_acc; [exact (mi_registers e Hi) | | | exact E]; assumption]
  | E : sha256_extend _ _ _ = _ |- _ => eapply quiet_good; [assumption | eapply sha_extend_acc; exact E]
  | E : sha256_compress _ _ _ = _ |- _ => eapply quiet_good; [assumption | eapply sha_compress_acc; [|exact E]; assumption]
  | E : weierstrass_add_assign_syscall _ _ _ _ = _ |- _ => eapply quiet_good; [assumption | eapply weierstrass_add_acc; [| | exact E]; assumption]
  | E : edwards_add _ _ _ _ = _ |- _ => eapply quiet_good; [assumption | eapply weierstrass_add_acc; [| | exact E]; assumption]
  | E : weierstrass_double_assign_syscall _ _ _ = _ |- _ => eapply quiet_good; [assumption | eapply weierstrass_double_acc; [|exact E]; assumption]
  | E : edwards_decompress_syscall _ _ _ = _ |- _ => eapply quiet_good; [assumption | eapply edwards_decompress_acc; exact E]
  | E : keccak_permute _ _ _ _ = _ |- _ => eapply keccak_good; [| |exact E]; assumption
  | E : poseidon2 _ _ _ = _ |- _ => eapply poseidon2_good; [| |exact E]; assumption
  | E : sig_return_syscall _ _ = _ |- _ => eapply sig_return_good; [|exact E]; assumption
  | E : hint_read _ _ _ = _ |- _ => eapply hint_read_good; [|exact E]; assumption
  | E : hint_len _ = _ |- _ => eapply hint_len_good; [|exact E]; assumption
  | E : write _ _ _ _ = _ |- _ => eapply write_good; [| |exact E]; assumption
  | E : mprotect_syscall _ _ _ _ _ = _ |- _ => eapply mprotect_good; [|exact E]; assumption
  | Hpre : (forall code, debug X code _ _ _ = _ -> _), E : debug _ _ _ _ _ = _ |- _ => exact (Hpre _ E)
  | Hnone : (forall s, mid_inv s -> Ok (s, None) = _ -> _), E : mprotect_flush_syscall _ = _ |- _ => eapply Hnone; [|exact E]; assumption
  | Hnone : (forall s, mid_inv s -> Ok (s, None) = _ -> _), E : Ok (set_exit_code _ _, None) = _ |- _ =>
      eapply Hnone; [|exact E]; apply halt_good; assumption
  | Hnone : (forall s, mid_inv s -> Ok (s, None) = _ -> _), E : Ok (?s, None) = _ |- _ => apply (Hnone s); assumption
  | Hret : (forall s v, mid_inv s -> _), E : bind (enter_unconstrained _) _ = _ |- _ =>
      let E1 := fresh in apply bind_ok in E as (? & E1 & E); eapply Hret; [| |exact E]; [eapply enter_good; [| |exact E1]; assumption | split; [discriminate | reflexivity]]
  | Hret : (forall s v, mid_inv s -> _), E : bind (exit_unconstrained _) _ = _ |- _ =>
      let E1 := fresh in apply bind_ok in E as (? & E1 & E); eapply Hret; [| |exact E]; [eapply exit_good; [|exact E1]; assumption | split; [discriminate | reflexivity]]
  | Hnone : (forall s, mid_inv s -> Ok (s, None) = _ -> _), Hb : is_u64 ?b, E : bind (assertb (?b <? 2 ^ 32)) _ = _ |- _ =>
      let E1 := fresh in let E2 := fresh in apply bind_ok in E as ([] & E1 & E); apply assertb_ok, Z.ltb_lt in E1;
      apply bind_ok in E as (? & E2 & E); eapply Hnone; [|exact E]; eapply commit_good; [| |exact E2]; [assumption | split; [apply Hb | exact E1]]
  end.

Lemma syscall_result_good (e : Exec) (code : SyscallCode) (a b : Z) (o : Exec * option Z) :
  mid_inv e -> clock_ok (clk e) -> is_u64 a -> is_u64 b ->
  syscall_result program X e code a b = Ok o ->
  good_result e o /\ (code = EXIT_UNCONSTRAINED -> clock_ok (clk (fst o))).
Proof.
  intros Hi Hc Ha Hb E.
  assert (Hret : forall s v, mid_inv s -> is_u64 v -> Ok (s, Some v) = Ok o -> good_result e o)
    by (intros s v Hs Hv Es; apply Ok_inj in Es as <-; split; [exact Hs | intros w [= <-]; exact Hv]).
  assert (Hnone : forall s, mid_inv s -> Ok (s, None) = Ok o -> good_result e o)
    by (intros s Hs Es; apply Ok_inj in Es as <-; split; [exact Hs | discriminate]).
  assert (Hpre : forall code, debug X code e a b = Ok o -> good_result e o)
    by (intros c Ec; destruct o as [s r]; exact (pk_debug Hparams c e a b s r Hi Ha Hb Ec)).
  destruct code; cbn [syscall_result] in E; first [discriminate E | split; [handler_case | try discriminate]].
  intros _. apply bind_ok in E as (e1 & E1 & E). apply Ok_inj in E as <-. exact (proj2 (exit_good _ _ Hi E1)).
Qed.

Lemma code_u64 (c : SyscallCode) : is_u64 (code_as_u32 c).
Proof. destruct c; (split; [discriminate | reflexivity]). Qed.

(** The handler meets the contract the executor asks of it. *)
Lemma handler_keeps : handler_ok (ecall_handler program X).
Proof.
  intros e code e' r Hi Hc E. unfold ecall_handler in E. apply bind_ok in E as (a & Ea & E). apply bind_ok in E as (b & Eb & E).
  apply bind_ok in E as ([] & _ & E). apply bind_ok in E as ([s o] & Es & E). apply Ok_inj in E. injection E as <- <-.
  apply syscall_result_good in Es as [[Hs Ho] Hx]; try assumption; [|eapply reg_u64; eassumption..].
  split; [exact Hs|]. split; [exact Hx|]. intros v [= <-]. destruct o as [v|]; [apply Ho; reflexivity | apply code_u64].
Qed.
End HandlerInv.

(** ** The start of a program *)

(** A program as the loader leaves it. *)
Definition program_wf (program : Program) : Prop :=
  Forall wf_instruction (instructions program) /\ is_u64 (pc_start_abs program) /\
  Forall (fun p => is_u64 (fst p) /\ is_u64 (snd p)) (memory_image program).

Lemma insert_image_wf (image : list (Z * Z)) (m m' : LimitedMemory.LimitedMemory MemValue) :
  limited_wf m -> Forall (fun p => is_u64 (fst p) /\ is_u64 (snd p)) image -> insert_image m image = Ok m' -> limited_wf m'.
Proof.
  intros Hm Hl. revert m Hm. induction Hl as [|[a v] l [Ha Hv] _ IH]; intros m Hm E; cbn [insert_image] in E;
    [apply Ok_inj in E as <-; exact Hm|].
  apply bind_ok in E as (m1 & E1 & E). exact (IH m1 (insert_wf _ _ _ _ Hm Ha Hv E1) E).
Qed.

Lemma new_owned_wf (limit : option Z) : limited_wf (LimitedMemory.new_owned MemValue_default limit).
Proof.
  split; [split; [discriminate | reflexivity]|]. exists ∅, None. split; [apply new_represents|].
  split; apply map_Forall_empty.
Qed.

Lemma new_with_limit_inv (program : Program) (max_trace_size limit : option Z) (e : Exec) :
  program_wf program -> new_with_limit program max_trace_size limit = Ok e -> exec_inv e.
Proof.
  intros (_ & Hpc & Himg) E. unfold new_with_limit in E. apply bind_ok in E as (m & Em & E). apply Ok_inj in E as <-.
  split; cbn [registers memory pc maybe_unconstrained host clk]; try reflexivity.
  - apply Forall_replicate. split; [discriminate | reflexivity].
  - exact (insert_image_wf _ _ _ (new_owned_wf limit) Himg Em).
  - exact Hpc.
  - discriminate.
  - refine (conj _ (conj _ (conj _ (conj _ _)))); cbn; [constructor | constructor | split; [discriminate | reflexivity] | reflexivity|].
    apply (Forall_replicate _ 8 0). split; [discriminate | reflexivity].
  - split; [split; [discriminate | reflexivity] | reflexivity].
Qed.

Lemma run_inv (program : Program) (handler : Exec -> SyscallCode -> Res (Exec * option Z)) (n : nat) (e e' : Exec) :
  handler_ok handler -> Forall wf_instruction (instructions program) -> exec_inv e -> run program handler n e = Ok e' -> exec_inv e'.
Proof.
  intros Hh Hp. revert e. induction n as [|n IH]; intros e Hi E; cbn [run] in E; [apply Ok_inj in E as <-; exact Hi|].
  apply bind_ok in E as (e1 & E1 & E). apply (IH e1); [|exact E]. unfold step_once in E1. apply bind_ok in E1 as ([e2 stop] & E2 & E1).
  apply Ok_inj in E1 as <-. exact (execute_instruction_inv program handler Hh e e2 stop Hp Hi E2).
Qed.
