(* ===== verification/CurveCalls.v ===== *)
(** * The elliptic-curve calls

    The calls that add, double and decompress points ([Syscalls.v]) on a
    memory that holds a map: the operands are the points at the addresses of
    the arguments, the result of the curve function ([CurveFacts.v]) is
    stored, every other doubleword keeps its value. *)

From stdpp Require Import base list gmap.
From Stdlib Require Import ZArith Lia Bool Znumtheory Zmod.
From S2P Require Import Prelude Words Isa Row SyscallCode Paging Memory Executor ExecutorFacts MemoryFacts.
From S2P Require Import Curves CurveFacts Syscalls SyscallFacts.
Open Scope Z_scope.

(** The point whose coordinates take [m] doublewords each. *)
Definition point_at (m : nat) (g : gmap Z MemValue) (x : Z) : AffinePoint :=
  mkAffinePoint (big_at m g x) (big_at m g (x + 8 * Z.of_nat m)).

Lemma point_at_same (m : nat) (g g' : gmap Z MemValue) (x : Z) : same_values g g' -> point_at m g' x = point_at m g x.
Proof. intros H. unfold point_at. rewrite !(same_values_big m g g') by exact H. reflexivity. Qed.

Lemma half_double (m : nat) : ((m + m) / 2)%nat = m.
Proof. symmetry. apply Nat.div_unique with 0%nat; lia. Qed.

Lemma from_words_at (m : nat) (g : gmap Z MemValue) (x : Z) : values_ok g ->
  from_words_le (map (val g) (addrs x (m + m))) = point_at m g x.
Proof.
  intros Hv. unfold from_words_le. rewrite length_map, addrs_length, half_double, addrs_split, map_app.
  rewrite take_app_length', drop_app_length' by (rewrite length_map, addrs_length; reflexivity).
  rewrite !from_bytes_words by (apply words_u64, Hv). reflexivity.
Qed.

Lemma to_words_digits (m : nat) (P : AffinePoint) : to_words_le (m + m) P = fp2_digits (m + m) (px P) (py P).
Proof.
  unfold to_words_le, fp2_digits. rewrite half_double. replace (m + m - m)%nat with m by lia.
  replace (((m + m) * 8) / 2)%nat with (8 * m)%nat by (apply Nat.div_unique with 0%nat; lia).
  rewrite !bytes_words_digits, !take_ge by (rewrite u64_digits_length; reflexivity). reflexivity.
Qed.

(** What a call that stores the point [R] at [x] leaves. *)
Definition stored (m : nat) (e : Exec) (g : gmap Z MemValue) (x : Z) (R : AffinePoint) (e' : Exec) : Prop :=
  exists g', holds_map (memory e') g' /\ accessed e e' /\ point_at m g' x = R /\ forall a, a ∉ addrs x (m + m) -> val g' a = val g a.

Definition fits (m : nat) (R : AffinePoint) : Prop :=
  0 <= px R < 2 ^ (64 * Z.of_nat m) /\ 0 <= py R < 2 ^ (64 * Z.of_nat m).

Lemma store_point (m : nat) (e e1 : Exec) (g g1 : gmap Z MemValue) (x : Z) (R : AffinePoint) :
  holds_map (memory e1) g1 -> same_values g g1 -> accessed e e1 -> slice_ok x (m + m) -> fits m R ->
  exists e', mw_slice_without_prot e1 x (to_words_le (m + m) R) = Ok e' /\ stored m e g x R e'.
Proof.
  intros Hg Hs Ha Hx [H0 H1]. rewrite to_words_digits.
  destruct (fp2_write_ok e1 g1 x (px R) (py R) m Hg Hx H0 H1) as (e' & g' & E & Hg' & B0 & B1 & O & A).
  exists e'. split; [exact E|]. exists g'. split; [exact Hg'|]. split; [etransitivity; eassumption|].
  split; [unfold point_at; rewrite B0, B1; destruct R; reflexivity|]. intros a Hn. rewrite O by exact Hn. apply Hs.
Qed.

Section Curve.
Context (E : EllipticCurve) (m : nat) (words : curve_words E = (m + m)%nat).
Context (e : Exec) (g : gmap Z MemValue) (Hg : holds_map (memory e) g) (Hv : values_ok g).

(** Up to the curve function, the call only reads. *)
Lemma ec_add_reads (x y : Z) : slice_ok x (m + m) -> slice_ok y (m + m) ->
  exists e1 g1, holds_map (memory e1) g1 /\ same_values g g1 /\ accessed e e1 /\
    ec.ec_add E e x y = let* R := ec_add E (point_at m g x) (point_at m g y) in mw_slice_without_prot e1 x (to_words_le (m + m) R).
Proof.
  intros Hx Hy. unfold ec.ec_add. rewrite words, (slice_multiple x _ Hx), (slice_multiple y _ Hy). cbn [assertb bind].
  set (e0 := with_clk (bump_memory_clk e) (clk e)). assert (A0 : accessed e e0) by (split; reflexivity).
  destruct (two_slices_ok e0 g x y (m + m) (m + m) Hg Hx Hy) as (e1 & e2 & g2 & E1 & E2 & G2 & V2 & A2 & _).
  rewrite E1. cbn [bind]. rewrite E2. cbn [bind]. rewrite !from_words_at by exact Hv.
  exists (bump_memory_clk e2), g2. split; [exact G2|]. split; [exact V2|]. split; [|reflexivity].
  etransitivity; [exact A0|]. etransitivity; [exact A2 | apply bump_accessed].
Qed.

Lemma ec_add_stores (x y : Z) (R : AffinePoint) : slice_ok x (m + m) -> slice_ok y (m + m) ->
  ec_add E (point_at m g x) (point_at m g y) = Ok R -> fits m R ->
  exists e', ec.ec_add E e x y = Ok e' /\ stored m e g x R e'.
Proof.
  intros Hx Hy HR Hf. destruct (ec_add_reads x y Hx Hy) as (e1 & g1 & G1 & V1 & A1 & ->). rewrite HR. cbn [bind].
  apply (store_point m e e1 g g1 x R); assumption.
Qed.

Lemma ec_double_stores (x : Z) (R : AffinePoint) : slice_ok x (m + m) ->
  ec_double E (point_at m g x) = Ok R -> fits m R ->
  exists e', ec.ec_double E e x = Ok e' /\ stored m e g x R e'.
Proof.
  intros Hx HR Hf. unfold ec.ec_double. rewrite words, (slice_multiple x _ Hx). cbn [assertb bind].
  destruct (mr_slice_ok false e g x (m + m) Hg Hx) as (e1 & g1 & E1 & G1 & V1 & A1 & _).
  rewrite E1. cbn [bind]. rewrite from_words_at, HR by exact Hv. cbn [bind]. apply (store_point m e e1 g g1 x R); assumption.
Qed.
End Curve.

(** ** The three curves that are computed here *)

Definition sw_curves : list WeierstrassParameters := [Bn254Parameters; Secp256r1Parameters; Bls12381Parameters].

Lemma sw_curves_ok (E : WeierstrassParameters) : E ∈ sw_curves -> field_ok (BaseField E) /\ 2 < MODULUS (BaseField E).
Proof.
  intros H. apply list_elem_of_In in H. cbn in H.
  destruct H as [<- | [<- | [<- | []]]]; (split; [split; [split; reflexivity | reflexivity] | reflexivity]).
Qed.

Lemma canonical_fits (E : WeierstrassParameters) (R : AffinePoint) :
  field_ok (BaseField E) -> canonical E R -> fits (WordsFieldElement (BaseField E)) R.
Proof. intros [Hp _] [Hx Hy]. unfold fits. lia. Qed.

Lemma sw_add_equal (E : WeierstrassParameters) (P : AffinePoint) : sw_add E P P = Panic.
Proof. unfold sw_add. rewrite !Z.eqb_refl. reflexivity. Qed.

(** ** Decompression *)

Lemma last_byte (bytes : list Z) (b c : Z) : length bytes = 32%nat ->
  from_bytes_le (<[31%nat := b]> bytes) = from_bytes_le (<[31%nat := c]> bytes) + 2 ^ 248 * (b - c).
Proof.
  intros Hl. destruct (lookup_lt_is_Some_2 bytes 31 ltac:(lia)) as [last E].
  pose proof (take_drop_middle bytes 31 last E) as Hs. rewrite (drop_ge bytes) in Hs by lia.
  assert (Hll : length (take 31 bytes) = 31%nat) by (rewrite length_take; lia). set (l := take 31 bytes) in *.
  rewrite <- Hs, !insert_app_r_alt, Hll by lia. change (31 - 31)%nat with 0%nat. change (<[0%nat := ?v]> [last]) with [v].
  unfold from_bytes_le. rewrite !le_value_app, Hll by lia. cbn [le_value]. change (8 * Z.of_nat 31) with 248. ring.
Qed.

Lemma sign_byte (last sign : Z) : is_u8 last -> 0 <= sign <= 1 ->
  let b := Z.lor (Z.land last 0x7f) (as_u8 (Z.shiftl sign 7)) in is_u8 b /\ b - Z.land last 0x7f = 2 ^ 7 * sign.
Proof.
  intros Hl Hs. cbn zeta. change 0x7f with (2 ^ 7 - 1). rewrite land_mask by lia.
  assert (Hm : 0 <= last mod 2 ^ 7 < 2 ^ 7) by (apply Z.mod_pos_bound; lia). set (r := last mod 2 ^ 7) in *. clearbody r.
  assert (Hc : sign = 0 \/ sign = 1) by lia. destruct Hc as [-> | ->].
  - change (as_u8 (Z.shiftl 0 7)) with 0. rewrite Z.lor_0_r. unfold is_u. lia.
  - change (as_u8 (Z.shiftl 1 7)) with (1 * 2 ^ 7). rewrite Z.lor_comm, lor_shl by lia. unfold is_u. lia.
Qed.

(** The bytes given to [decompress]: the low 255 bits and the sign. *)
Lemma compressed_value (bytes : list Z) (last sign : Z) :
  length bytes = 32%nat -> Forall is_u8 bytes -> bytes !! 31%nat = Some last -> 0 <= sign <= 1 ->
  let compressed := <[31%nat := Z.lor (Z.land last 0x7f) (as_u8 (Z.shiftl sign 7))]> bytes in
  length compressed = 32%nat /\ Forall is_u8 compressed /\
  from_bytes_le compressed mod 2 ^ 255 = from_bytes_le bytes mod 2 ^ 255 /\ from_bytes_le compressed / 2 ^ 255 = sign.
Proof.
  intros Hl Hb El Hs. cbn zeta. destruct (sign_bit bytes Hl Hb) as (last' & El' & _ & Ey & _).
  assert (last' = last) as -> by congruence.
  destruct (sign_byte last sign (Forall_lookup_1 _ _ _ _ Hb El) Hs) as [Hb1 Hd]. cbn zeta in *.
  set (b := Z.lor _ _) in *. rewrite (last_byte bytes b (Z.land last 0x7f) Hl), Ey, Hd.
  split; [rewrite length_insert; exact Hl|]. split; [apply Forall_insert; assumption|].
  replace (2 ^ 248 * (2 ^ 7 * sign)) with (sign * 2 ^ 255) by ring.
  pose proof (Z.mod_pos_bound (from_bytes_le bytes) (2 ^ 255) ltac:(lia)) as Hm. set (r := from_bytes_le bytes mod 2 ^ 255) in *.
  split; [rewrite Z_mod_plus_full; apply Z.mod_small, Hm | rewrite Z.div_add, Z.div_small by lia; lia].
Qed.

Lemma words_bytes_u8 (ws : list Z) : Forall is_u8 (words_to_bytes_le_vec ws).
Proof.
  unfold words_to_bytes_le_vec. induction ws as [|w ws IH]; [constructor|]. cbn [flat_map]. apply Forall_app.
  split; [apply le_bytes_bound | exact IH].
Qed.

Section EdwardsDecompress.
Context (e : Exec) (g : gmap Z MemValue) (Hg : holds_map (memory e) g) (Hv : values_ok g).
Context (x sign : Z) (Hx : slice_ok x 8) (Hs : 0 <= sign <= 1).

(** Up to [decompress], the call only reads. *)
Lemma decompress_reads : exists e1 g1 bytes, holds_map (memory e1) g1 /\ same_values g g1 /\ accessed e e1 /\
  length bytes = 32%nat /\ Forall is_u8 bytes /\
  from_bytes_le bytes mod 2 ^ 255 = big_at 4 g (x + 32) mod 2 ^ 255 /\ from_bytes_le bytes / 2 ^ 255 = sign /\
  edwards_decompress_syscall e x sign =
    let* o := decompress bytes in
    let* pt := of_option o in
    let* e' := mw_slice_without_prot e1 x (to_u64_digits 4 (px pt)) in Ok (e', None).
Proof.
  destruct (slice_split x 4 4 Hx) as [Hx0 Hx1]. change (8 * Z.of_nat 4) with 32 in Hx1.
  unfold edwards_decompress_syscall, WORDS_FIELD_ELEMENT. rewrite (slice_multiple x 8 Hx), (proj2 (Z.leb_le _ _)) by lia. cbn [assertb bind].
  set (e0 := with_clk (bump_memory_clk e) (clk e)). assert (A0 : accessed e e0) by (split; reflexivity).
  change (Z.of_nat COMPRESSED_POINT_BYTES) with 32.
  replace (as_u64 (x + 32)) with (x + 32) by (symmetry; apply Z.mod_small; unfold slice_ok, MAX_LOG_ADDR in Hx1; lia).
  destruct (mr_slice_ok true e0 g (x + 32) 4 Hg Hx1) as (e1 & g1 & E1 & G1 & V1 & A1 & _). rewrite E1. cbn [bind].
  set (bytes := words_to_bytes_le_vec _). assert (Hl : length bytes = 32%nat) by reflexivity.
  destruct (lookup_lt_is_Some_2 bytes 31 ltac:(lia)) as [last El]. change (COMPRESSED_POINT_BYTES - 1)%nat with 31%nat.
  rewrite El. cbn [of_option bind].
  destruct (compressed_value bytes last sign Hl (words_bytes_u8 _) El Hs) as (Hcl & Hcb & Hcm & Hcs). cbn zeta in *.
  set (compressed := <[31%nat := _]> bytes) in *. exists (bump_memory_clk e1), g1, compressed.
  split; [exact G1|]. split; [exact V1|]. split; [etransitivity; [exact A0|]; etransitivity; [exact A1 | apply bump_accessed]|].
  split; [exact Hcl|]. split; [exact Hcb|]. split; [rewrite Hcm; unfold bytes; rewrite from_bytes_words by (apply words_u64, Hv); reflexivity|].
  split; [exact Hcs|]. destruct (decompress compressed) as [[pt|]|]; try reflexivity. cbn [bind of_option].
  change 32%nat with (8 * 4)%nat. rewrite bytes_words_digits. reflexivity.
Qed.

Lemma edwards_decompress_ok :
  let p := MODULUS Ed25519BaseField in let y := big_at 4 g (x + 32) mod 2 ^ 255 in
  inverts p ((y * y * d_biguint + 1) mod p) ->
  (exists e' g', edwards_decompress_syscall e x sign = Ok (e', None) /\ holds_map (memory e') g' /\ accessed e e' /\
     (let X := big_at 4 g' x in 0 <= X < p /\ on_edwards (mkAffinePoint X y) /\ (X = 0 \/ X mod 2 = sign)) /\
     forall a, a ∉ addrs x 4 -> val g' a = val g a) \/
  (edwards_decompress_syscall e x sign = Panic /\ (Z.prime p -> forall X, ~ on_edwards (mkAffinePoint X y))).
Proof.
  intros p y Hi. destruct decompress_reads as (e1 & g1 & bytes & G1 & V1 & A1 & Hl & Hb & Hm & Hd & ->).
  pose proof (decompress_spec bytes Hl Hb) as Hdec. cbn zeta in Hdec. rewrite Hm in Hdec. fold p y in Hdec.
  destruct (Hdec Hi) as (o & -> & Ho). unfold decompressed in Ho. rewrite Hm, Hd in Ho. fold p y in Ho. cbn [bind].
  destruct o as [pt|]; cbn [of_option bind]; [left | right; split; [reflexivity | exact Ho]].
  destruct Ho as (Ey & Hr & Hon & Hsg). destruct (slice_split x 4 4 Hx) as [Hx0 _].
  destruct (mw_big_ok e1 g1 x (px pt) 4 G1 Hx0) as (e' & g' & -> & G' & B' & O' & A' & _). cbn [bind].
  assert (Hp : p < 2 ^ (64 * Z.of_nat 4)) by reflexivity. rewrite Z.mod_small in B' by lia.
  exists e', g'. split; [reflexivity|]. split; [exact G'|]. split; [etransitivity; eassumption|].
  split; [cbn zeta; rewrite B', <- Ey; destruct pt; auto|]. intros a Ha. rewrite O' by exact Ha. apply V1.
Qed.
End EdwardsDecompress.
