(* ===== verification/Sha256.v ===== *)
(** * The SHA-256 calls

    SHA_EXTEND and SHA_COMPRESS ([precompiles/sha256/extend.rs] and
    [compress.rs]) against the block function of the standard FIPS 180-4,
    written here over lists of 32-bit integers. *)

From stdpp Require Import base list gmap.
From Stdlib Require Import ZArith Lia Bool.
From S2P Require Import Prelude Words AirFacts SyscallCode Paging Memory Executor ExecutorFacts MemoryFacts.
From S2P Require Import Syscalls SyscallFacts.
Open Scope Z_scope.

(** ** The standard *)

Module Fips.
Definition rotr (n x : Z) : Z := x / 2 ^ n + (x mod 2 ^ n) * 2 ^ (32 - n).
Definition xor3 (x y z : Z) : Z := Z.lxor (Z.lxor x y) z.
Definition Ch (x y z : Z) : Z := Z.lxor (Z.land x y) (Z.land (2 ^ 32 - 1 - x) z).
Definition Maj (x y z : Z) : Z := xor3 (Z.land x y) (Z.land x z) (Z.land y z).
Definition Sigma0 (x : Z) : Z := xor3 (rotr 2 x) (rotr 13 x) (rotr 22 x).
Definition Sigma1 (x : Z) : Z := xor3 (rotr 6 x) (rotr 11 x) (rotr 25 x).
Definition sigma0 (x : Z) : Z := xor3 (rotr 7 x) (rotr 18 x) (x / 2 ^ 3).
Definition sigma1 (x : Z) : Z := xor3 (rotr 17 x) (rotr 19 x) (x / 2 ^ 10).

(** The message schedule, extended by [n] words. *)
Definition next_word (w : list Z) : Z :=
  let t := length w in
  (sigma1 (nth (t - 2) w 0) + nth (t - 7) w 0 + sigma0 (nth (t - 15) w 0) + nth (t - 16) w 0) mod 2 ^ 32.

Fixpoint schedule (n : nat) (w : list Z) : list Z :=
  match n with O => w | S n => schedule n (w ++ [next_word w]) end.

Definition round (s : Sha) (kw : Z * Z) : Sha :=
  let (k, w) := kw in
  let t1 := (sh s + Sigma1 (se s) + Ch (se s) (sf s) (sg s) + k + w) mod 2 ^ 32 in
  let t2 := (Sigma0 (sa s) + Maj (sa s) (sb s) (sc s)) mod 2 ^ 32 in
  mkSha ((t1 + t2) mod 2 ^ 32) (sa s) (sb s) (sc s) ((sd s + t1) mod 2 ^ 32) (se s) (sf s) (sg s).

(** The constants are the first 32 bits of the fractional parts of the cube
    roots of the first sixty-four primes. *)
Definition primes : list Z :=
  [2; 3; 5; 7; 11; 13; 17; 19; 23; 29; 31; 37; 41; 43; 47; 53; 59; 61; 67; 71; 73; 79; 83; 89; 97; 101; 103; 107; 109; 113;
   127; 131; 137; 139; 149; 151; 157; 163; 167; 173; 179; 181; 191; 193; 197; 199; 211; 223; 227; 229; 233; 239; 241; 251;
   257; 263; 269; 271; 277; 281; 283; 293; 307; 311].

(** The largest [r] below [2 ^ n] over [acc] whose cube is at most [x]. *)
Fixpoint cube_root (n : nat) (x acc : Z) : Z :=
  match n with
  | O => acc
  | S n => let r := acc + 2 ^ Z.of_nat n in cube_root n x (if r * r * r <=? x then r else acc)
  end.

Definition K : list Z := map (fun p => cube_root 36 (p * 2 ^ 96) 0 mod 2 ^ 32) primes.

Definition block (h w : list Z) : list Z :=
  match h with
  | [a; b; c; d; e; f; g; h] =>
      let s := fold_left round (zip K (schedule 48 w)) (mkSha a b c d e f g h) in
      [(a + sa s) mod 2 ^ 32; (b + sb s) mod 2 ^ 32; (c + sc s) mod 2 ^ 32; (d + sd s) mod 2 ^ 32;
       (e + se s) mod 2 ^ 32; (f + sf s) mod 2 ^ 32; (g + sg s) mod 2 ^ 32; (h + sh s) mod 2 ^ 32]
  | _ => []
  end.

(** The initial value and the padded message "abc", with its digest. *)
Definition initial : list Z :=
  [0x6a09e667; 0xbb67ae85; 0x3c6ef372; 0xa54ff53a; 0x510e527f; 0x9b05688c; 0x1f83d9ab; 0x5be0cd19].
Definition abc : list Z := [0x61626380; 0; 0; 0; 0; 0; 0; 0; 0; 0; 0; 0; 0; 0; 0; 24].

Example abc_digest : block initial abc =
  [0xba7816bf; 0x8f01cfea; 0x414140de; 0x5dae2223; 0xb00361a3; 0x96177a9c; 0xb410ff61; 0xf20015ad].
Proof. vm_compute. reflexivity. Qed.

Lemma table : SHA_COMPRESS_K = K.
Proof. vm_compute. reflexivity. Qed.
End Fips.

(** ** The functions *)

Lemma as_u32_is_u32 (x : Z) : is_u32 (as_u32 x).
Proof. apply as_unsigned_bound. lia. Qed.

Lemma rotate_right_rotr (x n : Z) : is_u32 x -> 0 < n < 32 -> rotate_right x n = Fips.rotr n x.
Proof.
  intros Hx Hn. unfold rotate_right, Fips.rotr, shr, as_u32, as_unsigned, is_u in *.
  rewrite Z.shiftr_div_pow2, Z.shiftl_mul_pow2 by lia.
  assert (E : 2 ^ 32 = 2 ^ n * 2 ^ (32 - n)) by (rewrite <- pow2_split by lia; f_equal; lia).
  pose proof (pow2_pos n ltac:(lia)). pose proof (pow2_pos (32 - n) ltac:(lia)).
  rewrite E, Z.mul_mod_distr_r by lia. rewrite Z.lor_comm, lor_shl; [lia | lia|].
  split; [apply Z.div_pos; lia | apply Z.div_lt_upper_bound; lia].
Qed.

Lemma small_sigma_ok (x : Z) : is_u32 x -> small_sigma0 x = Fips.sigma0 x /\ small_sigma1 x = Fips.sigma1 x.
Proof.
  intros Hx. unfold small_sigma0, small_sigma1, Fips.sigma0, Fips.sigma1, Fips.xor3, shr.
  rewrite !rotate_right_rotr, !Z.shiftr_div_pow2 by (assumption || lia). split; reflexivity.
Qed.

Lemma ones_complement (x : Z) : is_u32 x -> Z.lxor x (2 ^ 32 - 1) = 2 ^ 32 - 1 - x.
Proof.
  intros Hx. change (2 ^ 32 - 1) with (Z.ones 32). rewrite Z.sub_nocarry_ldiff; apply Z.bits_inj'; intros i Hi;
    rewrite ?Z.lxor_spec, ?Z.ldiff_spec, ?Z.bits_0; destruct (Z_lt_le_dec i 32);
    rewrite ?Z.ones_spec_low, ?Z.ones_spec_high, ?(testbit_high x 32) by (assumption || lia);
    try destruct (Z.testbit x i); reflexivity.
Qed.

(** All eight words are 32-bit. *)
Definition sha_u32 (s : Sha) : Prop :=
  is_u32 (sa s) /\ is_u32 (sb s) /\ is_u32 (sc s) /\ is_u32 (sd s) /\ is_u32 (se s) /\ is_u32 (sf s) /\ is_u32 (sg s) /\ is_u32 (sh s).

Lemma add32_sum4 (a b c d : Z) : add32 (add32 (add32 a b) c) d = (a + b + c + d) mod 2 ^ 32.
Proof. unfold add32, as_u32, as_unsigned. rewrite (Zplus_mod_idemp_l (a + b)), (Zplus_mod_idemp_l (a + b + c)). reflexivity. Qed.

Lemma add32_sum5 (a b c d e : Z) : add32 (add32 (add32 (add32 a b) c) d) e = (a + b + c + d + e) mod 2 ^ 32.
Proof. rewrite (add32_sum4 a b c d). apply Zplus_mod_idemp_l. Qed.

Lemma round_ok (s : Sha) (k w : Z) : sha_u32 s ->
  compress_round s k w = Fips.round s (k, w) /\ sha_u32 (Fips.round s (k, w)).
Proof.
  intros (Ha & Hb & Hc & Hd & He & Hf & Hg & Hh). split.
  - unfold compress_round, Fips.round, Fips.Sigma0, Fips.Sigma1, Fips.Ch, Fips.Maj, Fips.xor3.
    rewrite !rotate_right_rotr, ones_complement by (assumption || lia). rewrite (add32_sum5 (sh s)). reflexivity.
  - repeat (split; [assumption || (apply Z.mod_pos_bound; lia)|]). assumption.
Qed.

Lemma rounds_ok (kws : list (Z * Z)) (s : Sha) : sha_u32 s ->
  fold_left (fun s '(k, w) => compress_round s k w) kws s = fold_left Fips.round kws s.
Proof.
  revert s. induction kws as [|[k w] kws IH]; intros s Hs; [reflexivity|]. cbn [fold_left].
  destruct (round_ok s k w Hs) as [E Hr]. rewrite E. apply IH, Hr.
Qed.

(** ** SHA_EXTEND *)

(** The 32-bit words at a pointer. *)
Definition words_at (g : gmap Z MemValue) (p : Z) (n : nat) : list Z := map (fun a => as_u32 (val g a)) (addrs p n).

Lemma words_at_length (g : gmap Z MemValue) (p : Z) (n : nat) : length (words_at g p n) = n.
Proof. unfold words_at. rewrite length_map. apply addrs_length. Qed.

Lemma words_at_nth (g : gmap Z MemValue) (p : Z) (n i : nat) :
  (i < n)%nat -> nth i (words_at g p n) 0 = as_u32 (val g (p + 8 * Z.of_nat i)).
Proof.
  intros Hi. rewrite nth_lookup. unfold words_at.
  rewrite list_lookup_fmap, addrs_lookup by exact Hi. reflexivity.
Qed.

Lemma words_at_snoc (g : gmap Z MemValue) (p : Z) (n : nat) :
  words_at g p (S n) = words_at g p n ++ [as_u32 (val g (p + 8 * Z.of_nat n))].
Proof. unfold words_at. rewrite <- (Nat.add_1_r n), <- addrs_app, map_app. reflexivity. Qed.

Lemma words_at_same (g g' : gmap Z MemValue) (p : Z) (n : nat) :
  (forall a, a ∈ addrs p n -> val g' a = val g a) -> words_at g' p n = words_at g p n.
Proof. intros H. apply map_ext_in. intros a Ha. apply list_elem_of_In in Ha. rewrite H by exact Ha. reflexivity. Qed.

Lemma addrs_elem (p a : Z) (n : nat) : a ∈ addrs p n <-> exists i : nat, (i < n)%nat /\ a = p + 8 * Z.of_nat i.
Proof.
  unfold addrs. rewrite list_elem_of_In, in_map_iff. split.
  - intros (i & <- & Hi). apply in_seq in Hi. exists i. split; [lia | reflexivity].
  - intros (i & Hi & ->). exists i. split; [reflexivity | apply in_seq; lia].
Qed.

(** One word of the schedule. *)
Lemma extend_step_ok (e : Exec) (g : gmap Z MemValue) (w : Z) (t : nat) :
  holds_map (memory e) g -> slice_ok w 64 -> (16 <= t < 64)%nat ->
  exists e' g', extend_step e w (Z.of_nat t) = Ok e' /\ holds_map (memory e') g' /\ accessed e e' /\
    val g' (w + 8 * Z.of_nat t) = Fips.next_word (words_at g w t) /\
    forall a, a <> w + 8 * Z.of_nat t -> val g' a = val g a.
Proof.
  intros Hg Hw Ht.
  assert (Ha : forall (k : nat) (c : Z), (k <= t)%nat -> Z.of_nat k = c ->
      as_u64 (w + (Z.of_nat t - c) * 8) = w + 8 * Z.of_nat (t - k) /\ word_address (w + 8 * Z.of_nat (t - k))).
  { intros k c Hk <-. pose proof (slice_word w 64 (t - k) Hw ltac:(lia)) as Hs. split; [|exact Hs].
    destruct Hs as [[H1 H2] _]. unfold MAX_LOG_ADDR in H2. unfold as_u64. rewrite as_unsigned_id; [lia | unfold is_u; lia]. }
  destruct (Ha 15%nat 15 ltac:(lia) eq_refl) as [E15 W15]. destruct (Ha 2%nat 2 ltac:(lia) eq_refl) as [E2 W2].
  destruct (Ha 16%nat 16 ltac:(lia) eq_refl) as [E16 W16]. destruct (Ha 7%nat 7 ltac:(lia) eq_refl) as [E7 W7].
  destruct (Ha 0%nat 0 ltac:(lia) eq_refl) as [E0 W0]. rewrite Z.sub_0_r in E0. rewrite Nat.sub_0_r in E0, W0.
  unfold extend_step. rewrite E15, E2, E16, E7, E0.
  destruct (mr_ok e g _ Hg W15) as (e1 & g1 & -> & Hg1 & [V1 _] & A1 & _). cbn [bind].
  destruct (mr_ok e1 g1 _ Hg1 W2) as (e2 & g2 & -> & Hg2 & [V2 _] & A2 & _). cbn [bind].
  destruct (mr_ok e2 g2 _ Hg2 W16) as (e3 & g3 & -> & Hg3 & [V3 _] & A3 & _). cbn [bind].
  destruct (mr_ok e3 g3 _ Hg3 W7) as (e4 & g4 & -> & Hg4 & [V4 _] & A4 & _). cbn [bind].
  rewrite V3, !V2, !V1. match goal with |- context [mw_without_prot e4 _ ?v] => set (x := v) end.
  destruct (mw_ok e4 g4 _ x Hg4 W0) as (e5 & -> & Hg5 & A5 & _). cbn [bind].
  eexists _, _. split; [reflexivity|]. split; [exact Hg5|]. split; [|split].
  - etransitivity; [exact A1|]. etransitivity; [exact A2|]. etransitivity; [exact A3|]. etransitivity; [exact A4|].
    etransitivity; [exact A5 | apply bump_accessed].
  - unfold val at 1. rewrite lookup_insert_eq. cbn [from_option id mv_value]. unfold x, Fips.next_word.
    rewrite words_at_length, !words_at_nth by lia.
    rewrite (proj1 (small_sigma_ok _ (as_u32_is_u32 _))), (proj2 (small_sigma_ok _ (as_u32_is_u32 _))), add32_sum4. f_equal. lia.
  - intros a Hne. rewrite <- V1, <- V2, <- V3, <- V4. unfold val at 1. rewrite lookup_insert_ne by congruence. reflexivity.
Qed.

Lemma extend_loop_ok (n : nat) (e : Exec) (g : gmap Z MemValue) (w : Z) (t : nat) :
  holds_map (memory e) g -> slice_ok w 64 -> (16 <= t)%nat -> (t + n = 64)%nat ->
  exists e' g', extend_loop e w (map Z.of_nat (seq t n)) = Ok e' /\ holds_map (memory e') g' /\ accessed e e' /\
    words_at g' w 64 = Fips.schedule n (words_at g w t) /\ forall a, a ∉ addrs w 64 -> val g' a = val g a.
Proof.
  revert e g t. induction n as [|n IH]; intros e g t Hg Hw Ht Hn.
  - exists e, g. cbn. replace t with 64%nat by lia. split; [reflexivity|]. split; [exact Hg|]. split; [reflexivity | auto].
  - cbn [seq map extend_loop]. destruct (extend_step_ok e g w t Hg Hw ltac:(lia)) as (e1 & g1 & -> & Hg1 & A1 & V1 & O1). cbn [bind].
    destruct (IH e1 g1 (S t) Hg1 Hw ltac:(lia) ltac:(lia)) as (e2 & g2 & -> & Hg2 & A2 & V2 & O2). exists e2, g2.
    split; [reflexivity|]. split; [exact Hg2|]. split; [etransitivity; eassumption|]. split.
    + rewrite V2, words_at_snoc, V1. cbn [Fips.schedule]. do 2 f_equal.
      * apply words_at_same. intros a Ha. apply addrs_elem in Ha as (i & Hi & ->). apply O1. lia.
      * f_equal. unfold as_u32, as_unsigned, Fips.next_word. apply Z.mod_mod. lia.
    + intros a Ha. rewrite O2 by exact Ha. apply O1. intros ->. apply Ha, addrs_elem. exists t. split; [lia | reflexivity].
Qed.

Lemma sha256_extend_ok (e : Exec) (g : gmap Z MemValue) (w : Z) :
  holds_map (memory e) g -> slice_ok w 64 ->
  exists e' g', sha256_extend e w 0 = Ok (e', None) /\ holds_map (memory e') g' /\ accessed e e' /\
    words_at g' w 64 = Fips.schedule 48 (words_at g w 16) /\ forall a, a ∉ addrs w 64 -> val g' a = val g a.
Proof.
  intros Hg Hw. destruct (extend_loop_ok 48 (bump_memory_clk e) g w 16 Hg Hw (le_n _) eq_refl) as (e1 & g1 & E1 & H & A1 & H').
  exists e1, g1. unfold sha256_extend. cbn [Z.eqb assertb bind]. rewrite E1. split; [reflexivity|]. split; [exact H|].
  split; [|exact H']. etransitivity; [apply bump_accessed | exact A1].
Qed.

(** ** SHA_COMPRESS *)

Lemma compress_loop_ok (ks : list (nat * Z)) (e : Exec) (g : gmap Z MemValue) (w : Z) (s : Sha) :
  holds_map (memory e) g -> slice_ok w 64 -> Forall (fun p => (fst p < 64)%nat) ks ->
  exists e' g', compress_loop e s w ks =
      Ok (fold_left (fun s '(k, x) => compress_round s k x) (map (fun '(i, k) => (k, nth i (words_at g w 64) 0)) ks) s, e') /\
    holds_map (memory e') g' /\ same_values g g' /\ accessed e e'.
Proof.
  intros Hg Hw Hk. revert e g s Hg. induction Hk as [|[i k] ks Hi _ IH]; intros e g s Hg.
  - exists e, g. split; [reflexivity|]. split; [exact Hg|]. split; reflexivity.
  - cbn [compress_loop map fold_left fst] in *. pose proof (slice_word w 64 i Hw Hi) as Ha.
    assert (Ea : as_u64 (w + Z.of_nat i * 8) = w + 8 * Z.of_nat i).
    { destruct Ha as [[H1 H2] _]. unfold MAX_LOG_ADDR in H2. unfold as_u64. rewrite as_unsigned_id; [lia | unfold is_u; lia]. }
    rewrite Ea. destruct (mr_ok e g _ Hg Ha) as (e1 & g1 & -> & Hg1 & S1 & A1 & _). cbn [bind].
    rewrite words_at_nth by exact Hi. destruct (IH e1 g1 (compress_round s k (as_u32 (val g (w + 8 * Z.of_nat i)))) Hg1)
      as (e2 & g2 & E2 & Hg2 & S2 & A2). rewrite (words_at_same g g1) in E2 by (intros a _; apply S1).
    exists e2, g2. split; [exact E2|]. split; [exact Hg2|]. split; etransitivity; eassumption.
Qed.

Lemma imap_zip (ks ws : list Z) : length ws = length ks -> map (fun '(i, k) => (k, nth i ws 0)) (imap pair ks) = zip ks ws.
Proof.
  intros El. apply list_eq. intros i. rewrite lookup_zip_with, list_lookup_fmap, list_lookup_imap.
  destruct (ks !! i) as [k|] eqn:Ek; [|reflexivity]. cbn. pose proof (lookup_lt_Some _ _ _ Ek).
  destruct (lookup_lt_is_Some_2 ws i ltac:(lia)) as [x Ex]. rewrite nth_lookup, Ex. reflexivity.
Qed.

Lemma sha256_compress_ok (e : Exec) (g : gmap Z MemValue) (w h : Z) :
  holds_map (memory e) g -> slice_ok w 64 -> slice_ok h 8 ->
  exists e' g', sha256_compress e w h = Ok (e', None) /\ holds_map (memory e') g' /\ accessed e e' /\
    (forall m, words_at g w 64 = Fips.schedule 48 m -> map (val g') (addrs h 8) = Fips.block (words_at g h 8) m) /\
    forall a, a ∉ addrs h 8 -> val g' a = val g a.
Proof.
  intros Hg Hw Hh. unfold sha256_compress.
  set (e0 := with_clk (bump_memory_clk (bump_memory_clk e)) (clk e)). assert (A0 : accessed e e0) by (split; reflexivity).
  destruct (mr_slice_ok true e0 g h 8 Hg Hh) as (e1 & g1 & E1 & Hg1 & S1 & A1 & _). cbn zeta iota beta in *. rewrite E1. cbn [bind].
  rewrite map_map. change (map (fun a => as_u32 (val g a)) (addrs h 8)) with (words_at g h 8).
  assert (Hb : Forall is_u32 (words_at g h 8)) by (apply Forall_map, Forall_forall; intros a _; apply as_u32_is_u32).
  pose proof (words_at_length g h 8) as Hl.
  destruct (words_at g h 8) as [|h0 [|h1 [|h2 [|h3 [|h4 [|h5 [|h6 [|h7 [|? ?]]]]]]]]]; try discriminate Hl.
  destruct (compress_loop_ok (imap pair SHA_COMPRESS_K) (bump_memory_clk e1) g1 w (mkSha h0 h1 h2 h3 h4 h5 h6 h7) Hg1 Hw)
    as (e2 & g2 & E2 & Hg2 & S2 & A2); [repeat (constructor; [cbn; lia|]); constructor|].
  rewrite E2. cbn [bind]. rewrite imap_zip by (rewrite words_at_length; reflexivity).
  rewrite rounds_ok by (do 8 (apply Forall_cons in Hb as [? Hb]); unfold sha_u32; cbn; tauto).
  set (s := fold_left Fips.round _ _). match goal with |- context [mw_slice_without_prot _ _ ?v] => set (vs := v) end.
  destruct (mw_slice_ok (bump_memory_clk e2) g2 h vs Hg2 Hh) as (e3 & -> & Hg3 & A3 & _). cbn [bind].
  destruct (read_back (clk (bump_memory_clk e2)) g2 h vs) as [R1 R2]. eexists e3, _. split; [reflexivity|]. split; [exact Hg3|]. split; [|split].
  - etransitivity; [exact A0|]. eapply accessed_bump; [exact A1|]. eapply accessed_bump; [exact A2 | exact A3].
  - intros m Em. etransitivity; [exact R1|]. unfold vs, s. rewrite (words_at_same g g1), Em by (intros a _; apply S1).
    rewrite Fips.table. unfold Fips.block, add32, as_u32, as_unsigned. cbv zeta.
    rewrite (Z.add_comm h0), (Z.add_comm h1), (Z.add_comm h2), (Z.add_comm h3), (Z.add_comm h4), (Z.add_comm h5), (Z.add_comm h6), (Z.add_comm h7).
    reflexivity.
  - intros a Ha. rewrite R2 by exact Ha. rewrite (proj1 S2), (proj1 S1). reflexivity.
Qed.
