(* ===== verification/SystemTheorems.v ===== *)
(** * The memory and the system calls

    The properties of the memory of the executor ([Paging.v],
    [Memory.v]), of its system calls ([Syscalls.v], [CurveCalls.v],
    [Sha256.v]) and of
    unconstrained blocks ([Unconstrained.v]). *)

From stdpp Require Import base list gmap.
From Stdlib Require Import ZArith Lia Bool Znumtheory Zmod.
From S2P Require Import Prelude Words Isa Row SyscallCode Paging Memory Executor ExecutorFacts MemoryFacts.
From S2P Require Import Curves CurveFacts Syscalls Unconstrained SyscallFacts SyscallInv CurveCalls Sha256.
Open Scope Z_scope.

(** ** Example states *)

(** An executor with an empty memory without a limit. *)
Definition blank (regs : list Z) (input : list (list Z)) : Exec :=
  mkExecutor regs (LimitedMemory.new_owned MemValue_default None) None 0x10000 1 0 0x10000 1 None None
    (mkHostState input [] 0 (replicate 8 0) [] (MaybeCowPageProt.Owned ∅)).

(** An environment in which the parameters of the handler do nothing. *)
Definition no_external : External :=
  mkExternal (mkSegmentFlags 0 4 2 1) id (fun _ => []) (fun _ _ => []) (mkEllipticCurve 8 (fun _ _ => Panic) (fun _ => Panic))
    (mkEllipticCurve 8 (fun _ _ => Panic) (fun _ => Panic)) (fun _ _ _ _ => Panic).

Lemma blank_holds (regs : list Z) (input : list (list Z)) : holds_map (memory (blank regs input)) ∅.
Proof.
  exists ∅, None. split; [apply new_owned_inv; discriminate|]. split; [reflexivity|]. split; [reflexivity | apply view_none].
Qed.

Lemma empty_values : values_ok ∅.
Proof. intros a. unfold val. rewrite lookup_empty. split; [discriminate | reflexivity]. Qed.

(** An executor whose memory holds the values of an image. *)
Lemma image_state (regs : list Z) (image : list (Z * Z)) :
  Forall (fun p => word_address (fst p) /\ is_u64 (snd p)) image ->
  exists e, registers e = regs /\ holds_map (memory e) (put_all 0 ∅ image) /\ values_ok (put_all 0 ∅ image).
Proof.
  intros Hi. destruct (mw_hints_ok image (blank regs []) ∅ (blank_holds regs [])) as (m & _ & Hm);
    [eapply Forall_impl; [exact Hi | intros p H; apply H]|].
  exists (with_memory (blank regs []) m). split; [reflexivity|]. split; [exact Hm|].
  assert (H : forall g, values_ok g -> values_ok (put_all 0 g image)); [|apply H, empty_values].
  clear m Hm. induction Hi as [|[a v] l [_ Hv] _ IH]; intros g Hg; [exact Hg|]. cbn [put_all]. apply IH. intros x. unfold val.
  destruct (decide (a = x)) as [-> | Hne]; [rewrite lookup_insert_eq; exact Hv | rewrite lookup_insert_ne by exact Hne; apply Hg].
Qed.

Ltac image := repeat (constructor; [cbn; repeat split; try discriminate; reflexivity|]); constructor.

Ltac slice := split; [lia | split; [reflexivity | vm_compute; discriminate]].

(** ** Memory *)

(** C27: the paged memory is a finite map.  On a fresh memory any sequence of
    [get], [get_mut], [insert], [remove], [entry] and [clear] at addresses below
    the bound returns what a finite map from doublewords returns, and the
    memory at the end holds that map; an access at or over the bound panics. *)
Theorem paged_memory_refines {V : Type} (ops : list (MemOp V)) :
  Forall op_in_space ops ->
  exists m, paged_run PagedMemory.new_preallocated ops = Ok (fst (map_run ∅ ops), m) /\ represents m (snd (map_run ∅ ops)) /\
    forall addr, 2 ^ MAX_LOG_ADDR <= addr ->
      PagedMemory.get m addr = Panic /\ PagedMemory.get_mut m addr = Panic /\ PagedMemory.entry m addr = Panic /\
      PagedMemory.remove m addr = Panic /\ forall v, PagedMemory.insert m addr v = Panic.
Proof.
  intros Ho. destruct (paged_run_refines ops _ _ new_represents Ho) as (m & E & Hr). exists m. split; [exact E|].
  split; [exact Hr|]. intros addr. apply paged_step_panics, Hr.
Qed.

Lemma paged_memory_refines_witness :
  exists m, paged_run PagedMemory.new_preallocated
      [OpInsert 0x1000 7; OpInsert 0x200000 8; OpGet 0x1004; OpRemove 0x200000; OpGet 0x200000; OpEntry 8 1 (Z.add 1); OpGet 8] =
    Ok ([None; None; Some 7; Some 8; None; Some 1; Some 2], m).
Proof.
  destruct (paged_memory_refines
    [OpInsert 0x1000 7; OpInsert 0x200000 8; OpGet 0x1004; OpRemove 0x200000; OpGet 0x200000; OpEntry 8 1 (Z.add 1); OpGet 8])
    as (m & E & _); [repeat (constructor; [split; [discriminate | reflexivity]|]); constructor|].
  exists m. exact E.
Defined.

(** C28: iteration over the paged memory.  The addresses and the entries it
    yields are those of the map the memory holds, each once; [exact_len] counts
    them and [estimate_len] is no less; collecting the entries gives a memory
    that holds the same map. *)
Theorem paged_memory_iteration {V : Type} (m : PagedMemory.PagedMemory V) (g : gmap Z V) :
  represents m g ->
  (exists ks, PagedMemory.keys m = Ok ks /\ ks ≡ₚ (map_to_list g).*1) /\
  (exists es m', PagedMemory.into_iter m = Ok es /\ es ≡ₚ map_to_list g /\
     PagedMemory.from_iter es = Ok m' /\ represents m' g) /\
  PagedMemory.exact_len m = Ok (Z.of_nat (size g)) /\ Z.of_nat (size g) <= PagedMemory.estimate_len m.
Proof.
  intros Hr. destruct (iteration_spec m g Hr) as (Hk & (es & Ee & Hp) & Hl). split; [exact Hk|]. split; [|exact Hl].
  destruct (iter_round_trip m g Hr) as (es' & m' & Ee' & Em & Hr'). exists es, m'. rewrite Ee in Ee'. apply Ok_inj in Ee' as <-.
  split; [exact Ee|]. split; [exact Hp|]. split; [exact Em | exact Hr'].
Qed.

Lemma paged_memory_iteration_witness :
  exists m, PagedMemory.insert PagedMemory.new_preallocated 0x1000 7 = Ok (None, m) /\ PagedMemory.exact_len m = Ok 1.
Proof.
  destruct (paged_step_refines PagedMemory.new_preallocated ∅ (OpInsert 0x1000 7) new_represents ltac:(split; [discriminate | reflexivity]))
    as (m & E & Hr). exists m. split; [exact E|]. exact (proj1 (proj2 (proj2 (paged_memory_iteration m _ Hr)))).
Defined.

(** C29: the limited copy-on-write memory.  From an empty memory with a limit
    in bytes, or with none, any sequence of reads, inserts and mutable accesses
    at aligned addresses, with snapshots taken and dropped in turn, runs
    without a panic.  Unless an error has been recorded at the end, the results
    are those of a finite map with a snapshot, and the entries held, in the copy
    and in the original, are within the limit.  There is no error when the
    addresses are in range and the limit has room for an entry per operation. *)
Theorem limited_memory_refines {T : Type} (T_default : T) (limit : option Z) (ops : list LimOp) :
  (forall l, limit = Some l -> 0 <= l) -> Forall (op_ok limit) ops -> bracketed false ops = true ->
  exists os lm top base, limited_run T_default (LimitedMemory.new_owned T_default limit) ops = Ok (os, lm) /\
    cow_rep (LimitedMemory.memory lm) top base /\
    (LimitedMemory.last_error lm = None ->
       snap_run T_default (∅, None) ops = (os, (view top base, base)) /\
       forall l, limit = Some l -> 8 * Z.of_nat (size top + size (default ∅ base)) <= l) /\
    (Forall in_range ops -> (forall l, limit = Some l -> 8 * Z.of_nat (length ops) <= l) -> LimitedMemory.last_error lm = None).
Proof.
  intros Hl Ho Hb. set (lm0 := LimitedMemory.new_owned T_default limit).
  assert (Hlim : limit_of (LimitedMemory.limiter lm0) = option_map (fun l => l / 8) limit) by (destruct limit; reflexivity).
  pose proof (new_owned_inv T_default limit Hl) as Hi0.
  destruct (limited_run_spec T_default ops lm0 ∅ None Hi0) as (os & lm & top & base & E & Hi & El & Hd); [|exact Hb|].
  { rewrite Hlim. eapply Forall_impl; [exact Ho|]. intros [] H; destruct limit; cbn in *; intuition discriminate. }
  exists os, lm, top, base. split; [exact E|]. split; [exact (li_rep _ _ _ Hi)|]. split.
  - intros En. destruct (Hd En) as [_ Hs].
    split; [rewrite view_none in Hs; exact Hs|]. intros l ->. pose proof (li_count _ _ _ Hi) as Hc. pose proof (li_within _ _ _ Hi En) as Hw.
    rewrite Hlim in El. destruct (LimitedMemory.limiter lm) as [|current lim]; [discriminate|]. cbn in El, Hc, Hw.
    injection El as ->. rewrite Hc in Hw. dlia.
  - intros Hr Hroom. destruct (room_run T_default ops lm0 ∅ None Hi0 eq_refl Hr Hb) as (os' & lm' & E' & He).
    + rewrite Hlim. intros l E1. destruct limit as [l0|]; [|discriminate]. injection E1 as <-. specialize (Hroom l0 eq_refl).
      cbn. rewrite map_size_empty. dlia.
    + rewrite E in E'. apply Ok_inj in E'. injection E' as _ <-. exact He.
Qed.

Lemma limited_memory_refines_witness :
  exists lm, limited_run 0 (LimitedMemory.new_owned 0 (Some 48))
      [LInsert 8 1; LCopyOnWrite; LGetMut 8 (Z.add 1); LGet 8; LOwned; LGet 8] =
    Ok ([None; None; Some 1; Some 2; None; Some 1], lm) /\ LimitedMemory.last_error lm = None.
Proof.
  destruct (limited_memory_refines 0 (Some 48) [LInsert 8 1; LCopyOnWrite; LGetMut 8 (Z.add 1); LGet 8; LOwned; LGet 8])
    as (os & lm & top & base & E & _ & Hd & He).
  - intros l [= <-]. discriminate.
  - repeat (constructor; [cbn; repeat split; try discriminate; reflexivity|]). constructor.
  - reflexivity.
  - assert (En : LimitedMemory.last_error lm = None).
    { apply He; [|intros l [= <-]; discriminate]. repeat (constructor; [cbn; repeat split; try discriminate; reflexivity|]). constructor. }
    exists lm. split; [|exact En]. destruct (Hd En) as [Hs _]. apply (f_equal fst) in Hs. cbn [fst] in Hs. rewrite E, <- Hs. reflexivity.
Defined.

(** C30: a recorded error.  The first error of a memory is kept through every
    later operation; an access after it leaves the contents as they are and
    yields, or changes, only a dummy value. *)
Theorem recorded_error_kept {T : Type} (T_default : T) (lm lm' : LimitedMemory.LimitedMemory T) (op : LimOp) (o : option T)
    (e : ExecutionError) :
  LimitedMemory.last_error lm = Some e -> limited_step T_default lm op = Ok (o, lm') ->
  LimitedMemory.last_error lm' = Some e /\
  match op with
  | LGet _ => o = Some (LimitedMemory.dummy_value lm) /\ lm' = lm
  | LInsert _ _ => lm' = lm
  | LGetMut _ f => o = Some (LimitedMemory.dummy_value lm) /\ lm' = LimitedMemory.with_dummy lm (f (LimitedMemory.dummy_value lm))
  | LCopyOnWrite | LOwned => True
  end.
Proof. apply error_step. Qed.

Lemma recorded_error_kept_witness :
  exists lm lm', limited_step 0 (LimitedMemory.new_owned 0 (Some 24)) (LGet (2 ^ 50)) = Ok (Some 0, lm) /\
    limited_step 0 lm (LInsert 8 1) = Ok (None, lm') /\ LimitedMemory.last_error lm' = Some (InvalidMemoryAccess LD (2 ^ 50)).
Proof.
  destruct (limited_step 0 (LimitedMemory.new_owned 0 (Some 24)) (LGet (2 ^ 50))) as [[o lm]|] eqn:E; [|discriminate E].
  exists lm, lm. assert (El : LimitedMemory.last_error lm = Some (InvalidMemoryAccess LD (2 ^ 50)))
    by (apply Ok_inj in E; injection E as <- <-; reflexivity).
  assert (E1 : limited_step 0 lm (LInsert 8 1) = Ok (None, lm)) by (apply Ok_inj in E; injection E as <- <-; reflexivity).
  split; [apply Ok_inj in E; injection E as <- <-; reflexivity|]. split; [exact E1|].
  exact (proj1 (recorded_error_kept 0 lm lm (LInsert 8 1) None _ El E1)).
Defined.

(** ** Unconstrained blocks *)

(** C31: an unconstrained block.  When ENTER_UNCONSTRAINED is called in the
    constrained mode, and the mode is unconstrained until the step after [n]
    more that ends it, the registers are those of the call with [x5] zero, the
    execution goes on after the call with the clock of one system call, no
    trace was recorded, the memory is that of the call unless an error was
    recorded, and of the host only the streams differ. *)
Theorem unconstrained_block (program : Program) (X : External) (e e1 e2 e3 : Exec) (i : Instruction) (x5 : Z) (n : nat) :
  let handler := ecall_handler program X in
  owned_mode e -> fetch program (pc e) = Some i -> is_ecall_instruction i = true -> reg e X5 = Ok x5 ->
  from_u32 (as_u32 x5) = Ok ENTER_UNCONSTRAINED -> step_once program handler e = Ok e1 ->
  run program handler n e1 = Ok e2 ->
  (forall k s, (k <= n)%nat -> run program handler k e1 = Ok s -> maybe_unconstrained s <> None) ->
  step_once program handler e2 = Ok e3 -> maybe_unconstrained e3 = None -> after_block e e3.
Proof.
  cbn zeta. intros Ho Hf Hi H5 Hc E1 E2 Hu E3 Hm. pose proof (step_enters _ _ e e1 i x5 Ho Hf Hi H5 Hc E1) as H1.
  pose proof (block_run _ _ e n e1 e2 Ho H1 E2 Hu) as H2.
  destruct (step_inside _ _ e e2 e3 Ho H2 E3) as [H3 | H3]; [|exact H3]. rewrite (in_ctx e e3 H3) in Hm. discriminate.
Qed.

(** Enter a block, load the code of EXIT_UNCONSTRAINED, leave. *)
Definition block_program : Program :=
  mkProgram [mkInstruction ECALL 5 10 11 false false; mkInstruction ADDI 5 0 4 false true; mkInstruction ECALL 5 10 11 false false]
    0x10000 0x10000 [] [] None.
Definition block_handler : Exec -> SyscallCode -> Res (Exec * option Z) :=
  ecall_handler block_program no_external.
Definition block_start : Exec := blank (replicate 5 0 ++ [3] ++ replicate 26 7) [].

Lemma block_steps : exists e1 e2 e3, step_once block_program block_handler block_start = Ok e1 /\
  step_once block_program block_handler e1 = Ok e2 /\ step_once block_program block_handler e2 = Ok e3 /\
  maybe_unconstrained e1 <> None /\ maybe_unconstrained e2 <> None /\ maybe_unconstrained e3 = None.
Proof.
  do 3 eexists. do 3 (split; [lazy -[PagedMemory.new_preallocated]; reflexivity|]).
  split; [discriminate|]. split; [discriminate | reflexivity].
Qed.

Lemma unconstrained_block_witness : exists e3, run block_program block_handler 3 block_start = Ok e3 /\ after_block block_start e3.
Proof.
  destruct block_steps as (e1 & e2 & e3 & E1 & E2 & E3 & U1 & U2 & U3). exists e3. split; [cbn [run]; rewrite E1; cbn [bind]; rewrite E2; cbn [bind]; rewrite E3; reflexivity|].
  apply (unconstrained_block block_program no_external block_start e1 e2 e3
    (mkInstruction ECALL 5 10 11 false false) 3 1); try reflexivity; try assumption.
  - split; [reflexivity|]. split; [reflexivity|]. split; eexists; reflexivity.
  - cbn [run]. fold block_handler. rewrite E2. reflexivity.
  - intros [|[|k]] s Hk Es; cbn [run] in Es; [apply Ok_inj in Es as <-; exact U1 | | lia].
    fold block_handler in Es. rewrite E2 in Es. apply Ok_inj in Es as <-. exact U2.
Defined.

(** ** System calls *)

(** C32: an input that is read and written out.  HINT_READ takes the first
    entry of the input stream and stores it at an aligned pointer; WRITE of any
    part of it to the descriptor of the public values appends exactly those
    bytes to the stream. *)
Theorem hint_write_roundtrip (hook : Z -> list Z -> list (list Z)) (e : Exec) (g : gmap Z MemValue) (ptr o n : Z) (vec : list Z)
    (rest : list (list Z)) :
  holds_map (memory e) g -> input (host e) = vec :: rest -> Forall is_u8 vec -> slice_ok ptr (length vec / 8 + 1) ->
  0 <= o -> 0 <= n -> o + n <= Z.of_nat (length vec) -> reg e 12 = Ok n ->
  exists e1 e2, hint_read e ptr (Z.of_nat (length vec)) = Ok (e1, None) /\ input (host e1) = rest /\
    write hook e1 FD_PUBLIC_VALUES (ptr + o) = Ok (e2, None) /\
    public_values_stream (host e2) = public_values_stream (host e) ++ take (Z.to_nat n) (drop (Z.to_nat o) vec).
Proof.
  intros Hg Hin Hb Hs Ho Hn Hl H12. destruct (hint_read_ok e g ptr vec rest Hg Hin Hb Hs) as (e1 & g1 & E1 & Hg1 & Hv & _ & Hr & Hi & Hp).
  destruct Hs as (Hs0 & Hs1 & Hs2). assert (Hdiv : Z.of_nat (length vec) < 8 * Z.of_nat (length vec / 8 + 1))
    by (pose proof (Nat.div_mod_eq (length vec) 8); pose proof (Nat.mod_upper_bound (length vec) 8 ltac:(lia)); lia).
  pose proof (written_bytes_ok e1 g1 (ptr + o) n Hg1 ltac:(lia) Hn ltac:(lia)) as E2.
  eexists e1, _. split; [exact E1|]. split; [exact Hi|]. unfold write, reg. rewrite Hr. unfold reg in H12. rewrite H12. cbn [bind].
  rewrite E2. cbn [bind]. split; [reflexivity|]. cbn. rewrite Hp. f_equal.
  transitivity (take (Z.to_nat n) (drop (Z.to_nat o) (map (byte_at g1) (byte_addrs ptr (length vec))))); [|rewrite Hv; reflexivity].
  rewrite skipn_map, firstn_map, byte_addrs_slice, Z2Nat.id by lia. reflexivity.
Qed.

Lemma hint_write_roundtrip_witness :
  let e := blank (replicate 12 0 ++ [5] ++ replicate 19 0) [[1; 2; 3; 4; 5; 6; 7; 8; 9; 10]] in
  exists e1 e2, hint_read e 0x1000 10 = Ok (e1, None) /\ write (fun _ _ => []) e1 FD_PUBLIC_VALUES 0x1004 = Ok (e2, None) /\
    public_values_stream (host e2) = [5; 6; 7; 8; 9].
Proof.
  cbn zeta. destruct (hint_write_roundtrip (fun _ _ => []) (blank (replicate 12 0 ++ [5] ++ replicate 19 0) [[1; 2; 3; 4; 5; 6; 7; 8; 9; 10]])
    ∅ 0x1000 4 5 [1; 2; 3; 4; 5; 6; 7; 8; 9; 10] []) as (e1 & e2 & E1 & _ & E2 & Ep);
    [apply blank_holds | reflexivity | repeat (constructor; [split; [discriminate | reflexivity]|]); constructor | slice | lia | lia | cbn; lia | reflexivity|].
  exists e1, e2. split; [exact E1|]. split; [exact E2 | exact Ep].
Defined.

(** C33: UINT256_ADD_CARRY and UINT256_MUL_CARRY.  Without overlap of the two
    results, the low and the high half that are stored make up [a + b + c] or
    [a * b + c], for operands read as 256-bit integers; nothing else changes. *)
Theorem uint256_carry (e : Exec) (g : gmap Z MemValue) (code : SyscallCode) (op : Uint256Operation) (x5 a b c d h : Z) :
  holds_map (memory e) g -> values_ok g -> reg e 5 = Ok x5 -> from_u32 (as_u32 x5) = Ok code -> uint256_op_map code = Ok op ->
  reg e 12 = Ok c -> reg e 13 = Ok d -> reg e 14 = Ok h ->
  slice_ok a 4 -> slice_ok b 4 -> slice_ok c 4 -> slice_ok d 4 -> slice_ok h 4 -> apart d h 4 ->
  exists e' g', uint256_ops e a b = Ok (e', None) /\ holds_map (memory e') g' /\ accessed e e' /\
    big_at 4 g' d + 2 ^ 256 * big_at 4 g' h =
      match op with UAdd => big_at 4 g a + big_at 4 g b + big_at 4 g c | UMul => big_at 4 g a * big_at 4 g b + big_at 4 g c end /\
    forall x, x ∉ addrs d 4 -> x ∉ addrs h 4 -> val g' x = val g x.
Proof. apply uint256_ops_ok. Qed.

Lemma uint256_carry_witness :
  exists e e' g', uint256_ops e 0x1000 0x1020 = Ok (e', None) /\ holds_map (memory e') g' /\
    big_at 4 g' 0x1060 + 2 ^ 256 * big_at 4 g' 0x1080 = 2 ^ 255 * 6 + 1.
Proof.
  destruct (image_state (replicate 5 0 ++ [code_as_u32 UINT256_MUL_CARRY] ++ replicate 6 0 ++ [0x1040; 0x1060; 0x1080] ++ replicate 17 0)
    [(0x1018, 2 ^ 63); (0x1020, 6); (0x1040, 1)]) as (e & Hr & Hm & Hv); [image|].
  assert (Hreg : forall r, reg e r = reg (blank (registers e) []) r) by reflexivity.
  exists e. destruct (uint256_carry e _ UINT256_MUL_CARRY UMul (code_as_u32 UINT256_MUL_CARRY) 0x1000 0x1020 0x1040 0x1060 0x1080 Hm Hv)
    as (e' & g' & E & Hg & _ & Hb & _); try (rewrite Hreg, Hr; reflexivity); [reflexivity | reflexivity | slice | slice | slice | slice | slice | |].
  - intros x Hx Hy. apply addrs_elem in Hx as (i & Hi & ->). apply addrs_elem in Hy as (j & Hj & E). lia.
  - exists e', g'. split; [exact E|]. split; [exact Hg|]. rewrite Hb. vm_compute. reflexivity.
Defined.

(** C34: UINT256_MUL.  The product of the two 256-bit integers is reduced by
    the modulus after the second operand, where zero stands for 2^256, and
    stored over the first operand; nothing else changes. *)
Theorem uint256_mul_mod (e : Exec) (g : gmap Z MemValue) (x y : Z) :
  holds_map (memory e) g -> values_ok g -> slice_ok x 4 -> slice_ok y 8 ->
  exists e' g', uint256_mul e x y = Ok (e', None) /\ holds_map (memory e') g' /\ accessed e e' /\
    (let n := big_at 4 g (y + 32) in
     big_at 4 g' x = (big_at 4 g x * big_at 4 g y) mod (if n =? 0 then 2 ^ 256 else n)) /\
    forall a, a ∉ addrs x 4 -> val g' a = val g a.
Proof. apply uint256_mul_ok. Qed.

Lemma uint256_mul_mod_witness :
  exists e e' g', uint256_mul e 0x1000 0x1020 = Ok (e', None) /\ holds_map (memory e') g' /\ big_at 4 g' 0x1000 = 2.
Proof.
  destruct (image_state (replicate 32 0) [(0x1000, 3); (0x1020, 5); (0x1040, 13)]) as (e & _ & Hm & Hv); [image|].
  exists e. destruct (uint256_mul_mod e _ 0x1000 0x1020 Hm Hv) as (e' & g' & E & Hg & _ & Hb & _); [slice | slice|].
  exists e', g'. split; [exact E|]. split; [exact Hg|]. rewrite Hb. vm_compute. reflexivity.
Defined.

(** C35: the calls of the base fields.  For BLS12-381 and BN254 the sum, the
    difference or the product of the operands, whatever integers they are, is
    stored over the first as a canonical field element; nothing else changes.
    Division, which no code asks for, panics. *)
Theorem base_field_operation (P : FpOpField) (e : Exec) (g : gmap Z MemValue) (x y : Z) (op : FieldOperation) :
  P = Bls12381BaseField \/ P = Bn254BaseField -> holds_map (memory e) g -> values_ok g ->
  slice_ok x (WordsFieldElement P) -> slice_ok y (WordsFieldElement P) ->
  let (a, b) := (big_at (WordsFieldElement P) g x, big_at (WordsFieldElement P) g y) in
  let stores v := exists e' g', fp_op_syscall P e x y op = Ok (e', None) /\ holds_map (memory e') g' /\ accessed e e' /\
    big_at (WordsFieldElement P) g' x = v /\ forall z, z ∉ addrs x (WordsFieldElement P) -> val g' z = val g z in
  match op with
  | FAdd => stores ((a + b) mod MODULUS P)
  | FSub => stores ((a - b) mod MODULUS P)
  | FMul => stores ((a * b) mod MODULUS P)
  | FDiv => fp_op_syscall P e x y op = Panic
  end.
Proof.
  intros HP Hg Hv Hx Hy. assert (Hf : field_ok P) by (destruct HP as [-> | ->]; apply base_fields_ok). cbn zeta.
  destruct op; try (apply (fp_op_ok P e g x y); [discriminate | assumption..]).
  unfold fp_op_syscall. destruct (fp_operands e x y _) as [[[xs ys] e1]|]; reflexivity.
Qed.

Lemma base_field_operation_witness :
  exists e e' g', fp_op_syscall Bn254BaseField e 0x1000 0x1020 FSub = Ok (e', None) /\ holds_map (memory e') g' /\
    big_at 4 g' 0x1000 = MODULUS Bn254BaseField - 2.
Proof.
  destruct (image_state (replicate 32 0) [(0x1000, 3); (0x1020, 5)]) as (e & _ & Hm & Hv); [image|].
  exists e. destruct (base_field_operation Bn254BaseField e _ 0x1000 0x1020 FSub (or_intror eq_refl) Hm Hv) as (e' & g' & E & Hg & _ & Hb & _);
    [slice | slice|].
  exists e', g'. split; [exact E|]. split; [exact Hg|]. etransitivity; [exact Hb|]. vm_compute. reflexivity.
Defined.

(** C36: multiplication in the quadratic extension.  The product of
    [a0 + a1 u] and [b0 + b1 u], where [u] is a square root of -1, is stored
    over the first operand with canonical coordinates. *)
Theorem extension_multiplication (P : FpOpField) (e : Exec) (g : gmap Z MemValue) (x y : Z) :
  let m := WordsFieldElement P in let p := MODULUS P in
  P = Bls12381BaseField \/ P = Bn254BaseField -> holds_map (memory e) g -> values_ok g -> slice_ok x (m + m) -> slice_ok y (m + m) ->
  exists e' g', fp2_mul_syscall P e x y = Ok (e', None) /\ holds_map (memory e') g' /\ accessed e e' /\
    (let (a0, a1) := (big_at m g x, big_at m g (x + 8 * Z.of_nat m)) in
     let (b0, b1) := (big_at m g y, big_at m g (y + 8 * Z.of_nat m)) in
     big_at m g' x = (a0 * b0 - a1 * b1) mod p /\ big_at m g' (x + 8 * Z.of_nat m) = (a0 * b1 + a1 * b0) mod p) /\
    forall a, a ∉ addrs x (m + m) -> val g' a = val g a.
Proof.
  cbn zeta. intros HP. assert (field_ok P) by (destruct HP as [-> | ->]; apply base_fields_ok). apply fp2_mul_ok. assumption.
Qed.

Lemma extension_multiplication_witness :
  exists e e' g', fp2_mul_syscall Bn254BaseField e 0x1000 0x1040 = Ok (e', None) /\ holds_map (memory e') g' /\
    big_at 4 g' 0x1000 = MODULUS Bn254BaseField - 7 /\ big_at 4 g' 0x1020 = 22.
Proof.
  destruct (image_state (replicate 32 0) [(0x1000, 2); (0x1020, 3); (0x1040, 4); (0x1060, 5)]) as (e & _ & Hm & Hv); [image|].
  exists e. destruct (extension_multiplication Bn254BaseField e _ 0x1000 0x1040 (or_intror eq_refl) Hm Hv) as (e' & g' & E & Hg & _ & [H0 H1] & _);
    [slice | slice|].
  exists e', g'. split; [exact E|]. split; [exact Hg|]. split; (etransitivity; [first [exact H0 | exact H1]|]; vm_compute; reflexivity).
Defined.

(** C37: the SHA-256 calls.  SHA_EXTEND on sixteen message words, then
    SHA_COMPRESS with the chaining value at another slice, stores the value of
    the block function of FIPS 180-4 over the chaining value. *)
Theorem sha256_block (e : Exec) (g : gmap Z MemValue) (w h : Z) :
  holds_map (memory e) g -> slice_ok w 64 -> slice_ok h 8 -> (forall a, a ∈ addrs h 8 -> a ∉ addrs w 64) ->
  exists e1 e2 g2, sha256_extend e w 0 = Ok (e1, None) /\ sha256_compress e1 w h = Ok (e2, None) /\
    holds_map (memory e2) g2 /\ accessed e e2 /\
    map (val g2) (addrs h 8) = Fips.block (words_at g h 8) (words_at g w 16) /\
    forall a, a ∉ addrs w 64 -> a ∉ addrs h 8 -> val g2 a = val g a.
Proof.
  intros Hg Hw Hh Hd. destruct (sha256_extend_ok e g w Hg Hw) as (e1 & g1 & E1 & Hg1 & A1 & V1 & O1).
  destruct (sha256_compress_ok e1 g1 w h Hg1 Hw Hh) as (e2 & g2 & E2 & Hg2 & A2 & V2 & O2).
  exists e1, e2, g2. split; [exact E1|]. split; [exact E2|]. split; [exact Hg2|]. split; [etransitivity; eassumption|]. split.
  - rewrite (V2 _ V1), (words_at_same g g1) by (intros a Ha; apply O1, Hd, Ha). reflexivity.
  - intros a Ha Hb. rewrite O2 by exact Hb. apply O1, Ha.
Qed.

Lemma sha256_block_witness :
  exists e e1 e2 g2, sha256_extend e 0x1000 0 = Ok (e1, None) /\ sha256_compress e1 0x1000 0x2000 = Ok (e2, None) /\
    holds_map (memory e2) g2 /\ map (val g2) (addrs 0x2000 8) =
      [0xba7816bf; 0x8f01cfea; 0x414140de; 0x5dae2223; 0xb00361a3; 0x96177a9c; 0xb410ff61; 0xf20015ad].
Proof.
  destruct (image_state (replicate 32 0) (combine (addrs 0x1000 16) Fips.abc ++ combine (addrs 0x2000 8) Fips.initial))
    as (e & _ & Hm & _); [image|].
  exists e. destruct (sha256_block e _ 0x1000 0x2000 Hm) as (e1 & e2 & g2 & E1 & E2 & Hg & _ & Hb & _); [slice | slice | |].
  - intros x Hx Hy. apply addrs_elem in Hx as (i & Hi & ->). apply addrs_elem in Hy as (j & Hj & E). lia.
  - exists e1, e2, g2. split; [exact E1|]. split; [exact E2|]. split; [exact Hg|]. rewrite Hb. vm_compute. reflexivity.
Defined.

(** C38: the types of a running program.  From the start of a loaded program,
    with the handler of the system calls, every state that is reached has
    thirty-two 64-bit registers with [x0] zero, a memory of 64-bit values, a
    64-bit program counter, a clock that is 1 modulo 8, byte streams, and a
    saved state of the same kind inside an unconstrained block. *)
Theorem reachable_states_typed (program : Program) (X : External) (max_trace_size limit : option Z) (e e' : Exec) (n : nat) :
  params_ok X -> program_wf program -> new_with_limit program max_trace_size limit = Ok e ->
  run program (ecall_handler program X) n e = Ok e' -> exec_inv e'.
Proof.
  intros Hp Hw E0. apply run_inv; [apply handler_keeps, Hp | apply Hw | exact (new_with_limit_inv _ _ _ _ Hw E0)].
Qed.

Definition typed_program : Program :=
  mkProgram [mkInstruction ADDI 5 0 3 false true; mkInstruction ECALL 5 10 11 false false; mkInstruction ADDI 5 0 4 false true;
             mkInstruction ECALL 5 10 11 false false] 0x10000 0x10000 [] [] None.

Lemma reachable_states_typed_witness :
  exists e e', new_with_limit typed_program None None = Ok e /\
    run typed_program (ecall_handler typed_program no_external) 4 e = Ok e' /\
    exec_inv e'.
Proof.
  destruct (new_with_limit typed_program None None) as [e|] eqn:E; [|discriminate E].
  destruct (run typed_program (ecall_handler typed_program no_external) 4 e) as [e'|] eqn:Er.
  2:{ exfalso. apply Ok_inj in E as <-. revert Er. lazy -[PagedMemory.new_preallocated]. discriminate. }
  exists e, e'. split; [reflexivity|]. split; [exact Er|].
  apply (reachable_states_typed typed_program no_external None None e e' 4); try assumption.
  - split; [auto | constructor | constructor | discriminate].
  - split; [repeat constructor; vm_compute; try reflexivity; try discriminate|]. split; [split; [discriminate | reflexivity] | constructor].
Defined.

(** C39: addition and doubling on BN254, secp256r1 and BLS12-381.  For points
    of the curve with canonical coordinates, the add call replaces the first
    operand by the third intersection of the chord, reflected, and the double
    call by that of the tangent; the result is again a canonical point of the
    curve and nothing else in memory changes.  The condition on the
    denominators says that the power the code computes inverts them, as it
    does for every residue but 0 modulo a prime.  Adding a point to itself
    panics. *)
Theorem weierstrass_group_calls (E : WeierstrassParameters) (e : Exec) (g : gmap Z MemValue) (x y : Z) :
  let m := WordsFieldElement (BaseField E) in let p := MODULUS (BaseField E) in
  let P := point_at m g x in let Q := point_at m g y in
  E ∈ sw_curves -> holds_map (memory e) g -> values_ok g -> slice_ok x (m + m) -> slice_ok y (m + m) ->
  canonical E P -> on_curve E P ->
  (canonical E Q -> on_curve E Q -> inverts p ((px Q - px P) mod p) ->
   exists e' R, weierstrass_add_assign_syscall (SwCurve E) e x y = Ok (e', None) /\ stored m e g x R e' /\
     canonical E R /\ on_curve E R /\ chord E P Q R) /\
  (inverts p ((2 * py P) mod p) ->
   exists e' R, weierstrass_double_assign_syscall (SwCurve E) e x = Ok (e', None) /\ stored m e g x R e' /\
     canonical E R /\ on_curve E R /\ tangent E P R) /\
  (P = Q -> weierstrass_add_assign_syscall (SwCurve E) e x y = Panic).
Proof.
  intros m p P Q HE Hg Hv Hx Hy HP CP. destruct (sw_curves_ok E HE) as [Hf Hp]. pose proof (proj2 Hf) as Hw.
  unfold weierstrass_add_assign_syscall, weierstrass_double_assign_syscall. split; [|split].
  - intros HQ CQ Hi. destruct (sw_add_spec E P Q Hp HP HQ Hi) as (R & ER & HR & Hc).
    destruct (ec_add_stores (SwCurve E) m Hw e g Hg Hv x y R Hx Hy ER (canonical_fits E R Hf HR)) as (e' & -> & Hs).
    exists e', R. split; [reflexivity|]. split; [exact Hs|]. split; [exact HR|]. split; [|exact Hc].
    exact (chord_on_curve E P Q R ltac:(lia) Hi CP CQ Hc).
  - intros Hi. destruct (sw_double_spec E P Hp HP Hi) as (R & ER & HR & Hc).
    destruct (ec_double_stores (SwCurve E) m Hw e g Hg Hv x R Hx ER (canonical_fits E R Hf HR)) as (e' & -> & Hs).
    exists e', R. split; [reflexivity|]. split; [exact Hs|]. split; [exact HR|]. split; [|exact Hc].
    exact (tangent_on_curve E P R CP Hc).
  - intros Epq. destruct (ec_add_reads (SwCurve E) m Hw e g Hg Hv x y Hx Hy) as (e1 & g1 & _ & _ & _ & ->).
    fold P Q. rewrite <- Epq. cbn [ec_add SwCurve]. rewrite sw_add_equal. reflexivity.
Qed.

(** The generator of BN254 and the point above 2; a point of secp256r1. *)
Definition points_image : list (Z * Z) := Eval vm_compute in
  combine (addrs 0x1000 8) (to_words_le 8 (generator Bn254Parameters)) ++
  combine (addrs 0x2000 8) (to_words_le 8 (mkAffinePoint 2
    16059845205665218889595687631975406613746683471807856151558479858750240882195)) ++
  combine (addrs 0x3000 8) (to_words_le 8 (mkAffinePoint
    18876000841235187961813855261831489718694462452842279450549947499966241011635
    57896044605178124381348723474703786765043071707645157097766815654433548926976)).

Lemma weierstrass_group_calls_witness :
  exists e e1 e2 R1 R2 g, holds_map (memory e) g /\
    weierstrass_add_assign_syscall (SwCurve Bn254Parameters) e 0x1000 0x2000 = Ok (e1, None) /\ stored 4 e g 0x1000 R1 e1 /\
    on_curve Bn254Parameters R1 /\
    weierstrass_double_assign_syscall (SwCurve Secp256r1Parameters) e 0x3000 = Ok (e2, None) /\ stored 4 e g 0x3000 R2 e2 /\
    on_curve Secp256r1Parameters R2.
Proof.
  destruct (image_state (replicate 32 0) points_image) as (e & _ & Hm & Hv); [image|].
  destruct (weierstrass_group_calls Bn254Parameters e _ 0x1000 0x2000 (list_elem_of_here _ _) Hm Hv) as (Ha & _ & _);
    [slice | slice | vm_compute; intuition discriminate | apply Z.mod_divide; vm_compute; [discriminate | reflexivity] |].
  destruct Ha as (e1 & R1 & E1 & S1 & _ & C1 & _);
    [vm_compute; intuition discriminate | apply Z.mod_divide; vm_compute; [discriminate | reflexivity] | vm_compute; reflexivity |].
  destruct (weierstrass_group_calls Secp256r1Parameters e _ 0x3000 0x1000
              (list_elem_of_further _ _ _ (list_elem_of_here _ _)) Hm Hv) as (_ & Hd & _);
    [slice | slice | vm_compute; intuition discriminate | apply Z.mod_divide; vm_compute; [discriminate | reflexivity] |].
  destruct Hd as (e2 & R2 & E2 & S2 & _ & C2 & _); [vm_compute; reflexivity|].
  exists e, e1, e2, R1, R2, (put_all 0 ∅ points_image). auto 10.
Defined.

(** C40: decompression on Ed25519.  The call reads the 255-bit [y] of the upper
    half of the slice and stores over the lower half a canonical [X] such that
    [(X, y)] is on the curve, with the parity asked for unless it is 0; if it
    panics, and the modulus is prime, there is no such [X]. *)
Theorem edwards_decompression (e : Exec) (g : gmap Z MemValue) (x sign : Z) :
  let p := MODULUS Ed25519BaseField in let y := big_at 4 g (x + 32) mod 2 ^ 255 in
  holds_map (memory e) g -> values_ok g -> slice_ok x 8 -> 0 <= sign <= 1 -> inverts p ((y * y * d_biguint + 1) mod p) ->
  (exists e' g', edwards_decompress_syscall e x sign = Ok (e', None) /\ holds_map (memory e') g' /\ accessed e e' /\
     (let X := big_at 4 g' x in 0 <= X < p /\ on_edwards (mkAffinePoint X y) /\ (X = 0 \/ X mod 2 = sign)) /\
     forall a, a ∉ addrs x 4 -> val g' a = val g a) \/
  (edwards_decompress_syscall e x sign = Panic /\ (Z.prime p -> forall X, ~ on_edwards (mkAffinePoint X y))).
Proof. intros p y Hg Hv Hx Hs. exact (edwards_decompress_ok e g Hg Hv x sign Hx Hs). Qed.

(** The points of order four have [y = 0]. *)
Lemma edwards_decompression_witness :
  exists e, holds_map (memory e) (put_all 0 ∅ [(0x1020, 0)]) /\
    ((exists e' g', edwards_decompress_syscall e 0x1000 1 = Ok (e', None) /\ holds_map (memory e') g' /\
       on_edwards (mkAffinePoint (big_at 4 g' 0x1000) 0)) \/
     edwards_decompress_syscall e 0x1000 1 = Panic).
Proof.
  destruct (image_state (replicate 32 0) [(0x1020, 0)]) as (e & _ & Hm & Hv); [image|]. exists e. split; [exact Hm|].
  destruct (edwards_decompression e _ 0x1000 1 Hm Hv) as [(e' & g' & E & Hg & _ & (_ & Hon & _) & _) | [E _]];
    [slice | lia | vm_compute; reflexivity | left; exists e', g' | right; exact E].
  split; [exact E|]. split; [exact Hg | exact Hon].
Defined.
