(* ===== verification/Tables.v ===== *)
(** * The byte and range tables

    [ByteChip] and [RangeChip] ([crates/core/machine/src/bytes], [range]): the
    preprocessed tables that answer the byte lookups of the other chips, their
    multiplicity columns, and the dense counters of
    [crates/core/executor/src/events/byte.rs] the columns are made from.  The
    tables hold exactly the messages [byte_lookup_ok] accepts; the columns made
    from the recorded events balance the byte bus; and a balanced byte bus gives
    the lookup part of [sats]. *)

From stdpp Require Import base list.
From Stdlib Require Import ZArith Lia.
From S2P Require Import Prelude Words Isa Field Air AirFacts Row AluChips ExecutorFacts.
Open Scope Z_scope.

(** [0..n]. *)
Definition upto (n : Z) : list Z := map Z.of_nat (seq 0 (Z.to_nat n)).

(** ** Counting slots *)

Definition NUM_BYTE_OPS : Z := 6.
Definition BYTE_TABLE_ROWS : Z := 2 ^ 16.
Definition RANGE_TABLE_ROWS : Z := 2 ^ 17.
Definition BYTE_LOOKUP_SLOTS : Z := BYTE_TABLE_ROWS * NUM_BYTE_OPS + RANGE_TABLE_ROWS.

Definition byte_opcode_eqb (a b : ByteOpcode) : bool := byte_opcode_num a =? byte_opcode_num b.

Definition byte_lookup_slot (event : ByteLookupEvent) : Z :=
  if byte_opcode_eqb (ble_opcode event) BRange then
    BYTE_TABLE_ROWS * NUM_BYTE_OPS + ble_a event + Z.shiftl 1 (ble_b event)
  else (Z.shiftl (ble_b event) 8 + ble_c event) * NUM_BYTE_OPS + byte_opcode_num (ble_opcode event).

(** [counts[i] += n] on an array of [u32]; the index is checked. *)
Definition add_at (counts : list Z) (i n : Z) : Res (list Z) :=
  let* old := of_option (counts !! Z.to_nat i) in
  Ok (<[Z.to_nat i := as_u32 (old + n)]> counts).

(** [ByteLookupCounter::add_byte_lookup_event], and the addition of the
    multiplicities of a map of events. *)
Definition add_byte_lookup_event (counts : list Z) (event : ByteLookupEvent) : Res (list Z) :=
  add_at counts (byte_lookup_slot event) 1.

Fixpoint add_byte_lookup_events (counts : list Z) (events : list ByteLookupEvent) : Res (list Z) :=
  match events with
  | [] => Ok counts
  | event :: events =>
      let* counts := add_byte_lookup_event counts event in add_byte_lookup_events counts events
  end.

(** The multiplicities a table adds to its array from the map of a record: those
    of the lookups it holds, range checks or byte operations. *)
Fixpoint add_lookups (range : bool) (start : Z) (counts : list Z) (byte_lookups : list (ByteLookupEvent * Z))
  : Res (list Z) :=
  match byte_lookups with
  | [] => Ok counts
  | (lookup, mult) :: rest =>
      if eqb (byte_opcode_eqb (ble_opcode lookup) BRange) range then
        let* counts := add_at counts (byte_lookup_slot lookup - start) (as_u32 mult) in
        add_lookups range start counts rest
      else add_lookups range start counts rest
  end.

(** [write_multiplicities]. *)
Definition write_multiplicities (counts : list Z) : list F := map Fof counts.

(** ** [ByteChip] *)
Module ByteChip.
Record BytePreprocessedCols : Type := mkCols { b : F; c : F; and : F; or : F; xor : F; ltu : F; msb : F }.

Definition row (b c : Z) : BytePreprocessedCols :=
  mkCols (Fof b) (Fof c) (Fof (Z.land b c)) (Fof (Z.lor b c)) (Fof (Z.lxor b c))
    (Fof_bool (b <? c)) (Fof_bool (negb (Z.land b 128 =? 0))).

Definition trace (_ : unit) : list BytePreprocessedCols :=
  flat_map (fun b => map (row b) (upto 256)) (upto 256).

Definition byte_table : list ByteOpcode := [BAND; BOR; BXOR; BU8Range; BLTU8; BMSB].

(** The message of the table row for one opcode. *)
Definition receive (local : BytePreprocessedCols) (opcode : ByteOpcode) (mult : F) : Res (list Emit) :=
  let field_op := byte_op opcode in
  match opcode with
  | BAND => Ok (receive_byte field_op (and local) (b local) (c local) mult)
  | BOR => Ok (receive_byte field_op (or local) (b local) (c local) mult)
  | BXOR => Ok (receive_byte field_op (xor local) (b local) (c local) mult)
  | BU8Range => Ok (receive_byte field_op F0 (b local) (c local) mult)
  | BLTU8 => Ok (receive_byte field_op (ltu local) (b local) (c local) mult)
  | BMSB => Ok (receive_byte field_op (msb local) (b local) F0 mult)
  | BRange => Panic
  end.

Definition eval (local : BytePreprocessedCols) (multiplicities : list F) : Res (list Emit) :=
  let* emits := mapM (fun p => let* mult := of_option (multiplicities !! fst p) in receive local (snd p) mult)
                  (combine (seq 0 6) byte_table) in
  Ok (concat emits).

(** The multiplicity columns, row-major: the summed dense counts from slot 0
    on, and the lookups of the record's map that are not range checks. *)
Definition generate_trace (byte_lookup_counts : list Z) (byte_lookups : list (ByteLookupEvent * Z)) : Res (list F) :=
  let counts := take (Z.to_nat (NUM_BYTE_OPS * BYTE_TABLE_ROWS)) byte_lookup_counts in
  let* counts := add_lookups false 0 counts byte_lookups in
  Ok (write_multiplicities counts).
End ByteChip.

(** ** [RangeChip] *)
Module RangeChip.
Record RangePreprocessedCols : Type := mkCols { a : F; bits : F }.

(** The rows [(a, bits)] with [0 <= a < 2^bits], from row [2^bits] on. *)
Definition range_block (bits : Z) : list RangePreprocessedCols :=
  map (fun a => mkCols (Fof a) (Fof bits)) (upto (Z.shiftl 1 bits)).

Definition trace (_ : unit) : list RangePreprocessedCols :=
  mkCols F0 F0 :: flat_map range_block (upto 17).

Definition eval (local : RangePreprocessedCols) (multiplicity : F) : list Emit :=
  receive_byte (byte_op BRange) (a local) (bits local) F0 multiplicity.

Definition generate_trace (byte_lookup_counts : list Z) (byte_lookups : list (ByteLookupEvent * Z)) : Res (list F) :=
  let start := BYTE_TABLE_ROWS * NUM_BYTE_OPS in
  let counts := drop (Z.to_nat start) byte_lookup_counts in
  let* counts := add_lookups true start counts byte_lookups in
  Ok (write_multiplicities counts).
End RangeChip.

(** The rows of both tables with their multiplicities, as the constraints see
    them: six columns per row of the byte table, one per row of the range table. *)
Fixpoint byte_rows (prep : list ByteChip.BytePreprocessedCols) (mults : list F) : Res (list Emit) :=
  match prep with
  | [] => Ok []
  | local :: prep =>
      let* row := ByteChip.eval local (take 6 mults) in
      let* rest := byte_rows prep (drop 6 mults) in
      Ok (row ++ rest)
  end.

Definition range_rows (prep : list RangeChip.RangePreprocessedCols) (mults : list F) : list Emit :=
  flat_map (fun p => RangeChip.eval (fst p) (snd p)) (combine prep mults).

Definition table_rows (byte_mults range_mults : list F) : Res (list Emit) :=
  let* l := byte_rows (ByteChip.trace tt) byte_mults in
  Ok (l ++ range_rows (RangeChip.trace tt) range_mults).

(** ** The messages of the tables *)

#[export] Instance F_eq_dec : EqDecision F := Feq_dec.
#[export] Instance InteractionKind_eq_dec : EqDecision InteractionKind.
Proof. solve_decision. Defined.

Definition recv (p : list F * F) : Emit := Receive (mkInteraction (fst p) (snd p) KByte) Local.

Definition byte_values (local : ByteChip.BytePreprocessedCols) (o : ByteOpcode) : list F :=
  let v a c := [byte_op o; a; ByteChip.b local; c] in
  match o with
  | BAND => v (ByteChip.and local) (ByteChip.c local)
  | BOR => v (ByteChip.or local) (ByteChip.c local)
  | BXOR => v (ByteChip.xor local) (ByteChip.c local)
  | BU8Range | BRange => v F0 (ByteChip.c local)
  | BLTU8 => v (ByteChip.ltu local) (ByteChip.c local)
  | BMSB => v (ByteChip.msb local) F0
  end.
Definition row_messages (local : ByteChip.BytePreprocessedCols) : list (list F) :=
  map (byte_values local) ByteChip.byte_table.
Definition byte_messages (_ : unit) : list (list F) := flat_map row_messages (ByteChip.trace tt).

Definition range_values (local : RangeChip.RangePreprocessedCols) : list F :=
  [byte_op BRange; RangeChip.a local; RangeChip.bits local; F0].
Definition range_messages (_ : unit) : list (list F) := map range_values (RangeChip.trace tt).

Definition table_messages (_ : unit) : list (list F) := byte_messages tt ++ range_messages tt.

Definition event_values (e : ByteLookupEvent) : list F := fst (event_lookup e).

(** An event that the tables hold. *)
Definition event_ok (e : ByteLookupEvent) : Prop :=
  is_u16 (ble_a e) /\ is_u8 (ble_b e) /\ is_u8 (ble_c e) /\ byte_lookup_ok (event_values e) = true.

(** *** Lookups in tables made of blocks *)

Lemma upto_lookup (n i : Z) : 0 <= i < n -> upto n !! Z.to_nat i = Some i.
Proof.
  intros Hi. unfold upto. rewrite list_lookup_fmap, lookup_seq_lt by lia. simpl. f_equal. lia.
Qed.

Lemma upto_length (n : Z) : length (upto n) = Z.to_nat n.
Proof. unfold upto. rewrite length_map, length_seq. reflexivity. Qed.

Lemma upto_in (n i : Z) : In i (upto n) <-> 0 <= i < n.
Proof.
  unfold upto. rewrite in_map_iff. split.
  - intros (k & <- & Hk). apply in_seq in Hk. lia.
  - intros Hi. exists (Z.to_nat i). rewrite in_seq. split; lia.
Qed.

Lemma upto_S (n : nat) : upto (Z.of_nat (S n)) = upto (Z.of_nat n) ++ [Z.of_nat n].
Proof. unfold upto. rewrite !Nat2Z.id, seq_S, map_app. reflexivity. Qed.

Lemma blocks_lookup {A B} (f : A -> list B) (n : nat) (l : list A) (k j : nat) (a : A) :
  (forall a, length (f a) = n) -> l !! k = Some a -> (j < n)%nat -> flat_map f l !! (k * n + j)%nat = f a !! j.
Proof.
  intros Hf. revert k. induction l as [|x l IH]; intros k Hk Hj; [discriminate|].
  destruct k as [|k]; simpl in Hk |- *.
  - injection Hk as ->. rewrite lookup_app_l by (rewrite Hf; lia). reflexivity.
  - rewrite lookup_app_r by (rewrite Hf; lia). rewrite Hf.
    replace (n + k * n + j - n)%nat with (k * n + j)%nat by lia. auto.
Qed.

Lemma blocks_length {A B} (f : A -> list B) (n : nat) (l : list A) :
  (forall a, length (f a) = n) -> length (flat_map f l) = (length l * n)%nat.
Proof. intros Hf. induction l as [|x l IH]; simpl; [reflexivity|]. rewrite length_app, IH, Hf. lia. Qed.

(** *** Positions in the tables *)

Lemma byte_row_lookup (b c : Z) :
  0 <= b < 256 -> 0 <= c < 256 ->
  ByteChip.trace tt !! Z.to_nat (Z.shiftl b 8 + c) = Some (ByteChip.row b c).
Proof.
  intros Hb Hc. unfold ByteChip.trace. rewrite Z.shiftl_mul_pow2 by lia.
  replace (Z.to_nat (b * 2 ^ 8 + c)) with (Z.to_nat b * 256 + Z.to_nat c)%nat by lia.
  rewrite (blocks_lookup _ 256 _ _ _ b).
  - rewrite list_lookup_fmap, upto_lookup by lia. reflexivity.
  - intros a. rewrite length_map, upto_length. reflexivity.
  - apply upto_lookup. lia.
  - lia.
Qed.

Lemma byte_trace_length : Z.of_nat (length (ByteChip.trace tt)) = BYTE_TABLE_ROWS.
Proof.
  unfold ByteChip.trace. rewrite (blocks_length _ 256), upto_length, Nat2Z.inj_mul; [reflexivity|].
  intros a. rewrite length_map, upto_length. reflexivity.
Qed.

Lemma byte_messages_length : Z.of_nat (length (byte_messages tt)) = BYTE_TABLE_ROWS * NUM_BYTE_OPS.
Proof.
  unfold byte_messages. rewrite (blocks_length _ 6), Nat2Z.inj_mul, byte_trace_length; [reflexivity|].
  intros a. reflexivity.
Qed.

Lemma range_block_length (bits : Z) : 0 <= bits -> length (RangeChip.range_block bits) = Z.to_nat (2 ^ bits).
Proof. intros Hb. unfold RangeChip.range_block. rewrite length_map, upto_length, Z.shiftl_1_l. reflexivity. Qed.

Lemma range_blocks_length (n : nat) : Z.of_nat (length (flat_map RangeChip.range_block (upto (Z.of_nat n)))) = 2 ^ Z.of_nat n - 1.
Proof.
  induction n as [|n IH]; [reflexivity|]. rewrite upto_S, flat_map_app, length_app, Nat2Z.inj_add, IH. simpl flat_map.
  rewrite app_nil_r, range_block_length by lia. rewrite Nat2Z.inj_succ, Z.pow_succ_r by lia.
  pose proof (pow2_pos (Z.of_nat n) ltac:(lia)). lia.
Qed.

Lemma range_blocks_lookup (n : nat) (bits a : Z) :
  0 <= bits < Z.of_nat n -> 0 <= a < 2 ^ bits ->
  flat_map RangeChip.range_block (upto (Z.of_nat n)) !! Z.to_nat (2 ^ bits - 1 + a)
  = Some (RangeChip.mkCols (Fof a) (Fof bits)).
Proof.
  induction n as [|n IH]; intros Hb Ha; [lia|]. rewrite upto_S, flat_map_app. simpl flat_map. rewrite app_nil_r.
  pose proof (range_blocks_length n) as Hl. pose proof (pow2_pos bits ltac:(lia)).
  destruct (Z.eq_dec bits (Z.of_nat n)) as [-> | Hn].
  - rewrite lookup_app_r by lia.
    replace (Z.to_nat (2 ^ Z.of_nat n - 1 + a) - length (flat_map RangeChip.range_block (upto (Z.of_nat n))))%nat
      with (Z.to_nat a) by lia.
    unfold RangeChip.range_block. rewrite list_lookup_fmap, Z.shiftl_1_l, upto_lookup by lia. reflexivity.
  - assert (2 ^ bits <= 2 ^ (Z.of_nat n - 1)) by (apply Z.pow_le_mono_r; lia).
    assert (2 * 2 ^ (Z.of_nat n - 1) = 2 ^ Z.of_nat n).
    { rewrite <- Z.pow_succ_r by lia. f_equal. lia. }
    rewrite lookup_app_l by lia. apply IH; lia.
Qed.

Lemma range_row_lookup (bits a : Z) :
  0 <= bits <= 16 -> 0 <= a < 2 ^ bits ->
  RangeChip.trace tt !! Z.to_nat (a + Z.shiftl 1 bits) = Some (RangeChip.mkCols (Fof a) (Fof bits)).
Proof.
  intros Hb Ha. rewrite Z.shiftl_1_l. pose proof (pow2_pos bits ltac:(lia)).
  replace (Z.to_nat (a + 2 ^ bits)) with (S (Z.to_nat (2 ^ bits - 1 + a))) by lia.
  unfold RangeChip.trace. rewrite lookup_cons. change 17 with (Z.of_nat 17). apply range_blocks_lookup; lia.
Qed.

Lemma range_trace_length : Z.of_nat (length (RangeChip.trace tt)) = RANGE_TABLE_ROWS.
Proof.
  unfold RangeChip.trace. cbn [length]. change 17 with (Z.of_nat 17).
  rewrite Nat2Z.inj_succ, range_blocks_length. reflexivity.
Qed.

(** *** The tables are exact *)

Lemma byte_op_val (o : ByteOpcode) : Fval (byte_op o) = byte_opcode_num o.
Proof. apply Fval_of_small. destruct o; vm_compute; intuition congruence. Qed.

Lemma small_val (x n : Z) : n <= 2 ^ 17 -> 0 <= x < n -> Fval (Fof x) = x.
Proof. intros Hn Hx. apply Fval_of_small. unfold KOALA_BEAR_ORDER. lia. Qed.

Lemma table_value_bound (o : ByteOpcode) (b c : Z) : is_u8 b -> is_u8 c -> 0 <= byte_table_value o b c < 256.
Proof.
  intros Hb Hc. destruct o; simpl.
  - apply (land_bound b c 8); assumption || lia.
  - apply (lor_bound b c 8); assumption || lia.
  - apply (lxor_bound b c 8); assumption || lia.
  - lia.
  - destruct (b <? c); lia.
  - destruct (_ =? 0); lia.
  - lia.
Qed.

(** The message of a row of the byte table, by the value of the operation. *)
Lemma row_values (b c : Z) (o : ByteOpcode) :
  In o ByteChip.byte_table ->
  byte_values (ByteChip.row b c) o
  = [byte_op o; Fof (byte_table_value o b c); Fof b; if byte_opcode_eqb o BMSB then F0 else Fof c].
Proof.
  intros [<- | [<- | [<- | [<- | [<- | [<- | []]]]]]]; try reflexivity; unfold byte_values, ByteChip.row; cbn -[Fof Z.land].
  - destruct (b <? c); reflexivity.
  - destruct (Z.land b 128 =? 0); reflexivity.
Qed.

Lemma byte_message_okP (o : ByteOpcode) (a b c : Z) :
  o <> BRange ->
  byte_message_ok (byte_opcode_num o) a b c = true <->
  b < 256 /\ c < 256 /\ a = byte_table_value o b c /\ (o = BMSB -> c = 0).
Proof.
  intros Ho. unfold byte_message_ok. destruct o; try congruence; cbn -[Z.ltb Z.land Z.lor Z.lxor];
    rewrite ?andb_true_iff, ?Z.ltb_lt, ?Z.eqb_eq; intuition congruence.
Qed.

Lemma range_message_okP (a b c : Z) :
  byte_message_ok (byte_opcode_num BRange) a b c = true <-> b <= 16 /\ a < 2 ^ b /\ c = 0.
Proof.
  unfold byte_message_ok. rewrite Z.eqb_refl, !andb_true_iff, Z.leb_le, Z.ltb_lt, Z.eqb_eq. tauto.
Qed.

(** An accepted message is that of an event. *)
Lemma message_event (vs : list F) :
  byte_lookup_ok vs = true -> exists e, event_ok e /\ event_values e = vs.
Proof.
  destruct vs as [|op [|a [|b [|c [|]]]]]; try discriminate. intros Hv.
  assert (Ho : exists o, op = byte_op o).
  { cbn [byte_lookup_ok] in Hv. unfold byte_message_ok in Hv.
    repeat match type of Hv with (if ?x =? byte_opcode_num ?o then _ else _) = true =>
      destruct (Z.eqb_spec x (byte_opcode_num o)) as [E|];
      [exists o; apply Fval_inj; rewrite byte_op_val; exact E|] end.
    rewrite !andb_true_iff in Hv. destruct Hv as [_ Hv].
    repeat match type of Hv with (if ?x =? byte_opcode_num ?o then _ else _) = true =>
      destruct (Z.eqb_spec x (byte_opcode_num o)) as [E|];
      [exists o; apply Fval_inj; rewrite byte_op_val; exact E|] end.
    discriminate. }
  destruct Ho as [o ->]. exists (mkByteLookupEvent o (Fval a) (Fval b) (Fval c)).
  assert (E : event_values (mkByteLookupEvent o (Fval a) (Fval b) (Fval c)) = [byte_op o; a; b; c]).
  { unfold event_values, event_lookup. cbn [fst ble_opcode ble_a ble_b ble_c]. rewrite !Fof_val. reflexivity. }
  split; [|exact E]. unfold event_ok. rewrite E. cbn [ble_a ble_b ble_c]. pose proof (Fval_bound a).
  pose proof (Fval_bound b). pose proof (Fval_bound c). pose proof Hv as Hw. cbn [byte_lookup_ok] in Hw.
  rewrite byte_op_val in Hw. unfold is_u16, is_u8, is_u.
  destruct (Z.eq_dec (byte_opcode_num o) (byte_opcode_num BRange)) as [En | En].
  - assert (o = BRange) as -> by (destruct o; discriminate || reflexivity).
    apply range_message_okP in Hw as (H16 & Ha & Hc).
    assert (2 ^ Fval b <= 2 ^ 16) by (apply Z.pow_le_mono_r; lia). repeat split; lia || assumption.
  - apply byte_message_okP in Hw as (Hb & Hc & Ha & _); [|congruence].
    pose proof (table_value_bound o (Fval b) (Fval c)). unfold is_u8, is_u in *. repeat split; lia || assumption.
Qed.

Lemma event_ok_message (e : ByteLookupEvent) :
  event_ok e -> byte_message_ok (byte_opcode_num (ble_opcode e)) (ble_a e) (ble_b e) (ble_c e) = true.
Proof.
  intros (Ha & Hb & Hc & Hv). unfold event_values, event_lookup in Hv. cbn [fst byte_lookup_ok] in Hv.
  unfold is_u16, is_u8, is_u in *. rewrite byte_op_val, !Fval_of_small in Hv by (unfold KOALA_BEAR_ORDER; lia). exact Hv.
Qed.

Lemma byte_opcode_range (o : ByteOpcode) : byte_opcode_eqb o BRange = true <-> o = BRange.
Proof. destruct o; split; intros E; reflexivity || discriminate E. Qed.

Lemma byte_table_lookup (o : ByteOpcode) : o <> BRange -> ByteChip.byte_table !! Z.to_nat (byte_opcode_num o) = Some o.
Proof. destruct o; intros Ho; reflexivity || congruence. Qed.

Lemma byte_slot_message (e : ByteLookupEvent) :
  event_ok e -> ble_opcode e <> BRange -> byte_messages tt !! Z.to_nat (byte_lookup_slot e) = Some (event_values e).
Proof.
  intros He Ho. pose proof (event_ok_message e He) as Hm. destruct He as (_ & Hb & Hc & _).
  apply byte_message_okP in Hm as (_ & _ & Ea & Emsb); [|exact Ho].
  unfold byte_lookup_slot. destruct (byte_opcode_eqb _ BRange) eqn:E; [apply byte_opcode_range in E; congruence|].
  set (r := Z.shiftl (ble_b e) 8 + ble_c e). set (k := byte_opcode_num (ble_opcode e)).
  assert (Hr : 0 <= r) by (unfold r; rewrite Z.shiftl_mul_pow2 by lia; unfold is_u8, is_u in *; lia).
  assert (Hk : 0 <= k < 6) by (unfold k; destruct (ble_opcode e); try congruence; vm_compute; intuition congruence).
  replace (Z.to_nat (r * NUM_BYTE_OPS + k)) with (Z.to_nat r * 6 + Z.to_nat k)%nat by (unfold NUM_BYTE_OPS; lia).
  unfold byte_messages. rewrite (blocks_lookup _ 6 _ _ _ (ByteChip.row (ble_b e) (ble_c e))).
  - unfold row_messages, k. rewrite list_lookup_fmap, byte_table_lookup by exact Ho. cbn [fmap option_fmap option_map].
    rewrite row_values by (destruct (ble_opcode e); simpl; tauto).
    unfold event_values, event_lookup. cbn [fst]. rewrite Ea.
    destruct (byte_opcode_eqb (ble_opcode e) BMSB) eqn:Em; [|reflexivity].
    rewrite Emsb by (destruct (ble_opcode e); reflexivity || discriminate Em). reflexivity.
  - intros a. reflexivity.
  - apply byte_row_lookup; unfold is_u8, is_u in *; lia.
  - lia.
Qed.

Lemma range_slot_message (e : ByteLookupEvent) :
  event_ok e -> ble_opcode e = BRange ->
  range_messages tt !! Z.to_nat (byte_lookup_slot e - BYTE_TABLE_ROWS * NUM_BYTE_OPS) = Some (event_values e).
Proof.
  intros He Ho. pose proof (event_ok_message e He) as Hm. rewrite Ho in Hm. destruct He as (Ha & Hb & _).
  apply range_message_okP in Hm as (H16 & H2 & Hc). unfold is_u16, is_u8, is_u in *.
  unfold byte_lookup_slot. rewrite Ho. change (byte_opcode_eqb BRange BRange) with true. cbv iota.
  rewrite <- Z.add_assoc, Z.add_simpl_l. unfold range_messages.
  rewrite list_lookup_fmap, range_row_lookup by lia. unfold event_values, event_lookup.
  cbn [fst fmap option_fmap option_map]. rewrite Ho, Hc. reflexivity.
Qed.

Lemma messages_ok (vs : list F) : In vs (table_messages tt) -> byte_lookup_ok vs = true.
Proof.
  unfold table_messages. intros [H | H]%in_app_or.
  - unfold byte_messages, ByteChip.trace in H. apply in_flat_map in H as (row & Hr & H).
    apply in_flat_map in Hr as (b & Hb & (c & <- & Hc)%in_map_iff). apply in_map_iff in H as (o & <- & Ho).
    apply upto_in in Hb, Hc. rewrite row_values by exact Ho. cbn [byte_lookup_ok]. rewrite byte_op_val.
    assert (Ho' : o <> BRange) by (intros ->; simpl in Ho; intuition congruence).
    pose proof (table_value_bound o b c ltac:(split; lia) ltac:(split; lia)).
    apply byte_message_okP; [exact Ho'|]. rewrite !(small_val _ 256) by lia.
    destruct (byte_opcode_eqb o BMSB) eqn:E.
    + assert (o = BMSB) as -> by (destruct o; reflexivity || discriminate E). change (Fval F0) with 0.
      repeat split; lia.
    + rewrite (small_val _ 256) by lia. repeat split; try lia. intros ->. discriminate E.
  - unfold range_messages, RangeChip.trace in H. apply in_map_iff in H as (row & <- & [<- | H]).
    + apply range_message_okP. vm_compute. intuition congruence.
    + apply in_flat_map in H as (bits & Hb & H). unfold RangeChip.range_block in H.
      apply in_map_iff in H as (a & <- & Ha). apply upto_in in Hb, Ha. rewrite Z.shiftl_1_l in Ha.
      assert (2 ^ bits <= 2 ^ 16) by (apply Z.pow_le_mono_r; lia).
      unfold range_values. cbn [byte_lookup_ok RangeChip.a RangeChip.bits]. rewrite byte_op_val.
      rewrite (small_val a (2 ^ 16)), (small_val bits 17) by lia. change (Fval F0) with 0.
      apply range_message_okP. lia.
Qed.

Lemma table_messages_exact (vs : list F) : byte_lookup_ok vs = true <-> In vs (table_messages tt).
Proof.
  split; [|apply messages_ok]. intros (e & He & <-)%message_event. unfold table_messages. apply in_or_app.
  destruct (byte_opcode_eqb (ble_opcode e) BRange) eqn:E.
  - right. eapply list_elem_of_In, list_elem_of_lookup_2, range_slot_message, byte_opcode_range, E. exact He.
  - left. eapply list_elem_of_In, list_elem_of_lookup_2, byte_slot_message; [exact He|].
    intros Ho. apply byte_opcode_range in Ho. congruence.
Qed.

(** ** The byte bus *)

(** The total multiplicity with which a message is sent, and received. *)
Definition on_byte_bus (vs : list F) (m : AirInteraction) : F :=
  if (kind_num (kind m) =? kind_num KByte) && bool_decide (values m = vs) then multiplicity m else F0.
Fixpoint sent (vs : list F) (l : list Emit) : F :=
  match l with
  | [] => F0
  | Send m Local :: l => (on_byte_bus vs m + sent vs l)%F
  | _ :: l => sent vs l
  end.
Fixpoint received (vs : list F) (l : list Emit) : F :=
  match l with
  | [] => F0
  | Receive m Local :: l => (on_byte_bus vs m + received vs l)%F
  | _ :: l => received vs l
  end.

Lemma sent_app (vs : list F) (l1 l2 : list Emit) : sent vs (l1 ++ l2) = (sent vs l1 + sent vs l2)%F.
Proof. induction l1 as [|[|m []|m []] l1 IH]; simpl; rewrite ?IH; ring. Qed.

Lemma received_app (vs : list F) (l1 l2 : list Emit) : received vs (l1 ++ l2) = (received vs l1 + received vs l2)%F.
Proof. induction l1 as [|[|m []|m []] l1 IH]; simpl; rewrite ?IH; ring. Qed.

(** The multiplicities of the slots whose message is [vs]. *)
Fixpoint total (vs : list F) (messages : list (list F)) (mults : list F) : F :=
  match messages, mults with
  | m :: messages, x :: mults => ((if decide (m = vs) then x else F0) + total vs messages mults)%F
  | _, _ => F0
  end.

Lemma total_app (vs : list F) (m1 m2 : list (list F)) (x1 x2 : list F) :
  length m1 = length x1 -> total vs (m1 ++ m2) (x1 ++ x2) = (total vs m1 x1 + total vs m2 x2)%F.
Proof.
  revert x1. induction m1 as [|m m1 IH]; intros [|x x1] Hl; try discriminate; simpl; [ring|].
  rewrite IH by (injection Hl; auto). ring.
Qed.

Lemma received_recv (vs m : list F) (x : F) :
  received vs [recv (m, x)] = (if decide (m = vs) then x else F0).
Proof.
  unfold recv, received, on_byte_bus. cbn [fst snd kind values multiplicity]. rewrite Z.eqb_refl. cbn [andb].
  case_bool_decide as E; [rewrite decide_True by exact E | rewrite decide_False by exact E]; ring.
Qed.

Lemma received_recvs (vs : list F) (messages : list (list F)) (mults : list F) :
  received vs (map recv (combine messages mults)) = total vs messages mults.
Proof.
  revert mults. induction messages as [|m messages IH]; intros [|x mults]; try reflexivity.
  cbn [combine map total]. rewrite <- IH, <- (received_recv vs m x). apply (received_app vs [_]).
Qed.

Lemma byte_eval_recv (local : ByteChip.BytePreprocessedCols) (mults : list F) :
  length mults = 6%nat -> ByteChip.eval local mults = Ok (map recv (combine (row_messages local) mults)).
Proof.
  intros Hl. destruct mults as [|x0 [|x1 [|x2 [|x3 [|x4 [|x5 [|]]]]]]]; try discriminate Hl. reflexivity.
Qed.

Lemma byte_rows_recv (prep : list ByteChip.BytePreprocessedCols) (mults : list F) :
  length mults = (length prep * 6)%nat ->
  byte_rows prep mults = Ok (map recv (combine (flat_map row_messages prep) mults)).
Proof.
  revert mults. induction prep as [|local prep IH]; intros mults Hl; [reflexivity|]. cbn [byte_rows flat_map].
  simpl in Hl. rewrite byte_eval_recv by (rewrite length_take; lia). cbn [bind].
  rewrite IH by (rewrite length_drop; lia). cbn [bind].
  rewrite <- (take_drop 6 mults) at 3. rewrite combine_app
    by (change (length (row_messages local)) with 6%nat; rewrite length_take; lia).
  rewrite map_app. reflexivity.
Qed.

Lemma range_rows_recv (prep : list RangeChip.RangePreprocessedCols) (mults : list F) :
  range_rows prep mults = map recv (combine (map range_values prep) mults).
Proof.
  revert mults. induction prep as [|local prep IH]; intros [|x mults]; try reflexivity.
  unfold range_rows. cbn [combine flat_map map]. f_equal. apply IH.
Qed.

Lemma byte_eval_inv (local : ByteChip.BytePreprocessedCols) (mults : list F) (em : list Emit) :
  (length mults <= 6)%nat -> ByteChip.eval local mults = Ok em ->
  em = map recv (combine (row_messages local) mults) /\ length mults = 6%nat.
Proof.
  intros Hl E. destruct mults as [|x0 [|x1 [|x2 [|x3 [|x4 [|x5 [|]]]]]]]; try discriminate E.
  - rewrite byte_eval_recv in E by reflexivity. apply Ok_inj in E as <-. auto.
  - simpl in Hl. lia.
Qed.

Lemma byte_rows_inv (prep : list ByteChip.BytePreprocessedCols) (mults : list F) (em : list Emit) :
  byte_rows prep mults = Ok em -> em = map recv (combine (flat_map row_messages prep) mults).
Proof.
  revert mults em. induction prep as [|local prep IH]; intros mults em E; cbn [byte_rows flat_map] in *.
  - apply Ok_inj in E as <-. reflexivity.
  - apply bind_ok in E as (row & E1 & E). apply bind_ok in E as (rest & E2 & E). apply Ok_inj in E as <-.
    apply byte_eval_inv in E1 as [-> Hl]; [|rewrite length_take; lia]. apply IH in E2 as ->.
    rewrite <- (take_drop 6 mults) at 3. rewrite combine_app
      by (change (length (row_messages local)) with 6%nat; congruence).
    rewrite map_app. reflexivity.
Qed.

(** What the tables receive, for any multiplicities. *)
Lemma table_rows_received (bm rm : list F) (em : list Emit) :
  table_rows bm rm = Ok em ->
  forall vs, received vs em = (total vs (byte_messages tt) bm + total vs (range_messages tt) rm)%F.
Proof.
  unfold table_rows. intros E vs. apply bind_ok in E as (l & E1 & E). apply Ok_inj in E as <-.
  apply byte_rows_inv in E1 as ->. rewrite received_app, range_rows_recv, !received_recvs. reflexivity.
Qed.

Lemma table_rows_ok (bm rm : list F) :
  Z.of_nat (length bm) = BYTE_TABLE_ROWS * NUM_BYTE_OPS -> exists em, table_rows bm rm = Ok em.
Proof.
  intros Hb. unfold table_rows. rewrite byte_rows_recv; [eauto|].
  pose proof byte_trace_length as H. apply Nat2Z.inj. rewrite Nat2Z.inj_mul, Hb, H. reflexivity.
Qed.

(** ** The multiplicities of the recorded events *)

(** Additions to slots: the two ways an array is filled. *)
Fixpoint add_slots (counts : list Z) (l : list (Z * Z)) : Res (list Z) :=
  match l with
  | [] => Ok counts
  | (i, n) :: l => let* counts := add_at counts i n in add_slots counts l
  end.

Lemma add_events_slots (counts : list Z) (events : list ByteLookupEvent) :
  add_byte_lookup_events counts events = add_slots counts (map (fun e => (byte_lookup_slot e, 1)) events).
Proof.
  revert counts. induction events as [|e events IH]; intros counts; [reflexivity|]. simpl.
  unfold add_byte_lookup_event. destruct (add_at _ _ _); [apply IH | reflexivity].
Qed.

Definition table_part (range : bool) (lookups : list (ByteLookupEvent * Z)) : list (ByteLookupEvent * Z) :=
  List.filter (fun p => eqb (byte_opcode_eqb (ble_opcode (fst p)) BRange) range) lookups.

Lemma add_lookups_slots (range : bool) (start : Z) (counts : list Z) (lookups : list (ByteLookupEvent * Z)) :
  add_lookups range start counts lookups
  = add_slots counts (map (fun p => (byte_lookup_slot (fst p) - start, as_u32 (snd p))) (table_part range lookups)).
Proof.
  revert counts. induction lookups as [|[e n] lookups IH]; intros counts; [reflexivity|]. unfold table_part. simpl.
  destruct (eqb _ range); simpl; [|apply IH]. destruct (add_at _ _ _); [apply IH | reflexivity].
Qed.

(** The weight of a message in a list of messages with multiplicities. *)
Fixpoint weight (vs : list F) (l : list (list F * Z)) : Z :=
  match l with
  | [] => 0
  | (m, n) :: l => (if decide (m = vs) then n else 0) + weight vs l
  end.

Lemma weight_app (vs : list F) (l1 l2 : list (list F * Z)) : weight vs (l1 ++ l2) = weight vs l1 + weight vs l2.
Proof. induction l1 as [|[m n] l1 IH]; simpl; [reflexivity|]. rewrite IH. lia. Qed.

Lemma weight_perm (vs : list F) (l1 l2 : list (list F * Z)) : Permutation l1 l2 -> weight vs l1 = weight vs l2.
Proof. induction 1 as [| [m n] | [m n] [m' n'] | ]; simpl; lia. Qed.

Lemma total_insert (vs : list F) (messages : list (list F)) (counts : list Z) (i : nat) (m : list F) (x y : Z) :
  messages !! i = Some m -> counts !! i = Some x ->
  total vs messages (map Fof (<[i := y]> counts))
  = (total vs messages (map Fof counts) + (if decide (m = vs) then Fof (y - x) else F0))%F.
Proof.
  revert messages counts. induction i as [|i IH]; intros [|m' messages] [|x' counts] Hm Hx; try discriminate.
  - injection Hm as ->. injection Hx as ->. simpl. destruct (decide (m = vs)); [rewrite <- Fof_sub|]; ring.
  - simpl in *. rewrite (IH messages counts Hm Hx). ring.
Qed.

Definition bounded (T : Z) (counts : list Z) : Prop := Forall (fun x => 0 <= x <= T) counts.

Lemma add_at_total (messages : list (list F)) (counts : list Z) (T i n : Z) (m : list F) :
  length counts = length messages -> bounded T counts -> 0 <= n -> T + n < 2 ^ 32 ->
  messages !! Z.to_nat i = Some m ->
  exists counts', add_at counts i n = Ok counts' /\ length counts' = length messages /\ bounded (T + n) counts' /\
    forall vs, total vs messages (map Fof counts')
               = (total vs messages (map Fof counts) + Fof (if decide (m = vs) then n else 0))%F.
Proof.
  intros Hl Hb Hn HT Hm. destruct (counts !! Z.to_nat i) as [x|] eqn:Hx.
  2:{ apply lookup_ge_None in Hx. apply lookup_lt_Some in Hm. lia. }
  assert (Hxb : 0 <= x <= T) by exact (proj1 (Forall_lookup _ _) Hb _ _ Hx).
  exists (<[Z.to_nat i := x + n]> counts). unfold add_at. rewrite Hx. cbn [of_option bind].
  assert (E : as_u32 (x + n) = x + n) by (apply Z.mod_small; lia). rewrite E.
  split; [reflexivity|]. split; [rewrite length_insert; exact Hl|]. split.
  - apply Forall_insert; [|lia]. eapply Forall_impl; [exact Hb|]. simpl. lia.
  - intros vs. rewrite (total_insert vs messages counts _ m x _ Hm Hx).
    replace (x + n - x) with n by lia. destruct (decide (m = vs)); reflexivity.
Qed.

Fixpoint amount (l : list (list F * Z)) : Z := match l with [] => 0 | (_, n) :: l => n + amount l end.

Lemma add_slots_total (messages : list (list F)) (l : list (Z * Z)) (ms : list (list F * Z)) (counts : list Z) (T : Z) :
  Forall2 (fun p q => messages !! Z.to_nat (fst p) = Some (fst q) /\ snd p = snd q /\ 0 <= snd q) l ms ->
  length counts = length messages -> bounded T counts -> T + amount ms < 2 ^ 32 ->
  exists counts', add_slots counts l = Ok counts' /\ length counts' = length messages /\ bounded (T + amount ms) counts' /\
    forall vs, total vs messages (map Fof counts') = (total vs messages (map Fof counts) + Fof (weight vs ms))%F.
Proof.
  intros H. revert counts T. induction H as [|[i n] [m n'] l ms (Hm & En & Hn) H IH]; intros counts T Hl Hb HT.
  - exists counts. simpl in *. replace (T + 0) with T by lia. repeat split; auto. intros vs. rewrite <- F0_of. ring.
  - simpl in *. subst n'.
    assert (0 <= amount ms).
    { clear -H. induction H as [|[] [] ? ? (_ & _ & ?)]; simpl in *; lia. }
    destruct (add_at_total messages counts T i n m Hl Hb Hn ltac:(lia) Hm) as (c1 & E1 & Hl1 & Hb1 & Ht1).
    destruct (IH c1 (T + n) Hl1 Hb1 ltac:(lia)) as (c2 & E2 & Hl2 & Hb2 & Ht2). exists c2. rewrite E1. cbn [bind].
    split; [exact E2|]. split; [exact Hl2|]. split; [replace (T + (n + amount ms)) with (T + n + amount ms) by lia; exact Hb2|].
    intros vs. rewrite Ht2, Ht1, <- Fof_add. ring.
Qed.

Lemma range_messages_length : Z.of_nat (length (range_messages tt)) = RANGE_TABLE_ROWS.
Proof. unfold range_messages. rewrite length_map. apply range_trace_length. Qed.

Lemma slot_message (e : ByteLookupEvent) :
  event_ok e -> table_messages tt !! Z.to_nat (byte_lookup_slot e) = Some (event_values e).
Proof.
  intros He. unfold table_messages. destruct (byte_opcode_eqb (ble_opcode e) BRange) eqn:E.
  - apply byte_opcode_range in E. pose proof (range_slot_message e He E) as H. pose proof byte_messages_length as Hl.
    destruct He as (Ha & Hb & _). unfold is_u16, is_u8, is_u in *.
    assert (BYTE_TABLE_ROWS * NUM_BYTE_OPS <= byte_lookup_slot e).
    { unfold byte_lookup_slot. rewrite E. change (byte_opcode_eqb BRange BRange) with true. cbv iota.
      rewrite Z.shiftl_1_l. pose proof (pow2_pos (ble_b e) ltac:(lia)). lia. }
    rewrite lookup_app_r by lia. rewrite <- H. f_equal. lia.
  - apply lookup_app_l_Some, byte_slot_message; [exact He|]. intros Ho. apply byte_opcode_range in Ho. congruence.
Qed.

Definition dense_weights (events : list ByteLookupEvent) : list (list F * Z) := map (fun e => (event_values e, 1)) events.
Definition map_weights (lookups : list (ByteLookupEvent * Z)) : list (list F * Z) :=
  map (fun p => (event_values (fst p), snd p)) lookups.

(** A record's map of lookups: events the tables hold, with [u32] counts. *)
Definition lookups_ok (lookups : list (ByteLookupEvent * Z)) : Prop :=
  Forall (fun p => event_ok (fst p) /\ 0 <= snd p < 2 ^ 32) lookups.

Lemma part_slots (range : bool) (start : Z) (messages : list (list F)) (lookups : list (ByteLookupEvent * Z)) :
  lookups_ok lookups ->
  (forall e, event_ok e -> byte_opcode_eqb (ble_opcode e) BRange = range ->
     messages !! Z.to_nat (byte_lookup_slot e - start) = Some (event_values e)) ->
  Forall2 (fun p q => messages !! Z.to_nat (fst p) = Some (fst q) /\ snd p = snd q /\ 0 <= snd q)
    (map (fun p => (byte_lookup_slot (fst p) - start, as_u32 (snd p))) (table_part range lookups))
    (map_weights (table_part range lookups)).
Proof.
  intros Hl Hm. induction Hl as [|[e n] lookups [He Hn] Hl IH]; [constructor|]. unfold table_part. simpl in *.
  destruct (eqb _ range) eqn:E; [|exact IH]. constructor; [|exact IH]. simpl.
  split; [apply Hm, eqb_prop, E; exact He|]. split; [apply Z.mod_small; lia | lia].
Qed.

Lemma part_amount (range : bool) (lookups : list (ByteLookupEvent * Z)) :
  lookups_ok lookups -> amount (map_weights (table_part range lookups)) <= amount (map_weights lookups).
Proof.
  unfold table_part, map_weights. induction 1 as [|[e n] lookups [_ Hn] _ IH]; [reflexivity|].
  cbn [List.filter fst]. destruct (eqb _ range); cbn [map amount fst snd] in *; lia.
Qed.

Lemma part_weight (vs : list F) (lookups : list (ByteLookupEvent * Z)) :
  weight vs (map_weights lookups)
  = weight vs (map_weights (table_part false lookups)) + weight vs (map_weights (table_part true lookups)).
Proof.
  induction lookups as [|[e n] lookups IH]; [reflexivity|]. unfold table_part, map_weights in *. simpl.
  destruct (byte_opcode_eqb _ BRange); simpl; lia.
Qed.

Lemma dense_slots (events : list ByteLookupEvent) :
  Forall event_ok events ->
  Forall2 (fun p q => table_messages tt !! Z.to_nat (fst p) = Some (fst q) /\ snd p = snd q /\ 0 <= snd q)
    (map (fun e => (byte_lookup_slot e, 1)) events) (dense_weights events).
Proof.
  induction 1 as [|e events He _ IH]; [constructor|]. simpl. constructor; [|exact IH]. simpl.
  split; [apply slot_message, He | lia].
Qed.

Lemma dense_amount (events : list ByteLookupEvent) : amount (dense_weights events) = Z.of_nat (length events).
Proof. unfold dense_weights. induction events as [|e events IH]; [reflexivity|]. cbn [map amount length]. lia. Qed.

Lemma total_zeros (vs : list F) (messages : list (list F)) (n : nat) : total vs messages (map Fof (replicate n 0)) = F0.
Proof.
  revert n. induction messages as [|m messages IH]; intros [|n]; try reflexivity. simpl. rewrite IH, <- F0_of.
  destruct (decide (m = vs)); ring.
Qed.

Lemma amount_nonneg (lookups : list (ByteLookupEvent * Z)) : lookups_ok lookups -> 0 <= amount (map_weights lookups).
Proof. induction 1 as [|[] ? [_ ?]]; simpl in *; lia. Qed.

(** The part of the map that one table adds to its counts. *)
Lemma part_total (range : bool) (start : Z) (messages : list (list F)) (counts : list Z) (T : Z)
    (lookups : list (ByteLookupEvent * Z)) :
  lookups_ok lookups ->
  (forall e, event_ok e -> byte_opcode_eqb (ble_opcode e) BRange = range ->
     messages !! Z.to_nat (byte_lookup_slot e - start) = Some (event_values e)) ->
  length counts = length messages -> bounded T counts -> T + amount (map_weights lookups) < 2 ^ 32 ->
  exists counts', add_lookups range start counts lookups = Ok counts' /\ length counts' = length messages /\
    forall vs, total vs messages (map Fof counts')
               = (total vs messages (map Fof counts) + Fof (weight vs (map_weights (table_part range lookups))))%F.
Proof.
  intros Hl Hm Hc Hb HT. pose proof (part_amount range lookups Hl).
  destruct (add_slots_total messages _ _ counts T (part_slots range start messages lookups Hl Hm) Hc Hb ltac:(lia))
    as (c' & E & Hc' & _ & Ht).
  exists c'. rewrite add_lookups_slots. auto.
Qed.

(** The dense counts of a list of events. *)
Lemma dense_total (dense : list ByteLookupEvent) :
  Forall event_ok dense -> Z.of_nat (length dense) < 2 ^ 32 ->
  exists counts, add_byte_lookup_events (replicate (Z.to_nat BYTE_LOOKUP_SLOTS) 0) dense = Ok counts /\
    length counts = length (table_messages tt) /\ bounded (Z.of_nat (length dense)) counts /\
    forall vs, total vs (table_messages tt) (map Fof counts) = Fof (weight vs (dense_weights dense)).
Proof.
  intros Hd Hn. pose proof byte_messages_length as Lb. pose proof range_messages_length as Lr.
  destruct (add_slots_total _ _ _ (replicate (Z.to_nat BYTE_LOOKUP_SLOTS) 0) 0 (dense_slots dense Hd))
    as (counts & E & Hc & Hb & Ht).
  - rewrite length_replicate. unfold table_messages, BYTE_LOOKUP_SLOTS. rewrite length_app. lia.
  - apply Forall_replicate. lia.
  - rewrite dense_amount. lia.
  - rewrite dense_amount in Hb. rewrite <- add_events_slots in E. exists counts. repeat split; auto.
    intros vs. rewrite Ht, total_zeros. ring.
Qed.

Lemma byte_generate (counts : list Z) (lookups : list (ByteLookupEvent * Z)) (n : nat) :
  n = Z.to_nat (BYTE_TABLE_ROWS * NUM_BYTE_OPS) ->
  ByteChip.generate_trace counts lookups
  = let* counts := add_lookups false 0 (take n counts) lookups in Ok (write_multiplicities counts).
Proof. intros ->. unfold ByteChip.generate_trace. rewrite (Z.mul_comm NUM_BYTE_OPS). reflexivity. Qed.

Lemma range_generate (counts : list Z) (lookups : list (ByteLookupEvent * Z)) (n : nat) :
  n = Z.to_nat (BYTE_TABLE_ROWS * NUM_BYTE_OPS) ->
  RangeChip.generate_trace counts lookups
  = let* counts := add_lookups true (BYTE_TABLE_ROWS * NUM_BYTE_OPS) (drop n counts) lookups in
    Ok (write_multiplicities counts).
Proof. intros ->. reflexivity. Qed.

(** The counts of two consecutive tables after the map's lookups are added. *)
Lemma parts_total (bms rms : list (list F)) (start T : Z) (counts : list Z) (lookups : list (ByteLookupEvent * Z)) (n : nat) :
  n = length bms -> length counts = length (bms ++ rms) -> bounded T counts -> lookups_ok lookups ->
  T + amount (map_weights lookups) < 2 ^ 32 ->
  (forall e, event_ok e -> ble_opcode e <> BRange -> bms !! Z.to_nat (byte_lookup_slot e) = Some (event_values e)) ->
  (forall e, event_ok e -> ble_opcode e = BRange -> rms !! Z.to_nat (byte_lookup_slot e - start) = Some (event_values e)) ->
  exists cb cr, add_lookups false 0 (take n counts) lookups = Ok cb /\
    add_lookups true start (drop n counts) lookups = Ok cr /\ length cb = n /\
    forall vs, (total vs bms (map Fof cb) + total vs rms (map Fof cr))%F
               = (total vs (bms ++ rms) (map Fof counts) + Fof (weight vs (map_weights lookups)))%F.
Proof.
  intros Ln Hc Hb Hl Hn Hbm Hrm. rewrite length_app in Hc.
  destruct (part_total false 0 bms (take n counts) T lookups Hl) as (cb & Eb & Lcb & Htb).
  { intros e He Ho. rewrite Z.sub_0_r. apply Hbm; [exact He|]. intros Hr. apply byte_opcode_range in Hr. congruence. }
  { rewrite length_take. lia. }
  { apply Forall_take, Hb. }
  { exact Hn. }
  destruct (part_total true start rms (drop n counts) T lookups Hl) as (cr & Er & _ & Htr).
  { intros e He Ho. apply Hrm, byte_opcode_range, Ho. exact He. }
  { rewrite length_drop. lia. }
  { apply Forall_drop, Hb. }
  { exact Hn. }
  exists cb, cr. split; [exact Eb|]. split; [exact Er|]. split; [congruence|].
  intros vs. rewrite Htb, Htr, (part_weight vs lookups), <- Fof_add.
  rewrite <- (take_drop n counts) at 3. rewrite map_app, total_app; [ring|].
  rewrite length_map, length_take. lia.
Qed.

(** The tables with the multiplicities of the recorded events receive every
    message as often as it was recorded. *)
Lemma tables_receive (dense : list ByteLookupEvent) (lookups : list (ByteLookupEvent * Z)) :
  Forall event_ok dense -> lookups_ok lookups ->
  Z.of_nat (length dense) + amount (map_weights lookups) < 2 ^ 32 ->
  exists counts bm rm em,
    add_byte_lookup_events (replicate (Z.to_nat BYTE_LOOKUP_SLOTS) 0) dense = Ok counts /\
    ByteChip.generate_trace counts lookups = Ok bm /\ RangeChip.generate_trace counts lookups = Ok rm /\
    table_rows bm rm = Ok em /\
    forall vs, received vs em = Fof (weight vs (dense_weights dense ++ map_weights lookups)).
Proof.
  intros Hd Hl Hn. pose proof (amount_nonneg lookups Hl).
  destruct (dense_total dense Hd ltac:(lia)) as (counts & E & Hc & Hb & Ht).
  pose proof byte_messages_length as Lb.
  destruct (parts_total (byte_messages tt) (range_messages tt) (BYTE_TABLE_ROWS * NUM_BYTE_OPS) (Z.of_nat (length dense))
              counts lookups _ eq_refl Hc Hb Hl Hn byte_slot_message range_slot_message)
    as (cb & cr & Eb & Er & Lcb & Htot).
  destruct (table_rows_ok (map Fof cb) (map Fof cr)) as (em & Em); [rewrite length_map, Lcb; exact Lb|].
  pose proof (table_rows_received _ _ _ Em) as Hem.
  assert (En : length (byte_messages tt) = Z.to_nat (BYTE_TABLE_ROWS * NUM_BYTE_OPS)) by (rewrite <- Lb, Nat2Z.id; reflexivity).
  exists counts, (map Fof cb), (map Fof cr), em. split; [exact E|].
  rewrite (byte_generate _ _ _ En), (range_generate _ _ _ En), Eb, Er.
  split; [reflexivity|]. split; [reflexivity|]. split; [exact Em|].
  intros vs. rewrite (Hem vs), (Htot vs), weight_app, <- Fof_add. fold (table_messages tt). rewrite (Ht vs). reflexivity.
Qed.

(** ** Rows and tables *)

Fixpoint lookup_total (vs : list F) (l : list (list F * F)) : F :=
  match l with
  | [] => F0
  | (m, x) :: l => ((if decide (m = vs) then x else F0) + lookup_total vs l)%F
  end.

Lemma lookup_total_app (vs : list F) (l1 l2 : list (list F * F)) :
  lookup_total vs (l1 ++ l2) = (lookup_total vs l1 + lookup_total vs l2)%F.
Proof. induction l1 as [|[m x] l1 IH]; simpl; [ring|]. rewrite IH. ring. Qed.

Lemma lookup_total_perm (vs : list F) (l1 l2 : list (list F * F)) :
  Permutation l1 l2 -> lookup_total vs l1 = lookup_total vs l2.
Proof. induction 1 as [| [m n] ? ? ? IH | [m n] [m' n'] | ? ? ? ? IH1 ? IH2 ]; simpl; [reflexivity | rewrite IH; reflexivity | ring | congruence]. Qed.

Lemma sent_lookups (vs : list F) (l : list Emit) : sent vs l = lookup_total vs (byte_lookups l).
Proof.
  induction l as [|[gs a | m [] | m s] l IH]; simpl; try exact IH; [reflexivity|]. rewrite lookup_total_app, <- IH. f_equal.
  unfold on_byte_bus. destruct (kind m) eqn:E; simpl; try reflexivity.
  case_bool_decide as Ev; simpl; destruct (Feqb (multiplicity m) F0) eqn:E0; simpl.
  - apply Feqb_eq, E0.
  - rewrite decide_True by exact Ev. ring.
  - reflexivity.
  - rewrite decide_False by exact Ev. ring.
Qed.

Lemma events_total (vs : list F) (events : list ByteLookupEvent) :
  lookup_total vs (map event_lookup events) = Fof (weight vs (dense_weights events)).
Proof.
  induction events as [|e events IH]; [reflexivity|]. cbn [map dense_weights weight].
  rewrite <- Fof_add. change (event_lookup e) with (event_values e, F1). cbn [lookup_total]. rewrite IH. f_equal.
  destruct (decide (event_values e = vs)); reflexivity.
Qed.

Lemma complete_sent (vs : list F) (l : list Emit) (events : list ByteLookupEvent) :
  complete l events -> sent vs l = Fof (weight vs (dense_weights events)).
Proof. intros [_ H]. rewrite sent_lookups, (lookup_total_perm vs _ _ H). apply events_total. Qed.

Lemma rows_sent (vs : list F) (rows : list (list Emit * list ByteLookupEvent)) :
  Forall (fun p => complete (fst p) (snd p)) rows ->
  sent vs (concat (map fst rows)) = Fof (weight vs (dense_weights (concat (map snd rows)))).
Proof.
  induction 1 as [|[l ev] rows Hc _ IH]; [reflexivity|]. cbn [map concat fst snd]. unfold dense_weights in *.
  rewrite sent_app, map_app, weight_app, <- Fof_add, IH, (complete_sent vs l ev Hc). reflexivity.
Qed.

Lemma sats_lookups (l : list Emit) (m : list F) (x : F) :
  sats l -> In (m, x) (byte_lookups l) -> byte_lookup_ok m = true.
Proof.
  induction l as [|e l IH]; [contradiction|]. intros [He Hs] [Hi | Hi]%in_app_or; [|auto]. clear IH Hs.
  destruct e as [gs a | i [] | i s]; try contradiction. simpl in He. destruct (kind i); try contradiction.
  destruct (Feqb (multiplicity i) F0) eqn:E0; [contradiction|]. destruct Hi as [Ei | []]. injection Ei as <- _.
  apply He. intros E. rewrite E in E0. rewrite (proj2 (Feqb_eq F0 F0) eq_refl) in E0. discriminate E0.
Qed.

(** The fields of an event as the record types them. *)
Definition event_typed (e : ByteLookupEvent) : Prop := is_u16 (ble_a e) /\ is_u8 (ble_b e) /\ is_u8 (ble_c e).

Lemma complete_events_ok (l : list Emit) (events : list ByteLookupEvent) :
  complete l events -> Forall event_typed events -> Forall event_ok events.
Proof.
  intros [Hs Hp] Ht. apply List.Forall_forall. intros e He. rewrite List.Forall_forall in Ht.
  destruct (Ht e He) as (Ha & Hb & Hc). repeat split; try apply Ha; try apply Hb; try apply Hc.
  apply (sats_lookups l _ F1 Hs). eapply Permutation_in; [symmetry; exact Hp|].
  apply (in_map event_lookup) in He. exact He.
Qed.

(** The events of a record: those counted densely, and those of its map, each
    as often as the map says. *)
Definition map_events (lookups : list (ByteLookupEvent * Z)) : list ByteLookupEvent :=
  flat_map (fun p => replicate (Z.to_nat (snd p)) (fst p)) lookups.

Lemma weight_replicate (vs : list F) (e : ByteLookupEvent) (n : nat) :
  weight vs (dense_weights (replicate n e)) = if decide (event_values e = vs) then Z.of_nat n else 0.
Proof.
  induction n as [|n IH]; [destruct (decide _); reflexivity|]. cbn [replicate dense_weights map weight].
  unfold dense_weights in IH. rewrite IH. destruct (decide _); lia.
Qed.

Lemma map_events_weight (vs : list F) (lookups : list (ByteLookupEvent * Z)) :
  Forall (fun p => 0 < snd p) lookups ->
  weight vs (dense_weights (map_events lookups)) = weight vs (map_weights lookups).
Proof.
  induction 1 as [|[e n] lookups Hn _ IH]; [reflexivity|]. cbn [map_events flat_map fst snd map_weights map weight] in *.
  unfold dense_weights, map_events, map_weights in *. rewrite map_app, weight_app, IH. f_equal.
  fold (dense_weights (replicate (Z.to_nat n) e)). rewrite weight_replicate. destruct (decide _); lia.
Qed.

Lemma map_events_length (lookups : list (ByteLookupEvent * Z)) :
  Forall (fun p => 0 < snd p) lookups -> Z.of_nat (length (map_events lookups)) = amount (map_weights lookups).
Proof.
  induction 1 as [|[e n] lookups Hn _ IH]; [reflexivity|]. unfold map_events, map_weights in *.
  cbn [flat_map map amount fst snd] in *. rewrite length_app, length_replicate. lia.
Qed.

Lemma map_events_ok (lookups : list (ByteLookupEvent * Z)) :
  Forall (fun p => 0 < snd p) lookups -> Forall event_ok (map_events lookups) ->
  Z.of_nat (length (map_events lookups)) < 2 ^ 32 -> lookups_ok lookups.
Proof.
  induction 1 as [|[e n] lookups Hn _ IH]; intros Ho Hl; [constructor|]. unfold map_events in Ho, Hl.
  cbn [flat_map fst snd] in *. rewrite length_app, length_replicate in Hl. apply Forall_app in Ho as [H1 H2].
  constructor; [|apply IH; [exact H2 | unfold map_events; lia]]. simpl. split; [|lia].
  rewrite Forall_forall in H1. apply H1, list_elem_of_In. destruct (Z.to_nat n) eqn:E; [lia | left; reflexivity].
Qed.

Lemma rows_balanced (rows : list (list Emit * list ByteLookupEvent)) (dense : list ByteLookupEvent)
    (lookups : list (ByteLookupEvent * Z)) :
  Forall (fun p => complete (fst p) (snd p)) rows -> Forall event_typed (concat (map snd rows)) ->
  Permutation (concat (map snd rows)) (dense ++ map_events lookups) -> Forall (fun p => 0 < snd p) lookups ->
  Z.of_nat (length (concat (map snd rows))) < 2 ^ 32 ->
  exists counts bm rm em,
    add_byte_lookup_events (replicate (Z.to_nat BYTE_LOOKUP_SLOTS) 0) dense = Ok counts /\
    ByteChip.generate_trace counts lookups = Ok bm /\ RangeChip.generate_trace counts lookups = Ok rm /\
    table_rows bm rm = Ok em /\ forall vs, sent vs (concat (map fst rows)) = received vs em.
Proof.
  intros Hr Ht Hp Hm Hn.
  assert (Ho : Forall event_ok (concat (map snd rows))).
  { clear -Hr Ht. induction Hr as [|[l ev] rows Hc _ IH]; [constructor|]. simpl in *. apply Forall_app in Ht as [H1 H2].
    apply Forall_app. split; [eapply complete_events_ok; eassumption | auto]. }
  rewrite (Permutation_length Hp), length_app in Hn. rewrite Hp in Ho. apply Forall_app in Ho as [Hd Hmo].
  destruct (tables_receive dense lookups Hd) as (counts & bm & rm & em & E1 & E2 & E3 & E4 & Hrec).
  - apply map_events_ok; auto. lia.
  - rewrite <- map_events_length by exact Hm. lia.
  - exists counts, bm, rm, em. repeat (split; [assumption|]). intros vs.
    rewrite Hrec, (rows_sent vs rows Hr), weight_app, <- (map_events_weight vs lookups Hm), <- weight_app.
    f_equal. unfold dense_weights. rewrite <- map_app. apply weight_perm, Permutation_map, Hp.
Qed.

(** *** From a balanced bus to satisfied lookups *)

Definition assertion_holds (e : Emit) : Prop :=
  match e with Assert gs a => guards_on gs -> holds a | _ => True end.
(** Byte lookups are local and have boolean multiplicity. *)
Definition boolean_lookup (e : Emit) : Prop :=
  match e with Send m s => kind m = KByte -> s = Local /\ is_bool (multiplicity m) | _ => True end.

Lemma total_absent (vs : list F) (messages : list (list F)) (mults : list F) :
  ~ In vs messages -> total vs messages mults = F0.
Proof.
  revert mults. induction messages as [|m messages IH]; intros [|x mults] Hn; try reflexivity. simpl in *.
  rewrite decide_False by tauto. rewrite IH by tauto. ring.
Qed.

Lemma sent_count (vs : list F) (l : list Emit) :
  Forall boolean_lookup l -> exists k, 0 <= k <= Z.of_nat (length l) /\ sent vs l = Fof k /\
    (forall m, In (Send m Local) l -> kind m = KByte -> values m = vs -> multiplicity m <> F0 -> 0 < k).
Proof.
  induction 1 as [|e l He _ (k & Hk & E & Hin)]; [exists 0; split; [simpl; lia|]; split; [reflexivity | contradiction]|].
  assert (Hskip : sent vs (e :: l) = sent vs l -> (forall m, e = Send m Local -> kind m = KByte -> values m = vs ->
            multiplicity m <> F0 -> False) -> exists k, 0 <= k <= Z.of_nat (length (e :: l)) /\ sent vs (e :: l) = Fof k /\
            (forall m, In (Send m Local) (e :: l) -> kind m = KByte -> values m = vs -> multiplicity m <> F0 -> 0 < k)).
  { intros E' Hno. exists k. split; [simpl; lia|]. split; [congruence|]. intros m [Em | Hm] H1 H2 H3; [|eauto].
    exfalso. eauto. }
  destruct e as [gs a | m [] | m s]; try (apply Hskip; [reflexivity | discriminate]).
  destruct (decide (kind m = KByte /\ values m = vs /\ multiplicity m <> F0)) as [(Ek & Ev & Hm) | Hno].
  - exists (k + 1). split; [simpl; lia|]. split; [|lia]. cbn [sent]. rewrite E, <- Fof_add. unfold on_byte_bus.
    rewrite Ek, Z.eqb_refl. rewrite bool_decide_true by exact Ev. cbn [andb].
    destruct (He Ek) as [_ [H0 | H1]]; [contradiction|]. rewrite H1, F1_of. ring.
  - apply Hskip; [|intros m' [= <-]; tauto]. cbn [sent]. unfold on_byte_bus.
    assert (E0 : (kind_num (kind m) =? kind_num KByte) = true -> kind m = KByte) by (destruct (kind m); intros; congruence || discriminate).
    destruct (kind_num (kind m) =? kind_num KByte); cbn [andb]; [|ring]. case_bool_decide; [|ring].
    destruct (Feq_dec (multiplicity m) F0) as [-> |]; [ring | tauto].
Qed.

Lemma balanced_sats (bm rm : list F) (em rows : list Emit) :
  table_rows bm rm = Ok em -> (forall vs, sent vs rows = received vs em) -> Z.of_nat (length rows) < KOALA_BEAR_ORDER ->
  Forall boolean_lookup rows -> Forall assertion_holds rows -> sats rows.
Proof.
  intros Et Hbal Hlen Hbool Ha. apply sats_Forall, List.Forall_forall. intros e He.
  rewrite List.Forall_forall in Ha. pose proof (Ha e He) as Hae. destruct e as [gs a | m s | m s]; [exact Hae | | exact I].
  simpl. destruct (kind m) eqn:Ek; try exact I. intros Hm.
  pose proof Hbool as Hbool'. rewrite List.Forall_forall in Hbool'. destruct (Hbool' _ He Ek) as [-> _].
  destruct (byte_lookup_ok (values m)) eqn:Eok; [reflexivity|]. exfalso.
  destruct (sent_count (values m) rows Hbool) as (k & Hk & Es & Hpos). specialize (Hpos m He Ek eq_refl Hm).
  pose proof (table_rows_received bm rm em Et) as Hrec.
  assert (Hnot : ~ In (values m) (table_messages tt)) by (intros Hin; apply table_messages_exact in Hin; congruence).
  assert (H1 : ~ In (values m) (byte_messages tt)) by (intros Hin; apply Hnot, in_or_app; left; exact Hin).
  assert (H2 : ~ In (values m) (range_messages tt)) by (intros Hin; apply Hnot, in_or_app; right; exact Hin).
  rewrite Hbal, Hrec, (total_absent _ _ bm H1), (total_absent _ _ rm H2) in Es.
  assert (E0 : Fof 0 = Fof k) by (rewrite <- Es, F0_of, Fof_add; reflexivity). apply Fof_inj_small in E0; lia.
Qed.

(** Every accepted message is received by a row of a table, and no other. *)
Lemma tables_exact (vs : list F) (mult : F) :
  byte_lookup_ok vs = true <->
  (exists local o, In local (ByteChip.trace tt) /\ In o ByteChip.byte_table /\
     ByteChip.receive local o mult = Ok [recv (vs, mult)]) \/
  (exists local, In local (RangeChip.trace tt) /\ RangeChip.eval local mult = [recv (vs, mult)]).
Proof.
  rewrite table_messages_exact. unfold table_messages. rewrite in_app_iff.
  assert (Hrec : forall local o, In o ByteChip.byte_table ->
            ByteChip.receive local o mult = Ok [recv (byte_values local o, mult)]).
  { intros local o [<- | [<- | [<- | [<- | [<- | [<- | []]]]]]]; reflexivity. }
  assert (Hinj : forall vs', [recv (vs', mult)] = [recv (vs, mult)] -> vs' = vs) by (intros vs' [= E]; exact E).
  split.
  - intros [H | H].
    + left. apply in_flat_map in H as (local & Hl & (o & <- & Ho)%in_map_iff). exists local, o. auto.
    + right. apply in_map_iff in H as (local & <- & Hl). exists local. auto.
  - intros [(local & o & Hl & Ho & E) | (local & Hl & E)].
    + left. rewrite (Hrec local o Ho) in E. apply Ok_inj, Hinj in E as <-. apply in_flat_map. exists local.
      split; [exact Hl|]. apply in_map, Ho.
    + right. apply in_map_iff. exists local. split; [|exact Hl]. apply Hinj. exact E.
Qed.
