(* ===== verification/ByteCounts.v ===== *)
(** * Concurrent byte lookup counts

    [ByteLookupCounts] of [crates/core/executor/src/events/byte.rs]: the chips
    of a record count their byte lookups concurrently, each writer in an array
    it takes from a pool, and the byte and range chips sum the arrays when every
    writer is done.  A writer is a sequence of atomic actions, one per critical
    section of the pool's lock or update of the writer counter; a run interleaves
    the actions of any number of writers.  The counts of a finished run are those
    of one sequential counter, at most [MAX_FREE_ARRAYS] arrays are kept, and no
    writer waits for ever.  The memory order of the atomics is not modelled. *)

From stdpp Require Import base list relations.
From Stdlib Require Import ZArith Lia.
From S2P Require Import Prelude Words Air ExecutorFacts Tables.
Open Scope Z_scope.

Definition MAX_FREE_ARRAYS : nat := 32.

Record Pool : Type := mkPool {
  free : list (list Z);
  folding : nat
}.

Record ByteLookupCounts : Type := mkCounts {
  pool : Pool;
  writers : Z
}.

Definition kept (p : Pool) : nat := (length (free p) + folding p)%nat.

(** [*into += *from], slot by slot. *)
Fixpoint add_counts (into from : list Z) : list Z :=
  match into, from with
  | x :: into, y :: from => as_u32 (x + y) :: add_counts into from
  | into, _ => into
  end.

(** [Vec::pop]. *)
Definition pop {A : Type} (l : list A) : option (A * list A) :=
  match rev l with [] => None | x :: r => Some (x, rev r) end.

Definition zero_counts (_ : unit) : list Z := replicate (Z.to_nat BYTE_LOOKUP_SLOTS) 0.

(** ** Sequential operations *)

Definition is_empty (c : ByteLookupCounts) : bool := match free (pool c) with [] => true | _ => false end.

Definition sum (c : ByteLookupCounts) : list Z := fold_left add_counts (free (pool c)) (zero_counts tt).

Fixpoint append_arrays (arrays other : list (list Z)) : Res (list (list Z)) :=
  match other with
  | [] => Ok arrays
  | counts :: other =>
      if (length arrays <? MAX_FREE_ARRAYS)%nat then append_arrays (arrays ++ [counts]) other
      else
        let* first := of_option (arrays !! 0%nat) in
        append_arrays (<[0%nat := add_counts first counts]> arrays) other
  end.

(** Methods of the counts whose names other types have too. *)
Module ByteLookupCounts.
Definition append (c other : ByteLookupCounts) : Res (ByteLookupCounts * ByteLookupCounts) :=
  let* arrays := append_arrays (free (pool c)) (free (pool other)) in
  Ok (mkCounts (mkPool arrays (folding (pool c))) (writers c),
      mkCounts (mkPool [] (folding (pool other))) (writers other)).

Definition clear (c : ByteLookupCounts) : ByteLookupCounts := mkCounts (mkPool [] 0) (writers c).

Definition clone (c : ByteLookupCounts) : ByteLookupCounts :=
  mkCounts (mkPool (if is_empty c then [] else [sum c]) 0) 0.
End ByteLookupCounts.

Definition default_counts : ByteLookupCounts := mkCounts (mkPool [] 0) 0.

(** The non-zero pairs of slot and summed count. *)
Definition serialize (c : ByteLookupCounts) : list (Z * Z) :=
  if is_empty c then []
  else List.filter (fun p => negb (snd p =? 0)) (combine (upto BYTE_LOOKUP_SLOTS) (sum c)).

Definition U32_MAX : Z := 2 ^ 32 - 1.

(** [checked_add] of every pair; [None] at the first overflow. *)
Fixpoint add_pairs (counts : list Z) (pairs : list (Z * Z)) : Res (option (list Z)) :=
  match pairs with
  | [] => Ok (Some counts)
  | (slot, c) :: pairs =>
      let* count := of_option (counts !! Z.to_nat slot) in
      if count + c <=? U32_MAX then add_pairs (<[Z.to_nat slot := count + c]> counts) pairs
      else Ok None
  end.

(** [None] is a deserialization error. *)
Definition deserialize (pairs : list (Z * Z)) : Res (option ByteLookupCounts) :=
  if existsb (fun p => BYTE_LOOKUP_SLOTS <=? fst p) pairs then Ok None
  else
    match pairs with
    | [] => Ok (Some default_counts)
    | _ =>
        let* counts := add_pairs (zero_counts tt) pairs in
        Ok (match counts with Some counts => Some (mkCounts (mkPool [counts] 0) 0) | None => None end)
    end.

(** ** Writers *)

(** Where a call of [count] is: before it starts; counted as a writer; with an
    array; with its events counted; with a kept array to add its own into; with
    the sum; with the array given back, its guard not yet dropped; done. *)
Inductive Phase : Type :=
| Idle
| Registered
| Taken (counts : list Z)
| Counted (counts : list Z)
| Adding (into counts : list Z)
| Added (into : list Z)
| Released
| Finished.

Definition with_pool (c : ByteLookupCounts) (p : Pool) : ByteLookupCounts := mkCounts p (writers c).

(** The next atomic action of a writer that counts [events]. *)
Definition writer_step (events : list ByteLookupEvent) (c : ByteLookupCounts) (ph : Phase)
  : Res (ByteLookupCounts * Phase) :=
  let p := pool c in
  match ph with
  | Idle => Ok (mkCounts p (writers c + 1), Registered)
  | Registered =>
      match pop (free p) with
      | Some (counts, rest) => Ok (with_pool c (mkPool rest (folding p)), Taken counts)
      | None => Ok (c, Taken (zero_counts tt))
      end
  | Taken counts =>
      let* counts := add_byte_lookup_events counts events in Ok (c, Counted counts)
  | Counted counts =>
      if (kept p <? MAX_FREE_ARRAYS)%nat then
        Ok (with_pool c (mkPool (free p ++ [counts]) (folding p)), Released)
      else
        match pop (free p) with
        | Some (into, rest) => Ok (with_pool c (mkPool rest (folding p + 1)), Adding into counts)
        | None => Ok (c, Counted counts)
        end
  | Adding into counts => Ok (c, Added (add_counts into counts))
  | Added into => Ok (with_pool c (mkPool (free p ++ [into]) (folding p - 1)), Released)
  | Released => Ok (mkCounts p (writers c - 1), Finished)
  | Finished => Ok (c, Finished)
  end.

(** Writers with the events they count. *)
Definition System : Type := ByteLookupCounts * list (list ByteLookupEvent * Phase).

Inductive system_step : System -> System -> Prop :=
| writer_acts (i : nat) (c c' : ByteLookupCounts) (ws : list (list ByteLookupEvent * Phase))
    (events : list ByteLookupEvent) (ph ph' : Phase) :
    ws !! i = Some (events, ph) -> ph <> Finished -> writer_step events c ph = Ok (c', ph') ->
    system_step (c, ws) (c', <[i := (events, ph')]> ws).

Definition all_finished (ws : list (list ByteLookupEvent * Phase)) : Prop := Forall (fun w => snd w = Finished) ws.

(** ** Counts modulo [2^32] *)

Definition cong32 (a b : Z) : Prop := exists k, a = b + k * 2 ^ 32.
Infix "≡₃₂" := cong32 (at level 70).

#[export] Instance cong32_equiv : Equivalence cong32.
Proof.
  split.
  - intros a. exists 0. lia.
  - intros a b [k ->]. exists (- k). lia.
  - intros a b c [k ->] [k' ->]. exists (k + k'). lia.
Qed.

#[export] Instance cong32_add : Proper (cong32 ==> cong32 ==> cong32) Z.add.
Proof. intros a a' [k ->] b b' [k' ->]. exists (k + k'). lia. Qed.

Lemma cong32_u32 (x : Z) : as_u32 x ≡₃₂ x.
Proof. exists (- (x / 2 ^ 32)). unfold as_u32, as_unsigned. pose proof (Z.div_mod x (2 ^ 32) ltac:(lia)). lia. Qed.

Lemma cong32_eq (a b : Z) : 0 <= a < 2 ^ 32 -> 0 <= b < 2 ^ 32 -> a ≡₃₂ b -> a = b.
Proof. intros Ha Hb [k E]. assert (k = 0) by lia. lia. Qed.

(** Arrays with a count for every slot. *)
Definition array_ok (l : list Z) : Prop :=
  length l = length (zero_counts tt) /\ Forall (fun x => 0 <= x < 2 ^ 32) l.

Lemma zero_counts_ok : array_ok (zero_counts tt).
Proof. split; [reflexivity|]. apply Forall_replicate. lia. Qed.

Lemma zero_counts_length : Z.of_nat (length (zero_counts tt)) = BYTE_LOOKUP_SLOTS.
Proof. unfold zero_counts. rewrite length_replicate. apply Z2Nat.id. discriminate. Qed.

Lemma zero_counts_nth (s : nat) : nth s (zero_counts tt) 0 = 0.
Proof. unfold zero_counts. rewrite nth_lookup. destruct (_ !! s) eqn:E; [|reflexivity]. apply lookup_replicate in E as [-> _]. reflexivity. Qed.

Lemma array_ext (l1 l2 : list Z) :
  array_ok l1 -> array_ok l2 -> (forall s, nth s l1 0 ≡₃₂ nth s l2 0) -> l1 = l2.
Proof.
  intros [L1 R1] [L2 R2] H. apply (nth_ext _ _ 0 0); [congruence|]. intros s Hs.
  apply cong32_eq; [| | apply H].
  - rewrite List.Forall_forall in R1. apply R1, nth_In, Hs.
  - rewrite List.Forall_forall in R2. apply R2, nth_In. congruence.
Qed.

Lemma nth_insert (l : list Z) (i s : nat) (x : Z) :
  (i < length l)%nat -> nth s (<[i := x]> l) 0 = if decide (i = s) then x else nth s l 0.
Proof.
  intros Hi. rewrite !nth_lookup, list_lookup_insert. destruct (decide (i = s)) as [-> | Hn].
  - rewrite decide_True by auto. reflexivity.
  - rewrite decide_False by tauto. reflexivity.
Qed.

Lemma as_u32_bound (x : Z) : 0 <= as_u32 x < 2 ^ 32.
Proof. apply Z.mod_pos_bound. lia. Qed.

(** How often the events hit a slot. *)
Fixpoint hits (s : nat) (events : list ByteLookupEvent) : Z :=
  match events with
  | [] => 0
  | e :: events => (if decide (Z.to_nat (byte_lookup_slot e) = s) then 1 else 0) + hits s events
  end.

Lemma hits_app (s : nat) (l1 l2 : list ByteLookupEvent) : hits s (l1 ++ l2) = hits s l1 + hits s l2.
Proof. induction l1 as [|e l1 IH]; simpl; [reflexivity|]. rewrite IH. lia. Qed.

Lemma add_events_spec (counts counts' : list Z) (events : list ByteLookupEvent) :
  array_ok counts -> add_byte_lookup_events counts events = Ok counts' ->
  array_ok counts' /\ forall s, nth s counts' 0 ≡₃₂ nth s counts 0 + hits s events.
Proof.
  revert counts. induction events as [|e events IH]; intros counts Hc E.
  - apply Ok_inj in E as <-. split; [exact Hc|]. intros s. simpl. rewrite Z.add_0_r. reflexivity.
  - simpl in E. unfold add_byte_lookup_event, add_at in E. destruct (counts !! _) as [x|] eqn:Ex; [|discriminate].
    cbn [of_option bind] in E. apply lookup_lt_Some in Ex as Hi. apply IH in E as [Hc' Hs].
    + split; [exact Hc'|]. intros s. rewrite (Hs s), nth_insert by exact Hi. simpl.
      destruct (decide (_ = s)) as [<- | Hn]; [|rewrite Z.add_0_l; reflexivity].
      rewrite cong32_u32, nth_lookup, Ex. simpl. rewrite Z.add_assoc. reflexivity.
    + destruct Hc as [Hl Hr]. split; [rewrite length_insert; exact Hl|]. apply Forall_insert; [exact Hr|]. apply as_u32_bound.
Qed.

Lemma add_events_total (counts : list Z) (events : list ByteLookupEvent) :
  array_ok counts -> Forall (fun e => 0 <= byte_lookup_slot e < BYTE_LOOKUP_SLOTS) events ->
  exists counts', add_byte_lookup_events counts events = Ok counts'.
Proof.
  intros Hc He. revert counts Hc. induction He as [|e events Hs _ IH]; intros counts Hc; [eauto|]. simpl.
  unfold add_byte_lookup_event, add_at. destruct Hc as [Hl Hr].
  destruct (counts !! Z.to_nat (byte_lookup_slot e)) as [x|] eqn:Ex.
  - cbn [of_option bind]. apply IH. split; [rewrite length_insert; exact Hl|].
    apply Forall_insert; [exact Hr | apply as_u32_bound].
  - apply lookup_ge_None in Ex. rewrite Hl in Ex. pose proof zero_counts_length. lia.
Qed.

Lemma add_counts_spec (a b : list Z) :
  array_ok a -> array_ok b -> array_ok (add_counts a b) /\ forall s, nth s (add_counts a b) 0 ≡₃₂ nth s a 0 + nth s b 0.
Proof.
  intros [La Ra] [Lb Rb]. unfold array_ok. rewrite <- La in *. clear La. revert b Lb Rb.
  induction a as [|x a IH]; intros [|y b] Lb Rb; try discriminate.
  - split; [split; auto|]. intros [|s]; reflexivity.
  - inversion Ra as [|? ? Hx Ra']; subst. inversion Rb as [|? ? Hy Rb']; subst. injection Lb as Lb.
    destruct (IH Ra' b Lb Rb') as [[L R] H]. simpl. split; [split; [lia|]|].
    + constructor; [apply as_u32_bound | exact R].
    + intros [|s]; [apply cong32_u32 | apply H].
Qed.

(** ** The invariant of a run *)

Lemma pop_some {A} (l r : list A) (x : A) : pop l = Some (x, r) -> l = r ++ [x].
Proof.
  unfold pop. destruct (rev l) as [|y l'] eqn:E; [discriminate|]. intros [= <- <-].
  rewrite <- (rev_involutive l), E. reflexivity.
Qed.

Lemma pop_none {A} (l : list A) : pop l = None -> l = [].
Proof.
  unfold pop. destruct (rev l) as [|y l'] eqn:E; [|discriminate]. intros _. rewrite <- (rev_involutive l), E. reflexivity.
Qed.

Fixpoint sum_at (s : nat) (l : list (list Z)) : Z :=
  match l with [] => 0 | a :: l => nth s a 0 + sum_at s l end.

Lemma sum_at_app (s : nat) (l1 l2 : list (list Z)) : sum_at s (l1 ++ l2) = sum_at s l1 + sum_at s l2.
Proof. induction l1 as [|a l1 IH]; simpl; [reflexivity|]. rewrite IH. lia. Qed.

Definition Writer : Type := list ByteLookupEvent * Phase.

(** What a writer holds of a slot, and what it has counted of it. *)
Definition held (s : nat) (w : Writer) : Z :=
  match snd w with
  | Taken counts | Counted counts | Added counts => nth s counts 0
  | Adding into counts => nth s into 0 + nth s counts 0
  | _ => 0
  end.
Definition recorded (s : nat) (w : Writer) : Z :=
  match snd w with Idle | Registered | Taken _ => 0 | _ => hits s (fst w) end.
Definition is_folding (w : Writer) : Z := match snd w with Adding _ _ | Added _ => 1 | _ => 0 end.
Definition is_writing (w : Writer) : Z := match snd w with Idle | Finished => 0 | _ => 1 end.

Definition phase_ok (w : Writer) : Prop :=
  match snd w with
  | Taken counts | Counted counts | Added counts => array_ok counts
  | Adding into counts => array_ok into /\ array_ok counts
  | _ => True
  end.

Fixpoint over (f : Writer -> Z) (ws : list Writer) : Z :=
  match ws with [] => 0 | w :: ws => f w + over f ws end.

Lemma over_insert (f : Writer -> Z) (ws : list Writer) (i : nat) (w w' : Writer) :
  ws !! i = Some w -> over f (<[i := w']> ws) = over f ws - f w + f w'.
Proof.
  revert i. induction ws as [|v ws IH]; intros [|i] H; try discriminate; simpl in *.
  - injection H as ->. lia.
  - rewrite (IH i H). lia.
Qed.

Lemma over_ge (f : Writer -> Z) (ws : list Writer) (i : nat) (w : Writer) :
  (forall w, 0 <= f w) -> ws !! i = Some w -> f w <= over f ws.
Proof.
  intros Hf. revert i. induction ws as [|v ws IH]; intros [|i] H; try discriminate; simpl in *.
  - injection H as ->. assert (0 <= over f ws); [|lia]. clear IH. induction ws as [|u ws IH]; simpl; [lia|]. specialize (Hf u). lia.
  - specialize (IH i H). specialize (Hf v). lia.
Qed.

Record run_inv (init : nat -> Z) (st : System) : Prop := {
  inv_free : Forall array_ok (free (pool (fst st)));
  inv_phases : Forall phase_ok (snd st);
  inv_kept : (kept (pool (fst st)) <= MAX_FREE_ARRAYS)%nat;
  inv_folding : Z.of_nat (folding (pool (fst st))) = over is_folding (snd st);
  inv_writers : writers (fst st) = over is_writing (snd st);
  inv_sum : forall s, sum_at s (free (pool (fst st))) + over (held s) (snd st)
                      ≡₃₂ init s + over (recorded s) (snd st)
}.

(** The change one action makes: arrays stay arrays, the cap holds, and what the
    pool and the writer hold grows by what the writer records. *)
Record action_ok (events : list ByteLookupEvent) (c c' : ByteLookupCounts) (ph ph' : Phase) : Prop := {
  act_free : Forall array_ok (free (pool c'));
  act_phase : phase_ok (events, ph');
  act_kept : (kept (pool c') <= MAX_FREE_ARRAYS)%nat;
  act_folding : Z.of_nat (folding (pool c')) - is_folding (events, ph')
                = Z.of_nat (folding (pool c)) - is_folding (events, ph);
  act_writers : writers c' - is_writing (events, ph') = writers c - is_writing (events, ph);
  act_sum : forall s, sum_at s (free (pool c')) + held s (events, ph') + recorded s (events, ph)
                      ≡₃₂ sum_at s (free (pool c)) + held s (events, ph) + recorded s (events, ph')
}.

Lemma action_preserves (init : nat -> Z) (i : nat) (events : list ByteLookupEvent) (c c' : ByteLookupCounts)
    (ph ph' : Phase) (ws : list Writer) :
  ws !! i = Some (events, ph) -> run_inv init (c, ws) -> action_ok events c c' ph ph' ->
  run_inv init (c', <[i := (events, ph')]> ws).
Proof.
  intros Hi [H1 H2 H3 H4 H5 H6] [A1 A2 A3 A4 A5 A6]. split; cbn [fst snd] in *; auto.
  - apply Forall_insert; assumption.
  - rewrite (over_insert _ _ _ _ _ Hi). lia.
  - rewrite (over_insert _ _ _ _ _ Hi). lia.
  - intros s. specialize (H6 s) as [k E]. specialize (A6 s) as [k' E']. rewrite !(over_insert _ _ _ _ _ Hi).
    exists (k + k'). lia.
Qed.

Ltac pool_lia := unfold kept, MAX_FREE_ARRAYS, is_folding, is_writing in *; cbn [free folding pool writers fst snd with_pool] in *;
  rewrite ?length_app in *; cbn [length] in *; lia.

Lemma take_ok (events : list ByteLookupEvent) (c c' : ByteLookupCounts) (ph' : Phase) :
  Forall array_ok (free (pool c)) -> (kept (pool c) <= MAX_FREE_ARRAYS)%nat ->
  writer_step events c Registered = Ok (c', ph') -> action_ok events c c' Registered ph'.
Proof.
  intros Hf Hk E. cbn [writer_step] in E. destruct (pop (free (pool c))) as [[counts rest]|] eqn:Ep; apply Ok_inj in E as [= <- <-].
  - apply pop_some in Ep. rewrite Ep in *. apply Forall_app in Hf as [Hr Hc]. inversion Hc as [|? ? Hc' _]; subst.
    split; try (rewrite ?Ep in *; pool_lia).
    + exact Hr.
    + exact Hc'.
    + unfold kept in *. rewrite Ep in Hk. rewrite length_app in Hk. cbn in *. lia.
    + intros s. rewrite Ep, sum_at_app. unfold held, recorded. cbn. exists 0. lia.
  - split; try pool_lia; auto.
    + exact zero_counts_ok.
    + intros s. unfold held, recorded. cbn [snd]. rewrite zero_counts_nth. exists 0. lia.
Qed.

Lemma release_ok (events : list ByteLookupEvent) (c c' : ByteLookupCounts) (counts : list Z) (ph' : Phase) :
  Forall array_ok (free (pool c)) -> array_ok counts -> (kept (pool c) <= MAX_FREE_ARRAYS)%nat ->
  writer_step events c (Counted counts) = Ok (c', ph') -> action_ok events c c' (Counted counts) ph'.
Proof.
  intros Hf Hc Hk E. cbn [writer_step] in E. destruct (Nat.ltb_spec (kept (pool c)) MAX_FREE_ARRAYS) as [Hlt | Hge].
  - apply Ok_inj in E as [= <- <-]. split; try pool_lia.
    + apply Forall_app. auto.
    + exact I.
    + intros s. cbn [pool with_pool free]. rewrite sum_at_app. unfold held, recorded. cbn. exists 0. lia.
  - destruct (pop (free (pool c))) as [[into rest]|] eqn:Ep; apply Ok_inj in E as [= <- <-].
    + apply pop_some in Ep. rewrite Ep in Hf. apply Forall_app in Hf as [Hr Hi]. inversion Hi as [|? ? Hi' _]; subst.
      split; try pool_lia.
      * exact Hr.
      * split; assumption.
      * unfold kept in *. rewrite Ep in Hk. rewrite length_app in Hk. cbn in *. lia.
      * intros s. rewrite Ep, sum_at_app. unfold held, recorded. cbn. exists 0. lia.
    + split; try pool_lia; auto. intros s. exists 0. lia.
Qed.

Lemma writer_step_ok (events : list ByteLookupEvent) (c c' : ByteLookupCounts) (ph ph' : Phase) :
  Forall array_ok (free (pool c)) -> phase_ok (events, ph) -> (kept (pool c) <= MAX_FREE_ARRAYS)%nat ->
  is_folding (events, ph) <= Z.of_nat (folding (pool c)) ->
  writer_step events c ph = Ok (c', ph') -> action_ok events c c' ph ph'.
Proof.
  intros Hf Hp Hk Hfo E. destruct ph as [| | counts | counts | into counts | into | |]; cbn [phase_ok snd] in Hp.
  - apply Ok_inj in E as [= <- <-]. split; try pool_lia; auto. intros s. exists 0. cbn. lia.
  - apply take_ok; assumption.
  - cbn [writer_step] in E. apply bind_ok in E as (counts' & E1 & E). apply Ok_inj in E as [= <- <-].
    destruct (add_events_spec counts counts' events Hp E1) as [Hc Hs]. split; try pool_lia; auto.
    intros s. unfold held, recorded. cbn [fst snd]. specialize (Hs s) as [k Es]. exists k. lia.
  - apply release_ok; assumption.
  - destruct Hp as [Hi Hc]. destruct (add_counts_spec into counts Hi Hc) as [Ha Hs]. apply Ok_inj in E as [= <- <-].
    split; try pool_lia; auto. intros s. unfold held, recorded. cbn [fst snd]. specialize (Hs s) as [k Es]. exists k. lia.
  - apply Ok_inj in E as [= <- <-]. split; try pool_lia.
    + apply Forall_app. auto.
    + exact I.
    + intros s. cbn [pool with_pool free]. rewrite sum_at_app. unfold held, recorded. cbn. exists 0. lia.
  - apply Ok_inj in E as [= <- <-]. split; try pool_lia; auto. intros s. exists 0. cbn. lia.
  - apply Ok_inj in E as [= <- <-]. split; auto. intros s. exists 0. lia.
Qed.

Lemma system_step_inv (init : nat -> Z) (st st' : System) :
  run_inv init st -> system_step st st' -> run_inv init st'.
Proof.
  intros Hinv Hst. destruct Hst as [i c c' ws events ph ph' Hi _ E]. apply (action_preserves init i events c c' ph ph' ws Hi Hinv).
  destruct Hinv as [H1 H2 H3 H4 H5 H6]. cbn [fst snd] in *. apply writer_step_ok; auto.
  - exact (proj1 (Forall_lookup _ _) H2 _ _ Hi).
  - rewrite H4. apply (over_ge is_folding ws i); [|exact Hi]. intros [ev []]; cbn; lia.
Qed.

Lemma reachable_inv (init : nat -> Z) (st st' : System) :
  run_inv init st -> rtc system_step st st' -> run_inv init st'.
Proof. intros H Hr. induction Hr as [st|st st1 st2 Hs _ IH]; [exact H|]. apply IH. eapply system_step_inv; eassumption. Qed.

(** ** Finished runs *)

(** The counts between runs: no writer holds an array. *)
Definition counts_ok (c : ByteLookupCounts) : Prop :=
  Forall array_ok (free (pool c)) /\ (length (free (pool c)) <= MAX_FREE_ARRAYS)%nat /\ folding (pool c) = 0%nat /\ writers c = 0.

Definition start (c : ByteLookupCounts) (calls : list (list ByteLookupEvent)) : System :=
  (c, map (fun events => (events, Idle)) calls).

Lemma over_idle (f : Writer -> Z) (calls : list (list ByteLookupEvent)) :
  (forall events, f (events, Idle) = 0) -> over f (map (fun events => (events, Idle)) calls) = 0.
Proof. intros Hf. induction calls as [|e calls IH]; simpl; [reflexivity|]. rewrite Hf, IH. reflexivity. Qed.

Lemma over_finished (f : Writer -> Z) (ws : list Writer) :
  all_finished ws -> (forall events, f (events, Finished) = 0) -> over f ws = 0.
Proof. intros H Hf. induction H as [|[ev ph] ws E _ IH]; simpl in *; [reflexivity|]. subst. rewrite Hf, IH. reflexivity. Qed.

Lemma start_run_inv (c : ByteLookupCounts) (calls : list (list ByteLookupEvent)) :
  counts_ok c -> run_inv (fun s => sum_at s (free (pool c))) (start c calls).
Proof.
  intros (Hf & Hl & Hfo & Hw). split; cbn [start fst snd].
  - exact Hf.
  - apply List.Forall_map, List.Forall_forall. intros; exact I.
  - unfold kept. rewrite Hfo. lia.
  - rewrite Hfo, over_idle; reflexivity.
  - rewrite Hw, over_idle; reflexivity.
  - intros s. rewrite !over_idle by reflexivity. reflexivity.
Qed.

Lemma step_calls (st st' : System) : rtc system_step st st' -> map fst (snd st') = map fst (snd st).
Proof.
  induction 1 as [st|st st1 st2 Hs _ IH]; [reflexivity|]. rewrite IH. clear IH.
  destruct Hs as [i c c' ws events ph ph' Hi _ _]. cbn [snd]. change (map fst) with (fmap (M := list) (@fst (list ByteLookupEvent) Phase)).
  rewrite list_fmap_insert. apply list_insert_id. rewrite list_lookup_fmap, Hi. reflexivity.
Qed.

Lemma fold_add_spec (l : list (list Z)) (acc : list Z) :
  Forall array_ok l -> array_ok acc ->
  array_ok (fold_left add_counts l acc) /\ forall s, nth s (fold_left add_counts l acc) 0 ≡₃₂ nth s acc 0 + sum_at s l.
Proof.
  intros Hl. revert acc. induction Hl as [|a l Ha _ IH]; intros acc Hacc; simpl.
  - split; [exact Hacc|]. intros s. rewrite Z.add_0_r. reflexivity.
  - destruct (add_counts_spec acc a Hacc Ha) as [H1 H2]. destruct (IH _ H1) as [H3 H4]. split; [exact H3|].
    intros s. rewrite (H4 s), (H2 s), Z.add_assoc. reflexivity.
Qed.

Lemma sum_spec (c : ByteLookupCounts) :
  Forall array_ok (free (pool c)) -> array_ok (sum c) /\ forall s, nth s (sum c) 0 ≡₃₂ sum_at s (free (pool c)).
Proof.
  intros H. destruct (fold_add_spec _ _ H zero_counts_ok) as [H1 H2]. split; [exact H1|]. intros s.
  unfold sum. rewrite (H2 s), zero_counts_nth. reflexivity.
Qed.

Lemma recorded_finished (s : nat) (ws : list Writer) : all_finished ws -> over (recorded s) ws = hits s (concat (map fst ws)).
Proof.
  induction 1 as [|[ev ph] ws E _ IH]; [reflexivity|]. simpl in *. subst. rewrite hits_app, IH. reflexivity.
Qed.

Definition slots_ok (events : list ByteLookupEvent) : Prop :=
  Forall (fun e => 0 <= byte_lookup_slot e < BYTE_LOOKUP_SLOTS) events.

Lemma run_counts (c c' : ByteLookupCounts) (calls : list (list ByteLookupEvent)) (ws : list Writer) :
  counts_ok c -> slots_ok (concat calls) -> rtc system_step (start c calls) (c', ws) -> all_finished ws ->
  counts_ok c' /\ add_byte_lookup_events (sum c) (concat calls) = Ok (sum c').
Proof.
  intros Hc Hs Hr Hfin. pose proof (reachable_inv _ _ _ (start_run_inv c calls Hc) Hr) as [H1 H2 H3 H4 H5 H6].
  cbn [fst snd] in *. pose proof (step_calls _ _ Hr) as Hcalls. cbn [start snd] in Hcalls.
  rewrite map_map, map_id in Hcalls.
  rewrite (over_finished _ _ Hfin) in H4 by reflexivity. rewrite (over_finished _ _ Hfin) in H5 by reflexivity.
  assert (Hok : counts_ok c') by (repeat split; auto; unfold kept in H3; lia). split; [exact Hok|].
  destruct (sum_spec c (proj1 Hc)) as [S1 S2]. destruct (sum_spec c' H1) as [S1' S2'].
  destruct (add_events_total (sum c) (concat calls) S1 Hs) as [r Er]. rewrite Er. f_equal.
  destruct (add_events_spec _ _ _ S1 Er) as [R1 R2]. apply array_ext; [exact R1 | exact S1'|].
  intros s. specialize (H6 s). rewrite (over_finished (held s)), recorded_finished, Hcalls, Z.add_0_r in H6 by auto.
  rewrite (R2 s), (S2 s), (S2' s), H6. reflexivity.
Qed.

(** ** Progress *)

Definition rank (w : Writer) : Z :=
  match snd w with
  | Idle => 7 | Registered => 6 | Taken _ => 5 | Counted _ => 4 | Adding _ _ => 3 | Added _ => 2 | Released => 1 | Finished => 0
  end.

(** An action makes progress or is a writer waiting for an array. *)
Lemma step_rank (st st' : System) :
  system_step st st' -> st' = st \/ over rank (snd st') < over rank (snd st).
Proof.
  intros Hs. destruct Hs as [i c c' ws events ph ph' Hi Hn E]. cbn [snd]. rewrite (over_insert _ _ _ _ _ Hi).
  destruct ph; cbn [writer_step] in E; try (apply Ok_inj in E as [= <- <-]; right; cbn; lia); try congruence.
  - right. destruct (pop _) as [[]|]; apply Ok_inj in E as [= <- <-]; cbn; lia.
  - right. apply bind_ok in E as (? & _ & E). apply Ok_inj in E as [= <- <-]. cbn. lia.
  - destruct (_ <? _)%nat; [apply Ok_inj in E as [= <- <-]; right; cbn; lia|].
    destruct (pop _) as [[]|]; apply Ok_inj in E as [= <- <-]; [right; cbn; lia|].
    left. rewrite (list_insert_id ws i _ Hi). reflexivity.
Qed.

(** The phases from which every action makes progress. *)
Definition moving (ph : Phase) : Prop := match ph with Counted _ | Finished => False | _ => True end.

#[export] Instance moving_dec (ph : Phase) : Decision (moving ph).
Proof. destruct ph; simpl; apply _. Defined.
#[export] Instance unfinished_dec (ph : Phase) : Decision (ph <> Finished).
Proof. destruct ph; (right; tauto) || (left; discriminate). Defined.

Lemma moving_step (c : ByteLookupCounts) (ws : list Writer) (i : nat) (events : list ByteLookupEvent) (ph : Phase) :
  ws !! i = Some (events, ph) -> moving ph -> phase_ok (events, ph) -> slots_ok events ->
  exists st', system_step (c, ws) st' /\ over rank (snd st') < over rank ws.
Proof.
  intros Hi Hm Hp Hs.
  assert (Hgo : exists c' ph', writer_step events c ph = Ok (c', ph') /\ rank (events, ph') < rank (events, ph)).
  { destruct ph; try contradiction; cbn [writer_step]; try (eexists _, _; split; [reflexivity | cbn; lia]).
    - destruct (pop _) as [[]|]; eexists _, _; (split; [reflexivity | cbn; lia]).
    - destruct (add_events_total counts events Hp Hs) as [r ->]. eexists _, _. split; [reflexivity | cbn; lia]. }
  destruct Hgo as (c' & ph' & E & Hr). eexists. split.
  - eapply writer_acts; [exact Hi | intros -> ; exact Hm | exact E].
  - cbn [snd]. rewrite (over_insert _ _ _ _ _ Hi). lia.
Qed.

Lemma over_zero (f : Writer -> Z) (ws : list Writer) : Forall (fun w => f w = 0) ws -> over f ws = 0.
Proof. induction 1 as [|w ws E _ IH]; simpl; [reflexivity|]. lia. Qed.

(** A writer that waits when nobody else moves can go on: no array is away. *)
Lemma waiting_step (init : nat -> Z) (c : ByteLookupCounts) (ws : list Writer) (i : nat) (events : list ByteLookupEvent)
    (counts : list Z) :
  run_inv init (c, ws) -> Forall (fun w => ~ moving (snd w)) ws -> ws !! i = Some (events, Counted counts) ->
  exists st', system_step (c, ws) st' /\ over rank (snd st') < over rank ws.
Proof.
  intros [_ _ _ Hfo _ _] Hstill Hi. cbn [fst snd] in *.
  assert (H0 : folding (pool c) = 0%nat).
  { rewrite over_zero in Hfo; [lia|]. eapply Forall_impl; [exact Hstill|]. intros [ev []] H; simpl in *; tauto. }
  assert (Hgo : exists c' ph', writer_step events c (Counted counts) = Ok (c', ph') /\
                  rank (events, ph') < rank (events, Counted counts)).
  { cbn [writer_step]. unfold kept. rewrite H0, Nat.add_0_r.
    destruct (Nat.ltb_spec (length (free (pool c))) MAX_FREE_ARRAYS); [eexists _, _; split; [reflexivity | cbn; lia]|].
    destruct (pop (free (pool c))) as [[]|] eqn:Ep; [eexists _, _; split; [reflexivity | cbn; lia]|].
    apply pop_none in Ep. rewrite Ep in H. unfold MAX_FREE_ARRAYS in H. cbn in H. lia. }
  destruct Hgo as (c' & ph' & E & Hr). eexists. split.
  - eapply writer_acts; [exact Hi | discriminate | exact E].
  - cbn [snd]. rewrite (over_insert _ _ _ _ _ Hi). lia.
Qed.

Lemma run_progress (c c' : ByteLookupCounts) (calls : list (list ByteLookupEvent)) (ws : list Writer) :
  counts_ok c -> slots_ok (concat calls) -> rtc system_step (start c calls) (c', ws) -> ~ all_finished ws ->
  exists st', system_step (c', ws) st' /\ over rank (snd st') < over rank ws.
Proof.
  intros Hc Hs Hr Hn. pose proof (reachable_inv _ _ _ (start_run_inv c calls Hc) Hr) as Hinv.
  assert (Hcalls : Forall (fun w => slots_ok (fst w)) ws).
  { pose proof (step_calls _ _ Hr) as E. cbn [start snd] in E. rewrite map_map, map_id in E. rewrite <- E in Hs. clear -Hs.
    induction ws as [|w ws IH]; constructor; cbn in Hs; apply Forall_app in Hs as [H1 H2]; auto. }
  destruct (decide (Exists (fun w => moving (snd w)) ws)) as [Hm | Hm].
  - apply Exists_exists in Hm as ([events ph] & Hin & Hm). apply list_elem_of_lookup in Hin as [i Hi].
    apply (moving_step c' ws i events ph Hi Hm).
    + exact (proj1 (Forall_lookup _ _) (inv_phases _ _ Hinv) _ _ Hi).
    + exact (proj1 (Forall_lookup _ _) Hcalls _ _ Hi).
  - apply not_Exists_Forall in Hm; [|apply _].
    destruct (decide (Exists (fun w => snd w <> Finished) ws)) as [Hx | Hx].
    + apply Exists_exists in Hx as ([events ph] & Hin & Hne). apply list_elem_of_lookup in Hin as [i Hi].
      pose proof (proj1 (Forall_lookup _ _) Hm _ _ Hi) as Hst. destruct ph; simpl in *; try tauto; try congruence.
      eapply waiting_step; eassumption.
    + exfalso. apply Hn. apply not_Exists_Forall in Hx; [|apply _]. eapply Forall_impl; [exact Hx|].
      intros [ev []] H; simpl in *; auto; exfalso; apply H; discriminate.
Qed.

Lemma rank_nonneg (ws : list Writer) : 0 <= over rank ws.
Proof. induction ws as [|[ev []] ws IH]; cbn in *; lia. Qed.

Lemma start_rank (c : ByteLookupCounts) (calls : list (list ByteLookupEvent)) :
  over rank (snd (start c calls)) = 7 * Z.of_nat (length calls).
Proof. cbn [start snd]. induction calls as [|e calls IH]; [reflexivity|]. cbn [map over length]. rewrite IH. cbn [rank snd]. lia. Qed.

Lemma all_finished_dec (ws : list Writer) : all_finished ws \/ ~ all_finished ws.
Proof.
  destruct (decide (Forall (fun w => ~ snd w <> Finished) ws)) as [Hf | Hf]; [left | right; intros Hall; apply Hf];
    (eapply Forall_impl; [eassumption|]); [|simpl; auto].
  intros [ev []] H; simpl in *; auto; exfalso; apply H; discriminate.
Qed.

(** From every state of a run the writers can all finish. *)
Lemma run_finishes (c c' : ByteLookupCounts) (calls : list (list ByteLookupEvent)) (ws : list Writer) :
  counts_ok c -> slots_ok (concat calls) -> rtc system_step (start c calls) (c', ws) ->
  exists c'' ws', rtc system_step (c', ws) (c'', ws') /\ all_finished ws'.
Proof.
  intros Hc Hs. remember (Z.to_nat (over rank ws)) as n eqn:En. revert c' ws En.
  induction n as [n IH] using lt_wf_ind. intros c' ws -> Hr.
  destruct (all_finished_dec ws) as [Hf | Hf].
  - exists c', ws. split; [apply rtc_refl | exact Hf].
  - destruct (run_progress c c' calls ws Hc Hs Hr Hf) as ([c1 ws1] & Hst & Hlt).
    cbn [snd] in Hlt. pose proof (rank_nonneg ws1).
    destruct (IH (Z.to_nat (over rank ws1)) ltac:(lia) c1 ws1 eq_refl) as (c2 & ws2 & Hr2 & Hf2).
    { eapply rtc_r; eassumption. }
    exists c2, ws2. split; [eapply rtc_l; eassumption | exact Hf2].
Qed.

(** ** Serialization *)

Lemma add_pairs_suffix (l1 l2 : list Z) :
  Forall (fun x => 0 <= x < 2 ^ 32) l2 ->
  add_pairs (l1 ++ replicate (length l2) 0)
    (List.filter (fun p => negb (snd p =? 0)) (combine (map Z.of_nat (seq (length l1) (length l2))) l2))
  = Ok (Some (l1 ++ l2)).
Proof.
  intros H. revert l1. induction H as [|x l2 Hx _ IH]; intros l1; [reflexivity|].
  cbn [length seq map combine List.filter snd replicate]. specialize (IH (l1 ++ [x])).
  rewrite length_app, Nat.add_1_r, <- !app_assoc in IH. cbn [app] in IH.
  destruct (Z.eqb_spec x 0) as [-> | Hn]; cbn [negb]; [exact IH|].
  cbn [add_pairs]. rewrite Nat2Z.id, list_lookup_middle by reflexivity. cbn [of_option bind].
  destruct (Z.leb_spec (0 + x) U32_MAX) as [_ | Hc]; [|unfold U32_MAX in Hc; lia].
  rewrite insert_app_r_alt by lia. rewrite Nat.sub_diag. exact IH.
Qed.

Lemma serialize_slots (l : list Z) :
  existsb (fun p => BYTE_LOOKUP_SLOTS <=? fst p) (List.filter (fun p => negb (snd p =? 0)) (combine (upto BYTE_LOOKUP_SLOTS) l)) = false.
Proof.
  apply not_true_iff_false. intros H. apply existsb_exists in H as ([i x] & Hin & Hi). apply List.filter_In in Hin as [Hin _].
  apply in_combine_l, upto_in in Hin. apply Z.leb_le in Hi. simpl in Hi. lia.
Qed.

Lemma add_pairs_sized (n : nat) (l : list Z) :
  length l = n -> Forall (fun x => 0 <= x < 2 ^ 32) l ->
  add_pairs (replicate n 0) (List.filter (fun p => negb (snd p =? 0)) (combine (map Z.of_nat (seq 0 n)) l)) = Ok (Some l).
Proof. intros <- Hr. exact (add_pairs_suffix [] l Hr). Qed.

Lemma add_pairs_all (l : list Z) :
  array_ok l ->
  add_pairs (zero_counts tt) (List.filter (fun p => negb (snd p =? 0)) (combine (upto BYTE_LOOKUP_SLOTS) l)) = Ok (Some l).
Proof.
  intros [Hl Hr]. apply (add_pairs_sized (Z.to_nat BYTE_LOOKUP_SLOTS)); [|exact Hr].
  rewrite Hl. apply length_replicate.
Qed.

Lemma sum_single (l : list Z) : array_ok l -> sum (mkCounts (mkPool [l] 0) 0) = l.
Proof.
  intros Hl. destruct (sum_spec (mkCounts (mkPool [l] 0) 0)) as [H1 H2]; [repeat constructor; apply Hl|].
  apply array_ext; [exact H1 | exact Hl|]. intros s. rewrite (H2 s). simpl. rewrite Z.add_0_r. reflexivity.
Qed.

Lemma add_pairs_nil (l : list Z) :
  array_ok l -> List.filter (fun p => negb (snd p =? 0)) (combine (upto BYTE_LOOKUP_SLOTS) l) = [] -> l = zero_counts tt.
Proof.
  intros Hl E. pose proof (add_pairs_all l Hl) as H. rewrite E in H. simpl in H. apply Ok_inj in H. congruence.
Qed.

Lemma serialize_roundtrip (c : ByteLookupCounts) :
  counts_ok c -> exists c', deserialize (serialize c) = Ok (Some c') /\ counts_ok c' /\ sum c' = sum c.
Proof.
  intros (Hf & _). assert (Hd : counts_ok default_counts) by (repeat split; cbn; auto; lia).
  assert (Hz : sum default_counts = zero_counts tt) by reflexivity.
  unfold serialize. destruct (is_empty c) eqn:Ee.
  - exists default_counts. split; [reflexivity|]. split; [exact Hd|]. unfold is_empty in Ee. unfold sum.
    destruct (free (pool c)); [reflexivity | discriminate].
  - destruct (sum_spec c Hf) as [Hs _]. unfold deserialize. rewrite serialize_slots.
    destruct (List.filter _ _) as [|p ps] eqn:Ep.
    + exists default_counts. split; [reflexivity|]. split; [exact Hd|]. rewrite Hz. symmetry. apply add_pairs_nil; assumption.
    + rewrite <- Ep, add_pairs_all by exact Hs. cbn [bind]. eexists. split; [reflexivity|].
      split; [|apply sum_single, Hs]. split; [constructor; [exact Hs | constructor]|].
      split; [cbn; unfold MAX_FREE_ARRAYS; lia | split; reflexivity].
Qed.

(** The total of the pairs of a slot. *)
Fixpoint pair_sum (s : nat) (pairs : list (Z * Z)) : Z :=
  match pairs with
  | [] => 0
  | (slot, c) :: pairs => (if decide (Z.to_nat slot = s) then c else 0) + pair_sum s pairs
  end.

Lemma pair_sum_nonneg (s : nat) (pairs : list (Z * Z)) : Forall (fun p => 0 <= snd p) pairs -> 0 <= pair_sum s pairs.
Proof. induction 1 as [|[i c] pairs Hc _ IH]; simpl in *; [lia|]. destruct (decide _); lia. Qed.

Lemma add_pairs_cases (counts : list Z) (pairs : list (Z * Z)) :
  Forall (fun p => (Z.to_nat (fst p) < length counts)%nat /\ 0 <= snd p) pairs ->
  ((forall s, nth s counts 0 + pair_sum s pairs <= U32_MAX) ->
   exists counts', add_pairs counts pairs = Ok (Some counts') /\ length counts' = length counts /\
     forall s, nth s counts' 0 = nth s counts 0 + pair_sum s pairs) /\
  ((exists s, nth s counts 0 <= U32_MAX < nth s counts 0 + pair_sum s pairs) -> add_pairs counts pairs = Ok None).
Proof.
  intros H. revert counts H. induction pairs as [|[i c] pairs IH]; intros counts H.
  - split; [intros _; exists counts; repeat split; intros; simpl; lia | intros (s & Hs); simpl in Hs; lia].
  - inversion H as [|? ? [Hi Hc] Hp]; subst. cbn [fst snd] in *. cbn [add_pairs].
    destruct (counts !! Z.to_nat i) as [x|] eqn:Ex; [|apply lookup_ge_None in Ex; lia]. cbn [of_option bind].
    assert (En : nth (Z.to_nat i) counts 0 = x) by (rewrite nth_lookup, Ex; reflexivity).
    assert (Hpos : forall s, 0 <= pair_sum s pairs).
    { intros s. apply pair_sum_nonneg. eapply Forall_impl; [exact Hp|]. simpl. tauto. }
    destruct (IH (<[Z.to_nat i := x + c]> counts)) as [IH1 IH2]; [rewrite length_insert; exact Hp|].
    assert (Hn : forall s, nth s (<[Z.to_nat i := x + c]> counts) 0 + pair_sum s pairs = nth s counts 0 + pair_sum s ((i, c) :: pairs)).
    { intros s. rewrite nth_insert by exact Hi. simpl. destruct (decide (_ = s)) as [<- |]; lia. }
    destruct (Z.leb_spec (x + c) U32_MAX) as [Hle | Hgt]; split.
    + intros Hall. destruct IH1 as (c' & E & Hl & Hs); [intros s; rewrite Hn; apply Hall|].
      exists c'. rewrite length_insert in Hl. repeat split; auto. intros s. rewrite Hs. apply Hn.
    + intros (s & Hs1 & Hs2). apply IH2. exists s. rewrite Hn. split; [|exact Hs2]. rewrite nth_insert by exact Hi.
      destruct (decide _); lia.
    + intros Hall. specialize (Hall (Z.to_nat i)). simpl in Hall. rewrite decide_True in Hall by reflexivity.
      specialize (Hpos (Z.to_nat i)). lia.
    + reflexivity.
Qed.

Lemma pair_sum_absent (s : nat) (pairs : list (Z * Z)) : Forall (fun p => Z.to_nat (fst p) <> s) pairs -> pair_sum s pairs = 0.
Proof. induction 1 as [|[i c] pairs Hn _ IH]; [reflexivity|]. simpl in *. rewrite decide_False by exact Hn. lia. Qed.

Lemma pair_sum_dec (pairs : list (Z * Z)) :
  (exists s, U32_MAX < pair_sum s pairs) \/ (forall s, pair_sum s pairs <= U32_MAX).
Proof.
  destruct (decide (Exists (fun p => U32_MAX < pair_sum (Z.to_nat (fst p)) pairs) pairs)) as [Hx | Hx].
  - left. apply Exists_exists in Hx as (p & _ & Hp). eauto.
  - right. intros s. apply not_Exists_Forall in Hx; [|apply _].
    destruct (decide (Exists (fun p => Z.to_nat (fst p) = s) pairs)) as [Hs | Hs].
    + apply Exists_exists in Hs as (p & Hin & <-). rewrite Forall_forall in Hx. specialize (Hx p Hin). simpl in Hx. lia.
    + apply not_Exists_Forall in Hs; [|apply _]. rewrite pair_sum_absent by exact Hs. unfold U32_MAX. lia.
Qed.

(** Deserialization fails exactly on a slot out of range or a total that does
    not fit, and never panics. *)
Lemma deserialize_cases (pairs : list (Z * Z)) :
  Forall (fun p => 0 <= fst p /\ 0 <= snd p) pairs ->
  (deserialize pairs = Ok None <->
   (exists p, In p pairs /\ BYTE_LOOKUP_SLOTS <= fst p) \/ (exists s, U32_MAX < pair_sum s pairs)) /\
  deserialize pairs <> Panic.
Proof.
  intros Ht. unfold deserialize. destruct (existsb _ pairs) eqn:Ee.
  - split; [|discriminate]. split; [intros _|reflexivity]. left. apply existsb_exists in Ee as (p & Hin & Hp).
    exists p. apply Z.leb_le in Hp. auto.
  - assert (Hin : forall p, In p pairs -> fst p < BYTE_LOOKUP_SLOTS).
    { intros p Hp. apply Z.nle_gt. intros Hle. assert (existsb (fun p => BYTE_LOOKUP_SLOTS <=? fst p) pairs = true); [|congruence].
      apply existsb_exists. exists p. rewrite Z.leb_le. auto. }
    destruct pairs as [|p0 pairs0] eqn:Epairs.
    { split; [|discriminate]. split; [discriminate|]. intros [(p & [] & _) | (s & Hs)]. simpl in Hs. unfold U32_MAX in Hs. lia. }
    rewrite <- Epairs in *. pose proof zero_counts_length as Lz.
    destruct (add_pairs_cases (zero_counts tt) pairs) as [H1 H2].
    { apply List.Forall_forall. intros p Hp. rewrite List.Forall_forall in Ht. destruct (Ht p Hp). specialize (Hin p Hp). lia. }
    destruct (pair_sum_dec pairs) as [(s & Hs) | Hall].
    + rewrite H2 by (exists s; rewrite zero_counts_nth; unfold U32_MAX in *; lia). cbn [bind].
      split; [|discriminate]. split; [eauto | reflexivity].
    + destruct H1 as (c' & E & _); [intros s; rewrite zero_counts_nth; apply Hall|]. rewrite E. cbn [bind].
      split; [|discriminate]. split; [discriminate|].
      intros [(p & Hp & Hge) | (s & Hs)]; [specialize (Hin p Hp); lia | specialize (Hall s); lia].
Qed.

(** ** Merging records *)


Lemma append_arrays_spec (arrays other : list (list Z)) :
  Forall array_ok arrays -> Forall array_ok other -> (length arrays <= MAX_FREE_ARRAYS)%nat ->
  exists r, append_arrays arrays other = Ok r /\ Forall array_ok r /\ (length r <= MAX_FREE_ARRAYS)%nat /\
    forall s, sum_at s r ≡₃₂ sum_at s arrays + sum_at s other.
Proof.
  intros Ha Ho. revert arrays Ha. induction Ho as [|counts other Hc _ IH]; intros arrays Ha Hl.
  - exists arrays. repeat split; auto. intros s. simpl. rewrite Z.add_0_r. reflexivity.
  - cbn [append_arrays sum_at]. destruct (Nat.ltb_spec (length arrays) MAX_FREE_ARRAYS) as [Hlt | Hge].
    + destruct (IH (arrays ++ [counts])) as (r & E & Hr & Hlr & Hs); [apply Forall_app; auto | rewrite length_app; cbn; lia|].
      exists r. repeat split; auto. intros s. rewrite (Hs s), sum_at_app. simpl. exists 0. lia.
    + destruct arrays as [|first arrays]; [unfold MAX_FREE_ARRAYS in Hge; cbn in Hge; lia|].
      cbn [lookup list_lookup of_option bind insert list_insert]. inversion Ha as [|? ? Hf Ha']; subst.
      destruct (add_counts_spec first counts Hf Hc) as [Hsum Hs1].
      destruct (IH (add_counts first counts :: arrays)) as (r & E & Hr & Hlr & Hs); [constructor; assumption | exact Hl|].
      exists r. repeat split; auto. intros s. rewrite (Hs s). simpl. rewrite (Hs1 s). exists 0. lia.
Qed.

Lemma append_spec (c other : ByteLookupCounts) :
  counts_ok c -> counts_ok other ->
  exists c' other', ByteLookupCounts.append c other = Ok (c', other') /\ counts_ok c' /\
    sum c' = add_counts (sum c) (sum other) /\ sum other' = zero_counts tt.
Proof.
  intros (Hf & Hl & Hfo & Hw) (Hf2 & _). destruct (append_arrays_spec _ _ Hf Hf2 Hl) as (r & E & Hr & Hlr & Hs).
  unfold ByteLookupCounts.append. rewrite E. cbn [bind]. eexists _, _. split; [reflexivity|]. split; [repeat split; assumption|].
  split; [|reflexivity]. destruct (sum_spec c Hf) as [S1 S2]. destruct (sum_spec other Hf2) as [T1 T2].
  destruct (add_counts_spec _ _ S1 T1) as [U1 U2].
  destruct (sum_spec (mkCounts (mkPool r (folding (pool c))) (writers c)) Hr) as [V1 V2].
  apply array_ext; [exact V1 | exact U1|]. intros s. rewrite (V2 s), (U2 s). cbn [pool free]. rewrite (Hs s), (S2 s), (T2 s).
  reflexivity.
Qed.

Lemma clone_spec (c : ByteLookupCounts) : counts_ok c -> counts_ok (ByteLookupCounts.clone c) /\ sum (ByteLookupCounts.clone c) = sum c.
Proof.
  intros (Hf & _). destruct (sum_spec c Hf) as [Hs _]. unfold ByteLookupCounts.clone. destruct (is_empty c) eqn:E.
  - split; [repeat split; cbn; auto; unfold MAX_FREE_ARRAYS; lia|]. unfold sum, is_empty in *.
    destruct (free (pool c)); [reflexivity | discriminate].
  - split; [|apply sum_single, Hs]. split; [constructor; [exact Hs | constructor]|].
    split; [cbn; unfold MAX_FREE_ARRAYS; lia | split; reflexivity].
Qed.
