(* ===== verification/Machine.v ===== *)
(** * The machine: satisfying rows with balanced buses run the program

    The instruction rows of a shard, with the rows of the two bump chips and
    the program table, form a machine: rows exchange states on the state bus
    and records on the memory bus, and look instructions up in the program.
    If every row satisfies its constraints and the buses are balanced by an
    initial and a final state and by initial and final records, the rows are,
    in some order, the steps of the executor from the initial to the final
    state ([machine_runs]). *)

From stdpp Require Import base gmap list.
From Stdlib Require Import ZArith Lia.
From S2P Require Import Prelude Words Isa Field Air AirFacts Operations Compare Bitwise Mul.
From S2P Require Import Adapter AdapterFacts Row Readers AluChips AluChipFacts DivRem DivRemFacts.
From S2P Require Import Address MemoryChips MemoryChipFacts ControlChips ControlChipFacts ShiftChips ShiftFacts AluX0 Padding.
From S2P Require Import Bump MemoryArgument Executor.
Open Scope Z_scope.

(** ** The program table ([program/trusted.rs]) *)
Module ProgramChip.
(** Row [idx] of the preprocessed trace; padding repeats row 0. *)
Definition preprocessed_row (program : Program) (idx : nat) : Res (list F * InstructionCols.Cols) :=
  let idx := if (length (instructions program) <=? idx)%nat then 0%nat else idx in
  let pc := as_u64 (pc_base program + Z.of_nat idx * 4) in
  assert! (pc <? 2 ^ 48) ;;
  let* instruction := of_option (instructions program !! idx) in
  Ok (map Fof (StateBumpChip.pc_limbs pc), InstructionCols.populate instruction).

Definition eval (prep : list F * InstructionCols.Cols) (multiplicity : F) : list Emit :=
  receive_program (fst prep) (snd prep) multiplicity.
End ProgramChip.

(** ** The rows of the instruction chips *)
Inductive ChipRow : Type :=
| RAdd (c : AddChip.Cols) | RSub (c : SubChip.Cols) | RAddi (c : AddiChip.Cols)
| RAddw (c : AddwChip.Cols) | RSubw (c : SubwChip.Cols) | RMul (c : MulChip.Cols)
| RBitwise (c : BitwiseChip.Cols) | RLt (c : LtChip.Cols) | RDivRem (c : DivRemChip.Cols)
| RShiftLeft (c : ShiftLeftChip.Cols) | RShiftRight (c : ShiftRightChip.Cols)
| RAluX0 (c : AluX0Chip.Cols) | RLoadByte (c : LoadByteChip.Cols)
| RLoadHalf (c : LoadHalfChip.Cols) | RLoadWord (c : LoadWordChip.Cols)
| RLoadDouble (c : LoadDoubleChip.Cols) | RLoadX0 (c : LoadX0Chip.Cols)
| RStoreByte (c : StoreByteChip.Cols) | RStoreHalf (c : StoreHalfChip.Cols)
| RStoreWord (c : StoreWordChip.Cols) | RStoreDouble (c : StoreDoubleChip.Cols)
| RBranch (c : BranchChip.Cols) | RJal (c : JalChip.Cols) | RJalr (c : JalrChip.Cols)
| RUType (c : UTypeChip.Cols).

Definition row_eval (rrs : MajorOpcodes) (cfg : Config) (r : ChipRow) : Res (list Emit) :=
  match r with
  | RAdd c => AddChip.eval rrs cfg c
  | RSub c => SubChip.eval rrs cfg c
  | RAddi c => AddiChip.eval rrs cfg c
  | RAddw c => AddwChip.eval rrs cfg c
  | RSubw c => SubwChip.eval rrs cfg c
  | RMul c => MulChip.eval rrs cfg c
  | RBitwise c => BitwiseChip.eval rrs cfg c
  | RLt c => LtChip.eval rrs cfg c
  | RDivRem c => DivRemChip.eval c rrs cfg
  | RShiftLeft c => ShiftLeftChip.eval rrs cfg c
  | RShiftRight c => ShiftRightChip.eval rrs cfg c
  | RAluX0 c => AluX0Chip.eval rrs cfg c
  | RLoadByte c => LoadByteChip.eval rrs cfg c
  | RLoadHalf c => LoadHalfChip.eval rrs cfg c
  | RLoadWord c => LoadWordChip.eval rrs cfg c
  | RLoadDouble c => LoadDoubleChip.eval rrs cfg c
  | RLoadX0 c => LoadX0Chip.eval rrs cfg c
  | RStoreByte c => StoreByteChip.eval rrs cfg c
  | RStoreHalf c => StoreHalfChip.eval rrs cfg c
  | RStoreWord c => StoreWordChip.eval rrs cfg c
  | RStoreDouble c => StoreDoubleChip.eval rrs cfg c
  | RBranch c => BranchChip.eval rrs cfg c
  | RJal c => JalChip.eval rrs cfg c
  | RJalr c => JalrChip.eval rrs cfg c
  | RUType c => UTypeChip.eval rrs cfg c
  end.

(** The value of [is_real] in a row. *)
Definition row_is_real (r : ChipRow) : F :=
  match r with
  | RAdd c => AddChip.is_real c
  | RSub c => SubChip.is_real c
  | RAddi c => AddiChip.is_real c
  | RAddw c => AddwChip.is_real c
  | RSubw c => SubwChip.is_real c
  | RMul c => fold_right Fadd F0 (MulChip.flags c)
  | RBitwise c => fold_right Fadd F0 (BitwiseChip.flags c)
  | RLt c => fold_right Fadd F0 (LtChip.flags c)
  | RDivRem c => DivRemChip.is_real c
  | RShiftLeft c => sum_flags (ShiftLeftChip.flags c)
  | RShiftRight c => sum_flags (ShiftRightChip.flags c)
  | RAluX0 c => AluX0Chip.is_real c
  | RLoadByte c => sum_flags (LoadByteChip.flags c)
  | RLoadHalf c => sum_flags (LoadHalfChip.flags c)
  | RLoadWord c => sum_flags (LoadWordChip.flags c)
  | RLoadDouble c => LoadDoubleChip.is_real c
  | RLoadX0 c => sum_flags (LoadX0Chip.flags c)
  | RStoreByte c => StoreByteChip.is_real c
  | RStoreHalf c => StoreHalfChip.is_real c
  | RStoreWord c => StoreWordChip.is_real c
  | RStoreDouble c => StoreDoubleChip.is_real c
  | RBranch c => sum_flags (BranchChip.flags c)
  | RJal c => JalChip.is_real c
  | RJalr c => JalrChip.is_real c
  | RUType c => UTypeChip.is_real c
  end.

(** The fixed lengths of the arrays in a row. *)
Definition row_shape (r : ChipRow) : Prop :=
  match r with
  | RMul c => mul_shape (MulChip.mul_operation c)
  | RBitwise c =>
      length (BitwiseOperation.result (BitwiseU16Operation.bitwise_operation (BitwiseChip.bitwise_operation c))) = 8%nat
  | RDivRem c => div_shape c
  | _ => True
  end.

Lemma chip_row_steps (rrs : MajorOpcodes) (cfg : Config) (r : ChipRow) (row : list Emit) :
  row_eval rrs cfg r = Ok row -> row_is_real r = F1 -> row_shape r -> sats row -> step_row row.
Proof.
  intros E Hr Hsh Hs. destruct r; cbn [row_eval row_is_real row_shape] in *.
  - eapply add_chip_steps; eassumption.
  - eapply sub_chip_steps; eassumption.
  - eapply addi_chip_steps; eassumption.
  - eapply addw_chip_steps; eassumption.
  - eapply subw_chip_steps; eassumption.
  - eapply mul_chip_steps; eassumption.
  - eapply bitwise_chip_steps; eassumption.
  - eapply lt_chip_steps; eassumption.
  - eapply divrem_chip_steps; eassumption.
  - eapply shift_left_chip_steps; eassumption.
  - eapply shift_right_chip_steps; eassumption.
  - eapply alu_x0_chip_steps; eassumption.
  - eapply load_byte_chip_steps; eassumption.
  - eapply load_half_chip_steps; eassumption.
  - eapply load_word_chip_steps; eassumption.
  - eapply load_double_chip_steps; eassumption.
  - eapply load_x0_chip_steps; eassumption.
  - eapply store_byte_chip_steps; eassumption.
  - eapply store_half_chip_steps; eassumption.
  - eapply store_word_chip_steps; eassumption.
  - eapply store_double_chip_steps; eassumption.
  - eapply branch_chip_steps; eassumption.
  - eapply jal_chip_steps; eassumption.
  - eapply jalr_chip_steps; eassumption.
  - eapply utype_chip_steps; eassumption.
Qed.

(** A satisfying row is real or puts nothing on the buses. *)
Ltac idle_chip eval E :=
  unfold eval in E; cbv zeta in E;
  repeat match type of E with context [match ?x with (_, _) => _ end] =>
    let p := fresh "p" in set (p := x) in E; rewrite (surjective_pairing p) in E; cbv beta iota in E; subst p
  end;
  chip_row E;
  first [eapply idle_frame; [| |eassumption] | eapply idle_post; [| | |eassumption] | eapply idle_late; [| |eassumption]];
  let Er := fresh "Er" in intros Er; rewrite ?Er;
  unfold when_not; auto 20 using quiet_bitwise, quiet_divrem with quiet.

Lemma chip_row_idle (rrs : MajorOpcodes) (cfg : Config) (r : ChipRow) (row : list Emit) :
  row_eval rrs cfg r = Ok row -> sats row -> idle_or_real (row_is_real r) row.
Proof.
  intros E Hs. destruct r; cbn [row_eval row_is_real] in *.
  - idle_chip AddChip.eval E.
  - idle_chip SubChip.eval E.
  - idle_chip AddiChip.eval E.
  - idle_chip AddwChip.eval E.
  - idle_chip SubwChip.eval E.
  - replace (foldr Fadd F0 (MulChip.flags c)) with (MulChip.is_mul c + MulChip.is_mulh c + MulChip.is_mulhu c + MulChip.is_mulhsu c + MulChip.is_mulw c)%F
      by (unfold MulChip.flags; cbn [foldr]; ring).
    idle_chip MulChip.eval E.
  - replace (foldr Fadd F0 (BitwiseChip.flags c)) with (BitwiseChip.is_xor c + BitwiseChip.is_or c + BitwiseChip.is_and c)%F
      by (unfold BitwiseChip.flags; cbn [foldr]; ring).
    idle_chip BitwiseChip.eval E.
  - replace (foldr Fadd F0 (LtChip.flags c)) with (LtChip.is_slt c + LtChip.is_sltu c)%F
      by (unfold LtChip.flags; cbn [foldr]; ring).
    idle_chip LtChip.eval E.
  - idle_chip DivRemChip.eval E.
  - idle_chip ShiftLeftChip.eval E.
  - idle_chip ShiftRightChip.eval E.
  - eapply idle_alu_x0; eassumption.
  - idle_chip LoadByteChip.eval E.
  - idle_chip LoadHalfChip.eval E.
  - idle_chip LoadWordChip.eval E.
  - idle_chip LoadDoubleChip.eval E.
  - idle_chip LoadX0Chip.eval E.
  - idle_chip StoreByteChip.eval E.
  - idle_chip StoreHalfChip.eval E.
  - idle_chip StoreWordChip.eval E.
  - idle_chip StoreDoubleChip.eval E.
  - idle_chip BranchChip.eval E.
  - idle_chip JalChip.eval E.
  - idle_chip JalrChip.eval E.
  - idle_chip UTypeChip.eval E.
Qed.

Lemma state_bump_idle (local : StateBumpChip.Cols) :
  sats (StateBumpChip.eval local) -> idle_or_real (StateBumpChip.is_real local) (StateBumpChip.eval local).
Proof.
  intros Hs. unfold StateBumpChip.eval in *. cbv zeta in *. rewrite sats_app, sats_bool in Hs.
  split; [tauto|]. intros ->. unfold receive_state, send_state.
  auto 20 using quiet_pc_carry with quiet.
Qed.

Lemma memory_bump_idle (local : MemoryBumpChip.Cols) :
  sats (MemoryBumpChip.eval local) -> idle_or_real (MemoryBumpChip.is_real local) (MemoryBumpChip.eval local).
Proof.
  intros Hs. unfold MemoryBumpChip.eval in *. rewrite sats_app, sats_bool in Hs.
  split; [tauto|]. intros ->. auto 20 with quiet.
Qed.

(** ** The program table gives the instruction at the program counter *)

Lemma pc_limbs_limb16 (pc : Z) :
  0 <= pc < 2 ^ 48 -> StateBumpChip.pc_limbs pc = [limb16 pc 0; limb16 pc 1; limb16 pc 2].
Proof.
  intros Hp. unfold StateBumpChip.pc_limbs, limb16. change 0xFFFF with (2 ^ 16 - 1).
  rewrite !land_mask, !shr_div by lia. unfold as_u16, as_unsigned. rewrite !Z.mod_mod by lia.
  change (2 ^ (16 * 0)) with 1. rewrite Z.div_1_r. reflexivity.
Qed.

(** The messages the program table receives. *)
Definition program_messages (program : Program) (m : list F) : Prop :=
  exists idx prep mult, ProgramChip.preprocessed_row program idx = Ok prep /\
    receives KProgram (ProgramChip.eval prep mult) = [m].

Lemma program_lookup (program : Program) (m : list F) :
  0 <= pc_base program -> pc_base program + 4 * Z.of_nat (length (instructions program)) < 2 ^ 64 ->
  program_messages program m ->
  exists pc i, m = instruction_message pc i /\ fetch program pc = Some i /\ 0 <= pc < 2 ^ 48 /\
    i ∈ instructions program.
Proof.
  intros Hb Hlen (idx & prep & mult & Hrow & Hm). unfold ProgramChip.preprocessed_row in Hrow.
  set (n := if (length (instructions program) <=? idx)%nat then 0%nat else idx) in *.
  apply bind_ok in Hrow as ([] & Hlt & Hrow). apply assertb_ok, Z.ltb_lt in Hlt.
  apply bind_ok in Hrow as (i & Hi & Hrow). apply of_option_ok in Hi.
  assert (Ep : prep = (map Fof (StateBumpChip.pc_limbs (as_u64 (pc_base program + Z.of_nat n * 4))),
                       InstructionCols.populate i)) by congruence. subst prep.
  assert (Hn : (n < length (instructions program))%nat) by (apply lookup_lt_Some in Hi; exact Hi).
  assert (Epc : as_u64 (pc_base program + Z.of_nat n * 4) = pc_base program + Z.of_nat n * 4)
    by (apply Z.mod_small; lia).
  rewrite Epc in *. rewrite pc_limbs_limb16 in Hm by lia.
  exists (pc_base program + Z.of_nat n * 4), i. split; [|split; [|split; [lia|]]].
  - unfold ProgramChip.eval, receive_program, receives, live in Hm. cbn [fst snd] in Hm.
    cbn [flat_map kind kind_num Z.eqb Pos.eqb multiplicity values andb app] in Hm.
    destruct (negb (Feqb mult F0)); [|discriminate]. rewrite app_nil_r in Hm.
    unfold instruction_message. cbn [map] in Hm. congruence.
  - unfold fetch. replace (pc_base program + Z.of_nat n * 4 - pc_base program) with (Z.of_nat n * 4) by lia.
    unfold as_u64, as_unsigned. rewrite Z.mod_small by lia. rewrite Z.div_mul, Nat2Z.id by lia. exact Hi.
  - apply list_elem_of_lookup_2 in Hi. exact Hi.
Qed.

(** ** The machine *)

Record program_ok (program : Program) : Prop := mkProgramOk {
  po_base : 0 <= pc_base program;
  po_size : pc_base program + 4 * Z.of_nat (length (instructions program)) < 2 ^ 64;
  po_instructions : Forall wf_instruction (instructions program)
}.

Section Machine.
Context (program : Program) (Hprog : program_ok program).
Context (rows : list (list Emit)) (sbumps : list StateBumpChip.Cols) (mbumps : list MemoryBumpChip.Cols).

Definition all_rows : list (list Emit) :=
  rows ++ map StateBumpChip.eval sbumps ++ map MemoryBumpChip.eval mbumps.

Context (Hrows : Forall step_row rows).
Context (Hreads : Forall (fun row => Forall (program_messages program) (instruction_reads row)) rows).
Context (Hsb : Forall (fun c => bump_shape c /\ StateBumpChip.is_real c = F1 /\ sats (StateBumpChip.eval c)) sbumps).
Context (Hmb : Forall (fun c => MemoryBumpChip.is_real c = F1 /\ sats (MemoryBumpChip.eval c)) mbumps).

(** The state bus, balanced by the initial and the final state. *)
Context (init fin : list F) (Hinit : state_bounds init).
Context (Hstate : init :: flat_map (sends KState) all_rows ≡ₚ fin :: flat_map (receives KState) all_rows).

Lemma row_instruction_read (row : list Emit) :
  row ∈ rows -> exists pc i, instruction_reads row = [instruction_message pc i] /\ fetch program pc = Some i /\
    0 <= pc < 2 ^ 48 /\ wf_instruction i.
Proof.
  intros Hr. rewrite Forall_forall in Hrows, Hreads. destruct (Hrows row Hr) as [Hm _]. specialize (Hreads row Hr).
  destruct Hm as (h & l & p0 & p1 & p2 & n0 & n1 & n2 & rest & _ & _ & Er & _). cbn beta in Hreads. rewrite Er in *.
  apply Forall_inv in Hreads.
  destruct (program_lookup program _ (po_base _ Hprog) (po_size _ Hprog) Hreads) as (pc & i & Em & Hf & Hpc & Hi).
  exists pc, i. rewrite Em. split; [reflexivity|]. split; [exact Hf|]. split; [exact Hpc|].
  pose proof (po_instructions _ Hprog) as Hw. rewrite Forall_forall in Hw. exact (Hw i Hi).
Qed.

(** A state some row receives was sent by a row, or is the initial one. *)
Lemma state_origin (row : list Emit) (v : list F) :
  row ∈ rows \/ row ∈ map StateBumpChip.eval sbumps -> receives KState row = [v] ->
  v = init \/ (exists r, r ∈ rows /\ sends KState r = [v]) \/
  (exists c, c ∈ sbumps /\ sends KState (StateBumpChip.eval c) = [v]).
Proof.
  intros Hr Hv.
  assert (Hin : v ∈ init :: flat_map (sends KState) all_rows).
  { rewrite Hstate. apply elem_of_cons. right. apply list_elem_of_In, in_flat_map. exists row.
    rewrite Hv. split; [|left; reflexivity]. apply list_elem_of_In. unfold all_rows. rewrite !elem_of_app. tauto. }
  apply elem_of_cons in Hin as [-> | Hin]; [left; reflexivity | right].
  apply list_elem_of_In, in_flat_map in Hin as (r & Hrin & Hs). apply list_elem_of_In in Hrin.
  unfold all_rows in Hrin. rewrite !elem_of_app in Hrin.
  rewrite Forall_forall in Hrows. rewrite Forall_forall in Hsb. rewrite Forall_forall in Hmb. destruct Hrin as [Hrin | [Hrin | Hrin]].
  - left. exists r. split; [exact Hrin|]. destruct (Hrows r Hrin) as [(h & l & p0 & p1 & p2 & n0 & n1 & n2 & rest & _ & Es & _) _].
    rewrite Es in Hs |- *. destruct Hs as [<- | []]. reflexivity.
  - right. apply list_elem_of_fmap in Hrin as (c & -> & Hc). exists c. split; [exact Hc|].
    destruct (Hsb c Hc) as (Sh & Re & Sa). destruct (state_bump_messages c Re) as (_ & Es & _).
    rewrite Es in Hs |- *. destruct Hs as [<- | []]. reflexivity.
  - apply list_elem_of_fmap in Hrin as (c & -> & Hc). destruct (Hmb c Hc) as (Re & _).
    destruct (memory_bump_messages c Re) as (_ & _ & [Es _] & _). rewrite Es in Hs. destruct Hs.
Qed.

Definition clk_low_of (v : list F) : Z := match v with _ :: l :: _ => Fval l | _ => 0 end.

(** Every state on the bus is within its bounds: by induction on the low
    part of the clock, which every instruction row increases. *)
Lemma sent_bounds (row : list Emit) (v v' : list F) :
  row ∈ rows -> receives KState row = [v] -> sends KState row = [v'] ->
  (match v with h :: _ => Fval h < 2 ^ 24 | _ => False end) -> state_bounds v'.
Proof.
  intros Hr Hv Hv' Hh. destruct (row_instruction_read row Hr) as (pc & i & Em & _ & Hpc & _).
  rewrite Forall_forall in Hrows.
  destruct (Hrows row Hr) as [(h & l & p0 & p1 & p2 & n0 & n1 & n2 & rest & E1 & E2 & E3 & _ & _ & Hn & _) _].
  rewrite E1 in Hv. rewrite E2 in Hv'. rewrite E3 in Em. unfold instruction_message in Em. cbn [app] in Em.
  assert (v = [h; l; p0; p1; p2]) as -> by congruence.
  assert (v' = [h; (l + Fof CLK_INC)%F; n0; n1; n2]) as -> by congruence.
  assert (p0 = Fof (limb16 pc 0)) as -> by congruence.
  assert (p1 = Fof (limb16 pc 1)) as -> by congruence.
  assert (p2 = Fof (limb16 pc 2)) as -> by congruence.
  cbn [state_bounds].
  pose proof (limb16_bound pc 0). pose proof (limb16_bound pc 1). pose proof (limb16_bound pc 2).
  assert (Hp : Forall is_u16F [Fof (limb16 pc 0); Fof (limb16 pc 1); Fof (limb16 pc 2)])
    by (repeat constructor; unfold is_u16F; rewrite Fval_limb16; lia).
  specialize (Hn Hp). inversion_clear Hn as [|? ? B0 Hn1]. inversion_clear Hn1 as [|? ? B1 Hn2]. inversion_clear Hn2 as [|? ? B2 _].
  auto.
Qed.

Lemma received_high (row : list Emit) (v : list F) :
  row ∈ rows -> receives KState row = [v] -> match v with h :: _ => Fval h < 2 ^ 24 | _ => False end.
Proof.
  remember (Z.to_nat (clk_low_of v)) as n eqn:En. revert row v En.
  induction n as [n IH] using lt_wf_ind. intros row v En Hr Hv.
  destruct (state_origin row v (or_introl Hr) Hv) as [-> | [(r & Hrin & Es) | (c & Hc & Es)]].
  - destruct init as [|h [|l [|p0 [|p1 [|p2 [|]]]]]]; try contradiction. apply Hinit.
  - assert (Hw : exists u, receives KState r = [u] /\ 0 <= clk_low_of u /\ clk_low_of v = clk_low_of u + 8 /\
        match u, v with h :: _, h' :: _ => h = h' | _, _ => False end).
    { rewrite Forall_forall in Hrows.
      destruct (Hrows r Hrin) as [(h & l & p0 & p1 & p2 & n0 & n1 & n2 & rest & E1 & E2 & _ & _ & B & _) _].
      rewrite E2 in Es. assert (v = [h; (l + Fof CLK_INC)%F; n0; n1; n2]) as -> by congruence.
      eexists. split; [exact E1|]. cbn [clk_low_of]. split; [apply Fval_bound|]. split; [|reflexivity].
      apply Fval_rep; [exact _ | F_lia]. }
    destruct Hw as (u & Hu & Hpos & Elow & Hsame).
    pose proof (IH (Z.to_nat (clk_low_of u)) ltac:(lia) r u eq_refl Hrin Hu) as Hh.
    destruct u, v; try contradiction. subst. exact Hh.
  - rewrite Forall_forall in Hsb. destruct (Hsb c Hc) as (Sh & Re & Sa).
    destruct (state_bump_sound c Sh Re Sa) as (w & w' & _ & Es' & Hb & _). rewrite Es' in Es.
    assert (w' = v) as -> by congruence. destruct v as [|h [|l [|p0 [|p1 [|p2 [|]]]]]]; try contradiction. apply Hb.
Qed.

Lemma received_bounds (row : list Emit) (v : list F) :
  row ∈ rows \/ row ∈ map StateBumpChip.eval sbumps -> receives KState row = [v] -> state_bounds v.
Proof.
  intros Hr Hv. destruct (state_origin row v Hr Hv) as [-> | [(r & Hrin & Es) | (c & Hc & Es)]]; [exact Hinit | |].
  - assert (Hw : exists u, receives KState r = [u]).
    { rewrite Forall_forall in Hrows. destruct (Hrows r Hrin) as [(h & l & p0 & p1 & p2 & n0 & n1 & n2 & rest & E1 & _) _]. eauto. }
    destruct Hw as (u & Hu). eapply sent_bounds; [exact Hrin | exact Hu | exact Es|]. eapply received_high; eassumption.
  - rewrite Forall_forall in Hsb. destruct (Hsb c Hc) as (Sh & Re & Sa).
    destruct (state_bump_sound c Sh Re Sa) as (w & w' & _ & Es' & Hb & _). rewrite Es' in Es.
    assert (w' = v) as -> by congruence. exact Hb.
Qed.

(** ** The records on the memory bus are canonical *)
Context (mem_init mem_fin : list (list F)) (Hmi : Forall canonical_mem mem_init).
Context (Hmem : flat_map (sends KMemory) all_rows ++ mem_fin ≡ₚ flat_map (receives KMemory) all_rows ++ mem_init).

(** The accesses of a row, and when the records it leaves are canonical. *)
Definition row_accesses (row : list Emit) (prs : list (list F * list F)) : Prop :=
  sends KMemory row = map fst prs /\ receives KMemory row = map snd prs /\
  Forall (fun r => bus_access r.1 r.2) prs /\
  (forall r, r ∈ prs -> (forall r', r' ∈ prs -> record_key r'.2 <= record_key r.2 + 1 -> canonical_mem r'.1) ->
   canonical_mem r.2).

Lemma row_clk_state (row : list Emit) :
  row ∈ rows -> exists v, receives KState row = [v] /\ canonical_state v.
Proof.
  intros Hr. pose proof Hrows as Hrows'. rewrite Forall_forall in Hrows'.
  destruct (Hrows' row Hr) as [(h & l & p0 & p1 & p2 & n0 & n1 & n2 & rest & E1 & _) _].
  eexists. split; [exact E1|]. exact (received_high row _ Hr E1).
Qed.

Lemma row_inputs_of (row : list Emit) :
  row ∈ rows -> Forall canonical_mem (sends KMemory row) ->
  exists pc i, row_inputs row pc i /\ fetch program pc = Some i.
Proof.
  intros Hr Hs. destruct (row_instruction_read row Hr) as (pc & i & Em & Hf & Hpc & Hw).
  destruct (row_clk_state row Hr) as (v & Ev & Hv). exists pc, i. split; [|exact Hf].
  split; [rewrite Ev; repeat constructor; exact Hv|]. auto.
Qed.

(** A read leaves a canonical record if it replaces one. *)
Lemma bus_read_canonical (p c : list F) : bus_read p c -> canonical_mem p -> canonical_mem c.
Proof.
  intros Hb Hc. apply canonical_mem_parts. split; [apply Hb|]. apply (bus_read_valid p); [exact Hb|].
  apply canonical_mem_parts in Hc. apply Hc.
Qed.

Lemma step_accesses (row : list Emit) : row ∈ rows -> exists prs, row_accesses row prs.
Proof.
  intros Hr. pose proof Hrows as Hrows'. rewrite Forall_forall in Hrows'.
  destruct (Hrows' row Hr) as [(h & l & p0 & p1 & p2 & n0 & n1 & n2 & rest & E1 & _ & _ & _ & _ & _ & Hm) Hex].
  destruct (Hm (received_high row _ Hr E1)) as (prs & ws & reads & Es & Ec & Hp & Hw & Hrd & Hk). clear Hm.
  rewrite Forall_forall in Hrd. rewrite Forall_forall in Hw. rewrite Forall_forall in Hk.
  assert (Hin : forall r, r ∈ prs -> r ∈ ws \/ r ∈ reads) by (intros r Hi; rewrite Hp, elem_of_app in Hi; exact Hi).
  exists prs. split; [exact Es|]. split; [exact Ec|]. split.
  - rewrite Forall_forall. intros r Hi. destruct (Hin r Hi) as [Hi' | Hi']; [apply Hw, Hi' | apply (Hrd r Hi')].
  - intros r Hi Hall. destruct (Hin r Hi) as [Hi' | Hi'].
    + assert (Hs : Forall canonical_mem (sends KMemory row)).
      { rewrite Es, Forall_forall. intros p Hpi. apply list_elem_of_fmap in Hpi as (r' & -> & Hr').
        apply (Hall r' Hr'). specialize (Hk r Hi'). rewrite Forall_forall in Hk. apply Hk, Hr'. }
      destruct (row_inputs_of row Hr Hs) as (pc & i & Hri & _). destruct (Hex pc i Hri) as [_ Hcan].
      rewrite Ec, Forall_forall in Hcan. apply Hcan, list_elem_of_fmap. exists r. auto.
    + apply (bus_read_canonical r.1); [apply Hrd, Hi'|]. apply (Hall r Hi). lia.
Qed.

Lemma all_accesses (row : list Emit) : row ∈ all_rows -> exists prs, row_accesses row prs.
Proof.
  unfold all_rows. rewrite !elem_of_app. intros [Hr | [Hr | Hr]]; [apply step_accesses; exact Hr | |].
  - apply list_elem_of_fmap in Hr as (c & -> & Hc). pose proof Hsb as Hsb'. rewrite Forall_forall in Hsb'.
    destruct (Hsb' c Hc) as (_ & Re & _). destruct (state_bump_messages c Re) as (_ & _ & [E1 E2] & _).
    exists []. split; [exact E1|]. split; [exact E2|]. split; [constructor|]. intros r Hin. inversion Hin.
  - apply list_elem_of_fmap in Hr as (c & -> & Hc). pose proof Hmb as Hmb'. rewrite Forall_forall in Hmb'.
    destruct (Hmb' c Hc) as (Re & Sa). destruct (memory_bump_messages c Re) as (E1 & E2 & _).
    destruct (memory_bump_sound c Re Sa) as [Hb _].
    exists [(bump_sent c, bump_received c)]. split; [exact E1|]. split; [exact E2|].
    split; [repeat constructor; apply Hb|]. intros r Hin Hall. apply list_elem_of_singleton in Hin as ->. cbn [fst snd] in *.
    apply (bus_read_canonical (bump_sent c)); [exact Hb|].
    apply (Hall (bump_sent c, bump_received c)); [left | cbn [snd]; lia].
Qed.

(** A record some row replaces was left by a row, or is an initial one. *)
Lemma record_origin (row : list Emit) (p : list F) :
  row ∈ all_rows -> p ∈ sends KMemory row ->
  p ∈ mem_init \/ exists r prs q, r ∈ all_rows /\ row_accesses r prs /\ (q, p) ∈ prs.
Proof.
  intros Hr Hp.
  assert (Hin : p ∈ flat_map (receives KMemory) all_rows ++ mem_init).
  { rewrite <- Hmem. apply elem_of_app. left. apply list_elem_of_In, in_flat_map. exists row.
    split; apply list_elem_of_In; assumption. }
  apply elem_of_app in Hin as [Hin | Hin]; [right | left; exact Hin].
  apply list_elem_of_In, in_flat_map in Hin as (r & Hrin & Hp'). apply list_elem_of_In in Hrin, Hp'.
  destruct (all_accesses r Hrin) as (prs & Ha). pose proof Ha as (_ & Ec & _). rewrite Ec in Hp'.
  apply list_elem_of_fmap in Hp' as ([q p'] & -> & Hq). exists r, prs, q. auto.
Qed.

Lemma record_ts_nonneg (vs : list F) : 0 <= record_ts vs.
Proof.
  destruct vs as [|h [|l vs]]; cbn [record_ts]; try lia. unfold timestamp.
  pose proof (Fval_bound h). pose proof (Fval_bound l). lia.
Qed.

Lemma record_key_nonneg (vs : list F) : 0 <= record_key vs.
Proof. unfold record_key. pose proof (record_ts_nonneg vs). destruct (is_register vs); lia. Qed.

(** The record an access replaces has a smaller key than the one it leaves. *)
Lemma bus_access_key (p c : list F) : bus_access p c -> canonical_ts p -> record_key p <= record_key c - 2.
Proof.
  intros [[Lp Lc] Ea Ht Hl] Hp. specialize (Hl Hp). unfold record_key.
  assert (is_register p = is_register c) as ->; [|lia].
  do 9 (destruct p as [|? p]; [discriminate Lp|]). do 9 (destruct c as [|? c]; [discriminate Lc|]).
  cbn [firstn skipn] in Ea. cbn [is_register]. congruence.
Qed.

(** By induction on the key of the record. *)
Lemma received_canonical (n : nat) :
  forall row prs r, row ∈ all_rows -> row_accesses row prs -> r ∈ prs -> record_key r.2 < Z.of_nat n ->
  canonical_mem r.2.
Proof.
  induction n as [|n IH]; intros row prs r Hrow Ha Hr Hlt; [pose proof (record_key_nonneg r.2); lia|].
  pose proof Ha as (Es & _ & Hb & Hcan). apply (Hcan r Hr). intros r' Hr' Hle.
  rewrite Forall_forall in Hb. pose proof (Hb r' Hr') as Hb'.
  assert (Hs : r'.1 ∈ sends KMemory row) by (rewrite Es; apply list_elem_of_fmap; exists r'; auto).
  destruct (record_origin row _ Hrow Hs) as [Hi | (row' & prs' & q & Hrow' & Ha' & Hq)].
  - rewrite Forall_forall in Hmi. apply Hmi, Hi.
  - apply (IH row' prs' (q, r'.1) Hrow' Ha' Hq). cbn [snd].
    pose proof Ha' as (_ & _ & Hbq & _). rewrite Forall_forall in Hbq. pose proof (ba_ts _ _ (Hbq _ Hq)) as Hts.
    pose proof (bus_access_key _ _ Hb' Hts). lia.
Qed.

Lemma sent_canonical (row : list Emit) : row ∈ all_rows -> Forall canonical_mem (sends KMemory row).
Proof.
  intros Hr. rewrite Forall_forall. intros p Hp.
  destruct (record_origin row p Hr Hp) as [Hi | (row' & prs' & q & Hrow' & Ha' & Hq)].
  - rewrite Forall_forall in Hmi. apply Hmi, Hi.
  - eapply (received_canonical (S (Z.to_nat (record_key p))) row' prs' (q, p)); try eassumption.
    cbn [snd]. pose proof (record_key_nonneg p). lia.
Qed.

(** Every instruction row is the executor's step for its instruction. *)
Lemma rows_execute (row : list Emit) :
  row ∈ rows -> exists pc i, fetch program pc = Some i /\ wf_instruction i /\ 0 <= pc < 2 ^ 48 /\ executes row pc i.
Proof.
  intros Hr. assert (Hall : row ∈ all_rows) by (unfold all_rows; rewrite !elem_of_app; tauto).
  destruct (row_inputs_of row Hr (sent_canonical row Hall)) as (pc & i & Hin & Hf).
  pose proof Hrows as Hrows'. rewrite Forall_forall in Hrows'. destruct (Hrows' row Hr) as [_ Hex].
  exists pc, i. pose proof Hin as (_ & _ & _ & Hpc & Hw). auto.
Qed.
End Machine.
