(* ===== verification/MachineRun.v ===== *)
(** * The run of the machine

    From the facts of [Machine], the run of the executor: the state bus puts
    the instruction rows in the order of a run ([state_chain]), the memory bus
    makes the values they access those of a sequential memory
    ([sequential_values]), and each row is then a step of
    [execute_instruction]. *)

From stdpp Require Import base gmap list sorting.
From Stdlib Require Import ZArith Lia.
From S2P Require Import SyscallCode.
From S2P Require Import Prelude Words Isa Field Air AirFacts Operations Compare Bitwise Mul.
From S2P Require Import Adapter AdapterFacts Row Readers AluChips AluChipFacts DivRem DivRemFacts.
From S2P Require Import Padding Bump MemoryArgument Executor ExecutorFacts Machine.
Open Scope Z_scope.

(** ** The order of the accesses of an instruction *)

(** The access to memory comes first, then those of [rs2], [rs1] and [rd]. *)
Definition in_memory (x : MemMessage * MemMessage) : bool := 2 ^ 16 <=? mem_addr x.2.
Definition timed (accs : list (MemMessage * MemMessage)) : list (MemMessage * MemMessage) :=
  List.filter in_memory accs ++ rev (List.filter (fun x => negb (in_memory x)) accs).

Lemma timed_perm (accs : list (MemMessage * MemMessage)) : timed accs ≡ₚ accs.
Proof.
  unfold timed. rewrite <- Permutation_rev. induction accs as [|x accs IH]; [reflexivity|].
  cbn [List.filter]. destruct (in_memory x); cbn [negb app]; [rewrite IH; reflexivity|].
  rewrite <- Permutation_middle, IH. reflexivity.
Qed.

(** The accesses of a step are those of its registers, after at most one to memory. *)
Lemma step_shape (i : Instruction) (clk pc npc : Z) (accs : list (MemMessage * MemMessage)) :
  instruction_step i clk pc accs npc ->
  exists ms ta va tb b tc c a, accs = ms ++ alu_accesses i clk ta va tb b tc c a /\
    (ms = [] \/ exists addr tm m v, memory_address addr /\ ms = [memory_access addr clk tm m v]).
Proof.
  intros Hs. destruct Hs;
    first [ eexists [], _, _, _, _, _, _, _; split; [reflexivity | left; reflexivity]
          | eexists [_], _, _, _, _, _, _, _; split; [reflexivity | right; repeat eexists; apply H2] ].
Qed.

Lemma aligned_bounds (addr : Z) : memory_address addr -> 2 ^ 16 <= aligned addr < 2 ^ 48.
Proof.
  unfold memory_address. intros Ha. rewrite aligned_eq by (unfold is_u; lia). dlia.
Qed.

Section Order.
Context (i : Instruction) (Hwf : wf_instruction i).

Lemma timed_alu (clk ta va tb b tc c a : Z) :
  timed (alu_accesses i clk ta va tb b tc c a) = rev (alu_accesses i clk ta va tb b tc c a).
Proof.
  destruct Hwf as (Wa & Wb & Wc & Rb & Rc & _). unfold is_u in *.
  assert (E : forall x, x ∈ alu_accesses i clk ta va tb b tc c a -> in_memory x = false).
  { intros x Hx. apply Z.leb_gt. unfold alu_accesses in Hx.
    destruct (imm_b i), (imm_c i); cbn [app] in Hx; rewrite ?elem_of_cons, ?elem_of_nil in Hx;
      repeat match type of Hx with _ \/ _ => destruct Hx as [-> | Hx] end; try (subst x); try contradiction;
      cbn [snd mem_addr]; lia. }
  unfold timed. induction (alu_accesses i clk ta va tb b tc c a) as [|x l IH]; [reflexivity|].
  cbn [List.filter]. rewrite E by left. cbn [negb rev].
  assert (IH' := IH (fun y Hy => E y (list_elem_of_further y x l Hy))). clear IH.
  destruct (List.filter in_memory l) as [|y r] eqn:Ef.
  - cbn [app] in *. cbn [rev]. rewrite IH'. reflexivity.
  - exfalso. assert (Hy : y ∈ List.filter in_memory l) by (rewrite Ef; left).
    apply list_elem_of_In, filter_In in Hy as [Hy Hm]. apply list_elem_of_In in Hy.
    rewrite (E y) in Hm by (right; exact Hy). discriminate.
Qed.

Lemma timed_mem (addr clk tm m v : Z) (accs : list (MemMessage * MemMessage)) :
  memory_address addr -> timed (memory_access addr clk tm m v :: accs) = memory_access addr clk tm m v :: timed accs.
Proof.
  intros Ha. unfold timed. cbn [List.filter].
  assert (in_memory (memory_access addr clk tm m v) = true) as ->
    by (apply Z.leb_le, aligned_bounds, Ha). reflexivity.
Qed.

Lemma timed_sorted (clk pc npc : Z) (accs : list (MemMessage * MemMessage)) :
  instruction_step i clk pc accs npc -> Forall increasing accs ->
  StronglySorted by_time (timed accs) /\ Forall well_timed (timed accs) /\
  Forall (fun x => clk + 1 <= mem_ts x.2 <= clk + 4) (timed accs).
Proof.
  intros Hs Hinc. destruct (step_shape _ _ _ _ _ Hs) as (ms & ta & va & tb & b & tc & c & a & -> & Hms).
  assert (Hreg : StronglySorted by_time (rev (alu_accesses i clk ta va tb b tc c a)) /\
    Forall (fun x => clk + 2 <= mem_ts x.2 <= clk + 4) (rev (alu_accesses i clk ta va tb b tc c a)) /\
    Forall (fun x => mem_addr x.1 = mem_addr x.2) (rev (alu_accesses i clk ta va tb b tc c a))).
  { unfold alu_accesses. destruct (imm_b i), (imm_c i); cbn; repeat constructor; unfold by_time; cbn; lia. }
  destruct Hreg as (R1 & R2 & R3).
  assert (Hw : forall accs, Forall increasing accs -> Forall (fun x => mem_addr x.1 = mem_addr x.2) accs ->
    Forall well_timed accs).
  { intros l H1 H2. rewrite Forall_forall in H1, H2 |- *. intros x Hx. split; [apply H2, Hx | apply H1, Hx]. }
  destruct Hms as [-> | (addr & tm & m & v & Ha & ->)].
  - cbn [app] in *. rewrite timed_alu. split; [exact R1|]. split; [|eapply Forall_impl; [exact R2|]; cbn; lia].
    apply Hw; [apply Forall_rev, Hinc | exact R3].
  - cbn [app] in *. rewrite timed_mem, timed_alu by exact Ha. apply Forall_cons_iff in Hinc as [Hi0 Hinc]. split; [|split].
    + constructor; [exact R1|]. eapply Forall_impl; [exact R2|]. unfold by_time. cbn. lia.
    + constructor; [split; [reflexivity | exact Hi0]|]. apply Hw; [apply Forall_rev, Hinc | exact R3].
    + constructor; [cbn; lia|]. eapply Forall_impl; [exact R2|]. cbn. lia.
Qed.

(** *** The values of the accesses *)

Lemma value_run_read (vs vs' : gmap Z Z) (addr t t' v : Z) (rest : list (MemMessage * MemMessage)) :
  value_run vs ((mkMem t addr v, mkMem t' addr v) :: rest) vs' -> vs !! addr = Some v /\ value_run vs rest vs'.
Proof.
  intros Hv. inversion Hv as [|? ? ? ? ? Hl Hr]; subst. cbn [mem_addr mem_val] in *.
  rewrite insert_id in Hr by assumption. auto.
Qed.

Lemma value_run_nil (vs vs' : gmap Z Z) : value_run vs [] vs' -> vs' = vs.
Proof. intros Hv. inversion Hv. reflexivity. Qed.

(** The values of the registers an instruction reads, and those it leaves. *)
Lemma register_values (vs vs' : gmap Z Z) (clk ta va tb b tc c a : Z) :
  value_run vs (rev (alu_accesses i clk ta va tb b tc c a)) vs' ->
  (imm_b i = false -> vs !! op_b i = Some b) /\ (imm_c i = false -> vs !! op_c i = Some c) /\
  vs !! op_a i = Some va /\ vs' = <[op_a i := a]> vs.
Proof.
  unfold alu_accesses. destruct (imm_b i), (imm_c i); cbn; intros Hv;
    repeat lazymatch type of Hv with
    | value_run _ ((mkMem _ _ ?v, mkMem _ _ ?v) :: _) _ =>
        let E := fresh "E" in apply value_run_read in Hv as [E Hv]
    end; inversion Hv as [|? ? ? ? ? Hl Hr]; subst; apply value_run_nil in Hr; cbn [mem_addr mem_val] in *;
    (split; [|split; [|split]]); intros; (assumption || discriminate).
Qed.

Lemma memory_values (vs vs' : gmap Z Z) (addr clk tm m v : Z) (accs : list (MemMessage * MemMessage)) :
  value_run vs (memory_access addr clk tm m v :: accs) vs' ->
  vs !! aligned addr = Some m /\ value_run (<[aligned addr := v]> vs) accs vs'.
Proof. intros Hv. inversion Hv as [|? ? ? ? ? Hl Hr]; subst. auto. Qed.
End Order.

(** ** One step of the executor *)
Section Step.
Context {M : Type} `{MemoryLaws M}.
Context (program : Program).
Context (ecall_handler : Executor M -> SyscallCode -> Res (Executor M * option Z)).

Abbreviation step := (step_once program ecall_handler).

(** The registers hold the values of the memory argument, and [x0] is zero. *)
Definition regs_ok (rs : list Z) (vs : gmap Z Z) : Prop :=
  length rs = 32%nat /\ rs !! 0%nat = Some 0 /\
  forall r v, 0 <= r < 32 -> vs !! r = Some v -> rs !! Z.to_nat r = Some v.

(** So does the memory. *)
Definition mem_ok (m : M) (vs : gmap Z Z) : Prop :=
  forall addr v, 2 ^ 16 <= addr -> vs !! addr = Some v -> mem_holds m addr v.

Definition state_ok (e : Executor M) (vs : gmap Z Z) : Prop :=
  regs_ok (registers e) vs /\ mem_ok (memory e) vs /\ traces e = None.

Lemma set_reg_ok (e : Executor M) (r v : Z) :
  length (registers e) = 32%nat -> 0 <= r < 32 ->
  set_reg e r v = Ok (with_registers e (<[Z.to_nat r := v]> (registers e))).
Proof.
  intros Hl Hr. unfold set_reg. rewrite Hl. rewrite (proj2 (Nat.ltb_lt _ _)) by lia. reflexivity.
Qed.

Lemma reg_ok (e : Executor M) (vs : gmap Z Z) (r v : Z) :
  regs_ok (registers e) vs -> 0 <= r < 32 -> vs !! r = Some v -> reg e r = Ok v.
Proof. intros (_ & _ & Hv) Hr E. unfold reg. rewrite (Hv r v Hr E). reflexivity. Qed.

(** A write to [rd], followed by the reset of [x0]. *)
Lemma regs_write (rs : list Z) (vs : gmap Z Z) (i : Instruction) (r : Z) :
  regs_ok rs vs -> 0 <= op_a i < 32 ->
  regs_ok (<[0%nat := 0]> (<[Z.to_nat (op_a i) := r]> rs)) (<[op_a i := rd_value i r]> vs).
Proof.
  intros (Hl & H00 & Hv) Ha. split; [|split].
  - rewrite !length_insert. exact Hl.
  - apply list_lookup_insert_eq. rewrite length_insert. lia.
  - intros x v Hx E. unfold rd_value in E. destruct (decide (x = 0)) as [-> | Hne].
    + rewrite list_lookup_insert_eq by (rewrite length_insert; lia). f_equal.
      destruct (decide (op_a i = 0)) as [E0 | Ne].
      * rewrite E0, lookup_insert_eq in E. cbn in E. congruence.
      * rewrite lookup_insert_ne in E by assumption. specialize (Hv 0 v ltac:(lia) E).
        change (Z.to_nat 0) with 0%nat in Hv. congruence.
    + rewrite list_lookup_insert_ne by lia. destruct (decide (op_a i = x)) as [<- | Ner].
      * rewrite lookup_insert_eq in E. rewrite list_lookup_insert_eq by lia.
        destruct (Z.eqb_spec (op_a i) 0); [contradiction | congruence].
      * rewrite lookup_insert_ne in E by assumption. rewrite list_lookup_insert_ne by lia. apply Hv; assumption.
Qed.

Lemma regs_keep (rs : list Z) (vs : gmap Z Z) : regs_ok rs vs -> regs_ok (<[0%nat := 0]> rs) vs.
Proof. intros (Hl & H00 & Hv). rewrite list_insert_id by exact H00. repeat split; assumption. Qed.

(** Values at memory addresses do not change with a register, nor the reverse. *)
Lemma mem_ok_reg (m : M) (vs : gmap Z Z) (r v : Z) : mem_ok m vs -> 0 <= r < 32 -> mem_ok m (<[r := v]> vs).
Proof. intros Hm Hr addr v' Ha E. rewrite lookup_insert_ne in E by lia. apply Hm; assumption. Qed.

Lemma regs_ok_mem (rs : list Z) (vs : gmap Z Z) (addr v : Z) :
  regs_ok rs vs -> 2 ^ 16 <= addr -> regs_ok rs (<[addr := v]> vs).
Proof.
  intros (Hl & H00 & Hv) Ha. split; [exact Hl|]. split; [exact H00|]. intros r x Hr E.
  rewrite lookup_insert_ne in E by lia. apply Hv; assumption.
Qed.

(** The state in which an instruction is executed. *)
Definition entry (e : Executor M) : Executor M :=
  with_next_clk (with_next_pc e (wrapping_add (pc e) PC_INC)) (wrapping_add (clk e) CLK_INC).

Lemma step_finish (e e2 : Executor M) (i : Instruction) (vs' : gmap Z Z) :
  fetch program (pc e) = Some i -> dispatch ecall_handler (entry e) i = Ok e2 ->
  length (registers e2) = 32%nat -> traces e2 = None ->
  regs_ok (<[0%nat := 0]> (registers e2)) vs' -> mem_ok (memory e2) vs' ->
  exists e', step e = Ok e' /\ pc e' = next_pc e2 /\ clk e' = next_clk e2 /\ state_ok e' vs'.
Proof.
  intros Hf Hd Hl Ht Hr Hm. unfold step_once, execute_instruction. rewrite Hf. cbn [of_option bind].
  fold (entry e). rewrite Hd. cbn [bind].
  unfold post_instruction_update. rewrite set_reg_ok by (assumption || lia). cbn [bind].
  unfold check_trace_buffer_exceeded. cbn [traces with_registers]. rewrite Ht. cbn [bind].
  eexists. split; [reflexivity|]. cbn [pc clk next_pc next_clk with_registers]. split; [reflexivity|].
  split; [reflexivity|]. split; [exact Hr|]. split; [exact Hm | reflexivity].
Qed.

Section Instruction.
Context (e : Executor M) (vs : gmap Z Z) (i : Instruction).
Context (Hok : state_ok e vs) (Hf : fetch program (pc e) = Some i) (Hwf : wf_instruction i).

Lemma entry_ok : state_ok (entry e) vs.
Proof. exact Hok. Qed.

Lemma operand_b (b : Z) : (imm_b i = true -> b = op_b i) -> (imm_b i = false -> vs !! op_b i = Some b) ->
  (if imm_b i then Ok (op_b i) else reg (entry e) (op_b i)) = Ok b.
Proof.
  destruct Hwf as (_ & Wb & _ & Rb & _). unfold is_u in Wb. intros H1 H2. destruct (imm_b i).
  - rewrite (H1 eq_refl). reflexivity.
  - apply (reg_ok (entry e) vs); [apply entry_ok | specialize (Rb eq_refl); lia | auto].
Qed.

Lemma operand_c (c : Z) : (imm_c i = true -> c = op_c i) -> (imm_c i = false -> vs !! op_c i = Some c) ->
  (if imm_c i then Ok (op_c i) else reg (entry e) (op_c i)) = Ok c.
Proof.
  destruct Hwf as (_ & _ & Wc & _ & Rc & _). unfold is_u in Wc. intros H1 H2. destruct (imm_c i).
  - rewrite (H1 eq_refl). reflexivity.
  - apply (reg_ok (entry e) vs); [apply entry_ok | specialize (Rc eq_refl); lia | auto].
Qed.

Lemma register_of (r : Z) : 0 <= r < 32 -> register_from_u8 r = Ok r /\ register_from_u8 (as_u8 r) = Ok r.
Proof.
  intros Hr. assert (E : as_u8 r = r) by (apply Z.mod_small; lia). rewrite E. unfold register_from_u8.
  rewrite (proj2 (Z.leb_le 0 r)), (proj2 (Z.leb_le r 31)) by lia. auto.
Qed.

(** The step that leaves [r] in [rd]. *)
Lemma write_rd (r : Z) :
  set_reg (entry e) (op_a i) r = Ok (with_registers (entry e) (<[Z.to_nat (op_a i) := r]> (registers e))) /\
  length (<[Z.to_nat (op_a i) := r]> (registers e)) = 32%nat /\
  regs_ok (<[0%nat := 0]> (<[Z.to_nat (op_a i) := r]> (registers e))) (<[op_a i := rd_value i r]> vs) /\
  mem_ok (memory e) (<[op_a i := rd_value i r]> vs).
Proof.
  destruct Hwf as (Wa & _). destruct Hok as (Hr & Hm & _).
  split; [exact (set_reg_ok (entry e) (op_a i) r (proj1 Hr) Wa)|]. split; [rewrite length_insert; apply Hr|].
  split; [apply regs_write; assumption | apply mem_ok_reg; assumption].
Qed.
Lemma entry_next : 0 <= pc e < 2 ^ 48 -> 0 <= clk e < 2 ^ 48 ->
  next_pc (entry e) = pc e + PC_INC /\ next_clk (entry e) = clk e + CLK_INC.
Proof.
  intros Hp Hc. split; apply Z.mod_small; unfold PC_INC, CLK_INC; lia.
Qed.

Context (Hpc : 0 <= pc e < 2 ^ 48) (Hclk : 0 <= clk e < 2 ^ 48).

(** Which handler an instruction is dispatched to. *)
Lemma dispatch_alu (e0 : Executor M) (b c r : Z) :
  alu_value (opcode i) b c = Ok r -> dispatch ecall_handler e0 i = execute_alu e0 i.
Proof. unfold dispatch, is_alu_instruction. destruct (opcode i); cbn; (reflexivity || discriminate). Qed.

Lemma dispatch_load (e0 : Executor M) (addr m r : Z) :
  load_value (opcode i) addr m = Ok r -> dispatch ecall_handler e0 i = execute_load e0 i.
Proof.
  unfold dispatch, is_alu_instruction, is_memory_load_instruction.
  destruct (opcode i); cbn; (reflexivity || discriminate).
Qed.

Lemma dispatch_store (e0 : Executor M) (src addr m v : Z) :
  store_value (opcode i) src addr m = Ok v -> dispatch ecall_handler e0 i = execute_store e0 i.
Proof.
  unfold dispatch, is_alu_instruction, is_memory_load_instruction, is_memory_store_instruction.
  destruct (opcode i); cbn; (reflexivity || discriminate).
Qed.

Lemma dispatch_branch (e0 : Executor M) (a b : Z) (taken : bool) :
  branch_taken (opcode i) a b = Ok taken -> dispatch ecall_handler e0 i = execute_branch e0 i.
Proof.
  unfold dispatch, is_alu_instruction, is_memory_load_instruction, is_memory_store_instruction, is_branch_instruction.
  destruct (opcode i); cbn; (reflexivity || discriminate).
Qed.

Lemma dispatch_jump (e0 : Executor M) :
  opcode i = JAL \/ opcode i = JALR -> dispatch ecall_handler e0 i = execute_jump e0 i.
Proof.
  unfold dispatch, is_alu_instruction, is_memory_load_instruction, is_memory_store_instruction,
    is_branch_instruction, is_jump_instruction. intros [-> | ->]; reflexivity.
Qed.

Lemma dispatch_utype (e0 : Executor M) :
  opcode i = AUIPC \/ opcode i = LUI -> dispatch ecall_handler e0 i = execute_utype e0 i.
Proof.
  unfold dispatch, is_alu_instruction, is_memory_load_instruction, is_memory_store_instruction,
    is_branch_instruction, is_jump_instruction, is_utype_instruction. intros [-> | ->]; reflexivity.
Qed.

(** A step whose dispatch writes [rd] and sets the next program counter. *)
Lemma writes_rd (r npc : Z) :
  dispatch ecall_handler (entry e) i
    = Ok (with_next_pc (with_registers (entry e) (<[Z.to_nat (op_a i) := r]> (registers e))) npc) ->
  exists e', step e = Ok e' /\ pc e' = npc /\ clk e' = clk e + CLK_INC /\ state_ok e' (<[op_a i := rd_value i r]> vs).
Proof.
  intros Hd. destruct (write_rd r) as (_ & Hl & Hr & Hm). destruct (entry_next Hpc Hclk) as [_ Ec].
  destruct (step_finish e _ i (<[op_a i := rd_value i r]> vs) Hf Hd Hl) as (e' & He & Ep & Ek & Hs); [apply Hok | exact Hr | exact Hm |].
  exists e'. rewrite Ep, Ek. auto.
Qed.

Lemma alu_executes (b c r : Z) :
  (imm_b i = true -> b = op_b i) -> (imm_b i = false -> vs !! op_b i = Some b) ->
  (imm_c i = true -> c = op_c i) -> (imm_c i = false -> vs !! op_c i = Some c) ->
  alu_value (opcode i) b c = Ok r ->
  exists e', step e = Ok e' /\ pc e' = pc e + PC_INC /\ clk e' = clk e + CLK_INC /\
    state_ok e' (<[op_a i := rd_value i r]> vs).
Proof.
  intros B1 B2 C1 C2 Ha. apply writes_rd. rewrite (dispatch_alu _ _ _ _ Ha). unfold execute_alu.
  rewrite (operand_b b B1 B2). cbn [bind]. rewrite (operand_c c C1 C2). cbn [bind]. rewrite Ha. cbn [bind].
  rewrite (proj1 (write_rd r)). f_equal. destruct (entry_next Hpc Hclk) as [<- _]. reflexivity.
Qed.
Lemma utype_executes (b r : Z) :
  b = op_b i -> (opcode i = AUIPC /\ r = wrapping_add (pc e) b \/ opcode i = LUI /\ r = b) ->
  exists e', step e = Ok e' /\ pc e' = pc e + PC_INC /\ clk e' = clk e + CLK_INC /\
    state_ok e' (<[op_a i := rd_value i r]> vs).
Proof.
  intros -> Ho. apply writes_rd. rewrite dispatch_utype by tauto. unfold execute_utype, u_type.
  destruct Hwf as (Wa & _). rewrite (proj1 (register_of _ Wa)). cbn [bind].
  destruct (entry_next Hpc Hclk) as [<- _].
  destruct Ho as [[-> ->] | [-> ->]]; cbn [bind]; exact (proj1 (write_rd _)).
Qed.

(** The sum of a program counter and a sign-extended offset. *)
Lemma jump_target (x offset : Z) (bits : Z) :
  as_u64 (sign_extend_imm offset bits) = offset ->
  as_u64 (as_i64 (as_i64 x + sign_extend_imm offset bits)) = wrapping_add x offset.
Proof.
  intros E. set (s := sign_extend_imm offset bits) in *. clearbody s. rewrite <- E.
  unfold wrapping_add, as_u64, as_i64, as_unsigned. rewrite (as_signed_cong 64) by lia.
  rewrite <- Z.add_mod_idemp_l, (as_signed_cong 64), Z.add_mod_idemp_l, Z.add_mod_idemp_r by lia. reflexivity.
Qed.

Lemma jal_executes :
  opcode i = JAL ->
  exists e', step e = Ok e' /\ pc e' = wrapping_add (pc e) (op_b i) /\ clk e' = clk e + CLK_INC /\
    state_ok e' (<[op_a i := rd_value i (pc e + PC_INC)]> vs).
Proof.
  intros Ho. apply writes_rd. rewrite dispatch_jump by tauto. unfold execute_jump, j_type. rewrite Ho.
  destruct Hwf as (Wa & _ & _ & _ & _ & Hj). rewrite (proj1 (register_of _ Wa)). cbn [bind].
  unfold jump_offset in Hj. rewrite Ho in Hj. rewrite <- (jump_target _ _ _ Hj).
  assert (Ep : wrapping_add (pc (entry e)) 4 = pc e + PC_INC) by (apply Z.mod_small; cbn; unfold PC_INC; lia).
  rewrite Ep. rewrite set_reg_ok by (apply Hok || exact Wa). reflexivity.
Qed.

Lemma jalr_executes (b : Z) :
  opcode i = JALR -> imm_b i = false -> vs !! op_b i = Some b ->
  exists e', step e = Ok e' /\ pc e' = Z.land (wrapping_add b (op_c i)) (not_u64 1) /\ clk e' = clk e + CLK_INC /\
    state_ok e' (<[op_a i := rd_value i (pc e + PC_INC)]> vs).
Proof.
  intros Ho Hi Hb. apply writes_rd. rewrite dispatch_jump by tauto. unfold execute_jump, i_type. rewrite Ho.
  destruct Hwf as (Wa & Wb & _ & Rb & _ & Hj). specialize (Rb Hi). unfold is_u in Wb.
  rewrite (proj1 (register_of _ Wa)). cbn [bind]. rewrite (proj2 (register_of (op_b i) ltac:(lia))). cbn [bind].
  rewrite (reg_ok (entry e) vs _ b) by (apply Hok || lia || exact Hb). cbn [bind].
  unfold jump_offset in Hj. rewrite Ho in Hj. rewrite (jump_target _ _ _ Hj).
  assert (Ep : wrapping_add (pc (entry e)) PC_INC = pc e + PC_INC) by (apply Z.mod_small; cbn; unfold PC_INC; lia).
  rewrite Ep, set_reg_ok by (apply Hok || exact Wa). reflexivity.
Qed.

Lemma branch_executes (a b : Z) (taken : bool) :
  imm_b i = false -> vs !! op_a i = Some a -> vs !! op_b i = Some b -> branch_taken (opcode i) a b = Ok taken ->
  exists e', step e = Ok e' /\
    pc e' = (if taken then wrapping_add (pc e) (op_c i) else pc e + PC_INC) /\ clk e' = clk e + CLK_INC /\
    state_ok e' vs.
Proof.
  intros Hi Ha Hb Ht. destruct Hwf as (Wa & Wb & _ & Rb & _). specialize (Rb Hi). unfold is_u in Wb.
  destruct Hok as (Hr & Hm & Htr). destruct (entry_next Hpc Hclk) as [Ep Ec].
  destruct (step_finish e (if taken then with_next_pc (entry e) (wrapping_add (pc e) (op_c i)) else entry e) i vs Hf)
    as (e' & He & Ep' & Ek & Hs).
  - rewrite (dispatch_branch _ _ _ _ Ht). unfold execute_branch, b_type.
    rewrite (proj1 (register_of _ Wa)). cbn [bind]. rewrite (proj2 (register_of (op_b i) ltac:(lia))). cbn [bind].
    rewrite (reg_ok (entry e) vs _ a) by (apply Hok || lia || assumption). cbn [bind].
    rewrite (reg_ok (entry e) vs _ b) by (apply Hok || lia || assumption). cbn [bind]. rewrite Ht. reflexivity.
  - destruct taken; apply Hr.
  - destruct taken; exact Htr.
  - destruct taken; apply regs_keep, Hr.
  - destruct taken; exact Hm.
  - exists e'. rewrite Ep', Ek. destruct taken; auto.
Qed.

Lemma load_executes (b m r : Z) :
  imm_b i = false -> vs !! op_b i = Some b -> memory_address (wrapping_add b (op_c i)) ->
  vs !! aligned (wrapping_add b (op_c i)) = Some m ->
  load_value (opcode i) (wrapping_add b (op_c i)) m = Ok r ->
  exists e', step e = Ok e' /\ pc e' = pc e + PC_INC /\ clk e' = clk e + CLK_INC /\
    state_ok e' (<[op_a i := rd_value i r]> vs).
Proof.
  intros Hi Hb Haddr Hm Hv. destruct Hwf as (Wa & Wb & _ & Rb & _). specialize (Rb Hi). unfold is_u in Wb.
  pose proof Hok as (Hr & Hmem & Htr). destruct (entry_next Hpc Hclk) as [Ep Ec].
  destruct (aligned_bounds _ Haddr) as [Hal _].
  destruct (mem_holds_get_mut _ _ _ (Hmem _ _ Hal Hm)) as (mv & write & Eg & Ev & Hw).
  set (e2 := with_memory (entry e) (write (mkMemValue (as_u64 (clk e + 1)) m))).
  assert (Hmem' : mem_ok (memory e2) vs).
  { intros addr v Ha E. destruct (Hw (mkMemValue (as_u64 (clk e + 1)) m)) as [H1 H2]. cbn [mv_value] in H1.
    destruct (decide (addr = aligned (wrapping_add b (op_c i)))) as [-> | Hne];
      [assert (v = m) as -> by congruence; exact H1 | apply H2; [exact Hne | apply Hmem; assumption]]. }
  destruct (step_finish e (with_registers e2 (<[Z.to_nat (op_a i) := r]> (registers e))) i
              (<[op_a i := rd_value i r]> vs) Hf) as (e' & He & Ep' & Ek & Hs).
  - rewrite (dispatch_load _ _ _ _ Hv). unfold execute_load, i_type.
    rewrite (proj1 (register_of _ Wa)). cbn [bind]. rewrite (proj2 (register_of (op_b i) ltac:(lia))). cbn [bind].
    rewrite (reg_ok (entry e) vs _ b) by (exact Hr || lia || assumption). cbn [bind].
    change (memory (entry e)) with (memory e). rewrite Eg. cbn [bind].
    assert (Et : trace_mem (entry e) mv = entry e) by (unfold trace_mem; cbn [traces entry with_next_clk with_next_pc];
      rewrite Htr; reflexivity).
    rewrite Et, Ev, Hv. cbn [bind]. exact (set_reg_ok e2 (op_a i) r (proj1 Hr) Wa).
  - cbn [registers with_registers]. rewrite length_insert. apply Hr.
  - exact Htr.
  - apply regs_write; assumption.
  - apply mem_ok_reg; assumption.
  - exists e'. rewrite Ep', Ek. auto.
Qed.

Lemma store_executes (src b m v : Z) :
  imm_b i = false -> vs !! op_a i = Some src -> vs !! op_b i = Some b -> memory_address (wrapping_add b (op_c i)) ->
  vs !! aligned (wrapping_add b (op_c i)) = Some m ->
  store_value (opcode i) src (wrapping_add b (op_c i)) m = Ok v ->
  exists e', step e = Ok e' /\ pc e' = pc e + PC_INC /\ clk e' = clk e + CLK_INC /\
    state_ok e' (<[aligned (wrapping_add b (op_c i)) := v]> vs).
Proof.
  intros Hi Ha Hb Haddr Hm Hv. destruct Hwf as (Wa & Wb & _ & Rb & _). specialize (Rb Hi). unfold is_u in Wb.
  pose proof Hok as (Hr & Hmem & Htr). destruct (entry_next Hpc Hclk) as [Ep Ec].
  destruct (aligned_bounds _ Haddr) as [Hal _].
  destruct (mem_holds_get _ _ _ (Hmem _ _ Hal Hm)) as (o & Eo & Evo).
  destruct (mem_holds_get_mut _ _ _ (Hmem _ _ Hal Hm)) as (mv & write & Eg & Ev & Hw).
  set (e2 := with_memory (entry e) (write (mkMemValue (as_u64 (clk e + 1)) v))).
  destruct (step_finish e e2 i (<[aligned (wrapping_add b (op_c i)) := v]> vs) Hf) as (e' & He & Ep' & Ek & Hs).
  - rewrite (dispatch_store _ _ _ _ _ Hv). unfold execute_store, s_type.
    rewrite (proj1 (register_of _ Wa)). cbn [bind]. rewrite (proj2 (register_of (op_b i) ltac:(lia))). cbn [bind].
    rewrite (reg_ok (entry e) vs _ src) by (exact Hr || lia || assumption). cbn [bind].
    rewrite (reg_ok (entry e) vs _ b) by (exact Hr || lia || assumption). cbn [bind].
    unfold mem_read_untracked. change (memory (entry e)) with (memory e). rewrite Eo. cbn [bind].
    change (with_memory (entry e) (memory e)) with (entry e). rewrite Evo, Hv.
    cbn [bind]. change (memory (entry e)) with (memory e). rewrite Eg. cbn [bind].
    assert (Et : trace_mem (entry e) mv = entry e) by (unfold trace_mem; cbn [traces entry with_next_clk with_next_pc];
      rewrite Htr; reflexivity).
    rewrite Et. reflexivity.
  - apply Hr.
  - exact Htr.
  - apply regs_keep, regs_ok_mem; assumption.
  - intros addr x Hx E. destruct (Hw (mkMemValue (as_u64 (clk e + 1)) v)) as [H1 H2]. cbn [mv_value] in H1.
    destruct (decide (aligned (wrapping_add b (op_c i)) = addr)) as [<- | Hne].
    + rewrite lookup_insert_eq in E. assert (x = v) as -> by congruence. exact H1.
    + rewrite lookup_insert_ne in E by exact Hne. apply H2; [congruence | apply Hmem; assumption].
  - exists e'. rewrite Ep', Ek. auto.
Qed.

(** A step of the memory argument is a step of the executor. *)
Lemma instruction_executes (accs : list (MemMessage * MemMessage)) (npc : Z) (vs' : gmap Z Z) :
  instruction_step i (clk e) (pc e) accs npc -> value_run vs (timed accs) vs' ->
  exists e', step e = Ok e' /\ pc e' = npc /\ clk e' = clk e + CLK_INC /\ state_ok e' vs'.
Proof.
  pose proof Hwf as (Wa & Wb & _ & Rb & _). unfold is_u in Wb.
  intros Hs Hv. destruct Hs as [ta va tb b tc c r B C Ha | ta va tb b tc c tm m r Ib Ic -> Ha Hl
    | ta va tb b tc c tm m v Ib Ic -> Ha Hl | ta va tb b tc c t Ib Ic -> Ht | ta va tb b tc c Ho Ib Ic ->
    | ta va tb b tc c Ho Ib Ic -> | ta va tb b tc c r Ib Ic -> Ho];
    rewrite ?timed_mem, timed_alu in Hv by assumption; try apply memory_values in Hv as [Hm Hv];
    apply register_values in Hv as (Vb & Vc & Va & ->).
  - apply (alu_executes b c); assumption.
  - specialize (Vb Ib). rewrite (insert_id vs _ m Hm) in *. apply (load_executes b m); assumption.
  - specialize (Vb Ib). specialize (Rb Ib). destruct (aligned_bounds _ Ha) as [Hal _].
    rewrite (insert_id _ (op_a i)) by exact Va. rewrite lookup_insert_ne in Va, Vb by lia.
    apply (store_executes va b m); assumption.
  - rewrite insert_id by exact Va. apply (branch_executes va b); auto.
  - apply jal_executes; assumption.
  - apply jalr_executes; auto.
  - apply (utype_executes (op_b i)); auto.
Qed.
End Instruction.
End Step.

(** ** The order of the rows *)

Definition state_of (row : list Emit) : Z * Z := hd (0, 0) (state_in row).
Definition next_of (row : list Emit) : Z * Z := hd (0, 0) (state_out row).

(** A row that executes an instruction of the program. *)
Definition runs (program : Program) (row : list Emit) : Prop :=
  exists pc i, fetch program pc = Some i /\ wf_instruction i /\ 0 <= pc < 2 ^ 48 /\ executes row pc i /\
    0 <= (state_of row).1 < 2 ^ 48.

(** The accesses of a row by increasing timestamp. *)
Definition timed_accesses (row : list Emit) : list (MemMessage * MemMessage) := timed (accesses row).

Lemma runs_states (program : Program) (row : list Emit) :
  runs program row -> state_in row = [state_of row] /\ state_out row = [next_of row] /\
    (next_of row).1 = (state_of row).1 + CLK_INC.
Proof.
  intros (pc & i & _ & _ & _ & [(clk & npc & Ei & Eo & _) _] & _). unfold state_of, next_of. rewrite Ei, Eo. auto.
Qed.

Lemma row_sorted (program : Program) (row : list Emit) :
  runs program row ->
  StronglySorted by_time (timed_accesses row) /\ Forall well_timed (timed_accesses row) /\
  Forall (fun x => (state_of row).1 + 1 <= mem_ts x.2 <= (state_of row).1 + 4) (timed_accesses row).
Proof.
  intros (pc & i & _ & Hw & _ & [(clk & npc & Ei & _ & Hs & Hinc) _] & _).
  unfold state_of. rewrite Ei. exact (timed_sorted i Hw clk pc npc _ Hs Hinc).
Qed.

Lemma sorted_app (l1 l2 : list (MemMessage * MemMessage)) (t : Z) :
  StronglySorted by_time l1 -> StronglySorted by_time l2 ->
  Forall (fun x => mem_ts x.2 <= t) l1 -> Forall (fun x => t <= mem_ts x.2) l2 -> StronglySorted by_time (l1 ++ l2).
Proof.
  intros H1 H2 B1 B2. induction H1 as [|x l1 H1 IH Hx]; [exact H2|]. apply Forall_cons_iff in B1 as [Bx B1].
  cbn. constructor; [apply IH, B1|]. apply Forall_app. split; [exact Hx|].
  eapply Forall_impl; [exact B2|]. unfold by_time. cbn. lia.
Qed.

Lemma chain_sorted (program : Program) (rows : list (list Emit)) (s f : Z * Z) :
  chain state_of next_of s rows f -> Forall (runs program) rows ->
  StronglySorted by_time (flat_map timed_accesses rows) /\ Forall well_timed (flat_map timed_accesses rows) /\
  Forall (fun x => s.1 + 1 <= mem_ts x.2) (flat_map timed_accesses rows).
Proof.
  intros Hc Hr. induction Hc as [s | r rows s Hc IH]; [repeat constructor|].
  apply Forall_cons_iff in Hr as [Hr Hrs]. destruct (IH Hrs) as (I1 & I2 & I3).
  destruct (runs_states _ _ Hr) as (_ & _ & En). destruct (row_sorted _ _ Hr) as (S1 & S2 & S3).
  rewrite En in I3. unfold CLK_INC in I3. cbn [flat_map]. split; [|split].
  - apply (sorted_app _ _ ((state_of r).1 + 4)); [exact S1 | exact I1 | |].
    + eapply Forall_impl; [exact S3|]. cbn. lia.
    + eapply Forall_impl; [exact I3|]. cbn. lia.
  - apply Forall_app. auto.
  - apply Forall_app. split; (eapply Forall_impl; [eassumption|]); cbn; lia.
Qed.

(** ** The run *)
Section Run.
Context {M : Type} `{MemoryLaws M}.
Context (program : Program).
Context (ecall_handler : Executor M -> SyscallCode -> Res (Executor M * option Z)).

Lemma chain_run (rows : list (list Emit)) (s f : Z * Z) :
  chain state_of next_of s rows f -> Forall (runs program) rows ->
  forall (e : Executor M) (vs vs' : gmap Z Z),
  state_ok e vs -> (clk e, pc e) = s -> value_run vs (flat_map timed_accesses rows) vs' ->
  exists e', run program ecall_handler (length rows) e = Ok e' /\
    (clk e', pc e') = f /\ state_ok e' vs'.
Proof.
  intros Hc. induction Hc as [s | r rows s Hc IH]; intros Hr e vs vs' Hok Hs Hv.
  - apply value_run_nil in Hv as ->. exists e. auto.
  - apply Forall_cons_iff in Hr as [(pc0 & i & Hf & Hw & Hpc & [(clk0 & npc & Ei & Eo & Hst & _) _] & Hclk) Hr].
    cbn [flat_map] in Hv. apply values_app in Hv as (vm & Hv1 & Hv2).
    unfold state_of in Hs, Hclk. rewrite Ei in Hs, Hclk. cbn [hd fst] in Hs, Hclk.
    assert (clk e = clk0) by congruence. assert (pc e = pc0) by congruence. subst clk0 pc0.
    destruct (instruction_executes program ecall_handler e vs i Hok Hf Hw Hpc Hclk _ _ vm Hst Hv1)
      as (e1 & He & Ep & Ek & Hok1).
    destruct (IH Hr e1 vm vs' Hok1) as (e' & Hrun & Hfin & Hok'); [|exact Hv2|].
    + unfold next_of. rewrite Eo, Ep, Ek. reflexivity.
    + exists e'. cbn [length run]. rewrite He. auto.
Qed.
End Run.

(** ** A shard *)

(** The rows of a shard and what balances its buses: the states it starts and
    ends in, and the records its memory starts and ends with. *)
Record Shard : Type := mkShard {
  sh_rows : list ChipRow;
  sh_state_bumps : list StateBumpChip.Cols;
  sh_memory_bumps : list MemoryBumpChip.Cols;
  sh_init : list F;
  sh_fin : list F;
  sh_mem_init : list (list F);
  sh_mem_fin : list (list F)
}.

Record shard_ok (rrs : MajorOpcodes) (cfg : Config) (program : Program) (sh : Shard) (rows : list (list Emit)) : Prop :=
  mkShardOk {
  so_rows : Forall2 (fun r row => row_eval rrs cfg r = Ok row /\ row_is_real r = F1 /\ row_shape r /\ sats row)
              (sh_rows sh) rows;
  so_reads : Forall (fun row => Forall (program_messages program) (instruction_reads row)) rows;
  so_state_bumps : Forall (fun c => bump_shape c /\ StateBumpChip.is_real c = F1 /\ sats (StateBumpChip.eval c))
                     (sh_state_bumps sh);
  so_memory_bumps : Forall (fun c => MemoryBumpChip.is_real c = F1 /\ sats (MemoryBumpChip.eval c)) (sh_memory_bumps sh);
  so_init : state_bounds (sh_init sh);
  so_mem_init : Forall canonical_mem (sh_mem_init sh);
  so_state : sh_init sh :: flat_map (sends KState) (all_rows rows (sh_state_bumps sh) (sh_memory_bumps sh))
             ≡ₚ sh_fin sh :: flat_map (receives KState) (all_rows rows (sh_state_bumps sh) (sh_memory_bumps sh));
  so_mem : flat_map (sends KMemory) (all_rows rows (sh_state_bumps sh) (sh_memory_bumps sh)) ++ sh_mem_fin sh
           ≡ₚ flat_map (receives KMemory) (all_rows rows (sh_state_bumps sh) (sh_memory_bumps sh)) ++ sh_mem_init sh
}.

Section Shard.
Context (rrs : MajorOpcodes) (cfg : Config) (program : Program) (sh : Shard) (rows : list (list Emit)).
Context (Hprog : program_ok program) (Hok : shard_ok rrs cfg program sh rows).

Let all := all_rows rows (sh_state_bumps sh) (sh_memory_bumps sh).

Lemma shard_steps : Forall step_row rows.
Proof.
  pose proof (so_rows _ _ _ _ _ Hok) as H. clear Hok all. induction H as [|r row rs rows' (E & Re & Sh & Sa) _ IH]; [constructor|].
  constructor; [eapply chip_row_steps; eassumption | exact IH].
Qed.

Lemma shard_runs : Forall (runs program) rows.
Proof.
  destruct Hok as [_ Hrd Hsb Hmb Hi Hmi Hst Hm]. pose proof shard_steps as Hsteps.
  rewrite Forall_forall. intros row Hr.
  destruct (rows_execute program Hprog rows _ _ Hsteps Hrd Hsb Hmb _ _ Hi Hst _ _ Hmi Hm row Hr) as (pc & i & Hf & Hw & Hpc & Hex).
  exists pc, i. split; [exact Hf|]. split; [exact Hw|]. split; [exact Hpc|]. split; [exact Hex|].
  rewrite Forall_forall in Hsteps. destruct (Hsteps row Hr) as [(h & l & p0 & p1 & p2 & n0 & n1 & n2 & rest & E1 & _ & _ & _ & B & _) _].
  pose proof (received_high rows _ _ shard_steps Hsb Hmb _ _ Hi Hst row _ Hr E1) as Hh. cbn beta iota in Hh.
  unfold state_of, state_in. rewrite E1. cbn [flat_map state_message hd fst app]. unfold timestamp.
  pose proof (Fval_bound h). pose proof (Fval_bound l). lia.
Qed.

(** The state bus, in integers; the bump rows cancel. *)
Lemma shard_state (s f : Z * Z) :
  state_message (sh_init sh) = [s] -> state_message (sh_fin sh) = [f] ->
  s :: map next_of rows ≡ₚ f :: map state_of rows.
Proof.
  intros Es Ef. destruct Hok as [_ Hrd Hsb Hmb Hi Hmi Hst Hm].
  apply (Permutation_flat_map state_message) in Hst. cbn [flat_map] in Hst. rewrite Es, Ef in Hst. cbn [app] in Hst.
  assert (Hin : forall k : list Emit -> list (list F), flat_map state_message (flat_map k all)
    = flat_map (fun r => flat_map state_message (k r)) all)
    by (intros k; induction all; [reflexivity|]; cbn; rewrite flat_map_app; congruence).
  unfold all in Hin. rewrite !Hin in Hst. unfold all_rows in Hst. rewrite !flat_map_app in Hst.
  pose proof shard_runs as Hruns.
  assert (E1 : flat_map (fun r => flat_map state_message (sends KState r)) rows = map next_of rows).
  { clear - Hruns. induction Hruns as [|r rs Hr _ IH]; [reflexivity|]. cbn [flat_map map]. rewrite IH.
    destruct (runs_states _ _ Hr) as (_ & E & _). unfold state_out in E. rewrite E. reflexivity. }
  assert (E2 : flat_map (fun r => flat_map state_message (receives KState r)) rows = map state_of rows).
  { clear - Hruns. induction Hruns as [|r rs Hr _ IH]; [reflexivity|]. cbn [flat_map map]. rewrite IH.
    destruct (runs_states _ _ Hr) as (E & _). unfold state_in in E. rewrite E. reflexivity. }
  assert (E3 : forall k, (k = sends KState \/ k = receives KState) ->
    flat_map (fun r => flat_map state_message (k r)) (map MemoryBumpChip.eval (sh_memory_bumps sh)) = []).
  { intros k Hk. clear - Hmb Hk. induction Hmb as [|c cs [Re _] _ IH]; [reflexivity|]. cbn [flat_map map]. rewrite IH.
    destruct (memory_bump_messages c Re) as (_ & _ & [A1 A2] & _).
    destruct Hk as [-> | ->]; rewrite ?A1, ?A2; reflexivity. }
  assert (E4 : flat_map (fun r => flat_map state_message (sends KState r)) (map StateBumpChip.eval (sh_state_bumps sh))
    = flat_map (fun r => flat_map state_message (receives KState r)) (map StateBumpChip.eval (sh_state_bumps sh))).
  { assert (Hb : forall c v, c ∈ sh_state_bumps sh -> receives KState (StateBumpChip.eval c) = [v] -> state_bounds v).
    { intros c v Hc Hv. destruct Hok as [_ _ _ _ _ _ Hst' _].
      eapply (received_bounds program Hprog rows _ _ shard_steps Hrd Hsb Hmb _ _ Hi Hst'); [|exact Hv].
      right. apply list_elem_of_fmap. exists c. auto. }
    clear - Hsb Hb. induction Hsb as [|c cs (Sh & Re & Sa) _ IH]; [reflexivity|]. cbn [flat_map map].
    rewrite IH by (intros c' v Hc'; apply Hb; right; exact Hc').
    destruct (state_bump_sound c Sh Re Sa) as (v & v' & R1 & R2 & _ & Em). rewrite R1, R2. cbn [flat_map].
    rewrite Em by (eapply Hb; [left | exact R1]). reflexivity. }
  rewrite E1, E2, E4, !E3 in Hst by auto. rewrite !app_nil_r, !app_comm_cons in Hst.
  apply Permutation_app_inv_r in Hst. exact Hst.
Qed.

(** The accesses of a row, in integers. *)
Definition record_of (vs : list F) : MemMessage := hd (mkMem 0 0 0) (mem_message vs).

Lemma mem_message_record (vs : list F) : length vs = 9%nat -> mem_message vs = [record_of vs].
Proof.
  intros L. do 9 (destruct vs as [|? vs]; [discriminate L|]). destruct vs; [reflexivity | discriminate L].
Qed.

Lemma accesses_records (row : list Emit) (prs : list (list F * list F)) :
  row_accesses row prs ->
  accesses row = map (fun r => (record_of r.1, record_of r.2)) prs /\
  map fst (accesses row) = flat_map mem_message (sends KMemory row) /\
  map snd (accesses row) = flat_map mem_message (receives KMemory row).
Proof.
  intros (Es & Er & Hb & _). unfold accesses. rewrite Es, Er. clear Es Er.
  induction Hb as [|[p c] prs Hb _ (I1 & I2 & I3)]; [auto|].
  cbn [map flat_map fst snd] in *. destruct (ba_lengths _ _ Hb) as [L1 L2].
  rewrite (mem_message_record p L1), (mem_message_record c L2). cbn [app combine map fst snd].
  rewrite I1 in *. split; [reflexivity|]. rewrite I2, I3. auto.
Qed.

Lemma shard_accesses (row : list Emit) : row ∈ all -> exists prs, row_accesses row prs.
Proof.
  destruct Hok as [_ Hrd Hsb Hmb Hi Hmi Hst Hm].
  apply (all_accesses program Hprog rows _ _ shard_steps Hrd Hsb Hmb _ _ Hi Hst).
Qed.

Definition bump_accesses : list (MemMessage * MemMessage) :=
  flat_map accesses (map MemoryBumpChip.eval (sh_memory_bumps sh)).

Lemma bus_messages (k : list Emit -> list (list F)) (g : MemMessage * MemMessage -> MemMessage) (rows' : list (list Emit)) :
  rows' ≡ₚ rows -> (forall c, c ∈ sh_state_bumps sh -> k (StateBumpChip.eval c) = []) ->
  (forall row, row ∈ all -> map g (accesses row) = flat_map mem_message (k row)) ->
  map g (flat_map timed_accesses rows' ++ bump_accesses) ≡ₚ flat_map mem_message (flat_map k all).
Proof.
  intros Hp Hsil Hk.
  assert (Hin : forall l, flat_map mem_message (flat_map k l) = flat_map (fun r => flat_map mem_message (k r)) l)
    by (induction l; [reflexivity|]; cbn [flat_map]; rewrite flat_map_app; congruence).
  rewrite Hin. unfold all, all_rows in *. rewrite !flat_map_app, map_app, <- Hin. apply Permutation_app.
  - transitivity (flat_map (fun r => flat_map mem_message (k r)) rows'); [|rewrite Hin; apply Permutation_flat_map, Hp].
    assert (Hk' : forall r, r ∈ rows' -> map g (accesses r) = flat_map mem_message (k r))
      by (intros r Hr; apply Hk; rewrite !elem_of_app; left; rewrite <- Hp; exact Hr).
    clear - Hk'. induction rows' as [|r rs IH]; [reflexivity|]. cbn [flat_map]. rewrite map_app.
    apply Permutation_app; [|apply IH; intros r' Hr'; apply Hk'; right; exact Hr'].
    rewrite <- (Hk' r) by left. unfold timed_accesses. apply Permutation_map, timed_perm.
  - assert (E : flat_map (fun r => flat_map mem_message (k r)) (map StateBumpChip.eval (sh_state_bumps sh)) = []).
    { clear - Hsil. induction (sh_state_bumps sh) as [|c cs IH]; [reflexivity|]. cbn [map flat_map].
      rewrite (Hsil c) by left. apply IH. intros c' Hc'. apply Hsil. right. exact Hc'. }
    rewrite E. cbn [app]. unfold bump_accesses.
    assert (Hk' : forall r, r ∈ map MemoryBumpChip.eval (sh_memory_bumps sh) -> map g (accesses r) = flat_map mem_message (k r))
      by (intros r Hr; apply Hk; rewrite !elem_of_app; tauto).
    clear - Hk'. induction (map MemoryBumpChip.eval (sh_memory_bumps sh)) as [|r rs IH]; [reflexivity|].
    cbn [flat_map]. rewrite map_app, (Hk' r), IH by (left || (intros r' Hr'; apply Hk'; right; exact Hr')). reflexivity.
Qed.

Lemma shard_memory (rows' : list (list Emit)) :
  rows' ≡ₚ rows ->
  map fst (flat_map timed_accesses rows' ++ bump_accesses) ++ flat_map mem_message (sh_mem_fin sh)
  ≡ₚ map snd (flat_map timed_accesses rows' ++ bump_accesses) ++ flat_map mem_message (sh_mem_init sh).
Proof.
  intros Hp. pose proof (so_state_bumps _ _ _ _ _ Hok) as Hsb. rewrite Forall_forall in Hsb.
  rewrite (bus_messages (sends KMemory) fst rows' Hp), (bus_messages (receives KMemory) snd rows' Hp).
  - rewrite <- !flat_map_app. apply Permutation_flat_map, (so_mem _ _ _ _ _ Hok).
  - intros c Hc. destruct (Hsb c Hc) as (_ & Re & _). apply (state_bump_messages c Re).
  - intros row Hr. destruct (shard_accesses row Hr) as (prs & Ha). apply (accesses_records row prs Ha).
  - intros c Hc. destruct (Hsb c Hc) as (_ & Re & _). apply (state_bump_messages c Re).
  - intros row Hr. destruct (shard_accesses row Hr) as (prs & Ha). apply (accesses_records row prs Ha).
Qed.

(** The accesses of the memory bump rows keep the value. *)
Lemma bump_accesses_ok : Forall keeps_value bump_accesses /\ Forall well_timed bump_accesses.
Proof.
  destruct Hok as [_ Hrd Hsb Hmb Hi Hmi Hst Hm]. unfold bump_accesses.
  assert (H : forall x, x ∈ flat_map accesses (map MemoryBumpChip.eval (sh_memory_bumps sh)) ->
              keeps_value x /\ well_timed x).
  { intros x Hx. apply list_elem_of_In, in_flat_map in Hx as (row & Hr & Hx).
    apply list_elem_of_In in Hr. assert (Hall : row ∈ all) by (unfold all, all_rows; rewrite !elem_of_app; tauto).
    pose proof (sent_canonical program Hprog rows _ _ shard_steps Hrd Hsb Hmb _ _ Hi Hst _ _ Hmi Hm row Hall) as Hcan.
    apply list_elem_of_fmap in Hr as (c & -> & Hc). rewrite Forall_forall in Hmb. destruct (Hmb c Hc) as [Re Sa].
    destruct (memory_bump_messages c Re) as (E1 & E2 & _). destruct (memory_bump_sound c Re Sa) as [[Hb Hw] _].
    unfold accesses in Hx. rewrite E1, E2 in Hx. rewrite E1 in Hcan. apply Forall_inv in Hcan.
    apply canonical_mem_parts in Hcan as [Hts _]. pose proof (ba_later _ _ Hb Hts) as Hlt.
    unfold bump_sent, bump_received in *. destruct (MemoryBumpChip.access c) as [[w0 w1 w2 w3] ts].
    cbn [app word_list limb0 limb1 limb2 limb3 flat_map mem_message combine MemoryAccess.prev_value record_ts
         MemoryAccess.access_timestamp] in *.
    destruct Hx as [<- | []]. repeat split. exact Hlt. }
  split; rewrite Forall_forall; intros x Hx; apply (H x Hx).
Qed.

(** The shard's rows are a run of the executor. *)
Lemma shard_run {M : Type} `{MemoryLaws M}
    (ecall_handler : Executor M -> SyscallCode -> Res (Executor M * option Z)) (st : Store) (e : Executor M) (f : Z * Z) :
  state_message (sh_init sh) = [(clk e, pc e)] -> state_message (sh_fin sh) = [f] ->
  flat_map mem_message (sh_mem_init sh) ≡ₚ records st -> state_ok e (snd <$> st) ->
  exists e' st', run program ecall_handler (length rows) e = Ok e' /\ (clk e', pc e') = f /\
    state_ok e' (snd <$> st') /\ flat_map mem_message (sh_mem_fin sh) ≡ₚ records st'.
Proof.
  intros Es Ef Hst Hr. pose proof shard_runs as Hruns.
  destruct (state_chain state_of next_of rows (clk e, pc e) f) as (rows' & Hp & Hch); [| exact (shard_state _ _ Es Ef) |].
  { eapply Forall_impl; [exact Hruns|]. intros row Hrow. destruct (runs_states _ _ Hrow) as (_ & _ & E).
    cbn beta. rewrite E. unfold CLK_INC. lia. }
  assert (Hruns' : Forall (runs program) rows') by (rewrite Hp; exact Hruns).
  destruct (chain_sorted program rows' _ _ Hch Hruns') as (Hsort & Hwt & _). destruct bump_accesses_ok as [Hk Hwb].
  destruct (sequential_values _ bump_accesses st (flat_map mem_message (sh_mem_fin sh)) Hsort Hk) as (st' & Hv & Hfin).
  - apply Forall_app. auto.
  - rewrite (shard_memory rows' Hp), Hst. reflexivity.
  - destruct (chain_run program ecall_handler rows' _ f Hch Hruns' e _ _ Hr eq_refl Hv)
      as (e' & Hrun & Hf & Hok').
    exists e', st'. rewrite <- Hp. auto.
Qed.
End Shard.

(** ** Traces with padding rows *)

(** The table of a chip is padded to a height with rows that satisfy its
    constraints; nothing is assumed of [is_real]. *)
Record trace_ok (rrs : MajorOpcodes) (cfg : Config) (program : Program) (sh : Shard) (rows : list (list Emit)) : Prop :=
  mkTraceOk {
  to_rows : Forall2 (fun r row => row_eval rrs cfg r = Ok row /\ row_shape r /\ sats row) (sh_rows sh) rows;
  to_reads : Forall (fun row => Forall (program_messages program) (instruction_reads row)) rows;
  to_state_bumps : Forall (fun c => bump_shape c /\ sats (StateBumpChip.eval c)) (sh_state_bumps sh);
  to_memory_bumps : Forall (fun c => sats (MemoryBumpChip.eval c)) (sh_memory_bumps sh);
  to_init : state_bounds (sh_init sh);
  to_mem_init : Forall canonical_mem (sh_mem_init sh);
  to_state : sh_init sh :: flat_map (sends KState) (all_rows rows (sh_state_bumps sh) (sh_memory_bumps sh))
             ≡ₚ sh_fin sh :: flat_map (receives KState) (all_rows rows (sh_state_bumps sh) (sh_memory_bumps sh));
  to_mem : flat_map (sends KMemory) (all_rows rows (sh_state_bumps sh) (sh_memory_bumps sh)) ++ sh_mem_fin sh
           ≡ₚ flat_map (receives KMemory) (all_rows rows (sh_state_bumps sh) (sh_memory_bumps sh)) ++ sh_mem_init sh
}.

(** The rows that are real. *)
Definition real (x : F) : bool := Feqb x F1.
Definition real_rows (sh : Shard) : list ChipRow := List.filter (fun r => real (row_is_real r)) (sh_rows sh).
Definition real_shard (sh : Shard) : Shard :=
  mkShard (real_rows sh) (List.filter (fun c => real (StateBumpChip.is_real c)) (sh_state_bumps sh))
    (List.filter (fun c => real (MemoryBumpChip.is_real c)) (sh_memory_bumps sh))
    (sh_init sh) (sh_fin sh) (sh_mem_init sh) (sh_mem_fin sh).

Lemma idle_quiet (r : F) (row : list Emit) : idle_or_real r row -> real r = false -> quiet row.
Proof.
  intros [[E | E] Hq] Hr; [apply Hq, E|]. unfold real in Hr. rewrite E, Feqb_refl in Hr. discriminate.
Qed.

(** Leaving out silent rows changes no bus. *)
Lemma filter_messages {A} (f : A -> bool) (ev : A -> list Emit) (l : list A) (k : list Emit -> list (list F)) :
  Forall (fun a => f a = false -> k (ev a) = []) l ->
  flat_map k (map ev (List.filter f l)) = flat_map k (map ev l).
Proof.
  induction 1 as [|a l Ha _ IH]; [reflexivity|]. cbn [List.filter map flat_map]. destruct (f a) eqn:E; cbn [map flat_map].
  - rewrite IH. reflexivity.
  - rewrite (Ha eq_refl), IH. reflexivity.
Qed.

Lemma filter_rows {A} (f : A -> bool) (R : A -> list Emit -> Prop) (l : list A) (rows : list (list Emit)) :
  Forall2 R l rows ->
  exists rows', Forall2 (fun a row => R a row /\ f a = true) (List.filter f l) rows' /\ rows' ⊆ rows /\
    forall k : list Emit -> list (list F), (forall a row, R a row -> f a = false -> k row = []) ->
      flat_map k rows' = flat_map k rows.
Proof.
  induction 1 as [|a row l rows Ha _ (rows' & H1 & H2 & H3)]; [exists []; split; [constructor | split; [set_solver | reflexivity]]|].
  cbn [List.filter]. destruct (f a) eqn:E.
  - exists (row :: rows'). split; [constructor; auto|]. split; [apply list_subseteq_skip, H2|].
    intros k Hk. cbn [flat_map]. rewrite H3; auto.
  - exists rows'. split; [exact H1|]. split; [apply list_subseteq_cons, H2|].
    intros k Hk. cbn [flat_map]. rewrite (Hk a row Ha E), H3; auto.
Qed.

Lemma trace_real (rrs : MajorOpcodes) (cfg : Config) (program : Program) (sh : Shard) (rows : list (list Emit)) :
  trace_ok rrs cfg program sh rows ->
  exists rows', shard_ok rrs cfg program (real_shard sh) rows' /\ length rows' = length (real_rows sh).
Proof.
  intros [Hr Hrd Hsb Hmb Hi Hmi Hst Hm].
  destruct (filter_rows (fun r => real (row_is_real r)) _ _ _ Hr) as (rows' & H1 & H2 & H3).
  exists rows'. split; [|symmetry; eapply Forall2_length; exact H1].
  assert (Hreal : forall x, real x = true -> x = F1) by (intros x; apply Feqb_eq).
  assert (Hbus : forall (k : InteractionKind) (d : list Emit -> list (list F)), k <> KByte ->
    (d = sends k \/ d = receives k) ->
    flat_map d (all_rows rows' (sh_state_bumps (real_shard sh)) (sh_memory_bumps (real_shard sh)))
    = flat_map d (all_rows rows (sh_state_bumps sh) (sh_memory_bumps sh))).
  { intros k d Hk Hd. unfold all_rows. rewrite !flat_map_app.
    assert (Hq : forall l, quiet l -> d l = []) by (intros l Hl; destruct (Hl k Hk), Hd as [-> | ->]; assumption).
    rewrite H3. 2:{ intros a row (Ee & _ & Sa) Ef. eapply Hq, idle_quiet; [|exact Ef]. eapply chip_row_idle; eassumption. }
    cbn [real_shard sh_state_bumps sh_memory_bumps]. f_equal. f_equal.
    - apply filter_messages. eapply Forall_impl; [exact Hsb|]. intros c [_ Sa] Ef.
      eapply Hq, idle_quiet; [apply state_bump_idle, Sa | exact Ef].
    - apply filter_messages. eapply Forall_impl; [exact Hmb|]. intros c Sa Ef.
      eapply Hq, idle_quiet; [apply memory_bump_idle, Sa | exact Ef]. }
  split; cbn [real_shard sh_init sh_fin sh_mem_init sh_mem_fin sh_rows].
  - eapply Forall2_impl; [exact H1|]. intros r row [(Ee & Sh & Sa) Re]. apply Hreal in Re. auto.
  - rewrite Forall_forall in Hrd |- *. set_solver.
  - cbn [sh_state_bumps]. rewrite Forall_forall in Hsb |- *. intros c Hc.
    apply list_elem_of_In, filter_In in Hc as [Hc Re]. apply list_elem_of_In, Hsb in Hc as [Sh Sa].
    apply Hreal in Re. auto.
  - cbn [sh_memory_bumps]. rewrite Forall_forall in Hmb |- *. intros c Hc.
    apply list_elem_of_In, filter_In in Hc as [Hc Re]. apply list_elem_of_In, Hmb in Hc.
    apply Hreal in Re. auto.
  - exact Hi.
  - exact Hmi.
  - rewrite !(Hbus KState) by (auto; discriminate). exact Hst.
  - rewrite !(Hbus KMemory) by (auto; discriminate). exact Hm.
Qed.
