(* ===== verification/Examples.v ===== *)
(** * Examples

    Concrete inputs of the modelled program, at which the hypotheses of the
    theorems hold. *)

From stdpp Require Import base gmap list sorting.
From Stdlib Require Import ZArith Lia.
From S2P Require Import Prelude Words Isa Field Air AirFacts Operations Compare Bitwise Mul.
From S2P Require Import Adapter AdapterFacts Row Readers AluChips AluChipFacts DivRem DivRemFacts.
From S2P Require Import Address MemoryChips MemoryChipFacts MemoryComplete ControlChips ControlChipFacts ControlComplete.
From S2P Require Import Memory.
From S2P Require Import Bump MemoryArgument Executor ExecutorFacts Tables Machine MachineRun.
Open Scope Z_scope.


#[export] Instance MemMessage_eq_dec : EqDecision MemMessage.
Proof. solve_decision. Defined.

(** ** An example shard

    A loop that adds two registers, stores the sum, loads a byte of it back and
    branches to its start.  Between the first and the second instruction the
    clock carries out of its low 24 bits and the program counter out of its low
    limb, so that the rows of both bump chips are needed; a zero row pads the
    table of [SubChip]. *)
Module Example.
(** The major opcodes of the RISC-V specification. *)
Definition rrs : MajorOpcodes := mkMajorOpcodes 0x03 0x13 0x17 0x1b 0x23 0x33 0x37 0x3b 0x63 0x67 0x6f 0x73.
Definition cfg : Config := mkConfig false F0 (mkSegmentFlags 0 4 2 1).

Definition i1 : Instruction := mkInstruction ADD 3 1 2 false false.
Definition i2 : Instruction := mkInstruction SD 3 5 0 false true.
Definition i3 : Instruction := mkInstruction LBU 4 5 0 false true.
Definition i4 : Instruction := mkInstruction BEQ 4 3 (2 ^ 64 - 12) false true.
Definition program : Program := mkProgram [i1; i2; i3; i4] 65532 65532 [] [] None.

Definition clk1 : Z := 2 ^ 24 - 7.
Definition clk2 : Z := 2 ^ 24 + 1.
Definition clk3 : Z := 2 ^ 24 + 9.
Definition clk4 : Z := 2 ^ 24 + 17.
Definition address : Z := 0x20000.

Definition read (v t p : Z) : MemoryRecordEnum := Read (mkMemoryReadRecord v t p None).
Definition write (pv pt v t : Z) : MemoryRecordEnum := Write (mkMemoryWriteRecord pt None pv t v).

Definition e1 : AluEvent := mkAluEvent clk1 65532 ADD 16 7 9 false.
Definition r1 : RTypeRecord :=
  mkRTypeRecord 3 (write 0 0 16 (clk1 + 4)) 1 (read 7 (clk1 + 3) 0) 2 (read 9 (clk1 + 2) 0) false.
Definition e2 : MemInstrEvent := mkMemInstrEvent clk2 65536 SD 16 address 0 false (write 0 0 16 (clk2 + 1)).
Definition r2 : ITypeRecord :=
  mkITypeRecord 3 (read 16 (clk2 + 4) (2 ^ 24)) 5 (read address (clk2 + 3) (2 ^ 24)) 0 false.
Definition e3 : MemInstrEvent := mkMemInstrEvent clk3 65540 LBU 16 address 0 false (read 16 (clk3 + 1) (clk2 + 1)).
Definition r3 : ITypeRecord :=
  mkITypeRecord 4 (write 0 (2 ^ 24) 16 (clk3 + 4)) 5 (read address (clk3 + 3) (clk2 + 3)) 0 false.
Definition e4 : BranchEvent := mkBranchEvent clk4 65544 65532 BEQ 16 16 (2 ^ 64 - 12) false.
Definition r4 : ITypeRecord :=
  mkITypeRecord 4 (read 16 (clk4 + 4) (clk3 + 4)) 3 (read 16 (clk4 + 3) (clk2 + 4)) (2 ^ 64 - 12) false.

Definition cols {C} (r : Res (C * list ByteLookupEvent)) : list C :=
  match r with Ok p => [fst p] | Panic => [] end.
Definition row1 : AddChip.Cols := fst (AddChip.event_to_row false e1 r1).
Definition sbump : StateBumpChip.Cols := StateBumpChip.event_to_row clk1 CLK_INC true 65536.
Definition b3 := MemoryBumpChip.event_to_row (read 16 (clk2 + 4) (clk1 + 4)) 3 false.
Definition b5 := MemoryBumpChip.event_to_row (read address (clk2 + 3) 0) 5 false.
Definition b4 := MemoryBumpChip.event_to_row (write 0 0 16 (clk3 + 4)) 4 false.

(** The address columns of the store and of the load. *)
Definition address_cols : AddressOperation.Cols :=
  AddressOperation.mkCols (AddrAddOperation.mkCols (Fof 0) (Fof 2) (Fof 0)) (Finv (Fof 2)).
Definition store_row (acc : MemoryAccess.Cols) : StoreDoubleChip.Cols :=
  StoreDoubleChip.mkCols (fst (CPUState.populate clk2 65536)) (fst (ITypeReader.populate r2)) address_cols acc F1
    SupervisorMode.
Definition load_row (acc : MemoryAccess.Cols) : LoadByteChip.Cols :=
  LoadByteChip.mkCols (fst (CPUState.populate clk3 65540)) (fst (ITypeReader.populate r3)) address_cols acc
    F0 F0 F0 (Fof 16) (Fof 16) (Fof 16) F0 F0 F1 SupervisorMode.

(** A padding row. *)
Definition zero_access : RegisterAccess.Cols := RegisterAccess.mkCols word_zero (RegisterAccessTimestamp.mkCols F0 F0).
Definition padding : SubChip.Cols :=
  SubChip.mkCols (CPUState.mkCols F0 F0 F0 F0 F0 F0)
    (RTypeReader.mkCols F0 zero_access F0 F0 zero_access F0 zero_access) (SubOperation.mkCols word_zero) F0 SupervisorMode.

(** A record as the message of the memory bus. *)
Definition record (t a v : Z) : list F :=
  [Fof (ts_high t); Fof (ts_low t); Fof (limb16 a 0); Fof (limb16 a 1); Fof (limb16 a 2)] ++ word_list (word_from_u64 v).
Definition state (clk pc : Z) : list F := [Fof (ts_high clk); Fof (ts_low clk)] ++ map Fof (StateBumpChip.pc_limbs pc).

Definition rows : list ChipRow :=
  [RAdd row1; RSub padding] ++ map (fun a => RStoreDouble (store_row a)) (cols (MemoryAccess.populate (me_mem_access e2))) ++
  map (fun a => RLoadByte (load_row a)) (cols (MemoryAccess.populate (me_mem_access e3))) ++
  map RBranch (cols (BranchChip.event_to_row false e4 r4)).

Definition shard : Shard :=
  mkShard rows [sbump] (cols b3 ++ cols b5 ++ cols b4)
    (state clk1 65532) (state (clk4 + 8) 65532)
    [record 0 1 7; record 0 2 9; record 0 3 0; record 0 4 0; record 0 5 address; record 0 address 0]
    [record (clk1 + 3) 1 7; record (clk1 + 2) 2 9; record (clk4 + 3) 3 16; record (clk4 + 4) 4 16;
     record (clk3 + 3) 5 address; record (clk3 + 1) address 16].

Definition emits : list (list Emit) :=
  flat_map (fun r => match row_eval rrs cfg r with Ok row => [row] | Panic => [] end) rows.

Definition store : Store :=
  list_to_map [(1, (0, 7)); (2, (0, 9)); (3, (0, 0)); (4, (0, 0)); (5, (0, address)); (address, (0, 0))].
Definition start : Executor (gmap Z MemValue) :=
  mkExecutor (0 :: 7 :: 9 :: 0 :: 0 :: address :: repeat 0 26) ∅ None 65532 clk1 0 0 0 None None
    (mkHostState [] [] 0 (repeat 0 8) [] (MaybeCowPageProt.Owned ∅)).


(** ** Its rows satisfy their constraints *)

Definition row_good (r : ChipRow) : Prop := row_shape r /\ exists row, row_eval rrs cfg r = Ok row /\ sats row.

Lemma good_rows (l : list ChipRow) :
  Forall row_good l ->
  Forall2 (fun r row => row_eval rrs cfg r = Ok row /\ row_shape r /\ sats row) l
    (flat_map (fun r => match row_eval rrs cfg r with Ok row => [row] | Panic => [] end) l).
Proof.
  induction 1 as [|r l (Hsh & row & E & Hs) _ IH]; [constructor|]. cbn [flat_map]. rewrite E. constructor; auto.
Qed.

Lemma good_rowb (r : ChipRow) :
  row_shape r -> match row_eval rrs cfg r with Ok row => satsb row | Panic => false end = true -> row_good r.
Proof.
  intros Hsh H. split; [exact Hsh|]. destruct (row_eval rrs cfg r) as [row|]; [|discriminate].
  exists row. split; [reflexivity | apply satsb_spec, H].
Qed.

Lemma cfg_is_ok : cfg_ok cfg false.
Proof. split; discriminate. Qed.

Lemma e1_ok : alu_event_ok e1.
Proof. split; vm_compute; intuition congruence. Qed.
Lemma r1_ok : r_record_ok e1 r1.
Proof. vm_compute. intuition congruence. Qed.
Lemma e2_ok : mem_event_ok e2 r2.
Proof. split; vm_compute; intuition congruence. Qed.
Lemma e3_ok : mem_event_ok e3 r3.
Proof. split; vm_compute; intuition congruence. Qed.
Lemma store_e2_ok : store_event_ok e2 r2.
Proof. vm_compute. intuition congruence. Qed.
Lemma load_e3_ok : load_event_ok e3.
Proof. vm_compute. intuition congruence. Qed.
Lemma e4_ok : branch_event_ok e4 r4 true.
Proof. split; vm_compute; intuition congruence. Qed.

Lemma padding_ok : row_good (RSub padding).
Proof. apply good_rowb; [exact I | vm_compute; reflexivity]. Qed.

Lemma rows_good : Forall row_good rows.
Proof. repeat (apply Forall_cons; split; [apply good_rowb; [exact I | vm_compute; reflexivity]|]). apply Forall_nil. exact I. Qed.

Lemma bump_good (m : Res (MemoryBumpChip.Cols * list ByteLookupEvent)) :
  (exists c ev, m = Ok (c, ev) /\ complete (MemoryBumpChip.eval c) ev) ->
  Forall (fun c => sats (MemoryBumpChip.eval c)) (cols m).
Proof. intros (c & ev & -> & [Hs _]). constructor; [exact Hs | constructor]. Qed.

Lemma bumps_ok : Forall (fun c => sats (MemoryBumpChip.eval c)) (sh_memory_bumps shard).
Proof.
  repeat (apply Forall_app; split); apply bump_good, memory_bump_complete; vm_compute; intuition congruence.
Qed.

Lemma sbump_ok : Forall (fun c => bump_shape c /\ sats (StateBumpChip.eval c)) (sh_state_bumps shard).
Proof.
  constructor; [|constructor]. split; [split; reflexivity|].
  apply (state_bump_complete clk1 CLK_INC true 65536); vm_compute; intuition congruence.
Qed.

(** ** Its buses are balanced *)

Definition fetches : list (list (list F)) :=
  [[instruction_message 65532 i1]; []; [instruction_message 65536 i2]; [instruction_message 65540 i3];
   [instruction_message 65544 i4]].

Lemma emits_reads : map instruction_reads emits = fetches.
Proof. apply (bool_decide_unpack _). vm_compute. exact I. Qed.

Lemma fetches_ok : Forall (Forall (program_messages program)) fetches.
Proof.
  assert (E : forall n m, match ProgramChip.preprocessed_row program n with
    | Ok prep => receives KProgram (ProgramChip.eval prep F1) = [m] | Panic => False end -> program_messages program m).
  { intros n m Hm. destruct (ProgramChip.preprocessed_row program n) as [prep|] eqn:Ep; [|contradiction].
    exists n, prep, F1. auto. }
  repeat constructor; [apply (E 0%nat) | apply (E 1%nat) | apply (E 2%nat) | apply (E 3%nat)]; vm_compute; reflexivity.
Qed.

Lemma reads_ok : Forall (fun row => Forall (program_messages program) (instruction_reads row)) emits.
Proof. apply Forall_map. rewrite emits_reads. exact fetches_ok. Qed.

Lemma trace_is_ok : trace_ok rrs cfg program shard emits.
Proof.
  split.
  - apply good_rows, rows_good.
  - exact reads_ok.
  - exact sbump_ok.
  - exact bumps_ok.
  - vm_compute. intuition congruence.
  - repeat constructor; vm_compute; reflexivity.
  - apply (bool_decide_unpack _). vm_compute. exact I.
  - apply (bool_decide_unpack _). vm_compute. exact I.
Qed.

Lemma program_is_ok : program_ok program.
Proof. split; [vm_compute; congruence.. | repeat constructor; vm_compute; intuition congruence]. Qed.

Lemma init_records : flat_map mem_message (sh_mem_init shard) ≡ₚ records store.
Proof. apply (bool_decide_unpack _). vm_compute. exact I. Qed.

(** ** The executor's state holds the initial records *)

Lemma store_keys (a v : Z) : (snd <$> store) !! a = Some v -> a ∈ [1; 2; 3; 4; 5; address].
Proof.
  intros E. destruct (decide (a ∈ [1; 2; 3; 4; 5; address])) as [|Hn]; [assumption|]. exfalso.
  rewrite lookup_fmap in E. unfold store in E. rewrite not_elem_of_list_to_map_1 in E; [discriminate|]. exact Hn.
Qed.

Lemma start_regs : regs_ok (registers start) (snd <$> store).
Proof.
  split; [reflexivity|]. split; [reflexivity|]. intros r v Hr E. pose proof (store_keys r v E) as Hk.
  rewrite !elem_of_cons in Hk.
  destruct Hk as [-> | [-> | [-> | [-> | [-> | [-> | Hn]]]]]]; [vm_compute in E |- *; exact E.. | |].
  - exfalso. vm_compute in Hr. destruct Hr as [_ Hr]. discriminate Hr.
  - apply elem_of_nil in Hn. contradiction.
Qed.

Lemma start_ok : state_ok start (snd <$> store).
Proof.
  split; [exact start_regs|]. split; [|reflexivity]. intros a v Ha E. pose proof (store_keys a v E) as Hk.
  rewrite !elem_of_cons, elem_of_nil in Hk. assert (a = address) as -> by (unfold address in *; lia).
  vm_compute in E |- *. split; [reflexivity | congruence].
Qed.

Lemma start_inv : exec_inv start.
Proof.
  split; [reflexivity | reflexivity | | apply map_Forall_empty | split; [discriminate | reflexivity] | discriminate | |].
  - repeat constructor; discriminate.
  - repeat constructor; discriminate.
  - split; [split; [discriminate | reflexivity] | reflexivity].
Qed.
End Example.
