(* ===== verification/Theorems.v ===== *)
(** * The theorems of the development

    The main properties of the modelled program, each with a witness that its
    hypotheses hold of a concrete input. *)

From stdpp Require Import base gmap list sorting relations.
From Stdlib Require Import ZArith Lia.
From S2P Require Import SyscallCode.
From S2P Require Import Prelude Words Isa Field Air AirFacts SmallInverse Operations Compare Bitwise Mul.
From S2P Require Import Adapter AdapterFacts Row Readers AluChips AluChipFacts DivRem DivRemFacts DivRemComplete.
From S2P Require Import Address MemoryChips MemoryChipFacts MemoryComplete ControlChips ControlChipFacts ControlComplete.
From S2P Require Import ShiftChips ShiftFacts ShiftComplete AluX0 Padding.
From S2P Require Import Bump MemoryArgument Executor ExecutorFacts Tables ByteCounts Machine MachineRun Examples.
Open Scope Z_scope.

(** ** The machine *)

(** C1: soundness of the machine.  Take a trace of rows of the twenty-five
    instruction chips, of the state bump chip and of the memory bump chip, real
    or padding, all satisfying their constraints, whose instruction lookups are
    rows of the program table, and whose state and memory buses are balanced by
    an initial and a final state and by canonical initial and final records, one
    per address.  Then the real instruction rows are a run of the executor:
    started in the initial state, with registers and memory holding the initial
    records, [execute_instruction] runs as many times as there are real rows
    without a panic, and ends in the final state, with registers and memory
    holding the final records. *)
Theorem machine_sound {M : Type} `{MemoryLaws M}
    (ecall_handler : Executor M -> SyscallCode -> Res (Executor M * option Z))
    (rrs : MajorOpcodes) (cfg : Config) (program : Program) (sh : Shard) (rows : list (list Emit))
    (st : Store) (e : Executor M) (clk' pc' : Z) :
  program_ok program -> trace_ok rrs cfg program sh rows ->
  state_message (sh_init sh) = [(clk e, pc e)] -> state_message (sh_fin sh) = [(clk', pc')] ->
  flat_map mem_message (sh_mem_init sh) ≡ₚ records st -> state_ok e (snd <$> st) ->
  exists e' st', run program ecall_handler (length (real_rows sh)) e = Ok e' /\
    clk e' = clk' /\ pc e' = pc' /\ state_ok e' (snd <$> st') /\
    flat_map mem_message (sh_mem_fin sh) ≡ₚ records st'.
Proof.
  intros Hp Ht Hi Hf Hm Hr. destruct (trace_real _ _ _ _ _ Ht) as (rows' & Hsh & <-).
  destruct (shard_run rrs cfg program _ rows' Hp Hsh ecall_handler st e (clk', pc') Hi Hf Hm Hr)
    as (e' & st' & Hrun & E & Hok & Hfin).
  exists e', st'. split; [exact Hrun|]. split; [congruence|]. split; [congruence|]. auto.
Qed.

Lemma machine_sound_witness :
  exists e' st', run Example.program (fun _ _ => Panic) 4 Example.start = Ok e' /\
    clk e' = Example.clk4 + 8 /\ pc e' = 65532 /\ state_ok e' (snd <$> st') /\
    flat_map mem_message (sh_mem_fin Example.shard) ≡ₚ records st'.
Proof.
  apply (machine_sound (fun _ _ => Panic) Example.rrs Example.cfg Example.program
           Example.shard Example.emits Example.store Example.start (Example.clk4 + 8) 65532).
  - exact Example.program_is_ok.
  - exact Example.trace_is_ok.
  - vm_compute. reflexivity.
  - vm_compute. reflexivity.
  - apply Example.init_records.
  - exact Example.start_ok.
Defined.

(** C2: soundness of every row.  A row of an instruction chip that satisfies
    its constraints and is not padding executes the instruction it looks up:
    given canonical records and a program counter, it receives one state,
    sends the state of the executor's step, 8 clock cycles later, and its
    memory accesses are those of the step, with the step's values, at later
    timestamps than the records they replace. *)
Theorem chip_row_sound (rrs : MajorOpcodes) (cfg : Config) (r : ChipRow) (row : list Emit) (pc : Z) (i : Instruction) :
  row_eval rrs cfg r = Ok row -> row_shape r -> sats row -> row_is_real r <> F0 -> row_inputs row pc i ->
  executes row pc i.
Proof.
  intros E Hsh Hs Hr Hin. destruct (chip_row_idle rrs cfg r row E Hs) as [[H0 | H1] _]; [contradiction|].
  destruct (chip_row_steps rrs cfg r row E H1 Hsh Hs) as [_ H]. auto.
Qed.

Lemma chip_row_sound_witness :
  exists row, row_eval Example.rrs Example.cfg (RAdd Example.row1) = Ok row /\ executes row 65532 Example.i1.
Proof.
  destruct (add_chip_completes Example.rrs Example.cfg false Example.e1 Example.cfg_is_ok Example.e1_ok
              Example.r1 Example.r1_ok) as (row & E & [Hs _]).
  exists row. split; [exact E|].
  apply (chip_row_sound Example.rrs Example.cfg (RAdd Example.row1) row 65532 Example.i1 E I Hs); [apply F1_neq_0|].
  assert (Er : Ok row = AddChip.eval Example.rrs Example.cfg Example.row1) by (symmetry; exact E).
  apply Ok_inj in Er. rewrite Er. unfold row_inputs. split; [|split; [|split; [|split; [lia|]]]].
  - repeat constructor; vm_compute; intuition congruence.
  - repeat constructor; vm_compute; intuition congruence.
  - apply (bool_decide_unpack _). vm_compute. exact I.
  - vm_compute. intuition congruence.
Defined.

(** C3: padding is inert.  In every row of an instruction chip that satisfies
    its constraints [is_real] is 0 or 1, and a row with [is_real = 0] sends and
    receives nothing on any bus but the byte table. *)
Theorem padding_silent (rrs : MajorOpcodes) (cfg : Config) (r : ChipRow) (row : list Emit) :
  row_eval rrs cfg r = Ok row -> sats row ->
  is_bool (row_is_real r) /\
  (row_is_real r = F0 -> forall k, k <> KByte -> sends k row = [] /\ receives k row = []).
Proof. exact (chip_row_idle rrs cfg r row). Qed.

Lemma padding_silent_witness :
  exists row, row_eval Example.rrs Example.cfg (RSub Example.padding) = Ok row /\
    sends KState row = [] /\ receives KMemory row = [].
Proof.
  destruct Example.padding_ok as (_ & row & E & Hs). exists row. split; [exact E|].
  destruct (padding_silent Example.rrs Example.cfg (RSub Example.padding) row E Hs) as [_ H].
  pose proof (H eq_refl KState ltac:(discriminate)) as [H1 _].
  pose proof (H eq_refl KMemory ltac:(discriminate)) as [_ H2]. auto.
Defined.

(** ** Trace generation *)

(** C4: the trace of the ALU chips is complete.  For an event that records an
    execution of an ALU instruction, with 64-bit operands, and the register
    accesses of the instruction, the row that trace generation makes satisfies
    the chip's constraints, in supervisor and in user mode, and the byte
    lookups of the row are exactly the recorded lookup events. *)
Theorem alu_trace_complete (rrs : MajorOpcodes) (cfg : Config) (user : bool) (event : AluEvent) :
  cfg_ok cfg user -> alu_event_ok event -> rrs_ok rrs ->
  (forall rec, r_record_ok event rec ->
     chip_complete (AddChip.eval rrs cfg) (AddChip.event_to_row user event rec) /\
     chip_complete (SubChip.eval rrs cfg) (SubChip.event_to_row user event rec) /\
     chip_complete (SubwChip.eval rrs cfg) (SubwChip.event_to_row user event rec) /\
     (is_mul_opcode (ev_opcode event) = true ->
      chip_complete (MulChip.eval rrs cfg) (MulChip.event_to_row user event rec))) /\
  (forall rec, i_record_ok event rec ->
     chip_complete (AddiChip.eval rrs cfg) (AddiChip.event_to_row user event rec)) /\
  (forall rec, alu_record_ok event rec ->
     chip_complete (AddwChip.eval rrs cfg) (AddwChip.event_to_row user event rec) /\
     (ev_opcode event = AND \/ ev_opcode event = OR \/ ev_opcode event = XOR ->
      exists r, BitwiseChip.event_to_row user event rec = Ok r /\ chip_complete (BitwiseChip.eval rrs cfg) r) /\
     (ev_opcode event = SLT \/ ev_opcode event = SLTU ->
      exists r, LtChip.event_to_row user event rec = Ok r /\ chip_complete (LtChip.eval rrs cfg) r)).
Proof.
  intros Hcfg He Hrrs. split; [|split]; intros rec Hr.
  - split; [|split; [|split]].
    + apply add_chip_completes; assumption.
    + apply sub_chip_completes; assumption.
    + apply subw_chip_completes; assumption.
    + intros Ho. apply mul_chip_completes; assumption.
  - apply addi_chip_completes; assumption.
  - split; [|split].
    + apply addw_chip_completes; assumption.
    + intros Ho. apply bitwise_chip_completes; assumption.
    + intros Ho. apply lt_chip_completes; assumption.
Qed.

Lemma alu_trace_complete_witness :
  chip_complete (AddChip.eval Example.rrs Example.cfg) (AddChip.event_to_row false Example.e1 Example.r1).
Proof.
  destruct (alu_trace_complete Example.rrs Example.cfg false Example.e1 Example.cfg_is_ok Example.e1_ok) as [H _].
  - vm_compute. intuition congruence.
  - apply (H Example.r1 Example.r1_ok).
Defined.

(** C5: the trace of the load chips is complete.  For an event of a load whose
    address is a canonical address of memory and whose result is what the
    executor's [execute_load] computes, trace generation does not panic, and its
    row satisfies the chip of the opcode, with exactly the recorded lookups;
    loads to [x0] have a chip of their own. *)
Theorem load_trace_complete (rrs : MajorOpcodes) (cfg : Config) (user : bool) (event : MemInstrEvent) (rec : ITypeRecord) :
  cfg_ok cfg user -> mem_event_ok event rec -> load_event_ok event ->
  (it_op_a rec <> 0 ->
   (me_opcode event = LB \/ me_opcode event = LBU ->
    exists r, LoadByteChip.event_to_row user event rec = Ok r /\ chip_complete (LoadByteChip.eval rrs cfg) r) /\
   (me_opcode event = LH \/ me_opcode event = LHU ->
    exists r, LoadHalfChip.event_to_row user event rec = Ok r /\ chip_complete (LoadHalfChip.eval rrs cfg) r) /\
   (me_opcode event = LW \/ me_opcode event = LWU ->
    exists r, LoadWordChip.event_to_row user event rec = Ok r /\ chip_complete (LoadWordChip.eval rrs cfg) r) /\
   (me_opcode event = LD ->
    exists r, LoadDoubleChip.event_to_row user event rec = Ok r /\ chip_complete (LoadDoubleChip.eval rrs cfg) r)) /\
  (it_op_a rec = 0 -> record_prev_value (it_a rec) = 0 -> In (me_opcode event) LoadX0Chip.opcodes ->
   exists r, LoadX0Chip.event_to_row user event rec = Ok r /\ chip_complete (LoadX0Chip.eval rrs cfg) r).
Proof.
  intros Hcfg He Hl. split; [intros Ha; split; [|split; [|split]]|]; intros.
  - apply load_byte_chip_completes; assumption.
  - apply load_half_chip_completes; assumption.
  - apply load_word_chip_completes; assumption.
  - apply load_double_chip_completes; assumption.
  - apply load_x0_chip_completes; assumption.
Qed.

Lemma load_trace_complete_witness :
  exists r, LoadByteChip.event_to_row false Example.e3 Example.r3 = Ok r /\
    chip_complete (LoadByteChip.eval Example.rrs Example.cfg) r.
Proof.
  destruct (load_trace_complete Example.rrs Example.cfg false Example.e3 Example.r3 Example.cfg_is_ok Example.e3_ok
              Example.load_e3_ok) as [H _].
  assert (Ha : it_op_a Example.r3 <> 0) by discriminate. apply H in Ha as [Hb _]. apply Hb. right. reflexivity.
Defined.

(** C6: the trace of the store chips is complete: for an event of a store of a
    register to a canonical address of memory, whose doubleword gets the value
    the executor's [execute_store] computes, the row of trace generation
    satisfies the chip of the opcode, with exactly the recorded lookups. *)
Theorem store_trace_complete (rrs : MajorOpcodes) (cfg : Config) (user : bool) (event : MemInstrEvent) (rec : ITypeRecord) :
  cfg_ok cfg user -> mem_event_ok event rec -> store_event_ok event rec ->
  (me_opcode event = SB ->
   exists r, StoreByteChip.event_to_row user event rec = Ok r /\ chip_complete (StoreByteChip.eval rrs cfg) r) /\
  (me_opcode event = SH ->
   exists r, StoreHalfChip.event_to_row user event rec = Ok r /\ chip_complete (StoreHalfChip.eval rrs cfg) r) /\
  (me_opcode event = SW ->
   exists r, StoreWordChip.event_to_row user event rec = Ok r /\ chip_complete (StoreWordChip.eval rrs cfg) r) /\
  (me_opcode event = SD ->
   exists r, StoreDoubleChip.event_to_row user event rec = Ok r /\ chip_complete (StoreDoubleChip.eval rrs cfg) r).
Proof.
  intros Hcfg He Hs. split; [|split; [|split]]; intros Ho.
  - apply store_byte_chip_completes; assumption.
  - apply store_half_chip_completes; assumption.
  - apply store_word_chip_completes; assumption.
  - apply store_double_chip_completes; assumption.
Qed.

Lemma store_trace_complete_witness :
  exists r, StoreDoubleChip.event_to_row false Example.e2 Example.r2 = Ok r /\
    chip_complete (StoreDoubleChip.eval Example.rrs Example.cfg) r.
Proof.
  destruct (store_trace_complete Example.rrs Example.cfg false Example.e2 Example.r2 Example.cfg_is_ok Example.e2_ok
              Example.store_e2_ok) as (_ & _ & _ & H). apply H. reflexivity.
Defined.

(** C7: the trace of the branch chip is complete: for an event of a branch that
    is taken exactly when the executor takes it, to a target of 48 bits aligned
    to 4, trace generation does not panic and its row satisfies the chip, with
    exactly the recorded lookups. *)
Theorem branch_trace_complete (rrs : MajorOpcodes) (cfg : Config) (user : bool) (event : BranchEvent) (rec : ITypeRecord)
    (taken : bool) :
  cfg_ok cfg user -> branch_event_ok event rec taken ->
  exists r, BranchChip.event_to_row user event rec = Ok r /\ chip_complete (BranchChip.eval rrs cfg) r.
Proof. intros Hcfg. apply branch_chip_completes, Hcfg. Qed.

Lemma branch_trace_complete_witness :
  exists r, BranchChip.event_to_row false Example.e4 Example.r4 = Ok r /\
    chip_complete (BranchChip.eval Example.rrs Example.cfg) r.
Proof.
  exact (branch_trace_complete Example.rrs Example.cfg false Example.e4 Example.r4 true Example.cfg_is_ok Example.e4_ok).
Defined.

(** C8: the trace of the jump chips and of [UTypeChip] is complete.  A jump to
    a target that is not aligned has no row: [JAL] needs a target aligned to 4
    and [JALR] one aligned to 4 after its low bit is cleared. *)
Theorem jump_trace_complete (rrs : MajorOpcodes) (cfg : Config) (user : bool) :
  cfg_ok cfg user ->
  (forall event rec, jump_event_ok event (wrapping_add (je_pc event) (je_b event)) ->
     wrapping_add (je_pc event) (je_b event) mod 4 = 0 -> jal_record_ok event rec ->
     chip_complete (JalChip.eval rrs cfg) (JalChip.event_to_row user event rec)) /\
  (forall event rec, jump_event_ok event (wrapping_add (je_b event) (it_op_c rec)) ->
     wrapping_add (je_b event) (it_op_c rec) mod 4 < 2 -> jalr_record_ok event rec ->
     chip_complete (JalrChip.eval rrs cfg) (JalrChip.event_to_row user event rec)) /\
  (forall event rec, utype_event_ok event rec ->
     chip_complete (UTypeChip.eval rrs cfg) (UTypeChip.event_to_row user event rec)).
Proof.
  intros Hcfg. split; [|split]; intros event rec.
  - apply jal_chip_completes, Hcfg.
  - apply jalr_chip_completes, Hcfg.
  - apply utype_chip_completes, Hcfg.
Qed.

Lemma jump_trace_complete_witness :
  chip_complete (JalChip.eval Example.rrs Example.cfg)
    (JalChip.event_to_row false (mkJumpEvent Example.clk1 65532 65532 JAL 65536 0 0 false)
       (mkJTypeRecord 1 (Example.write 0 0 65536 (Example.clk1 + 4)) 0 0 false)).
Proof.
  destruct (jump_trace_complete Example.rrs Example.cfg false Example.cfg_is_ok) as [H _]. apply H.
  - split; vm_compute; intuition congruence.
  - vm_compute. reflexivity.
  - vm_compute. intuition congruence.
Defined.

(** ** Gadgets *)

(** C9: the multiplication gadget is correct.  For the five multiplication
    instructions, a satisfying row of [MulOperation] has as result the value the
    executor computes, and for all operands the populated columns satisfy the
    constraints, with exactly the recorded byte lookups. *)
Theorem mul_operation_correct (o : Opcode) :
  is_mul_opcode o = true ->
  (forall a b c cols, mul_shape cols -> valid_word b -> valid_word c ->
     sats (MulOperation.eval a b c cols F1 (opF o MUL) (opF o MULH) (opF o MULW) (opF o MULHU) (opF o MULHSU)) ->
     valid_word a /\ alu_value o (word_val b) (word_val c) = Ok (word_val a)) /\
  (forall b c, is_u64 b -> is_u64 c ->
     exists a, alu_value o b c = Ok a /\ is_u64 a /\
     let '(cols, events) := MulOperation.populate b c (opcode_eqb o MULH) (opcode_eqb o MULHSU) (opcode_eqb o MULW) in
     mul_shape cols /\
     complete (MulOperation.eval (word_from_u64 a) (word_from_u64 b) (word_from_u64 c) cols F1
                 (opF o MUL) (opF o MULH) (opF o MULW) (opF o MULHU) (opF o MULHSU)) events).
Proof.
  intros Ho. split; [intros a b c cols; apply mul_sound, Ho | intros b c; apply mul_complete, Ho].
Qed.

Lemma mul_operation_correct_witness :
  exists a, alu_value MULH (2 ^ 64 - 3) 5 = Ok a /\ is_u64 a.
Proof.
  destruct (mul_operation_correct MULH eq_refl) as [_ H].
  destruct (H (2 ^ 64 - 3) 5) as (a & E & Ha & _); [split; lia.. | eauto].
Defined.

(** C10: the comparison gadget is correct.  In a satisfying row of
    [LtOperationSigned] the result bit is the signed, or unsigned, comparison of
    the operands as 64-bit integers; for all operands the populated columns
    satisfy the constraints, with exactly the recorded lookups. *)
Theorem lt_operation_correct (signed : bool) :
  (forall b c cols, valid_word b -> valid_word c ->
     sats (LtOperationSigned.eval_lt_signed b c cols (Fof_bool signed) F1) ->
     U16CompareOperation.bit (LtOperationUnsigned.u16_compare_operation (LtOperationSigned.result cols))
     = Fof_bool (if signed then as_i64 (word_val b) <? as_i64 (word_val c) else word_val b <? word_val c)) /\
  (forall b c, is_u64 b -> is_u64 c ->
     exists cols events,
       LtOperationSigned.populate_signed
         (if (if signed then as_i64 b <? as_i64 c else b <? c) then 1 else 0) b c signed = Ok (cols, events) /\
       complete (LtOperationSigned.eval_lt_signed (word_from_u64 b) (word_from_u64 c) cols (Fof_bool signed) F1) events).
Proof.
  split; [intros b c cols; apply lt_signed_sound | intros b c; apply lt_signed_complete].
Qed.

Lemma lt_operation_correct_witness :
  exists cols events, LtOperationSigned.populate_signed 1 (2 ^ 64 - 1) 3 true = Ok (cols, events).
Proof.
  destruct (lt_operation_correct true) as [_ H].
  destruct (H (2 ^ 64 - 1) 3) as (cols & events & E & _); [split; lia.. | exists cols, events; exact E].
Defined.

(** C11: the bitwise gadget is correct: the sixteen-bit limbs are split into
    bytes whose table lookups give the operation on the whole words, and the
    populated columns satisfy the constraints. *)
Theorem bitwise_operation_correct (o : Opcode) :
  o = AND \/ o = OR \/ o = XOR ->
  (forall b c cols, length (BitwiseOperation.result (BitwiseU16Operation.bitwise_operation cols)) = 8%nat ->
     let '(em, w) := BitwiseU16Operation.eval_bitwise_u16 b c cols (byte_op (bitwise_opcode o)) F1 in
     sats em -> valid_word w /\ alu_value o (word_val b) (word_val c) = Ok (word_val w)) /\
  (forall b c, is_u64 b -> is_u64 c ->
     exists a cols events, alu_value o b c = Ok a /\
       BitwiseU16Operation.populate_bitwise a b c o = Ok (cols, events) /\
       complete (fst (BitwiseU16Operation.eval_bitwise_u16 (word_from_u64 b) (word_from_u64 c) cols
                        (byte_op (bitwise_opcode o)) F1)) events).
Proof.
  intros Ho. split.
  - intros b c cols Hl. pose proof (bitwise_u16_sound (bitwise_opcode o) b c cols) as H.
    destruct (BitwiseU16Operation.eval_bitwise_u16 _ _ _ _ _) as [em w]. intros Hs.
    destruct H as [Vw ->]; [apply (byte_opcode_from_bitwise o Ho) | exact Hl | exact Hs |].
    split; [exact Vw|]. destruct Ho as [-> | [-> | ->]]; reflexivity.
  - intros b c Hb Hc. destruct (bitwise_u16_complete o b c Ho Hb Hc) as (cols & events & E & H).
    exists (bit_op (bitwise_opcode o) b c), cols, events. split; [|auto]. destruct Ho as [-> | [-> | ->]]; reflexivity.
Qed.

Lemma bitwise_operation_correct_witness :
  exists a cols events, alu_value XOR 12 10 = Ok a /\ BitwiseU16Operation.populate_bitwise a 12 10 XOR = Ok (cols, events).
Proof.
  destruct (bitwise_operation_correct XOR) as [_ H]; [auto|].
  destruct (H 12 10) as (a & cols & events & E1 & E2 & _); [split; lia.. | exists a, cols, events; auto].
Defined.

(** C12: the table of small inverses is the field inverse.  The table built by
    the recurrence has, at every index from 1 to [2 ^ 17 - 1], the inverse of the
    index modulo the field order, and a lookup, inside or outside the table, is
    the inverse of its argument; the inverse of a difference of 16-bit limbs is
    that of the field, and only the inverse of zero panics. *)
Theorem small_inverse_correct :
  (forall k, 1 <= k < 2 ^ 17 -> (nth (Z.to_nat k) (small_inverse_table tt) 0 * k) mod KOALA_BEAR_ORDER = 1) /\
  (forall k, 0 < k < KOALA_BEAR_ORDER -> small_int_inverse k = Ok (Finv (Fof k))) /\
  small_int_inverse 0 = Panic /\
  (forall b c, is_u16 b -> is_u16 c -> b <> c -> u16_difference_inverse b c = Ok (Finv (Fof b - Fof c)%F)).
Proof.
  split; [|split; [|split]].
  - exact small_inverse_table_spec.
  - intros k. apply small_int_inverse_in_spec.
  - apply small_int_inverse_0.
  - exact u16_difference_inverse_spec.
Qed.

(** C13: trace generation and the executor agree on division.  The quotient and
    remainder [get_quotient_and_remainder] gives the division chip are the
    values [execute_alu] computes, for the eight instructions and all operands,
    division by zero and the overflowing signed division included. *)
Theorem division_agrees (o : Opcode) (b c : Z) :
  is_u64 b -> is_u64 c ->
  (o = DIV \/ o = DIVU \/ o = DIVW \/ o = DIVUW -> alu_value o b c = Ok (fst (get_quotient_and_remainder b c o))) /\
  (o = REM \/ o = REMU \/ o = REMW \/ o = REMUW -> alu_value o b c = Ok (snd (get_quotient_and_remainder b c o))).
Proof. exact (quotient_remainder_alu o b c). Qed.

Lemma division_agrees_witness :
  alu_value DIVW (2 ^ 31) (2 ^ 64 - 1) = Ok (2 ^ 64 - 2 ^ 31) /\
  alu_value DIVW (2 ^ 31) (2 ^ 64 - 1) = Ok (fst (get_quotient_and_remainder (2 ^ 31) (2 ^ 64 - 1) DIVW)).
Proof.
  split; [reflexivity|]. apply (division_agrees DIVW (2 ^ 31) (2 ^ 64 - 1)); [split; lia | split; lia | auto].
Defined.

(** ** The executor *)

(** C14: loads and stores on bytes.  A store that does not panic changes, in the
    doubleword of its address, the bytes at the address to those of its source,
    and no other; a load that does not panic gives the bytes at its address,
    sign-extended for [LB], [LH] and [LW].  The bytes never cross the end of the
    doubleword. *)
Theorem memory_bytes (o : Opcode) (src addr m v : Z) :
  is_u64 src -> is_u64 m ->
  (store_value o src addr m = Ok v ->
   (offset addr + access_width o <= 8)%nat /\ is_u64 v /\
   to_le_bytes v = take (offset addr) (to_le_bytes m) ++ le_bytes (access_width o) src ++
                   drop (offset addr + access_width o) (to_le_bytes m)) /\
  (load_value o addr m = Ok v ->
   (offset addr + access_width o <= 8)%nat /\ is_u64 v /\
   v = extend o (le_value 8 (take (access_width o) (drop (offset addr) (to_le_bytes m))))).
Proof.
  intros Hs Hm. split; [apply store_value_bytes; assumption|]. intros E.
  destruct (load_value_bytes o addr m v Hm E) as [Hw Ev]. split; [exact Hw|]. split; [|exact Ev].
  eapply extend_u64; eassumption.
Qed.

Lemma memory_bytes_witness :
  to_le_bytes 0x1122_0000_BEEF_0000 = [0; 0; 0xEF; 0xBE; 0; 0; 0x22; 0x11] /\
  (offset 0x20002 + access_width SH <= 8)%nat.
Proof.
  split; [reflexivity|].
  destruct (memory_bytes SH 0xBEEF 0x20002 0x1122_0000_0000_0000 0x1122_0000_BEEF_0000) as [H _]; [split; lia | split; lia|].
  destruct H as [H _]; [vm_compute; reflexivity | exact H].
Defined.

(** C15: a load after a store.  At the same address and width a load gives the
    stored bits, extended as the load does; a load of bytes that the store did
    not touch gives what it gave before, a panic included. *)
Theorem store_load_roundtrip (os ol : Opcode) (src addr addr' m v : Z) :
  is_u64 src -> is_u64 m -> store_value os src addr m = Ok v ->
  (addr' = addr /\ access_width ol = access_width os ->
   forall r, load_value ol addr' v = Ok r -> r = extend ol (src mod 2 ^ (8 * Z.of_nat (access_width os)))) /\
  ((offset addr' + access_width ol <= offset addr \/ offset addr + access_width os <= offset addr')%nat ->
   load_value ol addr' v = load_value ol addr' m).
Proof. exact (store_load os ol src addr addr' m v). Qed.

Lemma store_load_roundtrip_witness :
  load_value LB 0x20003 0x1122_0000_8000_0000 = Ok (2 ^ 64 - 128) /\
  load_value LHU 0x20006 0x1122_0000_8000_0000 = load_value LHU 0x20006 0x1122_0000_0000_0000.
Proof.
  split; [reflexivity|].
  apply (store_load_roundtrip SB LHU 0x80 0x20003 0x20006 0x1122_0000_0000_0000 0x1122_0000_8000_0000);
    [split; lia | split; lia | vm_compute; reflexivity | right; vm_compute; lia].
Defined.

(** C16: the invariant of the executor.  A step that does not panic keeps
    thirty-two 64-bit registers with [x0] zero, a memory of 64-bit values, a
    64-bit program counter and a clock that is 1 modulo 8, if the handler of
    the system calls does. *)
Theorem executor_invariant {M : Type} `{MemoryInv M} (program : Program)
    (ecall_handler : Executor M -> SyscallCode -> Res (Executor M * option Z)) (e e' : Executor M) (stop : bool) :
  handler_ok ecall_handler -> Forall wf_instruction (instructions program) -> exec_inv e ->
  execute_instruction program ecall_handler e = Ok (e', stop) -> exec_inv e'.
Proof. intros He. apply execute_instruction_inv, He. Qed.

Lemma executor_invariant_witness :
  exists e' stop, execute_instruction Example.program (fun _ _ => Panic) Example.start = Ok (e', stop) /\
    exec_inv e'.
Proof.
  destruct (execute_instruction Example.program (fun _ _ => Panic) Example.start) as [[e' stop]|] eqn:E.
  - exists e', stop. split; [reflexivity|].
    apply (executor_invariant Example.program (fun _ _ => Panic) Example.start e' stop).
    + intros e code e1 r _ _ E1. discriminate E1.
    + exact (po_instructions _ Example.program_is_ok).
    + exact Example.start_inv.
    + exact E.
  - exfalso. assert (H : match execute_instruction Example.program (fun _ _ => Panic) Example.start with
      | Ok _ => true | Panic => false end = true) by (vm_compute; reflexivity). rewrite E in H. discriminate H.
Defined.


(** ** Representations *)

(** C18: words and 64-bit integers.  [Word::from] followed by [Word::to_u64] is
    the identity on 64-bit integers, [Word::to_u64] followed by [Word::from] is
    the identity on words of 16-bit limbs, and [Word::to_u64] panics exactly on
    the other words. *)
Theorem word_roundtrip :
  (forall x, is_u64 x -> word_to_u64 (word_from_u64 x) = Ok x) /\
  (forall w v, word_to_u64 w = Ok v -> word_from_u64 v = w) /\
  (forall w, word_to_u64 w = Panic <-> ~ valid_word w).
Proof.
  split; [|split].
  - intros x Hx. rewrite word_to_u64_valid by apply valid_word_from. rewrite word_val_from by exact Hx. reflexivity.
  - intros w v E. assert (V : valid_word w).
    { destruct (word_to_u64_panics w) as [_ H]. destruct (valid_word_dec w) as [V | V]; [exact V|].
      rewrite (H V) in E. discriminate E. }
    rewrite (word_to_u64_valid w V) in E. apply Ok_inj in E as <-. apply word_from_val, V.
  - exact word_to_u64_panics.
Qed.

(** ** Byte lookups *)

(** C19: the byte and range tables are exact.  A byte message is one that
    satisfied rows may look up exactly when some row of the preprocessed byte
    table, for some opcode, or some row of the range table receives it. *)
Theorem byte_tables_exact (vs : list F) (mult : F) :
  byte_lookup_ok vs = true <->
  (exists local o, In local (ByteChip.trace tt) /\ In o ByteChip.byte_table /\
     ByteChip.receive local o mult = Ok [recv (vs, mult)]) \/
  (exists local, In local (RangeChip.trace tt) /\ RangeChip.eval local mult = [recv (vs, mult)]).
Proof. exact (tables_exact vs mult). Qed.

(** C20: the byte bus balances.  Take rows that satisfy their constraints and
    make the lookups recorded for them, the record counting the events densely
    or in its map.  The counting does not panic, and the tables with the
    multiplicities made from the counts receive every message with the total
    multiplicity with which the rows send it. *)
Theorem byte_bus_balanced (rows : list (list Emit * list ByteLookupEvent)) (dense : list ByteLookupEvent)
    (lookups : list (ByteLookupEvent * Z)) :
  Forall (fun p => complete (fst p) (snd p)) rows -> Forall event_typed (concat (map snd rows)) ->
  Permutation (concat (map snd rows)) (dense ++ map_events lookups) -> Forall (fun p => 0 < snd p) lookups ->
  Z.of_nat (length (concat (map snd rows))) < 2 ^ 32 ->
  exists counts bm rm em,
    add_byte_lookup_events (zero_counts tt) dense = Ok counts /\
    ByteChip.generate_trace counts lookups = Ok bm /\ RangeChip.generate_trace counts lookups = Ok rm /\
    table_rows bm rm = Ok em /\ forall vs, sent vs (concat (map fst rows)) = received vs em.
Proof. exact (rows_balanced rows dense lookups). Qed.

Lemma byte_bus_balanced_witness :
  let row := send_byte (byte_op BAND) (Fof 8) (Fof 12) (Fof 10) F1 in
  exists counts bm rm em,
    add_byte_lookup_events (zero_counts tt) [mkByteLookupEvent BAND 8 12 10] = Ok counts /\
    ByteChip.generate_trace counts [] = Ok bm /\ RangeChip.generate_trace counts [] = Ok rm /\
    table_rows bm rm = Ok em /\ forall vs, sent vs (concat [row]) = received vs em.
Proof.
  intros row. apply (byte_bus_balanced [(row, [mkByteLookupEvent BAND 8 12 10])] [mkByteLookupEvent BAND 8 12 10] []).
  - constructor; [|constructor]. split; [apply satsb_spec; vm_compute; reflexivity|].
    apply perm_skip, perm_nil.
  - repeat constructor; vm_compute; intuition congruence.
  - apply Permutation_refl.
  - constructor.
  - reflexivity.
Defined.

(** C21: a balanced byte bus answers the lookups.  If rows whose byte lookups
    have boolean multiplicity balance the tables, whatever the multiplicities of
    the tables are, and the rows are fewer than the field order, then every
    lookup made is in a table: the assertions of the rows are all that is left
    of their satisfaction. *)
Theorem byte_bus_sound (bm rm : list F) (em rows : list Emit) :
  table_rows bm rm = Ok em -> (forall vs, sent vs rows = received vs em) ->
  Z.of_nat (length rows) < KOALA_BEAR_ORDER -> Forall boolean_lookup rows -> Forall assertion_holds rows -> sats rows.
Proof. exact (balanced_sats bm rm em rows). Qed.

Lemma byte_bus_sound_witness : sats (send_byte (byte_op BAND) (Fof 8) (Fof 12) (Fof 10) F1).
Proof.
  destruct (rows_balanced [(send_byte (byte_op BAND) (Fof 8) (Fof 12) (Fof 10) F1, [mkByteLookupEvent BAND 8 12 10])]
              [mkByteLookupEvent BAND 8 12 10] []) as (counts & bm & rm & em & _ & _ & _ & Et & Hbal).
  - constructor; [|constructor]. split; [apply satsb_spec; vm_compute; reflexivity|].
    apply perm_skip, perm_nil.
  - repeat constructor; vm_compute; intuition congruence.
  - apply Permutation_refl.
  - constructor.
  - reflexivity.
  - apply (byte_bus_sound bm rm em _ Et).
    + exact Hbal.
    + reflexivity.
    + constructor; [|constructor]. intros _. split; [reflexivity | right; reflexivity].
    + repeat constructor.
Defined.

(** C22: concurrent counting is sequential counting.  In every interleaving of
    any number of calls of [ByteLookupCounts::count], when all of them have
    returned, the summed counts are those of one counter that adds the events of
    all calls to the summed counts of the start; at most 32 arrays are kept and
    no array is lost. *)
Theorem concurrent_counts (c c' : ByteLookupCounts) (calls : list (list ByteLookupEvent))
    (ws : list (list ByteLookupEvent * Phase)) :
  counts_ok c -> slots_ok (concat calls) -> rtc system_step (start c calls) (c', ws) -> all_finished ws ->
  counts_ok c' /\ add_byte_lookup_events (sum c) (concat calls) = Ok (sum c').
Proof. exact (run_counts c c' calls ws). Qed.

Lemma concurrent_counts_witness :
  let e := mkByteLookupEvent BRange 5 8 0 in
  exists c' ws, all_finished ws /\ add_byte_lookup_events (sum default_counts) [e; e; e] = Ok (sum c').
Proof.
  intros e. assert (Hc : counts_ok default_counts) by (repeat split; cbn; auto; unfold MAX_FREE_ARRAYS; lia).
  assert (Hs : slots_ok (concat [[e; e]; [e]])) by (repeat constructor; vm_compute; intuition congruence).
  destruct (run_finishes default_counts default_counts [[e; e]; [e]] _ Hc Hs (rtc_refl _ _)) as (c' & ws & Hr & Hf).
  exists c', ws. split; [exact Hf|].
  apply (concurrent_counts default_counts c' [[e; e]; [e]] ws Hc Hs Hr Hf).
Defined.

(** C23: no call waits for ever.  An action of a run either makes progress,
    which happens at most seven times per call, or is a call that waits for an
    array; and as long as a call has not returned, some call can make progress. *)
Theorem counts_progress (c c' : ByteLookupCounts) (calls : list (list ByteLookupEvent))
    (ws : list (list ByteLookupEvent * Phase)) :
  counts_ok c -> slots_ok (concat calls) -> rtc system_step (start c calls) (c', ws) ->
  0 <= over rank ws /\ over rank (snd (start c calls)) = 7 * Z.of_nat (length calls) /\
  (forall st, system_step (c', ws) st -> st = (c', ws) \/ over rank (snd st) < over rank ws) /\
  (all_finished ws \/ exists st, system_step (c', ws) st /\ over rank (snd st) < over rank ws).
Proof.
  intros Hc Hs Hr. split; [apply rank_nonneg|]. split; [apply start_rank|]. split; [apply step_rank|].
  destruct (all_finished_dec ws) as [Hf | Hf]; [auto|]. right. eapply run_progress; eassumption.
Qed.

Lemma counts_progress_witness :
  let e := mkByteLookupEvent BRange 5 8 0 in
  exists st, system_step (start default_counts [[e]; [e]]) st /\ over rank (snd st) < 14.
Proof.
  intros e. assert (Hc : counts_ok default_counts) by (repeat split; cbn; auto; unfold MAX_FREE_ARRAYS; lia).
  assert (Hs : slots_ok (concat [[e]; [e]])) by (repeat constructor; vm_compute; intuition congruence).
  destruct (counts_progress default_counts default_counts [[e]; [e]] _ Hc Hs (rtc_refl _ _)) as (_ & E & _ & [Hf | Hp]).
  - inversion Hf as [|? ? H]; discriminate H.
  - change 14 with (7 * Z.of_nat (length [[e]; [e]])). rewrite <- E. exact Hp.
Defined.

(** C24: serialized counts.  Deserializing the serialized counts gives counts
    with the same sums; deserialization never panics, and it fails exactly when a
    slot is out of range or the counts of a slot do not fit 32 bits. *)
Theorem counts_serialization :
  (forall c, counts_ok c -> exists c', deserialize (serialize c) = Ok (Some c') /\ counts_ok c' /\ sum c' = sum c) /\
  (forall pairs, Forall (fun p => 0 <= fst p /\ 0 <= snd p) pairs ->
     (deserialize pairs = Ok None <->
      (exists p, In p pairs /\ BYTE_LOOKUP_SLOTS <= fst p) \/ (exists s, U32_MAX < pair_sum s pairs)) /\
     deserialize pairs <> Panic).
Proof. split; [exact serialize_roundtrip | exact deserialize_cases]. Qed.

(** ** Trace generation of the remaining ALU chips *)

(** C25: the traces of the shift chips and of the [x0] chip are complete.  For an
    event that records an execution of one of the six shifts, by a register or by
    an immediate, the generated row satisfies the shift chip with exactly the
    recorded lookups.  For every ALU instruction with destination [x0] the row is
    made without a panic and satisfies the [x0] chip, opcode selectors included. *)
Theorem shift_x0_trace_complete (rrs : MajorOpcodes) (cfg : Config) (user : bool) (event : AluEvent) (rec : ALUTypeRecord) :
  cfg_ok cfg user -> clk_ok (ev_clk event) ->
  (alu_event_ok event -> shift_rrs_ok rrs -> alu_record_ok event rec -> imm_record_ok rec ->
   (ev_opcode event = SLL \/ ev_opcode event = SLLW ->
    chip_complete (ShiftLeftChip.eval rrs cfg) (ShiftLeftChip.event_to_row user event rec)) /\
   (In (ev_opcode event) ShiftRightChip.opcodes ->
    chip_complete (ShiftRightChip.eval rrs cfg) (ShiftRightChip.event_to_row user event rec))) /\
  (In (ev_opcode event) selector_opcodes -> x0_record_ok event rec ->
   exists r, AluX0Chip.event_to_row rrs user event rec = Ok r /\ chip_complete (AluX0Chip.eval rrs cfg) r).
Proof.
  intros Hcfg Hclk. split.
  - intros He Hrrs Hr Hi. split; intros Ho; [apply shift_left_chip_completes | apply shift_right_chip_completes]; assumption.
  - intros Ho Hr. apply alu_x0_chip_completes; assumption.
Qed.

Lemma shift_x0_trace_complete_witness :
  let event := mkAluEvent Example.clk1 65532 SRAW (2 ^ 64 - 2) (2 ^ 32 - 16) 3 false in
  let rec := mkALUTypeRecord 3 (Example.write 0 0 (2 ^ 64 - 2) (Example.clk1 + 4)) 1
               (Example.read (2 ^ 32 - 16) (Example.clk1 + 3) 0) 3 None true false in
  chip_complete (ShiftRightChip.eval Example.rrs Example.cfg) (ShiftRightChip.event_to_row false event rec).
Proof.
  intros event rec.
  destruct (shift_x0_trace_complete Example.rrs Example.cfg false event rec Example.cfg_is_ok) as [H _].
  - vm_compute. intuition congruence.
  - destruct H as [_ H].
    + split; vm_compute; intuition congruence.
    + vm_compute. intuition congruence.
    + vm_compute. intuition congruence.
    + reflexivity.
    + apply H. cbn. tauto.
Defined.

(** C26: the trace of the division chip is complete.  For an event that records
    an execution of one of the eight divisions, division by zero and signed
    overflow included, trace generation does not panic, and its row satisfies the
    chip with exactly the recorded lookups.  The padding row satisfies the chip
    and looks up nothing. *)
Theorem divrem_trace_complete (rrs : MajorOpcodes) (cfg : Config) (user : bool) :
  cfg_ok cfg user ->
  (forall event rec, alu_event_ok event -> r_record_ok event rec -> In (ev_opcode event) DivRemChip.opcodes ->
     exists r, DivRemChip.event_to_row user event rec = Ok r /\
       chip_complete (fun local => DivRemChip.eval local rrs cfg) r) /\
  chip_complete (fun local => DivRemChip.eval local rrs cfg) (DivRemChip.padding_row user, []).
Proof.
  intros Hcfg. split; [|apply divrem_padding_completes, Hcfg].
  intros event rec He Hr Ho. apply divrem_chip_completes; assumption.
Qed.

Lemma divrem_trace_complete_witness :
  let event := mkAluEvent Example.clk1 65532 DIV (2 ^ 63) (2 ^ 63) (2 ^ 64 - 1) false in
  let rec := mkRTypeRecord 3 (Example.write 0 0 (2 ^ 63) (Example.clk1 + 4)) 1 (Example.read (2 ^ 63) (Example.clk1 + 3) 0) 2
               (Example.read (2 ^ 64 - 1) (Example.clk1 + 2) 0) false in
  exists r, DivRemChip.event_to_row false event rec = Ok r /\
    chip_complete (fun local => DivRemChip.eval local Example.rrs Example.cfg) r.
Proof.
  intros event rec. destruct (divrem_trace_complete Example.rrs Example.cfg false Example.cfg_is_ok) as [H _].
  apply H; [split; vm_compute; intuition congruence | vm_compute; intuition congruence | cbn; tauto].
Defined.
